(* ===== verification/_CoqProject ===== *)
-Q . S2P
Prelude.v
Labgob.v
LabgobCheck.v
Persister.v
Raft.v
RaftFacts.v
RaftPeer.v
RaftApply.v
RaftSpec.v
RaftCluster.v
RaftCommands.v
RaftRefine.v
RaftSafety.v
RaftLog.v
Labrpc.v
LabrpcRun.v
LabrpcFacts.v
LabrpcClaims.v
LabrpcTests.v
LabrpcEnds.v
RaftConfig.v
KVConfig.v
RaftTester.v
Commands.v
Clerks.v
Service.v
KVModel.v
KVServer.v
KVStateMachine.v
KVHandlers.v
ClerkLoop.v
KVClerk.v
Bitset.v
Porcupine.v
PorcupineList.v
PorcupineSearch.v
PorcupineHistory.v
PorcupineCheck.v
PorcupineVisual.v
PorcupineKV.v
KVCluster.v
KVLinear.v
ShardCtrler.v
ShardBalance.v
ShardCtrlerFacts.v
ShardCtrlerClerk.v
CtrlerService.v
ShardKV.v
ShardKVFacts.v
ShardGroups.v
ShardMigration.v
CtrlerLinear.v
ShardKVClerk.v
MapReduce.v
MapReduceFacts.v
MapReduceRun.v
MapReduceJob.v
