(* ===== verification/Prelude.v ===== *)
(** * Verification of the distributed-systems labs

    This library models the Go programs under [src/code/src]: the Raft library
    ([raft/]), the key/value service on top of it ([kvraft/], [models/kv.go]),
    the shard controller ([shardctrler/]), the sharded key/value service
    ([shardkv/]), MapReduce ([mr/], [main/mrsequential.go], [mrapps/]), the
    linearizability checker ([porcupine/]), and what the tests run them on: the
    simulated network ([labrpc/]) and the testers of Raft ([raft/config.go])
    and of the key/value service ([kvraft/config.go]).
    It proves what makes them correct.

    ** How the parts fit together

    A [Raft] peer keeps a log of commands.  Peers exchange [RequestVote],
    [AppendEntries] and [InstallSnapshot] RPCs; a peer hands what is committed
    to its service over [applyCh].  The services ([KVServer], [ShardCtrler],
    [ShardKV]) put client requests into the log with [Start], apply what comes
    back, answer the handler that waits, and give Raft snapshots of their
    state.  A clerk sends each request to the servers in turn until one
    accepts it.  The replica groups of the sharded service ask the shard
    controller for configurations and move shards between each other.
    MapReduce is separate: a coordinator, workers and a shared directory.  The
    checker takes the history of a run of the key/value service, with the times
    of calls and returns, and decides whether it is linearizable.  Calls go
    over [labrpc]: a caller's end is connected to a server, and the tester
    enables and disables ends and registers and removes servers; a call may be
    lost, late, or answered although nobody waits any more.

    ** The files

    - This file: record update, Go slices and integers, shared lemmas and
      tactics.
    - Labgob.v, Persister.v: the encoder and the stable storage.  LabgobCheck.v:
      what [labgob] checks of types and of variables that are decoded into.
    - Raft.v: [raft/raft.go].  The record [Raft] has the fields of the struct,
      in its order; there is a definition for each stretch of a method that
      runs with [rf.mu] held, and [run_section] runs any of them.  RaftFacts.v
      has the lemmas, RaftPeer.v the claims about one peer (crashes, votes,
      AppendEntries, the commit rule, snapshots).  RaftApply.v adds [applyCh]:
      the service sees every committed index once and in order.
      RaftCluster.v puts peers, goroutines, RPCs and the snapshots handed to
      the services in one step relation, [cl_step], and proves election safety.
      [cl_does] is the same relation with a label that says which section ran
      or which peer crashed.  RaftCommands.v follows the commands: what is in
      a log was given to [Start], and where no service takes a snapshot no log
      is compacted.
    - RaftSpec.v: the protocol as an abstract specification, [spec_step], with
      whole logs and no messages; its invariant gives leader completeness and
      that committed logs never disagree.  RaftRefine.v: the cluster implements
      it; the abstraction [refines] gives each peer the log it would have
      without compaction.  RaftSafety.v: what follows for the peers (log
      matching, leader completeness, state machine safety, agreement of what
      is applied), and a run.  RaftLog.v: what services need of all this: one
      log of which every batch on an [applyCh] is a stretch.
    - Labrpc.v: the operations of the network and of servers, and the code of
      [Call], [processReq] and [dispatch] between two points at which it waits.
      LabrpcRun.v: calls, the network, handlers and the tester step by step
      ([perform]).  LabrpcFacts.v: what the steps keep.  LabrpcClaims.v: calls
      run at most once, what a positive reply means, when a call cannot fail,
      that every call returns, types, and counts.  LabrpcTests.v: a run.
    - LabrpcEnds.v: the ends that a tester makes and switches.  RaftConfig.v:
      which peers the tester of Raft lets talk, over that network.  KVConfig.v:
      the same for the tester of the key/value service, its partitions and its
      clerks; [Links] says who can talk to whom, and [cfg_ok] that exactly the
      ends of these links are enabled, and those of deleted clerks that were.
      RaftTester.v: the tester's copies of what peers apply and its checks,
      which no run of the peers violates ([TestSystem], [ts_step]).  An
      instance that was shut down goes on delivering what it had committed,
      and takes no other step.
    - KVModel.v: the sequential specification.  KVServer.v: the server.
      KVStateMachine.v: a server's state is the specification's state after a
      prefix of the log, with every client request applied once.  KVHandlers.v
      interleaves the handlers with the apply loop: a client is told [OK] only
      for a request that was applied.  ClerkLoop.v, KVClerk.v: the clerks.
    - Commands.v, Clerks.v, Service.v: any service on Raft as a whole, with
      three interfaces.  [Commands]: a state machine over a log in which a
      repeated change is ignored; operations with a point each in the log,
      inside their interval, linearize.  [Clerks]: numbered calls, one at a
      time; what clerks keep.  [Server]: what a server does, and [ServerLaws]
      the contract that it keeps.  The cluster of Raft peers, a server on each,
      handlers, clerks and a network of requests and replies are one relation,
      [sy_step], with the clock a history is taken with; every service that
      keeps the contract follows one log and is linearizable ([sys_server],
      [sys_linearizable]).
    - KVCluster.v: the key/value service keeps the contract.  KVLinear.v: the
      history of every run is linearizable, and the repository's own checker
      does not answer [Illegal] on it.  The servers run with
      [maxraftstate == -1]: with snapshots a server can be rolled back
      ([stale_snapshot_rolls_back]).
    - ShardCtrler.v, ShardBalance.v, ShardCtrlerFacts.v, ShardCtrlerClerk.v:
      the controller; its configurations are numbered, complete, balanced, and
      do not depend on the order in which Go ranges over maps ([MapOrder]); the
      requests that make a replica panic ([poison]).  CtrlerService.v: the
      controller keeps the contract of Service.v, with clerks that ask for
      anything.  CtrlerLinear.v: its histories are linearizable, all replicas
      and all queries see one history of configurations, and it is the
      [ConfigHistory] the groups rely on.
    - ShardKV.v, ShardKVFacts.v: one server of a replica group.  ShardGroups.v:
      several groups that move shards; the controller is the interface
      [ConfigHistory].  ShardMigration.v has the claims (at most one group
      serves a shard, the contents are the writes clients made, each once, no
      reachable command panics).  ShardKVClerk.v: the clerk.
    - MapReduce.v, MapReduceFacts.v, MapReduceRun.v, MapReduceJob.v: the tasks,
      the coordinator and the workers, what a reduce task reads of what a map
      task wrote ([mr_partition]), up to the equality of a finished job's
      output with the sequential program's lines.
    - Bitset.v, Porcupine.v: the checker; [checkSingle] is a search with a
      stack ([searchLoop], [tryCall], [backtrack]) over a doubly linked list of
      entries, a heap of nodes with pointers.  PorcupineList.v: building the
      list, [lift] and [unlift].  PorcupineSearch.v: the search finds a
      linearization exactly when there is one; [path] is the specification.
      PorcupineHistory.v: histories of operations, [linearizable].
      PorcupineCheck.v: the goroutines, the time-out and the entry points.
      PorcupineVisual.v: the data of the picture of a verbose result; it
      never panics and shows what the checker reported.
      PorcupineKV.v: with [KvModel] the answer is about the whole service.

    ** Conventions

    Go's [int] is [Z]: the counters of these programs (terms, indices, request
    numbers) do not come near the width of the machine word; [ihash] is
    computed with its 32-bit wrap-around.  A run-time panic, a failed type
    assertion or [log.Fatal] is [None].  A map is a [gmap], a slice a list,
    a channel a position in a heap of buffers where its identity matters.  The
    order in which Go ranges over a map is an argument of the definition where
    it can matter.  A lock is a critical section: methods are split where they
    release it, and the step relations interleave the pieces.  Crashes drop
    all but the persister.  The wall clock, random time-outs, the encoding of
    values as bytes, [encoding/json], [sort.Sort] and [sort.Slice] are parameters or
    nondeterminism.  What [reflect] and [encoding/gob] do for [labrpc] is the
    interface [Reflect].

    ** Fuel and bounds

    [commitScan] and [collectLoop] take the number of turns the loop makes at
    most.  [ClerkLoop.retry] and the clerk of the sharded service run until
    they are answered: their fuel counts rounds, and [clerk_returns_first_ok]
    and [skv_clerk_answered] say that it is enough as soon as it exceeds the
    round of the first answer.  [reduce_loop] takes one unit for each key.
    [searchLoop] takes one unit for each turn; [enough n] turns are enough for
    [n] operations ([check_single_decides]).  [checkType] takes one unit for
    each nested call; more than there are types is enough ([checkType_exact]).

    ** Not modelled

    - Of [raft/config.go], [applierSnap], which takes snapshots from the apply
      channel, the loops of [one] and [wait], which depend on real time, and
      the statistics of [begin] and [end]; of [kvraft/config.go] the sizes of
      the persisters and the statistics.  [shardctrler/config.go] has the same
      functions for its servers; [shardkv/config.go] and the [test_test.go]:
      test code.
    - The clusters of RaftCluster.v and Service.v do not run on the network
      of LabrpcRun.v: an RPC is its own request and reply there, which may be
      lost, late and reordered in every way [labrpc] can make it so.
    - Of [porcupine/visualization.go], the JSON and the HTML page the data is
      written into.
    - The other programs of [main/], [mrapps/] but for [nocrash.go]: command
      lines around the libraries, exits and sleeps.
    - [Monitor] of [shardkv/server.go] and [DPrintf]: timer loops and output. *)
From stdpp Require Import base tactics list gmap strings numbers sorting.

(** ** Record update

    A Go method assigns fields of its receiver in sequence.  The notations
    [r <| f := v |>] and [r <| f ::= g |>] write one such assignment; the
    setter of a field is derived from the [RecordEta] instance of the record,
    so that reading a field of an updated record computes by [cbn]. *)
Class RecordEta (R : Type) := record_eta : R → R.
Class FieldUpdate {R E : Type} (get : R → E) := update_field : (E → E) → R → R.

Ltac term_head t := lazymatch t with ?f _ => term_head f | _ => t end.

Ltac derive_field_update :=
  lazymatch goal with
  | |- @FieldUpdate ?R ?E ?get =>
      let inst := eval cbv beta delta [record_eta] in (@record_eta R _) in
      let h := term_head inst in
      let rebuilt := eval cbv beta delta [h] in inst in
      lazymatch eval pattern get in rebuilt with
      | ?body _ =>
          let setter :=
            eval cbv beta in (fun (up : E → E) => body (fun r => up (get r))) in
          exact setter
      end
  end.

#[export] Hint Extern 0 (FieldUpdate _) => derive_field_update : typeclass_instances.

Declare Scope go_scope.
Delimit Scope go_scope with go.

Notation "r <| f ::= g |>" := (update_field (get:=f) g r)
  (at level 1, f at level 9, left associativity) : go_scope.
Notation "r <| f := v |>" := (update_field (get:=f) (λ _, v) r)
  (at level 1, f at level 9, left associativity) : go_scope.

(** ** Go slices and maps

    [len], [xs[i]] and [xs[i:]] with an [int] index.  [idx] is the checked
    access: [None] is the run-time panic of an index out of range.  [rd] and
    [wr] are the accesses the source makes at an index that is a peer number;
    the invariants show that it is in range there. *)
Definition len {A} (l : list A) : Z := Z.of_nat (length l).
Definition in_range {A} (i : Z) (l : list A) : bool := (0 <=? i)%Z && (i <? len l)%Z.
Definition idx {A} (l : list A) (i : Z) : option A :=
  if in_range i l then l !! Z.to_nat i else None.
Definition slice_from {A} (l : list A) (i : Z) : list A := drop (Z.to_nat i) l.
Definition slice_to {A} (l : list A) (i : Z) : list A := take (Z.to_nat i) l.
Definition rd (l : list Z) (i : Z) : Z := default 0%Z (idx l i).
Definition wr (l : list Z) (i v : Z) : list Z :=
  if in_range i l then <[Z.to_nat i := v]> l else l.

(** Reading a missing key of a Go map gives the zero value of its type. *)
Definition map_get {K V} `{Countable K} (zero : V) (m : gmap K V) (k : K) : V :=
  default zero (m !! k).

(** The integers [lo, lo+1, ..., hi] a loop [for i := lo; i <= hi; i++] visits. *)
Definition range (lo hi : Z) : list Z := seqZ lo (hi + 1 - lo).

(** ** Automation *)
Create HintDb go discriminated.
Create Rewrite HintDb go.

(** Turn boolean comparisons in the context and the goal into propositions. *)
Ltac zbool :=
  repeat match goal with
  | H : (_ =? _)%Z = true |- _ => apply Z.eqb_eq in H
  | H : (_ =? _)%Z = false |- _ => apply Z.eqb_neq in H
  | H : (_ <? _)%Z = true |- _ => apply Z.ltb_lt in H
  | H : (_ <? _)%Z = false |- _ => apply Z.ltb_ge in H
  | H : (_ <=? _)%Z = true |- _ => apply Z.leb_le in H
  | H : (_ <=? _)%Z = false |- _ => apply Z.leb_gt in H
  | H : _ && _ = true |- _ => apply andb_true_iff in H as [? ?]
  | H : _ || _ = false |- _ => apply orb_false_iff in H as [? ?]
  | H : _ && _ = false |- _ => apply andb_false_iff in H
  | H : _ || _ = true |- _ => apply orb_true_iff in H
  | H : negb _ = true |- _ => apply negb_true_iff in H
  | H : negb _ = false |- _ => apply negb_false_iff in H
  | H : bool_decide _ = true |- _ => apply bool_decide_eq_true in H
  | H : bool_decide _ = false |- _ => apply bool_decide_eq_false in H
  end.

(** Split on the next conditional of the goal, keeping its equation. *)
Ltac case_if :=
  match goal with
  | |- context [if decide _ then _ else _] => case_decide
  | |- context [if ?b then _ else _] =>
      lazymatch type of b with bool => let E := fresh "E" in destruct b eqn:E end
  end.
Ltac case_if_in H :=
  match type of H with
  | context [if ?b then _ else _] =>
      lazymatch type of b with bool => let E := fresh "E" in destruct b eqn:E end
  end.
Ltac case_ifs := repeat (case_if; cbn in *).
Ltac zsolve :=
  zbool;
  first
    [ lia | done | congruence
    | match goal with H : _ = true ∨ _ |- _ => destruct H; solve [zsolve] end
    | match goal with H : _ = false ∨ _ |- _ => destruct H; solve [zsolve] end
    | idtac ].

(** ** Lists *)
Section lists.
Context {A : Type}.
Implicit Types l : list A.

Lemma len_nonneg l : (0 ≤ len l)%Z.
Proof. unfold len. lia. Qed.

Lemma len_app l k : len (l ++ k) = (len l + len k)%Z.
Proof. unfold len. rewrite length_app. lia. Qed.

Lemma len_cons x l : len (x :: l) = (1 + len l)%Z.
Proof. unfold len. cbn. lia. Qed.

Lemma len_snoc l x : len (l ++ [x]) = (len l + 1)%Z.
Proof. rewrite len_app. done. Qed.

Lemma in_range_spec i l : in_range i l = true ↔ (0 ≤ i < len l)%Z.
Proof. unfold in_range. rewrite andb_true_iff, Z.leb_le, Z.ltb_lt. done. Qed.

Lemma idx_Some i l x :
  idx l i = Some x ↔ (0 ≤ i)%Z ∧ l !! Z.to_nat i = Some x.
Proof.
  unfold idx, in_range. split.
  - case_if; [|done]. zbool. auto.
  - intros [Hi Hl]. pose proof (lookup_lt_Some _ _ _ Hl).
    case_if; [done|]. zbool. unfold len in *. destruct E as [E|E]; zbool; lia.
Qed.

Lemma idx_is_Some i l : (0 ≤ i < len l)%Z → is_Some (idx l i).
Proof.
  intros Hi. unfold idx. rewrite (proj2 (in_range_spec i l)) by done.
  apply lookup_lt_is_Some. unfold len in *. lia.
Qed.

Lemma idx_None i l : ¬ (0 ≤ i < len l)%Z → idx l i = None.
Proof.
  intros Hi. unfold idx. destruct (in_range i l) eqn:E; [|done].
  by apply in_range_spec in E.
Qed.

Lemma idx_app_l i l k : (i < len l)%Z → idx (l ++ k) i = idx l i.
Proof.
  intros Hi. destruct (decide (0 ≤ i)%Z) as [H0|H0].
  - destruct (idx l i) as [x|] eqn:E.
    + apply idx_Some in E as [_ E]. apply idx_Some. split; [done|].
      by apply lookup_app_l_Some.
    + destruct (idx_is_Some i l) as [x Hx]; [lia|congruence].
  - rewrite !idx_None; [done|lia..].
Qed.

Lemma idx_app_r i l k : (len l ≤ i)%Z → idx (l ++ k) i = idx k (i - len l).
Proof.
  intros Hi. pose proof (len_nonneg l).
  destruct (decide (i < len l + len k)%Z) as [H1|H1].
  - destruct (idx_is_Some (i - len l) k) as [x Hx]; [lia|]. rewrite Hx.
    apply idx_Some in Hx as [_ Hx]. apply idx_Some. split; [lia|].
    unfold len in *. rewrite lookup_app_r by lia.
    replace (Z.to_nat i - length l)%nat with (Z.to_nat (i - Z.of_nat (length l))) by lia.
    done.
  - rewrite !idx_None; [done| |rewrite len_app]; lia.
Qed.

Lemma idx_cons_0 x l : idx (x :: l) 0 = Some x.
Proof. by apply idx_Some. Qed.

Lemma idx_cons_pos x l i : (0 < i)%Z → idx (x :: l) i = idx l (i - 1).
Proof.
  intros Hi. change (x :: l) with ([x] ++ l). rewrite idx_app_r; [done|].
  unfold len. cbn. lia.
Qed.

Lemma idx_slice_to l n i : (i < n)%Z → idx (slice_to l n) i = idx l i.
Proof.
  intros Hi. destruct (decide (0 ≤ i < len l)%Z) as [H0|H0].
  - destruct (idx_is_Some i l H0) as [x Hx]. rewrite Hx. apply idx_Some in Hx as [? Hx].
    apply idx_Some. split; [done|]. unfold slice_to. rewrite lookup_take_lt; [done|lia].
  - rewrite !idx_None; [done|done|].
    unfold slice_to, len in *. rewrite length_take. lia.
Qed.

Lemma idx_slice_from l n i :
  (0 ≤ n)%Z → (0 ≤ i)%Z → idx (slice_from l n) i = idx l (n + i).
Proof.
  intros Hn Hi. destruct (decide (n + i < len l)%Z) as [H0|H0].
  - destruct (idx_is_Some (n + i) l) as [x Hx]; [lia|]. rewrite Hx.
    apply idx_Some in Hx as [? Hx]. apply idx_Some. split; [done|].
    unfold slice_from. rewrite lookup_drop. rewrite <- Hx. f_equal. lia.
  - rewrite !idx_None; [done|lia|].
    unfold slice_from, len in *. rewrite length_drop. lia.
Qed.

Lemma len_slice_to l n : (0 ≤ n ≤ len l)%Z → len (slice_to l n) = n.
Proof. unfold slice_to, len. rewrite length_take. lia. Qed.

Lemma len_slice_from l n : (0 ≤ n ≤ len l)%Z → len (slice_from l n) = (len l - n)%Z.
Proof. unfold slice_from, len. rewrite length_drop. lia. Qed.

End lists.

Lemma len_wr l i v : len (wr l i v) = len l.
Proof. unfold wr, len. case_if; [by rewrite length_insert|done]. Qed.

Lemma rd_wr_eq l i v : (0 ≤ i < len l)%Z → rd (wr l i v) i = v.
Proof.
  intros Hi. unfold rd, wr. rewrite (proj2 (in_range_spec i l)) by done.
  unfold idx. rewrite (proj2 (in_range_spec i _)).
  - rewrite list_lookup_insert_eq; [done|]. unfold len in *. lia.
  - unfold len in *. by rewrite length_insert.
Qed.

Lemma rd_wr_ne l i j v : (0 ≤ i)%Z → i ≠ j → rd (wr l i v) j = rd l j.
Proof.
  intros Hi Hij. unfold rd, wr. case_if; [|done]. f_equal. unfold idx, in_range, len.
  rewrite length_insert. case_if; [|done]. zbool.
  rewrite list_lookup_insert_ne; [done|lia].
Qed.

#[export] Hint Rewrite @len_app @len_cons len_wr : go.
#[export] Hint Resolve len_nonneg : go.

(** ** Maps

    A loop that inserts the entries of a map. *)
Lemma foldl_insert_union {K V} `{Countable K} (l : list (K * V)) (acc : gmap K V) :
  NoDup l.*1 → foldl (λ c e, <[e.1 := e.2]> c) acc l = list_to_map l ∪ acc.
Proof.
  revert acc. induction l as [|[k v] l IH]; intros acc Hnd; cbn; [by rewrite map_empty_union|].
  apply NoDup_cons in Hnd as [Hk Hnd]. rewrite IH by done.
  rewrite <- insert_union_l, insert_union_r; [done|]. by apply not_elem_of_list_to_map_1.
Qed.

Lemma foldl_insert_map {K V} `{Countable K} (m acc : gmap K V) :
  foldl (λ c e, <[e.1 := e.2]> c) acc (map_to_list m) = m ∪ acc.
Proof.
  by rewrite foldl_insert_union, list_to_map_to_list by apply NoDup_fst_map_to_list.
Qed.

(** ** Numbered lists *)
Section imap_pair.
Context {A : Type}.
Implicit Types l : list A.

Lemma elem_of_imap_pair l i x : (i, x) ∈ imap pair l ↔ l !! i = Some x.
Proof.
  split.
  - intros (j & y & [= -> ->] & Hy)%elem_of_lookup_imap_1. done.
  - intros Hx. exact (elem_of_lookup_imap_2 pair l x i Hx).
Qed.

Lemma imap_pair_fst l : (imap pair l).*1 = seq 0 (length l).
Proof.
  apply list_eq. intros i. rewrite list_lookup_fmap, list_lookup_imap.
  destruct (l !! i) as [x|] eqn:E; cbn.
  - apply lookup_lt_Some in E. by rewrite lookup_seq_lt.
  - apply lookup_ge_None in E. symmetry. by apply lookup_seq_ge.
Qed.

Lemma imap_pair_snd l : (imap pair l).*2 = l.
Proof.
  apply list_eq. intros i. rewrite list_lookup_fmap, list_lookup_imap. by destruct (l !! i).
Qed.
End imap_pair.

(** ** Lists *)
Lemma alter_at {A} (f : A → A) (l : list A) i x : l !! i = Some x → alter f i l = <[i := f x]> l.
Proof. revert i. induction l as [|y l IH]; intros [|i]; cbn; try done; [by intros [= ->]|]. intros H. f_equal. by apply IH. Qed.

Lemma omap_nil {A B} (f : A → option B) l : (∀ x, x ∈ l → f x = None) → omap f l = [].
Proof.
  induction l as [|x l IH]; intros H; cbn; [done|].
  rewrite (H x) by left. apply IH. intros y Hy. apply H. by right.
Qed.

Lemma mapM_elem {A B} (f : A → option B) l k y : mapM f l = Some k → y ∈ k ↔ ∃ x, x ∈ l ∧ f x = Some y.
Proof.
  intros H%mapM_Some. split.
  - intros Hy. apply list_elem_of_lookup in Hy as [n Hn].
    destruct (Forall2_lookup_r _ _ _ _ _ H Hn) as (x & Hx & Hf). exists x. split; [by eapply list_elem_of_lookup_2|done].
  - intros (x & Hx & Hf). apply list_elem_of_lookup in Hx as [n Hn].
    destruct (Forall2_lookup_l _ _ _ _ _ H Hn) as (y' & Hy & Hf'). simplify_eq. by eapply list_elem_of_lookup_2.
Qed.

(** ** Runs

    A concrete run is taken one step at a time, each state brought to normal
    form before the next step. *)
Lemma rtc_normal {A} (R : A → A → Prop) x y y' z : R x y → y = y' → rtc R y' z → rtc R x z.
Proof. intros H <-. by apply rtc_l. Qed.

Tactic Notation "run" tactic3(tac) := eapply rtc_normal; [tac|vm_compute; reflexivity|].
Ltac by_computing := vm_compute; first [reflexivity|apply list_elem_of_here].

(** ** Sums over lists *)
Section sums.
Local Open Scope Z_scope.
Fixpoint sum_of {A} (f : A → Z) (l : list A) : Z := match l with [] => 0 | x :: l => f x + sum_of f l end.

Lemma sum_of_app {A} (f : A → Z) l1 l2 : sum_of f (l1 ++ l2) = sum_of f l1 + sum_of f l2.
Proof. induction l1 as [|x l1 IH]; cbn; [done|]. rewrite IH. lia. Qed.
Lemma sum_of_insert {A} (f : A → Z) l i x y : l !! i = Some x → sum_of f (<[i := y]> l) = sum_of f l - f x + f y.
Proof.
  revert i. induction l as [|z l IH]; intros [|i]; cbn; try done; [intros [= ->]; lia|].
  intros H. specialize (IH _ H). trans (f z + sum_of f (<[i := y]> l)); [done|lia].
Qed.
Lemma sum_of_le {A} (f : A → Z) l k : (∀ x, x ∈ l → f x ≤ k) → sum_of f l ≤ k * len l.
Proof.
  unfold len. induction l as [|x l IH]; cbn [sum_of length]; [lia|]. intros H.
  pose proof (H x ltac:(left)). pose proof (IH ltac:(intros; apply H; by right)). unfold sum_of in *. lia.
Qed.
Lemma sum_of_zero {A} (f : A → Z) l : Forall (λ x, f x = 0) l → sum_of f l = 0.
Proof. induction 1 as [|x l H _ IH]; cbn; [done|]. lia. Qed.
Lemma sum_of_mono {A} (f g : A → Z) l : (∀ x, f x ≤ g x) → sum_of f l ≤ sum_of g l.
Proof. intros H. induction l as [|x l IH]; cbn; [done|]. specialize (H x). lia. Qed.

End sums.

(** ** Majorities

    The peers' numbers; two sets that each hold more than half of a finite set
    meet. *)
Definition everyone (n : Z) : gset Z := list_to_set (range 0 (n - 1)).

Lemma everyone_spec n i : i ∈ everyone n ↔ (0 ≤ i < n)%Z.
Proof. unfold everyone, range. rewrite elem_of_list_to_set, elem_of_seqZ. lia. Qed.

Lemma size_everyone n : (0 ≤ n)%Z → Z.of_nat (size (everyone n)) = n.
Proof.
  intros. unfold everyone, range. rewrite size_list_to_set by apply NoDup_seqZ.
  rewrite length_seqZ. lia.
Qed.

Lemma majorities_meet `{Countable K} (X Y U : gset K) (n : Z) :
  X ⊆ U → Y ⊆ U → Z.of_nat (size U) = n →
  (n `div` 2 < Z.of_nat (size X))%Z → (n `div` 2 < Z.of_nat (size Y))%Z →
  ∃ k, k ∈ X ∧ k ∈ Y.
Proof.
  intros HX HY HU H1 H2.
  destruct (decide (X ∩ Y = ∅)) as [E|E].
  - exfalso. assert (size (X ∪ Y) ≤ size U) by (apply subseteq_size; set_solver).
    rewrite size_union in * by set_solver.
    pose proof (Z.mod_pos_bound n 2). pose proof (Z.div_mod n 2). lia.
  - apply set_choose_L in E as [k Hk]. set_solver.
Qed.
