(* ===== verification/Labgob.v ===== *)
(** * labgob: the encoder and decoder of persisted state and snapshots

    [labgob] wraps [encoding/gob], a self-describing stream of values.  The
    bytes are not modelled: a byte slice written by an encoder is the list of
    the values encoded into it, in order, and [Decode] into a variable of a
    given type succeeds when the next value of the stream has that type.  [V]
    is the type of the values a client encodes. *)
From stdpp Require Import base list.

Section labgob.
Context {V : Type}.

(** The buffer behind the encoder and the rest of the buffer behind the decoder. *)
Record LabEncoder := mkEncoder { enc_buf : list V }.
Record LabDecoder := mkDecoder { dec_buf : list V }.

Definition NewEncoder : LabEncoder := mkEncoder [].
Definition Encode (e : V) (enc : LabEncoder) : LabEncoder := mkEncoder (enc_buf enc ++ [e]).
Definition Bytes (enc : LabEncoder) : list V := enc_buf enc.

Definition NewDecoder (data : list V) : LabDecoder := mkDecoder data.

(** [Decode] takes the next value off the stream; [None] stands for the error
    of an exhausted stream or of a value of another type. *)
Definition Decode {A} (as_type : V → option A) (dec : LabDecoder) : option A * LabDecoder :=
  match dec_buf dec with
  | [] => (None, dec)
  | v :: rest => (as_type v, mkDecoder rest)
  end.

Definition EncodeAll (vs : list V) : list V := Bytes (foldl (λ e v, Encode v e) NewEncoder vs).

Lemma EncodeAll_app_gen (vs : list V) enc :
  Bytes (foldl (λ e v, Encode v e) enc vs) = enc_buf enc ++ vs.
Proof.
  revert enc. induction vs as [|v vs IH]; intros enc; cbn; [by rewrite app_nil_r|].
  rewrite IH. cbn. by rewrite <- app_assoc.
Qed.

Lemma EncodeAll_eq (vs : list V) : EncodeAll vs = vs.
Proof. apply EncodeAll_app_gen. Qed.

End labgob.
