(* ===== verification/LabgobCheck.v ===== *)
(** * labgob: the checks of types and of variables decoded into

    [checkType] walks over a type once and complains about fields whose name
    does not begin with an upper-case letter; [checkDefault] looks for values
    that are not default in a variable that is decoded into.  A Go type is a
    number in a table: types refer to each other, also in cycles. *)
From stdpp Require Import base tactics strings numbers sets relations gmap list.
From S2P Require Import Prelude.
Open Scope Z_scope.
Open Scope go_scope.

(** What [reflect] tells of a type: its kind with the types it is made of. *)
Inductive Kind :=
| KStruct (name : string) (fields : list (string * Z))
| KElem (elem : Z)                                       (* slice, array, pointer *)
| KMap (key elem : Z)
| KOther.

Inductive Warning :=
| LowerCase (field type : string)
| NonDefault (what : string).

(** The variables of the package, and what was printed. *)
Record Checks := mkChecks { errorCount : Z; checked : gset Z; printed : list Warning }.
#[export] Instance Checks_eta : RecordEta Checks := λ s, mkChecks (errorCount s) (checked s) (printed s).

Section check.

(** The types of the program, and whether the first letter of a name is in
    upper case ([unicode.IsUpper]). *)
Context (types : gmap Z Kind) (IsUpper : string → bool).

Definition kind_of (t : Z) : Kind := default KOther (types !! t).

Definition complain (w : Warning) (s : Checks) : Checks :=
  s <| printed ::= λ l, l ++ [w] |> <| errorCount ::= Z.succ |>.

(** The loop over the fields of a struct. *)
Fixpoint check_fields (check : Z → Checks → option Checks) (name : string) (fields : list (string * Z)) (s : Checks)
    : option Checks :=
  match fields with
  | [] => Some s
  | (f, t) :: fields =>
      let s := if IsUpper f then s else complain (LowerCase f name) s in
      s ← check t s;
      check_fields check name fields s
  end.

Fixpoint checkType (fuel : nat) (t : Z) (s : Checks) : option Checks :=
  match fuel with
  | O => None
  | S fuel =>
      if bool_decide (t ∈ checked s) then Some s
      else
        let s := s <| checked ::= λ c, {[t]} ∪ c |> in
        match kind_of t with
        | KStruct name fields => check_fields (checkType fuel) name fields s
        | KElem elem => checkType fuel elem s
        | KMap key elem => s ← checkType fuel elem s; checkType fuel key s
        | KOther => Some s
        end
  end.

(** [reflect.TypeOf(value)] is [t]. *)
Definition checkValue (fuel : nat) (t : Z) (s : Checks) : option Checks := checkType fuel t s.

(** ** What it does *)

Definition parts (t : Z) : list Z :=
  match kind_of t with
  | KStruct _ fields => fields.*2
  | KElem elem => [elem]
  | KMap key elem => [elem; key]
  | KOther => []
  end.
Definition refers (t u : Z) : Prop := u ∈ parts t.

Definition lower (fields : list (string * Z)) : list string := filter (λ f, IsUpper f = false) fields.*1.
Definition complaints (t : Z) : nat :=
  match kind_of t with KStruct _ fields => length (lower fields) | _ => 0 end.
Definition total (T : gset Z) : nat := sum_list_with complaints (elements T).

Lemma total_union (T1 T2 : gset Z) : T1 ## T2 → total (T1 ∪ T2) = (total T1 + total T2)%nat.
Proof.
  intros Hd. unfold total. by rewrite (elements_disj_union _ _ Hd), sum_list_with_app.
Qed.
Lemma total_empty : total ∅ = 0%nat.
Proof. unfold total. by rewrite elements_empty. Qed.
Lemma total_singleton t : total {[t]} = complaints t.
Proof. unfold total. rewrite elements_singleton. cbn. lia. Qed.

Definition fresh (s s' : Checks) : gset Z := checked s' ∖ checked s.

(** From [s] to [s'] the types [ts] and what they are made of were checked,
    with [n] complaints more than those about the types that are new. *)
Record walked (ts : list Z) (n : nat) (s s' : Checks) : Prop := {
  wk_grow : checked s ⊆ checked s';
  wk_in t : t ∈ ts → t ∈ checked s';
  wk_parts u : u ∈ fresh s s' → (∃ t, t ∈ ts ∧ rtc refers t u) ∧ ∀ v, refers u v → v ∈ checked s';
  wk_count : errorCount s' = errorCount s + Z.of_nat (n + total (fresh s s'))
}.

Lemma walked_nil s : walked [] 0 s s.
Proof.
  assert (fresh s s = ∅) as E by (unfold fresh; set_solver). split; rewrite ?E, ?total_empty; [done|by intros t ?%elem_of_nil| |cbn; lia].
  by intros u ?%elem_of_empty.
Qed.

Lemma walked_app ts1 ts2 n1 n2 s s1 s2 :
  walked ts1 n1 s s1 → walked ts2 n2 s1 s2 → walked (ts1 ++ ts2) (n1 + n2) s s2.
Proof.
  intros [G1 I1 P1 C1] [G2 I2 P2 C2].
  assert (fresh s s2 = fresh s s1 ∪ fresh s1 s2) as E.
  { unfold fresh in *. apply set_eq. intros x. rewrite elem_of_union, !elem_of_difference. destruct (decide (x ∈ checked s1)); set_solver. }
  assert (fresh s s1 ## fresh s1 s2) as Hd by (unfold fresh; set_solver).
  split.
  - by trans (checked s1).
  - intros t [?|?]%elem_of_app; auto.
  - intros u. rewrite E. intros [Hu|Hu]%elem_of_union.
    + destruct (P1 u Hu) as [(t & Ht & Hr) Hp]. split; [|auto]. exists t. split; [|done]. apply elem_of_app. by left.
    + destruct (P2 u Hu) as [(t & Ht & Hr) Hp]. split; [|auto]. exists t. split; [|done]. apply elem_of_app. by right.
  - rewrite C2, C1, E, total_union by done. lia.
Qed.

Lemma walked_complain w s : walked [] 1 s (complain w s).
Proof.
  assert (fresh s (complain w s) = ∅) as E by (unfold fresh; cbn; set_solver).
  split; rewrite ?E, ?total_empty; [done|by intros t ?%elem_of_nil|by intros u ?%elem_of_empty|cbn; lia].
Qed.

Definition mark (t : Z) (s : Checks) : Checks := s <| checked ::= λ c, {[t]} ∪ c |>.

(** A new type, when its parts have been walked over. *)
Lemma walked_type t s s' : t ∉ checked s → walked (parts t) (complaints t) (mark t s) s' → walked [t] 0 s s'.
Proof.
  intros Hnew [G I P C]. cbn in G.
  assert (fresh s s' = {[t]} ∪ fresh (mark t s) s') as E.
  { unfold fresh, mark. cbn. apply set_eq. intros x. rewrite elem_of_union, !elem_of_difference, elem_of_singleton, elem_of_union, elem_of_singleton.
    destruct (decide (x = t)) as [->|]; set_solver. }
  assert ({[t]} ## fresh (mark t s) s') as Hd by (unfold fresh, mark; cbn; set_solver).
  split.
  - set_solver.
  - intros u ->%list_elem_of_singleton. set_solver.
  - intros u. rewrite E. intros [->%elem_of_singleton|Hu]%elem_of_union.
    + split; [exists t; split; [by left|done]|]. intros v Hv. by apply I.
    + destruct (P u Hu) as [(v & Hv & Hr) Hp]. split; [|done]. exists t. split; [by left|]. by eapply rtc_l.
  - rewrite C, E, total_union, total_singleton by done. cbn. lia.
Qed.

Lemma check_fields_walked check name fields s s' :
  (∀ t s s', check t s = Some s' → walked [t] 0 s s') → check_fields check name fields s = Some s' →
  walked fields.*2 (length (lower fields)) s s'.
Proof.
  intros Hc. revert s. induction fields as [|[f t] fields IH]; intros s; cbn [check_fields].
  - intros [= <-]. apply walked_nil.
  - intros (s1 & E & H)%bind_Some. apply Hc in E. apply IH in H. pose proof (walked_app _ _ _ _ _ _ _ E H) as Hw.
    unfold lower in *. cbn [fmap list_fmap fst snd]. rewrite filter_cons. destruct (IsUpper f).
    + by rewrite decide_False.
    + rewrite decide_True by done. exact (walked_app [] _ 1 _ _ _ _ (walked_complain _ s) Hw).
Qed.

Lemma checkType_walked fuel t s s' : checkType fuel t s = Some s' → walked [t] 0 s s'.
Proof.
  revert t s s'. induction fuel as [|fuel IH]; intros t s s'; cbn [checkType]; [done|].
  destruct (decide (t ∈ checked s)) as [Ht|Ht].
  { rewrite bool_decide_true by done. intros [= <-]. destruct (walked_nil s) as [G _ P C]. split; [done| | |done].
    - by intros u ->%list_elem_of_singleton.
    - intros u Hu. destruct (P u Hu) as [(v & []%elem_of_nil & _) _]. }
  rewrite bool_decide_false by done. intros H. apply walked_type; [done|]. fold (mark t s) in H.
  unfold parts, complaints. destruct (kind_of t) as [name fields|elem|key elem|].
  - by eapply check_fields_walked.
  - by apply IH.
  - apply bind_Some in H as (s1 & H1 & H2). exact (walked_app [elem] [key] 0 0 _ _ _ (IH _ _ _ H1) (IH _ _ _ H2)).
  - injection H as <-. apply walked_nil.
Qed.

(** ** It returns *)

(** The types of the table that have not been checked. *)
Definition unchecked (s : Checks) : nat := size (dom types ∖ checked s).

Lemma walked_unchecked ts n s s' : walked ts n s s' → (unchecked s' ≤ unchecked s)%nat.
Proof. intros [G _ _ _]. unfold unchecked. apply subseteq_size. set_solver. Qed.

Lemma mark_unchecked t s : t ∈ dom types → t ∉ checked s → S (unchecked (mark t s)) = unchecked s.
Proof.
  intros Ht Hn. unfold unchecked, mark. cbn.
  assert (dom types ∖ checked s = {[t]} ∪ dom types ∖ ({[t]} ∪ checked s)) as ->.
  { apply set_eq. intros x. rewrite elem_of_union, !elem_of_difference, elem_of_union, elem_of_singleton.
    destruct (decide (x = t)) as [->|]; set_solver. }
  assert ({[t]} ## dom types ∖ ({[t]} ∪ checked s)) as Hd by set_solver.
  by rewrite (size_union _ _ Hd), size_singleton.
Qed.

Lemma check_fields_total check name fields s k :
  (∀ t s, (unchecked s < k)%nat → is_Some (check t s)) → (∀ t s s', check t s = Some s' → walked [t] 0 s s') →
  (unchecked s < k)%nat → is_Some (check_fields check name fields s).
Proof.
  intros Ht Hw. revert s. induction fields as [|[f t] fields IH]; intros s Hs; cbn [check_fields]; [by eexists|].
  set (s0 := if IsUpper f then s else _). assert (unchecked s0 < k)%nat as Hs0 by (unfold s0; by destruct (IsUpper f)).
  destruct (Ht t s0 Hs0) as [s1 E]. rewrite E. cbn. apply IH. pose proof (walked_unchecked _ _ _ _ (Hw _ _ _ E)). lia.
Qed.

Lemma checkType_total fuel t s : (unchecked s < fuel)%nat → is_Some (checkType fuel t s).
Proof.
  revert t s. induction fuel as [|fuel IH]; intros t s Hf; cbn [checkType]; [lia|].
  destruct (decide (t ∈ checked s)) as [Ht|Ht]; [rewrite bool_decide_true by done; by eexists|].
  rewrite bool_decide_false by done. fold (mark t s).
  destruct (decide (t ∈ dom types)) as [Hd|Hd].
  2: { unfold kind_of. rewrite (not_elem_of_dom_1 _ _ Hd). by eexists. }
  pose proof (mark_unchecked t s Hd Ht) as Hm. destruct (kind_of t) as [name fields|elem|key elem|].
  - apply (check_fields_total _ _ _ _ fuel); [exact IH|apply checkType_walked|lia].
  - apply IH. lia.
  - destruct (IH elem (mark t s)) as [s1 E]; [lia|]. rewrite E. cbn. apply IH.
    pose proof (walked_unchecked _ _ _ _ (checkType_walked _ _ _ _ E)). lia.
  - by eexists.
Qed.

(** Whatever was checked had its parts checked. *)
Definition closed (s : Checks) : Prop := ∀ t u, t ∈ checked s → refers t u → u ∈ checked s.

(** C40. [checkType] returns, also for types that refer to each other in cycles:
    it takes as many nested calls as there are types.  Then exactly the types
    that the type refers to, directly or not, have been checked besides those
    checked before, and there was one complaint for each lower-case field of
    each of them that is new; a type is never complained about again. *)
Theorem checkType_exact fuel t s :
  closed s → (unchecked s < fuel)%nat →
  ∃ s', checkType fuel t s = Some s' ∧ closed s' ∧ (∀ u, u ∈ checked s' ↔ u ∈ checked s ∨ rtc refers t u) ∧
    errorCount s' = errorCount s + Z.of_nat (total (checked s' ∖ checked s)) ∧
    ∀ fuel', (0 < fuel')%nat → checkType fuel' t s' = Some s'.
Proof.
  intros Hcl Hf. destruct (checkType_total fuel t s Hf) as [s' E]. exists s'. split; [done|].
  destruct (checkType_walked _ _ _ _ E) as [G I P C]. unfold fresh in P, C. assert (t ∈ checked s') as Ht by (apply I; by left).
  assert (closed s') as Hcl'.
  { intros u v Hu Hv. destruct (decide (u ∈ checked s)) as [Hs|Hs]; [by eapply G, Hcl|].
    eapply (P u); [by apply elem_of_difference|done]. }
  split_and!; [done| |done|].
  - intros u. split.
    + intros Hu. destruct (decide (u ∈ checked s)) as [Hs|Hs]; [by left|right].
      destruct (P u) as [(v & ->%list_elem_of_singleton & Hr) _]; [by apply elem_of_difference|done].
    + intros [Hu|Hr]; [by apply G|]. clear -Ht Hr Hcl'. induction Hr as [|u v w Hu _ IH]; [done|]. apply IH. by eapply Hcl'.
  - intros [|fuel'] Hf'; [lia|]. cbn [checkType]. by rewrite bool_decide_true.
Qed.

(** ** Variables that are decoded into *)

(** A value as [reflect] shows it; the parts of it deeper than the search goes
    do not matter, so that a value with cycles is such a tree as well. *)
Inductive Value :=
| VStruct (fields : list (string * Value))
| VPtr (v : option Value)
| VBasic (type : string) (zero : bool)            (* a boolean, number or string *)
| VOther.

Definition field_name (name f : string) : string := if decide (name = "") then f else name +:+ "." +:+ f.

(** [ro]: the value was reached through a field that is not exported;
    [value.Interface()] panics for such a value. *)
Definition checkBasic (type : string) (zero : bool) (name : string) (ro : bool) (s : Checks) : option Checks :=
  if ro then None
  else if zero then Some s
  else
    let what := if decide (name = "") then type else name in
    Some ((if errorCount s <? 1 then s <| printed ::= λ l, l ++ [NonDefault what] |> else s) <| errorCount ::= Z.succ |>).

Fixpoint checkDefault1 (v : Value) (depth : Z) (name : string) (ro : bool) (s : Checks) : option Checks :=
  if 3 <? depth then Some s
  else
    match v with
    | VStruct fields =>
        (fix loop fields s :=
           match fields with
           | [] => Some s
           | (f, vv) :: fields =>
               s ← checkDefault1 vv (depth + 1) (field_name name f) (ro || negb (IsUpper f)) s;
               loop fields s
           end) fields s
    | VPtr None => Some s
    | VPtr (Some v) => checkDefault1 v (depth + 1) name ro s
    | VBasic type zero => checkBasic type zero name ro s
    | VOther => Some s
    end.

(** [nil] is [None]. *)
Definition checkDefault (value : option Value) (s : Checks) : option Checks :=
  match value with None => Some s | Some v => checkDefault1 v 1 "" false s end.

(** The basic values that the search gets to: the name it has for each,
    whether it is zero, and whether it is behind a field that is not exported. *)
Fixpoint basics (v : Value) (depth : Z) (name : string) (ro : bool) : list (string * bool * bool) :=
  if 3 <? depth then []
  else
    match v with
    | VStruct fields =>
        (fix loop fields :=
           match fields with
           | [] => []
           | (f, vv) :: fields => basics vv (depth + 1) (field_name name f) (ro || negb (IsUpper f)) ++ loop fields
           end) fields
    | VPtr None => []
    | VPtr (Some v) => basics v (depth + 1) name ro
    | VBasic type zero => [(if decide (name = "") then type else name, zero, ro)]
    | VOther => []
    end.
Definition nonzero (l : list (string * bool * bool)) : list string :=
  omap (λ x : string * bool * bool, if x.1.2 then None else Some x.1.1) l.

Fixpoint judge (l : list (string * bool * bool)) (s : Checks) : option Checks :=
  match l with
  | [] => Some s
  | (what, zero, ro) :: l =>
      if (ro : bool) then None
      else judge l (if (zero : bool) then s
                    else (if errorCount s <? 1 then s <| printed ::= λ l, l ++ [NonDefault what] |> else s)
                           <| errorCount ::= Z.succ |>)
  end.

Lemma judge_app l1 l2 s : judge (l1 ++ l2) s = s1 ← judge l1 s; judge l2 s1.
Proof.
  revert s. induction l1 as [|[[what zero] ro] l1 IH]; intros s; cbn; [done|]. destruct ro; [done|apply IH].
Qed.

Lemma Value_induction (P : Value → Prop) :
  (∀ fields, Forall (P ∘ snd) fields → P (VStruct fields)) → P (VPtr None) → (∀ v, P v → P (VPtr (Some v))) →
  (∀ type zero, P (VBasic type zero)) → P VOther → ∀ v, P v.
Proof.
  intros Hs Hn Hp Hb Ho. fix IH 1. intros [fields|[v|]|type zero|]; [|by apply Hp|done|done|done].
  apply Hs. induction fields as [|[f v] fields IHf]; constructor; [apply IH|exact IHf].
Qed.

Lemma checkDefault1_judge v depth name ro s : checkDefault1 v depth name ro s = judge (basics v depth name ro) s.
Proof.
  revert depth name ro s. induction v as [fields IH| |v IH|type zero|] using Value_induction; intros depth name ro s; cbn;
    destruct (3 <? depth); try done.
  - revert s. induction IH as [|[f v] fields Hv _ IHf]; intros s; [done|]. rewrite judge_app, <- Hv. cbn.
    destruct (checkDefault1 v _ _ _ s) as [s1|]; [|done]. apply IHf.
  - unfold checkBasic. by destruct ro, zero.
Qed.

Lemma judge_spec l s :
  0 ≤ errorCount s →
  judge l s = if bool_decide (Exists (λ x, x.2 = true) l) then None
    else Some (mkChecks (errorCount s + len (nonzero l)) (checked s)
                (printed s ++ (if errorCount s =? 0 then take 1 (NonDefault <$> nonzero l) else []))).
Proof.
  revert s. induction l as [|[[what zero] ro] l IH]; intros s Hs.
  - cbn. unfold len. cbn. rewrite Z.add_0_r. assert ((if errorCount s =? 0 then [] else []) = @nil Warning) as -> by by destruct (_ =? _).
    rewrite app_nil_r. by destruct s.
  - cbn [judge]. destruct ro; [by rewrite bool_decide_true by by left|].
    rewrite IH by (destruct zero; [done|]; case_if; cbn; lia).
    assert (Exists (λ x, x.2 = true) ((what, zero, false) :: l) ↔ Exists (λ x, x.2 = true) l) as Hex
      by (rewrite Exists_cons; naive_solver).
    rewrite (bool_decide_ext _ _ Hex). case_bool_decide; [done|]. f_equal. destruct zero; [done|].
    unfold nonzero, len. cbn [omap list_omap fst snd]. destruct (errorCount s <? 1) eqn:E; zbool.
    + rewrite (proj2 (Z.eqb_eq (errorCount s) 0)) by lia. cbn. rewrite (proj2 (Z.eqb_neq (Z.succ _) 0)) by lia.
      f_equal; [lia|]. by rewrite take_0, app_nil_r.
    + rewrite (proj2 (Z.eqb_neq (errorCount s) 0)) by lia. cbn. rewrite (proj2 (Z.eqb_neq (Z.succ _) 0)) by lia. f_equal. lia.
Qed.

(** Decoding into a variable counts the basic values that are not zero and at
    most two steps away from it, as the fields of the struct that a pointer
    leads to, and prints a warning about the first one if there was no
    complaint before.  It panics when a basic value there, zero or not, is
    behind a field that is not exported. *)
Theorem checkDefault_exact v s :
  0 ≤ errorCount s → let l := basics v 1 "" false in
  checkDefault (Some v) s =
    if bool_decide (Exists (λ x, x.2 = true) l) then None
    else Some (mkChecks (errorCount s + len (nonzero l)) (checked s)
                (printed s ++ (if errorCount s =? 0 then take 1 (NonDefault <$> nonzero l) else []))).
Proof. intros Hs l. unfold checkDefault. rewrite checkDefault1_judge. by apply judge_spec. Qed.
End check.

(** ** Examples

    Types 1 to 3: a list node with a pointer to itself and a field [next]. *)
Definition some_types : gmap Z Kind :=
  {[1 := KStruct "Node" [("Value", 3); ("next", 2)]; 2 := KElem 1; 3 := KOther]}.
Definition ascii_upper (name : string) : bool :=
  match name with String a _ => (65 <=? Z.of_N (Ascii.N_of_ascii a)) && (Z.of_N (Ascii.N_of_ascii a) <=? 90) | "" => false end.
Definition no_checks : Checks := mkChecks 0 ∅ [].

Lemma checkType_exact_witness :
  ∃ s', checkType some_types ascii_upper 4 2 no_checks = Some s' ∧ errorCount s' = 1 ∧ 3 ∈ checked s' ∧
    checkType some_types ascii_upper 1 1 s' = Some s'.
Proof.
  assert (closed some_types no_checks) as Hc by (intros t u []%elem_of_empty).
  assert (unchecked some_types no_checks < 4)%nat as Hf by (vm_compute; lia).
  destruct (checkType_exact some_types ascii_upper 4 2 no_checks Hc Hf) as (s' & E & Hcl & Hin & Hn & _).
  exists s'. split; [exact E|].
  assert (errorCount s' = 1) as H1.
  { apply (f_equal (option_map errorCount)) in E. vm_compute in E. by injection E. }
  split; [exact H1|]. assert (1 ∈ checked s') as Hi.
  { apply Hin. right. eapply rtc_l; [|apply rtc_refl]. vm_compute. apply list_elem_of_here. }
  split.
  - apply Hin. right. eapply rtc_l; [vm_compute; apply list_elem_of_here|]. eapply rtc_l; [|apply rtc_refl].
    vm_compute. apply list_elem_of_here.
  - cbn [checkType]. rewrite bool_decide_true; [reflexivity|exact Hi].
Defined.

(** A reply that was used before. *)
Example reused_reply :
  printed <$> checkDefault ascii_upper (Some (VPtr (Some (VStruct [("Err", VBasic "string" true); ("Term", VBasic "int" false)]))))
    no_checks = Some [NonDefault "Term"].
Proof. reflexivity. Qed.
