(* ===== verification/Persister.v ===== *)
(** * raft/persister.go: stable storage of one peer

    The two byte slices a peer keeps across a crash.  [R] and [S] are the gob
    values of the Raft state and of the service's snapshot (see Labgob.v).
    [clone] copies a slice: the model's lists are values, so a saved slice
    never aliases the caller's. *)
From stdpp Require Import base list.
From S2P Require Import Prelude.
Open Scope go_scope.

Section persister.
Context {R S : Type}.

Record Persister := mkPersister { raftState : list R; snapshot : list S }.

#[export] Instance Persister_eta : RecordEta Persister :=
  λ p, mkPersister (raftState p) (snapshot p).

Definition MakePersister : Persister := mkPersister [] [].
Definition clone {A} (orig : list A) : list A := take (length orig) orig.
Arguments clone : simpl never.

Definition Copy (ps : Persister) : Persister :=
  MakePersister <| raftState := raftState ps |> <| snapshot := snapshot ps |>.
Definition SaveRaftState (state : list R) (ps : Persister) : Persister :=
  ps <| raftState := clone state |>.
Definition ReadRaftState (ps : Persister) : list R := clone (raftState ps).
Definition SaveStateAndSnapshot (state : list R) (snap : list S) (ps : Persister) : Persister :=
  ps <| raftState := clone state |> <| snapshot := clone snap |>.
Definition ReadSnapshot (ps : Persister) : list S := clone (snapshot ps).

(** The sizes in bytes: the length of an encoding is gob's business, so it is
    a parameter of these two. *)
Definition RaftStateSize (byte_len : list R → Z) (ps : Persister) : Z := byte_len (raftState ps).
Definition SnapshotSize (byte_len : list S → Z) (ps : Persister) : Z := byte_len (snapshot ps).

Lemma clone_id {A} (l : list A) : clone l = l.
Proof. unfold clone. apply firstn_all. Qed.

Lemma ReadRaftState_Save st ps : ReadRaftState (SaveRaftState st ps) = st.
Proof. unfold ReadRaftState. cbn. by rewrite !clone_id. Qed.

Lemma ReadRaftState_SaveBoth st sn ps : ReadRaftState (SaveStateAndSnapshot st sn ps) = st.
Proof. unfold ReadRaftState. cbn. by rewrite !clone_id. Qed.

Lemma ReadSnapshot_SaveBoth st sn ps : ReadSnapshot (SaveStateAndSnapshot st sn ps) = sn.
Proof. unfold ReadSnapshot. cbn. by rewrite !clone_id. Qed.

Lemma ReadSnapshot_Save st ps : ReadSnapshot (SaveRaftState st ps) = ReadSnapshot ps.
Proof. done. Qed.

End persister.

Arguments Persister : clear implicits.

#[export] Hint Rewrite @ReadRaftState_Save @ReadRaftState_SaveBoth @ReadSnapshot_SaveBoth
  @ReadSnapshot_Save @clone_id : go.
