(* ===== verification/Raft.v ===== *)
(** * raft/raft.go: one Raft peer

    The state of a peer and every critical section of its methods: a
    definition per stretch of code that runs while [rf.mu] is held, from the
    [Lock] to the [Unlock] (or the deferred one), in the order the method runs
    them.  Where a method releases the lock to wait for an RPC or to send on
    [applyCh], the next critical section is the next definition.  The random
    durations of the timers are not modelled: [electionTimer] says whether the
    timer is armed.  [Op] is the type of the commands the service submits, [SV]
    the type of the gob values in the service's snapshot. *)
From stdpp Require Import base tactics list strings numbers.
From S2P Require Import Prelude.
From S2P Require Import Labgob.
From S2P Require Import Persister.
Open Scope Z_scope.
Open Scope go_scope.

Inductive Stat := Leader | Follower | Candidate.

#[export] Instance Stat_eq_dec : EqDecision Stat.
Proof. solve_decision. Defined.

Section raft.
Context {Op SV : Type}.

(** The dynamic values a log entry's [Command any] holds: the placeholder
    string of the snapshot base, or a command of the service. *)
Inductive any := AString (s : string) | AOp (o : Op).
Definition NoneCommand : any := AString "".

Record LogEntry := mkEntry { e_Command : any; e_Term : Z }.

(** The values [persist] encodes. *)
Inductive RaftGob := GInt (n : Z) | GLogs (es : list LogEntry).

Record Raft := mkRaft {
  peers : Z;                      (* len(rf.peers) *)
  me : Z;
  dead : bool;
  state : Stat;
  currentTerm : Z;
  votedFor : Z;                   (* -1: nobody *)
  logs : list LogEntry;
  lastIncludedIndex : Z;
  lastIncludedTerm : Z;
  commitIndex : Z;
  lastApplied : Z;
  nextIndex : list Z;
  matchIndex : list Z;
  electionTimer : bool;           (* armed *)
  applying : bool;
  snapshotInFlight : bool;
  persister : Persister RaftGob SV
}.

#[export] Instance Raft_eta : RecordEta Raft := λ r,
  mkRaft (peers r) (me r) (dead r) (state r) (currentTerm r) (votedFor r) (logs r)
    (lastIncludedIndex r) (lastIncludedTerm r) (commitIndex r) (lastApplied r)
    (nextIndex r) (matchIndex r) (electionTimer r) (applying r) (snapshotInFlight r)
    (persister r).

Record RequestVoteArgs := mkRVArgs {
  rva_Term : Z; rva_CandidateID : Z; rva_LastLogIndex : Z; rva_LastLogTerm : Z }.
Record RequestVoteReply := mkRVReply { rvr_Term : Z; rvr_VoteGranted : bool }.
Record AppendEntryArgs := mkAEArgs {
  aea_Term : Z; aea_LeaderID : Z; aea_PrevLogIndex : Z; aea_PrevLogTerm : Z;
  aea_Entries : list LogEntry; aea_LeaderCommitIndex : Z; aea_LeaderCommitTerm : Z }.
Record AppendEntryReply := mkAEReply { aer_Term : Z; aer_Success : bool }.
Record InstallSnapshotArgs := mkISArgs {
  isa_Term : Z; isa_LeaderID : Z; isa_LastIncludedIndex : Z; isa_LastIncludedTerm : Z;
  isa_Data : list SV }.
Record InstallSnapshotReply := mkISReply { isr_Term : Z }.
Record ApplyMsg := mkApplyMsg {
  CommandValid : bool; Command : any; CommandIndex : Z; CommandTerm : Z;
  SnapshotValid : bool; Snapshot_ : list SV; SnapshotTerm : Z; SnapshotIndex : Z }.

Definition commandMsg (c : any) (i t : Z) : ApplyMsg := mkApplyMsg true c i t false [] 0 0.
Definition snapshotMsg (d : list SV) (t i : Z) : ApplyMsg :=
  mkApplyMsg false NoneCommand 0 0 true d t i.

(** ** Log positions *)

Definition lastIndex (rf : Raft) : Z := lastIncludedIndex rf + len (logs rf) - 1.

Definition termAt (rf : Raft) (index : Z) : Z :=
  if index =? lastIncludedIndex rf then lastIncludedTerm rf
  else
    let local := index - lastIncludedIndex rf in
    if (local <? 0) || (len (logs rf) <=? local) then -1
    else default (-1) (e_Term <$> idx (logs rf) local).

(** ** Persistence *)

Definition encodeState (rf : Raft) : list RaftGob :=
  EncodeAll [GInt (currentTerm rf); GInt (votedFor rf); GInt (lastIncludedIndex rf);
             GInt (lastIncludedTerm rf); GLogs (logs rf)].

Definition persist (rf : Raft) : Raft :=
  rf <| persister ::= SaveRaftState (encodeState rf) |>.

Definition as_int (v : RaftGob) : option Z := match v with GInt n => Some n | _ => None end.
Definition as_logs (v : RaftGob) : option (list LogEntry) :=
  match v with GLogs es => Some es | _ => None end.

(** [commitIndex] and [lastApplied] never stay below the snapshot's index. *)
Definition raiseToSnapshot (rf : Raft) : Raft :=
  let rf := if commitIndex rf <? lastIncludedIndex rf
            then rf <| commitIndex := lastIncludedIndex rf |> else rf in
  if lastApplied rf <? lastIncludedIndex rf
  then rf <| lastApplied := lastIncludedIndex rf |> else rf.

Definition setLogsIfAny (es : list LogEntry) (rf : Raft) : Raft :=
  if 0 <? len es then rf <| logs := es |> else rf.

Definition readPersist (data : list RaftGob) (rf : Raft) : Raft :=
  if len data <? 1 then rf
  else
    let '(t1, d) := Decode as_int (NewDecoder data) in
    let '(v2, d) := Decode as_int d in
    let '(i3, d) := Decode as_int d in
    let '(t4, d) := Decode as_int d in
    let '(l5, _) := Decode as_logs d in
    match t1, v2 with
    | Some t, Some v =>
        match i3, t4, l5 with
        | Some i, Some it, Some l =>
            let rf := rf <| currentTerm := t |> <| votedFor := v |>
                         <| lastIncludedIndex := i |> <| lastIncludedTerm := it |> in
            raiseToSnapshot (setLogsIfAny l rf)
        | _, _, _ =>
            (* the older format: term, vote, logs *)
            let '(_, d2) := Decode as_int (NewDecoder data) in
            let '(_, d2) := Decode as_int d2 in
            let '(l3, _) := Decode as_logs d2 in
            match l3 with
            | None => rf
            | Some l =>
                let rf := rf <| currentTerm := t |> <| votedFor := v |> in
                (setLogsIfAny l rf) <| lastIncludedIndex := 0 |> <| lastIncludedTerm := 0 |>
            end
        end
    | _, _ => rf
    end.

Definition Make (npeers i : Z) (ps : Persister RaftGob SV) : Raft :=
  let rf := {| peers := npeers; me := i; dead := false; state := Follower;
     currentTerm := 0; votedFor := -1; logs := [mkEntry NoneCommand 0];
     lastIncludedIndex := 0; lastIncludedTerm := 0; commitIndex := 0; lastApplied := 0;
     nextIndex := replicate (Z.to_nat npeers) 0; matchIndex := replicate (Z.to_nat npeers) 0;
     electionTimer := true; applying := false; snapshotInFlight := false;
     persister := ps |} in
  readPersist (ReadRaftState ps) rf.

(** ** The ticker *)

Definition resetElectionTimer (rf : Raft) : Raft := rf <| electionTimer := true |>.

(** The two cases of [ticker]'s [select].  The result says whether the
    goroutine it may start is started. *)
Definition ticker_election (rf : Raft) : Raft * bool :=
  let rf := resetElectionTimer rf in
  (rf, negb (bool_decide (state rf = Leader))).
Definition ticker_heartbeat (rf : Raft) : bool := bool_decide (state rf = Leader).

(** ** Elections *)

(** The variables the goroutines of one [Election] share. *)
Record ElectionVars := mkElection { el_term : Z; voteReceived : Z; finished : bool }.

#[export] Instance ElectionVars_eta : RecordEta ElectionVars :=
  λ e, mkElection (el_term e) (voteReceived e) (finished e).

Definition Election (rf : Raft) : Raft * ElectionVars :=
  let rf := rf <| state := Candidate |> <| currentTerm ::= Z.succ |> <| votedFor := me rf |> in
  let rf := persist rf in
  (rf, mkElection (currentTerm rf) 1 false).

(** The state a peer enters when the votes suffice. *)
Definition becomeLeader (rf : Raft) : Raft :=
  let rf := rf <| state := Leader |> in
  let rf := resetElectionTimer rf in
  let lastIdx := lastIndex rf in
  let rf := rf <| nextIndex := replicate (Z.to_nat (peers rf)) (lastIdx + 1) |>
               <| matchIndex := replicate (Z.to_nat (peers rf)) (lastIncludedIndex rf) |> in
  rf <| matchIndex ::= λ m, wr m (me rf) lastIdx |>.

(** What a goroutine of [Election] does after [RequestVote] returned [true];
    the last component says whether it goes on to [broadcastAppendEntries]. *)
Definition Election_count (e : ElectionVars) (rf : Raft) : ElectionVars * Raft * bool :=
  let e := e <| voteReceived ::= Z.succ |> in
  if finished e || (voteReceived e <=? Z.shiftr (peers rf) 1) then (e, rf, false)
  else
    let e := e <| finished := true |> in
    if negb (bool_decide (state rf = Candidate)) || negb (currentTerm rf =? el_term e)
    then (e, rf, false)
    else (e, becomeLeader rf, true).

(** Step down to [Follower] in a higher term, as every method does it. *)
Definition stepDown (term : Z) (rf : Raft) : Raft :=
  persist (rf <| currentTerm := term |> <| votedFor := -1 |> <| state := Follower |>).

Definition RequestVote_args (term : Z) (rf : Raft) : RequestVoteArgs :=
  let lastLogIndex := lastIndex rf in
  mkRVArgs term (me rf) lastLogIndex (termAt rf lastLogIndex).

Definition RequestVote_reply (reply : RequestVoteReply) (rf : Raft) : Raft * bool :=
  if currentTerm rf <? rvr_Term reply then (stepDown (rvr_Term reply) rf, false)
  else (rf, rvr_VoteGranted reply && bool_decide (state rf = Candidate)).

Definition upToDate (args : RequestVoteArgs) (rf : Raft) : bool :=
  let lastLogIndex := lastIndex rf in
  let lastLogTerm := termAt rf lastLogIndex in
  (lastLogTerm <? rva_LastLogTerm args)
  || ((rva_LastLogTerm args =? lastLogTerm) && (lastLogIndex <=? rva_LastLogIndex args)).

Definition RequestVoteHandle (args : RequestVoteArgs) (rf : Raft) : Raft * RequestVoteReply :=
  let reply := mkRVReply (currentTerm rf) false in
  if rva_Term args <? currentTerm rf then (rf, reply)
  else
    let rf := if currentTerm rf <? rva_Term args then stepDown (rva_Term args) rf else rf in
    if ((votedFor rf =? -1) || (votedFor rf =? rva_CandidateID args)) && upToDate args rf
    then
      let rf := resetElectionTimer (rf <| votedFor := rva_CandidateID args |>) in
      (persist rf, mkRVReply (rvr_Term reply) true)
    else (rf, reply).

(** ** Applying committed entries

    [applyCommittedEntries] releases the lock while it sends a batch.  A batch
    is the messages to send and the index of the last one.  [apply_collect] is
    one turn of the loop up to the [Unlock]; [apply_enter] the guards at the
    start and the first turn, [apply_resume] what follows the next [Lock]. *)
Definition Batch : Type := list ApplyMsg * Z.

(** The loop over [start..end]: [n] turns are left, [i] is the next index and
    [lastSent] the last one collected. *)
Fixpoint collectLoop (n : nat) (i lastSent : Z) (rf : Raft) : Batch :=
  match n with
  | O => ([], lastSent)
  | S n =>
      match idx (logs rf) (i - lastIncludedIndex rf) with
      | None => ([], lastSent)
      | Some entry =>
          let '(msgs, lastSent) := collectLoop n (i + 1) i rf in
          (commandMsg (e_Command entry) i (e_Term entry) :: msgs, lastSent)
      end
  end.

Definition apply_collect (rf : Raft) : Raft * option Batch :=
  let leave := (rf <| applying := false |>, None) in
  if snapshotInFlight rf then leave
  else if commitIndex rf <=? lastApplied rf then leave
  else
    let start := lastApplied rf + 1 in
    let start := if start <=? lastIncludedIndex rf then lastIncludedIndex rf + 1 else start in
    let stop := if lastIndex rf <? commitIndex rf then lastIndex rf else commitIndex rf in
    if stop <? start then leave
    else
      (rf, Some (collectLoop (Z.to_nat (stop + 1 - start)) start (start - 1) rf)).

Definition apply_enter (rf : Raft) : Raft * option Batch :=
  if applying rf then (rf, None)
  else if snapshotInFlight rf then (rf, None)
  else apply_collect (rf <| applying := true |>).

Definition apply_resume (lastSent : Z) (rf : Raft) : Raft * option Batch :=
  if snapshotInFlight rf then (rf <| applying := false |>, None)
  else
    let rf := if lastApplied rf <? lastSent then rf <| lastApplied := lastSent |> else rf in
    apply_collect rf.

(** ** AppendEntries, the follower's side *)

(** The consistency check on [PrevLogIndex] and [PrevLogTerm]; the code
    writes it twice, for heartbeats and for entries. *)
Definition prevMatches (args : AppendEntryArgs) (rf : Raft) : bool :=
  if aea_PrevLogIndex args <? lastIncludedIndex rf then false
  else if aea_PrevLogIndex args =? lastIncludedIndex rf then
    aea_PrevLogTerm args =? lastIncludedTerm rf
  else
    let localPrev := aea_PrevLogIndex args - lastIncludedIndex rf in
    if (localPrev <? 0) || (len (logs rf) <=? localPrev) then false
    else match idx (logs rf) localPrev with
         | Some e => e_Term e =? aea_PrevLogTerm args
         | None => false
         end.

(** The loop over the new entries: [entries] is [entries[i:]] and [index] is
    [startIndex + i]. *)
Fixpoint appendLoop (entries : list LogEntry) (index : Z) (rf : Raft) : Raft :=
  match entries with
  | [] => rf
  | entry :: rest =>
      if lastIndex rf <? index then persist (rf <| logs ::= λ l, l ++ entries |>)
      else if negb (termAt rf index =? e_Term entry) then
        let localCut := index - lastIncludedIndex rf in
        persist (rf <| logs ::= λ l, slice_to l localCut |> <| logs ::= λ l, l ++ entries |>)
      else appendLoop rest (index + 1) rf
  end.

(** The term handling at the head of [AppendEntriesHandler]. *)
Definition observeLeader (term : Z) (rf : Raft) : Raft :=
  let rf := if currentTerm rf <? term then stepDown term rf
            else if term =? currentTerm rf then rf <| state := Follower |> else rf in
  resetElectionTimer rf.

Definition heartbeatCommit (args : AppendEntryArgs) (rf : Raft) : Raft * option Batch :=
  if commitIndex rf <? aea_LeaderCommitIndex args then
    let candidate := Z.min (aea_LeaderCommitIndex args) (aea_PrevLogIndex args) in
    if (commitIndex rf <? candidate) && (termAt rf candidate =? aea_LeaderCommitTerm args)
    then apply_enter (rf <| commitIndex := candidate |>)
    else (rf, None)
  else (rf, None).

Definition entriesCommit (args : AppendEntryArgs) (rf : Raft) : Raft * option Batch :=
  if commitIndex rf <? aea_LeaderCommitIndex args then
    let lastNewIndex := aea_PrevLogIndex args + len (aea_Entries args) in
    let candidate := Z.min (aea_LeaderCommitIndex args) lastNewIndex in
    if commitIndex rf <? candidate
    then apply_enter (rf <| commitIndex := candidate |>)
    else (rf, None)
  else (rf, None).

(** The batch, when there is one, is sent before the reply is returned. *)
Definition AppendEntriesHandler (args : AppendEntryArgs) (rf : Raft)
    : Raft * AppendEntryReply * option Batch :=
  let replyTerm := currentTerm rf in
  let refuse rf := (rf, mkAEReply replyTerm false, None) in
  let accept '(rf, b) := (rf, mkAEReply replyTerm true, b) in
  let rf := observeLeader (aea_Term args) rf in
  if aea_Term args <? currentTerm rf then refuse rf
  else if len (aea_Entries args) =? 0 then
    if negb (prevMatches args rf) then refuse rf
    else accept (heartbeatCommit args rf)
  else if negb (prevMatches args rf) then refuse rf
  else
    let rf := appendLoop (aea_Entries args) (aea_PrevLogIndex args + 1) rf in
    accept (entriesCommit args rf).

(** ** Replication, the leader's side *)

Definition broadcastAppendEntries (rf : Raft) : option Z :=
  if negb (bool_decide (state rf = Leader)) then None else Some (currentTerm rf).

(** The RPC one turn of [replicateToPeer]'s loop sends; [None]: it returns. *)
Inductive ReplicateRPC :=
| SendSnapshot (args : InstallSnapshotArgs)
| SendEntries (args : AppendEntryArgs).

Definition replicate_prepare (server term : Z) (rf : Raft) : option ReplicateRPC :=
  if dead rf || negb (bool_decide (state rf = Leader)) || negb (term =? currentTerm rf) then None
  else
    let nextIdx := rd (nextIndex rf) server in
    if nextIdx <=? lastIncludedIndex rf then
      Some (SendSnapshot (mkISArgs (currentTerm rf) (me rf) (lastIncludedIndex rf)
                            (lastIncludedTerm rf) (ReadSnapshot (persister rf))))
    else
      let prevIdx := nextIdx - 1 in
      let localStart := nextIdx - lastIncludedIndex rf in
      let entries := if (0 <=? localStart) && (localStart <? len (logs rf))
                     then slice_from (logs rf) localStart else [] in
      Some (SendEntries (mkAEArgs (currentTerm rf) (me rf) prevIdx (termAt rf prevIdx) entries
                           (commitIndex rf) (termAt rf (commitIndex rf)))).

(** Whether the loop goes on after a reply. *)
Inductive LoopCtl := Continue | Return.

Definition replicate_snapshot_reply (server : Z) (reply : InstallSnapshotReply) (rf : Raft)
    : Raft * LoopCtl :=
  if currentTerm rf <? isr_Term reply then (stepDown (isr_Term reply) rf, Return)
  else
    (rf <| matchIndex ::= λ m, wr m server (lastIncludedIndex rf) |>
        <| nextIndex ::= λ n, wr n server (lastIncludedIndex rf + 1) |>, Continue).

(** The number of peers known to hold entry [N], this one included. *)
Definition countMatching (rf : Raft) (N : Z) : Z :=
  1 + len (filter (λ i, i ≠ me rf ∧ N ≤ rd (matchIndex rf) i) (range 0 (peers rf - 1))).

(** The scan of [advanceCommitIndexLocked] from [N] down to [commitIndex + 1];
    [n] bounds the number of turns. *)
Fixpoint commitScan (n : nat) (N : Z) (rf : Raft) : option Z :=
  match n with
  | O => None
  | S n =>
      if N <=? commitIndex rf then None
      else if negb (termAt rf N =? currentTerm rf) then commitScan n (N - 1) rf
      else if peers rf `div` 2 <? countMatching rf N then Some N
      else commitScan n (N - 1) rf
  end.

Definition advanceCommitIndexLocked (rf : Raft) : Raft * option Batch :=
  if negb (bool_decide (state rf = Leader)) then (rf, None)
  else match commitScan (Z.to_nat (lastIndex rf - commitIndex rf)) (lastIndex rf) rf with
       | Some N => apply_enter (rf <| commitIndex := N |>)
       | None => (rf, None)
       end.

Definition replicate_append_reply (server term : Z) (args : AppendEntryArgs)
    (reply : AppendEntryReply) (rf : Raft) : Raft * LoopCtl * option Batch :=
  if currentTerm rf <? aer_Term reply then (stepDown (aer_Term reply) rf, Return, None)
  else if negb (bool_decide (state rf = Leader)) || negb (term =? currentTerm rf)
  then (rf, Return, None)
  else if aer_Success reply then
    let matched := aea_PrevLogIndex args + len (aea_Entries args) in
    let rf := if rd (matchIndex rf) server <? matched
              then rf <| matchIndex ::= λ m, wr m server matched |> else rf in
    let next := matched + 1 in
    let rf := if rd (nextIndex rf) server <? next
              then rf <| nextIndex ::= λ n, wr n server next |> else rf in
    let '(rf, b) := advanceCommitIndexLocked rf in
    (rf, Return, b)
  else
    let minNext := lastIncludedIndex rf in
    let rf := if minNext <? rd (nextIndex rf) server
              then rf <| nextIndex ::= λ n, wr n server (rd n server - 1) |> else rf in
    (rf, Continue, None).

(** ** Snapshots *)

(** [InstallSnapshot] up to the point where it either returns or releases the
    lock to send the snapshot on [applyCh]; then what it does after sending. *)
Definition InstallSnapshot (args : InstallSnapshotArgs) (rf : Raft)
    : Raft * InstallSnapshotReply * option ApplyMsg :=
  let reply := mkISReply (currentTerm rf) in
  if isa_Term args <? currentTerm rf then (rf, reply, None)
  else
    let rf := if currentTerm rf <? isa_Term args then stepDown (isa_Term args) rf else rf in
    let rf := resetElectionTimer rf in
    if isa_LastIncludedIndex args <=? lastIncludedIndex rf then (rf, reply, None)
    else (rf <| snapshotInFlight := true |>, reply,
          Some (snapshotMsg (isa_Data args) (isa_LastIncludedTerm args)
                  (isa_LastIncludedIndex args))).

Definition InstallSnapshot_sent (rf : Raft) : Raft := rf <| snapshotInFlight := false |>.

Definition saveStateAndSnapshot (snap : list SV) (rf : Raft) : Raft :=
  rf <| persister ::= SaveStateAndSnapshot (encodeState rf) snap |>.

Definition CondInstallSnapshot (lastTerm lastIdx : Z) (snap : list SV) (rf : Raft)
    : Raft * bool :=
  if lastIdx <=? lastIncludedIndex rf then (rf, false)
  else
    let newLogs := [mkEntry NoneCommand lastTerm] in
    let local := lastIdx - lastIncludedIndex rf in
    let newLogs :=
      match idx (logs rf) local with
      | Some e => if (e_Term e =? lastTerm) && (local + 1 <? len (logs rf))
                  then newLogs ++ slice_from (logs rf) (local + 1) else newLogs
      | None => newLogs
      end in
    let rf := rf <| logs := newLogs |> <| lastIncludedIndex := lastIdx |>
                 <| lastIncludedTerm := lastTerm |> in
    (saveStateAndSnapshot snap (raiseToSnapshot rf), true).

Definition Snapshot (index : Z) (snap : list SV) (rf : Raft) : Raft :=
  if (index <=? lastIncludedIndex rf) || (commitIndex rf <? index) then rf
  else
    let local := index - lastIncludedIndex rf in
    match idx (logs rf) local with
    | None => rf
    | Some e =>
        let snapTerm := e_Term e in
        let newLogs := [mkEntry NoneCommand snapTerm] in
        let newLogs := if local + 1 <? len (logs rf)
                       then newLogs ++ slice_from (logs rf) (local + 1) else newLogs in
        let rf := rf <| logs := newLogs |> <| lastIncludedIndex := index |>
                     <| lastIncludedTerm := snapTerm |> in
        saveStateAndSnapshot snap (raiseToSnapshot rf)
    end.

(** ** The service's interface *)

(** [Start]: the index, the term and whether this peer is the leader; a leader
    then calls [broadcastAppendEntries]. *)
Definition Start (command : any) (rf : Raft) : Raft * (Z * Z * bool) :=
  if negb (bool_decide (state rf = Leader)) then (rf, (-1, currentTerm rf, false))
  else
    let rf := persist (rf <| logs ::= λ l, l ++ [mkEntry command (currentTerm rf)] |>) in
    (rf, (lastIndex rf, currentTerm rf, true)).

Definition Kill (rf : Raft) : Raft := rf <| dead := true |> <| electionTimer := false |>.
Definition killed (rf : Raft) : bool := dead rf.
Definition GetState (rf : Raft) : Z * bool := (currentTerm rf, bool_decide (state rf = Leader)).
Definition Me (rf : Raft) : Z := me rf.

(** [None] is the panic of indexing an empty log. *)
Definition HasLogInCurrentTerm (rf : Raft) : option bool :=
  match idx (logs rf) (len (logs rf) - 1) with
  | Some e => Some (e_Term e =? currentTerm rf)
  | None => None
  end.

(** ** Critical sections as one type

    Every way the state of a peer changes between two crashes, so that an
    invariant of the peer is one statement about [run_section]. *)
Inductive Section_ :=
| TickElection
| BeginElection
| CountVote (e : ElectionVars)
| VoteReply (reply : RequestVoteReply)
| HandleVote (args : RequestVoteArgs)
| HandleEntries (args : AppendEntryArgs)
| EntriesReply (server term : Z) (args : AppendEntryArgs) (reply : AppendEntryReply)
| SnapshotReply (server : Z) (reply : InstallSnapshotReply)
| HandleSnapshot (args : InstallSnapshotArgs)
| SnapshotSent
| ResumeApply (lastSent : Z)
| CondInstall (term index : Z) (snap : list SV)
| TakeSnapshot (index : Z) (snap : list SV)
| StartCommand (command : any)
| KillPeer.

Definition run_section (s : Section_) (rf : Raft) : Raft :=
  match s with
  | TickElection => (ticker_election rf).1
  | BeginElection => (Election rf).1
  | CountVote e => (Election_count e rf).1.2
  | VoteReply reply => (RequestVote_reply reply rf).1
  | HandleVote args => (RequestVoteHandle args rf).1
  | HandleEntries args => (AppendEntriesHandler args rf).1.1
  | EntriesReply server term args reply => (replicate_append_reply server term args reply rf).1.1
  | SnapshotReply server reply => (replicate_snapshot_reply server reply rf).1
  | HandleSnapshot args => (InstallSnapshot args rf).1.1
  | SnapshotSent => InstallSnapshot_sent rf
  | ResumeApply lastSent => (apply_resume lastSent rf).1
  | CondInstall term index snap => (CondInstallSnapshot term index snap rf).1
  | TakeSnapshot index snap => Snapshot index snap rf
  | StartCommand command => (Start command rf).1
  | KillPeer => Kill rf
  end.

End raft.

Arguments any : clear implicits.
Arguments LogEntry : clear implicits.
Arguments RaftGob : clear implicits.
Arguments Raft : clear implicits.
Arguments AppendEntryArgs : clear implicits.
Arguments InstallSnapshotArgs : clear implicits.
Arguments ApplyMsg : clear implicits.
Arguments Batch : clear implicits.
Arguments Section_ : clear implicits.
Arguments ReplicateRPC : clear implicits.
