(* ===== verification/RaftFacts.v ===== *)
(** * Properties of one Raft peer

    Well-formedness of a peer, durability of its persistent state, stability
    of votes, and the functional behaviour of log replication, commitment and
    compaction, for the definitions of Raft.v. *)
From stdpp Require Import base tactics list strings numbers relations.
From S2P Require Import Prelude.
From S2P Require Import Labgob.
From S2P Require Import Persister.
From S2P Require Import Raft.
Open Scope Z_scope.
Open Scope go_scope.

Section facts.
Context {Op SV : Type}.
Implicit Types (rf : Raft Op SV) (es : list (LogEntry Op)).

(** ** Predicates *)

(** The log slice starts with the entry of the snapshot's base, the commit and
    apply positions are not below it, and the leader's tables have one slot
    per peer. *)
Record raft_wf rf : Prop := {
  wf_peers : 0 ≤ me rf < peers rf;
  wf_base : e_Term <$> idx (logs rf) 0 = Some (lastIncludedTerm rf);
  wf_lii : 0 ≤ lastIncludedIndex rf;
  wf_applied : lastIncludedIndex rf ≤ lastApplied rf;
  wf_commit : lastApplied rf ≤ commitIndex rf;
  wf_next : len (nextIndex rf) = peers rf;
  wf_match : len (matchIndex rf) = peers rf
}.

Definition persisted rf : Prop := ReadRaftState (persister rf) = encodeState rf.

(** What a crash keeps: the five fields [persist] encodes, as [Make] reads
    them back. *)
Definition same_persistent (rf rf' : Raft Op SV) : Prop :=
  currentTerm rf' = currentTerm rf ∧ votedFor rf' = votedFor rf ∧
  lastIncludedIndex rf' = lastIncludedIndex rf ∧
  lastIncludedTerm rf' = lastIncludedTerm rf ∧ logs rf' = logs rf.

(** A change of state either leaves the persistent fields and stable storage
    alone, or ends with them saved. *)
Definition kept rf rf' : Prop :=
  ReadRaftState (persister rf') = ReadRaftState (persister rf) ∧
  peers rf' = peers rf ∧ me rf' = me rf ∧ same_persistent rf rf'.
Definition saved rf rf' : Prop :=
  kept rf rf' ∨ (persisted rf' ∧ peers rf' = peers rf ∧ me rf' = me rf).

Definition durable rf : Prop :=
  persisted rf ∨
  (ReadRaftState (persister rf) = [] ∧
   same_persistent (Make (peers rf) (me rf) MakePersister) rf).

(** A batch resumed is one that was collected: it does not reach past the
    commit index. *)
Definition section_pre (s : Section_ Op SV) rf : Prop :=
  match s with ResumeApply lastSent => lastSent ≤ commitIndex rf | _ => True end.

Definition restart rf : Raft Op SV := Make (peers rf) (me rf) (persister rf).

(** The states of a peer from its first start, through critical sections in
    any order and crashes at any point between them. *)
Inductive peer_step : Raft Op SV → Raft Op SV → Prop :=
| peer_section s rf : section_pre s rf → peer_step rf (run_section s rf)
| peer_crash rf : peer_step rf (restart rf).

Definition peer_reachable rf : Prop :=
  ∃ n i, 0 ≤ i < n ∧ rtc peer_step (Make n i MakePersister) rf.

(** The vote of a term is cast once: a step keeps the term and a vote already
    cast in it, or enters a later term. *)
Definition vote_le (rf rf' : Raft Op SV) : Prop :=
  currentTerm rf < currentTerm rf' ∨
  (currentTerm rf = currentTerm rf' ∧ (votedFor rf ≠ -1 → votedFor rf' = votedFor rf)).

(** Agreement on everything the log operations read. *)
Definition log_eq rf rf' : Prop :=
  logs rf' = logs rf ∧ lastIncludedIndex rf' = lastIncludedIndex rf ∧
  lastIncludedTerm rf' = lastIncludedTerm rf ∧ commitIndex rf' = commitIndex rf ∧
  lastApplied rf' = lastApplied rf.

(** The entry at a global index above the snapshot. *)
Definition entryAt rf (i : Z) : option (LogEntry Op) :=
  if i <=? lastIncludedIndex rf then None else idx (logs rf) (i - lastIncludedIndex rf).

(** The condition under which a leader commits index [N]: an entry of its own
    term, held by a majority. *)
Definition committable rf (N : Z) : Prop :=
  termAt rf N = currentTerm rf ∧ peers rf `div` 2 < countMatching rf N.

(** ** Shapes of the state changes *)

Lemma applying_id rf : rf = rf <| applying := applying rf |>.
Proof. by destruct rf. Qed.

Lemma apply_collect_state rf : ∃ b, (apply_collect rf).1 = rf <| applying := b |>.
Proof. unfold apply_collect. repeat case_if; cbn; eauto using applying_id. Qed.

Lemma apply_enter_state rf : ∃ b, (apply_enter rf).1 = rf <| applying := b |>.
Proof.
  unfold apply_enter. repeat case_if; eauto using applying_id.
  destruct (apply_collect_state (rf <| applying := true |>)) as [b ->]. by exists b.
Qed.

Lemma apply_resume_state n rf :
  ∃ b k, (apply_resume n rf).1 = rf <| lastApplied := k |> <| applying := b |> ∧
    (k = lastApplied rf ∨ (k = n ∧ lastApplied rf < n)).
Proof.
  unfold apply_resume. case_if; [|case_if].
  - exists false, (lastApplied rf). split; [by destruct rf|by left].
  - destruct (apply_collect_state (rf <| lastApplied := n |>)) as [b ->].
    exists b, n. split; [done|right]. by zbool.
  - destruct (apply_collect_state rf) as [b ->]. exists b, (lastApplied rf).
    split; [by destruct rf|by left].
Qed.

Lemma heartbeatCommit_state args rf :
  ∃ b k, (heartbeatCommit args rf).1 = rf <| commitIndex := k |> <| applying := b |> ∧
    commitIndex rf ≤ k.
Proof.
  unfold heartbeatCommit. repeat case_if; cbn.
  - destruct (apply_enter_state
      (rf <| commitIndex := aea_LeaderCommitIndex args `min` aea_PrevLogIndex args |>)) as [b ->].
    eexists b, _. split; [done|]. zbool. lia.
  - exists (applying rf), (commitIndex rf). split; [by destruct rf|done].
  - exists (applying rf), (commitIndex rf). split; [by destruct rf|done].
Qed.

Lemma entriesCommit_state args rf :
  ∃ b k, (entriesCommit args rf).1 = rf <| commitIndex := k |> <| applying := b |> ∧
    commitIndex rf ≤ k.
Proof.
  unfold entriesCommit. repeat case_if; cbn.
  - match goal with |- context [apply_enter ?r] => destruct (apply_enter_state r) as [b ->] end.
    eexists b, _. split; [done|]. zbool. lia.
  - exists (applying rf), (commitIndex rf). split; [by destruct rf|done].
  - exists (applying rf), (commitIndex rf). split; [by destruct rf|done].
Qed.

Lemma advanceCommit_state rf :
  ∃ b k, (advanceCommitIndexLocked rf).1 = rf <| commitIndex := k |> <| applying := b |> ∧
    (k = commitIndex rf ∨
     commitScan (Z.to_nat (lastIndex rf - commitIndex rf)) (lastIndex rf) rf = Some k).
Proof.
  unfold advanceCommitIndexLocked. case_if; [|case_match eqn:Hs].
  - exists (applying rf), (commitIndex rf). split; [by destruct rf|by left].
  - match goal with |- context [apply_enter ?r] => destruct (apply_enter_state r) as [b ->] end.
    eexists b, _. split; [done|by right].
  - exists (applying rf), (commitIndex rf). split; [by destruct rf|by left].
Qed.

Lemma commitScan_Some n N k rf :
  commitScan n N rf = Some k →
  commitIndex rf < k ≤ N ∧ committable rf k ∧ ∀ m, k < m ≤ N → ¬ committable rf m.
Proof.
  revert N. induction n as [|n IH]; intros N; cbn [commitScan]; [done|].
  unfold committable in *. repeat case_if; [done|..]; zbool.
  - intros (? & ? & Hm)%IH. split; [lia|]. split; [done|]. intros m ?.
    destruct (decide (m = N)) as [->|]; [|apply Hm; lia]. intros [? ?]. lia.
  - intros [= ->]. split; [lia|]. split; [done|]. lia.
  - intros (? & ? & Hm)%IH. split; [lia|]. split; [done|]. intros m ?.
    destruct (decide (m = N)) as [->|]; [|apply Hm; lia]. intros [? ?]. lia.
Qed.

Lemma commitScan_None n N rf :
  N - commitIndex rf ≤ Z.of_nat n → commitScan n N rf = None →
  ∀ m, commitIndex rf < m ≤ N → ¬ committable rf m.
Proof.
  revert N. induction n as [|n IH]; intros N Hn; cbn [commitScan]; [lia|].
  unfold committable in *. repeat case_if; zbool; try done; [lia|..];
    intros Hs m ?; destruct (decide (m = N)) as [->|]; try (intros [? ?]; lia);
    apply (IH (N - 1)); [lia|done|lia|lia|done|lia].
Qed.

(** ** The log *)

Lemma termAt_in rf i :
  lastIncludedIndex rf < i ≤ lastIndex rf →
  ∃ e, idx (logs rf) (i - lastIncludedIndex rf) = Some e ∧ termAt rf i = e_Term e.
Proof.
  unfold lastIndex. intros Hi.
  destruct (idx_is_Some (i - lastIncludedIndex rf) (logs rf)) as [e He]; [lia|].
  exists e. split; [done|]. unfold termAt. rewrite He. repeat case_if; zsolve.
Qed.

Lemma termAt_base rf : termAt rf (lastIncludedIndex rf) = lastIncludedTerm rf.
Proof. unfold termAt. by rewrite Z.eqb_refl. Qed.

Lemma wf_len rf : raft_wf rf → 1 ≤ len (logs rf).
Proof.
  intros Hwf. pose proof (wf_base _ Hwf) as Hb. destruct (logs rf) as [|e l]; [done|].
  rewrite len_cons. pose proof (len_nonneg l). lia.
Qed.

Lemma wf_lastIndex rf : raft_wf rf → lastIncludedIndex rf ≤ lastIndex rf.
Proof. intros Hwf%wf_len. unfold lastIndex. lia. Qed.

(** The result of the loop over the new entries: [j] entries are already in
    the log with their terms; if there are more, the log is cut before the
    first that is not and the rest is appended. *)
Lemma appendLoop_spec es i rf :
  lastIncludedIndex rf < i ≤ lastIndex rf + 1 →
  ∃ j : nat, (j ≤ length es)%nat ∧
    (∀ k e, (k < j)%nat → es !! k = Some e →
       i + Z.of_nat k ≤ lastIndex rf ∧ termAt rf (i + Z.of_nat k) = e_Term e) ∧
    ((j = length es ∧ appendLoop es i rf = rf) ∨
     ((j < length es)%nat ∧ i + Z.of_nat j ≤ lastIndex rf + 1 ∧
      (∀ e, es !! j = Some e → i + Z.of_nat j ≤ lastIndex rf →
         termAt rf (i + Z.of_nat j) ≠ e_Term e) ∧
      appendLoop es i rf =
        persist (rf <| logs := slice_to (logs rf) (i + Z.of_nat j - lastIncludedIndex rf)
                               ++ drop j es |>))).
Proof.
  revert i. induction es as [|e es IH]; intros i Hi.
  { exists 0%nat. cbn. split; [lia|]. split; [lia|]. by left. }
  cbn [appendLoop]. case_if; [|case_if].
  - exists 0%nat. cbn. split; [lia|]. split; [lia|]. right. zbool.
    split; [lia|]. split; [lia|]. split; [lia|].
    replace (slice_to (logs rf) _) with (logs rf); [done|].
    unfold slice_to. symmetry. apply take_ge. unfold lastIndex, len in *. lia.
  - exists 0%nat. cbn. split; [lia|]. split; [lia|]. right. zbool.
    split; [lia|]. split; [lia|]. split; [|by rewrite Z.add_0_r; destruct rf].
    intros e' [= <-] _. by rewrite Z.add_0_r.
  - zbool. destruct (IH (i + 1)) as (j & Hj & Hpre & Hres); [lia|].
    exists (S j). cbn [length drop]. split; [lia|]. split.
    { intros [|k] e' Hk; cbn.
      - intros [= <-]. rewrite Z.add_0_r. split; [lia|done].
      - intros He'. destruct (Hpre k e') as [? ?]; [lia|done|].
        replace (i + Z.of_nat (S k)) with (i + 1 + Z.of_nat k) by lia. done. }
    replace (i + Z.of_nat (S j)) with (i + 1 + Z.of_nat j) by lia.
    destruct Hres as [[-> ?]|(? & ? & ? & ?)]; [left; split; [lia|done]|].
    right. split; [lia|]. done.
Qed.

Lemma prevMatches_spec args rf :
  raft_wf rf → prevMatches args rf = true →
  lastIncludedIndex rf ≤ aea_PrevLogIndex args ≤ lastIndex rf ∧
  termAt rf (aea_PrevLogIndex args) = aea_PrevLogTerm args.
Proof.
  intros Hwf. pose proof (wf_lastIndex _ Hwf). unfold prevMatches.
  repeat case_if; try done.
  - intros. zbool. rewrite E0, termAt_base. split; [lia|done].
  - case_match eqn:Hp; [|done]. intros. zbool. unfold lastIndex.
    split; [lia|]. unfold termAt. rewrite Hp. repeat case_if; zsolve.
Qed.

(** ** Well-formedness *)

(** An update of fields the invariant does not read. *)
Ltac wf_easy :=
  match goal with H : raft_wf _ |- raft_wf _ => destruct H; constructor; cbn in *; auto; lia end.

Lemma persist_wf rf : raft_wf rf → raft_wf (persist rf).
Proof. intros; wf_easy. Qed.

Lemma stepDown_wf t rf : raft_wf rf → raft_wf (stepDown t rf).
Proof. intros; wf_easy. Qed.

Lemma observeLeader_wf t rf : raft_wf rf → raft_wf (observeLeader t rf).
Proof. intros. unfold observeLeader. repeat case_if; wf_easy. Qed.

Lemma commitTo_wf b k rf :
  raft_wf rf → commitIndex rf ≤ k → raft_wf (rf <| commitIndex := k |> <| applying := b |>).
Proof. intros; wf_easy. Qed.

Lemma logs_wf es rf :
  raft_wf rf → idx es 0 = idx (logs rf) 0 → raft_wf (rf <| logs := es |>).
Proof. intros [] E. constructor; cbn; auto. by rewrite E. Qed.

Lemma appendLoop_wf es i rf :
  raft_wf rf → lastIncludedIndex rf < i ≤ lastIndex rf + 1 → raft_wf (appendLoop es i rf).
Proof.
  intros Hwf Hi. destruct (appendLoop_spec es i rf Hi) as (j & _ & _ & [[_ ->]|(_ & ? & _ & ->)]);
    [done|].
  apply persist_wf, logs_wf; [done|]. pose proof (wf_len _ Hwf).
  rewrite idx_app_l, idx_slice_to; [done|lia|].
  rewrite len_slice_to; unfold lastIndex in *; lia.
Qed.

Lemma heartbeatCommit_wf args rf : raft_wf rf → raft_wf (heartbeatCommit args rf).1.
Proof. destruct (heartbeatCommit_state args rf) as (? & ? & -> & ?). auto using commitTo_wf. Qed.

Lemma entriesCommit_wf args rf : raft_wf rf → raft_wf (entriesCommit args rf).1.
Proof. destruct (entriesCommit_state args rf) as (? & ? & -> & ?). auto using commitTo_wf. Qed.

Lemma AppendEntriesHandler_wf args rf :
  raft_wf rf → raft_wf (AppendEntriesHandler args rf).1.1.
Proof.
  intros Hwf%(observeLeader_wf (aea_Term args)). unfold AppendEntriesHandler.
  set (rf1 := observeLeader _ rf) in *.
  repeat case_if; cbn; try done.
  - pose proof (heartbeatCommit_wf args _ Hwf). by destruct (heartbeatCommit args rf1).
  - zbool. destruct (prevMatches_spec _ _ Hwf E1) as [? _].
    assert (raft_wf (appendLoop (aea_Entries args) (aea_PrevLogIndex args + 1) rf1)) as Hwf'
      by (apply appendLoop_wf; [done|lia]).
    apply (entriesCommit_wf args) in Hwf'. by destruct (entriesCommit args _).
Qed.

Lemma raiseToSnapshot_eq rf :
  raiseToSnapshot rf = rf <| commitIndex := Z.max (commitIndex rf) (lastIncludedIndex rf) |>
                          <| lastApplied := Z.max (lastApplied rf) (lastIncludedIndex rf) |>.
Proof.
  unfold raiseToSnapshot. destruct rf; cbn. unfold update_field; cbn.
  repeat (case_if; cbn in *); f_equal; zsolve.
Qed.

(** A compaction: the log restarts at the entry of index [i]. *)
Lemma compact_wf es i t rf sn :
  raft_wf rf → lastIncludedIndex rf < i → e_Term <$> idx es 0 = Some t →
  raft_wf (saveStateAndSnapshot sn (raiseToSnapshot
    (rf <| logs := es |> <| lastIncludedIndex := i |> <| lastIncludedTerm := t |>))).
Proof.
  intros [] Hi Ht. rewrite raiseToSnapshot_eq. constructor; cbn in *; auto; lia.
Qed.

Lemma CondInstallSnapshot_wf t i sn rf :
  raft_wf rf → raft_wf (CondInstallSnapshot t i sn rf).1.
Proof.
  intros Hwf. unfold CondInstallSnapshot. case_if; [done|]. zbool.
  apply compact_wf; [done|done|]. case_match; [case_if|]; done.
Qed.

Lemma Snapshot_wf i sn rf : raft_wf rf → raft_wf (Snapshot i sn rf).
Proof.
  intros Hwf. unfold Snapshot. case_if; [done|]. case_match; [|done]. zbool.
  apply compact_wf; [done|done|]. case_if; done.
Qed.

Lemma becomeLeader_wf rf : raft_wf rf → raft_wf (becomeLeader rf).
Proof.
  intros []. constructor; cbn; auto; rewrite ?len_wr; unfold len in *;
    rewrite length_replicate; lia.
Qed.

Lemma advanceCommit_wf rf : raft_wf rf → raft_wf (advanceCommitIndexLocked rf).1.
Proof.
  intros Hwf. destruct (advanceCommit_state rf) as (b & k & -> & Hk).
  apply commitTo_wf; [done|]. destruct Hk as [->|Hk%commitScan_Some]; lia.
Qed.

Lemma replicate_append_reply_wf server t args reply rf :
  raft_wf rf → raft_wf (replicate_append_reply server t args reply rf).1.1.
Proof.
  intros Hwf. unfold replicate_append_reply.
  repeat case_if; cbn; auto using stepDown_wf;
    try (destruct Hwf; constructor; cbn; rewrite ?len_wr; auto; fail);
    match goal with |- context [advanceCommitIndexLocked ?r] =>
      assert (raft_wf r) as Hr%advanceCommit_wf
        by (destruct Hwf; constructor; cbn; rewrite ?len_wr; auto);
      by destruct (advanceCommitIndexLocked r)
    end.
Qed.

Lemma run_section_wf s rf : raft_wf rf → section_pre s rf → raft_wf (run_section s rf).
Proof.
  intros Hwf Hpre. destruct s; cbn in *; auto using AppendEntriesHandler_wf,
    replicate_append_reply_wf, CondInstallSnapshot_wf, Snapshot_wf; try wf_easy.
  - unfold Election_count. repeat case_if; cbn; auto using becomeLeader_wf.
  - unfold RequestVote_reply. case_if; cbn; auto using stepDown_wf.
  - unfold RequestVoteHandle. repeat case_if; cbn; auto using stepDown_wf; wf_easy.
  - unfold replicate_snapshot_reply. case_if; cbn; auto using stepDown_wf.
    destruct Hwf; constructor; cbn; rewrite ?len_wr; auto.
  - unfold InstallSnapshot. repeat case_if; cbn; try done; wf_easy.
  - destruct (apply_resume_state lastSent rf) as (b & k & -> & Hk).
    destruct Hwf; constructor; cbn; auto; lia.
  - unfold Start. case_if; cbn; [done|]. apply persist_wf, (logs_wf _ rf); [done|].
    apply idx_app_l. pose proof (wf_len _ Hwf). lia.
Qed.

(** ** Durability *)

#[local] Instance saved_preorder : PreOrder saved.
Proof.
  split.
  - intros rf. left. repeat split.
  - intros x y z Hxy [(Hp & ? & ? & Hs)|(? & ? & ?)]; [|right; destruct Hxy as [(? & ? & ? & ?)|(? & ? & ?)];
      repeat split; congruence].
    destruct Hs as (? & ? & ? & ? & ?).
    destruct Hxy as [(? & ? & ? & (? & ? & ? & ? & ?))|(Hq & ? & ?)].
    + left. repeat split; congruence.
    + right. unfold persisted, encodeState in *. repeat split; congruence.
Qed.

(** Closes [saved rf rf'] when [rf'] assigns volatile fields of [rf], or was
    just saved. *)
Ltac saved_easy :=
  first [ left; repeat split; reflexivity
        | right; unfold persisted; cbn; rewrite ?clone_id; repeat split; reflexivity ].

Lemma persist_saved rf rf' :
  peers rf' = peers rf → me rf' = me rf → saved rf (persist rf').
Proof. intros. right. split_and!; [apply ReadRaftState_Save|done..]. Qed.

Lemma stepDown_saved t rf : saved rf (stepDown t rf).
Proof. by apply persist_saved. Qed.

Lemma observeLeader_saved t rf : saved rf (observeLeader t rf).
Proof. unfold observeLeader. repeat case_if; saved_easy. Qed.

Lemma commitTo_saved b k rf : saved rf (rf <| commitIndex := k |> <| applying := b |>).
Proof. saved_easy. Qed.

Lemma appendLoop_saved es i rf : saved rf (appendLoop es i rf).
Proof.
  revert i. induction es as [|e es IH]; intros i; cbn [appendLoop]; [done|].
  repeat case_if; auto using persist_saved.
Qed.

Lemma AppendEntriesHandler_saved args rf : saved rf (AppendEntriesHandler args rf).1.1.
Proof.
  unfold AppendEntriesHandler. etrans; [apply (observeLeader_saved (aea_Term args))|].
  set (rf1 := observeLeader _ rf). repeat case_if; cbn; try done.
  - destruct (heartbeatCommit_state args rf1) as (b & k & Hs & _).
    destruct (heartbeatCommit args rf1). cbn in *. rewrite Hs. apply commitTo_saved.
  - etrans; [apply (appendLoop_saved (aea_Entries args) (aea_PrevLogIndex args + 1))|].
    set (rf2 := appendLoop _ _ _).
    destruct (entriesCommit_state args rf2) as (b & k & Hs & _).
    destruct (entriesCommit args rf2). cbn in *. rewrite Hs. apply commitTo_saved.
Qed.

Lemma compact_saved rf0 rf sn :
  peers rf = peers rf0 → me rf = me rf0 →
  saved rf0 (saveStateAndSnapshot sn (raiseToSnapshot rf)).
Proof.
  intros. rewrite raiseToSnapshot_eq. right.
  split_and!; [apply ReadRaftState_SaveBoth|done..].
Qed.

Lemma advanceCommit_saved rf : saved rf (advanceCommitIndexLocked rf).1.
Proof. destruct (advanceCommit_state rf) as (b & k & -> & _). apply commitTo_saved. Qed.

Lemma replicate_append_reply_saved server t args reply rf :
  saved rf (replicate_append_reply server t args reply rf).1.1.
Proof.
  unfold replicate_append_reply.
  repeat case_if; cbn; auto using stepDown_saved; try done; try saved_easy;
    match goal with |- context [advanceCommitIndexLocked ?r] =>
      etrans; [|eassert (saved r _) as Hr by (apply advanceCommit_saved);
                destruct (advanceCommitIndexLocked r); exact Hr]; saved_easy
    end.
Qed.

Lemma run_section_saved s rf : saved rf (run_section s rf).
Proof.
  destruct s; cbn; auto using AppendEntriesHandler_saved, replicate_append_reply_saved;
    try saved_easy.
  - unfold Election_count. repeat case_if; cbn; saved_easy.
  - unfold RequestVote_reply. case_if; cbn; [apply stepDown_saved|done].
  - unfold RequestVoteHandle. repeat case_if; cbn; auto using stepDown_saved; try done;
      by apply persist_saved.
  - unfold replicate_snapshot_reply. case_if; cbn; [apply stepDown_saved|saved_easy].
  - unfold InstallSnapshot. repeat case_if; cbn; try done; saved_easy.
  - destruct (apply_resume_state lastSent rf) as (b & k & -> & _). saved_easy.
  - unfold CondInstallSnapshot. case_if; cbn; [done|]. by apply compact_saved.
  - unfold Snapshot. case_if; [done|]. case_match; [by apply compact_saved|done].
  - unfold Start. case_if; cbn; [done|]. by apply persist_saved.
Qed.

Lemma durable_saved rf rf' : durable rf → saved rf rf' → durable rf'.
Proof.
  unfold durable, saved, kept, persisted, same_persistent, encodeState.
  intros Hd [(Hr & Hp & Hm & ? & ? & ? & ? & ?)|(? & ? & ?)]; [|by left].
  destruct Hd as [Hd|[Hd (? & ? & ? & ? & ?)]].
  - left. congruence.
  - right. rewrite Hp, Hm. repeat split; congruence.
Qed.

Lemma restart_persistent rf : raft_wf rf → durable rf → same_persistent rf (restart rf).
Proof.
  intros Hwf%wf_len [Hp|[Hp (? & ? & ? & ? & ?)]]; unfold restart, Make; rewrite Hp.
  - unfold readPersist, setLogsIfAny. cbn. destruct (logs rf) as [|e l] eqn:E; [done|].
    cbn. rewrite raiseToSnapshot_eq. repeat split; cbn; done.
  - cbn. by repeat split.
Qed.

Lemma Make_volatile n i (ps : Persister (RaftGob Op) SV) :
  let rf := Make n i ps in
  peers rf = n ∧ me rf = i ∧ persister rf = ps ∧ state rf = Follower ∧
  nextIndex rf = replicate (Z.to_nat n) 0 ∧ matchIndex rf = replicate (Z.to_nat n) 0 ∧
  commitIndex rf = 0 `max` lastIncludedIndex rf ∧
  lastApplied rf = 0 `max` lastIncludedIndex rf.
Proof.
  unfold Make, readPersist, setLogsIfAny, Decode, NewDecoder.
  repeat first [case_match | case_if]; cbn; rewrite ?raiseToSnapshot_eq; cbn; split_and!; auto.
Qed.

Lemma restart_kept rf : raft_wf rf → durable rf → kept rf (restart rf).
Proof.
  intros Hwf Hd. destruct (Make_volatile (peers rf) (me rf) (persister rf)) as (? & ? & Hps & _).
  unfold kept. fold (restart rf) in *. rewrite Hps. split_and!; auto. by apply restart_persistent.
Qed.

Lemma restart_wf rf : raft_wf rf → durable rf → raft_wf (restart rf).
Proof.
  intros Hwf Hd. destruct (restart_persistent rf Hwf Hd) as (_ & _ & Hi & Ht & Hl).
  destruct (Make_volatile (peers rf) (me rf) (persister rf))
    as (Hp & Hm & _ & _ & Hn & Hma & Hc & Ha). fold (restart rf) in *.
  destruct Hwf. constructor; rewrite ?Hp, ?Hm, ?Hl, ?Hi, ?Ht, ?Hc, ?Ha, ?Hn, ?Hma, ?Hi; auto;
    unfold len; rewrite ?length_replicate; lia.
Qed.

Lemma peer_step_inv rf rf' :
  peer_step rf rf' → raft_wf rf → durable rf → raft_wf rf' ∧ durable rf'.
Proof.
  destruct 1 as [s rf Hpre|rf]; intros Hwf Hd.
  - split; [by apply run_section_wf|]. eapply durable_saved, run_section_saved; done.
  - split; [by apply restart_wf|]. eapply durable_saved; [done|]. left. by apply restart_kept.
Qed.

Lemma peer_steps_inv rf rf' :
  rtc peer_step rf rf' → raft_wf rf → durable rf → raft_wf rf' ∧ durable rf'.
Proof.
  induction 1 as [|x y z Hxy _ IH]; intros Hwf Hd; [done|].
  destruct (peer_step_inv _ _ Hxy Hwf Hd). auto.
Qed.

Lemma readPersist_nil rf : readPersist [] rf = rf.
Proof. done. Qed.

Lemma Make_init_inv n i :
  0 ≤ i < n → raft_wf (Make n i (MakePersister (R:=RaftGob Op) (S:=SV))) ∧
              durable (Make n i (MakePersister (R:=RaftGob Op) (S:=SV))).
Proof.
  intros Hi. split.
  - unfold Make. change (ReadRaftState MakePersister) with (@nil (RaftGob Op)).
    rewrite readPersist_nil. constructor; cbn; auto; unfold len; rewrite ?length_replicate; lia.
  - right. split; [done|]. by repeat split.
Qed.

Lemma peer_reachable_inv rf : peer_reachable rf → raft_wf rf ∧ durable rf.
Proof.
  intros (n & i & Hi & Hs). destruct (Make_init_inv n i Hi). by eapply peer_steps_inv.
Qed.

(** ** Votes *)

#[local] Instance vote_le_preorder : PreOrder vote_le.
Proof.
  split.
  - intros rf. by right.
  - intros x y z [?|[E H1]] [?|[E' H2]]; [left; lia..|right]. split; [congruence|].
    intros Hx. rewrite H2; [by apply H1|]. by rewrite H1.
Qed.

Ltac vote_same := right; split; [done|]; intros; done.

Lemma stepDown_vote t rf : currentTerm rf < t → vote_le rf (stepDown t rf).
Proof. by left. Qed.

Lemma observeLeader_vote t rf : vote_le rf (observeLeader t rf).
Proof. unfold observeLeader. repeat case_if; zbool; [by left|vote_same..]. Qed.

Lemma appendLoop_vote es i rf : vote_le rf (appendLoop es i rf).
Proof.
  revert i. induction es as [|e es IH]; intros i; cbn [appendLoop]; [done|].
  repeat case_if; auto; vote_same.
Qed.

Lemma AppendEntriesHandler_vote args rf : vote_le rf (AppendEntriesHandler args rf).1.1.
Proof.
  unfold AppendEntriesHandler. etrans; [apply (observeLeader_vote (aea_Term args))|].
  set (rf1 := observeLeader _ rf). repeat case_if; cbn; try done.
  - destruct (heartbeatCommit_state args rf1) as (b & k & Hs & _).
    destruct (heartbeatCommit args rf1). cbn in *. rewrite Hs. vote_same.
  - etrans; [apply (appendLoop_vote (aea_Entries args) (aea_PrevLogIndex args + 1))|].
    set (rf2 := appendLoop _ _ _).
    destruct (entriesCommit_state args rf2) as (b & k & Hs & _).
    destruct (entriesCommit args rf2). cbn in *. rewrite Hs. vote_same.
Qed.

Lemma RequestVoteHandle_vote args rf : vote_le rf (RequestVoteHandle args rf).1.
Proof.
  unfold RequestVoteHandle. case_if; [done|].
  set (rf1 := if _ : bool then _ else rf). assert (vote_le rf rf1) as Hle.
  { subst rf1. case_if; [apply stepDown_vote; by zbool|done]. }
  etrans; [exact Hle|]. case_if; cbn; [|done]. zbool. right. split; [done|]. cbn. zsolve.
Qed.

Lemma replicate_append_reply_vote server t args reply rf :
  vote_le rf (replicate_append_reply server t args reply rf).1.1.
Proof.
  unfold replicate_append_reply.
  repeat case_if; cbn; try (zbool; by apply stepDown_vote); try vote_same;
    match goal with |- context [advanceCommitIndexLocked ?r] =>
      destruct (advanceCommit_state r) as (? & ? & Hs & _);
      destruct (advanceCommitIndexLocked r); cbn in Hs; subst; vote_same
    end.
Qed.

Lemma run_section_vote s rf : vote_le rf (run_section s rf).
Proof.
  destruct s; cbn; auto using AppendEntriesHandler_vote, replicate_append_reply_vote,
    RequestVoteHandle_vote; try vote_same.
  - left. cbn. lia.
  - unfold Election_count. repeat case_if; cbn; vote_same.
  - unfold RequestVote_reply. case_if; cbn; [apply stepDown_vote; by zbool|done].
  - unfold replicate_snapshot_reply. case_if; cbn; [apply stepDown_vote; by zbool|vote_same].
  - unfold InstallSnapshot. repeat case_if; cbn; try done; zbool; try (by left); vote_same.
  - destruct (apply_resume_state lastSent rf) as (b & k & -> & _). vote_same.
  - unfold CondInstallSnapshot. case_if; cbn; [done|]. rewrite raiseToSnapshot_eq. vote_same.
  - unfold Snapshot. case_if; [done|]. case_match; [|done].
    rewrite raiseToSnapshot_eq. vote_same.
  - unfold Start. case_if; cbn; [done|]. vote_same.
Qed.

Lemma peer_step_vote rf rf' : peer_step rf rf' → raft_wf rf → durable rf → vote_le rf rf'.
Proof.
  destruct 1 as [s rf Hpre|rf]; intros Hwf Hd; [apply run_section_vote|].
  destruct (restart_persistent rf Hwf Hd) as (? & ? & _). right. split; congruence.
Qed.

Lemma peer_steps_vote rf rf' :
  rtc peer_step rf rf' → raft_wf rf → durable rf → vote_le rf rf'.
Proof.
  induction 1 as [|x y z Hxy _ IH]; intros Hwf Hd; [done|].
  destruct (peer_step_inv _ _ Hxy Hwf Hd). etrans; [by eapply peer_step_vote|auto].
Qed.

(** ** Replication *)

Lemma log_eq_refl rf : log_eq rf rf.
Proof. by repeat split. Qed.

Lemma observeLeader_log t rf : log_eq rf (observeLeader t rf).
Proof. unfold observeLeader. repeat case_if; by repeat split. Qed.

Lemma log_eq_lastIndex rf rf' : log_eq rf rf' → lastIndex rf' = lastIndex rf.
Proof. intros (Hl & Hi & _). unfold lastIndex. by rewrite Hl, Hi. Qed.

Lemma log_eq_termAt rf rf' i : log_eq rf rf' → termAt rf' i = termAt rf i.
Proof. intros (Hl & Hi & Ht & _). unfold termAt. by rewrite Hl, Hi, Ht. Qed.

Lemma log_eq_entryAt rf rf' i : log_eq rf rf' → entryAt rf' i = entryAt rf i.
Proof. intros (Hl & Hi & _). unfold entryAt. by rewrite Hl, Hi. Qed.

Lemma log_eq_prevMatches args rf rf' : log_eq rf rf' → prevMatches args rf' = prevMatches args rf.
Proof. intros (Hl & Hi & Ht & _). unfold prevMatches. by rewrite Hl, Hi, Ht. Qed.

Lemma observeLeader_term t rf :
  currentTerm rf ≤ t → currentTerm (observeLeader t rf) = t.
Proof. intros. unfold observeLeader. repeat case_if; cbn; zbool; lia. Qed.

Lemma observeLeader_stale t rf :
  t < currentTerm rf → currentTerm (observeLeader t rf) = currentTerm rf.
Proof. intros. unfold observeLeader. repeat case_if; cbn; zbool; lia. Qed.

(** What an accepted request does, whether or not it carries entries: the log
    goes through the loop, then the commit index may rise. *)
Lemma AppendEntries_accepted args rf rf' rep b :
  AppendEntriesHandler args rf = (rf', rep, b) → aer_Success rep = true →
  currentTerm rf ≤ aea_Term args ∧ prevMatches args rf = true ∧
  ∃ rf2 k bb,
    rf2 = appendLoop (aea_Entries args) (aea_PrevLogIndex args + 1)
            (observeLeader (aea_Term args) rf) ∧
    rf' = rf2 <| commitIndex := k |> <| applying := bb |> ∧ commitIndex rf2 ≤ k.
Proof.
  intros H Hs. pose proof (observeLeader_log (aea_Term args) rf) as Hle.
  rewrite <- (log_eq_prevMatches args _ _ Hle).
  destruct (decide (currentTerm rf ≤ aea_Term args)) as [Ht|Ht].
  - unfold AppendEntriesHandler in H. rewrite (observeLeader_term _ _ Ht) in H.
    rewrite Z.ltb_irrefl in H. set (rf1 := observeLeader _ rf) in *.
    split; [done|]. case_if_in H; case_if_in H; simplify_eq/=; zbool; split; try done.
    + destruct (heartbeatCommit_state args rf1) as (bb & k & Hk & ?).
      destruct (heartbeatCommit args rf1) as [r bt]. cbn in Hk. simplify_eq.
      assert (aea_Entries args = []) as ->
        by (apply length_zero_iff_nil; unfold len in *; lia).
      by exists rf1, k, bb.
    + set (rf2 := appendLoop _ _ rf1) in *.
      destruct (entriesCommit_state args rf2) as (bb & k & Hk & ?).
      destruct (entriesCommit args rf2) as [r bt]. cbn in Hk. simplify_eq.
      by exists rf2, k, bb.
  - unfold AppendEntriesHandler in H. rewrite observeLeader_stale in H by lia.
    rewrite (proj2 (Z.ltb_lt _ _)) in H by lia. by simplify_eq/=.
Qed.

(** Looking up the log that results from cutting before [c] and appending. *)
Lemma entryAt_spliced rf es c i :
  lastIncludedIndex rf < c ≤ lastIndex rf + 1 →
  entryAt (rf <| logs := slice_to (logs rf) (c - lastIncludedIndex rf) ++ es |>) i =
  if i <? c then entryAt rf i else idx es (i - c).
Proof.
  intros Hc. unfold entryAt, lastIndex in *. cbn.
  assert (len (slice_to (logs rf) (c - lastIncludedIndex rf)) = c - lastIncludedIndex rf) as Hl
    by (apply len_slice_to; lia).
  repeat case_if; zbool; try lia; try done.
  - rewrite idx_app_l by lia. apply idx_slice_to. lia.
  - rewrite idx_app_r by lia. f_equal. lia.
Qed.

Lemma termAt_entryAt rf i e : entryAt rf i = Some e → termAt rf i = e_Term e.
Proof.
  unfold entryAt, termAt. repeat case_if; zbool; try done; try lia; intros He.
  - apply idx_Some in He as [? He%lookup_lt_Some]. unfold len in *. zsolve.
  - by rewrite He.
Qed.

Lemma entryAt_in rf i :
  lastIncludedIndex rf < i ≤ lastIndex rf → is_Some (entryAt rf i).
Proof.
  intros Hi. unfold entryAt. case_if; zbool; [lia|]. apply idx_is_Some.
  unfold lastIndex in *. lia.
Qed.

Lemma entryAt_bounds rf i e :
  entryAt rf i = Some e → lastIncludedIndex rf < i ≤ lastIndex rf.
Proof.
  unfold entryAt, lastIndex. case_if; [done|]. zbool.
  intros [? He%lookup_lt_Some]%idx_Some. unfold len. lia.
Qed.

(** The entries of the log after the loop: at the new entries' positions their
    terms, before them the old log, and nothing is lost but from a position on
    where the old log disagreed with the request. *)
Lemma appendLoop_entries es p rf :
  lastIncludedIndex rf ≤ p ≤ lastIndex rf →
  let rf' := appendLoop es (p + 1) rf in
  (∀ i, i ≤ p → entryAt rf' i = entryAt rf i) ∧
  (∀ k e, es !! k = Some e →
     ∃ e', entryAt rf' (p + 1 + Z.of_nat k) = Some e' ∧ e_Term e' = e_Term e ∧
           (e' = e ∨ entryAt rf (p + 1 + Z.of_nat k) = Some e')) ∧
  (∀ i e0, entryAt rf i = Some e0 →
     entryAt rf' i = Some e0 ∨
     ∃ k e, es !! k = Some e ∧ p + 1 + Z.of_nat k ≤ i ∧
            termAt rf (p + 1 + Z.of_nat k) ≠ e_Term e).
Proof.
  intros Hp rf'. subst rf'.
  destruct (appendLoop_spec es (p + 1) rf) as (j & Hj & Hpre & Hres); [lia|].
  destruct Hres as [[-> ->]|(Hlt & Hle & Hne & ->)].
  - split; [done|]. split; [|by left]. intros k e He.
    destruct (Hpre k e) as [? Ht]; [by eapply lookup_lt_Some|done|].
    destruct (entryAt_in rf (p + 1 + Z.of_nat k)) as [e' He']; [lia|].
    exists e'. apply termAt_entryAt in He' as Ht'. split; [done|]. split; [congruence|by right].
  - set (c := p + 1 + Z.of_nat j) in *.
    set (rf1 := rf <| logs := _ |>).
    assert (∀ i, entryAt (persist rf1) i = if i <? c then entryAt rf i else idx (drop j es) (i - c))
      as Hat by (intros i; apply entryAt_spliced; lia).
    repeat setoid_rewrite Hat. split; [|split].
    + intros i Hi. case_if; zsolve.
    + intros k e He. case_if; zbool.
      * destruct (Hpre k e) as [? Ht]; [lia|done|].
        destruct (entryAt_in rf (p + 1 + Z.of_nat k)) as [e' He']; [lia|].
        exists e'. apply termAt_entryAt in He' as Ht'. split; [done|]. split; [congruence|by right].
      * exists e. split; [|split; [done|by left]]. apply idx_Some. split; [lia|].
        rewrite lookup_drop, <- He. f_equal. lia.
    + intros i e0 Hi. case_if; [by left|]. zbool.
      pose proof (entryAt_bounds _ _ _ Hi).
      destruct (lookup_lt_is_Some_2 es j) as [e He]; [done|].
      right. exists j, e. split; [done|]. split; [lia|]. apply Hne; [done|lia].
Qed.

Lemma appendLoop_log es i rf :
  lastIncludedIndex (appendLoop es i rf) = lastIncludedIndex rf ∧
  lastIncludedTerm (appendLoop es i rf) = lastIncludedTerm rf ∧
  currentTerm (appendLoop es i rf) = currentTerm rf ∧
  commitIndex (appendLoop es i rf) = commitIndex rf ∧
  lastApplied (appendLoop es i rf) = lastApplied rf.
Proof.
  revert i. induction es as [|e es IH]; intros i; cbn [appendLoop]; [done|].
  repeat case_if; auto.
Qed.

(** Entries already in the log with their terms leave it alone. *)
Lemma appendLoop_noop es i rf :
  lastIncludedIndex rf < i →
  (∀ k e, es !! k = Some e →
     ∃ e', entryAt rf (i + Z.of_nat k) = Some e' ∧ e_Term e' = e_Term e) →
  appendLoop es i rf = rf.
Proof.
  revert i. induction es as [|e es IH]; intros i Hi Hall; [done|]. cbn [appendLoop].
  destruct (Hall 0%nat e eq_refl) as (e' & He & Ht). rewrite Z.add_0_r in He.
  rewrite (termAt_entryAt _ _ _ He), Ht, Z.eqb_refl.
  pose proof (entryAt_bounds _ _ _ He). rewrite (proj2 (Z.ltb_ge _ _)) by lia. cbn.
  apply IH; [lia|]. intros k x Hx. destruct (Hall (S k) x Hx) as (x' & Hx' & ?).
  exists x'. split; [|done]. rewrite <- Hx'. f_equal. lia.
Qed.

End facts.
