(* ===== verification/RaftPeer.v ===== *)
(** * What one Raft peer guarantees

    The properties of a single peer's critical sections and of their
    composition across crashes, proved from the lemmas of RaftFacts.v. *)
From stdpp Require Import base tactics list strings numbers relations.
From S2P Require Import Prelude.
From S2P Require Import Labgob.
From S2P Require Import Persister.
From S2P Require Import Raft.
From S2P Require Import RaftFacts.
Open Scope Z_scope.
Open Scope go_scope.

Section peer.
Context {Op SV : Type}.
Implicit Types (rf : Raft Op SV) (es : list (LogEntry Op)).

(** Positions that only grow between two crashes. *)
Definition progress rf rf' : Prop :=
  currentTerm rf ≤ currentTerm rf' ∧ lastIncludedIndex rf ≤ lastIncludedIndex rf' ∧
  commitIndex rf ≤ commitIndex rf' ∧ lastApplied rf ≤ lastApplied rf'.

(** Same term, same index, same command: what Raft's log matching gives a
    follower about the entries of its leader. *)
Definition entries_match rf (prev : Z) es : Prop :=
  ∀ k e e', es !! k = Some e → entryAt rf (prev + 1 + Z.of_nat k) = Some e' →
            e_Term e' = e_Term e → e' = e.

Lemma progress_refl rf : progress rf rf.
Proof. unfold progress. lia. Qed.

Lemma progress_trans rf1 rf2 rf3 : progress rf1 rf2 → progress rf2 rf3 → progress rf1 rf3.
Proof. unfold progress. lia. Qed.

Ltac progress_easy := unfold progress; cbn in *; lia.

Lemma AppendEntriesHandler_progress args rf :
  progress rf (AppendEntriesHandler args rf).1.1.
Proof.
  assert (progress rf (observeLeader (aea_Term args) rf)) as Ho
    by (unfold observeLeader; repeat case_if; zbool; progress_easy).
  destruct (AppendEntriesHandler args rf) as [[rf' rep] b] eqn:E. cbn.
  destruct (aer_Success rep) eqn:Hs.
  - destruct (AppendEntries_accepted _ _ _ _ _ E Hs) as (_ & _ & rf2 & k & bb & -> & -> & Hk).
    eapply progress_trans; [exact Ho|]. set (rf1 := observeLeader _ rf) in *. clearbody rf1.
    destruct (appendLoop_log (aea_Entries args) (aea_PrevLogIndex args + 1) rf1)
      as (? & _ & ? & ? & ?).
    unfold progress. cbn. lia.
  - unfold AppendEntriesHandler in E. repeat case_if_in E; simplify_eq/=; try exact Ho;
      repeat case_match; simplify_eq/=.
Qed.

Lemma run_section_progress s rf : section_pre s rf → progress rf (run_section s rf).
Proof.
  intros Hpre. destruct s; cbn in *; auto using AppendEntriesHandler_progress;
    try progress_easy.
  - unfold Election_count. repeat case_if; progress_easy.
  - unfold RequestVote_reply. case_if; zbool; progress_easy.
  - unfold RequestVoteHandle. repeat case_if; zbool; progress_easy.
  - unfold replicate_append_reply. repeat case_if; cbn; zbool; try progress_easy;
      match goal with |- context [advanceCommitIndexLocked ?r] =>
        destruct (advanceCommit_state r) as (? & k & Hs & Hk);
        destruct (advanceCommitIndexLocked r); cbn in Hs; subst;
        destruct Hk as [->|(? & _ & _)%commitScan_Some]; progress_easy
      end.
  - unfold replicate_snapshot_reply. case_if; zbool; progress_easy.
  - unfold InstallSnapshot. repeat case_if; zbool; progress_easy.
  - destruct (apply_resume_state lastSent rf) as (b & k & -> & Hk). progress_easy.
  - unfold CondInstallSnapshot. case_if; zbool; cbn; [apply progress_refl|].
    rewrite raiseToSnapshot_eq. progress_easy.
  - unfold Snapshot. case_if; [apply progress_refl|]. case_match; [|apply progress_refl].
    zbool. rewrite raiseToSnapshot_eq. progress_easy.
  - unfold Start. case_if; progress_easy.
Qed.

(** ** Properties *)

(** C12.  At every point a peer reaches, through critical sections in any order and
    through crashes, its stable storage restores exactly its term, vote,
    snapshot position and log: a crash there loses nothing Raft must remember,
    and the restarted peer is a follower that has applied its snapshot only. *)
Theorem peer_crash_restores rf :
  peer_reachable rf →
  same_persistent rf (restart rf) ∧ state (restart rf) = Follower ∧
  commitIndex (restart rf) = lastIncludedIndex rf ∧
  lastApplied (restart rf) = lastIncludedIndex rf.
Proof.
  intros [Hwf Hd]%peer_reachable_inv.
  pose proof (restart_persistent rf Hwf Hd) as Hs. destruct Hs as (? & ? & Hi & ? & ?).
  destruct (Make_volatile (peers rf) (me rf) (persister rf)) as (_ & _ & _ & ? & _ & _ & Hc & Ha).
  fold (restart rf) in *. rewrite Hi in *. pose proof (wf_lii _ Hwf).
  repeat split; try done; lia.
Qed.

(** A peer never votes twice in a term: once it has voted, no later
    critical section and no crash changes its vote while the term lasts, and
    the term itself never decreases. *)
Theorem peer_votes_once rf rf' :
  peer_reachable rf → rtc peer_step rf rf' →
  currentTerm rf ≤ currentTerm rf' ∧
  (currentTerm rf' = currentTerm rf → votedFor rf ≠ -1 → votedFor rf' = votedFor rf).
Proof.
  intros [Hwf Hd]%peer_reachable_inv Hs.
  destruct (peer_steps_vote _ _ Hs Hwf Hd) as [?|[? ?]]; split; lia || auto.
Qed.

(** The bookkeeping of a peer stays consistent: in every reachable state
    the snapshot, apply and commit positions are ordered, the log slice starts
    with the snapshot's base entry (so the unguarded [logs[len-1]] of
    [HasLogInCurrentTerm] never panics) and the leader's tables have one slot
    per peer; and a critical section never moves one of the positions back. *)
Theorem peer_positions rf s :
  peer_reachable rf → section_pre s rf →
  raft_wf rf ∧ is_Some (HasLogInCurrentTerm rf) ∧ progress rf (run_section s rf).
Proof.
  intros [Hwf _]%peer_reachable_inv Hpre. split; [done|].
  split; [|by apply run_section_progress]. pose proof (wf_len _ Hwf).
  unfold HasLogInCurrentTerm.
  destruct (idx_is_Some (len (logs rf) - 1) (logs rf)) as [e ->]; [lia|eauto].
Qed.

(** An accepted AppendEntries request leaves the follower with the leader's
    entries: the check on the previous entry held, the log before it is
    untouched, every new entry's term is in place (the entry itself, when equal
    terms mean equal entries), and no entry is lost except from a position on
    where the two logs disagreed, so a delayed request never truncates a log
    that already contains its entries. *)
Theorem append_entries_agrees args rf rf' rep b :
  raft_wf rf → AppendEntriesHandler args rf = (rf', rep, b) → aer_Success rep = true →
  let prev := aea_PrevLogIndex args in
  termAt rf prev = aea_PrevLogTerm args ∧ lastIncludedIndex rf ≤ prev ≤ lastIndex rf ∧
  (∀ i, i ≤ prev → entryAt rf' i = entryAt rf i) ∧
  (∀ k e, aea_Entries args !! k = Some e →
     ∃ e', entryAt rf' (prev + 1 + Z.of_nat k) = Some e' ∧ e_Term e' = e_Term e) ∧
  (entries_match rf prev (aea_Entries args) →
   ∀ k e, aea_Entries args !! k = Some e → entryAt rf' (prev + 1 + Z.of_nat k) = Some e) ∧
  (∀ i e0, entryAt rf i = Some e0 →
     entryAt rf' i = Some e0 ∨
     ∃ k e, aea_Entries args !! k = Some e ∧ prev + 1 + Z.of_nat k ≤ i ∧
            termAt rf (prev + 1 + Z.of_nat k) ≠ e_Term e).
Proof.
  intros Hwf E Hs prev.
  destruct (AppendEntries_accepted _ _ _ _ _ E Hs) as (_ & Hpm & rf2 & k0 & bb & Hrf2 & -> & _).
  destruct (prevMatches_spec _ _ Hwf Hpm) as [Hr Ht].
  pose proof (observeLeader_log (aea_Term args) rf) as Hle. set (rf1 := observeLeader _ rf) in *.
  destruct (appendLoop_entries (aea_Entries args) prev rf1) as (H1 & H2 & H3).
  { rewrite (log_eq_lastIndex _ _ Hle). destruct Hle as (_ & -> & _). done. }
  subst prev. rewrite <- Hrf2 in *.
  assert (∀ i, entryAt (rf2 <| commitIndex := k0 |> <| applying := bb |>) i = entryAt rf2 i)
    as Hrf' by done.
  split_and!; try done; try lia.
  - intros i Hi. by rewrite Hrf', H1, (log_eq_entryAt _ _ _ Hle).
  - intros k e He. destruct (H2 k e He) as (e' & ? & ? & _). exists e'. by rewrite Hrf'.
  - intros Hm k e He. destruct (H2 k e He) as (e' & Hat & Hte & [->|Hold]); rewrite Hrf'; [done|].
    rewrite (log_eq_entryAt _ _ _ Hle) in Hold. by rewrite Hat, (Hm k e e').
  - intros i e0. rewrite Hrf', <- (log_eq_entryAt _ _ _ Hle).
    setoid_rewrite <- (log_eq_termAt _ _ _ Hle). apply H3.
Qed.

(** A duplicate of an accepted AppendEntries request is accepted again and
    changes neither the log nor what stable storage holds. *)
Theorem append_entries_idempotent args rf rf1 rep1 b1 rf2 rep2 b2 :
  raft_wf rf →
  AppendEntriesHandler args rf = (rf1, rep1, b1) → aer_Success rep1 = true →
  AppendEntriesHandler args rf1 = (rf2, rep2, b2) →
  aer_Success rep2 = true ∧ logs rf2 = logs rf1 ∧ persister rf2 = persister rf1.
Proof.
  intros Hwf E1 Hs1 E2.
  destruct (AppendEntries_accepted _ _ _ _ _ E1 Hs1) as (Ht & Hpm & r & k0 & bb & Hr & -> & _).
  destruct (prevMatches_spec _ _ Hwf Hpm) as [Hrange Hpt].
  pose proof (observeLeader_log (aea_Term args) rf) as Hle.
  pose proof (observeLeader_wf (aea_Term args) rf Hwf) as Hwf1.
  pose proof (observeLeader_term _ _ Ht) as Hterm. set (rf0 := observeLeader _ rf) in *.
  assert (lastIncludedIndex rf0 ≤ aea_PrevLogIndex args ≤ lastIndex rf0) as Hrange0
    by (rewrite (log_eq_lastIndex _ _ Hle); destruct Hle as (_ & -> & _); done).
  destruct (appendLoop_entries (aea_Entries args) _ rf0 Hrange0) as (Hpre & Hnew & _).
  destruct (appendLoop_log (aea_Entries args) (aea_PrevLogIndex args + 1) rf0)
    as (Hi & Hit & Hct & Hci & _).
  rewrite <- Hr in *. set (rfa := r <| commitIndex := k0 |> <| applying := bb |>) in *.
  assert (observeLeader (aea_Term args) rfa = rfa <| state := Follower |> <| electionTimer := true |>)
    as Hobs.
  { unfold observeLeader. replace (currentTerm rfa) with (aea_Term args) by (cbn; congruence).
    by rewrite Z.ltb_irrefl, Z.eqb_refl. }
  assert (prevMatches args rfa = true) as Hpm2.
  { unfold prevMatches in *. replace (lastIncludedIndex rfa) with (lastIncludedIndex rf) in *
      by (cbn; destruct Hle as (_ & E & _); congruence).
    replace (lastIncludedTerm rfa) with (lastIncludedTerm rf)
      by (cbn; destruct Hle as (_ & _ & E & _); congruence).
    repeat case_if_in Hpm; try done. zbool.
    assert (entryAt r (aea_PrevLogIndex args) = entryAt rf (aea_PrevLogIndex args)) as He
      by (rewrite Hpre by lia; by apply log_eq_entryAt).
    unfold entryAt in He. rewrite Hi in He. destruct Hle as (_ & El & _). rewrite El in He.
    rewrite (proj2 (Z.leb_gt _ _)) in He by lia.
    replace (logs rfa) with (logs r) by done.
    destruct (idx (logs rf) _) as [e|] eqn:Hx; [|done]. rewrite He.
    apply idx_Some in He as [? Hx'%lookup_lt_Some].
    rewrite (proj2 (Z.ltb_ge _ _)) by lia. rewrite (proj2 (Z.leb_gt _ _)) by (unfold len; lia).
    cbn. done. }
  unfold AppendEntriesHandler in E2. rewrite Hobs in E2.
  set (rfb := rfa <| state := Follower |> <| electionTimer := true |>) in *.
  replace (currentTerm rfb) with (aea_Term args) in E2 by (cbn; congruence).
  rewrite Z.ltb_irrefl in E2. replace (prevMatches args rfb) with true in E2 by done. cbn in E2.
  rewrite (appendLoop_noop _ _ rfb) in E2.
  - destruct (heartbeatCommit_state args rfb) as (? & ? & Hh & _).
    destruct (entriesCommit_state args rfb) as (? & ? & He & _).
    destruct (heartbeatCommit args rfb), (entriesCommit args rfb). cbn in *.
    case_if_in E2; simplify_eq/=; done.
  - cbn. lia.
  - intros k e He. destruct (Hnew k e He) as (e' & ? & ? & _). by exists e'.
Qed.

(** The leader's commit rule: [advanceCommitIndexLocked] moves the commit
    index to the greatest position above it that holds an entry of the current
    term on a majority of the peers, leaves it alone when there is none, and
    never commits an entry of an earlier term by counting replicas. *)
Theorem leader_commit_rule rf rf' b :
  state rf = Leader → advanceCommitIndexLocked rf = (rf', b) →
  (commitIndex rf' = commitIndex rf ∧
     ∀ N, commitIndex rf < N ≤ lastIndex rf → ¬ committable rf N) ∨
  (commitIndex rf < commitIndex rf' ≤ lastIndex rf ∧ committable rf (commitIndex rf') ∧
     ∀ N, commitIndex rf' < N ≤ lastIndex rf → ¬ committable rf N).
Proof.
  intros Hl H. unfold advanceCommitIndexLocked in H.
  rewrite bool_decide_eq_true_2 in H by done. cbn in H. case_match eqn:Hs.
  - right. apply commitScan_Some in Hs as (? & ? & ?).
    destruct (apply_enter_state (rf <| commitIndex := z |>)) as [b' Hb].
    rewrite H in Hb. cbn in Hb. subst rf'. done.
  - left. simplify_eq. split; [done|]. eapply commitScan_None; [|done]. lia.
Qed.

(** Taking a snapshot at a committed index trims the log and nothing else:
    the entries after the index, their terms, the last index and the term at
    the index itself are unchanged, and the trimmed log is saved together with
    the snapshot in one write. *)
Theorem snapshot_compacts rf index snap :
  raft_wf rf → lastIncludedIndex rf < index ≤ commitIndex rf → index ≤ lastIndex rf →
  let rf' := Snapshot index snap rf in
  lastIncludedIndex rf' = index ∧ lastIndex rf' = lastIndex rf ∧
  (∀ i, index ≤ i → termAt rf' i = termAt rf i) ∧
  (∀ i, index < i → entryAt rf' i = entryAt rf i) ∧
  ReadRaftState (persister rf') = encodeState rf' ∧ ReadSnapshot (persister rf') = snap.
Proof.
  intros Hwf Hi Hl. cbn zeta.
  destruct (termAt_in rf index) as (e & He & Hte); [lia|].
  set (local := index - lastIncludedIndex rf) in *.
  set (tail := if local + 1 <? len (logs rf) then slice_from (logs rf) (local + 1) else []).
  assert (Snapshot index snap rf = saveStateAndSnapshot snap (raiseToSnapshot
    (rf <| logs := mkEntry NoneCommand (e_Term e) :: tail |> <| lastIncludedIndex := index |>
        <| lastIncludedTerm := e_Term e |>))) as ->.
  { unfold Snapshot. rewrite (proj2 (Z.leb_gt _ _)), (proj2 (Z.ltb_ge _ _)) by lia. cbn.
    fold local. rewrite He. subst tail. by case_if. }
  assert (tail = slice_from (logs rf) (local + 1)) as Ht.
  { subst tail. case_if; [done|]. zbool. unfold slice_from. symmetry. apply drop_ge.
    unfold len in *. lia. }
  assert (len tail = len (logs rf) - (local + 1)) as Hlt
    by (rewrite Ht; apply len_slice_from; unfold lastIndex in *; lia).
  rewrite raiseToSnapshot_eq.
  assert (∀ i, index < i → idx (mkEntry NoneCommand (e_Term e) :: tail) (i - index)
             = idx (logs rf) (i - lastIncludedIndex rf)) as Hidx.
  { intros i Hgt. rewrite idx_cons_pos, Ht, idx_slice_from by lia. f_equal. lia. }
  split; [done|]. split.
  { unfold lastIndex in *. cbn. rewrite len_cons. lia. }
  split; [|split; [|split; [apply ReadRaftState_SaveBoth|apply ReadSnapshot_SaveBoth]]].
  - intros i Hgt. destruct (decide (i = index)) as [->|Hne].
    + rewrite Hte. unfold termAt. cbn. by rewrite Z.eqb_refl.
    + unfold termAt. cbn. rewrite Hidx, len_cons by lia.
      repeat case_if; zsolve.
  - intros i Hgt. unfold entryAt. cbn. rewrite Hidx by lia. repeat case_if; zsolve.
Qed.

End peer.

(** ** Concrete runs

    A peer of three that votes, appends and compacts; the properties above
    apply to its states. *)
Definition run_peer (ss : list (Section_ nat nat)) : Raft nat nat :=
  foldl (λ rf s, run_section s rf) (Make 3 0 MakePersister) ss.

Lemma run_peer_reachable ss :
  Forall (λ s, match s with ResumeApply _ => False | _ => True end) ss →
  peer_reachable (run_peer ss).
Proof.
  intros Hss. exists 3, 0. split; [lia|]. unfold run_peer.
  generalize (Make 3 0 (MakePersister (R:=RaftGob nat) (S:=nat))).
  induction Hss as [|s ss Hs _ IH]; intros rf; [done|].
  eapply rtc_l; [|apply IH]. constructor. by destruct s.
Qed.

Definition entry (c t : nat) : LogEntry nat := mkEntry (AOp c) (Z.of_nat t).

Definition request_2 : AppendEntryArgs nat := mkAEArgs 2 1 0 0 [entry 10 1; entry 11 2] 1 1.
Definition peer_voted : Raft nat nat := run_peer [HandleVote (mkRVArgs 2 1 0 0)].
Definition peer_with_log : Raft nat nat :=
  run_peer [HandleVote (mkRVArgs 2 1 0 0); HandleEntries request_2].
Definition peer_leading : Raft nat nat :=
  run_peer [BeginElection; CountVote (mkElection 1 1 false); StartCommand (AOp 5%nat)].

Lemma peer_crash_restores_witness :
  same_persistent peer_with_log (restart peer_with_log) ∧
  state (restart peer_with_log) = Follower ∧
  commitIndex (restart peer_with_log) = lastIncludedIndex peer_with_log ∧
  lastApplied (restart peer_with_log) = lastIncludedIndex peer_with_log.
Proof. apply peer_crash_restores, run_peer_reachable. repeat constructor. Defined.

Lemma peer_votes_once_witness :
  let rf' := restart (run_section (HandleVote (mkRVArgs 2 2 9 9)) peer_voted) in
  currentTerm peer_voted ≤ currentTerm rf' ∧
  (currentTerm rf' = currentTerm peer_voted → votedFor peer_voted ≠ -1 →
   votedFor rf' = votedFor peer_voted) ∧
  votedFor peer_voted = 1 ∧ currentTerm rf' = currentTerm peer_voted.
Proof.
  cbv zeta. destruct (peer_votes_once peer_voted
    (restart (run_section (HandleVote (mkRVArgs 2 2 9 9)) peer_voted))) as [? ?].
  - apply run_peer_reachable. repeat constructor.
  - eapply rtc_l; [apply (peer_section (HandleVote (mkRVArgs 2 2 9 9))); exact I|].
    apply rtc_once. constructor.
  - split_and!; [done|done|by vm_compute..].
Defined.

Lemma peer_positions_witness :
  raft_wf peer_with_log ∧ is_Some (HasLogInCurrentTerm peer_with_log) ∧
  progress peer_with_log (run_section (ResumeApply 1) peer_with_log).
Proof.
  apply (peer_positions peer_with_log (ResumeApply 1)).
  - apply run_peer_reachable. repeat constructor.
  - vm_compute. discriminate.
Defined.

Lemma peer_voted_wf : raft_wf peer_voted.
Proof. apply peer_reachable_inv, run_peer_reachable. repeat constructor. Qed.

Lemma append_entries_agrees_witness :
  let out := AppendEntriesHandler request_2 peer_voted in
  aer_Success out.1.2 = true ∧ termAt peer_voted 0 = 0 ∧
  (∀ i e0, entryAt peer_voted i = Some e0 →
     entryAt out.1.1 i = Some e0 ∨
     ∃ k e, aea_Entries request_2 !! k = Some e ∧ 0 + 1 + Z.of_nat k ≤ i ∧
            termAt peer_voted (0 + 1 + Z.of_nat k) ≠ e_Term e).
Proof.
  cbv zeta. destruct (AppendEntriesHandler request_2 peer_voted) as [[rf' rep] b] eqn:E.
  assert (aer_Success rep = true) as Hs by (vm_compute in E; by injection E as _ <- _).
  destruct (append_entries_agrees request_2 peer_voted rf' rep b peer_voted_wf E Hs)
    as (? & _ & _ & _ & _ & ?). done.
Defined.

Lemma append_entries_idempotent_witness :
  let out1 := AppendEntriesHandler request_2 peer_voted in
  let out2 := AppendEntriesHandler request_2 out1.1.1 in
  aer_Success out2.1.2 = true ∧ logs out2.1.1 = logs out1.1.1 ∧
  persister out2.1.1 = persister out1.1.1.
Proof.
  cbv zeta. destruct (AppendEntriesHandler request_2 peer_voted) as [[rf1 rep1] b1] eqn:E1.
  cbn. destruct (AppendEntriesHandler request_2 rf1) as [[rf2 rep2] b2] eqn:E2.
  apply (append_entries_idempotent request_2 peer_voted rf1 rep1 b1 rf2 rep2 b2 peer_voted_wf E1).
  - vm_compute in E1. by injection E1 as _ <- _.
  - exact E2.
Defined.

(** A leader whose entry 1 is on peer 1 as well. *)
Definition peer_acked : Raft nat nat := peer_leading <| matchIndex := [1; 1; 0] |>.

Lemma leader_commit_rule_witness :
  let out := advanceCommitIndexLocked peer_acked in
  commitIndex out.1 = 1 ∧
  ((commitIndex out.1 = commitIndex peer_acked ∧
     ∀ N, commitIndex peer_acked < N ≤ lastIndex peer_acked → ¬ committable peer_acked N) ∨
   (commitIndex peer_acked < commitIndex out.1 ≤ lastIndex peer_acked ∧
     committable peer_acked (commitIndex out.1) ∧
     ∀ N, commitIndex out.1 < N ≤ lastIndex peer_acked → ¬ committable peer_acked N)).
Proof.
  cbv zeta. split; [reflexivity|].
  apply (leader_commit_rule peer_acked _ (advanceCommitIndexLocked peer_acked).2); reflexivity.
Defined.

Lemma peer_with_log_wf : raft_wf peer_with_log.
Proof. apply peer_reachable_inv, run_peer_reachable. repeat constructor. Qed.

Lemma snapshot_compacts_witness :
  let rf' := Snapshot 1 [42%nat] peer_with_log in
  lastIncludedIndex rf' = 1 ∧ lastIndex rf' = lastIndex peer_with_log ∧
  entryAt rf' 2 = Some (entry 11 2) ∧ ReadSnapshot (persister rf') = [42%nat].
Proof.
  cbv zeta.
  destruct (snapshot_compacts peer_with_log 1 [42%nat] peer_with_log_wf) as (? & ? & _ & He & _ & ?).
  - vm_compute. split; [reflexivity|discriminate].
  - vm_compute. discriminate.
  - split; [done|]. split; [done|]. split; [|done]. rewrite He; [reflexivity|lia].
Defined.
