(* ===== verification/RaftApply.v ===== *)
(** * Delivery of committed entries on [applyCh]

    [applyCommittedEntries] releases the lock while it sends a batch, so other
    critical sections run between its turns.  This file puts the batch being
    sent, the snapshots waiting to be sent and the messages already received
    by the service next to the peer, and shows what the service sees. *)
From stdpp Require Import base tactics list strings numbers relations.
From S2P Require Import Prelude.
From S2P Require Import Labgob.
From S2P Require Import Persister.
From S2P Require Import Raft.
From S2P Require Import RaftFacts.
Open Scope Z_scope.
Open Scope go_scope.

Section apply.
Context {Op SV : Type}.
Implicit Types (rf : Raft Op SV) (m : ApplyMsg Op SV).

(** The batch a critical section leaves to be sent, and the snapshot. *)
Definition section_batch (s : Section_ Op SV) rf : option (Batch Op SV) :=
  match s with
  | HandleEntries args => (AppendEntriesHandler args rf).2
  | EntriesReply server term args reply => (replicate_append_reply server term args reply rf).2
  | ResumeApply lastSent => (apply_resume lastSent rf).2
  | _ => None
  end.

Definition section_snapshot (s : Section_ Op SV) rf : option (ApplyMsg Op SV) :=
  match s with HandleSnapshot args => (InstallSnapshot args rf).2 | _ => None end.

(** The peer, the batch a goroutine is sending, the snapshots other goroutines
    wait to send, and what the service has received. *)
Record Pipeline := mkPipeline {
  pl_raft : Raft Op SV;
  pl_batch : option (Batch Op SV);
  pl_snaps : list (ApplyMsg Op SV);
  pl_delivered : list (ApplyMsg Op SV)
}.

Definition is_resume (s : Section_ Op SV) : bool :=
  match s with ResumeApply _ | SnapshotSent => true | _ => false end.

Definition option_to_list {A} (o : option A) : list A :=
  match o with Some x => [x] | None => [] end.

Inductive pl_step : Pipeline → Pipeline → Prop :=
| pl_section s rf b q d :
    is_resume s = false →
    pl_step (mkPipeline rf b q d)
      (mkPipeline (run_section s rf)
         (match section_batch s rf with Some b' => Some b' | None => b end)
         (q ++ option_to_list (section_snapshot s rf)) d)
| pl_send rf m ms k q d :
    pl_step (mkPipeline rf (Some (m :: ms, k)) q d) (mkPipeline rf (Some (ms, k)) q (d ++ [m]))
| pl_resume rf k q d :
    pl_step (mkPipeline rf (Some ([], k)) q d)
      (mkPipeline (run_section (ResumeApply k) rf) (section_batch (ResumeApply k) rf) q d)
| pl_snapshot rf b q1 m q2 d :
    pl_step (mkPipeline rf b (q1 ++ m :: q2) d)
      (mkPipeline (run_section SnapshotSent rf) b (q1 ++ q2) (d ++ [m])).

(** Steps of a server whose leader sends no snapshots and whose service takes
    snapshots only of what it has received. *)
Definition local_section (received : Z) (s : Section_ Op SV) : Prop :=
  match s with
  | HandleSnapshot _ | CondInstall _ _ _ => False
  | TakeSnapshot index _ => index ≤ received
  | _ => True
  end.

Inductive pl_local (n0 : Z) : Pipeline → Pipeline → Prop :=
| pl_local_section s rf b q d :
    is_resume s = false → local_section (n0 + len d) s →
    pl_local n0 (mkPipeline rf b q d)
      (mkPipeline (run_section s rf)
         (match section_batch s rf with Some b' => Some b' | None => b end) q d)
| pl_local_send rf m ms k q d :
    pl_local n0 (mkPipeline rf (Some (m :: ms, k)) q d) (mkPipeline rf (Some (ms, k)) q (d ++ [m]))
| pl_local_resume rf k q d :
    pl_local n0 (mkPipeline rf (Some ([], k)) q d)
      (mkPipeline (run_section (ResumeApply k) rf) (section_batch (ResumeApply k) rf) q d).

Definition pl_start rf : Pipeline := mkPipeline rf None [] [].

(** Consecutive indices from [lo + 1]. *)
Fixpoint consecutive (lo : Z) (ms : list (ApplyMsg Op SV)) : Prop :=
  match ms with
  | [] => True
  | m :: ms => CommandValid m = true ∧ CommandIndex m = lo + 1 ∧ consecutive (lo + 1) ms
  end.

(** ** The collected batch *)

Lemma collectLoop_spec n i last rf :
  last = i - 1 → lastIncludedIndex rf < i → i + Z.of_nat n - 1 ≤ lastIndex rf →
  ∃ msgs, collectLoop n i last rf = (msgs, last + Z.of_nat n) ∧
    length msgs = n ∧ consecutive last msgs ∧
    ∀ k m, msgs !! k = Some m →
      CommandIndex m = i + Z.of_nat k ∧
      entryAt rf (CommandIndex m) = Some (mkEntry (Command m) (CommandTerm m)).
Proof.
  revert i last. induction n as [|n IH]; intros i last -> Hi Hl; cbn [collectLoop].
  { exists []. cbn. split; [f_equal; lia|]. split_and!; [done|done|]. intros k m. by destruct k. }
  destruct (entryAt_in rf i) as [e He]; [lia|]. apply entryAt_bounds in He as Hb.
  unfold entryAt in He. rewrite (proj2 (Z.leb_gt _ _)) in He by lia. rewrite He.
  destruct (IH (i + 1) i) as (msgs & -> & Hlen & Hc & Hm); [lia..|].
  eexists. split; [f_equal; lia|]. split; [cbn; lia|]. split.
  { cbn. split; [done|]. split; [lia|]. by replace (i - 1 + 1) with i by lia. }
  intros [|k] m; cbn.
  - intros [= <-]. cbn. split; [lia|]. unfold entryAt.
    rewrite (proj2 (Z.leb_gt _ _)), He by lia. by destruct e.
  - intros [Hk ?]%Hm. split; [lia|done].
Qed.

Lemma consecutive_app lo ms m :
  consecutive lo ms → CommandValid m = true → CommandIndex m = lo + len ms + 1 →
  consecutive lo (ms ++ [m]).
Proof.
  revert lo. induction ms as [|x ms IH]; intros lo; cbn.
  - intros _ ? ->. unfold len. cbn. split; [done|]. split; [lia|done].
  - rewrite len_cons. intros (? & ? & ?) ? ?. split; [done|]. split; [done|].
    apply IH; [done..|lia].
Qed.

(** With well-formed positions a batch continues where [lastApplied] stands
    and ends at the commit index or the end of the log. *)
Lemma apply_collect_spec rf rf' b :
  raft_wf rf → apply_collect rf = (rf', b) →
  match b with
  | None => rf' = rf <| applying := false |>
  | Some (msgs, k) =>
      rf' = rf ∧ snapshotInFlight rf = false ∧ k = commitIndex rf `min` lastIndex rf ∧
      lastApplied rf < k ∧ len msgs = k - lastApplied rf ∧ consecutive (lastApplied rf) msgs ∧
      ∀ j m, msgs !! j = Some m →
        CommandIndex m = lastApplied rf + 1 + Z.of_nat j ∧
        entryAt rf (CommandIndex m) = Some (mkEntry (Command m) (CommandTerm m))
  end.
Proof.
  intros Hwf. pose proof (wf_applied _ Hwf). unfold apply_collect.
  case_if; [by intros [= <- <-]|]. case_if; [by intros [= <- <-]|]. zbool.
  rewrite (proj2 (Z.leb_gt (lastApplied rf + 1) _)) by lia.
  set (stop := if lastIndex rf <? commitIndex rf then _ else _).
  assert (stop = commitIndex rf `min` lastIndex rf) as Hstop by (subst stop; case_if; zbool; lia).
  clearbody stop. case_if; [by intros [= <- <-]|]. zbool.
  destruct (collectLoop_spec (Z.to_nat (stop + 1 - (lastApplied rf + 1))) (lastApplied rf + 1)
              (lastApplied rf + 1 - 1) rf) as (msgs & Hc & Hl & Hcon & Hm); [lia..|].
  rewrite Hc. intros [= <- <-]. split_and!; try done; try lia.
  - unfold len. lia.
  - by replace (lastApplied rf) with (lastApplied rf + 1 - 1) by lia.
Qed.

(** ** The delivery invariant *)

Record pl_inv (n0 : Z) (p : Pipeline) : Prop := {
  pi_wf : raft_wf (pl_raft p);
  pi_nosnap : snapshotInFlight (pl_raft p) = false;
  pi_applying : applying (pl_raft p) = bool_decide (is_Some (pl_batch p));
  pi_delivered : consecutive n0 (pl_delivered p);
  pi_batch :
    match pl_batch p with
    | None => lastApplied (pl_raft p) = n0 + len (pl_delivered p)
    | Some (msgs, k) =>
        lastApplied (pl_raft p) ≤ n0 + len (pl_delivered p) ∧
        k = n0 + len (pl_delivered p) + len msgs ∧ k ≤ commitIndex (pl_raft p) ∧
        consecutive (n0 + len (pl_delivered p)) msgs
    end
}.

(** A critical section that does not collect a batch, seen from the pipeline. *)
Definition quiet (received : Z) rf rf' : Prop :=
  snapshotInFlight rf' = snapshotInFlight rf ∧ applying rf' = applying rf ∧
  commitIndex rf ≤ commitIndex rf' ∧
  (lastApplied rf' = lastApplied rf ∨ lastApplied rf < lastApplied rf' ≤ received).

Lemma pl_inv_quiet n0 rf rf' b q d :
  pl_inv n0 (mkPipeline rf b q d) → raft_wf rf' → quiet (n0 + len d) rf rf' →
  pl_inv n0 (mkPipeline rf' b q d).
Proof.
  intros [? Hs Ha ? Hb] ? (Hs' & Ha' & Hc & Hl). cbn in *.
  constructor; cbn; try congruence; try done.
  destruct b as [[msgs k]|]; [|lia]. destruct Hb as (? & ? & ? & ?). split_and!; lia || done.
Qed.

(** A critical section that ends in [apply_enter]. *)
Lemma pl_inv_enter n0 rf rf1 rf' b q d b' :
  pl_inv n0 (mkPipeline rf b q d) → raft_wf rf1 → quiet (n0 + len d) rf rf1 →
  apply_enter rf1 = (rf', b') →
  pl_inv n0 (mkPipeline rf' (match b' with Some x => Some x | None => b end) q d).
Proof.
  intros Hinv Hwf Hq He. pose proof (pl_inv_quiet _ _ _ _ _ _ Hinv Hwf Hq) as Hinv1.
  pose proof Hinv1 as [_ Hs Ha ? Hb]. cbn in *. unfold apply_enter in He.
  rewrite Hs in He. case_if_in He.
  { simplify_eq. by destruct b. }
  symmetry in Ha. apply bool_decide_eq_false in Ha. apply eq_None_not_Some in Ha as ->.
  set (rf2 := rf1 <| applying := true |>) in *.
  assert (raft_wf rf2) as Hwf2 by (destruct Hwf; constructor; cbn; auto).
  pose proof (apply_collect_spec _ _ _ Hwf2 He) as Hc. destruct b' as [[msgs k]|].
  - destruct Hc as (-> & _ & Hk & ? & Hlen & Hcon & _). change (lastApplied rf2) with (lastApplied rf1) in *.
    change (commitIndex rf2) with (commitIndex rf1) in *.
    constructor; cbn; try done. rewrite Hb in Hcon. split_and!; [lia|lia|lia|done].
  - subst rf'. constructor; cbn; try done. by destruct Hwf; constructor.
Qed.

Lemma heartbeatCommit_enter args rf :
  (heartbeatCommit args rf = (rf, None)) ∨
  (∃ k, commitIndex rf ≤ k ∧ heartbeatCommit args rf = apply_enter (rf <| commitIndex := k |>)).
Proof.
  unfold heartbeatCommit. repeat case_if; [|by left..]. right. eexists. split; [|done]. zbool. lia.
Qed.

Lemma entriesCommit_enter args rf :
  (entriesCommit args rf = (rf, None)) ∨
  (∃ k, commitIndex rf ≤ k ∧ entriesCommit args rf = apply_enter (rf <| commitIndex := k |>)).
Proof.
  unfold entriesCommit. repeat case_if; [|by left..]. right. eexists. split; [|done]. zbool. lia.
Qed.

Lemma advanceCommit_enter rf :
  (advanceCommitIndexLocked rf = (rf, None)) ∨
  (∃ k, commitIndex rf ≤ k ∧ advanceCommitIndexLocked rf = apply_enter (rf <| commitIndex := k |>)).
Proof.
  unfold advanceCommitIndexLocked. case_if; [by left|]. case_match eqn:Hs; [|by left].
  right. eexists. split; [|done]. apply commitScan_Some in Hs as (? & _). lia.
Qed.

(** Every local critical section is a quiet change, possibly followed by
    [apply_enter]. *)
Definition shape (received : Z) rf (out : Raft Op SV * option (Batch Op SV)) : Prop :=
  ∃ rf2, raft_wf rf2 ∧ quiet received rf rf2 ∧ (out = (rf2, None) ∨ out = apply_enter rf2).

Lemma quiet_trans n rf1 rf2 rf3 : quiet n rf1 rf2 → quiet n rf2 rf3 → quiet n rf1 rf3.
Proof. unfold quiet. intros (?&?&?&?) (?&?&?&?). split_and!; try congruence; lia. Qed.

Ltac quiet_easy := split_and!; cbn; try done; lia.

Lemma shape_commit n rf0 rf1 rf out :
  raft_wf rf → quiet n rf0 rf →
  (out = (rf, None) ∨
   ∃ k, commitIndex rf ≤ k ∧ out = apply_enter (rf <| commitIndex := k |>)) →
  rf1 = rf0 → shape n rf1 out.
Proof.
  intros Hwf Hq [->|(k & Hk & ->)] ->.
  - exists rf. split_and!; [done|done|by left].
  - exists (rf <| commitIndex := k |>). split_and!; [|eapply quiet_trans; [done|quiet_easy]|by right].
    destruct Hwf; constructor; cbn; auto; lia.
Qed.

Lemma observeLeader_quiet n t rf : quiet n rf (observeLeader t rf).
Proof. unfold observeLeader. repeat case_if; quiet_easy. Qed.

Lemma appendLoop_quiet n es i rf : quiet n rf (appendLoop es i rf).
Proof.
  revert i. induction es as [|e es IH]; intros i; cbn [appendLoop]; [quiet_easy|].
  repeat case_if; auto; quiet_easy.
Qed.

Lemma AppendEntriesHandler_shape n args rf :
  raft_wf rf →
  shape n rf ((AppendEntriesHandler args rf).1.1, (AppendEntriesHandler args rf).2).
Proof.
  intros Hwf. pose proof (observeLeader_wf (aea_Term args) _ Hwf) as Hwf1.
  pose proof (observeLeader_quiet n (aea_Term args) rf) as Hq1.
  unfold AppendEntriesHandler. set (rf1 := observeLeader _ rf) in *. clearbody rf1.
  repeat case_if; cbn; try (eapply (shape_commit _ rf _ rf1); auto; fail).
  - eapply (shape_commit _ rf _ rf1); auto.
    destruct (heartbeatCommit_enter args rf1) as [->|(k & ? & Hk)]; [by left|right].
    exists k. rewrite Hk. split; [done|]. by destruct (apply_enter _).
  - zbool. destruct (prevMatches_spec _ _ Hwf1 E1) as [? _].
    set (rf2 := appendLoop _ _ rf1).
    assert (raft_wf rf2) as Hwf2 by (apply appendLoop_wf; [done|lia]).
    assert (quiet n rf1 rf2) as Hq2 by apply appendLoop_quiet. clearbody rf2.
    eapply (shape_commit _ rf _ rf2); auto; [by eapply quiet_trans|].
    destruct (entriesCommit_enter args rf2) as [->|(k & ? & Hk)]; [by left|right].
    exists k. rewrite Hk. split; [done|]. by destruct (apply_enter _).
Qed.

Lemma replicate_append_reply_shape n server t args reply rf :
  raft_wf rf →
  shape n rf ((replicate_append_reply server t args reply rf).1.1,
              (replicate_append_reply server t args reply rf).2).
Proof.
  intros Hwf. unfold replicate_append_reply.
  case_if; cbn.
  { eapply (shape_commit _ rf _ (stepDown (aer_Term reply) rf)); auto using stepDown_wf. quiet_easy. }
  case_if; cbn; [eapply (shape_commit _ rf _ rf); auto; quiet_easy|].
  case_if; cbn.
  - set (r1 := if _ : bool then rf <| matchIndex ::= _ |> else rf).
    assert (raft_wf r1 ∧ quiet n rf r1) as [Hw1 Hq1].
    { subst r1. case_if; split; auto; try quiet_easy.
      destruct Hwf; constructor; cbn; rewrite ?len_wr; auto. }
    clearbody r1. set (r2 := if _ : bool then r1 <| nextIndex ::= _ |> else r1).
    assert (raft_wf r2 ∧ quiet n r1 r2) as [Hw2 Hq2].
    { subst r2. case_if; split; auto; try quiet_easy.
      destruct Hw1; constructor; cbn; rewrite ?len_wr; auto. }
    clearbody r2. eapply (shape_commit _ rf _ r2); auto; [by eapply quiet_trans|].
    destruct (advanceCommit_enter r2) as [->|(k & ? & Hk)]; [by left|right].
    exists k. rewrite Hk. split; [done|]. by destruct (apply_enter _).
  - set (r1 := if _ : bool then _ else rf). eapply (shape_commit _ rf _ r1); auto; subst r1;
      case_if; auto; try quiet_easy. destruct Hwf; constructor; cbn; rewrite ?len_wr; auto.
Qed.

Lemma section_shape n s rf :
  is_resume s = false → local_section n s → raft_wf rf →
  shape n rf (run_section s rf, section_batch s rf).
Proof.
  intros Hr Hloc Hwf.
  assert (section_pre s rf) as Hpre by (by destruct s).
  pose proof (run_section_wf s rf Hwf Hpre) as Hwf'.
  destruct s; try done; cbn in *;
    auto using AppendEntriesHandler_shape, replicate_append_reply_shape;
    match goal with |- shape _ _ (?r, _) => exists r end; split_and!; auto; try quiet_easy.
  - unfold Election_count. repeat case_if; quiet_easy.
  - unfold RequestVote_reply. case_if; quiet_easy.
  - unfold RequestVoteHandle. repeat case_if; quiet_easy.
  - unfold replicate_snapshot_reply. case_if; quiet_easy.
  - unfold Snapshot. case_if; [quiet_easy|]. case_match; [|quiet_easy].
    zbool. rewrite raiseToSnapshot_eq. quiet_easy.
  - unfold Start. case_if; quiet_easy.
Qed.

Lemma pl_local_inv n0 p p' : pl_local n0 p p' → pl_inv n0 p → pl_inv n0 p'.
Proof.
  destruct 1 as [s rf b q d Hr Hloc|rf m ms k q d|rf k q d]; intros Hinv.
  - destruct (section_shape _ s rf Hr Hloc (pi_wf _ _ Hinv)) as (rf2 & Hwf2 & Hq & Hout).
    revert Hout. generalize (run_section s rf) (section_batch s rf). intros rf' b' [Hout|Hout].
    + injection Hout as -> ->. by eapply pl_inv_quiet.
    + symmetry in Hout. by eapply pl_inv_enter.
  - destruct Hinv as [? ? ? ? (? & Hk & ? & Hcv & Hci & Hc)]. cbn in *.
    rewrite len_cons in Hk. constructor; cbn; try done; rewrite ?len_snoc.
    + apply consecutive_app; [done..|lia].
    + rewrite Z.add_assoc. split_and!; try done; lia.
  - destruct Hinv as [Hwf Hs Ha ? (? & Hk & Hkc & _)]. cbn in *.
    assert (k = n0 + len d) as -> by (unfold len in *; cbn in *; lia). clear Hk.
    unfold apply_resume. rewrite Hs.
    set (rf1 := if _ : bool then _ else rf).
    assert (raft_wf rf1 ∧ snapshotInFlight rf1 = false ∧ applying rf1 = true ∧
            lastApplied rf1 = n0 + len d) as (Hw1 & Hs1 & Ha1 & Hl1).
    { subst rf1. case_if; zbool; split_and!; cbn; auto; [|lia].
      destruct Hwf; constructor; cbn; auto; lia. }
    clearbody rf1. destruct (apply_collect rf1) as [rf' b] eqn:Hc. cbn.
    apply apply_collect_spec in Hc; [|done]. destruct b as [[msgs k]|].
    + destruct Hc as (-> & _ & Hk & ? & ? & Hcon & _). rewrite Hl1 in *.
      constructor; cbn; try done. split_and!; [lia|lia|lia|done].
    + subst rf'. constructor; cbn; try done. by destruct Hw1; constructor.
Qed.

Lemma pl_locals_inv n0 p p' : rtc (pl_local n0) p p' → pl_inv n0 p → pl_inv n0 p'.
Proof. induction 1; eauto using pl_local_inv. Qed.

Lemma pl_start_inv n i (ps : Persister (RaftGob Op) SV) :
  raft_wf (Make n i ps) → snapshotInFlight (Make n i ps) = false → applying (Make n i ps) = false →
  pl_inv (lastApplied (Make n i ps)) (pl_start (Make n i ps)).
Proof. intros ???. constructor; cbn; try done. unfold len. cbn. lia. Qed.

Lemma Make_idle n i (ps : Persister (RaftGob Op) SV) :
  snapshotInFlight (Make n i ps) = false ∧ applying (Make n i ps) = false.
Proof.
  unfold Make, readPersist, setLogsIfAny, Decode, NewDecoder.
  repeat first [case_match | case_if]; cbn; rewrite ?raiseToSnapshot_eq; by cbn.
Qed.

(** ** Properties *)

(** What the service receives between two crashes is the log in order,
    each entry once: whatever critical sections run while a batch is being
    sent, the messages received so far carry the consecutive indices after the
    position the peer restarted from, as long as no snapshot is installed
    (appends, commits, elections and the service's own snapshots of what it
    has received all interleave). *)
Theorem apply_in_order n i (ps : Persister (RaftGob Op) SV) p :
  raft_wf (Make n i ps) →
  rtc (pl_local (lastApplied (Make n i ps))) (pl_start (Make n i ps)) p →
  consecutive (lastApplied (Make n i ps)) (pl_delivered p) ∧
  lastApplied (Make n i ps) + len (pl_delivered p) ≤ commitIndex (pl_raft p).
Proof.
  intros Hwf Hs. destruct (Make_idle n i ps) as [Hf Ha].
  pose proof (pl_locals_inv _ _ _ Hs (pl_start_inv n i ps Hwf Hf Ha)) as [Hw _ _ Hd Hb].
  split; [done|]. destruct (pl_batch p) as [[msgs k]|].
  - destruct Hb as (_ & ? & ? & _). pose proof (len_nonneg msgs). lia.
  - pose proof (wf_commit _ Hw). lia.
Qed.

(** A batch is exactly what is committed and not yet applied: when
    [applyCommittedEntries] starts sending, its messages are the entries of the
    log from [lastApplied + 1] to the smaller of the commit index and the last
    index, each with its index and term, and none is sent when there is none or
    a snapshot is on its way to the service. *)
Theorem apply_batch_exact rf rf' b :
  raft_wf rf → apply_enter rf = (rf', b) →
  match b with
  | Some (msgs, k) =>
      applying rf = false ∧ applying rf' = true ∧ snapshotInFlight rf = false ∧
      k = commitIndex rf `min` lastIndex rf ∧ lastApplied rf < k ∧
      len msgs = k - lastApplied rf ∧
      ∀ j m, msgs !! j = Some m →
        CommandIndex m = lastApplied rf + 1 + Z.of_nat j ∧
        entryAt rf (CommandIndex m) = Some (mkEntry (Command m) (CommandTerm m))
  | None =>
      applying rf' = applying rf ∧
      (applying rf = true ∨ snapshotInFlight rf = true ∨
       commitIndex rf `min` lastIndex rf ≤ lastApplied rf)
  end.
Proof.
  intros Hwf. unfold apply_enter.
  destruct (applying rf) eqn:Ea; [intros [= <- <-]; auto|].
  destruct (snapshotInFlight rf) eqn:Es; [intros [= <- <-]; auto|].
  set (rf1 := rf <| applying := true |>). intros H.
  assert (raft_wf rf1) as Hwf1 by (destruct Hwf; constructor; cbn; auto).
  pose proof (apply_collect_spec _ _ _ Hwf1 H) as Hc. destruct b as [[msgs k]|].
  - destruct Hc as (-> & _ & ? & ? & ? & _ & ?). by split_and!.
  - subst rf'. split; [done|]. right. right. unfold apply_collect in H.
    replace (snapshotInFlight rf1) with false in H by done.
    case_if_in H; zbool; [change (commitIndex rf ≤ lastApplied rf) in E; lia|].
    pose proof (wf_applied _ Hwf). unfold lastIndex, rf1 in *. clear Hwf Hwf1.
    repeat case_if_in H; simplify_eq; zbool; cbn in *;
      repeat match goal with X : _ < _ |- _ => case_if_in X end; zbool; lia.
Qed.

End apply.

Arguments Pipeline : clear implicits.

(** ** A concrete run *)

Definition log_state : list (RaftGob nat) :=
  [GInt 1; GInt 0; GInt 0; GInt 0;
   GLogs [mkEntry NoneCommand 0; mkEntry (AOp 7%nat) 1; mkEntry (AOp 8%nat) 1]].
Definition log_peer : Raft nat nat := Make 3 1 (mkPersister log_state []).
Definition commit_2 : AppendEntryArgs nat := mkAEArgs 1 0 2 1 [] 2 1.
Definition committed_peer : Raft nat nat := run_section (HandleEntries commit_2) log_peer.

Lemma log_peer_wf : raft_wf log_peer.
Proof. constructor; vm_compute; repeat split; congruence. Qed.

Lemma apply_in_order_witness :
  let p := mkPipeline committed_peer (Some ([], 2)) []
             [commandMsg (AOp 7%nat) 1 1; commandMsg (AOp 8%nat) 2 1] in
  consecutive (lastApplied log_peer) (pl_delivered p) ∧
  lastApplied log_peer + len (pl_delivered p) ≤ commitIndex (pl_raft p).
Proof.
  apply (apply_in_order 3 1 (mkPersister log_state [])); [exact log_peer_wf|].
  eapply rtc_l; [apply (pl_local_section _ (HandleEntries commit_2)); done|].
  eapply rtc_l; [apply pl_local_send|]. eapply rtc_l; [apply pl_local_send|].
  vm_compute. apply rtc_refl.
Defined.

Lemma apply_batch_exact_witness :
  let rf := log_peer <| commitIndex := 1 |> in
  (apply_enter rf).2 = Some ([commandMsg (AOp 7%nat) 1 1], 1) ∧ lastApplied rf < 1.
Proof.
  cbv zeta. split; [vm_compute; reflexivity|].
  assert (raft_wf (log_peer <| commitIndex := 1 |>)) as Hwf
    by (constructor; vm_compute; repeat split; congruence).
  destruct (apply_enter (log_peer <| commitIndex := 1 |>)) as [rf' b] eqn:E.
  pose proof (apply_batch_exact _ rf' b Hwf E) as H. vm_compute in E.
  injection E as _ <-. by destruct H as (_ & _ & _ & _ & ? & _).
Defined.
