(* ===== verification/RaftSpec.v ===== *)
(** * Replicated logs: what a cluster of Raft peers promises

    The protocol without its machinery: a peer has a term, a role, a whole log
    (nothing is compacted) and a commit index; there are no messages, timers,
    goroutines or stable storage.  What a message would carry is history: the
    log of each term's leader, the votes with the logs they were cast for, the
    acknowledgements, and the logs candidates have offered.  The theorems at
    the end are the safety of the protocol; RaftRefine.v shows that the cluster
    of RaftCluster.v is an implementation of it. *)
From stdpp Require Import base tactics list gmap strings numbers relations sets.
From S2P Require Import Prelude.
From S2P Require Import Raft.
Open Scope Z_scope.
Open Scope go_scope.

Section spec.
Context {Op : Type} (N : Z).
Implicit Types (l g p : list (LogEntry Op)).

(** ** The state *)

Record View := mkView {
  v_term : Z; v_log : list (LogEntry Op); v_commit : nat; v_role : Stat }.

#[export] Instance View_eta : RecordEta View :=
  λ v, mkView (v_term v) (v_log v) (v_commit v) (v_role v).

(** [leaderLog]: by term, the log of its leader, which only grows.
    [initialLog]: by term, its leader and the leader's log when it was elected.
    [ballots]: by voter and term, the candidate, the voter's log and the
    candidate's, for the votes that could still elect somebody.  [acks]:
    (peer, term, index), the peer has held the leader's log of the term up to
    the index.  [requests]: (candidate, term, log), an offer to voters. *)
Record Spec := mkSpec {
  views : gmap Z View;
  leaderLog : gmap Z (list (LogEntry Op));
  initialLog : gmap Z (Z * list (LogEntry Op));
  ballots : gmap (Z * Z) (Z * list (LogEntry Op) * list (LogEntry Op));
  acks : list (Z * Z * nat);
  requests : list (Z * Z * list (LogEntry Op))
}.

#[export] Instance Spec_eta : RecordEta Spec := λ A,
  mkSpec (views A) (leaderLog A) (initialLog A) (ballots A) (acks A) (requests A).

(** ** Vocabulary *)

Definition lastTerm l : Z := default 0 (e_Term <$> last l).

(** The voter's check on the candidate's log [c]. *)
Definition at_least_as_new (c l : list (LogEntry Op)) : Prop :=
  lastTerm l < lastTerm c ∨ (lastTerm c = lastTerm l ∧ (length l ≤ length c)%nat).

Definition quorum (Q : gset Z) : Prop :=
  Q ⊆ everyone N ∧ N `div` 2 < Z.of_nat (size Q).

(** The first [i] entries of the leader of term [u]. *)
Definition upto (A : Spec) (u : Z) (i : nat) : list (LogEntry Op) :=
  take i (default [] (leaderLog A !! u)).

Definition acked (A : Spec) (n u : Z) (i : nat) : Prop :=
  ∃ a, (i ≤ a)%nat ∧ (n, u, a) ∈ acks A.

(** The commit rule: an entry of the leader's own term, held by a quorum. *)
Definition chosen (A : Spec) (u : Z) (i : nat) : Prop :=
  ∃ k g e Q, i = S k ∧ leaderLog A !! u = Some g ∧ g !! k = Some e ∧ e_Term e = u ∧
    quorum Q ∧ ∀ w, w ∈ Q → acked A w u i.

(** [p] is committed, by leaders of terms up to [t]. *)
Definition committed (A : Spec) (t : Z) p : Prop :=
  p = [] ∨ ∃ u i, u ≤ t ∧ chosen A u i ∧ p `prefix_of` upto A u i.

(** A follower takes over the first [m] entries of a leader's log, unless it
    has them. *)
Definition adopts (m : nat) (g l l' : list (LogEntry Op)) : Prop :=
  (take m g `prefix_of` l ∧ l' = l) ∨ (¬ take m g `prefix_of` l ∧ l' = take m g).

Definition set_view (n : Z) (v : View) (A : Spec) : Spec := A <| views ::= <[n := v]> |>.
Definition add_ack (n u : Z) (i : nat) (A : Spec) : Spec := A <| acks ::= cons (n, u, i) |>.

(** A vote is on record unless the term has a leader already, or it repeats. *)
Definition record_vote (w t x : Z) (l c : list (LogEntry Op)) (A : Spec) : Spec :=
  match leaderLog A !! t, ballots A !! (w, t) with
  | None, None => A <| ballots ::= <[(w, t) := (x, l, c)]> |>
  | _, _ => A
  end.

(** ** The steps *)

Inductive spec_step : Spec → Spec → Prop :=
(** a later term, a crash (which forgets the commit index) *)
| sp_adopt A n v v' :
    views A !! n = Some v → v_term v ≤ v_term v' → v_log v' = v_log v →
    (v_commit v' ≤ v_commit v)%nat →
    v_role v' = Follower ∨ (v_role v' = v_role v ∧ v_term v' = v_term v) →
    spec_step A (set_view n v' A)
| sp_election A n v :
    views A !! n = Some v →
    spec_step A (record_vote n (v_term v + 1) n (v_log v) (v_log v)
      (set_view n (v <| v_term ::= Z.succ |> <| v_role := Candidate |>) A))
| sp_request A x v t :
    views A !! x = Some v → t ≤ v_term v →
    spec_step A (A <| requests ::= cons (x, t, v_log v) |>)
| sp_vote A w v x t c :
    views A !! w = Some v → (x, t, c) ∈ requests A → v_term v ≤ t →
    at_least_as_new c (v_log v) →
    spec_step A (record_vote w t x (v_log v) c
      (set_view w (v <| v_term := t |>
                     <| v_role ::= λ r, if bool_decide (v_term v < t) then Follower else r |>) A))
| sp_elect A x v Q :
    views A !! x = Some v → v_role v = Candidate → leaderLog A !! v_term v = None → 1 ≤ v_term v →
    quorum Q → (∀ w, w ∈ Q → ∃ l c, ballots A !! (w, v_term v) = Some (x, l, c)) →
    spec_step A (add_ack x (v_term v) (length (v_log v))
      (set_view x (v <| v_role := Leader |>) A
         <| leaderLog ::= <[v_term v := v_log v]> |>
         <| initialLog ::= <[v_term v := (x, v_log v)]> |>))
| sp_accept A n v t g m l' k :
    views A !! n = Some v → v_term v ≤ t → leaderLog A !! t = Some g → (m ≤ length g)%nat →
    adopts m g (v_log v) l' →
    k = v_commit v ∨ ((k ≤ m)%nat ∧ committed A t (take k g)) →
    spec_step A (add_ack n t m (set_view n (mkView t l' k Follower) A))
| sp_append A n v e :
    views A !! n = Some v → v_role v = Leader → e_Term e = v_term v →
    spec_step A (add_ack n (v_term v) (S (length (v_log v)))
      (set_view n (v <| v_log ::= λ l, l ++ [e] |>) A
         <| leaderLog ::= <[v_term v := v_log v ++ [e]]> |>))
| sp_commit A n v k :
    views A !! n = Some v → v_role v = Leader → chosen A (v_term v) k →
    spec_step A (set_view n (v <| v_commit := k |>) A)
(** a snapshot in place of the log, when the log does not go on from it *)
| sp_install A n v p l' :
    views A !! n = Some v → committed A (v_term v) p →
    (p `prefix_of` v_log v ∧ l' = v_log v) ∨ (¬ p `prefix_of` v_log v ∧ l' = p) →
    spec_step A (set_view n (v <| v_log := l' |> <| v_commit ::= Nat.max (length p) |>) A).

Definition spec_init : Spec :=
  mkSpec (gset_to_gmap (mkView 0 [] 0 Follower) (everyone N)) ∅ ∅ ∅ [] [].

(** ** The invariant *)

(** Every entry of a log is in place in the log of its term's leader. *)
Definition genuine (A : Spec) l : Prop :=
  ∀ k e, l !! k = Some e → ∃ g, leaderLog A !! e_Term e = Some g ∧ take (S k) l `prefix_of` g.

Definition bounded (t : Z) l : Prop := ∀ k e, l !! k = Some e → e_Term e ≤ t.

(** The leaders between [u] and [b] started with the first [i] entries of
    [u]'s leader. *)
Definition agreed (A : Spec) (u : Z) (i : nat) (b : Z) : Prop :=
  ∀ w x l, u < w ≤ b → initialLog A !! w = Some (x, l) → upto A u i `prefix_of` l.

(** What has been acknowledged is kept, as long as the leaders agree. *)
Definition keeps (A : Spec) (u : Z) (i : nat) (b : Z) l : Prop :=
  agreed A u i b → upto A u i `prefix_of` l.

(** The log [l] of a candidate of term [t] that offered [c]: only a snapshot
    may have changed it. *)
Definition follows (A : Spec) (t : Z) (c l : list (LogEntry Op)) : Prop :=
  l = c ∨ ∃ p, committed A (t - 1) p ∧ ¬ p `prefix_of` c ∧ p `prefix_of` l.

Definition offer_ok (A : Spec) (x t : Z) (c : list (LogEntry Op)) : Prop :=
  ∃ v, views A !! x = Some v ∧ t ≤ v_term v ∧
    (leaderLog A !! t = None → v_term v = t → v_role v = Candidate →
     bounded (t - 1) c ∧ follows A t c (v_log v)).

Definition log_ok (A : Spec) (t : Z) g : Prop :=
  1 ≤ t ∧ genuine A g ∧ bounded t g ∧ ∃ x l, initialLog A !! t = Some (x, l) ∧ l `prefix_of` g.
Definition init_ok (A : Spec) (t x : Z) l : Prop :=
  is_Some (leaderLog A !! t) ∧
  (∃ v, views A !! x = Some v ∧ t ≤ v_term v ∧ (v_term v = t → v_role v ≠ Candidate)) ∧
  ∃ Q, quorum Q ∧ ∀ w, w ∈ Q → ∃ lw c, ballots A !! (w, t) = Some (x, lw, c) ∧
       bounded (t - 1) c ∧ follows A t c l.
Definition ballot_ok (A : Spec) (w t x : Z) (l c : list (LogEntry Op)) : Prop :=
  genuine A l ∧ genuine A c ∧ at_least_as_new c l ∧ offer_ok A x t c ∧
  ∃ v, views A !! w = Some v ∧ t ≤ v_term v.
Definition ack_ok (A : Spec) (n u : Z) (a : nat) : Prop :=
  (∃ g, leaderLog A !! u = Some g ∧ (a ≤ length g)%nat) ∧
  ∃ v, views A !! n = Some v ∧ u ≤ v_term v ∧
       ∀ i, (i ≤ a)%nat → keeps A u i (v_term v) (v_log v).
Definition ack_ballot_ok (A : Spec) (u : Z) (a : nat) (t : Z) l : Prop :=
  u < t → ∀ i, (i ≤ a)%nat → keeps A u i (t - 1) l.
Definition request_ok (A : Spec) (x t : Z) c : Prop := genuine A c ∧ offer_ok A x t c.
Definition view_ok (A : Spec) (n : Z) (v : View) : Prop :=
  0 ≤ v_term v ∧ genuine A (v_log v) ∧ bounded (v_term v) (v_log v) ∧
  (v_commit v ≤ length (v_log v))%nat ∧
  committed A (v_term v) (take (v_commit v) (v_log v)) ∧
  (v_role v = Leader →
   leaderLog A !! v_term v = Some (v_log v) ∧ acked A n (v_term v) (length (v_log v)) ∧
   ∃ l, initialLog A !! v_term v = Some (n, l)).

Record spec_inv (A : Spec) : Prop := {
  i_log t g : leaderLog A !! t = Some g → log_ok A t g;
  i_init t x l : initialLog A !! t = Some (x, l) → init_ok A t x l;
  i_ballot w t x l c : ballots A !! (w, t) = Some (x, l, c) → ballot_ok A w t x l c;
  i_ack n u a : (n, u, a) ∈ acks A → ack_ok A n u a;
  i_ack_ballot n u a t x l c :
    (n, u, a) ∈ acks A → ballots A !! (n, t) = Some (x, l, c) → ack_ballot_ok A u a t l;
  i_request x t c : (x, t, c) ∈ requests A → request_ok A x t c;
  i_view n v : views A !! n = Some v → view_ok A n v
}.

(** ** Logs *)

Lemma prefix_lookup_eq l g k e : l `prefix_of` g → l !! k = Some e → g !! k = Some e.
Proof. intros. by eapply prefix_lookup_Some. Qed.

Lemma prefix_both l p g :
  l `prefix_of` g → p `prefix_of` g → (length l ≤ length p)%nat → l `prefix_of` p.
Proof.
  intros Hl Hp Hlen. destruct (prefix_weak_total l p g Hl Hp) as [|Hpl]; [done|].
  rewrite (prefix_length_eq p l Hpl Hlen). done.
Qed.

Lemma prefix_take_mono l g i j : l `prefix_of` g → (i ≤ j)%nat → take i l `prefix_of` take j g.
Proof.
  intros Hl Hij. apply (prefix_both _ _ g).
  - etrans; [apply prefix_take|done].
  - apply prefix_take.
  - apply prefix_length in Hl. rewrite !length_take. lia.
Qed.

Lemma take_of_prefix p l : p `prefix_of` l → take (length p) l = p.
Proof. intros [k ->]. by rewrite take_app_length. Qed.

Lemma genuine_prefix A p l : p `prefix_of` l → genuine A l → genuine A p.
Proof.
  intros Hp Hl k e Hk. destruct (Hl k e) as (g & ? & ?); [by eapply prefix_lookup_eq|].
  exists g. split; [done|]. etrans; [by apply prefix_take_mono|done].
Qed.

Lemma bounded_prefix t p l : p `prefix_of` l → bounded t l → bounded t p.
Proof. intros Hp Hl k e Hk. eapply Hl, prefix_lookup_eq; eauto. Qed.

Lemma bounded_le t t' l : bounded t l → t ≤ t' → bounded t' l.
Proof. intros Hl Ht k e Hk. specialize (Hl _ _ Hk). lia. Qed.

Lemma genuine_nil A : genuine A [].
Proof. by intros k e. Qed.

(** Two logs with an entry of the same term at the same index agree up to it. *)
Lemma genuine_match A l l' k e e' :
  genuine A l → genuine A l' → l !! k = Some e → l' !! k = Some e' → e_Term e = e_Term e' →
  take (S k) l = take (S k) l'.
Proof.
  intros Hl Hl' Hk Hk' Ht. destruct (Hl _ _ Hk) as (g & Hg & Hp), (Hl' _ _ Hk') as (g' & Hg' & Hp').
  rewrite Ht in Hg. simplify_eq. apply lookup_lt_Some in Hk, Hk'.
  pose proof (take_of_prefix _ _ Hp) as E. pose proof (take_of_prefix _ _ Hp') as E'.
  rewrite length_take_le in E, E' by lia. congruence.
Qed.

Lemma lastTerm_Some l : l ≠ [] → ∃ e, l !! (pred (length l)) = Some e ∧ lastTerm l = e_Term e.
Proof.
  intros Hl. unfold lastTerm. rewrite last_lookup.
  destruct (lookup_lt_is_Some_2 l (pred (length l))) as [e He].
  { destruct l; cbn; [done|lia]. }
  exists e. by rewrite He.
Qed.

Lemma genuine_last A l :
  genuine A l → l ≠ [] → ∃ g, leaderLog A !! lastTerm l = Some g ∧ l `prefix_of` g.
Proof.
  intros Hl Hne. destruct (lastTerm_Some l Hne) as (e & He & ->).
  destruct (Hl _ _ He) as (g & ? & Hp). exists g. split; [done|].
  rewrite take_ge in Hp; [done|]. destruct l; cbn; [done|lia].
Qed.

(** Terms do not decrease along a log. *)
Lemma genuine_sorted A l k k' e e' :
  spec_inv A → genuine A l → (k ≤ k')%nat → l !! k = Some e → l !! k' = Some e' →
  e_Term e ≤ e_Term e'.
Proof.
  intros HA Hl Hkk Hk Hk'. destruct (Hl _ _ Hk') as (g & Hg & Hp).
  destruct (i_log _ HA _ _ Hg) as (_ & _ & Hb & _). apply (Hb k).
  eapply prefix_lookup_eq; [exact Hp|]. by rewrite lookup_take_lt by lia.
Qed.

Lemma genuine_lastTerm A l k e :
  spec_inv A → genuine A l → l !! k = Some e → e_Term e ≤ lastTerm l.
Proof.
  intros HA Hl Hk. destruct (lastTerm_Some l) as (e' & He' & ->); [by intros ->|].
  pose proof (lookup_lt_Some _ _ _ Hk).
  eapply (genuine_sorted A l k (pred (length l))); eauto. lia.
Qed.

(** ** History only grows *)

Record grows (A A' : Spec) : Prop := {
  gr_log t g : leaderLog A !! t = Some g → ∃ g', leaderLog A' !! t = Some g' ∧ g `prefix_of` g';
  gr_init : initialLog A ⊆ initialLog A';
  gr_ballot : ballots A ⊆ ballots A';
  gr_ack x : x ∈ acks A → x ∈ acks A';
  gr_request x : x ∈ requests A → x ∈ requests A'
}.

Lemma upto_grows A A' u i g :
  grows A A' → leaderLog A !! u = Some g → (i ≤ length g)%nat → upto A' u i = upto A u i.
Proof.
  intros H Hg Hi. destruct (gr_log _ _ H _ _ Hg) as (g' & Hg' & k & ->).
  unfold upto. rewrite Hg, Hg'. cbn. by rewrite take_app_le.
Qed.

Lemma acked_grows A A' n u i : grows A A' → acked A n u i → acked A' n u i.
Proof. intros H (a & ? & ?). exists a. split; [done|]. by apply (gr_ack _ _ H). Qed.

Lemma acked_le A n u i j : (i ≤ j)%nat → acked A n u j → acked A n u i.
Proof. intros ? (a & ? & ?). exists a. split; [lia|done]. Qed.

Lemma chosen_grows A A' u i : grows A A' → chosen A u i → chosen A' u i.
Proof.
  intros H (k & g & e & Q & -> & Hg & Hk & ? & ? & Hq).
  destruct (gr_log _ _ H _ _ Hg) as (g' & ? & ?). exists k, g', e, Q.
  split_and!; eauto using prefix_lookup_eq, acked_grows.
Qed.

Lemma chosen_log A u i : chosen A u i → ∃ g, leaderLog A !! u = Some g ∧ (i ≤ length g)%nat.
Proof.
  intros (k & g & e & Q & -> & Hg & Hk & _). exists g. apply lookup_lt_Some in Hk. split; [done|lia].
Qed.

Lemma committed_grows A A' t t' p : grows A A' → t ≤ t' → committed A t p → committed A' t' p.
Proof.
  intros H Ht [->|(u & i & Hu & Hc & Hp)]; [by left|right].
  destruct (chosen_log _ _ _ Hc) as (g & Hg & Hi). exists u, i.
  split_and!; [lia|by eapply chosen_grows|]. by rewrite (upto_grows A A' u i g).
Qed.

Lemma committed_prefix A t p q : p `prefix_of` q → committed A t q → committed A t p.
Proof.
  intros Hp [->|(u & i & ? & ? & ?)].
  - left. by apply prefix_nil_inv in Hp.
  - right. exists u, i. split_and!; [done|done|]. by etrans.
Qed.

Lemma genuine_grows A A' l : grows A A' → genuine A l → genuine A' l.
Proof.
  intros H Hl k e Hk. destruct (Hl _ _ Hk) as (g & Hg & ?).
  destruct (gr_log _ _ H _ _ Hg) as (g' & ? & ?). exists g'. split; [done|]. by etrans.
Qed.

Lemma follows_grows A A' t c l : grows A A' → follows A t c l → follows A' t c l.
Proof.
  intros H [->|(p & ? & ? & ?)]; [by left|right]. exists p. split_and!; try done.
  by eapply committed_grows.
Qed.

Lemma agreed_grows A A' u i b b' g :
  grows A A' → leaderLog A !! u = Some g → (i ≤ length g)%nat → b ≤ b' →
  agreed A' u i b' → agreed A u i b.
Proof.
  intros H Hg Hi Hb Ha w x l Hw Hl. rewrite <- (upto_grows A A' u i g) by done.
  apply (Ha w x); [lia|]. eapply lookup_weaken; [exact Hl|apply (gr_init _ _ H)].
Qed.

#[local] Instance grows_refl : Reflexive grows.
Proof. intros A. split; eauto. Qed.

#[local] Instance grows_trans : Transitive grows.
Proof.
  intros A B C [H1 H2 H3 H4 H5] [K1 K2 K3 K4 K5]. split; eauto; try by etrans.
  intros t g (g' & (g'' & ? & ?)%K1 & ?)%H1. exists g''. split; [done|]. by etrans.
Qed.

(** ** Leader completeness *)

Section completeness.
Context (HN : 0 ≤ N).

Lemma quorums_meet Q Q' : quorum Q → quorum Q' → ∃ w, w ∈ Q ∧ w ∈ Q'.
Proof.
  intros [? ?] [? ?]. apply (majorities_meet Q Q' (everyone N) N); auto using size_everyone.
Qed.

Lemma upto_prefix A u g i : leaderLog A !! u = Some g → upto A u i `prefix_of` g.
Proof. intros Hg. unfold upto. rewrite Hg. apply prefix_take. Qed.

(** A log that holds the entry at the index a leader chose, in its term, holds
    all that the leader chose; so does a newer log of a later candidate, when
    the leaders in between do. *)
Lemma newer_keeps A u i t l c :
  spec_inv A → chosen A u i → genuine A l → genuine A c →
  upto A u i `prefix_of` l → at_least_as_new c l → bounded (t - 1) c →
  (∀ w g, u < w < t → leaderLog A !! w = Some g → upto A u i `prefix_of` g) →
  upto A u i `prefix_of` c.
Proof.
  intros HA (k & g & e & Q & -> & Hg & Hk & Hu & _) Hl Hc Hp Hnew Hb Hbetween.
  set (p := upto A u (S k)) in *. pose proof (lookup_lt_Some _ _ _ Hk) as Hlen.
  assert (length p = S k) as Hpl by (unfold p, upto; rewrite Hg; cbn; rewrite length_take; lia).
  assert (p !! k = Some e) as Hpk by (unfold p, upto; rewrite Hg; cbn; by rewrite lookup_take_lt by lia).
  assert (u ≤ lastTerm l) as Hul
    by (rewrite <- Hu; eapply genuine_lastTerm; [done|exact Hl|by eapply prefix_lookup_eq]).
  assert (l ≠ []) as Hlne by (intros ->; by apply prefix_nil_inv in Hp; rewrite Hp in Hpk).
  destruct (genuine_last _ _ Hl Hlne) as (gl & Hgl & Hlg).
  assert (c ≠ []) as Hcne.
  { intros ->. destruct Hnew as [Hlt|[_ Hlen']]; [|destruct l; [done|cbn in Hlen'; lia]].
    destruct (i_log _ HA _ _ Hgl) as [? _]. unfold lastTerm at 2 in Hlt. cbn in Hlt. lia. }
  destruct (genuine_last _ _ Hc Hcne) as (gc & Hgc & Hcg).
  destruct Hnew as [Hlt|[Heq Hle]].
  - destruct (lastTerm_Some c Hcne) as (ec & Hec & Hct).
    pose proof (Hb _ _ Hec) as Hct'. rewrite <- Hct in Hct'.
    assert (p `prefix_of` gc) as Hpg by (apply (Hbetween (lastTerm c)); [lia|done]).
    destruct (prefix_weak_total p c gc Hpg Hcg) as [|Hcp]; [done|].
    destruct (i_log _ HA _ _ Hg) as (_ & _ & Hbg & _).
    pose proof (Hbg _ _ (prefix_lookup_eq _ _ _ _ (upto_prefix A u g (S k) Hg)
      (prefix_lookup_eq _ _ _ _ Hcp Hec))). lia.
  - etrans; [exact Hp|]. rewrite Heq in Hgc. simplify_eq. by eapply prefix_both.
Qed.

Lemma committed_comparable_below A t :
  spec_inv A →
  (∀ w g u i, w < t → u < w → leaderLog A !! w = Some g → chosen A u i → upto A u i `prefix_of` g) →
  ∀ u i u' i', u < t → u' < t → chosen A u i → chosen A u' i' →
  upto A u i `prefix_of` upto A u' i' ∨ upto A u' i' `prefix_of` upto A u i.
Proof.
  intros HA IH u i u' i' Hu Hu' Hc Hc'.
  destruct (chosen_log _ _ _ Hc) as (g & Hg & _), (chosen_log _ _ _ Hc') as (g' & Hg' & _).
  assert (∃ h, upto A u i `prefix_of` h ∧ upto A u' i' `prefix_of` h) as (h & ? & ?).
  { destruct (Z.lt_trichotomy u u') as [Hlt|[->|Hlt]].
    - exists g'. eauto using upto_prefix.
    - exists g. rewrite Hg in Hg'. simplify_eq. eauto using upto_prefix.
    - exists g. eauto using upto_prefix. }
  by apply (prefix_weak_total _ _ h).
Qed.

Lemma leader_complete A u i t x l :
  spec_inv A → chosen A u i → u < t → initialLog A !! t = Some (x, l) → upto A u i `prefix_of` l.
Proof.
  intros HA. revert u i x l.
  assert (0 ≤ t → ∀ u i x l, chosen A u i → u < t → initialLog A !! t = Some (x, l) →
            upto A u i `prefix_of` l) as Hmain.
  { intros Ht. revert t Ht. refine (Zlt_0_ind _ _). intros t IH _ u i x l Hc Hu Hl.
    assert (∀ w g u i, w < t → u < w → leaderLog A !! w = Some g → chosen A u i →
              upto A u i `prefix_of` g) as IH'.
    { intros w g u' i' Hw Hu' Hg Hc'. destruct (i_log _ HA _ _ Hg) as (? & _ & _ & y & h & Hh & Hp).
      etrans; [|exact Hp]. apply (IH w ltac:(lia) u' i' y); auto. }
    destruct (i_init _ HA _ _ _ Hl) as (_ & _ & Q & HQ & Hvotes).
    pose proof Hc as (_ & _ & _ & Q' & _ & _ & _ & _ & HQ' & Hacks).
    destruct (quorums_meet Q Q' HQ HQ') as (w & Hw & Hw').
    destruct (Hvotes w Hw) as (lw & c & Hb & Hbc & Hf). destruct (Hacks w Hw') as (a & Ha & Hin).
    destruct (i_ballot _ HA _ _ _ _ _ Hb) as (Glw & Gc & Hnew & _).
    assert (upto A u i `prefix_of` lw) as Hplw.
    { apply (i_ack_ballot _ HA _ _ _ _ _ _ _ Hin Hb Hu i Ha).
      intros w' y h Hw'' Hh. eapply (IH w'); eauto; try lia.
      destruct (i_init _ HA _ _ _ Hh) as ([g' Hg'] & _).
      destruct (i_log _ HA _ _ Hg') as (? & _). lia. }
    assert (upto A u i `prefix_of` c) as Hpc.
    { apply (newer_keeps A u i t lw c); try done. intros w' g' ? Hg'. apply (IH' w'); (done || lia). }
    destruct Hf as [->|(p & Hp & Hpc' & Hpl)]; [done|].
    destruct Hp as [->|(u' & i' & Hu' & Hc' & Hp)]; [by destruct Hpc'; apply prefix_nil|].
    destruct (committed_comparable_below A t HA IH' u i u' i') as [Hcmp|Hcmp]; try done; try lia.
    - destruct (prefix_weak_total (upto A u i) p (upto A u' i') Hcmp Hp) as [?|Hpu]; [by etrans|].
      destruct Hpc'. by etrans.
    - destruct Hpc'. etrans; [exact Hp|]. by etrans. }
  intros u i x l Hc Hu Hl. destruct (i_init _ HA _ _ _ Hl) as ([g Hg] & _).
  destruct (i_log _ HA _ _ Hg) as [? _]. apply (Hmain ltac:(lia) u i x l); done.
Qed.

Lemma leader_holds A u i t g :
  spec_inv A → chosen A u i → u ≤ t → leaderLog A !! t = Some g → upto A u i `prefix_of` g.
Proof.
  intros HA Hc Hu Hg. destruct (decide (u = t)) as [->|]; [by apply upto_prefix|].
  destruct (i_log _ HA _ _ Hg) as (_ & _ & _ & x & l & Hl & Hp).
  etrans; [|exact Hp]. eapply leader_complete; eauto. lia.
Qed.

Lemma leader_holds_committed A t t' p g :
  spec_inv A → committed A t p → t ≤ t' → leaderLog A !! t' = Some g → p `prefix_of` g.
Proof.
  intros HA [->|(u & i & ? & Hc & Hp)] Ht Hg; [apply prefix_nil|].
  etrans; [exact Hp|]. apply (leader_holds A u i t'); (done || lia).
Qed.

(** What has been committed never disagrees. *)
Lemma committed_comparable A t t' p p' :
  spec_inv A → committed A t p → committed A t' p' → p `prefix_of` p' ∨ p' `prefix_of` p.
Proof.
  intros HA [->|(u & i & _ & Hc & Hp)] [->|(u' & i' & _ & Hc' & Hp')];
    try (by left; apply prefix_nil); try (by right; apply prefix_nil).
  destruct (chosen_log _ _ _ Hc) as (g & Hg & _), (chosen_log _ _ _ Hc') as (g' & Hg' & _).
  assert (∃ h, upto A u i `prefix_of` h ∧ upto A u' i' `prefix_of` h) as (h & ? & ?).
  { destruct (decide (u ≤ u')); [exists g'|exists g]; split; try (by apply upto_prefix).
    - by apply (leader_holds A u i u').
    - apply (leader_holds A u' i' u); (done || lia). }
  apply (prefix_weak_total _ _ h); by etrans.
Qed.

(** ** The invariant is inductive

    What a step may do to one peer, and what is left to show for it. *)
Definition view_le (A : Spec) (n : Z) (v v' : View) : Prop :=
  v_term v ≤ v_term v' ∧
  (v_term v' = v_term v → v_role v' = Candidate →
   v_role v = Candidate ∧
   (v_log v' = v_log v ∨
    (leaderLog A !! v_term v = None →
     ∃ p, committed A (v_term v - 1) p ∧ ¬ p `prefix_of` v_log v ∧ v_log v' = p))) ∧
  (∀ u i, acked A n u i → agreed A u i (v_term v') → upto A u i `prefix_of` v_log v →
   upto A u i `prefix_of` v_log v').

Definition evolves (A A' : Spec) : Prop :=
  grows A A' ∧ ∀ n v, views A !! n = Some v → ∃ v', views A' !! n = Some v' ∧ view_le A n v v'.

Lemma view_le_log A n v v' :
  v_term v ≤ v_term v' → v_log v `prefix_of` v_log v' →
  (v_term v' = v_term v → v_role v' = Candidate → v_role v = Candidate ∧ v_log v' = v_log v) →
  view_le A n v v'.
Proof.
  intros Ht Hl Hr. split; [done|]. split.
  - intros ? ?. destruct Hr; auto.
  - intros u i _ _ ?. by etrans.
Qed.

Lemma view_le_refl A n v : view_le A n v v.
Proof. by apply view_le_log. Qed.

Lemma evolves_view A A' n v v' :
  views A !! n = Some v → views A' = <[n := v']> (views A) → grows A A' → view_le A n v v' →
  evolves A A'.
Proof.
  intros Hn Hv Hg Hle. split; [done|]. intros m w Hm. rewrite Hv.
  destruct (decide (n = m)) as [<-|Hne].
  - simplify_eq. exists v'. by rewrite lookup_insert_eq.
  - exists w. rewrite lookup_insert_ne by done. auto using view_le_refl.
Qed.

Lemma no_leader_grows A A' t : grows A A' → leaderLog A' !! t = None → leaderLog A !! t = None.
Proof.
  intros H Hn. destruct (leaderLog A !! t) as [g|] eqn:E; [|done].
  destruct (gr_log _ _ H _ _ E) as (g' & ? & _). congruence.
Qed.

Lemma offer_ok_evolves A A' x t c :
  spec_inv A → evolves A A' → offer_ok A x t c → offer_ok A' x t c.
Proof.
  intros HA [Hg Hv] (v & Hx & Ht & Hlive). destruct (Hv _ _ Hx) as (v' & Hx' & Hle & Hcand & _).
  exists v'. split_and!; [done|lia|]. intros Hno Hvt Hrole.
  assert (leaderLog A !! t = None) as Hno' by (by eapply no_leader_grows).
  assert (v_term v = t) as Hvt' by lia. rewrite Hvt' in *.
  destruct (Hcand Hvt Hrole) as [Hr Hlog]. destruct (Hlive Hno' eq_refl Hr) as [Hb Hf].
  split; [done|]. apply (follows_grows A); [done|].
  destruct Hlog as [->|Hp]; [done|]. destruct (Hp Hno') as (p & Hcp & Hnp & ->). right.
  destruct Hf as [Heq|(q & Hcq & Hnq & Hq)].
  - exists p. split_and!; [done|by rewrite <- Heq|done].
  - exists q. split_and!; [done|done|].
    destruct (committed_comparable A _ _ p q HA Hcp Hcq) as [Hpq|]; [|done].
    destruct Hnp. by etrans.
Qed.

Lemma follows_init_evolves A A' t x l : evolves A A' → init_ok A t x l → init_ok A' t x l.
Proof.
  intros [Hg Hv] ([g Hl] & (v & Hx & Ht & Hr) & Q & HQ & Hw). split_and!.
  - destruct (gr_log _ _ Hg _ _ Hl) as (g' & -> & _). eauto.
  - destruct (Hv _ _ Hx) as (v' & ? & ? & Hc & _). exists v'. split_and!; [done|lia|].
    intros Hvt Hrole. apply Hr; [lia|]. apply Hc; [lia|done].
  - exists Q. split; [done|]. intros w HwQ. destruct (Hw w HwQ) as (lw & c & Hb & ? & ?).
    exists lw, c. split_and!; [|done|by eapply follows_grows].
    eapply lookup_weaken; [exact Hb|apply (gr_ballot _ _ Hg)].
Qed.

Lemma log_ok_grows A A' t g : grows A A' → log_ok A t g → log_ok A' t g.
Proof.
  intros H (? & ? & ? & x & l & ? & ?). split_and!; [done|by eapply genuine_grows|done|].
  exists x, l. split; [|done]. eapply lookup_weaken; [done|apply (gr_init _ _ H)].
Qed.

Lemma keeps_grows A A' u i b b' l l' g :
  grows A A' → leaderLog A !! u = Some g → (i ≤ length g)%nat → b ≤ b' →
  (agreed A u i b' → upto A u i `prefix_of` l → upto A u i `prefix_of` l') →
  keeps A u i b l → keeps A' u i b' l'.
Proof.
  intros H Hg Hi Hb Hl Hk Ha. rewrite (upto_grows A A' u i g) by done.
  assert (agreed A u i b') by (by eapply agreed_grows).
  apply Hl; [done|]. apply Hk. by eapply (agreed_grows A A').
Qed.

Lemma ack_ok_evolves A A' n u a :
  (n, u, a) ∈ acks A → evolves A A' → ack_ok A n u a → ack_ok A' n u a.
Proof.
  intros Hin [Hg Hv] ((g & Hl & Ha) & v & Hn & Hu & Hk). split.
  - destruct (gr_log _ _ Hg _ _ Hl) as (g' & ? & Hp). exists g'. split; [done|].
    apply prefix_length in Hp. lia.
  - destruct (Hv _ _ Hn) as (v' & ? & ? & _ & Hs). exists v'. split_and!; [done|lia|].
    intros i Hi. apply (keeps_grows A A' u i (v_term v) _ (v_log v) _ g); auto; [lia|].
    apply Hs. by exists a.
Qed.

Lemma view_ok_grows A A' n v :
  grows A A' →
  (v_role v = Leader → leaderLog A' !! v_term v = leaderLog A !! v_term v) →
  view_ok A n v → view_ok A' n v.
Proof.
  intros Hg Hl (? & ? & ? & ? & ? & Hlead). split_and!; try done.
  - by eapply genuine_grows.
  - by apply (committed_grows A _ (v_term v)).
  - intros Hr. destruct (Hlead Hr) as (? & ? & l & ?). rewrite Hl by done.
    split_and!; [done|by eapply acked_grows|]. exists l.
    eapply lookup_weaken; [done|apply (gr_init _ _ Hg)].
Qed.

Lemma evolve_inv A A' :
  spec_inv A → evolves A A' →
  (∀ t g, leaderLog A' !! t = Some g → leaderLog A !! t = Some g ∨ log_ok A' t g) →
  (∀ t x l, initialLog A' !! t = Some (x, l) → initialLog A !! t = Some (x, l) ∨ init_ok A' t x l) →
  (∀ w t x l c, ballots A' !! (w, t) = Some (x, l, c) → ballots A !! (w, t) = Some (x, l, c) ∨
     (ballot_ok A' w t x l c ∧ ∀ u a, (w, u, a) ∈ acks A' → ack_ballot_ok A' u a t l)) →
  (∀ n u a, (n, u, a) ∈ acks A' → (n, u, a) ∈ acks A ∨
     (ack_ok A' n u a ∧ ∀ t x l c, ballots A !! (n, t) = Some (x, l, c) → ack_ballot_ok A' u a t l)) →
  (∀ x t c, (x, t, c) ∈ requests A' → (x, t, c) ∈ requests A ∨ request_ok A' x t c) →
  (∀ n v, views A' !! n = Some v → view_ok A' n v) →
  spec_inv A'.
Proof.
  intros HA He Hlog Hinit Hbal Hack Hreq Hview. pose proof He as [Hg Hv]. split; [..|done].
  - intros t g Ht. destruct (Hlog _ _ Ht) as [Ht'|]; [|done]. eapply log_ok_grows, HA; eauto.
  - intros t x l Ht. destruct (Hinit _ _ _ Ht) as [Ht'|]; [|done].
    eapply follows_init_evolves, HA; eauto.
  - intros w t x l c Hb. destruct (Hbal _ _ _ _ _ Hb) as [Hb'|[? _]]; [|done].
    destruct (i_ballot _ HA _ _ _ _ _ Hb') as (? & ? & ? & ? & v & Hw & ?).
    destruct (Hv _ _ Hw) as (v' & ? & ? & _).
    split_and!; eauto using genuine_grows, offer_ok_evolves. exists v'. split; [done|lia].
  - intros n u a Hin. destruct (Hack _ _ _ Hin) as [Hin'|[? _]]; [|done].
    eapply ack_ok_evolves; eauto. by apply HA.
  - intros n u a t x l c Hin Hb. destruct (Hbal _ _ _ _ _ Hb) as [Hb'|[_ Hx]]; [|auto].
    destruct (Hack _ _ _ Hin) as [Hin'|[_ Hx]]; [|eauto]. intros Hu i Hi.
    destruct (i_ack _ HA _ _ _ Hin') as [(g & Hlg & ?) _].
    apply (keeps_grows A A' u i (t - 1) _ l _ g); auto; try lia.
    by apply (i_ack_ballot _ HA _ _ _ _ _ _ _ Hin' Hb').
  - intros x t c Hin. destruct (Hreq _ _ _ Hin) as [Hin'|]; [|done].
    destruct (i_request _ HA _ _ _ Hin'). split; eauto using genuine_grows, offer_ok_evolves.
Qed.

(** ** Each step *)

Lemma views_ok A A' n v' :
  spec_inv A → grows A A' → views A' = <[n := v']> (views A) → view_ok A' n v' →
  (∀ m w, m ≠ n → views A !! m = Some w → v_role w = Leader →
     leaderLog A' !! v_term w = leaderLog A !! v_term w) →
  ∀ m w, views A' !! m = Some w → view_ok A' m w.
Proof.
  intros HA Hg Hv Hok Hother m w. rewrite Hv.
  destruct (decide (n = m)) as [<-|Hne]; [rewrite lookup_insert_eq; by intros [= <-]|].
  rewrite lookup_insert_ne by done. intros Hm. apply (view_ok_grows A); eauto. by apply HA.
Qed.

Lemma set_view_grows n v A : grows A (set_view n v A).
Proof. split; cbn; eauto. Qed.

(** Steps that change one peer and no history. *)
Lemma set_view_inv A n v v' :
  spec_inv A → views A !! n = Some v → view_le A n v v' → view_ok A n v' →
  spec_inv (set_view n v' A).
Proof.
  intros HA Hn Hle Hok. apply (evolve_inv A); [done| |by left..|].
  - by eapply evolves_view; [| |apply set_view_grows|].
  - apply (views_ok A _ n v'); try done. apply set_view_grows.
Qed.

Lemma adopt_inv A n v v' :
  spec_inv A → views A !! n = Some v → v_term v ≤ v_term v' → v_log v' = v_log v →
  (v_commit v' ≤ v_commit v)%nat →
  v_role v' = Follower ∨ (v_role v' = v_role v ∧ v_term v' = v_term v) →
  spec_inv (set_view n v' A).
Proof.
  intros HA Hn Ht Hl Hc Hr. destruct (i_view _ HA _ _ Hn) as (? & ? & ? & ? & Hcom & Hlead).
  apply (set_view_inv A n v); [done|done| |].
  - apply view_le_log; [done|by rewrite Hl|]. intros _ Hcand.
    destruct Hr as [?|[? _]]; [congruence|split; congruence].
  - split_and!; try lia; rewrite ?Hl; try done; try lia.
    + by eapply bounded_le.
    + apply (committed_grows A _ (v_term v)); [done|done|].
      eapply committed_prefix; [|exact Hcom]. by apply prefix_take_mono.
    + intros Hlr. destruct Hr as [?|[Hr' ->]]; [congruence|]. apply Hlead. congruence.
Qed.

Lemma chosen_upto A n v k :
  spec_inv A → views A !! n = Some v → v_role v = Leader → chosen A (v_term v) k →
  (k ≤ length (v_log v))%nat ∧ committed A (v_term v) (take k (v_log v)).
Proof.
  intros HA Hn Hr Hc. destruct (i_view _ HA _ _ Hn) as (_ & _ & _ & _ & _ & Hlead).
  destruct (Hlead Hr) as (Hl & _). destruct (chosen_log _ _ _ Hc) as (g & Hg & Hk).
  rewrite Hl in Hg. simplify_eq. split; [done|]. right. exists (v_term v), k.
  split_and!; [done|done|]. unfold upto. by rewrite Hl.
Qed.

Lemma commit_inv A n v k :
  spec_inv A → views A !! n = Some v → v_role v = Leader → chosen A (v_term v) k →
  spec_inv (set_view n (v <| v_commit := k |>) A).
Proof.
  intros HA Hn Hr Hc. destruct (chosen_upto _ _ _ _ HA Hn Hr Hc).
  destruct (i_view _ HA _ _ Hn) as (? & ? & ? & _ & _ & ?).
  apply (set_view_inv A n v); [done|done| |by split_and!].
  by apply view_le_log.
Qed.

Lemma install_inv A n v p l' :
  spec_inv A → views A !! n = Some v → committed A (v_term v) p →
  (p `prefix_of` v_log v ∧ l' = v_log v) ∨ (¬ p `prefix_of` v_log v ∧ l' = p) →
  spec_inv (set_view n (v <| v_log := l' |> <| v_commit ::= Nat.max (length p) |>) A).
Proof.
  intros HA Hn Hp Hl. destruct (i_view _ HA _ _ Hn) as (? & Hgen & Hb & Hcl & Hc & Hlead).
  assert (∀ q, q `prefix_of` v_log v → p `prefix_of` q ∨ q `prefix_of` p → q `prefix_of` l') as Hkeep.
  { intros q Hq Hcmp. destruct Hl as [[_ ->]|[Hnp ->]]; [done|].
    destruct Hcmp as [Hpq|]; [|done]. destruct Hnp. by etrans. }
  assert (p `prefix_of` l') as Hpl by (by destruct Hl as [[? ->]|[_ ->]]).
  assert (genuine A l' ∧ bounded (v_term v) l') as [Hgen' Hb'].
  { destruct Hl as [[_ ->]|[_ ->]]; [done|]. destruct Hp as [->|(u & i & Hu & Hch & Hp)].
    { split; [apply genuine_nil|by intros k e]. }
    destruct (chosen_log _ _ _ Hch) as (g & Hg & _).
    destruct (i_log _ HA _ _ Hg) as (_ & Hgg & Hbg & _).
    assert (p `prefix_of` g) by (etrans; [exact Hp|by apply upto_prefix]).
    split; [by eapply genuine_prefix|]. eapply bounded_le; [by eapply bounded_prefix|done]. }
  set (q := take (v_commit v) (v_log v)) in *.
  assert (q `prefix_of` l') as Hql.
  { apply Hkeep; [apply prefix_take|]. by apply (committed_comparable A (v_term v) (v_term v)). }
  assert (length q = v_commit v) as Hlq by (unfold q; rewrite length_take; lia).
  apply (set_view_inv A n v); [done|done| |].
  - split; [done|]. split.
    + intros _ Hr. split; [done|]. destruct Hl as [[_ ->]|[Hnp ->]]; [by left|right].
      intros Hno. exists p. split_and!; [|done|done].
      destruct Hp as [->|(u & i & Hu & Hch & Hp)]; [by left|right]. exists u, i.
      split_and!; [|done|done]. destruct (chosen_log _ _ _ Hch) as (g & Hg & _).
      assert (u ≠ v_term v) by congruence. lia.
    + cbn. intros u i (a & Ha & Hin) Hag Hk. apply Hkeep; [done|].
      destruct (i_ack _ HA _ _ _ Hin) as [(g & Hg & _) _].
      destruct Hp as [->|(u' & i' & Hu' & Hch & Hp)]; [by left; apply prefix_nil|].
      destruct (chosen_log _ _ _ Hch) as (g' & Hg' & _).
      assert (∃ h, upto A u i `prefix_of` h ∧ upto A u' i' `prefix_of` h) as (h & ? & Hh).
      { destruct (decide (u' ≤ u)).
        - exists g. split; [by apply upto_prefix|by apply (leader_holds A u' i' u)].
        - destruct (i_log _ HA _ _ Hg') as (_ & _ & _ & y & l & Hl' & Hlg).
          exists g'. split; [|by apply upto_prefix]. etrans; [|exact Hlg]. apply (Hag u' y); [lia|done]. }
      apply (prefix_weak_total _ _ h); [by etrans; [exact Hp|]|done].
  - split_and!; cbn; try done.
    + apply prefix_length in Hpl, Hql. lia.
    + assert (∃ r, committed A (v_term v) r ∧ length r = (length p `max` v_commit v)%nat ∧
                r `prefix_of` l') as (r & Hr & Hlr & Hrl).
      { destruct (decide (length p ≤ v_commit v)%nat); [exists q|exists p]; split_and!; try done; lia. }
      rewrite <- Hlr, (take_of_prefix r l') by done. done.
    + intros Hr. destruct (Hlead Hr) as (Hg & ? & ?). assert (l' = v_log v) as ->; [|done].
      destruct Hl as [[_ ?]|[Hnp _]]; [done|]. destruct Hnp.
      by apply (leader_holds_committed A (v_term v) (v_term v)).
Qed.

Lemma request_inv A x v t :
  spec_inv A → views A !! x = Some v → t ≤ v_term v →
  spec_inv (A <| requests ::= cons (x, t, v_log v) |>).
Proof.
  intros HA Hx Ht. set (A' := A <| requests ::= _ |>).
  assert (grows A A') as Hg by (split; cbn; eauto using list_elem_of_further).
  destruct (i_view _ HA _ _ Hx) as (_ & Hgen & Hb & _).
  apply (evolve_inv A); [done| |by left..| |].
  - split; [done|]. intros n w Hn. exists w. auto using view_le_refl.
  - intros y u c [[= -> -> ->]|]%elem_of_cons; [right|by left].
    split; [done|]. exists v. split_and!; [done|done|]. intros Hno Heq _. split; [|by left].
    intros k e Hk. specialize (Hb _ _ Hk). destruct (Hgen _ _ Hk) as (g & Hl & _).
    assert (e_Term e ≠ t); [|lia]. intros E. rewrite E in Hl. cbn in Hno. congruence.
  - intros n w Hn. apply (view_ok_grows A); [done|done|]. by apply HA.
Qed.

(** A vote, for another candidate or for itself. *)
Lemma record_vote_inv A w v v' x c :
  spec_inv A → views A !! w = Some v → view_le A w v v' →
  v_log v' = v_log v → v_commit v' = v_commit v →
  (v_role v' = Leader → v_role v = Leader ∧ v_term v' = v_term v) →
  genuine A c → at_least_as_new c (v_log v) →
  offer_ok (set_view w v' A) x (v_term v') c →
  spec_inv (record_vote w (v_term v') x (v_log v) c (set_view w v' A)).
Proof.
  intros HA Hw Hle Hl Hcm Hr Hc Hnew Hoff. pose proof Hle as [Ht _].
  destruct (i_view _ HA _ _ Hw) as (? & Hgen & ? & ? & ? & Hlead).
  assert (view_ok A w v') as Hok.
  { split_and!; rewrite ?Hl, ?Hcm; try done; [lia|by eapply bounded_le| |].
    - by eapply committed_grows.
    - intros [Hr' ->]%Hr. by apply Hlead. }
  set (B := set_view w v' A) in *.
  assert (spec_inv B) as HB by (by apply (set_view_inv A w v)).
  assert (views B !! w = Some v') as HwB by apply lookup_insert_eq.
  unfold record_vote. destruct (leaderLog B !! v_term v') as [|] eqn:Hno; [done|].
  destruct (ballots B !! (w, v_term v')) as [|] eqn:Hnob; [done|].
  set (C := B <| ballots ::= _ |>).
  assert (grows B C) as Hg.
  { split; cbn; eauto. by apply insert_subseteq. }
  apply (evolve_inv B); [done| |by left|by left| |by left|by left|].
  - split; [done|]. intros n u Hn. exists u. auto using view_le_refl.
  - intros n t y l d. cbn. intros [[[= <- <-] [= <- <- <-]]|[_ ?]]%lookup_insert_Some; [right|by left].
    split; [split_and!; try done; by exists v'|].
    intros u a Hin Hu i Hi Hag. destruct (i_ack _ HA _ _ _ Hin) as [_ (v0 & Hw0 & _ & Hk)].
    simplify_eq. apply (Hk i Hi). intros z y' h Hz Hh. apply (Hag z y'); [|done].
    assert (z ≠ v_term v'); [|lia]. intros ->.
    destruct (i_init _ HA _ _ _ Hh) as [[? Hs] _]. cbn in Hno. congruence.
  - intros n u Hn. apply (view_ok_grows B); [done|done|]. by apply HB.
Qed.

Lemma newer_refl l : at_least_as_new l l.
Proof. by right. Qed.

Lemma election_inv A n v :
  spec_inv A → views A !! n = Some v →
  spec_inv (record_vote n (v_term v + 1) n (v_log v) (v_log v)
    (set_view n (v <| v_term ::= Z.succ |> <| v_role := Candidate |>) A)).
Proof.
  intros HA Hn. destruct (i_view _ HA _ _ Hn) as (_ & Hgen & Hb & _).
  set (v' := v <| v_term ::= Z.succ |> <| v_role := Candidate |>).
  apply (record_vote_inv A n v v'); try done; [|apply newer_refl|].
  - apply view_le_log; cbn; [lia|done|]. intros ?. lia.
  - exists v'. cbn. split_and!; [apply lookup_insert_eq|lia|]. intros _ _ _.
    split; [|by left]. eapply bounded_le; [exact Hb|lia].
Qed.

Lemma vote_inv A w v x t c :
  spec_inv A → views A !! w = Some v → (x, t, c) ∈ requests A → v_term v ≤ t →
  at_least_as_new c (v_log v) →
  spec_inv (record_vote w t x (v_log v) c
    (set_view w (v <| v_term := t |>
                   <| v_role ::= λ r, if bool_decide (v_term v < t) then Follower else r |>) A)).
Proof.
  intros HA Hw Hin Ht Hnew. set (v' := v <| v_term := t |> <| v_role ::= _ |>).
  destruct (i_request _ HA _ _ _ Hin) as [Hc Hoff].
  assert (view_le A w v v') as Hle.
  { apply view_le_log; cbn; [done|done|]. intros -> Hr. by rewrite bool_decide_eq_false_2 in Hr by lia. }
  apply (record_vote_inv A w v v'); try done.
  - cbn. case_bool_decide; [done|]. intros ?. split; [done|lia].
  - eapply offer_ok_evolves; [done| |exact Hoff].
    by eapply evolves_view; [| |apply set_view_grows|].
Qed.

Lemma elect_inv A x v Q :
  spec_inv A → views A !! x = Some v → v_role v = Candidate → leaderLog A !! v_term v = None →
  1 ≤ v_term v → quorum Q → (∀ w, w ∈ Q → ∃ l c, ballots A !! (w, v_term v) = Some (x, l, c)) →
  spec_inv (add_ack x (v_term v) (length (v_log v))
    (set_view x (v <| v_role := Leader |>) A
       <| leaderLog ::= <[v_term v := v_log v]> |>
       <| initialLog ::= <[v_term v := (x, v_log v)]> |>)).
Proof.
  intros HA Hx Hr Hno Ht HQ Hvotes. set (v' := v <| v_role := Leader |>). set (A' := add_ack _ _ _ _).
  destruct (i_view _ HA _ _ Hx) as (? & Hgen & Hb & ? & ? & _).
  assert (initialLog A !! v_term v = None) as Hnoi.
  { destruct (initialLog A !! v_term v) as [[y l]|] eqn:E; [|done].
    destruct (i_init _ HA _ _ _ E) as [[? ?] _]. congruence. }
  assert (grows A A') as Hg.
  { split; cbn; eauto using list_elem_of_further; [|by apply insert_subseteq].
    intros t g Hl. exists g. rewrite lookup_insert_ne by congruence. done. }
  assert (view_le A x v v') as Hle by (apply view_le_log; cbn; [lia|done|done]).
  assert (evolves A A') as He by (by eapply evolves_view).
  assert (views A' !! x = Some v') as Hx' by apply lookup_insert_eq.
  assert (leaderLog A' !! v_term v = Some (v_log v)) as Hl' by apply lookup_insert_eq.
  assert (initialLog A' !! v_term v = Some (x, v_log v)) as Hi' by apply lookup_insert_eq.
  apply (evolve_inv A); [done|done|..].
  - intros t g. cbn. intros [[<- <-]|[_ ?]]%lookup_insert_Some; [right|by left].
    split_and!; [done|by eapply genuine_grows|done|]. by exists x, (v_log v).
  - intros t y l. cbn. intros [[<- [= <- <-]]|[_ ?]]%lookup_insert_Some; [right|by left].
    split_and!; [done|by exists v'|]. exists Q. split; [done|]. intros w Hw.
    destruct (Hvotes w Hw) as (lw & c & Hbal). exists lw, c. split; [done|].
    destruct (i_ballot _ HA _ _ _ _ _ Hbal) as (_ & _ & _ & (v0 & Hx0 & _ & Hlive) & _).
    simplify_eq. destruct (Hlive Hno eq_refl Hr) as [? ?]. split; [done|]. by eapply follows_grows.
  - by left.
  - intros n u a [[= -> -> ->]|]%elem_of_cons; [right|by left]. split.
    + split; [by eexists|]. exists v'. split_and!; [done|done|]. intros i _ _.
      by apply upto_prefix.
    + intros t y l c Hbal Hlt. destruct (i_ballot _ HA _ _ _ _ _ Hbal) as (_ & _ & _ & _ & w & Hw & ?).
      simplify_eq. lia.
  - by left.
  - apply (views_ok A _ x v'); try done.
    + split_and!; try done; [by eapply genuine_grows|by apply (committed_grows A _ (v_term v))|].
      intros _. split_and!; [done| |by eexists]. exists (length (v_log v)). split; [done|left].
    + intros m w Hne Hm Hlead. cbn. rewrite lookup_insert_ne; [done|]. intros E.
      destruct (i_view _ HA _ _ Hm) as (_ & _ & _ & _ & _ & Hl). destruct (Hl Hlead) as [? _]. congruence.
Qed.

Lemma adopts_keeps m g l l' p :
  adopts m g l l' → p `prefix_of` l → p `prefix_of` g → p `prefix_of` l'.
Proof.
  intros [[_ ->]|[Hn ->]] Hl Hg; [done|].
  destruct (prefix_weak_total p (take m g) g Hg (prefix_take g m)) as [|Hp]; [done|].
  destruct Hn. by etrans.
Qed.

Lemma adopts_takes m g l l' : adopts m g l l' → take m g `prefix_of` l'.
Proof. by intros [[? ->]|[_ ->]]. Qed.

Lemma accept_inv A n v t g m l' k :
  spec_inv A → views A !! n = Some v → v_term v ≤ t → leaderLog A !! t = Some g →
  (m ≤ length g)%nat → adopts m g (v_log v) l' →
  k = v_commit v ∨ ((k ≤ m)%nat ∧ committed A t (take k g)) →
  spec_inv (add_ack n t m (set_view n (mkView t l' k Follower) A)).
Proof.
  intros HA Hn Ht Hg Hm Had Hk. set (v' := mkView _ _ _ _). set (A' := add_ack _ _ _ _).
  destruct (i_view _ HA _ _ Hn) as (? & Hgen & Hb & Hcl & Hc & _).
  destruct (i_log _ HA _ _ Hg) as (? & Hgg & Hbg & x & li & Hli & Hlig).
  assert (grows A A') as Hgr by (split; cbn; eauto using list_elem_of_further).
  pose proof (adopts_takes _ _ _ _ Had) as Htk.
  assert (genuine A l' ∧ bounded t l') as [Hgen' Hb'].
  { destruct Had as [[_ ->]|[_ ->]]; [split; [done|by eapply bounded_le]|].
    split; [apply (genuine_prefix A _ g)|apply (bounded_prefix t _ g)]; try done; apply prefix_take. }
  assert (∃ r, committed A t r ∧ length r = k ∧ r `prefix_of` l') as (r & Hr & Hlr & Hrl).
  { destruct Hk as [->|[Hkm Hc']].
    - exists (take (v_commit v) (v_log v)). split_and!; [by apply (committed_grows A A (v_term v))| |].
      + rewrite length_take. lia.
      + eapply adopts_keeps; [done|apply prefix_take|].
        by apply (leader_holds_committed A (v_term v) t).
    - exists (take k g). split_and!; [done|rewrite length_take; lia|].
      etrans; [|exact Htk]. by apply prefix_take_mono. }
  assert (view_le A n v v') as Hle.
  { split; [done|]. split; [done|]. cbn. intros u i (a & Ha & Hin) Hag Hul.
    eapply adopts_keeps; [done|done|].
    destruct (decide (u = t)) as [->|Hne]; [by apply upto_prefix|].
    etrans; [|exact Hlig]. apply (Hag t x); [|done].
    destruct (i_ack _ HA _ _ _ Hin) as [_ (v0 & Hv0 & ? & _)]. simplify_eq. lia. }
  assert (views A' !! n = Some v') as Hn' by apply lookup_insert_eq.
  apply (evolve_inv A); [done|by eapply evolves_view|by left|by left|by left| |by left|].
  - intros n' u a [[= -> -> ->]|]%elem_of_cons; [right|by left]. split.
    + split; [by exists g|]. exists v'. split_and!; [done|done|]. intros i Hi _. cbn.
      etrans; [|exact Htk]. unfold upto. cbn. rewrite Hg. cbn. by apply prefix_take_mono.
    + intros t' y l c Hbal Hlt.
      destruct (i_ballot _ HA _ _ _ _ _ Hbal) as (_ & _ & _ & _ & w & Hw & ?). simplify_eq. lia.
  - apply (views_ok A _ n v'); try done. split_and!; cbn; try done; try lia.
    + subst k. by apply prefix_length.
    + subst k. rewrite take_of_prefix by done. by apply (committed_grows A _ t).
Qed.

Lemma append_inv A n v e :
  spec_inv A → views A !! n = Some v → v_role v = Leader → e_Term e = v_term v →
  spec_inv (add_ack n (v_term v) (S (length (v_log v)))
    (set_view n (v <| v_log ::= λ l, l ++ [e] |>) A
       <| leaderLog ::= <[v_term v := v_log v ++ [e]]> |>)).
Proof.
  intros HA Hn Hr He. set (v' := v <| v_log ::= _ |>). set (A' := add_ack _ _ _ _).
  destruct (i_view _ HA _ _ Hn) as (? & Hgen & Hb & Hcl & Hc & Hlead).
  destruct (Hlead Hr) as (Hl & (a & Ha & Hin) & li & Hli).
  destruct (i_log _ HA _ _ Hl) as (? & _ & _ & x & li' & Hli' & Hpre). simplify_eq.
  assert (v_log v `prefix_of` v_log v ++ [e]) as Hsnoc by by apply prefix_app_r.
  assert (grows A A') as Hg.
  { split; cbn; eauto using list_elem_of_further. intros t g Ht.
    destruct (decide (t = v_term v)) as [->|Hne].
    - simplify_eq. eexists. by rewrite lookup_insert_eq.
    - exists g. by rewrite lookup_insert_ne. }
  assert (leaderLog A' !! v_term v = Some (v_log v ++ [e])) as Hl' by apply lookup_insert_eq.
  assert (view_le A n v v') as Hle by (apply view_le_log; cbn; [lia|done|congruence]).
  assert (views A' !! n = Some v') as Hn' by apply lookup_insert_eq.
  assert (∀ k e', (v_log v ++ [e]) !! k = Some e' →
            v_log v !! k = Some e' ∨ (k = length (v_log v) ∧ e' = e)) as Hsplit.
  { intros k e' [?|[? Hk]]%lookup_app_Some; [by left|right].
    apply list_lookup_singleton_Some in Hk as [? ->]. split; [lia|done]. }
  assert (genuine A' (v_log v ++ [e])) as Hgen'.
  { intros k e' Hk. destruct (Hsplit _ _ Hk) as [Hk'|[-> ->]].
    - destruct (genuine_grows _ _ _ Hg Hgen _ _ Hk') as (g & ? & ?). exists g.
      split; [done|]. rewrite take_app_le; [done|]. apply lookup_lt_Some in Hk'. lia.
    - exists (v_log v ++ [e]). rewrite He. split; [done|]. apply prefix_take. }
  assert (bounded (v_term v) (v_log v ++ [e])) as Hb'.
  { intros k e' Hk. destruct (Hsplit _ _ Hk) as [Hk'|[-> ->]]; [by eapply Hb|lia]. }
  apply (evolve_inv A); [done|by eapply evolves_view| |by left|by left| |by left|].
  - intros t g. cbn. intros [[<- <-]|[_ ?]]%lookup_insert_Some; [right|by left].
    split_and!; [done|done|done|]. exists n, li. split; [done|by etrans].
  - intros n' u a' [[= -> -> ->]|]%elem_of_cons; [right|by left]. split.
    + split; [eexists; split; [done|rewrite length_app; cbn; lia]|].
      exists v'. split_and!; [done|done|]. intros i _ _. by apply upto_prefix.
    + intros t' y l c Hbal Hlt.
      destruct (i_ballot _ HA _ _ _ _ _ Hbal) as (_ & _ & _ & _ & w & Hw & ?). simplify_eq. lia.
  - apply (views_ok A _ n v'); try done.
    + split_and!; cbn; try done; try lia.
      * rewrite length_app. lia.
      * rewrite take_app_le by lia. by apply (committed_grows A _ (v_term v)).
      * intros _. split_and!; [done| |by eexists]. exists (S (length (v_log v))).
        split; [rewrite length_app; cbn; lia|left].
    + intros m w Hne Hm Hlw. cbn. rewrite lookup_insert_ne; [done|]. intros E.
      destruct (i_view _ HA _ _ Hm) as (_ & _ & _ & _ & _ & Hlm).
      destruct (Hlm Hlw) as (_ & _ & l & Hlm'). rewrite <- E in Hlm'. congruence.
Qed.

Lemma spec_step_inv A A' : spec_step A A' → spec_inv A → spec_inv A'.
Proof.
  destruct 1; intros HA; eauto using adopt_inv, election_inv, request_inv, vote_inv, elect_inv,
    accept_inv, append_inv, commit_inv, install_inv.
Qed.

Lemma spec_init_inv : spec_inv spec_init.
Proof.
  split; cbn; try (intros *; rewrite lookup_empty; done); try (intros * ?%elem_of_nil; done).
  intros n v [_ <-]%lookup_gset_to_gmap_Some. split_and!; cbn; try done.
  by left.
Qed.

End completeness.

Lemma record_vote_grows w t x l c A : grows A (record_vote w t x l c A).
Proof.
  unfold record_vote. destruct (leaderLog A !! t), (ballots A !! (w, t)) eqn:E; try done.
  split; cbn; eauto. by apply insert_subseteq.
Qed.

Lemma spec_step_grows A A' : 0 ≤ N → spec_inv A → spec_step A A' → grows A A'.
Proof.
  intros HN HA. destruct 1; try apply set_view_grows.
  - etrans; [apply set_view_grows|apply record_vote_grows].
  - split; cbn; eauto using list_elem_of_further.
  - etrans; [apply set_view_grows|apply record_vote_grows].
  - assert (initialLog A !! v_term v = None) as Hno.
    { destruct (initialLog A !! v_term v) as [[y l]|] eqn:E; [|done].
      destruct (i_init _ HA _ _ _ E) as [[? ?] _]. congruence. }
    split; cbn; eauto using list_elem_of_further; [|by apply insert_subseteq].
    intros t g Hl. exists g. rewrite lookup_insert_ne by congruence. done.
  - split; cbn; eauto using list_elem_of_further.
  - destruct (i_view _ HA _ _ H) as (_ & _ & _ & _ & _ & Hlead). destruct (Hlead H0) as [Hl _].
    split; cbn; eauto using list_elem_of_further. intros t g Ht.
    destruct (decide (t = v_term v)) as [->|Hne].
    + simplify_eq. eexists. rewrite lookup_insert_eq. split; [done|by apply prefix_app_r].
    + exists g. by rewrite lookup_insert_ne.
Qed.

End spec.
