(* ===== verification/RaftCluster.v ===== *)
(** * A cluster of Raft peers

    The peers, the goroutines they start and the RPCs between them, as one
    step relation.  A goroutine is a [Proc]: which critical section it runs
    next, with the arguments or the reply it carries.  An RPC may be lost
    before or after the handler ran, and a request its caller has given up on
    may still reach the handler later; a crash kills the goroutines of the peer
    and restarts it from stable storage. *)
From stdpp Require Import base tactics list gmap strings numbers relations sets.
From S2P Require Import Prelude.
From S2P Require Import Labgob.
From S2P Require Import Persister.
From S2P Require Import Raft.
From S2P Require Import RaftFacts.
Open Scope Z_scope.
Open Scope go_scope.

Section cluster.
Context {Op SV : Type} (N : Z).
Implicit Types (rf : Raft Op SV).

(** A goroutine and where it stands.  [eid] numbers the calls of [Election]. *)
Inductive Proc :=
| PElection (src : Z)
| PVoteStart (src : Z) (eid : nat) (server : Z)
| PVoteCall (src : Z) (eid : nat) (server : Z) (args : RequestVoteArgs)
| PVoteReplied (src : Z) (eid : nat) (server : Z) (reply : RequestVoteReply)
| PVoteWon (src : Z) (eid : nat) (server : Z)
| PBroadcast (src : Z)
| PReplicate (src server term : Z)
| PSnapCall (src server term : Z) (args : InstallSnapshotArgs SV)
| PSnapReplied (src server term : Z) (reply : InstallSnapshotReply)
| PAppCall (src server term : Z) (args : AppendEntryArgs Op)
| PAppReplied (src server term : Z) (args : AppendEntryArgs Op) (reply : AppendEntryReply)
| PLateVote (server : Z) (args : RequestVoteArgs)
| PLateSnap (server : Z) (args : InstallSnapshotArgs SV)
| PLateApp (server : Z) (args : AppendEntryArgs Op)
| PDone.

Definition proc_src (p : Proc) : option Z :=
  match p with
  | PElection i | PVoteStart i _ _ | PVoteCall i _ _ _ | PVoteReplied i _ _ _ | PVoteWon i _ _
  | PBroadcast i | PReplicate i _ _ | PSnapCall i _ _ _ | PSnapReplied i _ _ _
  | PAppCall i _ _ _ | PAppReplied i _ _ _ _ => Some i
  | PLateVote _ _ | PLateSnap _ _ | PLateApp _ _ | PDone => None
  end.

(** One call of [Election]: its peer, the variables its goroutines share, and
    (a history variable) the servers whose votes were counted. *)
Record ElectionRun := mkElectionRun {
  er_src : Z; er_vars : ElectionVars; er_counted : gset Z }.

(** [delivered] has the snapshots that [InstallSnapshot] sent on a peer's
    [applyCh] since its last start.  [votes] and [led] are history variables:
    every vote a peer has held, as (voter, term, candidate), and every (term,
    peer) of a leader. *)
Record Cluster := mkCluster {
  nodes : gmap Z (Raft Op SV);
  procs : list Proc;
  elections : list ElectionRun;
  delivered : list (Z * ApplyMsg Op SV);
  votes : gset (Z * Z * Z);
  led : gset (Z * Z)
}.

#[export] Instance Cluster_eta : RecordEta Cluster :=
  λ c, mkCluster (nodes c) (procs c) (elections c) (delivered c) (votes c) (led c).

(** Write back a peer's state and record what it shows. *)
Definition put (i : Z) rf (c : Cluster) : Cluster :=
  c <| nodes ::= <[i := rf]> |>
    <| votes ::= λ vs, if bool_decide (votedFor rf = -1) then vs
                       else {[ (i, currentTerm rf, votedFor rf) ]} ∪ vs |>
    <| led ::= λ l, if bool_decide (state rf = Leader) then {[ (currentTerm rf, i) ]} ∪ l else l |>.

Definition set_proc (k : nat) (p : Proc) (c : Cluster) : Cluster := c <| procs ::= <[k := p]> |>.
Definition set_procs (f : list Proc → list Proc) (c : Cluster) : Cluster := c <| procs ::= f |>.
Definition spawn (ps : list Proc) (c : Cluster) : Cluster := c <| procs ::= λ l, l ++ ps |>.
Definition deliver (i : Z) (m : option (ApplyMsg Op SV)) (c : Cluster) : Cluster :=
  c <| delivered ::= λ ds, match m with Some m => (i, m) :: ds | None => ds end |>.
Definition drop_delivered (i : Z) (c : Cluster) : Cluster :=
  c <| delivered ::= filter (λ d, d.1 ≠ i) |>.
Definition others (i : Z) : list Z := filter (λ s, s ≠ i) (range 0 (N - 1)).

(** What is left of a goroutine that no longer waits for its RPC: the request,
    which may still be handled. *)
Definition late (p : Proc) : Proc :=
  match p with
  | PVoteCall _ _ s args => PLateVote s args
  | PSnapCall _ s _ args => PLateSnap s args
  | PAppCall _ s _ args => PLateApp s args
  | _ => PDone
  end.
Definition late_section (p : Proc) : option (Z * Section_ Op SV) :=
  match p with
  | PLateVote s args => Some (s, HandleVote args)
  | PLateSnap s args => Some (s, HandleSnapshot args)
  | PLateApp s args => Some (s, HandleEntries args)
  | _ => None
  end.
Definition section_message (sec : Section_ Op SV) rf : option (ApplyMsg Op SV) :=
  match sec with HandleSnapshot args => (InstallSnapshot args rf).2 | _ => None end.
Definition kill_procs (i : Z) (ps : list Proc) : list Proc :=
  (λ p, if bool_decide (proc_src p = Some i) then late p else p) <$> ps.

(** What the caller does when the network loses an RPC. *)
Definition lost (p : Proc) : option Proc :=
  match p with
  | PVoteCall _ _ _ _ | PVoteReplied _ _ _ _ => Some PDone
  | PSnapCall i s t _ | PSnapReplied i s t _ | PAppCall i s t _ | PAppReplied i s t _ _ =>
      Some (PReplicate i s t)
  | _ => None
  end.

(** The critical sections a peer runs without an RPC: the service's calls, the
    end of a snapshot's delivery and the turns of the apply loop. *)
Definition service_section (s : Section_ Op SV) : bool :=
  match s with
  | ResumeApply _ | SnapshotSent | CondInstall _ _ _ | TakeSnapshot _ _ | KillPeer => true
  | _ => false
  end.

(** The service installs only snapshots it was sent. *)
Definition service_pre (i : Z) (s : Section_ Op SV) (c : Cluster) : Prop :=
  match s with
  | CondInstall t index snap => (i, snapshotMsg snap t index) ∈ delivered c
  | _ => True
  end.

(** What a step does to a peer: nothing, one of its critical sections, or a
    crash with a restart. *)
Inductive Label := LNone | LRun (i : Z) (s : Section_ Op SV) | LCrash (i : Z).

Inductive cl_does : Cluster → Label → Cluster → Prop :=
| cl_tick c i rf rf' go :
    nodes c !! i = Some rf → ticker_election rf = (rf', go) →
    cl_does c (LRun i TickElection)
      (spawn (if go : bool then [PElection i] else []) (put i rf' c))
| cl_heartbeat c i rf :
    nodes c !! i = Some rf → ticker_heartbeat rf = true →
    cl_does c LNone (spawn [PBroadcast i] c)
| cl_election c k i rf rf' ev :
    procs c !! k = Some (PElection i) → nodes c !! i = Some rf → Election rf = (rf', ev) →
    cl_does c (LRun i BeginElection) (spawn (PVoteStart i (length (elections c)) <$> others i)
      ((set_proc k PDone (put i rf' c)) <| elections ::= λ l, l ++ [mkElectionRun i ev {[ i ]}] |>))
| cl_vote_call c k i eid s rf e :
    procs c !! k = Some (PVoteStart i eid s) → nodes c !! i = Some rf →
    elections c !! eid = Some e →
    cl_does c LNone
      (set_proc k (PVoteCall i eid s (RequestVote_args (el_term (er_vars e)) rf)) c)
| cl_vote_handle c k i eid s args rf rf' reply :
    procs c !! k = Some (PVoteCall i eid s args) → nodes c !! s = Some rf →
    RequestVoteHandle args rf = (rf', reply) →
    cl_does c (LRun s (HandleVote args)) (set_proc k (PVoteReplied i eid s reply) (put s rf' c))
| cl_vote_reply c k i eid s reply rf rf' ok :
    procs c !! k = Some (PVoteReplied i eid s reply) → nodes c !! i = Some rf →
    RequestVote_reply reply rf = (rf', ok) →
    cl_does c (LRun i (VoteReply reply))
      (set_proc k (if ok : bool then PVoteWon i eid s else PDone) (put i rf' c))
| cl_vote_count c k i eid s rf rf' e ev' bc :
    procs c !! k = Some (PVoteWon i eid s) → nodes c !! i = Some rf →
    elections c !! eid = Some e → Election_count (er_vars e) rf = (ev', rf', bc) →
    cl_does c (LRun i (CountVote (er_vars e))) ((set_proc k (if bc : bool then PBroadcast i else PDone) (put i rf' c))
      <| elections ::= <[eid := mkElectionRun (er_src e) ev' ({[ s ]} ∪ er_counted e)]> |>)
| cl_broadcast c k i rf :
    procs c !! k = Some (PBroadcast i) → nodes c !! i = Some rf →
    cl_does c LNone (spawn (match broadcastAppendEntries rf with
                      | Some term => (λ s, PReplicate i s term) <$> others i
                      | None => [] end) (set_proc k PDone c))
| cl_replicate c k i s term rf :
    procs c !! k = Some (PReplicate i s term) → nodes c !! i = Some rf →
    cl_does c LNone (set_proc k (match replicate_prepare s term rf with
                           | None => PDone
                           | Some (SendSnapshot args) => PSnapCall i s term args
                           | Some (SendEntries args) => PAppCall i s term args end) c)
| cl_snap_handle c k i s term args rf rf' reply m :
    procs c !! k = Some (PSnapCall i s term args) → nodes c !! s = Some rf →
    InstallSnapshot args rf = (rf', reply, m) →
    cl_does c (LRun s (HandleSnapshot args))
      (set_proc k (PSnapReplied i s term reply) (deliver s m (put s rf' c)))
| cl_snap_reply c k i s term reply rf rf' ctl :
    procs c !! k = Some (PSnapReplied i s term reply) → nodes c !! i = Some rf →
    replicate_snapshot_reply s reply rf = (rf', ctl) →
    cl_does c (LRun i (SnapshotReply s reply))
      (set_proc k (match ctl with Continue => PReplicate i s term | Return => PDone end)
                 (put i rf' c))
| cl_app_handle c k i s term args rf rf' reply b :
    procs c !! k = Some (PAppCall i s term args) → nodes c !! s = Some rf →
    AppendEntriesHandler args rf = (rf', reply, b) →
    cl_does c (LRun s (HandleEntries args))
      (set_proc k (PAppReplied i s term args reply) (put s rf' c))
| cl_app_reply c k i s term args reply rf rf' ctl b :
    procs c !! k = Some (PAppReplied i s term args reply) → nodes c !! i = Some rf →
    replicate_append_reply s term args reply rf = (rf', ctl, b) →
    cl_does c (LRun i (EntriesReply s term args reply))
      (set_proc k (match ctl with Continue => PReplicate i s term | Return => PDone end)
                 (put i rf' c))
| cl_lost c k p p' :
    procs c !! k = Some p → lost p = Some p' →
    cl_does c LNone (spawn [late p] (set_proc k p' c))
| cl_late c k p s sec rf :
    procs c !! k = Some p → late_section p = Some (s, sec) → nodes c !! s = Some rf →
    cl_does c (LRun s sec)
      (set_proc k PDone (deliver s (section_message sec rf) (put s (run_section sec rf) c)))
| cl_start c i rf command :
    nodes c !! i = Some rf →
    cl_does c (LRun i (StartCommand command))
      (spawn (if (Start command rf).2.2 then [PBroadcast i] else [])
                 (put i (run_section (StartCommand command) rf) c))
| cl_service c i rf s :
    nodes c !! i = Some rf → service_section s = true → section_pre s rf → service_pre i s c →
    cl_does c (LRun i s) (put i (run_section s rf) c)
| cl_crash c i rf :
    nodes c !! i = Some rf →
    cl_does c (LCrash i) (set_procs (kill_procs i) (drop_delivered i (put i (restart rf) c))).

Definition cl_step (c c' : Cluster) : Prop := ∃ e, cl_does c e c'.

Definition cl_init : Cluster :=
  mkCluster (list_to_map ((λ i, (i, Make N i MakePersister)) <$> range 0 (N - 1))) [] [] [] ∅ ∅.

Definition cl_reachable (c : Cluster) : Prop := rtc cl_step cl_init c.

(** ** The invariant *)

Record node_inv (ns : gmap Z (Raft Op SV)) (vs : gset (Z * Z * Z)) (ld : gset (Z * Z)) : Prop := {
  ni_node i rf : ns !! i = Some rf →
    raft_wf rf ∧ durable rf ∧ peers rf = N ∧ me rf = i ∧
    (votedFor rf ≠ -1 → (i, currentTerm rf, votedFor rf) ∈ vs) ∧
    (state rf = Leader → (currentTerm rf, i) ∈ ld);
  ni_vote v t x : (v, t, x) ∈ vs →
    ∃ rf, ns !! v = Some rf ∧ t ≤ currentTerm rf ∧ x ≠ -1 ∧
          (t = currentTerm rf → votedFor rf = x);
  ni_once v t x y : (v, t, x) ∈ vs → (v, t, y) ∈ vs → x = y;
  ni_led t i : (t, i) ∈ ld →
    ∃ Q, Q ⊆ (everyone N) ∧ N `div` 2 < Z.of_nat (size Q) ∧ ∀ w, w ∈ Q → (w, t, i) ∈ vs
}.

(** The vote a goroutine of [Election] is after. *)
Definition pending (p : Proc) : option (nat * Z) :=
  match p with
  | PVoteStart _ eid s | PVoteCall _ eid s _ | PVoteReplied _ eid s _ | PVoteWon _ eid s =>
      Some (eid, s)
  | _ => None
  end.

Definition phase_ok (vs : gset (Z * Z * Z)) (e : ElectionRun) (p : Proc) : Prop :=
  let granted i s := (s, el_term (er_vars e), i) ∈ vs in
  match p with
  | PVoteStart i _ _ => i = er_src e
  | PVoteCall i _ _ args =>
      i = er_src e ∧ rva_Term args = el_term (er_vars e) ∧ rva_CandidateID args = i
  | PVoteReplied i _ s reply => i = er_src e ∧ (rvr_VoteGranted reply = true → granted i s)
  | PVoteWon i _ s => i = er_src e ∧ granted i s
  | _ => True
  end.

Record election_inv (ps : list Proc) (es : list ElectionRun) (vs : gset (Z * Z * Z)) : Prop := {
  ei_run eid e : es !! eid = Some e →
    er_src e ∈ (everyone N) ∧ er_counted e ⊆ (everyone N) ∧
    voteReceived (er_vars e) = Z.of_nat (size (er_counted e)) ∧
    ∀ w, w ∈ er_counted e → (w, el_term (er_vars e), er_src e) ∈ vs;
  ei_pending k p eid s : ps !! k = Some p → pending p = Some (eid, s) →
    ∃ e, es !! eid = Some e ∧ s ∈ (everyone N) ∧ s ∉ er_counted e ∧ phase_ok vs e p;
  ei_unique k k' p p' x : ps !! k = Some p → ps !! k' = Some p' →
    pending p = Some x → pending p' = Some x → k = k'
}.

Record cl_inv (c : Cluster) : Prop := {
  ci_node : node_inv (nodes c) (votes c) (led c);
  ci_election : election_inv (procs c) (elections c) (votes c)
}.

(** What a change of one peer's state must satisfy. *)
Definition leader_le rf rf' : Prop :=
  state rf' = Leader → state rf = Leader ∧ currentTerm rf' = currentTerm rf.

Definition lawful rf rf' : Prop :=
  vote_le rf rf' ∧ raft_wf rf' ∧ durable rf' ∧ peers rf' = peers rf ∧ me rf' = me rf.

(** ** One peer changes *)

Lemma run_section_lawful s rf :
  raft_wf rf → durable rf → section_pre s rf → lawful rf (run_section s rf).
Proof.
  intros Hwf Hd Hpre. pose proof (run_section_saved s rf) as Hs.
  assert (peers (run_section s rf) = peers rf ∧ me (run_section s rf) = me rf) as [? ?]
    by (destruct Hs as [(_ & ? & ? & _)|(_ & ? & ?)]; done).
  split_and!; auto using run_section_vote, run_section_wf. by eapply durable_saved.
Qed.

Lemma restart_lawful rf : raft_wf rf → durable rf → lawful rf (restart rf).
Proof.
  intros Hwf Hd. destruct (peer_step_inv rf (restart rf) (peer_crash rf) Hwf Hd).
  destruct (Make_volatile (peers rf) (me rf) (persister rf)) as (? & ? & _).
  split_and!; auto. by apply (peer_step_vote _ _ (peer_crash rf)).
Qed.

Lemma restart_leader rf : leader_le rf (restart rf).
Proof.
  intros H. destruct (Make_volatile (peers rf) (me rf) (persister rf)) as (_ & _ & _ & E & _).
  fold (restart rf) in *. congruence.
Qed.

Lemma leader_le_refl rf : leader_le rf rf.
Proof. by intros ?. Qed.

Lemma leader_le_follower rf rf' : state rf' = Follower → leader_le rf rf'.
Proof. intros H ?. congruence. Qed.

Lemma appendLoop_state es i rf : state (appendLoop es i rf) = state rf.
Proof.
  revert i. induction es as [|e es IH]; intros i; cbn [appendLoop]; [done|].
  repeat case_if; auto.
Qed.

Lemma AppendEntriesHandler_leader args rf : leader_le rf (AppendEntriesHandler args rf).1.1.
Proof.
  assert (leader_le rf (observeLeader (aea_Term args) rf)) as Ho
    by (unfold observeLeader; repeat case_if; done).
  unfold AppendEntriesHandler. set (rf1 := observeLeader _ rf) in *. clearbody rf1.
  case_if; [exact Ho|]. case_if; case_if; try exact Ho.
  - destruct (heartbeatCommit_state args rf1) as (b & k & Hs & _).
    destruct (heartbeatCommit args rf1). cbn in *. by subst.
  - set (rf2 := appendLoop _ _ rf1).
    assert (state rf2 = state rf1) as Hst by apply appendLoop_state.
    assert (currentTerm rf2 = currentTerm rf1) as Ht by apply appendLoop_log.
    destruct (entriesCommit_state args rf2) as (b & k & Hs & _).
    destruct (entriesCommit args rf2). cbn in *. subst. intros Hl. cbn in *.
    rewrite Ht. apply Ho. congruence.
Qed.

Lemma replicate_append_reply_leader server t args reply rf :
  leader_le rf (replicate_append_reply server t args reply rf).1.1.
Proof.
  unfold replicate_append_reply. repeat case_if; cbn; try done;
    match goal with |- context [advanceCommitIndexLocked ?r] =>
      destruct (advanceCommit_state r) as (? & ? & Hs & _);
      destruct (advanceCommitIndexLocked r); cbn in Hs; subst; done
    end.
Qed.

(** Only counting a vote makes a leader. *)
Lemma run_section_leader s rf :
  match s with CountVote _ => False | _ => True end → leader_le rf (run_section s rf).
Proof.
  intros Hs. destruct s; cbn; auto using AppendEntriesHandler_leader,
    replicate_append_reply_leader; try done.
  - unfold RequestVote_reply. case_if; by cbn.
  - unfold RequestVoteHandle. repeat case_if; by cbn.
  - unfold replicate_snapshot_reply. case_if; by cbn.
  - unfold InstallSnapshot. repeat case_if; by cbn.
  - destruct (apply_resume_state lastSent rf) as (b & k & -> & _). done.
  - unfold CondInstallSnapshot. case_if; cbn; [done|]. by rewrite raiseToSnapshot_eq.
  - unfold Snapshot. case_if; [done|]. case_match; [|done]. by rewrite raiseToSnapshot_eq.
  - unfold Start. case_if; by cbn.
Qed.

(** ** The invariant is inductive *)

Definition elected (vs : gset (Z * Z * Z)) (t i : Z) : Prop :=
  ∃ Q, Q ⊆ (everyone N) ∧ N `div` 2 < Z.of_nat (size Q) ∧ ∀ w, w ∈ Q → (w, t, i) ∈ vs.

Lemma elected_mono vs vs' t i : vs ⊆ vs' → elected vs t i → elected vs' t i.
Proof. intros Hv (Q & ? & ? & HQ). exists Q. split_and!; auto. Qed.

Lemma put_votes i rf c : votes c ⊆ votes (put i rf c).
Proof. unfold put. cbn. case_bool_decide; set_solver. Qed.

Lemma put_vote_in i rf c v t x :
  (v, t, x) ∈ votes (put i rf c) ↔
  (v, t, x) ∈ votes c ∨ (votedFor rf ≠ -1 ∧ v = i ∧ t = currentTerm rf ∧ x = votedFor rf).
Proof. unfold put. cbn. case_bool_decide; set_solver. Qed.

Lemma put_led_in i rf c t j :
  (t, j) ∈ led (put i rf c) ↔
  (t, j) ∈ led c ∨ (state rf = Leader ∧ t = currentTerm rf ∧ j = i).
Proof. unfold put. cbn. case_bool_decide; set_solver. Qed.

Lemma node_inv_put i rf rf' c :
  node_inv (nodes c) (votes c) (led c) → nodes c !! i = Some rf → lawful rf rf' →
  leader_le rf rf' ∨ elected (votes c) (currentTerm rf') i →
  let c' := put i rf' c in node_inv (nodes c') (votes c') (led c').
Proof.
  intros [Hn Hv Ho Hl] Hi (Hvl & Hwf & Hd & Hp & Hm) Hlead c'.
  destruct (Hn _ _ Hi) as (_ & _ & HpN & Hme & _ & Hld).
  assert (nodes c' = <[i := rf']> (nodes c)) as Hnodes by done.
  assert (∀ t x, (i, t, x) ∈ votes c → t ≤ currentTerm rf' ∧
            (t = currentTerm rf' → votedFor rf' = x)) as Hold.
  { intros t x Hin. destruct (Hv _ _ _ Hin) as (r & Hr & ? & ? & Hx). simplify_eq.
    destruct Hvl as [?|[? Hk]]; lia. }
  split.
  - intros j r. rewrite Hnodes. rewrite lookup_insert. case_decide; [intros [= <-]; subst|].
    + split_and!; try congruence; try done; intros; [apply put_vote_in|apply put_led_in]; auto.
    + intros Hj. destruct (Hn _ _ Hj) as (? & ? & ? & ? & ? & ?).
      split_and!; auto; intros; [apply put_vote_in|apply put_led_in]; auto.
  - intros v t x [Hin|(? & -> & -> & ->)]%put_vote_in; rewrite Hnodes, lookup_insert.
    + destruct (Hv _ _ _ Hin) as (r & Hr & ? & ? & ?). case_decide; subst; [|eauto 8].
      destruct (Hold _ _ Hin). eauto 8.
    + rewrite decide_True by done. eexists. split_and!; auto; lia.
  - intros v t x y [Hx|(? & -> & -> & ->)]%put_vote_in [Hy|(? & ? & ? & ->)]%put_vote_in; subst.
    + eauto.
    + symmetry. by apply (Hold _ _ Hx).
    + by apply (Hold _ _ Hy).
    + done.
  - intros t j [Hin|(Hst & -> & ->)]%put_led_in.
    + destruct (Hl _ _ Hin) as (Q & ? & ? & HQ). exists Q. split_and!; auto.
      intros w Hw. apply put_votes, HQ, Hw.
    + apply (elected_mono (votes c)); [apply put_votes|].
      destruct Hlead as [Hlead|?]; [|done]. destruct (Hlead Hst) as [? ->].
      by apply Hl, Hld.
Qed.

Lemma phase_ok_mono vs vs' e p : vs ⊆ vs' → phase_ok vs e p → phase_ok vs' e p.
Proof. intros Hv. destruct p; cbn; naive_solver. Qed.

Lemma election_inv_set k p p' ps es vs vs' :
  election_inv ps es vs → ps !! k = Some p → vs ⊆ vs' →
  pending p' = None ∨
  (pending p' = pending p ∧ ∀ eid s e, pending p = Some (eid, s) → es !! eid = Some e →
     er_src e ∈ (everyone N) → phase_ok vs e p → phase_ok vs' e p') →
  election_inv (<[k := p']> ps) es vs'.
Proof.
  intros [Hr Hp Hu] Hk Hv Hp'. pose proof (lookup_lt_Some _ _ _ Hk).
  assert (∀ j q x, <[k := p']> ps !! j = Some q → pending q = Some x →
            ∃ q', ps !! j = Some q' ∧ pending q' = Some x ∧
                  (∀ e, es !! x.1 = Some e → phase_ok vs e q' → phase_ok vs' e q)) as Hback.
  { intros j q x Hj Hq. destruct (decide (k = j)) as [->|Hne].
    - rewrite list_lookup_insert_eq in Hj by done. simplify_eq.
      destruct Hp' as [?|[E Hok]]; [congruence|]. exists p. rewrite <- E. split_and!; auto.
      intros e He. destruct x as [eid s], (Hr _ _ He) as [? _].
      apply (Hok eid s); [by rewrite <- E|done..].
    - rewrite list_lookup_insert_ne in Hj by done. exists q. split_and!; auto.
      intros e _. by apply phase_ok_mono. }
  split.
  - intros eid e He. destruct (Hr _ _ He) as (? & ? & ? & ?). split_and!; auto.
  - intros j q eid s Hj Hq. destruct (Hback _ _ _ Hj Hq) as (q' & Hj' & Hq' & Hok).
    destruct (Hp _ _ _ _ Hj' Hq') as (e & ? & ? & ? & ?). exists e. auto.
  - intros j j' q q' x Hj Hj' Hq Hq'.
    destruct (Hback _ _ _ Hj Hq) as (? & ? & ? & _), (Hback _ _ _ Hj' Hq') as (? & ? & ? & _). eauto.
Qed.

Lemma election_inv_votes ps es vs vs' :
  election_inv ps es vs → vs ⊆ vs' → election_inv ps es vs'.
Proof.
  intros [Hr Hp Hu] Hv. split; [| |done].
  - intros eid e He. destruct (Hr _ _ He) as (? & ? & ? & ?). split_and!; auto.
  - intros j q eid s Hj Hq. destruct (Hp _ _ _ _ Hj Hq) as (e & ? & ? & ? & ?).
    exists e. split_and!; auto. by eapply phase_ok_mono.
Qed.

Lemma election_inv_spawn ps new es vs :
  election_inv ps es vs → Forall (λ p, pending p = None) new →
  election_inv (ps ++ new) es vs.
Proof.
  intros [Hr Hp Hu] Hnew. rewrite Forall_lookup in Hnew.
  assert (∀ j q x, (ps ++ new) !! j = Some q → pending q = Some x → ps !! j = Some q) as Hback.
  { intros j q x [?|[_ ?]]%lookup_app_Some Hq; [done|].
    rewrite (Hnew _ _ ltac:(eassumption)) in Hq. done. }
  split; [done| |]; eauto 10.
Qed.

Lemma pending_late p : pending (late p) = None.
Proof. by destruct p. Qed.

Lemma election_inv_kill i ps es vs :
  election_inv ps es vs → election_inv (kill_procs i ps) es vs.
Proof.
  intros [Hr Hp Hu].
  assert (∀ j q x, kill_procs i ps !! j = Some q → pending q = Some x → ps !! j = Some q) as Hback.
  { intros j q x Hj Hq. unfold kill_procs in Hj. rewrite list_lookup_fmap in Hj.
    destruct (ps !! j) as [q'|] eqn:E; [|done]. cbn in Hj. case_bool_decide; simplify_eq; [|done].
    by rewrite pending_late in Hq. }
  split; [done| |]; eauto 10.
Qed.

(** A new call of [Election] by peer [i], which has just voted for itself. *)
Lemma election_inv_new ps es vs i ev :
  election_inv ps es vs → i ∈ (everyone N) → voteReceived ev = 1 → (i, el_term ev, i) ∈ vs →
  election_inv (ps ++ (PVoteStart i (length es) <$> others i)) (es ++ [mkElectionRun i ev {[i]}]) vs.
Proof.
  intros [Hr Hp Hu] Hi Hv Hin. set (new := PVoteStart i (length es) <$> others i).
  assert (∀ j q eid s, (ps ++ new) !! j = Some q → pending q = Some (eid, s) →
     (ps !! j = Some q ∧ (eid < length es)%nat) ∨
     (∃ m, j = (length ps + m)%nat ∧ others i !! m = Some s ∧ q = PVoteStart i eid s ∧
           eid = length es)) as Hback.
  { intros j q eid s [Hj|[Hlen Hj]]%lookup_app_Some Hq.
    - left. split; [done|]. destruct (Hp _ _ _ _ Hj Hq) as (e & He & _). by eapply lookup_lt_Some.
    - right. exists (j - length ps)%nat. unfold new in Hj. rewrite list_lookup_fmap in Hj.
      destruct (others i !! _) as [x|] eqn:E; [|done]. cbn in Hj. simplify_eq/=.
      split; [lia|done]. }
  split.
  - intros eid e [He|[? He]]%lookup_app_Some; [by apply (Hr _ _ He)|].
    apply list_lookup_singleton_Some in He as [_ <-]. cbn. rewrite size_singleton.
    split_and!; [done|set_solver|done|]. by intros w ->%elem_of_singleton.
  - intros j q eid s Hj Hq. destruct (Hback _ _ _ _ Hj Hq) as [[Hj' ?]|(m & -> & Hm & -> & ->)].
    + destruct (Hp _ _ _ _ Hj' Hq) as (e & ? & ? & ? & ?). exists e.
      split_and!; auto. by apply lookup_app_l_Some.
    + exists (mkElectionRun i ev {[i]}). apply list_elem_of_lookup_2, list_elem_of_filter in Hm as [? Hm].
      split_and!; [by apply list_lookup_middle|by apply elem_of_list_to_set| |done].
      cbn. set_solver.
  - intros j j' q q' [eid s] Hj Hj' Hq Hq'.
    destruct (Hback _ _ _ _ Hj Hq) as [[? ?]|(m & -> & Hm & -> & ->)],
      (Hback _ _ _ _ Hj' Hq') as [[? ?]|(m' & -> & Hm' & -> & E)]; [eauto|lia|lia|].
    f_equal. eapply NoDup_lookup; [|exact Hm|exact Hm']. apply NoDup_filter, NoDup_seqZ.
Qed.

(** A goroutine of [Election] counts the vote of [s] and leaves. *)
Lemma election_inv_count ps es vs k p eid s e ev' p' :
  election_inv ps es vs → ps !! k = Some p → pending p = Some (eid, s) → pending p' = None →
  es !! eid = Some e → el_term ev' = el_term (er_vars e) →
  voteReceived ev' = voteReceived (er_vars e) + 1 → (s, el_term (er_vars e), er_src e) ∈ vs →
  election_inv (<[k := p']> ps)
    (<[eid := mkElectionRun (er_src e) ev' ({[s]} ∪ er_counted e)]> es) vs.
Proof.
  intros [Hr Hp Hu] Hk Hpend Hp' He Ht Hn Hin.
  pose proof (lookup_lt_Some _ _ _ He). pose proof (lookup_lt_Some _ _ _ Hk).
  destruct (Hp _ _ _ _ Hk Hpend) as (e0 & ? & Hs & Hnew & _). simplify_eq.
  assert (∀ j q x, <[k := p']> ps !! j = Some q → pending q = Some x → ps !! j = Some q ∧ j ≠ k)
    as Hback.
  { intros j q x Hj Hq. destruct (decide (k = j)) as [<-|Hne].
    - rewrite list_lookup_insert_eq in Hj by done. simplify_eq.
    - by rewrite list_lookup_insert_ne in Hj. }
  split.
  - intros eid' e' He'. destruct (decide (eid = eid')) as [<-|Hne].
    + rewrite list_lookup_insert_eq in He' by done. simplify_eq/=.
      destruct (Hr _ _ He) as (? & ? & ? & ?). rewrite Ht, Hn.
      split_and!; [done|set_solver| |set_solver].
      rewrite size_union, size_singleton by set_solver. lia.
    + rewrite list_lookup_insert_ne in He' by done. eauto.
  - intros j q eid' s' Hj Hq. destruct (Hback _ _ _ Hj Hq) as [Hj' Hne].
    destruct (Hp _ _ _ _ Hj' Hq) as (e' & He' & ? & Hni & Hok).
    destruct (decide (eid = eid')) as [<-|].
    + simplify_eq. eexists. rewrite list_lookup_insert_eq by done. split_and!; [done..| |].
      * cbn. assert (s' ≠ s) by (intros ->; apply Hne; eauto). set_solver.
      * destruct q; cbn in *; rewrite ?Ht; done.
    + exists e'. rewrite list_lookup_insert_ne by done. done.
  - intros j j' q q' x Hj Hj' Hq Hq'.
    destruct (Hback _ _ _ Hj Hq), (Hback _ _ _ Hj' Hq'). eauto.
Qed.

Lemma cl_inv_put i rf rf' c :
  cl_inv c → nodes c !! i = Some rf → lawful rf rf' →
  leader_le rf rf' ∨ elected (votes c) (currentTerm rf') i → cl_inv (put i rf' c).
Proof.
  intros [Hn He] Hi Hl Hlead. split; [by eapply node_inv_put|].
  eapply election_inv_votes; [exact He|]. apply put_votes.
Qed.

Lemma cl_inv_deliver i m c : cl_inv c → cl_inv (deliver i m c).
Proof. by intros []. Qed.

Lemma cl_inv_section i rf s c :
  cl_inv c → nodes c !! i = Some rf → section_pre s rf →
  leader_le rf (run_section s rf) ∨ elected (votes c) (currentTerm (run_section s rf)) i →
  cl_inv (put i (run_section s rf) c).
Proof.
  intros Hc Hi Hpre Hlead. destruct (ni_node _ _ _ (ci_node _ Hc) _ _ Hi) as (? & ? & _).
  eapply cl_inv_put; eauto using run_section_lawful.
Qed.

Lemma cl_inv_plain i rf s c :
  cl_inv c → nodes c !! i = Some rf → section_pre s rf →
  match s with CountVote _ => False | _ => True end → cl_inv (put i (run_section s rf) c).
Proof. eauto using cl_inv_section, run_section_leader. Qed.

Lemma cl_inv_set k p p' c :
  cl_inv c → procs c !! k = Some p →
  pending p' = None ∨
  (pending p' = pending p ∧ ∀ eid s e, pending p = Some (eid, s) → elections c !! eid = Some e →
     er_src e ∈ (everyone N) → phase_ok (votes c) e p → phase_ok (votes c) e p') →
  cl_inv (set_proc k p' c).
Proof. intros [Hn He] Hk Hp. split; [done|]. by eapply election_inv_set. Qed.

Lemma cl_inv_spawn ps c :
  cl_inv c → Forall (λ p, pending p = None) ps → cl_inv (spawn ps c).
Proof. intros [Hn He] Hp. split; [done|]. by apply election_inv_spawn. Qed.

Lemma cl_inv_member i rf c : cl_inv c → nodes c !! i = Some rf → 0 ≤ i < N.
Proof.
  intros [Hn _] Hi. destruct (ni_node _ _ _ Hn _ _ Hi) as (Hwf & _ & <- & <- & _). apply Hwf.
Qed.

Lemma RequestVoteHandle_granted args rf rf' reply :
  RequestVoteHandle args rf = (rf', reply) → rvr_VoteGranted reply = true →
  currentTerm rf' = rva_Term args ∧ votedFor rf' = rva_CandidateID args.
Proof.
  unfold RequestVoteHandle. intros H Hg. case_if_in H; [by simplify_eq|].
  set (rf1 := if _ : bool then _ else rf) in H.
  assert (currentTerm rf1 = rva_Term args) as Ht by (subst rf1; case_if; cbn; zbool; lia).
  case_if_in H; by simplify_eq/=.
Qed.

Lemma Election_count_spec ev rf ev' rf' bc :
  Election_count ev rf = (ev', rf', bc) →
  el_term ev' = el_term ev ∧ voteReceived ev' = voteReceived ev + 1 ∧
  (rf' = rf ∨
   (rf' = becomeLeader rf ∧ state rf = Candidate ∧ currentTerm rf = el_term ev ∧
    peers rf `div` 2 < voteReceived ev')).
Proof.
  unfold Election_count. intros H. repeat case_if_in H; simplify_eq/=; split_and!; auto.
  right. zbool. split_and!; [done|done|done|]. rewrite Z.shiftr_div_pow2 in * by done. done.
Qed.

Lemma step_election c k i rf rf' ev :
  cl_inv c → procs c !! k = Some (PElection i) → nodes c !! i = Some rf → Election rf = (rf', ev) →
  cl_inv (spawn (PVoteStart i (length (elections c)) <$> others i)
    ((set_proc k PDone (put i rf' c)) <| elections ::= λ l, l ++ [mkElectionRun i ev {[ i ]}] |>)).
Proof.
  intros Hc Hk Hi HE. pose proof (cl_inv_member _ _ _ Hc Hi).
  assert (rf' = run_section BeginElection rf) as -> by (unfold run_section; by rewrite HE).
  pose proof (cl_inv_plain i rf BeginElection c Hc Hi I I) as [Hn He].
  destruct (ni_node _ _ _ (ci_node _ Hc) _ _ Hi) as (_ & _ & _ & Hme & _).
  unfold Election in HE. simplify_eq/=. split; [done|].
  eapply election_inv_new; [|by apply everyone_spec|done|].
  - eapply election_inv_set; [exact He|exact Hk|done|by left].
  - cbn. case_bool_decide; [lia|set_solver].
Qed.

Lemma step_vote_handle c k i eid s args rf rf' reply :
  cl_inv c → procs c !! k = Some (PVoteCall i eid s args) → nodes c !! s = Some rf →
  RequestVoteHandle args rf = (rf', reply) →
  cl_inv (set_proc k (PVoteReplied i eid s reply) (put s rf' c)).
Proof.
  intros Hc Hk Hs HR. assert (rf' = run_section (HandleVote args) rf) as E by (unfold run_section; by rewrite HR).
  eapply cl_inv_set; [rewrite E; by apply cl_inv_plain|exact Hk|]. right. split; [done|].
  intros ? ? e _ _ Hsrc%everyone_spec (-> & Ht & Hcand). split; [done|]. intros Hg.
  destruct (RequestVoteHandle_granted _ _ _ _ HR Hg) as [Ht' Hv].
  apply put_vote_in. right. split_and!; congruence || lia.
Qed.

(** A peer that counts itself a majority of votes has them. *)
Lemma count_wins c k i eid s rf rf' e ev' bc :
  cl_inv c → procs c !! k = Some (PVoteWon i eid s) → nodes c !! i = Some rf →
  elections c !! eid = Some e → Election_count (er_vars e) rf = (ev', rf', bc) →
  i = er_src e ∧ (s, el_term (er_vars e), i) ∈ votes c ∧
  (rf' = rf ∨ (rf' = becomeLeader rf ∧ state rf = Candidate ∧ currentTerm rf = el_term (er_vars e) ∧
               elected (votes c) (currentTerm rf) i)).
Proof.
  intros [Hn Hel] Hk Hi He HC.
  destruct (ei_pending _ _ _ Hel _ _ _ _ Hk eq_refl) as (e0 & ? & Hs & Hnew & Hsrc & Hvote).
  simplify_eq. destruct (Election_count_spec _ _ _ _ _ HC) as (_ & Hnum & Hcase).
  split_and!; [done|done|]. destruct Hcase as [->|(-> & Hst & Hterm & Hmaj)]; [by left|right].
  split_and!; [done..|]. destruct (ei_run _ _ _ Hel _ _ He) as (_ & Hsub & Hcnt & Hvotes).
  exists ({[s]} ∪ er_counted e). split_and!; [set_solver| |].
  - rewrite size_union, size_singleton by set_solver.
    destruct (ni_node _ _ _ Hn _ _ Hi) as (_ & _ & <- & _). lia.
  - rewrite Hterm. set_solver.
Qed.

Lemma step_vote_count c k i eid s rf rf' e ev' bc :
  cl_inv c → procs c !! k = Some (PVoteWon i eid s) → nodes c !! i = Some rf →
  elections c !! eid = Some e → Election_count (er_vars e) rf = (ev', rf', bc) →
  cl_inv ((set_proc k (if bc : bool then PBroadcast i else PDone) (put i rf' c))
    <| elections ::= <[eid := mkElectionRun (er_src e) ev' ({[ s ]} ∪ er_counted e)]> |>).
Proof.
  intros Hc Hk Hi He HC. pose proof Hc as [Hn Hel].
  destruct (ei_pending _ _ _ Hel _ _ _ _ Hk eq_refl) as (e0 & ? & Hs & Hnew & Hsrc & Hvote).
  destruct (count_wins _ _ _ _ _ _ _ _ _ _ Hc Hk Hi He HC) as (_ & _ & Hcase).
  simplify_eq. destruct (Election_count_spec _ _ _ _ _ HC) as (Ht & Hnum & _).
  assert (cl_inv (put (er_src e) rf' c)) as [Hn' Hel'].
  { assert (rf' = run_section (CountVote (er_vars e)) rf) as E by (unfold run_section; by rewrite HC).
    rewrite E. apply cl_inv_section; [done|done|done|]. rewrite <- E.
    destruct Hcase as [->|(-> & _ & _ & ?)]; [left; apply leader_le_refl|by right]. }
  split; [done|]. cbn. eapply (election_inv_count _ _ _ k _ eid s e); [exact Hel'|exact Hk|..]; try done.
  - by destruct bc.
  - apply put_votes, Hvote.
Qed.

Lemma spawn_plain {A} (f : A → Proc) (l : list A) :
  (∀ x, pending (f x) = None) → Forall (λ p, pending p = None) (f <$> l).
Proof. intros Hf. apply Forall_fmap, Forall_true. intros x. apply Hf. Qed.

Lemma cl_step_inv c c' : cl_step c c' → cl_inv c → cl_inv c'.
Proof.
  intros [l Hstep] Hc; destruct Hstep as
    [c i rf rf' go Hi H|c i rf Hi H|c k i rf rf' ev Hk Hi H|c k i eid s rf e Hk Hi He
    |c k i eid s args rf rf' reply Hk Hs H|c k i eid s reply rf rf' ok Hk Hi H
    |c k i eid s rf rf' e ev' bc Hk Hi He H|c k i rf Hk Hi|c k i s term rf Hk Hi
    |c k i s term args rf rf' reply m Hk Hs H|c k i s term reply rf rf' ctl Hk Hi H
    |c k i s term args rf rf' reply b Hk Hs H|c k i s term args reply rf rf' ctl b Hk Hi H
    |c k p p' Hk H|c k p s sec rf Hk Hl Hs|c i rf command Hi|c i rf s Hi Hs Hpre Hsv|c i rf Hi];
    try (eapply step_election; eassumption); try (eapply step_vote_handle; eassumption);
    try (eapply step_vote_count; eassumption).
  - apply cl_inv_spawn; [|by destruct go; repeat constructor].
    assert (rf' = run_section TickElection rf) as -> by (unfold run_section; by rewrite H).
    by apply cl_inv_plain.
  - apply cl_inv_spawn; [done|by repeat constructor].
  - eapply cl_inv_set; [done|done|]. right. split; [done|]. intros ? ? e' Hp He' _ ->.
    simplify_eq/=. split_and!; [done|done|]. cbn.
    apply (ni_node _ _ _ (ci_node _ Hc) _ _ Hi).
  - eapply cl_inv_set; [|exact Hk|].
    + assert (rf' = run_section (VoteReply reply) rf) as -> by (unfold run_section; by rewrite H).
      by apply cl_inv_plain.
    + destruct ok; [right|by left]. split; [done|]. intros ? ? e _ _ _ [-> Hg]. split; [done|].
      apply Hg. unfold RequestVote_reply in H. case_if_in H; simplify_eq. by zbool.
  - apply cl_inv_spawn; [by eapply cl_inv_set; eauto|].
    case_match; [by apply spawn_plain|constructor].
  - eapply cl_inv_set; [done|done|]. left. by repeat case_match.
  - eapply cl_inv_set; [|exact Hk|by left].
    assert (rf' = run_section (HandleSnapshot args) rf) as -> by (unfold run_section; by rewrite H).
    by apply cl_inv_deliver, cl_inv_plain.
  - eapply cl_inv_set; [|exact Hk|by destruct ctl; left].
    assert (rf' = run_section (SnapshotReply s reply) rf) as -> by (unfold run_section; by rewrite H).
    by apply cl_inv_plain.
  - eapply cl_inv_set; [|exact Hk|by left].
    assert (rf' = run_section (HandleEntries args) rf) as -> by (unfold run_section; by rewrite H).
    by apply cl_inv_plain.
  - eapply cl_inv_set; [|exact Hk|by destruct ctl; left].
    assert (rf' = run_section (EntriesReply s term args reply) rf) as ->
      by (unfold run_section; by rewrite H).
    by apply cl_inv_plain.
  - apply cl_inv_spawn; [|by repeat constructor; apply pending_late].
    eapply cl_inv_set; [done|done|]. left. destruct p; simplify_eq/=; done.
  - eapply cl_inv_set; [|exact Hk|by left].
    apply cl_inv_deliver, cl_inv_plain; destruct p; simplify_eq/=; done.
  - apply cl_inv_spawn; [by apply cl_inv_plain|]. by case_if; repeat constructor.
  - apply cl_inv_plain; [done|done|done|]. by destruct s.
  - destruct (ni_node _ _ _ (ci_node _ Hc) _ _ Hi) as (? & ? & _).
    assert (cl_inv (put i (restart rf) c)) as [? He]
      by (eapply cl_inv_put; eauto using restart_lawful, restart_leader).
    split; [done|]. cbn. by apply election_inv_kill.
Qed.

Lemma cl_init_inv : cl_inv cl_init.
Proof.
  split; split; cbn; try set_solver.
  intros i rf Hi%elem_of_list_to_map_2. apply list_elem_of_fmap in Hi as (j & [= -> ->] & Hj).
  apply elem_of_seqZ in Hj. destruct (Make_init_inv (Op:=Op) (SV:=SV) N j) as [Hwf Hd]; [lia|].
  split_and!; try done.
Qed.

Lemma cl_reachable_inv c : cl_reachable c → cl_inv c.
Proof.
  revert c. apply rtc_ind_r; [apply cl_init_inv|]. eauto using cl_step_inv.
Qed.

Lemma cl_step_led c c' : cl_step c c' → led c ⊆ led c'.
Proof.
  intros [l Hstep]. assert (∀ i rf, led c ⊆ led (put i rf c)) as Hput
    by (intros; unfold put; cbn; case_bool_decide; set_solver).
  destruct Hstep; cbn; try done; apply Hput.
Qed.

Lemma cl_steps_led c c' : rtc cl_step c c' → led c ⊆ led c'.
Proof. induction 1 as [|x y z Hxy _ IH]; [done|]. apply cl_step_led in Hxy. set_solver. Qed.

Lemma leader_led c i rf :
  0 ≤ N → cl_reachable c → nodes c !! i = Some rf → state rf = Leader → (currentTerm rf, i) ∈ led c.
Proof.
  intros HN Hc Hi Hl. apply cl_reachable_inv in Hc as [[Hn _ _ _] _].
  by apply (Hn _ _ Hi).
Qed.

(** A term is led by one peer. *)
Lemma led_once c t i j : 0 ≤ N → cl_reachable c → (t, i) ∈ led c → (t, j) ∈ led c → i = j.
Proof.
  intros HN Hc Hi Hj. apply cl_reachable_inv in Hc as [[_ _ Ho Hl] _].
  destruct (Hl _ _ Hi) as (X & HX & HXn & HXv), (Hl _ _ Hj) as (Y & HY & HYn & HYv).
  destruct (majorities_meet X Y (everyone N) N) as (w & HwX & HwY); auto using size_everyone.
  eapply Ho; eauto.
Qed.

(** C11.  Election safety over the whole cluster: whatever RPCs
    are lost, delayed or reordered and whichever peers crash and restart, two
    peers that lead the same term, at the same time or at different times of a
    run, are the same peer. *)
Theorem election_safety c c' i j rfi rfj :
  0 ≤ N → cl_reachable c → rtc cl_step c c' →
  nodes c !! i = Some rfi → nodes c' !! j = Some rfj →
  state rfi = Leader → state rfj = Leader → currentTerm rfi = currentTerm rfj → i = j.
Proof.
  intros HN Hc Hs Hi Hj Hli Hlj Ht.
  assert (cl_reachable c') as Hc' by (unfold cl_reachable in *; by etrans).
  eapply (led_once c' (currentTerm rfi)); [done|done| |].
  - by apply (cl_steps_led c c' Hs), leader_led.
  - rewrite Ht. by apply leader_led.
Qed.

End cluster.

(** Peer 0 of three is elected with the vote of peer 1. *)
Definition elected_run : Cluster (Op:=nat) (SV:=nat) → Prop := λ c,
  cl_reachable 3 c ∧
  ∃ rf, nodes c !! 0 = Some rf ∧ state rf = Leader ∧ currentTerm rf = 1.

Lemma election_run_exists : ∃ c, elected_run c.
Proof.
  eexists. split.
  - unfold cl_reachable.
    eapply rtc_l; [eexists; eapply (cl_tick 3 _ 0); vm_compute; reflexivity|].
    eapply rtc_l; [eexists; eapply (cl_election 3 _ 0); vm_compute; reflexivity|].
    eapply rtc_l; [eexists; eapply (cl_vote_call 3 _ 1); vm_compute; reflexivity|].
    eapply rtc_l; [eexists; eapply (cl_vote_handle 3 _ 1); vm_compute; reflexivity|].
    eapply rtc_l; [eexists; eapply (cl_vote_reply 3 _ 1); vm_compute; reflexivity|].
    eapply rtc_l; [eexists; eapply (cl_vote_count 3 _ 1); vm_compute; reflexivity|].
    apply rtc_refl.
  - eexists. split; [vm_compute; reflexivity|]. split; vm_compute; reflexivity.
Qed.

Lemma election_safety_witness :
  ∃ c, elected_run c ∧
    ∀ j rf, nodes c !! j = Some rf → state rf = Leader → currentTerm rf = 1 → 0 = j.
Proof.
  destruct election_run_exists as (c & Hc & rf & Hrf & Hl & Ht).
  exists c. split; [split; eauto|]. intros j rfj Hj Hlj Htj.
  apply (election_safety 3 c c 0 j rf rfj); try done; congruence.
Defined.
