(* ===== verification/RaftCommands.v ===== *)
(** * Where the commands of the logs come from

    The effect of a step of the cluster on the peers, by its label; every
    command in a log or in a message was given to [Start]; and a cluster
    whose services take no snapshots never compacts a log. *)
From stdpp Require Import base tactics strings numbers relations sets gmap list.
From S2P Require Import Prelude.
From S2P Require Import Labgob.
From S2P Require Import Persister.
From S2P Require Import Raft.
From S2P Require Import RaftFacts.
From S2P Require Import RaftApply.
From S2P Require Import RaftCluster.
Open Scope Z_scope.
Open Scope go_scope.

(** ** One critical section *)
Section sections.
Context {Op SV : Type}.
Implicit Types (rf : Raft Op SV) (s : Section_ Op SV) (e : LogEntry Op).

(** All but the two critical sections that the service runs itself. *)
Definition own_section s : bool :=
  match s with CondInstall _ _ _ | TakeSnapshot _ _ => false | _ => true end.

Definition snap_kept rf rf' : Prop :=
  ReadSnapshot (persister rf') = ReadSnapshot (persister rf) ∧
  lastIncludedIndex rf' = lastIncludedIndex rf.

(** What a log holds after its base entry. *)
Definition tail_of rf : list (LogEntry Op) := drop 1 (logs rf).

(** The entries a critical section brings. *)
Definition section_entries s rf : list (LogEntry Op) :=
  match s with
  | HandleEntries args => aea_Entries args
  | StartCommand command => [mkEntry command (currentTerm rf)]
  | _ => []
  end.

Lemma appendLoop_snap es i rf : snap_kept rf (appendLoop es i rf).
Proof.
  revert i. induction es as [|e es IH]; intros i; cbn [appendLoop]; [done|].
  repeat case_if; done.
Qed.

Lemma AppendEntriesHandler_snap args rf : snap_kept rf (AppendEntriesHandler args rf).1.1.
Proof.
  assert (snap_kept rf (observeLeader (aea_Term args) rf)) as Ho
    by (unfold observeLeader; repeat case_if; done).
  unfold AppendEntriesHandler. set (rf1 := observeLeader _ rf) in *. clearbody rf1.
  case_if; [exact Ho|]. case_if; case_if; try exact Ho.
  - destruct (heartbeatCommit_state args rf1) as (b & k & Hs & _).
    destruct (heartbeatCommit args rf1). cbn in *. by subst.
  - set (rf2 := appendLoop _ _ rf1).
    assert (snap_kept rf1 rf2) as [H1 H2] by apply appendLoop_snap.
    destruct (entriesCommit_state args rf2) as (b & k & Hs & _).
    destruct (entriesCommit args rf2). cbn in *. subst. destruct Ho. split; cbn; congruence.
Qed.

Lemma replicate_append_reply_snap server t args reply rf :
  snap_kept rf (replicate_append_reply server t args reply rf).1.1.
Proof.
  unfold replicate_append_reply. repeat case_if; cbn; try done;
    match goal with |- context [advanceCommitIndexLocked ?r] =>
      destruct (advanceCommit_state r) as (? & ? & Hs & _);
      destruct (advanceCommitIndexLocked r); cbn in Hs; subst; done
    end.
Qed.

Lemma run_section_snap s rf : own_section s = true → snap_kept rf (run_section s rf).
Proof.
  intros Hs. destruct s; cbn; auto using AppendEntriesHandler_snap, replicate_append_reply_snap;
    try done.
  - unfold Election_count. repeat case_if; by cbn.
  - unfold RequestVote_reply. case_if; by cbn.
  - unfold RequestVoteHandle. repeat case_if; by cbn.
  - unfold replicate_snapshot_reply. case_if; by cbn.
  - unfold InstallSnapshot. repeat case_if; by cbn.
  - destruct (apply_resume_state lastSent rf) as (b & k & -> & _). done.
  - unfold Start. case_if; by cbn.
Qed.

Lemma tail_app (l l' : list (LogEntry Op)) e :
  e ∈ drop 1 (l ++ l') → e ∈ drop 1 l ∨ e ∈ l'.
Proof. destruct l as [|x l]; cbn; [intros H; right; by eapply subseteq_drop|by intros ?%elem_of_app]. Qed.

Lemma tail_slice_to (l : list (LogEntry Op)) k e : e ∈ drop 1 (slice_to l k) → e ∈ drop 1 l.
Proof.
  unfold slice_to. destruct (Z.to_nat k) as [|n]; [by intros ?%not_elem_of_nil|].
  destruct l; cbn; [done|]. rewrite !drop_0. intros (j & Hj)%list_elem_of_lookup.
  apply lookup_take_Some in Hj as [Hj _]. by eapply list_elem_of_lookup_2.
Qed.

Lemma tail_slice_from (l : list (LogEntry Op)) k e :
  0 < k → e ∈ slice_from l k → e ∈ drop 1 l.
Proof.
  intros Hk. unfold slice_from. replace (Z.to_nat k) with (1 + (Z.to_nat k - 1))%nat by lia.
  rewrite <- drop_drop. apply subseteq_drop.
Qed.

Lemma appendLoop_entries_in es i rf e :
  e ∈ tail_of (appendLoop es i rf) → e ∈ tail_of rf ∨ e ∈ es.
Proof.
  revert i. induction es as [|x es IH]; intros i; cbn [appendLoop]; [auto|].
  repeat case_if; unfold tail_of; cbn [logs persist update_field].
  - by intros ?%tail_app.
  - intros [?%tail_slice_to|?]%tail_app; auto.
  - intros [?|?]%IH; [by left|right; by apply list_elem_of_further].
Qed.

Lemma AppendEntriesHandler_entries args rf e :
  e ∈ tail_of (AppendEntriesHandler args rf).1.1 → e ∈ tail_of rf ∨ e ∈ aea_Entries args.
Proof.
  assert (logs (observeLeader (aea_Term args) rf) = logs rf) as Ho
    by (unfold observeLeader; repeat case_if; done).
  unfold AppendEntriesHandler. set (rf1 := observeLeader _ rf) in *. clearbody rf1.
  assert (∀ rf2, logs rf2 = logs rf1 → e ∈ tail_of rf2 → e ∈ tail_of rf ∨ e ∈ aea_Entries args)
    as Hsame by (intros rf2 E; unfold tail_of; rewrite E, Ho; by left).
  case_if; [by apply Hsame|]. case_if; case_if; try by apply Hsame.
  - destruct (heartbeatCommit_state args rf1) as (b & k & Hs & _).
    destruct (heartbeatCommit args rf1). cbn in *. apply Hsame. by subst.
  - set (rf2 := appendLoop _ _ rf1). destruct (entriesCommit_state args rf2) as (b & k & Hs & _).
    destruct (entriesCommit args rf2) as [rf3 b3]. cbn in *.
    assert (tail_of rf3 = tail_of rf2) as -> by by subst.
    unfold rf2. intros [?|?]%appendLoop_entries_in; [|by right]. by apply (Hsame rf1).
Qed.

Lemma replicate_append_reply_logs server t args reply rf :
  logs (replicate_append_reply server t args reply rf).1.1 = logs rf.
Proof.
  unfold replicate_append_reply. repeat case_if; cbn; try done;
    match goal with |- context [advanceCommitIndexLocked ?r] =>
      destruct (advanceCommit_state r) as (? & ? & Hs & _);
      destruct (advanceCommitIndexLocked r); cbn in Hs; subst; done
    end.
Qed.

(** A critical section keeps entries, or takes them from its arguments. *)
Lemma run_section_entries s rf e :
  e ∈ tail_of (run_section s rf) → e ∈ tail_of rf ∨ e ∈ section_entries s rf.
Proof.
  assert (∀ rf', logs rf' = logs rf → e ∈ tail_of rf' → e ∈ tail_of rf ∨ e ∈ section_entries s rf)
    as Hsame by (intros rf' E; unfold tail_of; rewrite E; by left).
  assert (∀ rf' x k, 0 < k → logs rf' = [x] ∨ logs rf' = [x] ++ slice_from (logs rf) k →
    e ∈ tail_of rf' → e ∈ tail_of rf) as Hcut.
  { unfold tail_of. intros rf' x k Hk [->| ->]; cbn; [by intros ?%not_elem_of_nil|].
    rewrite drop_0. by apply tail_slice_from. }
  destruct s; cbn [run_section];
    try (apply Hsame; unfold ticker_election, Election, Election_count, RequestVote_reply,
           RequestVoteHandle, replicate_snapshot_reply, InstallSnapshot; repeat case_if; done);
    try (apply Hsame, replicate_append_reply_logs).
  - apply AppendEntriesHandler_entries.
  - apply Hsame. by destruct (apply_resume_state lastSent rf) as (b & k & -> & _).
  - unfold CondInstallSnapshot. case_if; [by left|]. zbool. cbn -[raiseToSnapshot].
    intros He. left. revert He. rewrite raiseToSnapshot_eq.
    eapply (Hcut _ _ (index - lastIncludedIndex rf + 1)); [lia|]. cbn.
    repeat case_match; auto.
  - unfold Snapshot. case_if; [by left|]. zbool. case_match; [|by left].
    intros He. left. revert He. rewrite raiseToSnapshot_eq.
    eapply (Hcut _ _ (index - lastIncludedIndex rf + 1)); [lia|]. cbn. case_if; auto.
  - unfold Start. case_if; [by left|]. unfold tail_of. cbn. apply tail_app.
Qed.
End sections.

(** ** The cluster *)
Section cluster.
Context {Op SV : Type} (N : Z).
Implicit Types (rf : Raft Op SV) (c : Cluster (Op:=Op) (SV:=SV)) (s : Section_ Op SV)
  (p : Proc (Op:=Op) (SV:=SV)) (e : LogEntry Op).

(** The peers after a step. *)
Definition label_nodes (l : Label (Op:=Op) (SV:=SV)) (ns ns' : gmap Z (Raft Op SV)) : Prop :=
  match l with
  | LNone => ns' = ns
  | LRun i s => ∃ rf, ns !! i = Some rf ∧ section_pre s rf ∧ ns' = <[i := run_section s rf]> ns
  | LCrash i => ∃ rf, ns !! i = Some rf ∧ ns' = <[i := restart rf]> ns
  end.

Lemma cl_does_nodes c l c' : cl_does N c l c' → label_nodes l (nodes c) (nodes c').
Proof.
  destruct 1; cbn; try done; try (eexists; split; [done|]; split; [done|]; cbn;
    by repeat match goal with H : _ = _ |- _ => rewrite H; clear H end).
  all: try match goal with H : late_section ?q = _ |- _ => destruct q; simplify_eq/= end.
  all: unfold ticker_election, Election in *; simplify_eq; by eexists.
Qed.

(** The entries a message carries. *)
Definition carries p : list (LogEntry Op) :=
  match p with
  | PAppCall _ _ _ args | PLateApp _ args => aea_Entries args
  | _ => []
  end.

Definition label_command (l : Label (Op:=Op) (SV:=SV)) : option (any Op) :=
  match l with LRun _ (StartCommand command) => Some command | _ => None end.

Section given.
Context (P : any Op → Prop).

Definition all_given (es : list (LogEntry Op)) : Prop := ∀ e, e ∈ es → P (e_Command e).

Record commands_given c : Prop := {
  cg_nodes i rf : nodes c !! i = Some rf → all_given (tail_of rf);
  cg_procs : Forall (λ p, all_given (carries p)) (procs c)
}.

Lemma given_nothing : all_given [].
Proof. by intros e ?%not_elem_of_nil. Qed.

Lemma late_given p : all_given (carries p) → all_given (carries (late p)).
Proof. destruct p; cbn; auto using given_nothing. Qed.

Lemma spawned_given {A} (f : A → Proc (Op:=Op) (SV:=SV)) (l : list A) :
  (∀ x, carries (f x) = []) → Forall (λ p, all_given (carries p)) (f <$> l).
Proof. intros Hf. apply Forall_fmap, Forall_true. intros x. cbn. rewrite Hf. apply given_nothing. Qed.

Lemma prepare_given server term rf rpc :
  all_given (tail_of rf) → raft_wf rf → replicate_prepare server term rf = Some rpc →
  match rpc with SendSnapshot _ => True | SendEntries args => all_given (aea_Entries args) end.
Proof.
  intros Ht Hwf. unfold replicate_prepare. repeat case_if; intros [= <-]; cbn; auto using given_nothing.
  intros e He. apply Ht. unfold tail_of. eapply tail_slice_from, He. zbool. lia.
Qed.

Lemma cl_does_carried c l c' :
  cl_inv N c → cl_does N c l c' → commands_given c → Forall (λ p, all_given (carries p)) (procs c').
Proof.
  intros Hc Hdo [Hn Hp].
  assert (∀ (k : nat) q, all_given (carries q) → Forall (λ p, all_given (carries p)) (<[k := q]> (procs c)))
    as Hset by (intros; by apply Forall_insert).
  destruct Hdo; cbn; rewrite ?Forall_app; split_and?; auto using given_nothing, spawned_given.
  all: try (repeat case_match; cbn; auto using given_nothing, spawned_given; fail).
  - apply Hset. destruct (replicate_prepare s term rf) as [rpc|] eqn:Hr; [|apply given_nothing].
    destruct (ni_node _ _ _ _ (ci_node _ _ Hc) _ _ H0) as (Hwf & _).
    pose proof (prepare_given _ _ _ _ (Hn _ _ H0) Hwf Hr). destruct rpc; [apply given_nothing|done].
  - apply Hset. destruct p; simplify_eq/=; apply given_nothing.
  - repeat constructor. apply late_given. exact (Forall_lookup_1 _ _ _ _ Hp H).
  - apply Forall_fmap. eapply Forall_impl; [exact Hp|]. intros p Hq. cbn.
    case_bool_decide; auto using late_given.
Qed.

(** The entries a critical section of a step brings are those of a message, or
    the command given to [Start]. *)
Lemma cl_does_brings c i s c' rf :
  cl_does N c (LRun i s) c' → nodes c !! i = Some rf →
  (∃ command, label_command (LRun i s) = Some command ∧
     section_entries s rf = [mkEntry command (currentTerm rf)]) ∨
  section_entries s rf = [] ∨
  ∃ p, p ∈ procs c ∧ section_entries s rf = carries p.
Proof.
  intros Hdo Hi. inversion Hdo; subst; cbn; eauto;
    try (right; right; eexists; split; [by eapply list_elem_of_lookup_2|done]).
  - destruct p; simplify_eq/=; eauto. right; right. eexists. split; [by eapply list_elem_of_lookup_2|done].
  - destruct s; simplify_eq/=; eauto.
Qed.

Lemma cl_does_given c l c' :
  cl_inv N c → cl_does N c l c' → (∀ command, label_command l = Some command → P command) →
  commands_given c → commands_given c'.
Proof.
  intros Hc Hdo Hl Hg. split; [|by eapply cl_does_carried].
  pose proof (cl_does_nodes _ _ _ Hdo) as Hns. destruct l as [|j s|j]; cbn [label_nodes] in Hns.
  - rewrite Hns. apply Hg.
  - destruct Hns as (rf0 & Hj & _ & ->). intros i rf [[<- <-]|[_ ?]]%lookup_insert_Some; [|by eapply cg_nodes].
    intros e [He|He]%run_section_entries; [by eapply cg_nodes|].
    destruct (cl_does_brings _ _ _ _ _ Hdo Hj) as [(command & Hc' & E)|[E|(p & Hp & E)]]; rewrite E in He.
    + apply list_elem_of_singleton in He as ->. by apply Hl.
    + by apply not_elem_of_nil in He.
    + exact (proj1 (Forall_forall _ _) (cg_procs _ Hg) p Hp e He).
  - destruct Hns as (rf0 & Hj & ->). intros i rf [[<- <-]|[_ ?]]%lookup_insert_Some; [|by eapply cg_nodes].
    destruct (ni_node _ _ _ _ (ci_node _ _ Hc) _ _ Hj) as (Hwf & Hd & _).
    destruct (restart_persistent _ Hwf Hd) as (_ & _ & _ & _ & El).
    unfold tail_of. rewrite El. by eapply cg_nodes.
Qed.

Lemma cl_init_given : commands_given (cl_init N).
Proof.
  split; [|constructor]. intros i rf Hi%elem_of_list_to_map_2.
  apply list_elem_of_fmap in Hi as (j & [= -> ->] & _). apply given_nothing.
Qed.
End given.

Lemma commands_given_more (P P' : any Op → Prop) c :
  (∀ command, P command → P' command) → commands_given P c → commands_given P' c.
Proof.
  intros HP [Hn Hp]. split.
  - intros i rf Hi e He. by apply HP, (Hn i rf Hi).
  - eapply Forall_impl; [exact Hp|]. intros p Hq e He. by apply HP, Hq.
Qed.

(** ** Without snapshots *)

Definition snapshot_free (l : Label (Op:=Op) (SV:=SV)) : bool :=
  match l with LRun _ s => own_section s | _ => true end.

(** The index of the snapshot in an RPC. *)
Definition snapshot_index p : Z :=
  match p with
  | PSnapCall _ _ _ args | PLateSnap _ args => isa_LastIncludedIndex args
  | _ => 0
  end.

Record uncompacted c : Prop := {
  uc_nodes i rf : nodes c !! i = Some rf →
    lastIncludedIndex rf = 0 ∧ ReadSnapshot (persister rf) = [];
  uc_procs : Forall (λ p, snapshot_index p = 0) (procs c)
}.

Lemma spawned_uncompacted {A} (f : A → Proc (Op:=Op) (SV:=SV)) (l : list A) :
  (∀ x, snapshot_index (f x) = 0) → Forall (λ p, snapshot_index p = 0) (f <$> l).
Proof. intros Hf. by apply Forall_fmap, Forall_true. Qed.

Lemma late_index p : snapshot_index p = 0 → snapshot_index (late p) = 0.
Proof. by destruct p. Qed.

Lemma cl_does_rpcs c l c' :
  cl_does N c l c' → uncompacted c → Forall (λ p, snapshot_index p = 0) (procs c').
Proof.
  intros Hdo [Hn Hp].
  assert (∀ (k : nat) q, snapshot_index q = 0 → Forall (λ p, snapshot_index p = 0) (<[k := q]> (procs c)))
    as Hset by (intros; by apply Forall_insert).
  destruct Hdo; cbn; rewrite ?Forall_app; split_and?; auto using spawned_uncompacted.
  all: try (repeat case_match; cbn; auto using spawned_uncompacted; fail).
  - apply Hset. destruct (Hn _ _ H0) as [Hi _]. unfold replicate_prepare. by repeat case_if.
  - apply Hset. by destruct p; simplify_eq/=.
  - repeat constructor. apply late_index. exact (Forall_lookup_1 _ _ _ _ Hp H).
  - apply Forall_fmap. eapply Forall_impl; [exact Hp|]. intros p Hq. cbn.
    case_bool_decide; auto using late_index.
Qed.

Lemma cl_does_uncompacted c l c' :
  cl_inv N c → cl_does N c l c' → snapshot_free l = true → uncompacted c → uncompacted c'.
Proof.
  intros Hc Hdo Hl Hu. split; [|by eapply cl_does_rpcs].
  pose proof (cl_does_nodes _ _ _ Hdo) as Hns. destruct l as [|j s|j]; cbn [label_nodes] in Hns.
  - rewrite Hns. apply Hu.
  - destruct Hns as (rf0 & Hj & _ & ->).
    intros i rf [[<- <-]|[_ ?]]%lookup_insert_Some; [|by eapply uc_nodes].
    destruct (run_section_snap s rf0 Hl) as [-> ->]. by eapply uc_nodes.
  - destruct Hns as (rf0 & Hj & ->).
    intros i rf [[<- <-]|[_ ?]]%lookup_insert_Some; [|by eapply uc_nodes].
    destruct (ni_node _ _ _ _ (ci_node _ _ Hc) _ _ Hj) as (Hwf & Hd & _).
    destruct (restart_persistent _ Hwf Hd) as (_ & _ & -> & _).
    destruct (Make_volatile (peers rf0) (me rf0) (persister rf0)) as (_ & _ & Hps & _).
    fold (restart rf0) in Hps. rewrite Hps. by eapply uc_nodes.
Qed.

Lemma cl_init_uncompacted : uncompacted (cl_init N).
Proof.
  split; [|constructor]. intros i rf Hi%elem_of_list_to_map_2.
  by apply list_elem_of_fmap in Hi as (j & [= -> ->] & _).
Qed.

(** A snapshot that would be sent to a service is never newer than the log it
    finds. *)
Lemma uncompacted_snapshot c i args c' rf :
  cl_does N c (LRun i (HandleSnapshot args)) c' → uncompacted c → nodes c !! i = Some rf →
  isa_LastIncludedIndex args ≤ lastIncludedIndex rf.
Proof.
  intros Hdo [Hn Hp] Hi. destruct (Hn _ _ Hi) as [-> _]. rewrite Forall_forall in Hp.
  inversion Hdo; subst.
  - match goal with H : procs _ !! _ = Some ?q |- _ =>
      pose proof (Hp q (list_elem_of_lookup_2 _ _ _ H)) as Hz end. cbn in Hz. lia.
  - destruct p; simplify_eq/=.
    match goal with H : procs _ !! _ = Some ?q |- _ =>
      pose proof (Hp q (list_elem_of_lookup_2 _ _ _ H)) as Hz end. cbn in Hz. lia.
  - done.
Qed.
End cluster.
