(* ===== verification/RaftRefine.v ===== *)
(** * The cluster implements the replicated logs of RaftSpec.v

    The abstraction gives every peer the log it would have without
    compaction: what its snapshot replaced, and the log slice after its base
    entry.  Each step of the cluster is matched by at most one step of the
    specification. *)
From stdpp Require Import base tactics list gmap strings numbers relations sets.
From S2P Require Import Prelude.
From S2P Require Import Labgob.
From S2P Require Import Persister.
From S2P Require Import Raft.
From S2P Require Import RaftFacts.
From S2P Require Import RaftSpec.
From S2P Require Import RaftCluster.
Open Scope Z_scope.
Open Scope go_scope.

Section refine.
Context {Op SV : Type} (N : Z).
Implicit Types (rf : Raft Op SV) (l g p pre : list (LogEntry Op)) (A : Spec (Op:=Op)).

(** ** A peer's whole log *)

Definition full_log pre rf : list (LogEntry Op) := pre ++ drop 1 (logs rf).

Definition compacted pre rf : Prop :=
  len pre = lastIncludedIndex rf ∧ lastTerm pre = lastIncludedTerm rf.

Definition view_of pre rf : View :=
  mkView (currentTerm rf) (full_log pre rf) (Z.to_nat (commitIndex rf)) (state rf).

Lemma full_log_len pre rf :
  raft_wf rf → compacted pre rf → len (full_log pre rf) = lastIndex rf.
Proof.
  intros Hwf [Hl _]. pose proof (wf_len _ Hwf). unfold full_log, lastIndex, len in *.
  rewrite length_app, length_drop. lia.
Qed.

(** The entry at position [i] of the slice. *)
Lemma full_log_idx pre rf i :
  compacted pre rf → lastIncludedIndex rf < i →
  full_log pre rf !! Z.to_nat (i - 1) = idx (logs rf) (i - lastIncludedIndex rf).
Proof.
  intros [Hl _] Hi. unfold full_log, len in *. rewrite lookup_app_r by lia. rewrite lookup_drop.
  replace (1 + (Z.to_nat (i - 1) - length pre))%nat with (Z.to_nat (i - lastIncludedIndex rf)) by lia.
  unfold idx. destruct (in_range _ _) eqn:E; [done|]. apply lookup_ge_None_2.
  destruct (decide (0 ≤ i - lastIncludedIndex rf < len (logs rf))) as [Hin|Hin].
  - apply in_range_spec in Hin. congruence.
  - unfold len in Hin. lia.
Qed.

Lemma full_log_entryAt pre rf i :
  compacted pre rf → lastIncludedIndex rf < i →
  entryAt rf i = full_log pre rf !! Z.to_nat (i - 1).
Proof.
  intros Hc Hi. rewrite full_log_idx by done. unfold entryAt.
  by rewrite (proj2 (Z.leb_gt _ _)) by lia.
Qed.

Lemma lastTerm_take l (k : nat) e : l !! k = Some e → lastTerm (take (S k) l) = e_Term e.
Proof. intros Hk. unfold lastTerm. rewrite (take_S_r _ _ _ Hk), last_snoc. done. Qed.

Lemma full_log_termAt pre rf i :
  raft_wf rf → compacted pre rf → lastIncludedIndex rf ≤ i ≤ lastIndex rf →
  termAt rf i = lastTerm (take (Z.to_nat i) (full_log pre rf)).
Proof.
  intros Hwf Hc Hi. pose proof Hc as [Hl Ht]. pose proof (wf_lii _ Hwf).
  destruct (decide (i = lastIncludedIndex rf)) as [->|Hne].
  - rewrite termAt_base, <- Ht. f_equal. unfold full_log, len in *.
    rewrite take_app_length'; [done|lia].
  - destruct (termAt_in rf i) as (e & He & ->); [lia|].
    rewrite <- (full_log_idx pre) in He by (done || lia).
    replace (Z.to_nat i) with (S (Z.to_nat (i - 1))) by lia. by rewrite (lastTerm_take _ _ e).
Qed.

Lemma full_log_last pre rf :
  raft_wf rf → compacted pre rf → termAt rf (lastIndex rf) = lastTerm (full_log pre rf).
Proof.
  intros Hwf Hc. pose proof (wf_lastIndex _ Hwf).
  rewrite (full_log_termAt pre) by (done || lia). f_equal. apply take_ge.
  pose proof (full_log_len _ _ Hwf Hc). unfold len in *. lia.
Qed.

(** ** The abstraction relation *)

Definition snap_ok A (t index term : Z) : Prop :=
  ∃ p, committed N A t p ∧ len p = index ∧ lastTerm p = term.

(** A request for votes is an offer on record. *)
Definition vote_ok A (args : RequestVoteArgs) : Prop :=
  ∃ c, (rva_CandidateID args, rva_Term args, c) ∈ requests A ∧
    rva_LastLogIndex args = len c ∧ rva_LastLogTerm args = lastTerm c ∧
    0 ≤ rva_CandidateID args.

(** An AppendEntries request carries a piece of its leader's log, or nothing a
    peer would accept; its commit index is that of a committed prefix. *)
Definition entries_ok A (args : AppendEntryArgs Op) : Prop :=
  ∃ g, leaderLog A !! aea_Term args = Some g ∧
    (aea_PrevLogTerm args = -1 ∨
     (0 ≤ aea_PrevLogIndex args ≤ len g ∧
      aea_PrevLogTerm args = lastTerm (take (Z.to_nat (aea_PrevLogIndex args)) g) ∧
      aea_Entries args = take (length (aea_Entries args)) (drop (Z.to_nat (aea_PrevLogIndex args)) g))) ∧
    aea_LeaderCommitIndex args ≤ len g ∧
    committed N A (aea_Term args) (take (Z.to_nat (aea_LeaderCommitIndex args)) g).

Definition matched_index (args : AppendEntryArgs Op) : nat :=
  Z.to_nat (aea_PrevLogIndex args + len (aea_Entries args)).

Definition proc_ok A (p : Proc (Op:=Op) (SV:=SV)) : Prop :=
  match p with
  | PVoteCall _ _ _ args | PLateVote _ args => vote_ok A args
  | PSnapCall _ _ _ args | PLateSnap _ args =>
      snap_ok A (isa_Term args) (isa_LastIncludedIndex args) (isa_LastIncludedTerm args)
  | PAppCall _ _ t args => aea_Term args = t ∧ entries_ok A args
  | PLateApp _ args => entries_ok A args
  | PAppReplied _ s t args reply =>
      aea_Term args = t ∧ entries_ok A args ∧
      (aer_Success reply = true → acked A s t (matched_index args))
  | _ => True
  end.

(** What a leader's table says of peer [s]. *)
Definition match_ok A (s : Z) rf : Prop :=
  rd (matchIndex rf) s ≤ lastIncludedIndex rf ∨
  acked A s (currentTerm rf) (Z.to_nat (rd (matchIndex rf) s)).

Record refines (c : Cluster (Op:=Op) (SV:=SV)) A : Prop := {
  rf_node n rf : nodes c !! n = Some rf →
    ∃ pre, compacted pre rf ∧ views A !! n = Some (view_of pre rf);
  rf_votes w t x : (w, t, x) ∈ votes c →
    is_Some (leaderLog A !! t) ∨ ∃ l d, ballots A !! (w, t) = Some (x, l, d);
  rf_ballots w t x l d : ballots A !! (w, t) = Some (x, l, d) → (w, t, x) ∈ votes c;
  rf_led t x : (t, x) ∈ led c ↔ ∃ l, initialLog A !! t = Some (x, l);
  rf_match n rf s : nodes c !! n = Some rf → state rf = Leader → 0 ≤ s < N → s ≠ n →
    match_ok A s rf;
  rf_procs k q : procs c !! k = Some q → proc_ok A q;
  rf_elections eid e : elections c !! eid = Some e →
    1 ≤ el_term (er_vars e) ∧
    ∃ v, views A !! er_src e = Some v ∧ el_term (er_vars e) ≤ v_term v;
  rf_delivered n m : (n, m) ∈ delivered c →
    ∃ v, views A !! n = Some v ∧ snap_ok A (v_term v) (SnapshotIndex m) (SnapshotTerm m)
}.

(** ** The relation along changes of the cluster *)

Lemma snap_ok_grows A A' t t' i tm :
  grows A A' → t ≤ t' → snap_ok A t i tm → snap_ok A' t' i tm.
Proof. intros H Ht (p & ? & ? & ?). exists p. split_and!; try done. by eapply committed_grows. Qed.

Lemma proc_ok_grows A A' (q : Proc) : grows A A' → proc_ok A q → proc_ok A' q.
Proof.
  intros H.
  assert (∀ args, vote_ok A args → vote_ok A' args) as Hv.
  { intros args (c & ? & ? & ? & ?). exists c. split_and!; try done. by apply (gr_request _ _ H). }
  assert (∀ args, entries_ok A args → entries_ok A' args) as He.
  { intros args (g & Hg & Hs & Hlc & Hc). destruct (gr_log _ _ H _ _ Hg) as (g' & Hg' & Hp).
    destruct Hp as [k ->]. exists (g ++ k). split; [done|]. unfold len in *.
    rewrite length_app. split_and!; [|lia|].
    - destruct Hs as [?|(Hb & Ht & Hs)]; [by left|right]. split; [lia|].
      rewrite take_app_le by lia. split; [done|].
      assert (length (aea_Entries args) ≤ length (drop (Z.to_nat (aea_PrevLogIndex args)) g))%nat
        by (rewrite Hs, length_take; lia).
      by rewrite drop_app_le, take_app_le by (done || lia).
    - rewrite take_app_le by lia. by eapply committed_grows. }
  destruct q; cbn; auto; try by (intros; eapply snap_ok_grows).
  - naive_solver.
  - intros (? & ? & ?). split_and!; [done|by apply He|]. intros. eapply acked_grows; eauto.
Qed.

Lemma match_ok_grows A A' s rf : grows A A' → match_ok A s rf → match_ok A' s rf.
Proof. intros H [?|?]; [by left|right]. by eapply acked_grows. Qed.

(** A peer changes, and the history with it. *)
Lemma refines_put c A A' n rf rf' pre' :
  refines c A → nodes c !! n = Some rf → grows A A' →
  views A' = <[n := view_of pre' rf']> (views A) → compacted pre' rf' →
  currentTerm rf ≤ currentTerm rf' →
  (votedFor rf' ≠ -1 → is_Some (leaderLog A' !! currentTerm rf') ∨
     ∃ l d, ballots A' !! (n, currentTerm rf') = Some (votedFor rf', l, d)) →
  (∀ w t x l d, ballots A' !! (w, t) = Some (x, l, d) → ballots A !! (w, t) = Some (x, l, d) ∨
     (votedFor rf' ≠ -1 ∧ w = n ∧ t = currentTerm rf' ∧ x = votedFor rf')) →
  (∀ t x, (∃ l, initialLog A' !! t = Some (x, l)) ↔
     (∃ l, initialLog A !! t = Some (x, l)) ∨ (state rf' = Leader ∧ t = currentTerm rf' ∧ x = n)) →
  (state rf' = Leader → ∀ s, 0 ≤ s < N → s ≠ n → match_ok A' s rf') →
  refines (put n rf' c) A'.
Proof.
  intros HR Hn Hg Hv Hcp Ht Hvote Hbal Hled Hmatch.
  destruct (rf_node _ _ HR _ _ Hn) as (pre & _ & Hvn).
  assert (∀ m v, views A !! m = Some v → ∃ v', views A' !! m = Some v' ∧ v_term v ≤ v_term v') as Hviews.
  { intros m v Hm. rewrite Hv. destruct (decide (n = m)) as [<-|Hne].
    - simplify_eq. eexists. by rewrite lookup_insert_eq.
    - exists v. by rewrite lookup_insert_ne. }
  split.
  - intros m rfm. cbn. rewrite Hv, !lookup_insert. case_decide; [intros [= <-]; eauto|].
    apply (rf_node _ _ HR).
  - intros w t x [Hin|(Hne & -> & -> & ->)]%put_vote_in; [|auto].
    destruct (rf_votes _ _ HR _ _ _ Hin) as [[g Hl]|(l & d & Hb)].
    + left. destruct (gr_log _ _ Hg _ _ Hl) as (g' & -> & _). eauto.
    + right. exists l, d. eapply lookup_weaken; [exact Hb|apply (gr_ballot _ _ Hg)].
  - intros w t x l d Hb. apply put_vote_in.
    destruct (Hbal _ _ _ _ _ Hb) as [Hb'|(? & -> & -> & ->)]; [left|by right].
    by eapply (rf_ballots _ _ HR).
  - intros t x. rewrite put_led_in, Hled, (rf_led _ _ HR). done.
  - intros m rfm s. cbn. rewrite lookup_insert. case_decide; [intros [= <-]; subst; auto|].
    intros Hm Hl ? ?. eapply match_ok_grows; [done|]. by eapply (rf_match _ _ HR).
  - intros k q Hk. eapply proc_ok_grows; [done|]. by eapply (rf_procs _ _ HR).
  - intros eid e He. destruct (rf_elections _ _ HR _ _ He) as (? & v & Hs & ?). split; [done|].
    destruct (Hviews _ _ Hs) as (v' & ? & ?). exists v'. split; [done|lia].
  - intros m msg Hin. destruct (rf_delivered _ _ HR _ _ Hin) as (v & Hm & Hs).
    destruct (Hviews _ _ Hm) as (v' & ? & ?). exists v'. split; [done|].
    eapply snap_ok_grows; [done| |done]. done.
Qed.

Lemma refines_set_proc c A k q : refines c A → proc_ok A q → refines (set_proc k q c) A.
Proof.
  intros [? ? ? ? ? Hp ? ?] Hq. split; try done. intros j r. cbn. intros Hj.
  apply list_lookup_insert_Some in Hj as [(-> & -> & _)|[_ Hj]]; eauto.
Qed.

Lemma refines_spawn c A qs : refines c A → Forall (proc_ok A) qs → refines (spawn qs c) A.
Proof.
  intros [? ? ? ? ? Hp ? ?] Hq. split; try done. intros j r. cbn.
  intros [Hj|[_ Hj]]%lookup_app_Some; [eauto|]. by eapply Forall_lookup.
Qed.

Lemma proc_ok_late A q : proc_ok A q → proc_ok A (late q).
Proof. destruct q; cbn; naive_solver. Qed.

Lemma refines_kill c A i : refines c A → refines (set_procs (kill_procs i) c) A.
Proof.
  intros [? ? ? ? ? Hp ? ?]. split; try done. intros j r. cbn. unfold kill_procs.
  intros Hj. apply list_lookup_fmap_Some in Hj as (q & -> & Hq).
  case_bool_decide; [apply proc_ok_late|]; eauto.
Qed.

Lemma refines_drop c A i : refines c A → refines (drop_delivered i c) A.
Proof.
  intros [? ? ? ? ? ? ? Hd]. split; try done. intros n m. cbn.
  intros [_ ?]%list_elem_of_filter. eauto.
Qed.

Lemma refines_deliver c A i m :
  refines c A →
  (∀ msg, m = Some msg → ∃ v, views A !! i = Some v ∧
     snap_ok A (v_term v) (SnapshotIndex msg) (SnapshotTerm msg)) →
  refines (deliver i m c) A.
Proof.
  intros [? ? ? ? ? ? ? Hd] Hm. split; try done. intros n x. cbn.
  destruct m as [m|]; [|eauto]. intros [[= -> ->]|?]%elem_of_cons; eauto.
Qed.

Lemma refines_elections c A f :
  refines c A →
  (∀ eid e, f (elections c) !! eid = Some e →
     1 ≤ el_term (er_vars e) ∧
     ∃ v, views A !! er_src e = Some v ∧ el_term (er_vars e) ≤ v_term v) →
  refines (c <| elections ::= f |>) A.
Proof. intros [] Hf. by split. Qed.

(** A step of the cluster and the specification's answer. *)
Definition simulates A (c' : Cluster) : Prop :=
  ∃ A', rtc (spec_step N) A A' ∧ grows A A' ∧ refines c' A'.

Lemma simulates_refl A c' : refines c' A → simulates A c'.
Proof. intros. exists A. split_and!; [done|apply grows_refl|done]. Qed.

Lemma simulates_step A A' c' :
  spec_step N A A' → grows A A' → refines c' A' → simulates A c'.
Proof. intros. exists A'. split_and!; [by apply rtc_once|done|done]. Qed.

Lemma simulates_then A c c' :
  simulates A c → (∀ A', grows A A' → refines c A' → refines c' A') → simulates A c'.
Proof. intros (A' & ? & ? & ?) Hi. exists A'. auto. Qed.

(** ** Sections the specification does not see

    The log stays, the vote is kept or withdrawn, the term may rise and
    leadership may end. *)
Definition unseen rf rf' : Prop :=
  logs rf' = logs rf ∧ lastIncludedIndex rf' = lastIncludedIndex rf ∧
  lastIncludedTerm rf' = lastIncludedTerm rf ∧ commitIndex rf' ≤ commitIndex rf ∧
  currentTerm rf ≤ currentTerm rf' ∧
  (state rf' = Follower ∨ (state rf' = state rf ∧ currentTerm rf' = currentTerm rf)) ∧
  (votedFor rf' = -1 ∨ (votedFor rf' = votedFor rf ∧ currentTerm rf' = currentTerm rf)).

Lemma unseen_refl rf : unseen rf rf.
Proof. split_and!; auto; lia. Qed.

Lemma node_vote c A n rf rf' :
  refines c A → cl_inv N c → nodes c !! n = Some rf →
  votedFor rf' = -1 ∨ (votedFor rf' = votedFor rf ∧ currentTerm rf' = currentTerm rf) →
  votedFor rf' ≠ -1 → is_Some (leaderLog A !! currentTerm rf') ∨
     ∃ l d, ballots A !! (n, currentTerm rf') = Some (votedFor rf', l, d).
Proof.
  intros HR Hc Hn [?|[-> ->]] Hne; [done|]. apply (rf_votes _ _ HR).
  by apply (ni_node _ _ _ _ (ci_node _ _ Hc) _ _ Hn).
Qed.

Lemma node_led c A n rf rf' :
  refines c A → cl_inv N c → nodes c !! n = Some rf →
  leader_le rf rf' →
  ∀ t x, (∃ l, initialLog A !! t = Some (x, l)) ↔
     (∃ l, initialLog A !! t = Some (x, l)) ∨ (state rf' = Leader ∧ t = currentTerm rf' ∧ x = n).
Proof.
  intros HR Hc Hn Hl t x. split; [by left|]. intros [?|(Hs & -> & ->)]; [done|].
  destruct (Hl Hs) as [? ->]. apply (rf_led _ _ HR).
  by apply (ni_node _ _ _ _ (ci_node _ _ Hc) _ _ Hn).
Qed.

Lemma unseen_leader rf rf' : unseen rf rf' → leader_le rf rf'.
Proof. intros (_ & _ & _ & _ & _ & [E|[E E2]] & _) Hs; [congruence|]. split; congruence. Qed.

Lemma unseen_simulates c A n rf rf' :
  refines c A → cl_inv N c → nodes c !! n = Some rf → unseen rf rf' →
  (state rf' = Leader → ∀ s, 0 ≤ s < N → s ≠ n → match_ok A s rf') →
  simulates A (put n rf' c).
Proof.
  intros HR Hc Hn Hq Hm. pose proof (unseen_leader _ _ Hq) as Hl.
  destruct Hq as (El & Ei & Et & Hk & Ht & Hs & Hv).
  destruct (rf_node _ _ HR _ _ Hn) as (pre & [Hp1 Hp2] & Hvn).
  apply (simulates_step _ (set_view n (view_of pre rf') A)).
  - eapply sp_adopt; [exact Hvn|done| |cbn; lia|done]. cbn. unfold full_log. by rewrite El.
  - apply set_view_grows.
  - apply (refines_put c A _ n rf rf' pre); try done.
    + apply set_view_grows.
    + split; congruence.
    + by apply (node_vote c A n rf).
    + by left.
    + by apply (node_led c A n rf).
Qed.

Lemma stepDown_unseen t rf : currentTerm rf ≤ t → unseen rf (stepDown t rf).
Proof. intros. split_and!; cbn; auto; lia. Qed.

Lemma unseen_trans rf1 rf2 rf3 : unseen rf1 rf2 → unseen rf2 rf3 → unseen rf1 rf3.
Proof.
  intros (? & ? & ? & ? & ? & Hs & Hv) (? & ? & ? & ? & ? & Hs' & Hv').
  split_and!; try congruence; try lia.
  - destruct Hs' as [?|[? ?]]; [by left|]. destruct Hs as [?|[? ?]]; [left|right]; split || idtac; congruence.
Qed.

Ltac unseen_easy := split_and!; cbn in *; zbool; auto; lia.

Lemma observeLeader_unseen t rf : unseen rf (observeLeader t rf).
Proof. unfold observeLeader. repeat case_if; unseen_easy. Qed.

(** Critical sections that are quiet and leave the leader's tables alone. *)
Definition unseen_section (s : Section_ Op SV) : bool :=
  match s with
  | TickElection | VoteReply _ | HandleSnapshot _ | SnapshotSent | ResumeApply _ | KillPeer => true
  | _ => false
  end.

Lemma unseen_section_unseen s rf :
  unseen_section s = true →
  unseen rf (run_section s rf) ∧ matchIndex (run_section s rf) = matchIndex rf.
Proof.
  intros Hs. destruct s; try done; cbn.
  - by split; [unseen_easy|].
  - unfold RequestVote_reply. case_if; split; try done; unseen_easy.
  - unfold InstallSnapshot. repeat case_if; split; try done; unseen_easy.
  - by split; [unseen_easy|].
  - destruct (apply_resume_state lastSent rf) as (b & k & -> & _). by split; [unseen_easy|].
  - by split; [unseen_easy|].
Qed.

Lemma restart_unseen rf : raft_wf rf → durable rf → unseen rf (restart rf).
Proof.
  intros Hwf Hd. destruct (restart_persistent rf Hwf Hd) as (? & ? & Hi & ? & ?).
  destruct (Make_volatile (peers rf) (me rf) (persister rf)) as (_ & _ & _ & ? & _ & _ & Hc & Ha).
  fold (restart rf) in *. pose proof (wf_lii _ Hwf). pose proof (wf_applied _ Hwf).
  pose proof (wf_commit _ Hwf). split_and!; auto; lia.
Qed.

Lemma match_kept c A n rf rf' :
  refines c A → nodes c !! n = Some rf → unseen rf rf' → matchIndex rf' = matchIndex rf →
  state rf' = Leader → ∀ s, 0 ≤ s < N → s ≠ n → match_ok A s rf'.
Proof.
  intros HR Hn (_ & Hi & _ & _ & _ & Hs & _) Hm Hl s Hin Hne.
  destruct Hs as [?|[Hs Ht]]; [congruence|]. unfold match_ok. rewrite Hm, Hi, Ht.
  apply (rf_match _ _ HR n rf); congruence.
Qed.

Lemma unseen_section_simulates c A n rf s :
  refines c A → cl_inv N c → nodes c !! n = Some rf → unseen_section s = true →
  simulates A (put n (run_section s rf) c).
Proof.
  intros HR Hc Hn Hs. destruct (unseen_section_unseen s rf Hs).
  eapply unseen_simulates; eauto. by eapply match_kept.
Qed.

(** ** Votes *)

Definition stepUp (t : Z) rf : Raft Op SV := if currentTerm rf <? t then stepDown t rf else rf.

Lemma stepUp_unseen t rf : unseen rf (stepUp t rf).
Proof. unfold stepUp. case_if; zbool; [apply stepDown_unseen; lia|apply unseen_refl]. Qed.

Lemma RequestVoteHandle_cases args rf :
  let rf' := (RequestVoteHandle args rf).1 in
  (unseen rf rf' ∧ matchIndex rf' = matchIndex rf) ∨
  (currentTerm rf ≤ rva_Term args ∧ upToDate args rf = true ∧
   (currentTerm rf = rva_Term args → votedFor rf = -1 ∨ votedFor rf = rva_CandidateID args) ∧
   rf' = persist (resetElectionTimer
           ((stepUp (rva_Term args) rf) <| votedFor := rva_CandidateID args |>))).
Proof.
  unfold RequestVoteHandle. fold (stepUp (rva_Term args) rf).
  assert (upToDate args (stepUp (rva_Term args) rf) = upToDate args rf) as ->
    by (unfold stepUp; by case_if).
  case_if; [by left; split; [apply unseen_refl|]|]. zbool.
  case_if; [right|left; split; [apply stepUp_unseen|by unfold stepUp; case_if]].
  apply andb_true_iff in E0 as [Hv Hu]. split_and!; [lia|done|intros Heq|done].
  unfold stepUp in Hv. rewrite (proj2 (Z.ltb_ge _ _)) in Hv by lia.
  apply orb_true_iff in Hv as [Hv|Hv]; zbool; auto.
Qed.

Lemma upToDate_newer args rf pre c :
  raft_wf rf → compacted pre rf → upToDate args rf = true →
  rva_LastLogIndex args = len c → rva_LastLogTerm args = lastTerm c →
  at_least_as_new c (full_log pre rf).
Proof.
  intros Hwf Hcp Hu Hi Ht. unfold upToDate in Hu.
  rewrite (full_log_last pre), <- (full_log_len pre), Hi, Ht in Hu by done.
  unfold at_least_as_new, len in *. apply orb_true_iff in Hu as [Hu|Hu]; zbool; [left; lia|right; lia].
Qed.

(** A recorded vote does not contradict one on record. *)
Lemma record_vote_ballots A w t x l d v' :
  (∀ y l' d', ballots A !! (w, t) = Some (y, l', d') → y = x) →
  let A' := record_vote w t x l d (set_view w v' A) in
  views A' = <[w := v']> (views A) ∧ initialLog A' = initialLog A ∧
  (is_Some (leaderLog A' !! t) ∨ ∃ l d, ballots A' !! (w, t) = Some (x, l, d)) ∧
  (∀ w' t' x' l' d', ballots A' !! (w', t') = Some (x', l', d') →
     ballots A !! (w', t') = Some (x', l', d') ∨ (w' = w ∧ t' = t ∧ x' = x)).
Proof.
  intros Hsame. unfold record_vote. cbn.
  destruct (leaderLog A !! t) as [g|] eqn:El.
  { split_and!; auto. }
  destruct (ballots A !! (w, t)) as [[[y l'] d']|] eqn:Eb; cbn.
  { split_and!; auto. right. rewrite Eb. rewrite (Hsame _ _ _ eq_refl). eauto. }
  split_and!; auto.
  - right. rewrite lookup_insert_eq. eauto.
  - intros w' t' x' l0 d0 [[[= <- <-] [= <- <- <-]]|[_ ?]]%lookup_insert_Some; auto.
Qed.

Lemma ballot_vote c A w rf t x l d :
  refines c A → cl_inv N c → nodes c !! w = Some rf → ballots A !! (w, t) = Some (x, l, d) →
  t ≤ currentTerm rf ∧ x ≠ -1 ∧ (t = currentTerm rf → votedFor rf = x).
Proof.
  intros HR Hc Hw Hb. apply (rf_ballots _ _ HR) in Hb.
  destruct (ni_vote _ _ _ _ (ci_node _ _ Hc) _ _ _ Hb) as (rf0 & ? & ? & ? & ?). by simplify_eq.
Qed.

Lemma vote_simulates c A n rf args :
  0 ≤ N → refines c A → spec_inv N A → cl_inv N c → nodes c !! n = Some rf →
  vote_ok A args →
  simulates A (put n (RequestVoteHandle args rf).1 c).
Proof.
  intros HN HR HA Hc Hn (d & Hin & Hi & Ht & Hcand).
  destruct (RequestVoteHandle_cases args rf) as [[Hq Hm]|(Hle & Hup & Hvoted & ->)].
  { eapply unseen_simulates; eauto. by eapply match_kept. }
  destruct (ni_node _ _ _ _ (ci_node _ _ Hc) _ _ Hn) as (Hwf & _).
  destruct (rf_node _ _ HR _ _ Hn) as (pre & Hcp & Hvn).
  set (x := rva_CandidateID args) in *. set (t := rva_Term args) in *.
  set (rf' := persist _). pose proof (stepUp_unseen t rf) as Hq.
  assert (currentTerm rf' = t) as Ht'.
  { subst rf'. cbn. unfold stepUp. case_if; zbool; [done|lia]. }
  assert (view_of pre rf' = (view_of pre rf) <| v_term := t |>
            <| v_role ::= λ r, if bool_decide (currentTerm rf < t) then Follower else r |>) as Hview.
  { subst rf'. unfold view_of, stepUp. destruct (currentTerm rf <? t) eqn:E; zbool; cbn.
    - by rewrite bool_decide_eq_true_2 by lia.
    - assert (t = currentTerm rf) as -> by lia. by rewrite bool_decide_eq_false_2 by lia. }
  set (A' := record_vote n t x (full_log pre rf) d (set_view n (view_of pre rf') A)).
  destruct (record_vote_ballots A n t x (full_log pre rf) d (view_of pre rf'))
    as (Hv & Hinit & Hvote & Hball).
  { intros y l' d' Hb. destruct (ballot_vote _ _ _ _ _ _ _ _ HR Hc Hn Hb) as (? & ? & Hy).
    destruct Hvoted as [Hv|Hv]; [lia| |]; rewrite Hy in Hv by lia; congruence. }
  fold A' in Hv, Hinit, Hvote, Hball.
  assert (spec_step N A A') as Hstep.
  { unfold A'. rewrite Hview. apply (sp_vote N A n (view_of pre rf) x t d); try done.
    by eapply upToDate_newer. }
  assert (grows A A') as Hg by (by apply (spec_step_grows N)).
  apply (simulates_step A A'); [done|done|].
  apply (refines_put c A A' n rf rf' pre); try done.
  - destruct Hq as (El & Ei & Et & _), Hcp. split; cbn; congruence.
  - by rewrite Ht'.
  - by rewrite Ht'.
  - intros w' t' x' l' d' Hb. destruct (Hball _ _ _ _ _ Hb) as [?|(-> & -> & ->)]; [by left|right].
    rewrite Ht'. split_and!; try done. change (x ≠ -1). lia.
  - rewrite Hinit. apply (node_led c A n rf); try done. intros Hs. cbn in *.
    unfold stepUp in *. case_if; done.
  - intros Hl. unfold rf', stepUp in Hl |- *. case_if; [done|]. intros s ? ?.
    apply (rf_match _ _ HR n rf) with (s := s) in Hl; try done.
    eapply match_ok_grows; [exact Hg|]. done.
Qed.

Lemma election_simulates c A n rf :
  0 ≤ N → refines c A → spec_inv N A → cl_inv N c → nodes c !! n = Some rf →
  simulates A (put n (Election rf).1 c).
Proof.
  intros HN HR HA Hc Hn.
  destruct (ni_node _ _ _ _ (ci_node _ _ Hc) _ _ Hn) as (Hwf & _ & _ & Hme & _).
  pose proof (wf_peers _ Hwf).
  destruct (rf_node _ _ HR _ _ Hn) as (pre & Hcp & Hvn).
  set (rf' := (Election rf).1). set (l := full_log pre rf).
  set (A' := record_vote n (currentTerm rf + 1) n l l (set_view n (view_of pre rf') A)).
  destruct (record_vote_ballots A n (currentTerm rf + 1) n l l (view_of pre rf'))
    as (Hv & Hinit & Hvote & Hball).
  { intros y l' d' Hb. destruct (ballot_vote _ _ _ _ _ _ _ _ HR Hc Hn Hb). lia. }
  fold A' in Hv, Hinit, Hvote, Hball.
  assert (spec_step N A A') as Hstep by (by apply (sp_election N A n (view_of pre rf))).
  assert (grows A A') as Hg by (by apply (spec_step_grows N)).
  apply (simulates_step A A'); [done|done|].
  apply (refines_put c A A' n rf rf' pre); try done; cbn; rewrite ?Hme; try done; try lia.
  - intros w t x l' d' Hb. destruct (Hball _ _ _ _ _ Hb) as [?|(-> & -> & ->)]; [by left|right].
    split_and!; (done || lia).
  - intros t x. rewrite Hinit. split; [by left|]. by intros [?|(? & _)].
Qed.

(** ** Winning an election *)

Lemma rd_replicate n v i : 0 ≤ i < n → rd (replicate (Z.to_nat n) v) i = v.
Proof.
  intros Hi. unfold rd, idx. rewrite (proj2 (in_range_spec _ _)).
  - rewrite lookup_replicate_2 by lia. done.
  - unfold len. rewrite length_replicate. lia.
Qed.

Lemma becomeLeader_simulates c A n rf :
  0 ≤ N → refines c A → spec_inv N A → cl_inv N c → nodes c !! n = Some rf →
  state rf = Candidate → 1 ≤ currentTerm rf → elected N (votes c) (currentTerm rf) n →
  simulates A (put n (becomeLeader rf) c).
Proof.
  intros HN HR HA Hc Hn Hst Ht (Q & HQ & HQn & HQv).
  destruct (rf_node _ _ HR _ _ Hn) as (pre & Hcp & Hvn).
  set (t := currentTerm rf) in *. set (rf' := becomeLeader rf).
  assert (leaderLog A !! t = None) as Hno.
  { destruct (leaderLog A !! t) as [g|] eqn:Hg; [|done].
    destruct (i_log _ _ HA _ _ Hg) as (_ & _ & _ & x & l & Hl & _).
    assert ((t, x) ∈ led c) as Hin by (apply (rf_led _ _ HR); eauto).
    destruct (ni_led _ _ _ _ (ci_node _ _ Hc) _ _ Hin) as (X & HX & HXn & HXv).
    destruct (majorities_meet Q X (everyone N) N) as (w & Hw & Hw'); auto using size_everyone.
    assert (x = n) as ->
      by (eapply (ni_once _ _ _ _ (ci_node _ _ Hc)); [by apply HXv|by apply HQv]).
    destruct (i_init _ _ HA _ _ _ Hl) as (_ & (v & Hv & _ & Hr) & _). simplify_eq.
    by destruct (Hr eq_refl). }
  set (A' := add_ack n t (length (full_log pre rf))
    (set_view n (view_of pre rf') A
       <| leaderLog ::= <[t := full_log pre rf]> |>
       <| initialLog ::= <[t := (n, full_log pre rf)]> |>)).
  assert (spec_step N A A') as Hstep.
  { apply (sp_elect N A n (view_of pre rf) Q); try done.
    intros w Hw. destruct (rf_votes _ _ HR _ _ _ (HQv w Hw)) as [[g Hg]|?]; [|done].
    congruence. }
  assert (grows A A') as Hg by (by apply (spec_step_grows N)).
  apply (simulates_step A A'); [done|done|].
  apply (refines_put c A A' n rf rf' pre); try done.
  - intros _. left. exists (full_log pre rf). apply lookup_insert_eq.
  - by left.
  - intros u x.
    assert (initialLog A' = <[t := (n, full_log pre rf)]> (initialLog A)) as -> by done. split.
    + intros [l [[<- [= <- <-]]|[_ ?]]%lookup_insert_Some]; [by right|left; eauto].
    + intros [[l Hl]|(_ & -> & ->)].
      * exists l. rewrite lookup_insert_ne; [done|]. intros <-.
        destruct (i_init _ _ HA _ _ _ Hl) as [[g Hg'] _]. congruence.
      * exists (full_log pre rf). apply lookup_insert_eq.
  - intros _ s Hs Hne. left. cbn.
    destruct (ni_node _ _ _ _ (ci_node _ _ Hc) _ _ Hn) as (Hwf & _ & HpN & Hme & _).
    pose proof (wf_peers _ Hwf). rewrite rd_wr_ne by lia. by rewrite rd_replicate by lia.
Qed.

(** ** Appending a command *)

Lemma full_log_snoc pre rf e rf' :
  raft_wf rf → logs rf' = logs rf ++ [e] → full_log pre rf' = full_log pre rf ++ [e].
Proof.
  intros Hwf%wf_len Hl. unfold full_log, len in *. rewrite Hl, drop_app_le by lia. by rewrite app_assoc.
Qed.

Lemma start_simulates c A n rf command :
  0 ≤ N → refines c A → spec_inv N A → cl_inv N c → nodes c !! n = Some rf →
  simulates A (put n (Start command rf).1 c).
Proof.
  intros HN HR HA Hc Hn. unfold Start.
  case_if.
  { apply (unseen_simulates c A n rf); auto using unseen_refl.
    apply (match_kept c A n rf); auto using unseen_refl. }
  zbool.
  destruct (ni_node _ _ _ _ (ci_node _ _ Hc) _ _ Hn) as (Hwf & _).
  destruct (rf_node _ _ HR _ _ Hn) as (pre & Hcp & Hvn).
  set (e := mkEntry command (currentTerm rf)). set (rf' := persist _).
  pose proof (full_log_snoc pre rf e rf' Hwf eq_refl) as Hlog.
  set (A' := add_ack n (currentTerm rf) (S (length (full_log pre rf)))
    (set_view n (view_of pre rf') A
       <| leaderLog ::= <[currentTerm rf := full_log pre rf ++ [e]]> |>)).
  assert (spec_step N A A') as Hstep.
  { pose proof (sp_append N A n (view_of pre rf) e Hvn E eq_refl) as Hs.
    unfold A'. replace (view_of pre rf') with ((view_of pre rf) <| v_log ::= λ l, l ++ [e] |>); [done|].
    unfold view_of. by rewrite Hlog. }
  assert (grows A A') as Hg by (by apply (spec_step_grows N)).
  apply (simulates_step A A'); [done|done|].
  apply (refines_put c A A' n rf rf' pre); try done.
  - intros Hv. left. exists (full_log pre rf ++ [e]). apply lookup_insert_eq.
  - by left.
  - by apply (node_led c A n rf).
  - intros _ s Hs Hne. eapply match_ok_grows; [exact Hg|].
    by apply (rf_match _ _ HR n rf s).
Qed.

(** ** Snapshots *)

Lemma full_log_compact pre rf (i : nat) es rf' :
  compacted pre rf → lastIncludedIndex rf < Z.of_nat i →
  logs rf' = es :: drop (S (i - Z.to_nat (lastIncludedIndex rf))) (logs rf) →
  full_log (take i (full_log pre rf)) rf' = full_log pre rf.
Proof.
  intros [Hl _] Hi Hlogs. rewrite <- (take_drop i (full_log pre rf)) at 2.
  unfold full_log at 1. rewrite Hlogs. cbn [drop]. f_equal.
  rewrite drop_0. unfold full_log, len in *. rewrite drop_app_ge, drop_drop by lia. f_equal. lia.
Qed.

(** The log after compaction at [i], as [Snapshot] and [CondInstallSnapshot]
    write it. *)
Definition compactTo (i t : Z) (es : list (LogEntry Op)) (snap : list SV) rf : Raft Op SV :=
  saveStateAndSnapshot snap (raiseToSnapshot
    (rf <| logs := mkEntry NoneCommand t :: es |> <| lastIncludedIndex := i |>
        <| lastIncludedTerm := t |>)).

Lemma compactTo_view pre i t es snap rf :
  view_of pre (compactTo i t es snap rf) =
  mkView (currentTerm rf) (pre ++ es) (Z.to_nat (Z.max (commitIndex rf) i)) (state rf).
Proof. unfold compactTo. rewrite raiseToSnapshot_eq. done. Qed.

Lemma compactTo_compacted pre i t es snap rf :
  len pre = i → lastTerm pre = t → compacted pre (compactTo i t es snap rf).
Proof. unfold compactTo. by rewrite raiseToSnapshot_eq. Qed.

Lemma compactTo_same i t es snap rf :
  let rf' := compactTo i t es snap rf in
  matchIndex rf' = matchIndex rf ∧ lastIncludedIndex rf' = i ∧ currentTerm rf' = currentTerm rf ∧
  votedFor rf' = votedFor rf ∧ state rf' = state rf.
Proof. unfold compactTo. by rewrite raiseToSnapshot_eq. Qed.

Lemma slice_from_if {B} (x : B) (l : list B) i :
  (if i <? len l then [x] ++ slice_from l i else [x]) = x :: slice_from l i.
Proof.
  case_if; [done|]. zbool. unfold slice_from, len in *. by rewrite drop_ge by lia.
Qed.

(** What compaction keeps of a peer but for its log. *)
Lemma compactTo_put c A A' n rf i t es snap pre :
  refines c A → cl_inv N c → nodes c !! n = Some rf → grows A A' →
  lastIncludedIndex rf < i →
  ballots A' = ballots A → initialLog A' = initialLog A →
  views A' = <[n := view_of pre (compactTo i t es snap rf)]> (views A) →
  len pre = i → lastTerm pre = t → refines (put n (compactTo i t es snap rf) c) A'.
Proof.
  intros HR Hc Hn Hg Hi Hb Hl Hv Hp1 Hp2.
  destruct (compactTo_same i t es snap rf) as (Hm & Hli & Ht & Hvf & Hs).
  set (rf' := compactTo i t es snap rf) in *.
  apply (refines_put c A A' n rf rf' pre); try done.
  - by apply compactTo_compacted.
  - lia.
  - intros Hne. rewrite Hb. destruct (node_vote c A n rf rf' HR Hc Hn) as [[g Hg']|?]; auto.
    left. destruct (gr_log _ _ Hg _ _ Hg') as (g' & -> & _). eauto.
  - intros *. rewrite Hb. by left.
  - rewrite Hl. apply (node_led c A n rf); try done. intros ?. split; congruence.
  - intros Hlead s ? ?. rewrite Hs in Hlead. unfold match_ok. rewrite Hm, Hli, Ht.
    destruct (rf_match _ _ HR n rf s) as [?|?]; try done; [left; lia|right].
    by eapply acked_grows.
Qed.

Lemma Snapshot_simulates c A n rf index snap :
  refines c A → spec_inv N A → cl_inv N c → nodes c !! n = Some rf →
  simulates A (put n (Snapshot index snap rf) c).
Proof.
  intros HR HA Hc Hn. apply simulates_refl.
  destruct (rf_node _ _ HR _ _ Hn) as (pre & Hcp & Hvn).
  assert (refines (put n rf c) A) as Hsame.
  { apply (refines_put c A A n rf rf pre); try done; [apply grows_refl|by rewrite insert_id|..].
    - by apply (node_vote c A n rf); auto.
    - by left.
    - by apply (node_led c A n rf).
    - intros ? s ? ?. by apply (rf_match _ _ HR n rf). }
  unfold Snapshot. case_if; [done|]. zbool.
  destruct (idx (logs rf) _) as [e|] eqn:He; [|done]. rewrite slice_from_if.
  assert (slice_from (logs rf) (index - lastIncludedIndex rf + 1) =
    drop (S (Z.to_nat index - Z.to_nat (lastIncludedIndex rf))) (logs rf)) as ->.
  { unfold slice_from. f_equal. pose proof Hcp as [? _]. unfold len in *. lia. }
  set (es := drop _ _). fold (compactTo index (e_Term e) es snap rf).
  pose proof He as He'. rewrite <- (full_log_idx pre) in He' by (done || lia).
  set (p := take (Z.to_nat index) (full_log pre rf)).
  assert (0 < index) by (destruct Hcp; unfold len in *; lia).
  assert (full_log p (compactTo index (e_Term e) es snap rf) = full_log pre rf) as Hfull.
  { apply (full_log_compact _ _ _ (mkEntry NoneCommand (e_Term e))); [done|lia|].
    unfold compactTo. by rewrite raiseToSnapshot_eq. }
  apply (compactTo_put c A A n rf _ _ _ _ p); try done; [apply grows_refl| | |].
  - rewrite insert_id; [done|]. rewrite Hvn. f_equal. pose proof (compactTo_view p index (e_Term e) es snap rf) as Hview.
    unfold view_of in Hview at 1. rewrite Hfull in Hview. unfold view_of at 2.
    rewrite Hfull, Hview. unfold view_of. injection Hview. intros. f_equal; try done. f_equal; lia.
  - apply lookup_lt_Some in He'. unfold p, len. rewrite length_take. lia.
  - unfold p. replace (Z.to_nat index) with (S (Z.to_nat (index - 1))) by lia. by apply lastTerm_take.
Qed.

(** [CondInstallSnapshot] keeps what follows an entry of the snapshot's term
    at the snapshot's index. *)
Lemma CondInstallSnapshot_eq tm i snap rf :
  lastIncludedIndex rf < i →
  (CondInstallSnapshot tm i snap rf).1 =
  compactTo i tm (match idx (logs rf) (i - lastIncludedIndex rf) with
                  | Some e => if e_Term e =? tm
                              then slice_from (logs rf) (i - lastIncludedIndex rf + 1) else []
                  | None => []
                  end) snap rf.
Proof.
  intros Hi. unfold CondInstallSnapshot. rewrite (proj2 (Z.leb_gt _ _)) by lia.
  destruct (idx (logs rf) _) as [e|]; [|done]. destruct (e_Term e =? tm); [|done]. cbn [andb].
  rewrite slice_from_if. done.
Qed.

Lemma committed_genuine A t p :
  spec_inv N A → committed N A t p → genuine A p.
Proof.
  intros HA [->|(u & i & _ & Hc & Hp)]; [apply genuine_nil|].
  destruct (chosen_log _ _ _ _ Hc) as (g & Hg & _). destruct (i_log _ _ HA _ _ Hg) as (_ & Hgg & _).
  eapply (genuine_prefix A p g); [|done]. etrans; [exact Hp|]. by apply upto_prefix.
Qed.

Lemma install_log A pre p rf tm i :
  spec_inv N A → committed N A (currentTerm rf) p → len p = i → lastTerm p = tm →
  compacted pre rf → lastIncludedIndex rf < i → genuine A (full_log pre rf) →
  let l' := p ++ match idx (logs rf) (i - lastIncludedIndex rf) with
                 | Some e => if e_Term e =? tm
                             then slice_from (logs rf) (i - lastIncludedIndex rf + 1) else []
                 | None => []
                 end in
  (p `prefix_of` full_log pre rf ∧ l' = full_log pre rf) ∨
  (¬ p `prefix_of` full_log pre rf ∧ l' = p).
Proof.
  intros HA Hp Hlen Htm Hcp Hi Hgen. cbn zeta. rewrite <- (full_log_idx pre) by (done || lia).
  set (l := full_log pre rf) in *. pose proof (committed_genuine _ _ _ HA Hp) as Hgp.
  assert (0 < i) by (destruct Hcp; unfold len in *; lia).
  assert (p ≠ []) as Hne by (intros ->; unfold len in Hlen; cbn in Hlen; lia).
  destruct (lastTerm_Some p Hne) as (ep & Hep & Hept).
  replace (pred (length p)) with (Z.to_nat (i - 1)) in Hep by (unfold len in *; lia).
  destruct (l !! Z.to_nat (i - 1)) as [e|] eqn:He.
  - destruct (e_Term e =? tm) eqn:E; zbool.
    + left. assert (take (S (Z.to_nat (i - 1))) l = p) as Ht.
      { rewrite (genuine_match A l p _ e ep) by (done || congruence).
        apply take_ge. unfold len in *. lia. }
      assert (slice_from (logs rf) (i - lastIncludedIndex rf + 1) = drop (S (Z.to_nat (i - 1))) l) as ->.
      { unfold slice_from, l, full_log. destruct Hcp as [Hl _]. unfold len in *.
        rewrite drop_app_ge, drop_drop by lia. f_equal. lia. }
      rewrite <- Ht at 1 2. rewrite take_drop. split; [apply prefix_take|done].
    + right. rewrite app_nil_r. split; [|done]. intros Hpl.
      pose proof (prefix_lookup_Some _ _ _ _ Hep Hpl). congruence.
  - right. rewrite app_nil_r. split; [|done]. intros Hpl.
    pose proof (prefix_lookup_Some _ _ _ _ Hep Hpl). congruence.
Qed.

Lemma CondInstall_simulates c A n rf tm i snap :
  0 ≤ N → refines c A → spec_inv N A → cl_inv N c → nodes c !! n = Some rf →
  (n, snapshotMsg snap tm i) ∈ delivered c →
  simulates A (put n (CondInstallSnapshot tm i snap rf).1 c).
Proof.
  intros HN HR HA Hc Hn Hin. destruct (rf_node _ _ HR _ _ Hn) as (pre & Hcp & Hvn).
  destruct (rf_delivered _ _ HR _ _ Hin) as (v & Hv & p & Hp & Hlen & Htm). cbn in Hlen, Htm.
  rewrite Hvn in Hv. injection Hv as <-. cbn in Hp.
  destruct (decide (i ≤ lastIncludedIndex rf)) as [Hle|Hgt].
  { unfold CondInstallSnapshot. rewrite (proj2 (Z.leb_le _ _)) by done.
    apply (unseen_simulates c A n rf); auto using unseen_refl.
    apply (match_kept c A n rf); auto using unseen_refl. }
  destruct (i_view _ _ HA _ _ Hvn) as (_ & Hgen & _). cbn in Hgen.
  destruct (ni_node _ _ _ _ (ci_node _ _ Hc) _ _ Hn) as (Hwf & _).
  pose proof (wf_applied _ Hwf). pose proof (wf_commit _ Hwf). pose proof (wf_lii _ Hwf).
  rewrite CondInstallSnapshot_eq by lia.
  pose proof (install_log A pre p rf tm i HA Hp Hlen Htm Hcp ltac:(lia) Hgen) as Hl. cbn zeta in Hl.
  set (es := match idx _ _ with Some _ => _ | None => _ end) in *.
  pose proof (sp_install N A n _ p _ Hvn Hp Hl) as Hstep.
  set (A' := set_view _ _ _) in Hstep.
  assert (grows A A') as Hg by apply set_view_grows.
  apply (simulates_step A A'); [done|done|].
  apply (compactTo_put c A A' n rf i tm es snap p); try done; [lia|].
  rewrite compactTo_view.
  replace (Z.to_nat (commitIndex rf `max` i)) with (length p `max` Z.to_nat (commitIndex rf))%nat
    by (unfold len in *; lia). done.
Qed.

(** ** Taking over a leader's entries *)

Lemma genuine_take_eq A l g (k : nat) :
  genuine A l → genuine A g → (k ≤ length l)%nat → (k ≤ length g)%nat →
  lastTerm (take k l) = lastTerm (take k g) → take k l = take k g.
Proof.
  intros Hl Hg Hkl Hkg Ht. destruct k as [|k]; [done|].
  destruct (lookup_lt_is_Some_2 l k) as [e He]; [lia|].
  destruct (lookup_lt_is_Some_2 g k) as [e' He']; [lia|].
  rewrite (lastTerm_take _ _ e), (lastTerm_take _ _ e') in Ht by done.
  by eapply genuine_match.
Qed.

Lemma genuine_term_pos A l k e : spec_inv N A → genuine A l → l !! k = Some e → 1 ≤ e_Term e.
Proof.
  intros HA Hl Hk. destruct (Hl _ _ Hk) as (g & Hg & _). apply (i_log _ _ HA _ _ Hg).
Qed.

Lemma lastTerm_nonneg A l : spec_inv N A → genuine A l → 0 ≤ lastTerm l.
Proof.
  intros HA Hl. destruct (decide (l = [])) as [->|Hne]; [done|].
  destruct (lastTerm_Some l Hne) as (e & He & ->).
  pose proof (genuine_term_pos A l _ e HA Hl He). lia.
Qed.

(** A piece of a log. *)
Lemma piece_lookup {B} (es g : list B) (p k : nat) :
  es = take (length es) (drop p g) → (k < length es)%nat → g !! (p + k)%nat = es !! k.
Proof. intros Hes Hk. rewrite Hes, lookup_take_lt by done. by rewrite lookup_drop. Qed.

Lemma piece_len {B} (es g : list B) (p : nat) :
  (p ≤ length g)%nat → es = take (length es) (drop p g) → (p + length es ≤ length g)%nat.
Proof. intros Hp Hes. apply (f_equal length) in Hes. rewrite length_take, length_drop in Hes. lia. Qed.

Lemma piece_tail {B} (es g : list B) (p j : nat) :
  es = take (length es) (drop p g) → (j ≤ length es)%nat →
  take (p + j) g ++ drop j es = take (p + length es) g.
Proof.
  intros Hes Hj. rewrite Hes at 1. rewrite <- (take_drop (p + j) (take (p + length es) g)).
  rewrite take_take, Nat.min_l by lia. f_equal.
  rewrite !skipn_firstn_comm, drop_drop. f_equal. lia.
Qed.

Lemma cut_full_log pre rf es (c : Z) :
  raft_wf rf → compacted pre rf → lastIncludedIndex rf < c →
  full_log pre (persist (rf <| logs := slice_to (logs rf) (c - lastIncludedIndex rf) ++ es |>)) =
  take (Z.to_nat (c - 1)) (full_log pre rf) ++ es.
Proof.
  intros Hwf [Hl _] Hc. pose proof (wf_len _ Hwf). unfold full_log, slice_to. cbn.
  unfold len in *. rewrite take_app_ge, <- app_assoc by lia. f_equal.
  destruct (logs rf) as [|b es0]; [cbn in *; lia|].
  replace (Z.to_nat (c - lastIncludedIndex rf)) with (S (Z.to_nat (c - 1) - length pre)) by lia.
  by rewrite firstn_cons, <- app_comm_cons.
Qed.

Lemma accepted_prefix A args rf pre g :
  spec_inv N A → raft_wf rf → compacted pre rf → genuine A (full_log pre rf) → genuine A g →
  aea_PrevLogTerm args = -1 ∨
    (0 ≤ aea_PrevLogIndex args ≤ len g ∧
     aea_PrevLogTerm args = lastTerm (take (Z.to_nat (aea_PrevLogIndex args)) g) ∧
     aea_Entries args = take (length (aea_Entries args)) (drop (Z.to_nat (aea_PrevLogIndex args)) g)) →
  prevMatches args rf = true →
  let p := Z.to_nat (aea_PrevLogIndex args) in
  0 ≤ lastIncludedIndex rf ≤ aea_PrevLogIndex args ∧ aea_PrevLogIndex args ≤ lastIndex rf ∧
  (p ≤ length (full_log pre rf))%nat ∧ (p ≤ length g)%nat ∧
  take p (full_log pre rf) = take p g ∧
  aea_Entries args = take (length (aea_Entries args)) (drop p g).
Proof.
  intros HA Hwf Hcp Hl Hg Hargs Hm p. destruct (prevMatches_spec _ _ Hwf Hm) as [Hr Ht].
  pose proof (wf_lii _ Hwf). pose proof (full_log_len _ _ Hwf Hcp) as Hlen.
  rewrite (full_log_termAt pre) in Ht by done. fold p in Ht.
  destruct Hargs as [Hno|(Hb & Hpt & Hes)].
  { pose proof (lastTerm_nonneg A _ HA (genuine_prefix _ _ _ (prefix_take _ p) Hl)). lia. }
  unfold len in *. split_and!; try lia; try done.
  apply (genuine_take_eq A); try done; try lia. unfold p in *. congruence.
Qed.

(** The loop over the new entries is the specification's [adopts]. *)
Lemma appendLoop_adopts A args rf pre g :
  raft_wf rf → compacted pre rf → genuine A (full_log pre rf) → genuine A g →
  let p := Z.to_nat (aea_PrevLogIndex args) in let es := aea_Entries args in
  0 ≤ lastIncludedIndex rf ≤ aea_PrevLogIndex args → aea_PrevLogIndex args ≤ lastIndex rf →
  (p ≤ length g)%nat → take p (full_log pre rf) = take p g → es = take (length es) (drop p g) →
  adopts (p + length es) g (full_log pre rf)
    (full_log pre (appendLoop es (aea_PrevLogIndex args + 1) rf)).
Proof.
  intros Hwf Hcp Hl Hg p es Hlo Hhi Hpg Hp Hes. set (prev := aea_PrevLogIndex args) in *.
  pose proof (full_log_len _ _ Hwf Hcp) as Hlen. set (l := full_log pre rf) in *.
  pose proof (piece_len _ _ _ Hpg Hes) as Hmg. unfold len in *.
  assert (∀ k e, es !! k = Some e → prev + 1 + Z.of_nat k ≤ lastIndex rf →
    ∃ e', l !! (p + k)%nat = Some e' ∧ termAt rf (prev + 1 + Z.of_nat k) = e_Term e') as Hat.
  { intros k e Hk Hin. destruct (lookup_lt_is_Some_2 l (p + k)) as [e' He']; [lia|].
    exists e'. split; [done|]. rewrite (full_log_termAt pre) by (done || lia). fold l.
    replace (Z.to_nat (prev + 1 + Z.of_nat k)) with (S (p + k)) by lia. by apply lastTerm_take. }
  assert (∀ k e, es !! k = Some e → g !! (p + k)%nat = Some e) as Hge.
  { intros k e Hk. rewrite (piece_lookup es) by (done || by eapply lookup_lt_Some). done. }
  destruct (appendLoop_spec es (prev + 1) rf) as (j & Hj & Hpre & Hres); [lia|].
  assert ((p + j ≤ length l)%nat ∧ take (p + j) l = take (p + j) g) as [Hjl Hjt].
  { destruct j as [|j]; [rewrite Nat.add_0_r; split; [lia|done]|].
    destruct (lookup_lt_is_Some_2 es j) as [e He]; [lia|].
    destruct (Hpre j e) as [? Hte]; [lia|done|]. destruct (Hat j e He) as (e' & He' & Hte'); [lia|].
    replace (p + S j)%nat with (S (p + j)) by lia. split; [lia|].
    eapply genuine_match; eauto. congruence. }
  destruct Hres as [[-> ->]|(Hlt & Hend & Hdiff & ->)].
  - left. fold l. split; [|done]. rewrite <- Hjt. apply prefix_take.
  - right. rewrite cut_full_log by (done || lia). fold l.
    replace (Z.to_nat (prev + 1 + Z.of_nat j - 1)) with (p + j)%nat by lia.
    split; [|rewrite Hjt; by apply piece_tail].
    intros Hpf. destruct (lookup_lt_is_Some_2 es j) as [e He]; [lia|].
    assert (l !! (p + j)%nat = Some e) as Hle.
    { eapply prefix_lookup_Some; [|exact Hpf]. rewrite lookup_take_lt by lia. auto. }
    pose proof (lookup_lt_Some _ _ _ Hle). destruct (Hat j e He) as (e' & He' & Hte); [lia|].
    apply (Hdiff e He); [lia|]. congruence.
Qed.

(** The commit index of a follower does not pass the entries it has checked. *)
Lemma AppendEntries_commit args rf rf' rep b :
  AppendEntriesHandler args rf = (rf', rep, b) → aer_Success rep = true →
  commitIndex rf' = commitIndex rf ∨
  (commitIndex rf' ≤ aea_LeaderCommitIndex args ∧
   commitIndex rf' ≤ aea_PrevLogIndex args + len (aea_Entries args)).
Proof.
  intros H Hs. unfold AppendEntriesHandler in H.
  destruct (observeLeader_log (aea_Term args) rf) as (_ & _ & _ & Hc0 & _).
  set (rf1 := observeLeader _ rf) in *.
  case_if_in H; [by simplify_eq/=|]. case_if_in H; case_if_in H; try by simplify_eq/=.
  - zbool. rewrite E0. unfold heartbeatCommit in H.
    case_if_in H; [|simplify_eq/=; by left]. case_if_in H; [|simplify_eq/=; by left].
    destruct (apply_enter_state (rf1 <| commitIndex :=
      Z.min (aea_LeaderCommitIndex args) (aea_PrevLogIndex args) |>)) as [bb Hb].
    destruct (apply_enter _) as [r bt]. cbn in Hb. simplify_eq/=. right. lia.
  - set (rf2 := appendLoop _ _ rf1) in *.
    assert (commitIndex rf2 = commitIndex rf) as Hc2
      by (unfold rf2; destruct (appendLoop_log (aea_Entries args) (aea_PrevLogIndex args + 1) rf1)
            as (_ & _ & _ & -> & _); done).
    unfold entriesCommit in H. case_if_in H; [|simplify_eq/=; by left].
    case_if_in H; [|simplify_eq/=; by left].
    destruct (apply_enter_state (rf2 <| commitIndex :=
      Z.min (aea_LeaderCommitIndex args) (aea_PrevLogIndex args + len (aea_Entries args)) |>)) as [bb Hb].
    destruct (apply_enter _) as [r bt]. cbn in Hb. simplify_eq/=. right. lia.
Qed.

Lemma AppendEntries_refused args rf rf' rep b :
  AppendEntriesHandler args rf = (rf', rep, b) → aer_Success rep = false →
  rf' = observeLeader (aea_Term args) rf.
Proof.
  intros H Hs. unfold AppendEntriesHandler in H.
  repeat case_if_in H; simplify_eq/=; try done; repeat case_match; simplify_eq/=.
Qed.

Lemma observeLeader_simulates c A n rf t :
  refines c A → cl_inv N c → nodes c !! n = Some rf → simulates A (put n (observeLeader t rf) c).
Proof.
  intros HR Hc Hn. pose proof (observeLeader_unseen t rf) as Hq.
  apply (unseen_simulates c A n rf); auto. apply (match_kept c A n rf); auto.
  unfold observeLeader. by repeat case_if.
Qed.

Lemma observeLeader_follower t rf : currentTerm rf ≤ t → state (observeLeader t rf) = Follower.
Proof. intros. unfold observeLeader. repeat case_if; zbool; (done || lia). Qed.

Lemma appendLoop_vote_kept es i rf : votedFor (appendLoop es i rf) = votedFor rf.
Proof.
  revert i. induction es as [|e es IH]; intros i; cbn [appendLoop]; [done|].
  repeat case_if; auto.
Qed.

Lemma entries_simulates c A n rf args rf' rep b :
  0 ≤ N → refines c A → spec_inv N A → cl_inv N c → nodes c !! n = Some rf →
  entries_ok A args → AppendEntriesHandler args rf = (rf', rep, b) →
  ∃ A', rtc (spec_step N) A A' ∧ grows A A' ∧ refines (put n rf' c) A' ∧
    (aer_Success rep = true → acked A' n (aea_Term args) (matched_index args)).
Proof.
  intros HN HR HA Hc Hn (g & Hg & Hargs & Hlc & Hcom) E.
  destruct (aer_Success rep) eqn:Hs; cycle 1.
  { rewrite (AppendEntries_refused _ _ _ _ _ E Hs).
    destruct (observeLeader_simulates c A n rf (aea_Term args) HR Hc Hn) as (A' & ? & ? & ?).
    by exists A'. }
  destruct (ni_node _ _ _ _ (ci_node _ _ Hc) _ _ Hn) as (Hwf & _).
  destruct (rf_node _ _ HR _ _ Hn) as (pre & Hcp & Hvn).
  destruct (i_view _ _ HA _ _ Hvn) as (_ & Hgen & _). cbn in Hgen.
  destruct (i_log _ _ HA _ _ Hg) as (_ & Hgg & _).
  pose proof (AppendEntries_commit _ _ _ _ _ E Hs) as Hk.
  destruct (AppendEntries_accepted _ _ _ _ _ E Hs) as (Ht & Hm & rf2 & k & bb & Hrf2 & -> & _).
  cbn in Hk. set (t := aea_Term args) in *. set (rf1 := observeLeader t rf) in *.
  pose proof (observeLeader_log t rf) as Hle. fold rf1 in Hle.
  destruct Hle as (El & Ei & Et & _).
  assert (compacted pre rf1) as Hcp1 by (destruct Hcp; split; congruence).
  assert (full_log pre rf1 = full_log pre rf) as Hf1 by (unfold full_log; by rewrite El).
  pose proof (observeLeader_wf t rf Hwf) as Hwf1. fold rf1 in Hwf1.
  rewrite <- (log_eq_prevMatches args rf rf1) in Hm by apply observeLeader_log.
  rewrite <- Hf1 in Hgen.
  destruct (accepted_prefix A args rf1 pre g HA Hwf1 Hcp1 Hgen Hgg Hargs Hm)
    as (Hlo & Hhi & _ & Hpg & Hpre & Hes).
  pose proof (appendLoop_adopts A args rf1 pre g Hwf1 Hcp1 Hgen Hgg Hlo Hhi Hpg Hpre Hes) as Had.
  cbn zeta in Had. rewrite <- Hrf2, Hf1 in Had.
  destruct (appendLoop_log (aea_Entries args) (aea_PrevLogIndex args + 1) rf1)
    as (Ei2 & Et2 & Ect2 & _). rewrite <- Hrf2 in Ei2, Et2, Ect2.
  set (rf' := rf2 <| commitIndex := k |> <| applying := bb |>).
  assert (currentTerm rf' = t) as Hterm by (cbn; rewrite Ect2; by apply observeLeader_term).
  assert (state rf' = Follower) as Hstate
    by (cbn; rewrite Hrf2, appendLoop_state; by apply observeLeader_follower).
  assert (matched_index args = (Z.to_nat (aea_PrevLogIndex args) + length (aea_Entries args))%nat) as Hmi
    by (unfold matched_index, len; lia).
  assert (spec_step N A (add_ack n t (matched_index args)
    (set_view n (mkView t (full_log pre rf2) (Z.to_nat k) Follower) A))) as Hstep.
  { rewrite Hmi. apply (sp_accept N A n (view_of pre rf) t g); try done.
    - by apply piece_len.
    - cbn. destruct Hk as [->|[Hk1 Hk2]]; [by left|right]. split; [unfold len in *; lia|].
      eapply committed_prefix; [|exact Hcom]. apply prefix_take_mono; [done|lia]. }
  set (A' := add_ack _ _ _ _) in Hstep.
  assert (grows A A') as Hgr by (by apply (spec_step_grows N)).
  exists A'. split; [by apply rtc_once|]. split; [done|]. split.
  - apply (refines_put c A A' n rf rf' pre); try done; try congruence.
    + unfold view_of. by rewrite Hterm, Hstate.
    + destruct Hcp1. by split; cbn; rewrite ?Ei2, ?Et2.
    + pose proof (observeLeader_unseen t rf) as (_ & _ & _ & _ & _ & _ & Hv). fold rf1 in Hv.
      intros Hne. apply (node_vote c A n rf rf'); try done. cbn.
      rewrite Hrf2, appendLoop_vote_kept, <- Hrf2, Ect2. done.
    + by left.
    + intros u x. split; [by left|]. intros [?|(? & _)]; [done|congruence].
  - intros _. exists (matched_index args). split; [done|left].
Qed.

(** ** Committing *)

Lemma rd_wr (tab : list Z) i v j : rd (wr tab i v) j = v ∨ rd (wr tab i v) j = rd tab j.
Proof.
  unfold wr. destruct (in_range i tab) eqn:E; [|by right]. apply in_range_spec in E.
  destruct (decide (i = j)) as [<-|Hne]; [left|right].
  - rewrite <- (rd_wr_eq tab i v) at 2 by done. unfold wr. by rewrite (proj2 (in_range_spec _ _)).
  - rewrite <- (rd_wr_ne tab i j v) by (done || lia). unfold wr. by rewrite (proj2 (in_range_spec _ _)).
Qed.

(** The peers a leader counts for index [k], itself included. *)
Definition counted_peers (rf : Raft Op SV) (k : Z) : gset Z :=
  {[ me rf ]} ∪
  list_to_set (filter (λ i, i ≠ me rf ∧ k ≤ rd (matchIndex rf) i) (range 0 (peers rf - 1))).

Lemma counted_peers_size rf k : Z.of_nat (size (counted_peers rf k)) = countMatching rf k.
Proof.
  unfold counted_peers, countMatching, len.
  rewrite size_union, size_singleton, size_list_to_set; [lia| |].
  - apply NoDup_filter, NoDup_seqZ.
  - intros i ->%elem_of_singleton [[? _] _]%elem_of_list_to_set%list_elem_of_filter. done.
Qed.

Lemma counted_peers_spec rf k i :
  0 ≤ me rf < peers rf →
  i ∈ counted_peers rf k → 0 ≤ i < peers rf ∧ (i = me rf ∨ (i ≠ me rf ∧ k ≤ rd (matchIndex rf) i)).
Proof.
  intros Hme. unfold counted_peers. intros [->%elem_of_singleton|Hi]%elem_of_union; [auto|].
  apply elem_of_list_to_set, list_elem_of_filter in Hi as [? Hi%elem_of_seqZ]. split; [lia|auto].
Qed.

Lemma committable_chosen c A n rf rf1 pre k :
  refines c A → spec_inv N A → cl_inv N c → nodes c !! n = Some rf →
  compacted pre rf → views A !! n = Some (view_of pre rf) →
  unseen rf rf1 → raft_wf rf1 → peers rf1 = N → me rf1 = n → state rf1 = Leader →
  (∀ s, 0 ≤ s < N → s ≠ n → match_ok A s rf1) →
  commitIndex rf1 < k ≤ lastIndex rf1 → committable rf1 k →
  chosen N A (currentTerm rf1) (Z.to_nat k).
Proof.
  intros HR HA Hc Hn Hcp Hvn (El & Ei & Et & _ & _ & Hs & _) Hwf1 HpN Hme Hlead Hm Hk [Hterm Hcount].
  destruct Hs as [Hs|[Hs Htm]]; [congruence|].
  pose proof (wf_commit _ Hwf1). pose proof (wf_applied _ Hwf1). pose proof (wf_lii _ Hwf1).
  assert (compacted pre rf1) as Hcp1 by (destruct Hcp; split; congruence).
  assert (full_log pre rf1 = full_log pre rf) as Hfull by (unfold full_log; by rewrite El).
  destruct (i_view _ _ HA _ _ Hvn) as (_ & _ & _ & _ & _ & Hl). cbn in Hl.
  destruct Hl as (Hg & Hack & _); [congruence|].
  rewrite (full_log_termAt pre) in Hterm by (done || lia). rewrite Hfull in Hterm.
  pose proof (full_log_len pre rf1 Hwf1 Hcp1) as Hlen. rewrite Hfull in Hlen. unfold len in Hlen.
  destruct (lookup_lt_is_Some_2 (full_log pre rf) (Z.to_nat (k - 1))) as [e He]; [lia|].
  replace (Z.to_nat k) with (S (Z.to_nat (k - 1))) in * by lia.
  rewrite (lastTerm_take _ _ e) in Hterm by done.
  exists (Z.to_nat (k - 1)), (full_log pre rf), e, (counted_peers rf1 k).
  pose proof (wf_peers _ Hwf1) as Hrange.
  split_and!; [done|by rewrite Htm|done|done| |].
  - split; [|by rewrite counted_peers_size, <- HpN].
    intros i Hi%counted_peers_spec; [|done]. apply everyone_spec. lia.
  - intros i [Hi Hcase]%counted_peers_spec; [|done].
    destruct Hcase as [->|[Hne Hki]].
    + rewrite Hme, Htm. eapply acked_le; [|exact Hack]. lia.
    + destruct (Hm i) as [Hle|Ha]; [lia|congruence|lia|]. eapply acked_le; [|exact Ha]. lia.
Qed.

Lemma leader_commit_simulates c A n rf rf1 :
  0 ≤ N → refines c A → spec_inv N A → cl_inv N c → nodes c !! n = Some rf →
  unseen rf rf1 → raft_wf rf1 → peers rf1 = N → me rf1 = n → state rf1 = Leader →
  (∀ s, 0 ≤ s < N → s ≠ n → match_ok A s rf1) →
  simulates A (put n (advanceCommitIndexLocked rf1).1 c).
Proof.
  intros HN HR HA Hc Hn Hq Hwf1 HpN Hme Hlead Hm.
  destruct (advanceCommit_state rf1) as (bb & k & -> & Hk).
  set (rf' := rf1 <| commitIndex := k |> <| applying := bb |>).
  destruct (decide (k = commitIndex rf1)) as [->|Hne].
  { apply (unseen_simulates c A n rf); auto. }
  destruct Hk as [?|Hk%commitScan_Some]; [done|]. destruct Hk as (Hkr & Hcom & _).
  destruct (rf_node _ _ HR _ _ Hn) as (pre & Hcp & Hvn).
  pose proof (committable_chosen c A n rf rf1 pre k HR HA Hc Hn Hcp Hvn Hq Hwf1 HpN Hme Hlead Hm
    Hkr Hcom) as Hch.
  pose proof Hq as (El & Ei & Et & _ & _ & Hs & Hv).
  destruct Hs as [Hs|[Hs Htm]]; [congruence|]. rewrite Htm in Hch.
  set (A' := set_view n (view_of pre rf') A).
  assert (spec_step N A A') as Hstep.
  { pose proof (sp_commit N A n (view_of pre rf) (Z.to_nat k) Hvn) as Hstep. cbn in Hstep.
    unfold A'. replace (view_of pre rf') with ((view_of pre rf) <| v_commit := Z.to_nat k |>);
      [apply Hstep; congruence|].
    unfold view_of, full_log. cbn. by rewrite El, Htm, Hs. }
  apply (simulates_step A A'); [done|apply set_view_grows|].
  apply (refines_put c A A' n rf rf' pre); try done.
  - apply set_view_grows.
  - destruct Hcp. split; cbn; congruence.
  - cbn. lia.
  - by apply (node_vote c A n rf rf').
  - by left.
  - apply (node_led c A n rf); try done. intros _. split; cbn; congruence.
Qed.

Lemma entries_reply_simulates c A n rf server t args reply :
  0 ≤ N → refines c A → spec_inv N A → cl_inv N c → nodes c !! n = Some rf →
  (aer_Success reply = true → acked A server t (matched_index args)) →
  simulates A (put n (replicate_append_reply server t args reply rf).1.1 c).
Proof.
  intros HN HR HA Hc Hn Hack. unfold replicate_append_reply.
  assert (∀ rf', unseen rf rf' → matchIndex rf' = matchIndex rf → simulates A (put n rf' c)) as Hquiet.
  { intros rf' Hq Hm. apply (unseen_simulates c A n rf); auto. by apply (match_kept c A n rf). }
  case_if; [apply Hquiet; [apply stepDown_unseen; zbool; lia|done]|].
  case_if; [by apply Hquiet; [apply unseen_refl|]|].
  destruct (aer_Success reply) eqn:Hs;
    [|case_if; apply Hquiet; try done; auto using unseen_refl; unseen_easy].
  apply orb_false_iff in E0 as [Hl Ht]. zbool.
  destruct (ni_node _ _ _ _ (ci_node _ _ Hc) _ _ Hn) as (Hwf & _ & HpN & Hme & _).
  set (matched := aea_PrevLogIndex args + len (aea_Entries args)).
  set (rf1 := if rd (matchIndex rf) server <? matched then _ else rf).
  set (rf2 := if rd (nextIndex rf1) server <? matched + 1 then _ else rf1).
  assert (unseen rf rf2 ∧ peers rf2 = N ∧ me rf2 = n ∧ state rf2 = Leader ∧
          lastIncludedIndex rf2 = lastIncludedIndex rf ∧ currentTerm rf2 = currentTerm rf ∧
          matchIndex rf2 = matchIndex rf1) as (Hq & ? & ? & ? & Hi2 & Ht2 & Hm2).
  { unfold rf2, rf1. repeat case_if; split_and!; try done; unseen_easy. }
  assert (raft_wf rf2) as Hwf2.
  { unfold rf2, rf1. repeat case_if; destruct Hwf; constructor; cbn; rewrite ?len_wr; auto. }
  pose proof (leader_commit_simulates c A n rf rf2 HN HR HA Hc Hn Hq Hwf2) as Hsim.
  destruct (advanceCommitIndexLocked rf2) as [rf3 b]. cbn in *. apply Hsim; try done.
  intros s Hs1 Hs2. unfold match_ok. rewrite Hi2, Ht2, Hm2.
  pose proof (rf_match _ _ HR n rf s Hn Hl Hs1 Hs2) as Hold.
  unfold rf1. case_if; [cbn|exact Hold].
  destruct (decide (server = s)) as [->|Hne].
  - destruct (rd_wr (matchIndex rf) s matched s) as [->| ->]; [|exact Hold]. right.
    replace (currentTerm rf) with t by done. by apply Hack.
  - destruct (decide (0 ≤ server)).
    + rewrite rd_wr_ne by done. exact Hold.
    + assert (wr (matchIndex rf) server matched = matchIndex rf) as ->; [|exact Hold].
      unfold wr. case_if; [|done]. apply in_range_spec in E1. lia.
Qed.

Lemma snapshot_reply_simulates c A n rf server reply :
  refines c A → cl_inv N c → nodes c !! n = Some rf →
  simulates A (put n (replicate_snapshot_reply server reply rf).1 c).
Proof.
  intros HR Hc Hn. unfold replicate_snapshot_reply. case_if; cbn; zbool.
  - apply (unseen_simulates c A n rf); auto using stepDown_unseen, Z.lt_le_incl. done.
  - apply (unseen_simulates c A n rf); auto; [unseen_easy|].
    intros Hl s ? ?. unfold match_ok. cbn.
    destruct (rd_wr (matchIndex rf) server (lastIncludedIndex rf) s) as [->| ->]; [by left|].
    by apply (rf_match _ _ HR n rf).
Qed.

(** ** Requests on their way *)

Lemma request_simulates c A n rf t :
  refines c A → cl_inv N c → nodes c !! n = Some rf → t ≤ currentTerm rf →
  ∃ A', rtc (spec_step N) A A' ∧ grows A A' ∧ refines c A' ∧ vote_ok A' (RequestVote_args t rf).
Proof.
  intros HR Hc Hn Ht. destruct (rf_node _ _ HR _ _ Hn) as (pre & Hcp & Hvn).
  destruct (ni_node _ _ _ _ (ci_node _ _ Hc) _ _ Hn) as (Hwf & _ & _ & Hme & _).
  set (A' := A <| requests ::= cons (n, t, full_log pre rf) |>).
  assert (grows A A') as Hg by (split; cbn; eauto using list_elem_of_further).
  exists A'. split; [|split; [done|split]].
  - apply rtc_once. by apply (sp_request N A n (view_of pre rf)).
  - destruct HR as [? ? ? ? ? Hp ? Hd]. split; try done.
    intros k q Hk. by eapply proc_ok_grows, Hp.
  - exists (full_log pre rf). cbn. rewrite Hme. split_and!; [left| | |].
    + by rewrite (full_log_len pre).
    + by apply full_log_last.
    + pose proof (wf_peers _ Hwf). lia.
Qed.

Definition rpc_ok A (t : Z) (rpc : ReplicateRPC Op SV) : Prop :=
  match rpc with
  | SendSnapshot args =>
      snap_ok A (isa_Term args) (isa_LastIncludedIndex args) (isa_LastIncludedTerm args)
  | SendEntries args => aea_Term args = t ∧ entries_ok A args
  end.

Lemma prepare_ok c A n rf s t rpc :
  refines c A → spec_inv N A → cl_inv N c → nodes c !! n = Some rf →
  replicate_prepare s t rf = Some rpc → rpc_ok A t rpc.
Proof.
  intros HR HA Hc Hn. unfold replicate_prepare. case_if; [done|].
  apply orb_false_iff in E as [E Ht]. zbool.
  destruct (rf_node _ _ HR _ _ Hn) as (pre & Hcp & Hvn).
  destruct (ni_node _ _ _ _ (ci_node _ _ Hc) _ _ Hn) as (Hwf & _).
  pose proof (wf_lii _ Hwf). pose proof (wf_commit _ Hwf). pose proof (wf_applied _ Hwf).
  destruct (i_view _ _ HA _ _ Hvn) as (_ & _ & _ & Hk & Hcom & Hl). cbn in Hk, Hcom, Hl.
  destruct Hl as (Hg & _); [done|]. pose proof (full_log_len _ _ Hwf Hcp) as Hlen.
  case_if; zbool; intros [= <-]; cbn.
  - destruct Hcp as [Hp1 Hp2]. exists pre. split_and!; [|done|done].
    eapply committed_prefix; [|exact Hcom]. apply (prefix_both _ _ (full_log pre rf)).
    + by apply prefix_app_r.
    + apply prefix_take.
    + unfold len in *. rewrite length_take. lia.
  - split; [done|]. exists (full_log pre rf). cbn. split; [done|].
    split; [|split; [unfold len in *; lia|done]].
    set (next := rd (nextIndex rf) s) in *. unfold len in Hlen.
    destruct (decide (next - 1 ≤ lastIndex rf)) as [Hin|Hout]; [right|left].
    + split; [unfold len; lia|]. split; [by apply full_log_termAt; (done || lia)|].
      assert ((if (0 <=? next - lastIncludedIndex rf) && (next - lastIncludedIndex rf <? len (logs rf))
               then slice_from (logs rf) (next - lastIncludedIndex rf) else []) =
              drop (Z.to_nat (next - 1)) (full_log pre rf)) as ->; [|by rewrite take_ge].
      unfold full_log, slice_from. destruct Hcp as [Hp1 _]. unfold lastIndex, len in *.
      rewrite drop_app_ge, drop_drop by lia. case_if; zbool.
      * f_equal. lia.
      * symmetry. apply drop_ge. match goal with H : _ ∨ _ |- _ => destruct H; zbool; lia end.
    + unfold termAt. rewrite (proj2 (Z.eqb_neq _ _)) by lia.
      unfold lastIndex, len in *. rewrite (proj2 (Z.leb_le _ _)); [|unfold len; lia].
      by rewrite orb_true_r.
Qed.

Lemma snapshot_message_ok c A n rf rf' args reply m :
  refines (put n rf' c) A → InstallSnapshot args rf = (rf', reply, m) →
  snap_ok A (isa_Term args) (isa_LastIncludedIndex args) (isa_LastIncludedTerm args) →
  refines (deliver n m (put n rf' c)) A.
Proof.
  intros HR HI Hs. apply refines_deliver; [done|]. intros msg ->.
  destruct (rf_node _ _ HR n rf') as (pre & _ & Hv); [apply lookup_insert_eq|].
  exists (view_of pre rf'). split; [done|].
  unfold InstallSnapshot in HI. case_if_in HI; [done|]. case_if_in HI; [done|].
  simplify_eq/=. eapply snap_ok_grows; [apply grows_refl| |exact Hs].
  case_if; cbn; zbool; lia.
Qed.

(** ** The simulation *)

Lemma election_step_simulates c A k i rf rf' ev :
  0 ≤ N → refines c A → spec_inv N A → cl_inv N c → nodes c !! i = Some rf →
  Election rf = (rf', ev) →
  simulates A (spawn (PVoteStart i (length (elections c)) <$> others N i)
    ((set_proc k PDone (put i rf' c)) <| elections ::= λ es, es ++ [mkElectionRun i ev {[ i ]}] |>)).
Proof.
  intros HN HR HA Hc Hn HE.
  pose proof (election_simulates c A i rf HN HR HA Hc Hn) as Hsim. rewrite HE in Hsim. cbn in Hsim.
  destruct (rf_node _ _ HR _ _ Hn) as (pre & _ & Hvn).
  destruct (i_view _ _ HA _ _ Hvn) as (Hpos & _). cbn in Hpos.
  eapply simulates_then; [exact Hsim|]. intros A' _ HR'. apply refines_spawn.
  - apply refines_elections; [by apply refines_set_proc|]. intros eid e. cbn.
    intros [He|[_ He]]%lookup_app_Some; [exact (rf_elections _ _ HR' _ _ He)|].
    apply list_lookup_singleton_Some in He as [_ <-]. cbn.
    destruct (rf_node _ _ HR' i rf') as (pre' & _ & Hv); [apply lookup_insert_eq|].
    unfold Election in HE. simplify_eq/=. split; [lia|]. eexists. split; [exact Hv|]. cbn. lia.
  - apply Forall_fmap, Forall_true. done.
Qed.

Lemma count_step_simulates c A k i eid s rf rf' e ev' bc :
  0 ≤ N → refines c A → spec_inv N A → cl_inv N c →
  procs c !! k = Some (PVoteWon i eid s) → nodes c !! i = Some rf →
  elections c !! eid = Some e → Election_count (er_vars e) rf = (ev', rf', bc) →
  simulates A ((set_proc k (if bc : bool then PBroadcast i else PDone) (put i rf' c))
    <| elections ::= <[eid := mkElectionRun (er_src e) ev' ({[ s ]} ∪ er_counted e)]> |>).
Proof.
  intros HN HR HA Hc Hk Hn He HC.
  destruct (count_wins _ _ _ _ _ _ _ _ _ _ _ Hc Hk Hn He HC) as (_ & _ & Hcase).
  destruct (Election_count_spec _ _ _ _ _ HC) as (Ht & _).
  destruct (rf_elections _ _ HR _ _ He) as [Hpos _].
  assert (simulates A (put i rf' c)) as Hsim.
  { destruct Hcase as [->|(-> & Hst & Hterm & Hwin)].
    - apply (unseen_simulates c A i rf); auto using unseen_refl.
      apply (match_kept c A i rf); auto using unseen_refl.
    - apply becomeLeader_simulates; auto. lia. }
  eapply simulates_then; [exact Hsim|]. intros A' _ HR'.
  apply refines_elections; [apply refines_set_proc; [done|by destruct bc]|]. intros eid' e'. cbn.
  intros [(<- & <- & _)|[_ He']]%list_lookup_insert_Some; cbn; [rewrite Ht|].
  - exact (rf_elections _ _ HR' _ _ He).
  - exact (rf_elections _ _ HR' _ _ He').
Qed.

Lemma put_proc_simulates c A n rf' k q :
  simulates A (put n rf' c) → (∀ A', grows A A' → proc_ok A' q) →
  simulates A (set_proc k q (put n rf' c)).
Proof.
  intros Hsim Hq. eapply simulates_then; [exact Hsim|]. intros A' Hg HR'.
  apply refines_set_proc; auto.
Qed.

Lemma same_proc_simulates c A k q : refines c A → proc_ok A q → simulates A (set_proc k q c).
Proof. intros. by apply simulates_refl, refines_set_proc. Qed.

Lemma service_simulates c A i rf s :
  0 ≤ N → refines c A → spec_inv N A → cl_inv N c → nodes c !! i = Some rf →
  service_section s = true → service_pre i s c → simulates A (put i (run_section s rf) c).
Proof.
  intros HN HR HA Hc Hn Hs Hpre. destruct s; try done;
    try (by apply unseen_section_simulates).
  - by apply CondInstall_simulates.
  - by apply Snapshot_simulates.
Qed.

Lemma late_simulates c A k q s sec rf :
  0 ≤ N → refines c A → spec_inv N A → cl_inv N c →
  procs c !! k = Some q → late_section q = Some (s, sec) → nodes c !! s = Some rf →
  simulates A (set_proc k PDone (deliver s (section_message sec rf) (put s (run_section sec rf) c))).
Proof.
  intros HN HR HA Hc Hk Hl Hn. pose proof (rf_procs _ _ HR _ _ Hk) as Hok.
  assert (∀ m, m = None → simulates A (put s (run_section sec rf) c) →
    simulates A (set_proc k PDone (deliver s m (put s (run_section sec rf) c)))) as Hplain.
  { intros m -> Hsim. eapply simulates_then; [exact Hsim|]. intros A' _ HR'.
    apply refines_set_proc; [|done]. by apply refines_deliver. }
  destruct q; simplify_eq/=.
  - apply Hplain; [done|]. by apply vote_simulates.
  - eapply simulates_then; [by apply (unseen_section_simulates c A s rf (HandleSnapshot args))|].
    intros A' Hg HR'. apply refines_set_proc; [|done]. cbn [run_section] in *.
    destruct (InstallSnapshot args rf) as [[rf' reply] m] eqn:HI. cbn in *.
    eapply snapshot_message_ok; [done|done|]. by eapply snap_ok_grows.
  - apply Hplain; [done|]. cbn. destruct (AppendEntriesHandler args rf) as [[rf' rep] b] eqn:E.
    destruct (entries_simulates c A s rf args rf' rep b HN HR HA Hc Hn Hok E) as (A' & ? & ? & ? & _).
    by exists A'.
Qed.

Lemma cl_step_simulates c c' A :
  0 ≤ N → cl_step N c c' → refines c A → spec_inv N A → cl_inv N c → simulates A c'.
Proof.
  intros HN [l Hstep] HR HA Hc; destruct Hstep as
    [c i rf rf' go Hi H|c i rf Hi H|c k i rf rf' ev Hk Hi H|c k i eid s rf e Hk Hi He
    |c k i eid s args rf rf' reply Hk Hs H|c k i eid s reply rf rf' ok Hk Hi H
    |c k i eid s rf rf' e ev' bc Hk Hi He H|c k i rf Hk Hi|c k i s term rf Hk Hi
    |c k i s term args rf rf' reply m Hk Hs H|c k i s term reply rf rf' ctl Hk Hi H
    |c k i s term args rf rf' reply b Hk Hs H|c k i s term args reply rf rf' ctl b Hk Hi H
    |c k p p' Hk H|c k p s sec rf Hk Hl Hs|c i rf command Hi|c i rf s Hi Hs Hpre Hsv|c i rf Hi];
    try (pose proof (rf_procs _ _ HR _ _ Hk) as Hok).
  - assert (rf' = run_section TickElection rf) as -> by (unfold run_section; by rewrite H).
    eapply simulates_then; [by apply (unseen_section_simulates c A i rf TickElection)|]. intros A' _ HR'.
    apply refines_spawn; [done|]. destruct go; by repeat constructor.
  - apply simulates_refl, refines_spawn; [done|]. by repeat constructor.
  - by eapply election_step_simulates.
  - destruct (rf_elections _ _ HR _ _ He) as (_ & v & Hv & Ht).
    destruct (ei_pending _ _ _ _ (ci_election _ _ Hc) _ _ _ _ Hk eq_refl) as (e0 & ? & _ & _ & Hsrc).
    cbn in Hsrc. simplify_eq. destruct (rf_node _ _ HR _ _ Hi) as (pre & _ & Hvn). simplify_eq.
    destruct (request_simulates c A _ rf _ HR Hc Hi Ht) as (A' & ? & ? & ? & ?).
    exists A'. split_and!; [done|done|]. by apply refines_set_proc.
  - apply put_proc_simulates; [|done]. replace rf' with (RequestVoteHandle args rf).1 by by rewrite H.
    by apply vote_simulates.
  - apply put_proc_simulates; [|by destruct ok].
    assert (rf' = run_section (VoteReply reply) rf) as -> by (unfold run_section; by rewrite H).
    by apply unseen_section_simulates.
  - by eapply count_step_simulates.
  - apply simulates_refl, refines_spawn; [by apply refines_set_proc|].
    destruct (broadcastAppendEntries rf); [apply Forall_fmap, Forall_true|]; done.
  - apply same_proc_simulates; [done|].
    destruct (replicate_prepare s term rf) as [rpc|] eqn:Hp; [|done].
    pose proof (prepare_ok _ _ _ _ _ _ _ HR HA Hc Hi Hp). by destruct rpc.
  - assert (rf' = run_section (HandleSnapshot args) rf) as E by (unfold run_section; by rewrite H).
    eapply simulates_then; [by apply (unseen_section_simulates c A s rf (HandleSnapshot args))|].
    intros A' Hg HR'. rewrite <- E in HR'. apply refines_set_proc; [|done].
    eapply snapshot_message_ok; [done|done|]. by eapply snap_ok_grows.
  - apply put_proc_simulates; [|by destruct ctl].
    replace rf' with (replicate_snapshot_reply s reply rf).1 by by rewrite H.
    by apply snapshot_reply_simulates.
  - destruct Hok as [Ht Hok].
    destruct (entries_simulates c A s rf args rf' reply b HN HR HA Hc Hs Hok H)
      as (A' & ? & Hg & ? & Hack).
    exists A'. split_and!; [done|done|]. apply refines_set_proc; [done|]. subst term.
    split_and!; [done|by eapply (proc_ok_grows A A' (PLateApp s args))|done].
  - apply put_proc_simulates; [|by destruct ctl]. destruct Hok as (_ & _ & Hack).
    replace rf' with (replicate_append_reply s term args reply rf).1.1 by by rewrite H.
    by apply entries_reply_simulates.
  - apply simulates_refl, refines_spawn; [|by repeat constructor; apply proc_ok_late].
    apply refines_set_proc; [done|]. destruct p; simplify_eq/=; done.
  - by eapply late_simulates.
  - eapply simulates_then; [by apply (start_simulates c A i rf command)|]. intros A' _ HR'.
    apply refines_spawn; [done|]. case_if; by repeat constructor.
  - by apply service_simulates.
  - destruct (ni_node _ _ _ _ (ci_node _ _ Hc) _ _ Hi) as (Hwf & Hd & _).
    assert (simulates A (put i (restart rf) c)) as Hsim.
    { apply (unseen_simulates c A i rf); auto using restart_unseen. intros Hl.
      destruct (Make_volatile (peers rf) (me rf) (persister rf)) as (_ & _ & _ & E & _).
      fold (restart rf) in E. congruence. }
    eapply simulates_then; [exact Hsim|]. intros A' _ HR'. by apply refines_kill, refines_drop.
Qed.

Lemma cl_init_refines : refines (cl_init N) (spec_init N).
Proof.
  split; cbn; try (intros *; rewrite lookup_empty; done); try (intros * ?%elem_of_nil; done).
  - intros n rf Hn%elem_of_list_to_map_2. apply list_elem_of_fmap in Hn as (j & [= -> ->] & Hj).
    exists []. split; [done|]. apply lookup_gset_to_gmap_Some. split; [|done].
    apply everyone_spec. apply elem_of_seqZ in Hj. lia.
  - intros t x. split; [set_solver|]. intros [l Hl]. by rewrite lookup_empty in Hl.
  - intros n rf s Hn%elem_of_list_to_map_2. by apply list_elem_of_fmap in Hn as (j & [= -> ->] & _).
  - intros k q. by rewrite lookup_nil.
  - intros k q. by rewrite lookup_nil.
Qed.

Lemma spec_steps_inv A A' : 0 ≤ N → rtc (spec_step N) A A' → spec_inv N A → spec_inv N A'.
Proof. intros HN. induction 1; eauto using spec_step_inv. Qed.

(** A reachable cluster, with what the specification says of it. *)
Definition tracks (c : Cluster) A : Prop := cl_inv N c ∧ refines c A ∧ spec_inv N A.

Lemma tracks_steps c c' A :
  0 ≤ N → rtc (cl_step N) c c' → tracks c A →
  ∃ A', rtc (spec_step N) A A' ∧ grows A A' ∧ tracks c' A'.
Proof.
  intros HN Hs. revert A. induction Hs as [c|c c1 c' Hstep _ IH]; intros A (Hc & HR & HA).
  - exists A. split_and!; [done|apply grows_refl|done].
  - destruct (cl_step_simulates c c1 A HN Hstep HR HA Hc) as (A1 & H1 & Hg1 & HR1).
    destruct (IH A1) as (A' & H2 & Hg2 & Ht).
    { split_and!; [by eapply cl_step_inv|done|by eapply spec_steps_inv]. }
    exists A'. split_and!; [by etrans|by eapply grows_trans|done].
Qed.

Lemma cl_init_tracks : 0 ≤ N → tracks (cl_init N) (spec_init N).
Proof. intros. split_and!; [apply cl_init_inv|apply cl_init_refines|by apply spec_init_inv]. Qed.

Lemma cl_reachable_tracks c :
  0 ≤ N → cl_reachable N c → ∃ A, rtc (spec_step N) (spec_init N) A ∧ tracks c A.
Proof.
  intros HN Hc. destruct (tracks_steps _ _ _ HN Hc (cl_init_tracks HN)) as (A & ? & _ & ?). eauto.
Qed.

End refine.
