(* ===== verification/RaftSafety.v ===== *)
(** * Safety of the replicated log

    What the simulation of RaftRefine.v says of the peers of a cluster: logs
    match, leaders have all that was committed, and no two peers ever apply
    different commands at the same index, whatever is lost, delayed, repeated
    or compacted away and whoever crashes. *)
From stdpp Require Import base tactics list gmap strings numbers relations sets.
From S2P Require Import Prelude.
From S2P Require Import Labgob.
From S2P Require Import Persister.
From S2P Require Import Raft.
From S2P Require Import RaftFacts.
From S2P Require Import RaftApply.
From S2P Require Import RaftSpec.
From S2P Require Import RaftCluster.
From S2P Require Import RaftRefine.
Open Scope Z_scope.
Open Scope go_scope.

Section safety.
Context {Op SV : Type} (N : Z) (HN : 0 ≤ N).
Implicit Types (rf : Raft Op SV) (c : Cluster (Op:=Op) (SV:=SV)) (l pre : list (LogEntry Op)).

(** ** Two peers at two times *)

(** A peer of a cluster, with its place in the specification. *)
Definition placed c (A : Spec) (i : Z) rf pre : Prop :=
  tracks N c A ∧ nodes c !! i = Some rf ∧ compacted pre rf ∧ views A !! i = Some (view_of pre rf).

Lemma placed_at c A i rf :
  tracks N c A → nodes c !! i = Some rf → ∃ pre, placed c A i rf pre.
Proof.
  intros Ht Hi. pose proof Ht as (_ & HR & _). destruct (rf_node _ _ _ HR _ _ Hi) as (pre & ? & ?).
  by exists pre.
Qed.

Lemma placed_wf c A i rf pre : placed c A i rf pre → raft_wf rf.
Proof. intros ((Hc & _) & Hi & _). by apply (ni_node _ _ _ _ (ci_node _ _ Hc) _ _ Hi). Qed.

Lemma placed_view c A i rf pre : placed c A i rf pre → view_ok N A i (view_of pre rf).
Proof. intros ((_ & _ & HA) & _ & _ & Hv). by apply HA. Qed.

Lemma placed_later c A i rf pre c' A' :
  placed c A i rf pre → grows A A' →
  genuine A' (full_log pre rf) ∧
  committed N A' (currentTerm rf) (take (Z.to_nat (commitIndex rf)) (full_log pre rf)).
Proof.
  intros Hp Hg. destruct (placed_view _ _ _ _ _ Hp) as (_ & Hgen & _ & _ & Hc & _).
  split; [by eapply genuine_grows|by eapply (committed_grows N A A' (currentTerm rf))].
Qed.

Lemma placed_commit c A i rf pre :
  placed c A i rf pre →
  0 ≤ lastIncludedIndex rf ≤ commitIndex rf ∧ commitIndex rf ≤ lastIndex rf ∧
  len (full_log pre rf) = lastIndex rf.
Proof.
  intros Hp. pose proof (placed_wf _ _ _ _ _ Hp) as Hwf. pose proof Hp as (_ & _ & Hcp & _).
  destruct (placed_view _ _ _ _ _ Hp) as (_ & _ & _ & Hk & _). cbn in Hk.
  pose proof (full_log_len _ _ Hwf Hcp) as Hlen. pose proof (wf_lii _ Hwf).
  pose proof (wf_applied _ Hwf). pose proof (wf_commit _ Hwf). unfold len in *. lia.
Qed.

(** Peers whose whole logs agree up to [k] look the same up to [k]. *)
Lemma agree_upto c A i rf pre c' A' j rf' pre' k :
  placed c A i rf pre → placed c' A' j rf' pre' →
  k ≤ lastIndex rf → k ≤ lastIndex rf' →
  take (Z.to_nat k) (full_log pre rf) = take (Z.to_nat k) (full_log pre' rf') →
  (lastIncludedIndex rf < k → lastIncludedIndex rf' < k → entryAt rf k = entryAt rf' k) ∧
  (lastIncludedIndex rf ≤ k → lastIncludedIndex rf' ≤ k → termAt rf k = termAt rf' k).
Proof.
  intros Hp Hp' Hk Hk' Heq.
  pose proof (placed_wf _ _ _ _ _ Hp) as Hwf. pose proof (placed_wf _ _ _ _ _ Hp') as Hwf'.
  pose proof Hp as (_ & _ & Hcp & _). pose proof Hp' as (_ & _ & Hcp' & _).
  pose proof (wf_lii _ Hwf). split; intros Hi Hi'.
  - rewrite (full_log_entryAt pre), (full_log_entryAt pre') by done.
    rewrite <- (lookup_take_lt _ (Z.to_nat k)) by lia. rewrite Heq. by rewrite lookup_take_lt by lia.
  - rewrite (full_log_termAt pre), (full_log_termAt pre') by done. by rewrite Heq.
Qed.

Lemma take_agree l l' (k k' : nat) :
  (k ≤ k')%nat → take k' l = take k' l' → take k l = take k l'.
Proof. intros Hk E. apply (f_equal (take k)) in E. by rewrite !take_take, Nat.min_l in E by lia. Qed.

Lemma prefix_take_agree l l' (n n' : nat) :
  (n ≤ length l)%nat → (n' ≤ length l')%nat → take n l `prefix_of` take n' l' →
  (n ≤ n')%nat ∧ take n l = take n l'.
Proof.
  intros Hn Hn' Hp. pose proof (prefix_length _ _ Hp) as Hlen. rewrite !length_take in Hlen.
  split; [lia|]. rewrite <- (take_of_prefix _ _ Hp), length_take, take_take. f_equal. lia.
Qed.

Lemma committed_agree c A i rf pre c' A' j rf' pre' k :
  placed c A i rf pre → placed c' A' j rf' pre' → grows A A' →
  k ≤ commitIndex rf → k ≤ commitIndex rf' →
  take (Z.to_nat k) (full_log pre rf) = take (Z.to_nat k) (full_log pre' rf').
Proof.
  intros Hp Hp' Hg Hk Hk'.
  destruct (placed_later c A i rf pre c' A' Hp Hg) as [_ Hc].
  destruct (placed_view _ _ _ _ _ Hp') as (_ & _ & _ & _ & Hc' & _). cbn in Hc'.
  destruct (placed_commit _ _ _ _ _ Hp) as (? & ? & Hl).
  destruct (placed_commit _ _ _ _ _ Hp') as (? & ? & Hl'). unfold len in *.
  pose proof Hp' as ((_ & _ & HA') & _).
  set (n := Z.to_nat (commitIndex rf)) in *. set (n' := Z.to_nat (commitIndex rf')) in *.
  destruct (committed_comparable N HN A' _ _ _ _ HA' Hc Hc') as [Hpf|Hpf];
    apply prefix_take_agree in Hpf as [Hle Heq]; try lia.
  - eapply take_agree; [|exact Heq]. lia.
  - symmetry. eapply take_agree; [|exact Heq]. lia.
Qed.

(** ** Properties *)

Lemma two_times c c' i j rf rf' :
  cl_reachable N c → rtc (cl_step N) c c' → nodes c !! i = Some rf → nodes c' !! j = Some rf' →
  ∃ A A' pre pre', placed c A i rf pre ∧ placed c' A' j rf' pre' ∧ grows A A'.
Proof.
  intros Hc Hs Hi Hj. destruct (cl_reachable_tracks N c HN Hc) as (A & _ & Ht).
  destruct (tracks_steps N c c' A HN Hs Ht) as (A' & _ & Hg & Ht').
  destruct (placed_at _ _ _ _ Ht Hi) as [pre ?], (placed_at _ _ _ _ Ht' Hj) as [pre' ?].
  by exists A, A', pre, pre'.
Qed.

(** C7.  State machine safety: what a peer has committed is final.
    Whatever happened in between, at the same or at a later time, any two
    peers hold the same entry at every index both have committed and neither
    has compacted away, and the base of a snapshot has the term every other
    peer has committed there. *)
Theorem state_machine_safety c c' i j rf rf' k :
  cl_reachable N c → rtc (cl_step N) c c' → nodes c !! i = Some rf → nodes c' !! j = Some rf' →
  k ≤ commitIndex rf → k ≤ commitIndex rf' →
  (lastIncludedIndex rf < k → lastIncludedIndex rf' < k →
   is_Some (entryAt rf k) ∧ entryAt rf k = entryAt rf' k) ∧
  (lastIncludedIndex rf ≤ k → lastIncludedIndex rf' ≤ k → termAt rf k = termAt rf' k).
Proof.
  intros Hc Hs Hi Hj Hk Hk'.
  destruct (two_times _ _ _ _ _ _ Hc Hs Hi Hj) as (A & A' & pre & pre' & Hp & Hp' & Hg).
  destruct (placed_commit _ _ _ _ _ Hp) as (? & ? & _), (placed_commit _ _ _ _ _ Hp') as (? & ? & _).
  destruct (agree_upto _ _ _ _ _ _ _ _ _ _ k Hp Hp') as [He Ht];
    [lia|lia|by eapply committed_agree|].
  split; [|done]. intros Hl Hl'. split; [apply entryAt_in; lia|auto].
Qed.

(** C8.  Leader completeness: a leader has everything that was committed
    in its term or before it, by any peer at any earlier time. *)
Theorem leader_completeness c c' i j rf rf' k :
  cl_reachable N c → rtc (cl_step N) c c' → nodes c !! i = Some rf → nodes c' !! j = Some rf' →
  state rf' = Leader → currentTerm rf ≤ currentTerm rf' → k ≤ commitIndex rf →
  k ≤ lastIndex rf' ∧
  (lastIncludedIndex rf < k → lastIncludedIndex rf' < k →
   is_Some (entryAt rf k) ∧ entryAt rf' k = entryAt rf k) ∧
  (lastIncludedIndex rf ≤ k → lastIncludedIndex rf' ≤ k → termAt rf' k = termAt rf k).
Proof.
  intros Hc Hs Hi Hj Hl Ht Hk.
  destruct (two_times _ _ _ _ _ _ Hc Hs Hi Hj) as (A & A' & pre & pre' & Hp & Hp' & Hg).
  destruct (placed_later c A i rf pre c' A' Hp Hg) as [_ Hcom].
  destruct (placed_view _ _ _ _ _ Hp') as (_ & _ & _ & _ & _ & Hlead). cbn in Hlead.
  destruct (Hlead Hl) as (Hlog & _). pose proof Hp' as ((_ & _ & HA') & _).
  pose proof (leader_holds_committed N HN A' _ _ _ _ HA' Hcom Ht Hlog) as Hpf.
  destruct (placed_commit _ _ _ _ _ Hp) as (? & ? & Hlen), (placed_commit _ _ _ _ _ Hp') as (? & ? & Hlen').
  pose proof (prefix_length _ _ Hpf) as Hpl. rewrite length_take in Hpl. unfold len in *.
  assert (k ≤ lastIndex rf') as Hk' by lia. split; [done|].
  rewrite <- (take_ge (full_log pre' rf') (length (full_log pre' rf'))) in Hpf by lia.
  apply prefix_take_agree in Hpf as [Hle Heq]; [|lia|lia].
  destruct (agree_upto _ _ _ _ _ _ _ _ _ _ k Hp Hp') as [He Hte];
    [lia|lia|by eapply take_agree; [|exact Heq]; lia|].
  split; [|by intros; rewrite Hte]. intros. split; [apply entryAt_in; lia|by rewrite He].
Qed.

(** C10.  Log matching: when two peers, at any two times, have entries
    of the same term at the same index, their logs agree on every index up to
    it that neither has compacted away: commands, terms and all. *)
Theorem log_matching c c' i j rf rf' k e e' :
  cl_reachable N c → rtc (cl_step N) c c' → nodes c !! i = Some rf → nodes c' !! j = Some rf' →
  entryAt rf k = Some e → entryAt rf' k = Some e' → e_Term e = e_Term e' →
  ∀ n, n ≤ k → lastIncludedIndex rf < n → lastIncludedIndex rf' < n →
    is_Some (entryAt rf n) ∧ entryAt rf n = entryAt rf' n.
Proof.
  intros Hc Hs Hi Hj He He' Hte n Hn Hl Hl'.
  destruct (two_times _ _ _ _ _ _ Hc Hs Hi Hj) as (A & A' & pre & pre' & Hp & Hp' & Hg).
  destruct (placed_later c A i rf pre c' A' Hp Hg) as [Hgen _].
  destruct (placed_view _ _ _ _ _ Hp') as (_ & Hgen' & _).
  destruct (entryAt_bounds _ _ _ He), (entryAt_bounds _ _ _ He').
  destruct (placed_commit _ _ _ _ _ Hp) as (? & _ & Hlen).
  pose proof Hp as (_ & _ & Hcp & _). pose proof Hp' as (_ & _ & Hcp' & _).
  rewrite (full_log_entryAt pre) in He by (done || lia).
  rewrite (full_log_entryAt pre') in He' by (done || lia).
  pose proof (genuine_match A' _ _ _ _ _ Hgen Hgen' He He' Hte) as Heq. cbn in Heq.
  destruct (agree_upto _ _ _ _ _ _ _ _ _ _ n Hp Hp') as [Hen _];
    [lia|lia|by eapply take_agree; [|exact Heq]; lia|].
  split; [apply entryAt_in; lia|auto].
Qed.

(** Every service sees the same commands: when two peers, at any two
    times, collect batches to send on [applyCh], the messages with the same
    index are the same message. *)
Theorem applied_agree c c' i j rf rf' rf1 rf1' msgs msgs' k k' n n' m m' :
  cl_reachable N c → rtc (cl_step N) c c' → nodes c !! i = Some rf → nodes c' !! j = Some rf' →
  apply_collect rf = (rf1, Some (msgs, k)) → apply_collect rf' = (rf1', Some (msgs', k')) →
  msgs !! n = Some m → msgs' !! n' = Some m' → CommandIndex m = CommandIndex m' →
  Command m = Command m' ∧ CommandTerm m = CommandTerm m'.
Proof.
  intros Hc Hs Hi Hj Hb Hb' Hm Hm' Heq.
  destruct (two_times _ _ _ _ _ _ Hc Hs Hi Hj) as (A & A' & pre & pre' & Hp & Hp' & Hg).
  destruct (apply_collect_spec _ _ _ (placed_wf _ _ _ _ _ Hp) Hb) as (_ & _ & Hk & _ & Hlen & _ & Hat).
  destruct (apply_collect_spec _ _ _ (placed_wf _ _ _ _ _ Hp') Hb') as (_ & _ & Hk' & _ & Hlen' & _ & Hat').
  destruct (Hat _ _ Hm) as [Hx He], (Hat' _ _ Hm') as [Hx' He'].
  pose proof (lookup_lt_Some _ _ _ Hm). pose proof (lookup_lt_Some _ _ _ Hm'). unfold len in *.
  destruct (entryAt_bounds _ _ _ He), (entryAt_bounds _ _ _ He'). rewrite <- Heq in *.
  destruct (agree_upto _ _ _ _ _ _ _ _ _ _ (CommandIndex m) Hp Hp') as [Hen _];
    [lia|lia|eapply committed_agree; try done; lia|].
  rewrite He, He' in Hen by lia. by specialize (Hen ltac:(lia) ltac:(lia)) as [=].
Qed.

(** C9.  The cluster implements the protocol of RaftSpec.v: whatever it
    does from one reachable state to another, the specification can do from a
    reachable state of its own, such that before and after every peer has the
    specification's term, role, commit index and log: its slice after the base
    entry, behind what its snapshot replaced. *)
Theorem raft_implements_spec c c' :
  cl_reachable N c → rtc (cl_step N) c c' →
  ∃ A A', rtc (spec_step N) (spec_init N) A ∧ rtc (spec_step N) A A' ∧
    ∀ d B, (d = c ∧ B = A) ∨ (d = c' ∧ B = A') →
    ∀ i rf, nodes d !! i = Some rf →
    ∃ pre v, views B !! i = Some v ∧ v_term v = currentTerm rf ∧ v_role v = state rf ∧
      Z.of_nat (v_commit v) = commitIndex rf ∧ v_log v = pre ++ drop 1 (logs rf) ∧
      len pre = lastIncludedIndex rf ∧ lastTerm pre = lastIncludedTerm rf.
Proof.
  intros Hc Hs. destruct (cl_reachable_tracks N c HN Hc) as (A & HA & Ht).
  destruct (tracks_steps N c c' A HN Hs Ht) as (A' & HA' & _ & Ht').
  exists A, A'. split; [done|]. split; [done|]. intros d B Hd i rf Hi.
  assert (tracks N d B) as HdB by by destruct Hd as [[-> ->]|[-> ->]].
  destruct (placed_at _ _ _ _ HdB Hi) as (pre & Hp). exists pre, (view_of pre rf).
  destruct (placed_commit _ _ _ _ _ Hp) as (? & _). destruct Hp as (_ & _ & [? ?] & ?).
  split_and!; try done. cbn. lia.
Qed.

End safety.

(** ** A run

    The steps of a run as data, so that a run is evaluated: [perform] takes the
    one step of [cl_does] an action names. *)
Section run.
Context {Op SV : Type} (N : Z).
Implicit Types (c : Cluster (Op:=Op) (SV:=SV)).

Inductive Act :=
| ATick (i : Z) | AElection (k : nat) | AVoteCall (k : nat) | AVoteHandle (k : nat)
| AVoteReply (k : nat) | AVoteCount (k : nat) | ABroadcast (k : nat) | AReplicate (k : nat)
| AAppHandle (k : nat) | AAppReply (k : nat) | AStart (i : Z) (op : Op).

Definition perform (a : Act) c : option Cluster :=
  match a with
  | ATick i =>
      rf ← nodes c !! i;
      let '(rf', go) := ticker_election rf in
      Some (spawn (if go : bool then [PElection i] else []) (put i rf' c))
  | AElection k =>
      match procs c !! k with
      | Some (PElection i) =>
          rf ← nodes c !! i;
          let '(rf', ev) := Election rf in
          Some (spawn (PVoteStart i (length (elections c)) <$> others N i)
            ((set_proc k PDone (put i rf' c)) <| elections ::= λ l, l ++ [mkElectionRun i ev {[ i ]}] |>))
      | _ => None
      end
  | AVoteCall k =>
      match procs c !! k with
      | Some (PVoteStart i eid s) =>
          rf ← nodes c !! i; e ← elections c !! eid;
          Some (set_proc k (PVoteCall i eid s (RequestVote_args (el_term (er_vars e)) rf)) c)
      | _ => None
      end
  | AVoteHandle k =>
      match procs c !! k with
      | Some (PVoteCall i eid s args) =>
          rf ← nodes c !! s;
          let '(rf', reply) := RequestVoteHandle args rf in
          Some (set_proc k (PVoteReplied i eid s reply) (put s rf' c))
      | _ => None
      end
  | AVoteReply k =>
      match procs c !! k with
      | Some (PVoteReplied i eid s reply) =>
          rf ← nodes c !! i;
          let '(rf', ok) := RequestVote_reply reply rf in
          Some (set_proc k (if ok : bool then PVoteWon i eid s else PDone) (put i rf' c))
      | _ => None
      end
  | AVoteCount k =>
      match procs c !! k with
      | Some (PVoteWon i eid s) =>
          rf ← nodes c !! i; e ← elections c !! eid;
          let '(ev', rf', bc) := Election_count (er_vars e) rf in
          Some ((set_proc k (if bc : bool then PBroadcast i else PDone) (put i rf' c))
            <| elections ::= <[eid := mkElectionRun (er_src e) ev' ({[ s ]} ∪ er_counted e)]> |>)
      | _ => None
      end
  | ABroadcast k =>
      match procs c !! k with
      | Some (PBroadcast i) =>
          rf ← nodes c !! i;
          Some (spawn (match broadcastAppendEntries rf with
                       | Some term => (λ s, PReplicate i s term) <$> others N i
                       | None => [] end) (set_proc k PDone c))
      | _ => None
      end
  | AReplicate k =>
      match procs c !! k with
      | Some (PReplicate i s term) =>
          rf ← nodes c !! i;
          Some (set_proc k (match replicate_prepare s term rf with
                            | None => PDone
                            | Some (SendSnapshot args) => PSnapCall i s term args
                            | Some (SendEntries args) => PAppCall i s term args end) c)
      | _ => None
      end
  | AAppHandle k =>
      match procs c !! k with
      | Some (PAppCall i s term args) =>
          rf ← nodes c !! s;
          let '(rf', reply, b) := AppendEntriesHandler args rf in
          Some (set_proc k (PAppReplied i s term args reply) (put s rf' c))
      | _ => None
      end
  | AAppReply k =>
      match procs c !! k with
      | Some (PAppReplied i s term args reply) =>
          rf ← nodes c !! i;
          let '(rf', ctl, b) := replicate_append_reply s term args reply rf in
          Some (set_proc k (match ctl with Continue => PReplicate i s term | Return => PDone end)
                 (put i rf' c))
      | _ => None
      end
  | AStart i op =>
      rf ← nodes c !! i;
      Some (spawn (if (Start (AOp op) rf).2.2 then [PBroadcast i] else [])
             (put i (run_section (StartCommand (AOp op)) rf) c))
  end.

Lemma perform_step a c c' : perform a c = Some c' → cl_step N c c'.
Proof.
  intros H. destruct a; unfold perform in H;
    repeat match type of H with
    | match ?x with _ => _ end = Some _ => destruct x eqn:?; try done
    | (_ ≫= _) = Some _ => apply bind_Some in H as (? & ? & H)
    end;
    injection H as <-; eexists;
    [ by eapply cl_tick | by eapply cl_election | by eapply cl_vote_call | by eapply cl_vote_handle
    | by eapply cl_vote_reply | by eapply cl_vote_count | by eapply cl_broadcast
    | by eapply cl_replicate | by eapply cl_app_handle | by eapply cl_app_reply
    | by eapply cl_start ].
Qed.

Fixpoint perform_all (acts : list Act) c : option Cluster :=
  match acts with [] => Some c | a :: acts => perform a c ≫= perform_all acts end.

Lemma perform_all_steps acts c : rtc (cl_step N) c (default c (perform_all acts c)).
Proof.
  revert c. induction acts as [|a acts IH]; intros c; cbn; [done|].
  destruct (perform a c) as [c1|] eqn:E; cbn; [|done].
  specialize (IH c1). destruct (perform_all acts c1) as [c2|]; cbn in *; [|done].
  eapply rtc_l; [by eapply perform_step|done].
Qed.

End run.

Arguments Act : clear implicits.

(** Peer 0 of three is elected by peer 1, takes command 7 and commits it; then
    peer 1 learns that it is committed. *)
Definition commit_acts : list (Act nat) :=
  [ATick 0; AElection 0; AVoteCall 1; AVoteHandle 1; AVoteReply 1; AVoteCount 1;
   AStart 0 7%nat; ABroadcast 1; AReplicate 4; AAppHandle 4; AAppReply 4].
Definition learn_acts : list (Act nat) := [ABroadcast 3; AReplicate 6; AAppHandle 6].

Definition committed_cluster : Cluster (Op:=nat) (SV:=nat) :=
  default (cl_init 3) (perform_all 3 commit_acts (cl_init 3)).
Definition learned_cluster : Cluster (Op:=nat) (SV:=nat) :=
  default committed_cluster (perform_all 3 learn_acts committed_cluster).
Definition peer_of (c : Cluster (Op:=nat) (SV:=nat)) (i : Z) : Raft nat nat :=
  default (Make 3 i MakePersister) (nodes c !! i).

Lemma committed_reachable : cl_reachable 3 committed_cluster.
Proof. apply perform_all_steps. Qed.

Lemma learned_later : rtc (cl_step 3) committed_cluster learned_cluster.
Proof. apply perform_all_steps. Qed.

Lemma committed_leader : nodes committed_cluster !! 0 = Some (peer_of committed_cluster 0).
Proof. vm_compute. reflexivity. Qed.

Lemma learned_peer i : i = 0 ∨ i = 1 → nodes learned_cluster !! i = Some (peer_of learned_cluster i).
Proof. intros [->| ->]; vm_compute; reflexivity. Qed.

Example run_result :
  let summary rf := (state rf, commitIndex rf, entryAt rf 1) in
  summary (peer_of committed_cluster 0) = (Leader, 1, Some (mkEntry (AOp 7%nat) 1)) ∧
  summary (peer_of learned_cluster 1) = (Follower, 1, Some (mkEntry (AOp 7%nat) 1)).
Proof. split; vm_compute; reflexivity. Qed.

(** ** Witnesses *)

Lemma three_peers : 0 ≤ 3.
Proof. done. Qed.

Definition leader_peer : Raft nat nat := peer_of committed_cluster 0.
Definition follower_peer : Raft nat nat := peer_of learned_cluster 1.

Lemma state_machine_safety_witness :
  1 ≤ commitIndex leader_peer ∧ 1 ≤ commitIndex follower_peer ∧
  is_Some (entryAt leader_peer 1) ∧ entryAt leader_peer 1 = entryAt follower_peer 1.
Proof.
  assert (1 ≤ commitIndex leader_peer) as H1 by (vm_compute; congruence).
  assert (1 ≤ commitIndex follower_peer) as H2 by (vm_compute; congruence).
  split; [exact H1|]. split; [exact H2|].
  apply (state_machine_safety 3 three_peers committed_cluster learned_cluster 0 1 leader_peer
    follower_peer 1 committed_reachable learned_later committed_leader (learned_peer 1 (or_intror eq_refl))
    H1 H2); vm_compute; reflexivity.
Defined.

Lemma leader_completeness_witness :
  state leader_peer = Leader ∧ 1 ≤ commitIndex leader_peer ∧
  1 ≤ lastIndex (peer_of learned_cluster 0).
Proof.
  assert (1 ≤ commitIndex leader_peer) as H1 by (vm_compute; congruence).
  split; [vm_compute; reflexivity|]. split; [exact H1|].
  refine (proj1 (leader_completeness 3 three_peers committed_cluster learned_cluster 0 0 leader_peer
    (peer_of learned_cluster 0) 1 committed_reachable learned_later committed_leader
    (learned_peer 0 (or_introl eq_refl)) _ _ H1)); vm_compute; congruence.
Defined.

Lemma log_matching_witness :
  entryAt leader_peer 1 = Some (mkEntry (AOp 7%nat) 1) ∧
  entryAt leader_peer 1 = entryAt follower_peer 1.
Proof.
  split; [vm_compute; reflexivity|].
  refine (proj2 (log_matching 3 three_peers committed_cluster learned_cluster 0 1 leader_peer
    follower_peer 1 (mkEntry (AOp 7%nat) 1) (mkEntry (AOp 7%nat) 1) committed_reachable learned_later
    committed_leader (learned_peer 1 (or_intror eq_refl)) _ _ eq_refl 1 _ _ _));
    vm_compute; congruence.
Defined.

Lemma applied_agree_witness :
  (apply_collect leader_peer).2 = Some ([commandMsg (AOp 7%nat) 1 1], 1) ∧
  Command (commandMsg (SV:=nat) (AOp 7%nat) 1 1) = Command (commandMsg (SV:=nat) (AOp 7%nat) 1 1).
Proof.
  split; [vm_compute; reflexivity|].
  refine (proj1 (applied_agree 3 three_peers committed_cluster learned_cluster 0 1 leader_peer
    follower_peer leader_peer follower_peer [commandMsg (AOp 7%nat) 1 1] [commandMsg (AOp 7%nat) 1 1]
    1 1 0 0 _ _ committed_reachable learned_later committed_leader
    (learned_peer 1 (or_intror eq_refl)) _ _ eq_refl eq_refl eq_refl)); vm_compute; reflexivity.
Defined.

Lemma raft_implements_spec_witness :
  ∃ pre v A, rtc (spec_step 3) (spec_init 3) A ∧ views A !! 0 = Some v ∧
    Z.of_nat (v_commit v) = 1 ∧ v_log v = pre ++ [mkEntry (AOp 7%nat) 1].
Proof.
  destruct (raft_implements_spec 3 three_peers committed_cluster learned_cluster
    committed_reachable learned_later) as (A & A' & HA & _ & H).
  destruct (H committed_cluster A (or_introl (conj eq_refl eq_refl)) 0 leader_peer committed_leader)
    as (pre & v & Hv & _ & _ & Hk & Hl & _).
  exists pre, v, A. split; [exact HA|]. split; [exact Hv|]. split.
  - exact (eq_trans Hk eq_refl).
  - exact (eq_trans Hl eq_refl).
Defined.
