(* ===== verification/RaftLog.v ===== *)
(** * The log the services share

    In a cluster that takes no snapshots the committed parts of the logs are
    prefixes of one list of commands that only grows, and what a peer sends on
    [applyCh] are commands of that list at their positions. *)
From stdpp Require Import base tactics strings numbers relations sets gmap list.
From S2P Require Import Prelude.
From S2P Require Import Labgob.
From S2P Require Import Persister.
From S2P Require Import Raft.
From S2P Require Import RaftFacts.
From S2P Require Import RaftApply.
From S2P Require Import RaftSpec.
From S2P Require Import RaftCluster.
From S2P Require Import RaftCommands.
From S2P Require Import RaftRefine.
From S2P Require Import RaftSafety.
Open Scope Z_scope.
Open Scope go_scope.

#[export] Instance AOp_inj {Op} : Inj (=) (=) (@AOp Op).
Proof. by intros x y [= ->]. Qed.

Section shared.
Context {Op SV : Type} (N : Z) (HN : 0 ≤ N).
Implicit Types (rf : Raft Op SV) (c : Cluster (Op:=Op) (SV:=SV)) (L : list Op)
  (P : Op → Prop) (G es : list (LogEntry Op)).

Definition committed_part rf : list (LogEntry Op) := take (Z.to_nat (commitIndex rf)) (tail_of rf).

(** These entries hold these commands. *)
Definition holds_ops es L : Prop := e_Command <$> es = AOp <$> L.

(** [L] is the list of commands the peers have committed, all of which satisfy
    [P]. *)
Definition shares P c L : Prop :=
  uncompacted c ∧ commands_given (λ command, ∃ op, command = AOp op ∧ P op) c ∧ Forall P L ∧
  ∃ A G t, tracks N c A ∧ committed N A t G ∧ holds_ops G L ∧
    ∀ i rf, nodes c !! i = Some rf → committed_part rf `prefix_of` G.

Lemma holds_ops_prefix es es' L L' :
  holds_ops es L → holds_ops es' L' → es `prefix_of` es' → L `prefix_of` L'.
Proof.
  unfold holds_ops. intros H H' [k ->]. rewrite fmap_app, H in H'. symmetry in H'.
  apply fmap_app_inv in H' as (L1 & L2 & E1 & _ & ->).
  apply list_fmap_eq_inj in E1 as ->; [|apply _]. by exists L2.
Qed.

Lemma holds_ops_exists P es :
  all_given (λ command, ∃ op, command = AOp op ∧ P op) es → ∃ L, holds_ops es L ∧ Forall P L.
Proof.
  unfold holds_ops. induction es as [|e es IH]; intros H; [by exists []|].
  destruct IH as (L & HL & HP); [intros e' ?; apply H; by apply list_elem_of_further|].
  destruct (H e) as (op & He & Hop); [apply list_elem_of_here|].
  exists (op :: L). cbn. rewrite HL, He. split; [done|]. by constructor.
Qed.

(** A peer of an uncompacted cluster has its whole log. *)
Lemma placed_whole c A i rf :
  tracks N c A → uncompacted c → nodes c !! i = Some rf → placed N c A i rf [].
Proof.
  intros Ht Hu Hi. destruct (placed_at _ _ _ _ _ Ht Hi) as (pre & Hp).
  assert (pre = []) as ->; [|done]. destruct Hp as (_ & _ & [Hl _] & _).
  destruct (uc_nodes _ Hu _ _ Hi) as [E _]. rewrite E in Hl. destruct pre; [done|].
  rewrite len_cons in Hl. pose proof (len_nonneg pre). lia.
Qed.

Lemma committed_part_spec c A i rf :
  tracks N c A → uncompacted c → nodes c !! i = Some rf →
  ∃ t, committed N A t (committed_part rf).
Proof.
  intros Ht Hu Hi. pose proof (placed_whole _ _ _ _ Ht Hu Hi) as Hp.
  exists (currentTerm rf). by destruct (placed_later N c A i rf [] c A Hp (grows_refl _)).
Qed.

Lemma committed_part_entry c A i rf k :
  tracks N c A → uncompacted c → nodes c !! i = Some rf → 0 < k ≤ commitIndex rf →
  committed_part rf !! Z.to_nat (k - 1) = entryAt rf k.
Proof.
  intros Ht Hu Hi Hk. destruct (placed_whole _ _ _ _ Ht Hu Hi) as (_ & _ & Hc & _).
  destruct (uc_nodes _ Hu _ _ Hi) as [E _].
  rewrite (full_log_entryAt [] rf k Hc) by lia. unfold committed_part.
  by rewrite lookup_take_lt by lia.
Qed.

(** A longer list that covers what the cluster has committed after a step. *)
Lemma cover_step c c' l A t G :
  cl_does N c l c' → tracks N c' A → uncompacted c' → committed N A t G →
  (∀ i rf, nodes c !! i = Some rf → committed_part rf `prefix_of` G) →
  ∃ t' G', committed N A t' G' ∧ G `prefix_of` G' ∧
    (G' = G ∨ ∃ i rf, nodes c' !! i = Some rf ∧ G' = committed_part rf) ∧
    ∀ i rf, nodes c' !! i = Some rf → committed_part rf `prefix_of` G'.
Proof.
  intros Hdo Ht Hu HG Hpre.
  assert (∀ j rf', nodes c' = <[j := rf']> (nodes c) → ∃ t' G', committed N A t' G' ∧
    G `prefix_of` G' ∧ (G' = G ∨ ∃ i rf, nodes c' !! i = Some rf ∧ G' = committed_part rf) ∧
    ∀ i rf, nodes c' !! i = Some rf → committed_part rf `prefix_of` G') as Hone.
  { intros j rf' E. assert (nodes c' !! j = Some rf') as Hj by (rewrite E; apply lookup_insert_eq).
    destruct (committed_part_spec _ _ _ _ Ht Hu Hj) as (t' & Hc').
    destruct (committed_comparable N HN A _ _ _ _ (proj2 (proj2 Ht)) HG Hc') as [Hle|Hle].
    - exists t', (committed_part rf'). split_and!; [done|done|by eauto|].
      intros i rf. rewrite E. intros [[<- <-]|[_ Hi]]%lookup_insert_Some; [done|].
      by etrans; [by eapply Hpre|].
    - exists t, G. split_and!; [done|done|by left|].
      intros i rf. rewrite E. intros [[<- <-]|[_ Hi]]%lookup_insert_Some; [done|]. by eapply Hpre. }
  pose proof (cl_does_nodes _ _ _ _ Hdo) as Hns. destruct l; cbn in Hns.
  - exists t, G. split_and!; [done|done|by left|]. by rewrite Hns.
  - destruct Hns as (? & _ & _ & ?). by eapply Hone.
  - destruct Hns as (? & _ & ?). by eapply Hone.
Qed.

Lemma shares_step P P' c l c' L :
  cl_does N c l c' → snapshot_free l = true → (∀ op, P op → P' op) →
  (∀ command, label_command l = Some command → ∃ op, command = AOp op ∧ P' op) →
  shares P c L → ∃ L', L `prefix_of` L' ∧ shares P' c' L'.
Proof.
  intros Hdo Hf HP Hl (Hu & Hg & HL & A & G & t & Ht & HG & Hh & Hpre).
  assert (commands_given (λ command, ∃ op, command = AOp op ∧ P' op) c) as Hg1
    by (eapply commands_given_more; [|exact Hg]; intros command (op & ? & ?); eauto).
  pose proof (cl_does_given N _ _ _ _ (proj1 Ht) Hdo Hl Hg1) as Hg'.
  pose proof (cl_does_uncompacted N _ _ _ (proj1 Ht) Hdo Hf Hu) as Hu'.
  destruct (tracks_steps N c c' A HN) as (A' & _ & Hgr & Ht'); [apply rtc_once; by eexists|done|].
  assert (committed N A' t G) as HG1 by (eapply (committed_grows N A A' t t); [done|lia|done]).
  destruct (cover_step _ _ _ _ _ _ Hdo Ht' Hu' HG1 Hpre) as (t' & G' & HG' & HGG & Hor & Hpre').
  assert (∃ L', holds_ops G' L' ∧ Forall P' L') as (L' & Hh' & HL').
  { destruct Hor as [->|(i & rf & Hi & ->)].
    - exists L. split; [done|]. eapply Forall_impl; [exact HL|done].
    - apply holds_ops_exists. intros e He. apply (cg_nodes _ _ Hg' _ _ Hi).
      unfold committed_part in He. apply elem_of_take in He as (j & Hj & _).
      by eapply list_elem_of_lookup_2. }
  exists L'. split; [by eapply holds_ops_prefix|]. split_and!; try done. by exists A', G', t'.
Qed.

Lemma cl_init_shares P : shares P (cl_init N) [].
Proof.
  split_and!; [apply cl_init_uncompacted|apply cl_init_given|constructor|].
  exists (spec_init N), [], 0. split_and!; [by apply cl_init_tracks|by left|done|].
  intros i rf Hi%elem_of_list_to_map_2. by apply list_elem_of_fmap in Hi as (j & [= -> ->] & _).
Qed.

(** ** What is sent on [applyCh] *)

Definition in_log L (m : ApplyMsg Op SV) : Prop :=
  ∃ op, Command m = AOp op ∧ 0 < CommandIndex m ∧ L !! Z.to_nat (CommandIndex m - 1) = Some op.

Lemma in_log_prefix L L' m : L `prefix_of` L' → in_log L m → in_log L' m.
Proof.
  intros HL (op & ? & ? & H). exists op. split_and!; [done|done|]. by eapply prefix_lookup_Some.
Qed.

Lemma batch_collected s rf b :
  raft_wf rf → section_pre s rf → section_batch s rf = Some b →
  raft_wf (run_section s rf) ∧ apply_collect (run_section s rf) = (run_section s rf, Some b).
Proof.
  intros Hwf Hpre Hb. pose proof (run_section_wf s rf Hwf Hpre) as Hwf'. split; [done|].
  assert (∀ rf1, raft_wf rf1 → apply_collect rf1 = (run_section s rf, Some b) →
    apply_collect (run_section s rf) = (run_section s rf, Some b)) as Hsame.
  { intros rf1 Hwf1 E. pose proof (apply_collect_spec _ _ _ Hwf1 E) as Hs. destruct b.
    destruct Hs as (E1 & _). rewrite E1 at 1. congruence. }
  assert (∀ n, shape n rf (run_section s rf, section_batch s rf) →
    apply_collect (run_section s rf) = (run_section s rf, Some b)) as Hshape.
  { intros n (rf2 & Hwf2 & _ & [H|H]); rewrite Hb in H; [done|]. unfold apply_enter in H.
    repeat case_if_in H; try done. symmetry in H. eapply Hsame, H.
    destruct Hwf2; constructor; cbn; auto. }
  destruct s; try done.
  - by apply (Hshape 0), AppendEntriesHandler_shape.
  - by apply (Hshape 0), replicate_append_reply_shape.
  - cbn in Hb. unfold apply_resume in *. case_if_in Hb; [done|]. cbn [run_section] in *.
    unfold apply_resume in *. rewrite E in *. cbn in Hpre.
    set (rf1 := if _ : bool then _ else rf) in *.
    apply (Hsame rf1); [|by destruct (apply_collect rf1); cbn in *; subst].
    subst rf1. case_if; [|done]. zbool. destruct Hwf; constructor; cbn; auto; lia.
Qed.

(** What the peer has committed is in the log. *)
Definition covers L rf : Prop :=
  ∀ k e, 0 < k ≤ commitIndex rf → entryAt rf k = Some e →
    ∃ op, e_Command e = AOp op ∧ L !! Z.to_nat (k - 1) = Some op.

Lemma covers_prefix L L' rf : L `prefix_of` L' → covers L rf → covers L' rf.
Proof.
  intros HL H k e Hk He. destruct (H k e Hk He) as (op & ? & ?). exists op.
  split; [done|]. by eapply prefix_lookup_Some.
Qed.

Lemma shares_covers P c L i rf : shares P c L → nodes c !! i = Some rf → covers L rf.
Proof.
  intros (Hu & _ & _ & A & G & t & Ht & _ & Hh & Hpre) Hi k e Hk He.
  rewrite <- (committed_part_entry _ _ _ _ _ Ht Hu Hi Hk) in He.
  pose proof (prefix_lookup_Some _ _ _ _ He (Hpre _ _ Hi)) as HeG.
  apply (f_equal (λ l, l !! Z.to_nat (k - 1))) in Hh. rewrite !list_lookup_fmap, HeG in Hh. cbn in Hh.
  destruct (L !! _) as [op|] eqn:HL; [|done]. injection Hh as Hop. by exists op.
Qed.

Lemma collected_in_log L rf rf' msgs k :
  raft_wf rf → covers L rf → apply_collect rf = (rf', Some (msgs, k)) → Forall (in_log L) msgs.
Proof.
  intros Hwf Hcov Hcol. destruct (apply_collect_spec _ _ _ Hwf Hcol) as (_ & _ & Hk & _ & Hlen & _ & Hat).
  apply Forall_lookup_2. intros j m Hm. destruct (Hat _ _ Hm) as [Hidx He].
  pose proof (lookup_lt_Some _ _ _ Hm). pose proof (wf_applied _ Hwf). pose proof (wf_lii _ Hwf).
  unfold len in *. destruct (Hcov (CommandIndex m) _ ltac:(lia) He) as (op & Hop & HL). exists op.
  split_and!; [done|lia|done].
Qed.

Lemma batch_in_log P c i s c' L rf msgs k :
  cl_does N c (LRun i s) c' → cl_inv N c → nodes c !! i = Some rf → shares P c' L →
  section_batch s rf = Some (msgs, k) → Forall (in_log L) msgs.
Proof.
  intros Hdo Hc Hi Hsh Hb.
  destruct (cl_does_nodes _ _ _ _ Hdo) as (rf0 & Hi0 & Hsp & Hns). simplify_eq.
  destruct (ni_node _ _ _ _ (ci_node _ _ Hc) _ _ Hi) as (Hwf & _).
  destruct (batch_collected _ _ _ Hwf Hsp Hb) as [Hwf' Hcol].
  eapply collected_in_log; [done| |done]. eapply shares_covers; [done|]. rewrite Hns. apply lookup_insert_eq.
Qed.

(** A refused snapshot is a local critical section. *)
Lemma pl_inv_section n0 s rf b q d :
  pl_inv n0 (mkPipeline rf b q d) → is_resume s = false →
  local_section (n0 + len d) s ∨
    (∃ args, s = HandleSnapshot args ∧ isa_LastIncludedIndex args ≤ lastIncludedIndex rf) →
  pl_inv n0 (mkPipeline (run_section s rf)
               (match section_batch s rf with Some b' => Some b' | None => b end) q d).
Proof.
  intros Hinv Hr [Hl|(args & -> & Hle)].
  - eapply pl_local_inv; [by apply pl_local_section|done].
  - cbn. eapply pl_inv_quiet; [done| |].
    + apply (run_section_wf (HandleSnapshot args) rf); [apply (pi_wf _ _ Hinv)|done].
    + unfold InstallSnapshot. repeat case_if; zbool; cbn in *; split_and!; try done; try lia; by left.
Qed.

(** ** An instance of a peer and what it sends *)

(** The service has received [ms] from the instance, which is sending [b]; all
    of it is in the log. *)
Definition sends L rf (b : option (Batch Op SV)) (ms : list (ApplyMsg Op SV)) : Prop :=
  pl_inv 0 (mkPipeline rf b [] ms) ∧ Forall (in_log L) ms ∧
  match b with Some (msgs, _) => Forall (in_log L) msgs | None => True end.

Lemma sends_prefix L L' rf b ms : L `prefix_of` L' → sends L rf b ms → sends L' rf b ms.
Proof.
  intros HL (? & Hms & Hb).
  assert (∀ l : list (ApplyMsg Op SV), Forall (in_log L) l → Forall (in_log L') l) as Hmono
    by (intros l Hl; eapply Forall_impl; eauto using in_log_prefix).
  split_and!; auto. destruct b as [[]|]; auto.
Qed.

Lemma sends_message L rf m msgs k ms : sends L rf (Some (m :: msgs, k)) ms → sends L rf (Some (msgs, k)) (ms ++ [m]).
Proof.
  intros (Hpl & Hms & [Hm Hb]%Forall_cons). split_and!; [|by apply Forall_app; repeat constructor|done].
  eapply pl_local_inv; [apply pl_local_send|done].
Qed.

Lemma sends_section L rf b ms s :
  sends L rf b ms → is_resume s = false →
  (∀ n, local_section n s) ∨
    (∃ args, s = HandleSnapshot args ∧ isa_LastIncludedIndex args ≤ lastIncludedIndex rf) →
  (∀ msgs k, section_batch s rf = Some (msgs, k) → Forall (in_log L) msgs) →
  sends L (run_section s rf) (match section_batch s rf with Some b' => Some b' | None => b end) ms.
Proof.
  intros (Hpl & Hms & Hb) Hr Hs Hbatch. split_and!; [|done|].
  - eapply pl_inv_section; [done|done|]. naive_solver.
  - destruct (section_batch s rf) as [[msgs k]|]; eauto.
Qed.

Lemma sends_resume L rf k ms :
  sends L rf (Some ([], k)) ms →
  (∀ msgs k', section_batch (ResumeApply k) rf = Some (msgs, k') → Forall (in_log L) msgs) →
  sends L (run_section (ResumeApply k) rf) (section_batch (ResumeApply k) rf) ms.
Proof.
  intros (Hpl & Hms & _) Hbatch. split_and!; [|done|].
  - eapply pl_local_inv; [apply pl_local_resume|done].
  - destruct (section_batch _ rf) as [[msgs k']|]; eauto.
Qed.

Lemma sends_start L i (ps : Persister (RaftGob Op) SV) :
  raft_wf (Make N i ps) → lastIncludedIndex (Make N i ps) = 0 → sends L (Make N i ps) None [].
Proof.
  intros Hwf Hl. split_and!; [|constructor|done]. destruct (Make_idle N i ps) as [Hf Ha].
  pose proof (pl_start_inv N i ps Hwf Hf Ha) as Hpl.
  destruct (Make_volatile N i ps) as (_ & _ & _ & _ & _ & _ & _ & Hla).
  rewrite Hl in Hla. by rewrite Hla in Hpl.
Qed.

(** ** The batches of all peers *)

(** The steps of the peers in which the service and [applyCh] have no part. *)
Definition peer_label (l : Label (Op:=Op) (SV:=SV)) : bool :=
  match l with
  | LNone => true
  | LCrash _ => false
  | LRun _ s =>
      match s with
      | StartCommand _ | ResumeApply _ | SnapshotSent | CondInstall _ _ _ | TakeSnapshot _ _
      | KillPeer => false
      | _ => true
      end
  end.

Lemma peer_label_free l : peer_label l = true → snapshot_free l = true.
Proof. destruct l as [|i sec|]; [done| |done]. by destruct sec. Qed.
Lemma peer_label_command l : peer_label l = true → label_command l = None.
Proof. destruct l as [|i sec|]; [done| |done]. by destruct sec. Qed.

(** A critical section that collects a batch leaves it to its goroutine to send. *)
Definition label_batch (l : Label (Op:=Op) (SV:=SV)) c : option (Z * Batch Op SV) :=
  match l with
  | LRun i s => rf ← nodes c !! i; b ← section_batch s rf; Some (i, b)
  | _ => None
  end.
Definition hand_over (ib : option (Z * Batch Op SV)) (m : gmap Z (Batch Op SV)) : gmap Z (Batch Op SV) :=
  match ib with Some (i, b) => <[i := b]> m | None => m end.

Lemma label_batch_run i s rf c m :
  nodes c !! i = Some rf →
  hand_over (label_batch (LRun i s) c) m !! i = (match section_batch s rf with Some b => Some b | None => m !! i end) ∧
  ∀ j, j ≠ i → hand_over (label_batch (LRun i s) c) m !! j = m !! j.
Proof.
  intros Hi. cbn. rewrite Hi. cbn. destruct (section_batch s rf) as [b|]; cbn; [|done].
  split; [apply lookup_insert_eq|]. intros j Hj. by rewrite lookup_insert_ne.
Qed.
End shared.
