(* ===== verification/Labrpc.v ===== *)
(** * labrpc: the simulated network

    [labrpc/labrpc.go].  A [Network] knows client end-points, the servers they
    are connected to and how badly it should behave.  [Call] sends a request
    to the goroutine of the network, which starts [processReq] for it;
    [processReq] runs the handler on the server in a goroutine of its own and
    decides what the caller is told.  Here are the data, the operations of the
    network and of servers, and the code of [Call], [processReq] and
    [dispatch] between two points at which it waits, sends or sleeps.
    LabrpcRun.v runs calls, servers and the tester's operations together.

    Values of handlers are the type [V]; [encoding/gob] and [reflect] are the
    interface [Reflect].  Bytes are the streams of values of Labgob.v. *)
From stdpp Require Import base tactics strings numbers gmap list.
From S2P Require Import Prelude.
From S2P Require Import Labgob.
Open Scope Z_scope.
Open Scope go_scope.

(** ** What the source uses of Go *)

(** The values the repository puts into an [interface{}] that names an end or
    a server. *)
Inductive Iface := INil | IInt (z : Z) | IString (s : string).

#[export] Instance Iface_eq_dec : EqDecision Iface.
Proof. solve_decision. Defined.
#[export] Program Instance Iface_countable : Countable Iface :=
  inj_countable (λ x, match x with INil => inl () | IInt z => inr (inl z) | IString s => inr (inr s) end)
    (λ y, Some match y with inl _ => INil | inr (inl z) => IInt z | inr (inr s) => IString s end) _.
Next Obligation. by intros []. Qed.

(** A [w]-bit two's complement integer after an addition. *)
Definition wrap (w z : Z) : Z := (z + 2 ^ (w - 1)) mod 2 ^ w - 2 ^ (w - 1).

(** [strings.LastIndex(s, ".")] with the slices on both sides of the dot;
    without a dot the index is -1 and [s[:dot]] panics. *)
Fixpoint split_last (s : string) : option (string * string) :=
  match s with
  | EmptyString => None
  | String c s' =>
      match split_last s' with
      | Some (a, b) => Some (String c a, b)
      | None => if bool_decide (String c EmptyString = ".") then Some (EmptyString, s') else None
      end
  end.

(** [reflect.Type] of the values of handlers (types compare with ==), [reflect.Zero], whether a value
    of one type may be passed for a parameter of another, what [Decode] leaves
    in a variable that held the first value (and whether it returned nil), and
    the length of encoded values in bytes. *)
Class Reflect (V : Type) := {
  RType : Type;
  #[global] RType_eq_dec :: EqDecision RType;
  TypeOf : V → RType;
  Zero : RType → V;
  assignable : RType → RType → bool;
  assign : V → V → V * bool;
  byte_len : list V → Z
}.

Section labrpc.
Context {V : Type} `{!Reflect V}.

Implicit Types name : Iface.

(** ** Services *)

(** What [MakeService] asks of a method: exported or not, the number of
    inputs (the receiver is one), the type of input 1, of what input 2 points
    to when it is a pointer, and the number of outputs. *)
Record Method := mkMethod {
  Name : string; PkgPath : string; NumIn : Z; In1 : RType; In2Elem : option RType; NumOut : Z
}.

(** The type of a receiver: its name, and its method set in [reflect]'s order. *)
Record Rcvr := mkRcvr { typeName : string; typeMethods : list Method }.

Record Service := mkService { name : string; methods : gmap string Method }.

Definition looks_like_handler (m : Method) : bool :=
  negb (negb (bool_decide (PkgPath m = "")) || negb (NumIn m =? 3)
        || bool_decide (In2Elem m = None) || negb (NumOut m =? 0)).

Definition MakeService (rcvr : Rcvr) : Service :=
  mkService (typeName rcvr)
    (foldl (λ ms m, if looks_like_handler m then <[Name m := m]> ms else ms) ∅ (typeMethods rcvr)).

Record Server := mkServer { services : gmap string Service; srv_count : Z }.

#[export] Instance Server_eta : RecordEta Server := λ rs, mkServer (services rs) (srv_count rs).

Definition MakeServer : Server := mkServer ∅ 0.
Definition AddService (svc : Service) (rs : Server) : Server :=
  rs <| services ::= <[name svc := svc]> |>.

(** ** Messages *)

Record reqMsg := mkReqMsg { endname : Iface; svcMeth : string; argsType : RType; args : list V }.
Record replyMsg := mkReplyMsg { rep_ok : bool; rep_reply : list V }.

Definition no_reply : replyMsg := mkReplyMsg false [].

(** ** The dispatch on the server *)

(** [Server.dispatch] up to the call of the service's: it counts the request
    and splits the name.  [None]: there is no dot, the slice panics; or the
    service is unknown, [log.Fatalf]. *)
Definition Server_dispatch (req : reqMsg) (rs : Server) : Server * option (Service * string) :=
  (rs <| srv_count ::= λ n, n + 1 |>,
   '(serviceName, methodName) ← split_last (svcMeth req);
   service ← services rs !! serviceName;
   Some (service, methodName)).

(** [Service.dispatch] up to the call of the method: the arguments it is given
    are a fresh variable of the caller's type into which the bytes are decoded
    (an error of the decoder is not looked at).  [None]: the method is unknown,
    or [reflect] panics because it does not take such an argument. *)
Definition Service_dispatch (methname : string) (req : reqMsg) (svc : Service) : option (Method * V) :=
  method ← methods svc !! methname;
  let zero := Zero (argsType req) in
  let '(decoded, _) := Decode (λ v, Some (assign zero v).1) (NewDecoder (args req)) in
  if assignable (argsType req) (In1 method) then Some (method, default zero decoded) else None.

(** What it does when the method has left [v] in the reply variable. *)
Definition Service_reply (v : V) : replyMsg := mkReplyMsg true (EncodeAll [v]).

(** ** The network *)

Record ClientEnd := mkClientEnd { ce_endname : Iface }.

(** Servers are pointers: positions in a heap, [None] is [nil]. *)
Record Network := mkNetwork {
  reliable : bool;
  longDelays : bool;
  longReordering : bool;
  ends : gmap Iface ClientEnd;
  enabled : gmap Iface bool;
  servers : gmap Iface (option nat);
  connections : gmap Iface Iface;
  net_done : bool;                      (* the channel [done] is closed *)
  net_count : Z;
  net_bytes : Z
}.

#[export] Instance Network_eta : RecordEta Network := λ rn,
  mkNetwork (reliable rn) (longDelays rn) (longReordering rn) (ends rn) (enabled rn) (servers rn)
    (connections rn) (net_done rn) (net_count rn) (net_bytes rn).

Definition MakeNetwork : Network := mkNetwork true false false ∅ ∅ ∅ ∅ false 0 0.

(** Closing a closed channel panics. *)
Definition Cleanup (rn : Network) : option Network :=
  if net_done rn then None else Some (rn <| net_done := true |>).
Definition Reliable (yes : bool) (rn : Network) : Network := rn <| reliable := yes |>.
Definition LongReordering (yes : bool) (rn : Network) : Network := rn <| longReordering := yes |>.
Definition LongDelays (yes : bool) (rn : Network) : Network := rn <| longDelays := yes |>.

(** An end that exists already is fatal. *)
Definition MakeEnd (endname : Iface) (rn : Network) : option (Network * ClientEnd) :=
  match ends rn !! endname with
  | Some _ => None
  | None =>
      let e := mkClientEnd endname in
      Some (rn <| ends ::= <[endname := e]> |> <| enabled ::= <[endname := false]> |>
               <| connections ::= <[endname := INil]> |>, e)
  end.

Definition AddServer (servername : Iface) (rs : option nat) (rn : Network) : Network :=
  rn <| servers ::= <[servername := rs]> |>.
Definition DeleteServer (servername : Iface) (rn : Network) : Network :=
  rn <| servers ::= <[servername := None]> |>.
Definition Connect (endname servername : Iface) (rn : Network) : Network :=
  rn <| connections ::= <[endname := servername]> |>.
Definition Enable (endname : Iface) (b : bool) (rn : Network) : Network :=
  rn <| enabled ::= <[endname := b]> |>.

(** [GetCount] of a server that is not there dereferences a nil pointer. *)
Definition GetCount (servername : Iface) (rn : Network) (heap : list Server) : option Z :=
  p ← map_get None (servers rn) servername; srv_count <$> heap !! p.
Definition GetTotalCount (rn : Network) : Z := net_count rn.
Definition GetTotalBytes (rn : Network) : Z := net_bytes rn.

(** The results of [readEndnameInfo]. *)
Record EndnameInfo := mkEndnameInfo {
  i_enabled : bool; i_servername : Iface; i_server : option nat; i_reliable : bool; i_longreordering : bool
}.

Definition readEndnameInfo (endname : Iface) (rn : Network) : EndnameInfo :=
  let servername := map_get INil (connections rn) endname in
  mkEndnameInfo (map_get false (enabled rn) endname) servername
    (if bool_decide (servername = INil) then None else map_get None (servers rn) servername)
    (reliable rn) (longReordering rn).

Definition isServerDead (endname servername : Iface) (server : option nat) (rn : Network) : bool :=
  bool_decide (map_get false (enabled rn) endname = false)
  || negb (bool_decide (map_get None (servers rn) servername = server)).

(** ** [processReq]

    Random numbers are arguments. *)

(** The goroutine of the network has taken the request from [endCh]. *)
Definition receive_request (req : reqMsg) (rn : Network) : Network :=
  rn <| net_count ::= λ n, wrap 32 (n + 1) |>
     <| net_bytes ::= λ n, wrap 64 (n + byte_len (args req)) |>.

(** The server a request goes to; without one it times out. *)
Definition target (info : EndnameInfo) : option nat :=
  if i_enabled info && negb (bool_decide (i_servername info = INil)) then i_server info else None.

Definition short_delay (r : Z) : Z := r mod 27.
Definition drops (reliable : bool) (r : Z) : bool := negb reliable && (r mod 1000 <? 100).
Definition timeout_delay (longDelays : bool) (r : Z) : Z := if longDelays then r mod 7000 else r mod 100.

(** [rand.Intn n] is between 0 and [n-1]: [r2] is the result of
    [rand.Intn(1+rand.Intn(2000))]. *)
Definition reorders (longreordering : bool) (r : Z) : bool := longreordering && (r <? 600).
Definition reordering_delay (r2 : Z) : Z := 200 + r2.

(** What the caller is sent once the loop is over, and after how long.  The
    bytes of a reply are counted when it is sent. *)
Definition conclude (info : EndnameInfo) (replyOK : bool) (reply : replyMsg) (serverDead : bool)
    (r1 r2 r3 : Z) : Z * replyMsg * bool :=
  if negb replyOK || serverDead then (0, no_reply, false)
  else if drops (i_reliable info) r1 then (0, no_reply, false)
  else if reorders (i_longreordering info) r2 then (reordering_delay r3, reply, true)
  else (0, reply, true).

Definition count_reply (reply : replyMsg) (rn : Network) : Network :=
  rn <| net_bytes ::= λ n, wrap 64 (n + byte_len (rep_reply reply)) |>.

(** ** [Call] *)

Definition Call_request (e : ClientEnd) (svcMeth : string) (a : V) : reqMsg :=
  mkReqMsg (ce_endname e) svcMeth (TypeOf a) (EncodeAll [a]).

(** What [Call] returns, with what is in the caller's reply variable, which
    held [reply]; [None] is [log.Fatalf]. *)
Definition Call_return (reply : V) (rep : replyMsg) : option (bool * V) :=
  if rep_ok rep then
    match Decode (λ v, Some (assign reply v)) (NewDecoder (rep_reply rep)) with
    | (Some (v, true), _) => Some (true, v)
    | _ => None
    end
  else Some (false, reply).

End labrpc.

Arguments Method V {_}.
Arguments Rcvr V {_}.
Arguments Service V {_}.
Arguments Server V {_}.
Arguments reqMsg V {_}.
Arguments replyMsg V : clear implicits.
