(* ===== verification/LabrpcRun.v ===== *)
(** * labrpc: calls, servers and the network together

    [Net] is the network, the heap of servers and the goroutines of every
    call: the caller with its [processReq] ([Phase]) and the goroutine that
    runs the handler ([Running]).  [perform] is one step of one of them, or an
    operation of the tester; random numbers, what a handler leaves in its
    reply and which arm a [select] takes are in the action.  A panic or a
    [log.Fatalf] in any goroutine ends the program: it sets [n_halted]. *)
From stdpp Require Import base tactics strings numbers relations gmap list.
From S2P Require Import Prelude.
From S2P Require Import Labgob.
From S2P Require Import Labrpc.
Open Scope Z_scope.
Open Scope go_scope.

Section run.
Context {V : Type} `{!Reflect V}.

(** Where the caller and [processReq] stand. *)
Inductive Phase :=
| CSending                                            (* in the select of [Call] *)
| CReceived                                           (* [processReq] begins *)
| CDelaying (info : EndnameInfo) (p : nat) (ms : Z)   (* the short delay *)
| CWaiting (info : EndnameInfo) (p : nat)             (* in the loop *)
| CLooped (info : EndnameInfo) (p : nat) (replyOK : bool) (reply : replyMsg V)
| CReplying (ms : Z) (rep : replyMsg V) (counted : bool)
| CAnswering (rep : replyMsg V)                       (* at [req.replyCh <- rep] *)
| CReturned (ok : bool) (reply : V).

(** Where the goroutine that calls [server.dispatch] stands. *)
Inductive Running :=
| HNone
| HStarting (p : nat)
| HCalled (p : nat) (m : Method V) (a : V)
| HSending (p : nat) (m : Method V) (a : V) (v : V)   (* at [ech <- r] *)
| HDone (p : nat) (m : Method V) (a : V) (v : V).

Record Calling := mkCalling {
  c_args : V; c_req : reqMsg V; c_reply : V; c_phase : Phase; c_handler : Running
}.

#[export] Instance Calling_eta : RecordEta Calling := λ c,
  mkCalling (c_args c) (c_req c) (c_reply c) (c_phase c) (c_handler c).

Record Net := mkNet {
  n_net : Network;
  n_serving : bool;               (* the goroutine of [MakeNetwork] *)
  n_heap : list (Server V);
  n_calls : list Calling;
  n_halted : bool
}.

#[export] Instance Net_eta : RecordEta Net := λ s,
  mkNet (n_net s) (n_serving s) (n_heap s) (n_calls s) (n_halted s).

Definition net_init : Net := mkNet MakeNetwork true [] [] false.

(** ** The tester *)

Inductive Operation :=
| OMakeEnd (endname : Iface)
| OMakeServer
| OAddService (p : nat) (rcvr : Rcvr V)
| OAddServer (servername : Iface) (p : nat)
| ODeleteServer (servername : Iface)
| OConnect (endname servername : Iface)
| OEnable (endname : Iface) (b : bool)
| OReliable (b : bool) | OLongReordering (b : bool) | OLongDelays (b : bool)
| OGetCount (servername : Iface)
| OCleanup.

Definition halt (s : Net) : Net := s <| n_halted := true |>.
Definition with_net (s : Net) (rn : Network) : Net := s <| n_net := rn |>.

Definition operate (o : Operation) (s : Net) : option Net :=
  let rn := n_net s in
  match o with
  | OMakeEnd e => Some (from_option (λ r, with_net s r.1) (halt s) (MakeEnd e rn))
  | OMakeServer => Some (s <| n_heap ::= λ h, h ++ [MakeServer] |>)
  | OAddService p rcvr =>
      rs ← n_heap s !! p; Some (s <| n_heap ::= <[p := AddService (MakeService rcvr) rs]> |>)
  | OAddServer n p => _ ← n_heap s !! p; Some (with_net s (AddServer n (Some p) rn))
  | ODeleteServer n => Some (with_net s (DeleteServer n rn))
  | OConnect e n => Some (with_net s (Connect e n rn))
  | OEnable e b => Some (with_net s (Enable e b rn))
  | OReliable b => Some (with_net s (Reliable b rn))
  | OLongReordering b => Some (with_net s (LongReordering b rn))
  | OLongDelays b => Some (with_net s (LongDelays b rn))
  | OGetCount n => Some (from_option (λ _, s) (halt s) (GetCount n rn (n_heap s)))
  | OCleanup => Some (from_option (with_net s) (halt s) (Cleanup rn))
  end.

(** ** The goroutines of a call *)

Inductive CallAct :=
| Receive                     (* the network takes the request *)
| Refused                     (* the network is gone: [Call] returns false *)
| ReadInfo (r : Z)            (* [processReq] up to its first sleep *)
| AfterDelay (r : Z)          (* drop the request or start the handler *)
| Dispatch                    (* [dispatch] up to the method *)
| MethodReturns (v : V)
| TakeReply                   (* [reply = <-ech] *)
| Tick                        (* 100 ms are over *)
| Drain                       (* [<-ech] of the goroutine that drains *)
| Conclude (r1 r2 r3 : Z)
| Fire                        (* the timer, or at once *)
| Answer.                     (* [rep := <-req.replyCh] *)

Definition looping (ph : Phase) : bool := match ph with CWaiting _ _ => true | _ => false end.

(** [server.dispatch] up to the call of the method.  The maps of services are
    not written after the lookup, so that it is one step. *)
Definition dispatch (req : reqMsg V) (rs : Server V) : Server V * option (Method V * V) :=
  let '(rs', found) := Server_dispatch req rs in
  (rs', '(svc, methname) ← found; Service_dispatch methname req svc).

(** The result of an action of a call: [inr tt] when the program dies. *)
Definition Outcome : Type := (Network * list (Server V) * Calling) + unit.

Definition act (a : CallAct) (serving : bool) (rn : Network) (heap : list (Server V)) (c : Calling) :
    option Outcome :=
  let phase ph := Some (inl (rn, heap, c <| c_phase := ph |>)) in
  let handler h := Some (inl (rn, heap, c <| c_handler := h |>)) in
  match a, c_phase c, c_handler c with
  | Receive, CSending, _ =>
      if serving then Some (inl (receive_request (c_req c) rn, heap, c <| c_phase := CReceived |>)) else None
  | Refused, CSending, _ => if net_done rn then phase (CReturned false (c_reply c)) else None
  | ReadInfo r, CReceived, _ =>
      if bool_decide (0 <= r) then
        let info := readEndnameInfo (endname (c_req c)) rn in
        match target info with
        | Some p => phase (CDelaying info p (if i_reliable info then 0 else short_delay r))
        | None => phase (CReplying (timeout_delay (longDelays rn) r) no_reply false)
        end
      else None
  | AfterDelay r, CDelaying info p _, _ =>
      if bool_decide (0 <= r) then
        if drops (i_reliable info) r then phase (CReplying 0 no_reply false)
        else Some (inl (rn, heap, c <| c_phase := CWaiting info p |> <| c_handler := HStarting p |>))
      else None
  | Dispatch, _, HStarting p =>
      match dispatch (c_req c) <$> heap !! p with
      | Some (rs', Some (m, v)) => Some (inl (rn, <[p := rs']> heap, c <| c_handler := HCalled p m v |>))
      | Some (_, None) => Some (inr tt)
      | None => None
      end
  | MethodReturns v, _, HCalled p m x =>
      if bool_decide (In2Elem m = Some (TypeOf v)) then handler (HSending p m x v) else None
  | TakeReply, CWaiting info p, HSending q m x v =>
      Some (inl (rn, heap, c <| c_phase := CLooped info p true (Service_reply v) |> <| c_handler := HDone q m x v |>))
  | Tick, CWaiting info p, _ =>
      if isServerDead (endname (c_req c)) (i_servername info) (Some p) rn
      then phase (CLooped info p false no_reply) else phase (CWaiting info p)
  | Drain, ph, HSending q m x v => if looping ph then None else handler (HDone q m x v)
  | Conclude r1 r2 r3, CLooped info p replyOK reply, _ =>
      if bool_decide (0 <= r1 ∧ 0 <= r2 < 900 ∧ 0 <= r3 < 2000) then
        let dead := isServerDead (endname (c_req c)) (i_servername info) (Some p) rn in
        let '(ms, rep, counted) := conclude info replyOK reply dead r1 r2 r3 in
        phase (CReplying ms rep counted)
      else None
  | Fire, CReplying _ rep counted, _ =>
      Some (inl (if counted then count_reply rep rn else rn, heap, c <| c_phase := CAnswering rep |>))
  | Answer, CAnswering rep, _ =>
      match Call_return (c_reply c) rep with
      | Some (ok, v) => phase (CReturned ok v)
      | None => Some (inr tt)
      end
  | _, _, _ => None
  end.

(** ** Steps *)

Inductive Action :=
| AOperate (o : Operation)
| ACall (e : ClientEnd) (svcMeth : string) (a reply : V)
| AAct (id : nat) (a : CallAct)
| AExit.                      (* the network's goroutine sees [done] *)

Definition perform (a : Action) (s : Net) : option Net :=
  if n_halted s then None else
  match a with
  | AOperate o => operate o s
  | ACall e svcMeth x reply =>
      _ ← ends (n_net s) !! ce_endname e;
      Some (s <| n_calls ::= λ cs, cs ++ [mkCalling x (Call_request e svcMeth x) reply CSending HNone] |>)
  | AAct id a =>
      c ← n_calls s !! id;
      o ← act a (n_serving s) (n_net s) (n_heap s) c;
      match o with
      | inl (rn, heap, c') =>
          Some (s <| n_net := rn |> <| n_heap := heap |> <| n_calls ::= <[id := c']> |>)
      | inr _ => Some (halt s)
      end
  | AExit => if net_done (n_net s) then Some (s <| n_serving := false |>) else None
  end.

Definition net_step (s s' : Net) : Prop := ∃ a, perform a s = Some s'.

(** The steps of one call. *)
Definition call_step (id : nat) (s s' : Net) : Prop := ∃ a, perform (AAct id a) s = Some s'.

Fixpoint perform_all (acts : list Action) (s : Net) : option Net :=
  match acts with
  | [] => Some s
  | a :: acts => s' ← perform a s; perform_all acts s'
  end.

Lemma all_performed acts s s' : perform_all acts s = Some s' → rtc net_step s s'.
Proof.
  revert s. induction acts as [|a acts IH]; cbn; intros s; [intros [= ->]; done|].
  destruct (perform a s) as [s1|] eqn:E; cbn; [|done]. intros H.
  eapply rtc_l; [by exists a|eauto].
Qed.

End run.
