(* ===== verification/LabrpcFacts.v ===== *)
(** * labrpc: what every step keeps

    [call_ok] relates where a call stands to what its handler has done;
    [net_inv] holds in every reachable state.  [Rpc] is the abstract view of a
    call: what was asked, what ran, what the caller was told. *)
From stdpp Require Import base tactics strings numbers relations gmap list.
From S2P Require Import Prelude.
From S2P Require Import Labgob.
From S2P Require Import Labrpc.
From S2P Require Import LabrpcRun.
Open Scope Z_scope.
Open Scope go_scope.

(** Machine integers. *)
Lemma wrap_step w a b : wrap w (wrap w a + b) = wrap w (a + b).
Proof.
  unfold wrap. f_equal. set (h := 2 ^ (w - 1)). set (k := 2 ^ w).
  replace ((a + h) mod k - h + b + h) with ((a + h) mod k + b) by lia.
  replace (a + b + h) with ((a + h) + b) by lia. apply Zplus_mod_idemp_l.
Qed.

Lemma wrap_small w z : 0 < w → 0 ≤ z < 2 ^ (w - 1) → wrap w z = z.
Proof.
  intros Hw Hz. unfold wrap.
  assert (2 ^ w = 2 * 2 ^ (w - 1)) as Hd by (rewrite <- Z.pow_succ_r by lia; f_equal; lia).
  rewrite Z.mod_small by lia. lia.
Qed.

Section facts.
Context {V : Type} `{!Reflect V}.
Implicit Types (s : Net (V:=V)) (c : Calling (V:=V)) (m : Method V) (a v x : V) (rep : replyMsg V).

(** ** One call *)

(** The method the request names, called with what its argument decodes to. *)
Record called_ok (meth : string) (x : V) (m : Method V) (a : V) : Prop := {
  co_named : ∃ service, split_last meth = Some (service, Name m);
  co_handler : looks_like_handler m = true;
  co_type : assignable (TypeOf x) (In1 m) = true;
  co_arg : a = (assign (Zero (TypeOf x)) x).1
}.

Definition running_ok (c : Calling) : Prop :=
  match c_handler c with
  | HNone | HStarting _ => True
  | HCalled _ m a => called_ok (svcMeth (c_req c)) (c_args c) m a
  | HSending _ m a v | HDone _ m a v => called_ok (svcMeth (c_req c)) (c_args c) m a ∧ In2Elem m = Some (TypeOf v)
  end.

(** A reply is that of the handler that has returned, or none. *)
Definition reply_ok (h : Running) (rep : replyMsg V) (counted : bool) : Prop :=
  if counted then ∃ p m a v, h = HDone p m a v ∧ rep = Service_reply v else rep = no_reply.

(** The server the handler runs on. *)
Definition ran_on (h : Running (V:=V)) : option nat :=
  match h with
  | HNone => None
  | HStarting p | HCalled p _ _ | HSending p _ _ _ | HDone p _ _ _ => Some p
  end.

Definition phase_ok (c : Calling) : Prop :=
  match c_phase c with
  | CSending | CReceived | CDelaying _ _ _ => c_handler c = HNone
  | CWaiting _ p => ran_on (c_handler c) = Some p ∧ ∀ m a v, c_handler c ≠ HDone p m a v
  | CLooped _ p ok rep => ran_on (c_handler c) = Some p ∧ reply_ok (c_handler c) rep ok
  | CReplying _ rep counted => reply_ok (c_handler c) rep counted
  | CAnswering rep => ∃ counted, reply_ok (c_handler c) rep counted
  | CReturned false x => x = c_reply c
  | CReturned true x => ∃ p m a v, c_handler c = HDone p m a v ∧ assign (c_reply c) v = (x, true)
  end.

Record call_ok (c : Calling) : Prop := {
  ck_req : ∃ e svcMeth, c_req c = Call_request e svcMeth (c_args c);
  ck_running : running_ok c;
  ck_phase : phase_ok c
}.

(** ** The servers *)

Definition service_ok (svc : Service V) : Prop :=
  ∀ k m, methods svc !! k = Some m → k = Name m ∧ looks_like_handler m = true.
Definition server_ok (rs : Server V) : Prop :=
  ∀ k svc, services rs !! k = Some svc → service_ok svc.

Lemma MakeService_ok rcvr : service_ok (MakeService rcvr).
Proof.
  unfold MakeService, service_ok. cbn. generalize (typeMethods rcvr). intros ms.
  assert (∀ (acc : gmap string (Method V)),
    (∀ k m, acc !! k = Some m → k = Name m ∧ looks_like_handler m = true) →
    ∀ k m, foldl (λ ms m, if looks_like_handler m then <[Name m := m]> ms else ms) acc ms !! k = Some m →
      k = Name m ∧ looks_like_handler m = true) as H; [|by apply H; intros ??; rewrite lookup_empty].
  induction ms as [|m ms IH]; intros acc Hacc; cbn; [done|].
  apply IH. destruct (looks_like_handler m) eqn:E; [|done].
  intros k m' [[<- <-]|[_ Hk]]%lookup_insert_Some; [done|eauto].
Qed.

Lemma AddService_ok rcvr rs : server_ok rs → server_ok (AddService (MakeService rcvr) rs).
Proof.
  intros H k svc. cbn. intros [[_ <-]|[_ Hk]]%lookup_insert_Some; [apply MakeService_ok|eauto].
Qed.

Lemma Server_dispatch_ok req rs : server_ok rs → server_ok (dispatch req rs).1.
Proof. done. Qed.

(** ** The invariant *)

Record net_inv (s : Net) : Prop := {
  ni_heap : Forall server_ok (n_heap s);
  ni_calls : Forall call_ok (n_calls s)
}.

(** Pointers to servers are in the heap. *)
Definition known_call (n : nat) (c : Calling) : Prop :=
  (∀ info p ms, c_phase c = CDelaying info p ms → (p < n)%nat) ∧ (∀ p, ran_on (c_handler c) = Some p → (p < n)%nat).
Record net_known (s : Net) : Prop := {
  nk_servers : ∀ k p, servers (n_net s) !! k = Some (Some p) → (p < length (n_heap s))%nat;
  nk_calls : Forall (known_call (length (n_heap s))) (n_calls s);
  nk_serving : n_serving s = false → net_done (n_net s) = true
}.

Lemma dispatch_called c rs rs' m v :
  call_ok c → server_ok rs → dispatch (c_req c) rs = (rs', Some (m, v)) →
  called_ok (svcMeth (c_req c)) (c_args c) m v.
Proof.
  intros [(e & meth & Hreq) _ _] Hrs. unfold dispatch. cbn. intros [= _ Hm].
  rewrite Hreq in Hm. cbn in Hm.
  destruct (split_last meth) as [[sn mn]|] eqn:Es; cbn in Hm; [|done].
  destruct (services rs !! sn) as [svc|] eqn:Esvc; cbn in Hm; [|done].
  unfold Service_dispatch in Hm. destruct (methods svc !! mn) as [m'|] eqn:Em; cbn in Hm; [|done].
  destruct (assignable _ _) eqn:Ea; [|done]. injection Hm as -> <-.
  destruct (Hrs _ _ Esvc _ _ Em) as [-> Hh].
  split; [rewrite Hreq; eauto|done|done|done].
Qed.

Lemma dispatch_server req rs : (dispatch req rs).1 = rs <| srv_count ::= λ n, n + 1 |>.
Proof. done. Qed.

Lemma conclude_ok (h : Running) info ok rep dead r1 r2 r3 ms rep' counted :
  reply_ok h rep ok → conclude info ok rep dead r1 r2 r3 = (ms, rep', counted) → reply_ok h rep' counted.
Proof.
  unfold conclude. intros H. destruct ok; cbn; [|by intros [= _ <- <-]].
  destruct dead; [by intros [= _ <- <-]|]. repeat case_if_in H; case_ifs; by intros [= _ <- <-].
Qed.

(** ** The actions by cases *)

Inductive acted (serving : bool) (rn : Network) (heap : list (Server V)) (c : Calling) :
    Network → list (Server V) → Calling → Prop :=
| ac_receive :
    c_phase c = CSending → serving = true →
    acted serving rn heap c (receive_request (c_req c) rn) heap (c <| c_phase := CReceived |>)
| ac_refused :
    c_phase c = CSending → net_done rn = true →
    acted serving rn heap c rn heap (c <| c_phase := CReturned false (c_reply c) |>)
| ac_info r info p :
    c_phase c = CReceived → info = readEndnameInfo (endname (c_req c)) rn → target info = Some p →
    acted serving rn heap c rn heap
      (c <| c_phase := CDelaying info p (if i_reliable info then 0 else short_delay r) |>)
| ac_timeout r :
    c_phase c = CReceived → 0 ≤ r → target (readEndnameInfo (endname (c_req c)) rn) = None →
    acted serving rn heap c rn heap (c <| c_phase := CReplying (timeout_delay (longDelays rn) r) no_reply false |>)
| ac_dropped info p ms r :
    c_phase c = CDelaying info p ms → drops (i_reliable info) r = true →
    acted serving rn heap c rn heap (c <| c_phase := CReplying 0 no_reply false |>)
| ac_started info p ms :
    c_phase c = CDelaying info p ms →
    acted serving rn heap c rn heap (c <| c_phase := CWaiting info p |> <| c_handler := HStarting p |>)
| ac_dispatch p rs rs' m v :
    c_handler c = HStarting p → heap !! p = Some rs → dispatch (c_req c) rs = (rs', Some (m, v)) →
    acted serving rn heap c rn (<[p := rs']> heap) (c <| c_handler := HCalled p m v |>)
| ac_method p m x v :
    c_handler c = HCalled p m x → In2Elem m = Some (TypeOf v) →
    acted serving rn heap c rn heap (c <| c_handler := HSending p m x v |>)
| ac_take info p q m x v :
    c_phase c = CWaiting info p → c_handler c = HSending q m x v →
    acted serving rn heap c rn heap
      (c <| c_phase := CLooped info p true (Service_reply v) |> <| c_handler := HDone q m x v |>)
| ac_dead info p :
    c_phase c = CWaiting info p →
    isServerDead (endname (c_req c)) (i_servername info) (Some p) rn = true →
    acted serving rn heap c rn heap (c <| c_phase := CLooped info p false no_reply |>)
| ac_tick info p :
    c_phase c = CWaiting info p →
    isServerDead (endname (c_req c)) (i_servername info) (Some p) rn = false →
    acted serving rn heap c rn heap c
| ac_drain q m x v :
    looping (c_phase c) = false → c_handler c = HSending q m x v →
    acted serving rn heap c rn heap (c <| c_handler := HDone q m x v |>)
| ac_conclude info p ok rep dead r1 r2 r3 ms rep' counted :
    c_phase c = CLooped info p ok rep → 0 ≤ r3 < 2000 →
    dead = isServerDead (endname (c_req c)) (i_servername info) (Some p) rn →
    conclude info ok rep dead r1 r2 r3 = (ms, rep', counted) →
    acted serving rn heap c rn heap (c <| c_phase := CReplying ms rep' counted |>)
| ac_fire ms rep counted :
    c_phase c = CReplying ms rep counted →
    acted serving rn heap c (if counted then count_reply rep rn else rn) heap (c <| c_phase := CAnswering rep |>)
| ac_answer rep ok v :
    c_phase c = CAnswering rep → Call_return (c_reply c) rep = Some (ok, v) →
    acted serving rn heap c rn heap (c <| c_phase := CReturned ok v |>).

Lemma phase_same c ph : c_phase c = ph → c <| c_phase := ph |> = c.
Proof. by destruct c; cbn; intros ->. Qed.

Lemma act_acted (b : CallAct) serving rn heap c rn' heap' c' :
  act b serving rn heap c = Some (inl (rn', heap', c')) → acted serving rn heap c rn' heap' c'.
Proof.
  unfold act. intros H.
  destruct b, (c_phase c) eqn:Hp; try done; destruct (c_handler c) eqn:Hh; try done.
  all: repeat match type of H with
    | match ?x with _ => _ end = _ => destruct x eqn:?; try done
    end.
  all: zbool; try (injection H as <- <- <-); simplify_eq.
  all: try match goal with H : _ <$> _ = Some _ |- _ => apply fmap_Some in H as (? & ? & Hd) end.
  all: try (rewrite phase_same by done).
  all: try by (econstructor; naive_solver).
  all: by (eapply ac_drain; rewrite ?Hp).
Qed.

(** ** Every action keeps the invariant *)

Definition is_done (h : Running (V:=V)) : bool := match h with HDone _ _ _ _ => true | _ => false end.

(** The goroutine of the handler goes on. *)
Lemma phase_ok_moves c h' :
  phase_ok c → c_handler c ≠ HNone → is_done (c_handler c) = false → ran_on h' = ran_on (c_handler c) →
  looping (c_phase c) = false ∨ is_done h' = false → phase_ok (c <| c_handler := h' |>).
Proof.
  unfold phase_ok, reply_ok. cbn. intros H Hn Hd Hr Hl.
  destruct (c_phase c) as [| |? ? ?|info p|info p ok rep|ms rep counted|rep|ok x]; cbn in *; try done.
  - destruct H as [H _]. split; [by rewrite Hr|]. intros ? ? ? ->. by destruct Hl.
  - destruct H as [H1 H2]. split; [by rewrite Hr|]. destruct ok; [|done].
    destruct H2 as (? & ? & ? & ? & E & _). by rewrite E in Hd.
  - destruct counted; [|done]. destruct H as (? & ? & ? & ? & E & _). by rewrite E in Hd.
  - destruct H as [[] H]; [|by exists false]. destruct H as (? & ? & ? & ? & E & _). by rewrite E in Hd.
  - destruct ok; [|done]. destruct H as (? & ? & ? & ? & E & _). by rewrite E in Hd.
Qed.

Lemma answered_ok h rep counted reply ok x :
  reply_ok h rep counted → Call_return reply rep = Some (ok, x) →
  if ok then ∃ p m a v, h = HDone p m a v ∧ assign reply v = (x, true) else x = reply.
Proof.
  unfold reply_ok. destruct counted.
  - intros (p & m & a & v & -> & ->). unfold Call_return. cbn.
    destruct (assign reply v) as [y []] eqn:E; cbn; [|done]. intros [= <- <-]. eauto 10.
  - intros ->. by intros [= <- <-].
Qed.

Lemma acted_servers serving rn heap c rn' heap' c' :
  acted serving rn heap c rn' heap' c' → Forall server_ok heap → Forall server_ok heap'.
Proof.
  intros H Hheap. destruct H as [ | | | | | |p rs rs' m v Hh Hrs Hd| | | | | | | | ]; try done.
  apply Forall_insert; [done|]. replace rs' with (dispatch (c_req c) rs).1 by by rewrite Hd.
  apply Server_dispatch_ok. by eapply Forall_lookup_1 in Hheap.
Qed.

Lemma acted_running serving rn heap c rn' heap' c' :
  acted serving rn heap c rn' heap' c' → Forall server_ok heap → call_ok c → running_ok c'.
Proof.
  intros H Hheap Hc. pose proof (ck_running c Hc) as Hrun.
  destruct H as [ | | | | | |p rs rs' m v Hh Hrs Hd| | | | | | | | ];
    unfold running_ok in *; cbn -[dispatch] in *;
    repeat match goal with H : c_handler c = _ |- _ => rewrite H in Hrun end; try done.
  eapply dispatch_called; [done| |done]. by eapply Forall_lookup_1 in Hheap.
Qed.

Lemma acted_phase serving rn heap c rn' heap' c' :
  acted serving rn heap c rn' heap' c' → call_ok c → phase_ok c'.
Proof.
  intros H Hc. pose proof (ck_phase c Hc) as Hph.
  destruct H as [Hp _|Hp _|? ? ? Hp|? Hp|? ? ? ? Hp|? ? ? Hp|? ? ? ? ? Hh|? ? ? ? Hh|? ? ? ? ? ? Hp Hh|? ? Hp|?|
    ? ? ? ? Hl Hh|? ? ? ? ? ? ? ? ? ? ? Hp _ _ Hcon|? ? ? Hp|? ? ? Hp Hret]; try done;
    try (apply phase_ok_moves; rewrite ?Hh; by auto).
  all: unfold phase_ok in *; rewrite Hp in Hph; cbn in *; try done.
  - rewrite Hh in Hph. naive_solver.
  - by destruct Hph.
  - destruct Hph. by eapply conclude_ok.
  - by eexists.
  - destruct Hph as [counted Hr]. by eapply answered_ok.
Qed.

Lemma acted_same serving rn heap c rn' heap' c' :
  acted serving rn heap c rn' heap' c' →
  c_req c' = c_req c ∧ c_args c' = c_args c ∧ c_reply c' = c_reply c.
Proof. by destruct 1. Qed.

Lemma acted_ok serving rn heap c rn' heap' c' :
  acted serving rn heap c rn' heap' c' → Forall server_ok heap → call_ok c → call_ok c'.
Proof.
  intros H Hheap Hc. split; [|by eapply acted_running|by eapply acted_phase].
  destruct (acted_same _ _ _ _ _ _ _ H) as (-> & -> & _). apply Hc.
Qed.

Lemma call_ok_new e svcMeth x reply : call_ok (mkCalling x (Call_request e svcMeth x) reply CSending HNone).
Proof. split; [by eexists _, _|done|done]. Qed.

(** ** Every step keeps it *)

(** What can happen in a step. *)
Inductive stepped (s : Net) : Net → Prop :=
| st_operate o s' : operate o s = Some s' → stepped s s'
| st_call e svcMeth x reply :
    stepped s (s <| n_calls ::= λ cs, cs ++ [mkCalling x (Call_request e svcMeth x) reply CSending HNone] |>)
| st_act id c rn heap c' :
    n_calls s !! id = Some c → acted (n_serving s) (n_net s) (n_heap s) c rn heap c' →
    stepped s (s <| n_net := rn |> <| n_heap := heap |> <| n_calls ::= <[id := c']> |>)
| st_halt : stepped s (halt s)
| st_exit : net_done (n_net s) = true → stepped s (s <| n_serving := false |>).

Lemma net_step_stepped s s' : net_step s s' → n_halted s = false ∧ stepped s s'.
Proof.
  intros [a H]. unfold perform in H. destruct (n_halted s); [done|]. split; [done|].
  destruct a as [o|e meth x reply|id b|]; cbn in H.
  - by eapply st_operate.
  - destruct (ends _ !! _); cbn in H; [|done]. injection H as <-. apply st_call.
  - destruct (n_calls s !! id) as [c|] eqn:Hc; cbn in H; [|done].
    destruct (act b _ _ _ c) as [[[[rn heap] c']|[]]|] eqn:Ha; cbn in H; [| |done]; injection H as <-.
    + eapply st_act; [done|by eapply act_acted].
    + apply st_halt.
  - destruct (net_done _) eqn:E; [|done]. injection H as <-. by apply st_exit.
Qed.

(** The tester does not touch the calls. *)
Lemma operate_calls o s s' : operate o s = Some s' → n_calls s' = n_calls s.
Proof.
  destruct o; cbn; intros H; simplify_option_eq; try done;
    match goal with |- context [from_option _ _ ?x] => by destruct x end.
Qed.

Lemma operate_servers o s s' : operate o s = Some s' → Forall server_ok (n_heap s) → Forall server_ok (n_heap s').
Proof.
  intros H Hs. destruct o; cbn in H; simplify_option_eq; try done;
    try match goal with |- context [from_option _ _ ?x] => by destruct x end.
  - cbn. apply Forall_app. split; [done|]. constructor; [|done]. intros k svc. cbn. by rewrite lookup_empty.
  - cbn. apply Forall_insert; [done|]. apply AddService_ok. by eapply Forall_lookup_1 in Hs.
Qed.

Lemma stepped_inv s s' : stepped s s' → net_inv s → net_inv s'.
Proof.
  intros H [Hheap Hcalls]. destruct H as [o s' H| |id c rn heap c' Hc H| | ]; try done.
  - split; [by eapply operate_servers|]. by rewrite (operate_calls _ _ _ H).
  - split; [done|]. cbn. apply Forall_app. split; [done|]. constructor; [apply call_ok_new|done].
  - pose proof (Forall_lookup_1 _ _ _ _ Hcalls Hc). split; cbn; [by eapply acted_servers|].
    apply Forall_insert; [done|]. by eapply acted_ok.
Qed.

Lemma net_init_inv : net_inv net_init.
Proof. split; constructor. Qed.

Lemma net_steps_inv s s' : rtc net_step s s' → net_inv s → net_inv s'.
Proof.
  induction 1 as [|s1 s2 s3 [_ H1]%net_step_stepped _ IH]; [done|].
  intros Hi. by apply IH, (stepped_inv s1).
Qed.

Lemma net_reachable_inv s : rtc net_step net_init s → net_inv s.
Proof. intros H. by eapply net_steps_inv, net_init_inv. Qed.

(** ** Pointers *)

Lemma acted_heap serving rn heap c rn' heap' c' :
  acted serving rn heap c rn' heap' c' →
  length heap' = length heap ∧ servers rn' = servers rn ∧ net_done rn' = net_done rn.
Proof.
  destruct 1; rewrite ?length_insert; repeat split; by case_if.
Qed.

Lemma target_server e rn p :
  target (readEndnameInfo e rn) = Some p → ∃ k, servers rn !! k = Some (Some p).
Proof.
  unfold target, readEndnameInfo. cbn. intros H. case_if_in H; [|done].
  case_bool_decide; [done|]. eexists. unfold map_get in H at 1.
  destruct (servers rn !! _) as [o|] eqn:Es; cbn in H; [|done]. rewrite Es. by rewrite H.
Qed.

Lemma acted_known serving rn heap c rn' heap' c' :
  acted serving rn heap c rn' heap' c' → (∀ k p, servers rn !! k = Some (Some p) → (p < length heap)%nat) →
  known_call (length heap) c → known_call (length heap') c'.
Proof.
  intros H Hs [H1 H2]. destruct (acted_heap _ _ _ _ _ _ _ H) as [-> _].
  destruct H as [| | | | | |? ? ? ? ? Hh|? ? ? ? Hh|? ? ? ? ? ? ? Hh| | |? ? ? ? ? Hh| | |];
    try rewrite Hh in H2; split; cbn; try done; try naive_solver.
  intros ? ? ? [= _ <- _]. subst. by edestruct target_server; [|eapply Hs].
Qed.

Lemma known_call_mono n n' c : (n ≤ n')%nat → known_call n c → known_call n' c.
Proof. intros Hn [H1 H2]. split; intros; [eapply Nat.lt_le_trans; [by eapply H1|done]|eapply Nat.lt_le_trans; [by eapply H2|done]]. Qed.

Lemma net_known_heap s s' :
  n_calls s' = n_calls s → n_serving s' = n_serving s → net_done (n_net s') = net_done (n_net s) →
  (length (n_heap s) ≤ length (n_heap s'))%nat →
  (∀ k p, servers (n_net s') !! k = Some (Some p) →
     servers (n_net s) !! k = Some (Some p) ∨ (p < length (n_heap s'))%nat) →
  net_known s → net_known s'.
Proof.
  intros Hcalls Hserv Hdone Hle Hsrv [Hs Hc Hd]. split; [|rewrite Hcalls|by rewrite Hserv, Hdone].
  - intros k p [Hk|Hk]%Hsrv; [|done]. eapply Nat.lt_le_trans; [by eapply Hs|done].
  - eapply Forall_impl; [done|]. intros c. by apply known_call_mono.
Qed.

Lemma operate_known o s s' : operate o s = Some s' → net_known s → net_known s'.
Proof.
  intros H Hk. destruct o; cbn in H; simplify_option_eq; try (eapply net_known_heap; cbn; by eauto).
  - unfold MakeEnd. destruct (ends _ !! _); cbn; eapply net_known_heap, Hk; cbn; by eauto.
  - eapply net_known_heap, Hk; cbn; rewrite ?length_app; eauto with lia.
  - eapply net_known_heap, Hk; cbn; rewrite ?length_insert; eauto.
  - eapply net_known_heap, Hk; cbn; eauto. intros k q [[_ [= <-]]|[_ ?]]%lookup_insert_Some; [|by left].
    right. by eapply lookup_lt_Some.
  - eapply net_known_heap, Hk; cbn; eauto. intros k q [[_ [=]]|[_ ?]]%lookup_insert_Some. by left.
  - destruct (GetCount _ _ _); cbn; [done|]. eapply net_known_heap, Hk; cbn; by eauto.
  - unfold Cleanup. destruct (net_done _) eqn:E; cbn; [eapply net_known_heap, Hk; cbn; by eauto|].
    destruct Hk. by split.
Qed.

Lemma stepped_known s s' : stepped s s' → net_known s → net_known s'.
Proof.
  intros H Hk. pose proof Hk as [Hs Hc Hd]. destruct H as [o s' H| |id c rn heap c' Hid H| |].
  - by eapply operate_known.
  - split; cbn; [done| |done]. apply Forall_app. split; [done|]. by repeat constructor.
  - pose proof (Forall_lookup_1 _ _ _ _ Hc Hid) as Hkc.
    destruct (acted_heap _ _ _ _ _ _ _ H) as (El & Es & Ed).
    split; cbn; [by rewrite El, Es| |by rewrite Ed].
    apply Forall_insert; [by rewrite El|]. by eapply acted_known.
  - by split.
  - by split.
Qed.

Lemma net_reachable_known s : rtc net_step net_init s → net_known s.
Proof.
  revert s. apply (rtc_ind_r net_known); [by split|].
  intros s s' _ [_ H]%net_step_stepped Hk. by eapply stepped_known.
Qed.

Lemma reachable_call s id c : rtc net_step net_init s → n_calls s !! id = Some c → call_ok c.
Proof. intros H Hc. apply net_reachable_inv in H. by eapply Forall_lookup_1; [apply ni_calls|]. Qed.

End facts.
