(* ===== verification/LabrpcClaims.v ===== *)
(** * labrpc: what the network promises

    Whatever the network loses, delays or reorders, whatever servers are
    deleted or replaced: a call is run at most once, its caller is told the
    result of that run or a failure, a positive answer comes from a server
    that was still there afterwards, every call returns, and a reliable
    network answers every call. *)
From stdpp Require Import base tactics strings numbers relations gmap list.
From S2P Require Import Prelude.
From S2P Require Import Labgob.
From S2P Require Import Labrpc.
From S2P Require Import LabrpcRun.
From S2P Require Import LabrpcFacts.
Open Scope Z_scope.
Open Scope go_scope.

(** ** The abstract view of a call *)

Section rpc.
Context {V : Type} `{!Reflect V}.
Implicit Types (s : Net (V:=V)) (c : Calling (V:=V)) (m : Method V) (a v x : V) (rep : replyMsg V).

(** What an argument has become on the other side. *)
Definition as_received (x : V) : V := (assign (Zero (TypeOf x)) x).1.

(** What was asked, with the caller's reply variable; the server, the method
    and the argument of the run, with the result once there is one; what the
    caller was told. *)
Record Rpc := mkRpc {
  rpc_method : string; rpc_arg : V; rpc_var : V;
  rpc_ran : option (nat * Method V * V * option V);
  rpc_told : option (bool * V)
}.

#[export] Instance Rpc_eta : RecordEta Rpc := λ r,
  mkRpc (rpc_method r) (rpc_arg r) (rpc_var r) (rpc_ran r) (rpc_told r).

(** A call is run at most once; the caller is told once, a failure at any
    time, the result only when there is one. *)
Inductive rpc_step (r : Rpc) : Rpc → Prop :=
| rpc_run p m service :
    rpc_ran r = None → split_last (rpc_method r) = Some (service, Name m) →
    rpc_step r (r <| rpc_ran := Some (p, m, as_received (rpc_arg r), None) |>)
| rpc_finish p m a v :
    rpc_ran r = Some (p, m, a, None) → rpc_step r (r <| rpc_ran := Some (p, m, a, Some v) |>)
| rpc_fail :
    rpc_told r = None → rpc_step r (r <| rpc_told := Some (false, rpc_var r) |>)
| rpc_answer p m a v x :
    rpc_told r = None → rpc_ran r = Some (p, m, a, Some v) → assign (rpc_var r) v = (x, true) →
    rpc_step r (r <| rpc_told := Some (true, x) |>).

Inductive rpcs_step (rs : list Rpc) : list Rpc → Prop :=
| rpcs_new meth x y : rpcs_step rs (rs ++ [mkRpc meth x y None None])
| rpcs_one i r r' : rs !! i = Some r → rpc_step r r' → rpcs_step rs (<[i := r']> rs).

Definition handler_ran (h : Running) : option (nat * Method V * V * option V) :=
  match h with
  | HNone | HStarting _ => None
  | HCalled p m a => Some (p, m, a, None)
  | HSending p m a v | HDone p m a v => Some (p, m, a, Some v)
  end.
Definition phase_told (ph : Phase) : option (bool * V) :=
  match ph with CReturned ok x => Some (ok, x) | _ => None end.

Definition rpc_of (c : Calling) : Rpc :=
  mkRpc (svcMeth (c_req c)) (c_args c) (c_reply c) (handler_ran (c_handler c)) (phase_told (c_phase c)).
Definition rpcs (s : Net) : list Rpc := rpc_of <$> n_calls s.

Lemma acted_rpc serving rn heap c rn' heap' c' :
  acted serving rn heap c rn' heap' c' → call_ok c → Forall server_ok heap →
  rpc_of c' = rpc_of c ∨ rpc_step (rpc_of c) (rpc_of c').
Proof.
  intros H Hc Hheap. pose proof (ck_phase c Hc) as Hph. unfold phase_ok in Hph.
  pose proof (acted_running _ _ _ _ _ _ _ H Hheap Hc) as Hrun. unfold running_ok in Hrun.
  destruct H as [Hp _|Hp _|? ? ? Hp|? Hp|? ? ? ? Hp|? ? ? Hp|? ? ? ? ? Hh|? ? ? ? Hh|? ? ? ? ? ? Hp Hh|? ? Hp|?|
    ? ? ? ? Hl Hh|? ? ? ? ? ? ? ? ? ? ? Hp _ _ Hcon|? ? ? Hp|? ok ? Hp Hret];
    unfold rpc_of; cbn in *; rewrite ?Hp in *; rewrite ?Hh in *; cbn in *; try by left.
  - right. by apply (rpc_fail (mkRpc _ _ _ _ None)).
  - left. by rewrite Hph.
  - right. destruct Hrun as [[service Hs] _ _ ->]. by eapply (rpc_run (mkRpc _ _ _ None _)).
  - right. by eapply (rpc_finish (mkRpc _ _ _ _ _)).
  - right. destruct Hph as [counted Hr].
    pose proof (answered_ok _ _ _ _ _ _ Hr Hret) as Ho. destruct ok.
    + destruct Ho as (p & m & a & w & -> & Hx). by eapply (rpc_answer (mkRpc _ _ _ _ None)).
    + subst. by apply (rpc_fail (mkRpc _ _ _ _ None)).
Qed.

Lemma stepped_rpcs s s' : stepped s s' → net_inv s → rtc rpcs_step (rpcs s) (rpcs s').
Proof.
  intros H [Hheap Hcalls]. unfold rpcs. destruct H as [o s' H|e meth x reply|id c rn heap c' Hc H| | ]; try done.
  - by rewrite (operate_calls _ _ _ H).
  - cbn. rewrite fmap_app. apply rtc_once, rpcs_new.
  - cbn. rewrite list_fmap_insert. pose proof (Forall_lookup_1 _ _ _ _ Hcalls Hc) as Hok.
    destruct (acted_rpc _ _ _ _ _ _ _ H Hok Hheap) as [->|Hs].
    + rewrite list_insert_id; [done|]. by rewrite list_lookup_fmap, Hc.
    + eapply rtc_once, rpcs_one; [|done]. by rewrite list_lookup_fmap, Hc.
Qed.

(** ** Where a positive answer comes from *)

(** The call [id] in the state. *)
Definition calling (s : Net) (id : nat) (c : Calling) : Prop := n_calls s !! id = Some c.

(** Before [s], when its handler had not started, the end of the call was
    enabled and connected to the server [p]. *)
Definition was_read (s : Net) (id : nat) (e : Iface) (info : EndnameInfo) (p : nat) : Prop :=
  ∃ s1 c1, rtc net_step net_init s1 ∧ rtc net_step s1 s ∧ calling s1 id c1 ∧ c_handler c1 = HNone ∧
    info = readEndnameInfo e (n_net s1) ∧ target info = Some p.

(** And later, when the method had returned [v], the end was still enabled and
    the same server still there. *)
Definition was_accepted (s : Net) (id : nat) (e : Iface) (v : V) : Prop :=
  ∃ s2 c2 info p m a, was_read s2 id e info p ∧ rtc net_step s2 s ∧
    calling s2 id c2 ∧ c_handler c2 = HDone p m a v ∧
    isServerDead e (i_servername info) (Some p) (n_net s2) = false.

Definition past_ok (s : Net) (id : nat) (c : Calling) : Prop :=
  let e := endname (c_req c) in
  match c_phase c with
  | CDelaying info p _ | CWaiting info p | CLooped info p _ _ => was_read s id e info p
  | CReplying _ rep true => ∃ v, rep = Service_reply v ∧ was_accepted s id e v
  | CAnswering rep => rep_ok rep = true → ∃ v, rep = Service_reply v ∧ was_accepted s id e v
  | CReturned true x => ∃ v, assign (c_reply c) v = (x, true) ∧ was_accepted s id e v
  | _ => True
  end.

Lemma was_read_later s s' id e info p : net_step s s' → was_read s id e info p → was_read s' id e info p.
Proof.
  intros H (s1 & c1 & H0 & H1 & Hc). exists s1, c1. split; [done|]. split; [|done]. by eapply rtc_r.
Qed.
Lemma was_accepted_later s s' id e v : net_step s s' → was_accepted s id e v → was_accepted s' id e v.
Proof.
  intros H (s2 & c2 & info & p & m & a & Hr & H2 & Hc). exists s2, c2, info, p, m, a.
  split; [done|]. split; [|done]. by eapply rtc_r.
Qed.
Hint Resolve was_read_later was_accepted_later : core.

Lemma past_ok_later s s' id c : net_step s s' → past_ok s id c → past_ok s' id c.
Proof.
  unfold past_ok. intros H. destruct (c_phase c) as [| | | | |? ? []|?|[] ?]; naive_solver.
Qed.

Lemma conclude_counted info ok rep dead r1 r2 r3 ms rep' :
  conclude info ok rep dead r1 r2 r3 = (ms, rep', true) → ok = true ∧ dead = false ∧ rep' = rep.
Proof.
  unfold conclude. destruct ok; cbn; [|done]. destruct dead; cbn; [done|].
  destruct (drops _ _); [done|]. destruct (reorders _ _); by intros [= _ <-].
Qed.

Lemma acted_past s s' id c rn heap c' :
  rtc net_step net_init s → net_step s s' → calling s id c →
  acted (n_serving s) (n_net s) (n_heap s) c rn heap c' → past_ok s id c → past_ok s' id c'.
Proof.
  intros Hs Hstep Hc H Hpast. pose proof (reachable_call _ _ _ Hs Hc) as Hok.
  pose proof (ck_phase c Hok) as Hph. pose proof (past_ok_later _ _ _ _ Hstep Hpast) as Hlater.
  unfold phase_ok in Hph. unfold past_ok in Hpast, Hlater |- *.
  destruct H as [Hp _|Hp _|? ? ? Hp|? Hp|? ? ? ? Hp|? ? ? Hp|? ? ? ? ? Hh|? ? ? ? Hh|? ? ? ? ? ? Hp Hh|? ? Hp|?|
    ? ? ? ? Hl Hh|? ? ok rep dead ? ? ? ? ? counted Hp _ Hd Hcon|? rep counted Hp|rep ok x Hp Hret];
    cbn in *; rewrite ?Hp in *; try done.
  - eapply was_read_later; [done|]. by exists s, c.
  - destruct counted; [|done].
    destruct (conclude_counted _ _ _ _ _ _ _ _ _ Hcon) as (-> & -> & ->).
    destruct Hph as [Hr (q & m & a & v & Hh & ->)]. rewrite Hh in Hr. injection Hr as ->.
    exists v. split; [done|]. eapply was_accepted_later; [done|]. by eexists s, c, _, _, m, a.
  - intros Hrep. destruct counted; [done|]. by rewrite Hph in Hrep.
  - unfold Call_return in Hret. destruct (rep_ok rep); [|by injection Hret as <- <-].
    destruct (Hlater eq_refl) as (v & -> & Ha). cbn in Hret.
    destruct (assign _ v) as [y []] eqn:E; [|done]. injection Hret as <- <-. by exists v.
Qed.

Lemma stepped_past s s' id c :
  rtc net_step net_init s → net_step s s' → calling s' id c →
  (∀ id c, calling s id c → past_ok s id c) → past_ok s' id c.
Proof.
  intros Hs Hstep Hc' Hall. pose proof (net_step_stepped _ _ Hstep) as [_ H]. unfold calling in Hc'.
  destruct H as [o s' H|e meth x reply|id' c1 rn heap c1' Hc H| | ].
  - rewrite (operate_calls _ _ _ H) in Hc'. by eapply past_ok_later, Hall.
  - apply lookup_app_Some in Hc' as [Hc'|[_ Hc']]; [by eapply past_ok_later, Hall|].
    by apply list_lookup_singleton_Some in Hc' as [_ <-].
  - apply list_lookup_insert_Some in Hc' as [(<- & <- & _)|[_ Hc']]; [|by eapply past_ok_later, Hall].
    by eapply acted_past, Hall.
  - by eapply past_ok_later, Hall.
  - by eapply past_ok_later, Hall.
Qed.

Lemma reachable_past s id c : rtc net_step net_init s → calling s id c → past_ok s id c.
Proof.
  intros H. revert id c. revert s H. apply (rtc_ind_r (λ s, ∀ id c, calling s id c → past_ok s id c)); [done|].
  intros s s' Hs Hstep IH id c Hc. by eapply stepped_past.
Qed.
(** C13. Remote calls are at most once: every run of the network, from any
    state it can reach, is a run of the abstract calls, in which the method
    the request names runs at most once, on the argument of the caller, and
    the caller is told once, either a failure or the result of that run. *)
Theorem rpc_at_most_once s s' :
  rtc net_step net_init s → rtc net_step s s' → rtc rpcs_step (rpcs s) (rpcs s').
Proof.
  intros Hs H. apply net_reachable_inv in Hs.
  induction H as [|s1 s2 s3 [_ H1]%net_step_stepped _ IH]; [done|].
  etrans; [by eapply stepped_rpcs|]. by eapply IH, stepped_inv.
Qed.

(** C14. A call returns true only if its method ran on the server the end was
    connected to when the request arrived, and after the method had returned
    that server was still registered under its name and the end enabled: once
    [DeleteServer] or [Enable] has cut a server off, nobody is told of what it
    does from then on.  The caller's variable holds what the method left. *)
Theorem positive_reply s id c x :
  rtc net_step net_init s → n_calls s !! id = Some c → c_phase c = CReturned true x →
  ∃ s1 s2 c1 c2 p m a v,
    let e := endname (c_req c) in
    let info := readEndnameInfo e (n_net s1) in
    rtc net_step net_init s1 ∧ rtc net_step s1 s2 ∧ rtc net_step s2 s ∧
    n_calls s1 !! id = Some c1 ∧ c_handler c1 = HNone ∧ target info = Some p ∧
    n_calls s2 !! id = Some c2 ∧ c_handler c2 = HDone p m a v ∧
    isServerDead e (i_servername info) (Some p) (n_net s2) = false ∧
    assign (c_reply c) v = (x, true).
Proof.
  intros Hs Hc Hp. pose proof (reachable_past _ _ _ Hs Hc) as H. unfold past_ok in H. rewrite Hp in H.
  destruct H as (v & Hv & s2 & c2 & info & p & m & a & (s1 & c1 & H1 & H12 & Hc1 & Hh1 & -> & Ht) & H2 & Hc2 & Hh2 & Hd).
  exists s1, s2, c1, c2, p, m, a, v. by split_and!.
Qed.

(** ** A reliable network *)

(** The network is reliable and runs, and the end [e] is enabled and connected
    to the server [p]. *)
Record up (e sn : Iface) (p : nat) (s : Net) : Prop := {
  up_reliable : reliable (n_net s) = true;
  up_running : net_done (n_net s) = false;
  up_enabled : enabled (n_net s) !! e = Some true;
  up_connected : connections (n_net s) !! e = Some sn;
  up_named : sn ≠ INil;
  up_server : servers (n_net s) !! sn = Some (Some p)
}.

Definition read_well (sn : Iface) (info : EndnameInfo) (p q : nat) : Prop :=
  i_reliable info = true ∧ i_servername info = sn ∧ q = p.

Definition on_track (sn : Iface) (p : nat) (c : Calling) : Prop :=
  let on_p := ran_on (c_handler c) = Some p in
  match c_phase c with
  | CSending | CReceived => True
  | CDelaying info q _ | CWaiting info q => read_well sn info p q
  | CLooped info q ok _ => read_well sn info p q ∧ ok = true
  | CReplying _ rep _ | CAnswering rep => rep_ok rep = true ∧ on_p
  | CReturned ok _ => ok = true ∧ on_p
  end.

Lemma up_info e sn p s :
  up e sn p s → ∃ b, readEndnameInfo e (n_net s) = mkEndnameInfo true sn (Some p) true b.
Proof.
  intros [Hr Hd He Hc Hn Hs]. unfold readEndnameInfo, map_get. rewrite He, Hc. cbn. rewrite Hs, Hr.
  rewrite bool_decide_eq_false_2 by done. cbn. by eexists.
Qed.

Lemma up_alive e sn p s : up e sn p s → isServerDead e sn (Some p) (n_net s) = false.
Proof.
  intros [Hr Hd He Hc Hn Hs]. unfold isServerDead, map_get. rewrite He, Hs. cbn.
  by rewrite (bool_decide_eq_true_2 (Some p = Some p)).
Qed.

Lemma acted_on_track serving s c rn heap c' sn p :
  up (endname (c_req c)) sn p s → acted serving (n_net s) (n_heap s) c rn heap c' → call_ok c →
  on_track sn p c → on_track sn p c'.
Proof.
  intros Hup H Hc Ht. destruct (up_info _ _ _ _ Hup) as [b Hinfo].
  pose proof (up_alive _ _ _ _ Hup) as Halive. pose proof (ck_phase c Hc) as Hph. unfold phase_ok in Hph.
  destruct H as [Hp _|Hp Hd|? ? ? Hp ? Hg|? Hp _ Hg|? ? ? ? Hp Hdr|? ? ? Hp|? ? ? ? ? Hh|? ? ? ? Hh|? ? ? ? ? ? Hp Hh|? ? Hp Hd|?|
    ? ? ? ? Hl Hh|? ? ok rep dead ? ? ? ? ? counted Hp _ Hd Hcon|? rep counted Hp|rep ok x Hp Hret];
    unfold on_track, read_well in *; cbn in *; rewrite ?Hp in *; rewrite ?Hh in *; try done.
  - by rewrite (up_running _ _ _ _ Hup) in Hd.
  - subst info. rewrite Hinfo in Hg |- *. cbn in Hg. unfold target in Hg. cbn in Hg.
    rewrite bool_decide_eq_false_2 in Hg by apply (up_named _ _ _ _ Hup). by injection Hg.
  - unfold target in Hg. rewrite Hinfo in Hg. cbn in Hg.
    by rewrite bool_decide_eq_false_2 in Hg by apply (up_named _ _ _ _ Hup).
  - destruct Ht as (Hr & _). by rewrite Hr in Hdr.
  - destruct Ht as (_ & <- & ->). congruence.
  - destruct Ht as [(Hr & <- & ->) ->]. subst dead. rewrite Halive in Hcon. unfold conclude in Hcon.
    rewrite Hr in Hcon. cbn in Hcon. destruct Hph as [Hon (? & ? & ? & ? & _ & ->)]. split; [|done].
    destruct (reorders _ _); by injection Hcon as _ <- _.
  - destruct Ht as [Ht Hon]. split; [|done]. unfold Call_return in Hret. rewrite Ht in Hret.
    destruct (Decode _ _) as [[[? []]|] ?]; by simplify_eq.
Qed.

(** The steps during which the network stays up for the end. *)
Definition up_step (e sn : Iface) (p : nat) (s s' : Net) : Prop := net_step s s' ∧ up e sn p s.

Lemma up_steps_on_track e sn p s s' id c :
  rtc (up_step e sn p) s s' → net_inv s →
  (calling s id c ∧ endname (c_req c) = e ∧ on_track sn p c) →
  ∃ c', calling s' id c' ∧ endname (c_req c') = e ∧ on_track sn p c'.
Proof.
  intros H. revert c. induction H as [|s1 s2 s3 [H1 Hup] _ IH]; intros c Hinv (Hc & He & Ht); [by exists c|].
  apply net_step_stepped in H1 as [_ H]. pose proof (stepped_inv _ _ H Hinv) as Hinv2.
  pose proof (Forall_lookup_1 _ _ _ _ (ni_calls _ Hinv) Hc) as Hok.
  destruct H as [o s' H|e' meth x reply|id' c1 rn heap c1' Hc1 H| |].
  - eapply IH; [done|]. split; [|done]. unfold calling. by rewrite (operate_calls _ _ _ H).
  - eapply IH; [done|]. split; [|done]. by apply lookup_app_l_Some.
  - destruct (decide (id' = id)) as [->|Hne].
    + unfold calling in Hc. simplify_eq. eapply (IH c1'); [done|].
      destruct (acted_same _ _ _ _ _ _ _ H) as (Hr & _). rewrite Hr.
      split; [by apply list_lookup_insert_eq; eapply lookup_lt_Some|]. split; [done|].
      by eapply acted_on_track.
    + eapply (IH c); [done|]. split; [|done]. unfold calling. cbn. by rewrite list_lookup_insert_ne.
  - by eapply IH.
  - by eapply IH.
Qed.

(** C15. On a reliable network a call cannot fail: if, from the moment it is
    made until it returns, the network is reliable, the end enabled, and
    connected to a server that is registered, then [Call] returns true, with
    what the method left in the reply, after the method ran on that server,
    however long replies are delayed. *)
Theorem reliable_answered s s' id c0 c sn p ok x :
  rtc net_step net_init s → n_calls s !! id = Some c0 → c_phase c0 = CSending →
  rtc (up_step (endname (c_req c0)) sn p) s s' →
  n_calls s' !! id = Some c → c_phase c = CReturned ok x →
  ok = true ∧ ∃ m a v, c_handler c = HDone p m a v ∧ assign (c_reply c) v = (x, true).
Proof.
  intros Hs Hc0 Hp0 H Hc Hp. pose proof (net_reachable_inv _ Hs) as Hinv.
  destruct (up_steps_on_track _ _ _ _ _ id c0 H Hinv) as (c' & Hc' & _ & Ht).
  { split_and!; [done|done|]. unfold on_track. by rewrite Hp0. }
  unfold calling in Hc'. simplify_eq. unfold on_track in Ht. rewrite Hp in Ht.
  destruct Ht as [-> Hon]. split; [done|].
  assert (Hok : call_ok c).
  { eapply Forall_lookup_1; [|done]. apply ni_calls. eapply net_steps_inv; [|done].
    eapply rtc_subrel; [|done]. by intros ?? [? _]. }
  pose proof (ck_phase _ Hok) as Hph. unfold phase_ok in Hph. rewrite Hp in Hph.
  destruct Hph as (q & m & a & v & Hh & Hv). rewrite Hh in Hon. injection Hon as ->. by exists m, a, v.
Qed.

(** ** Every call returns *)

Definition phase_weight (ph : Phase (V:=V)) : nat :=
  match ph with
  | CSending => 10 | CReceived => 9 | CDelaying _ _ _ => 8 | CWaiting _ _ => 4
  | CLooped _ _ _ _ => 3 | CReplying _ _ _ => 2 | CAnswering _ => 1 | CReturned _ _ => 0
  end.
Definition handler_weight (h : Running (V:=V)) : nat :=
  match h with HNone => 0 | HStarting _ => 3 | HCalled _ _ _ => 2 | HSending _ _ _ _ => 1 | HDone _ _ _ _ => 0 end.
Definition remaining (c : Calling) : nat := phase_weight (c_phase c) + handler_weight (c_handler c).

(** A call goes round its loop only while the server is there. *)
Lemma acted_remaining serving rn heap c rn' heap' c' :
  acted serving rn heap c rn' heap' c' → call_ok c → c' = c ∨ (remaining c' < remaining c)%nat.
Proof.
  intros H Hc. pose proof (ck_phase c Hc) as Hph. unfold phase_ok in Hph.
  destruct H as [Hp _|Hp _|? ? ? Hp|? Hp|? ? ? ? Hp|? ? ? Hp|? ? ? ? ? Hh|? ? ? ? Hh|? ? ? ? ? ? Hp Hh|? ? Hp|?|
    ? ? ? ? Hl Hh|? ? ? ? ? ? ? ? ? ? ? Hp|? ? ? Hp|? ? ? Hp];
    unfold remaining; cbn -[Nat.lt]; rewrite ?Hp in *; rewrite ?Hh in *; cbn -[Nat.lt]; first [by left|right; lia].
Qed.

(** The steps of a call itself: all but the return of its method. *)
Definition own_step (id : nat) (s s' : Net) : Prop :=
  ∃ b, (∀ v, b ≠ MethodReturns v) ∧ perform (AAct id b) s = Some s'.

Definition returned (c : Calling) : Prop := ∃ ok x, c_phase c = CReturned ok x.

(** The caller waits for a method that is running on a server that is there. *)
Definition blocked (s : Net) (c : Calling) : Prop :=
  ∃ info p q m a, c_phase c = CWaiting info p ∧ c_handler c = HCalled q m a ∧
    isServerDead (endname (c_req c)) (i_servername info) (Some p) (n_net s) = false.

Lemma perform_act s id c b :
  n_halted s = false → calling s id c → 
  perform (AAct id b) s = o ← act b (n_serving s) (n_net s) (n_heap s) c;
    Some match o with
         | inl (rn, heap, c') => s <| n_net := rn |> <| n_heap := heap |> <| n_calls ::= <[id := c']> |>
         | inr _ => halt s
         end.
Proof.
  unfold calling, perform. intros -> ->. cbn. by destruct (act _ _ _ _ _) as [[[[]]|]|].
Qed.

(** Some action of the call is possible, and leads on. *)
Definition goes_on (s : Net) (c : Calling) : Prop :=
  ∃ b o, (∀ v, b ≠ MethodReturns v) ∧ act b (n_serving s) (n_net s) (n_heap s) c = Some o ∧
    ∀ rn heap c', o = inl (rn, heap, c') → c' ≠ c.

Lemma goes s c b rn heap c' :
  (∀ v, b ≠ MethodReturns v) → act b (n_serving s) (n_net s) (n_heap s) c = Some (inl (rn, heap, c')) →
  c' ≠ c → goes_on s c.
Proof. intros Hb Ha Hne. eexists b, _. split; [done|]. split; [done|]. by intros ??? [= <- <- <-]. Qed.
Lemma goes_wrong s c b :
  (∀ v, b ≠ MethodReturns v) → act b (n_serving s) (n_net s) (n_heap s) c = Some (inr tt) → goes_on s c.
Proof. intros Hb Ha. by eexists b, _. Qed.
Lemma phase_moves c c' : c_phase c' ≠ c_phase c → c' ≠ c.
Proof. by intros H ->. Qed.
Lemma handler_moves c c' : c_handler c' ≠ c_handler c → c' ≠ c.
Proof. by intros H ->. Qed.

(** The caller in its loop. *)
Lemma waiting_can_act s c info p :
  c_phase c = CWaiting info p → call_ok c → known_call (length (n_heap s)) c → blocked s c ∨ goes_on s c.
Proof.
  intros Hp Hc [_ Hk]. pose proof (ck_phase c Hc) as Hph. unfold phase_ok in Hph. rewrite Hp in Hph.
  destruct Hph as [Hon Hnd].
  destruct (isServerDead (endname (c_req c)) (i_servername info) (Some p) (n_net s)) eqn:Ed.
  { right. eapply (goes s c Tick); [done|by unfold act; rewrite Hp, Ed|apply phase_moves; by rewrite Hp]. }
  destruct (c_handler c) as [|q|q m a|q m a v|q m a v] eqn:Hh; [done| | | |].
  - right. destruct (lookup_lt_is_Some_2 (n_heap s) q) as [rs Hrs]; [by apply Hk|].
    destruct (dispatch (c_req c) rs) as [rs' [[m a]|]] eqn:Eds.
    + eapply (goes s c Dispatch); [done| |].
      * unfold act. rewrite Hh, Hrs. cbn -[dispatch]. by rewrite Eds.
      * apply handler_moves. by rewrite Hh.
    + eapply (goes_wrong s c Dispatch); [done|]. unfold act. rewrite Hh, Hrs. cbn -[dispatch]. by rewrite Eds.
  - left. by exists info, p, q, m, a.
  - right. eapply (goes s c TakeReply); [done|by unfold act; rewrite Hp, Hh|apply phase_moves; by rewrite Hp].
  - by destruct (Hnd m a v); injection Hon as ->.
Qed.

Lemma can_act s c :
  net_known s → call_ok c → known_call (length (n_heap s)) c → returned c ∨ blocked s c ∨ goes_on s c.
Proof.
  intros Hk Hc Hkc. destruct (c_phase c) as [| |info p ms|info p|info p ok rep|ms rep counted|rep|ok x] eqn:Hp.
  - right; right. destruct (n_serving s) eqn:Es.
    + eapply (goes s c Receive); [done|by rewrite Es; unfold act; rewrite Hp|apply phase_moves; by rewrite Hp].
    + eapply (goes s c Refused); [done|by unfold act; rewrite Hp, (nk_serving _ Hk Es)|apply phase_moves; by rewrite Hp].
  - right; right. destruct (target (readEndnameInfo (endname (c_req c)) (n_net s))) as [p|] eqn:Et;
      (eapply (goes s c (ReadInfo 0)); [done|by unfold act; rewrite Hp, bool_decide_eq_true_2, Et by lia|apply phase_moves; by rewrite Hp]).
  - right; right. destruct (drops (i_reliable info) 0) eqn:Ed;
      (eapply (goes s c (AfterDelay 0)); [done|by unfold act; rewrite Hp, bool_decide_eq_true_2, Ed by lia|apply phase_moves; by rewrite Hp]).
  - right. by eapply waiting_can_act.
  - right; right. destruct (conclude info ok rep (isServerDead (endname (c_req c)) (i_servername info) (Some p) (n_net s)) 0 0 0)
      as [[ms rep'] counted] eqn:Ec.
    eapply (goes s c (Conclude 0 0 0)); [done|by unfold act; rewrite Hp, bool_decide_eq_true_2, Ec by lia|apply phase_moves; by rewrite Hp].
  - right; right. eapply (goes s c Fire); [done|by unfold act; rewrite Hp|apply phase_moves; by rewrite Hp].
  - right; right. destruct (Call_return (c_reply c) rep) as [[ok x]|] eqn:Er.
    + eapply (goes s c Answer); [done|by unfold act; rewrite Hp, Er|apply phase_moves; by rewrite Hp].
    + eapply (goes_wrong s c Answer); [done|by unfold act; rewrite Hp, Er].
  - left. by exists ok, x.
Qed.

Lemma remaining_bound c : call_ok c → (remaining c ≤ 10)%nat.
Proof.
  intros Hc. pose proof (ck_phase c Hc) as Hph. unfold phase_ok in Hph. unfold remaining.
  destruct (c_phase c); cbn -[Nat.le]; try (rewrite Hph; cbn; lia); destruct (c_handler c); cbn; lia.
Qed.

Lemma act_fatal b serving rn heap c : act b serving rn heap c = Some (inr tt) → (0 < remaining c)%nat.
Proof.
  unfold act, remaining. intros H.
  destruct b, (c_phase c) eqn:Hp; try done; try (cbn; lia); destruct (c_handler c) eqn:Hh; try done; cbn; lia.
Qed.

(** One more step of the call, with what it leaves to do. *)
Lemma own_step_on s id c :
  rtc net_step net_init s → n_halted s = false → calling s id c → goes_on s c →
  ∃ s1 c1, own_step id s s1 ∧ rtc net_step net_init s1 ∧ calling s1 id c1 ∧
    (0 < remaining c)%nat ∧ (n_halted s1 = true ∨ n_halted s1 = false ∧ (remaining c1 < remaining c)%nat).
Proof.
  intros Hs Hh Hc (b & [[[rn heap] c']|[]] & Hb & Ha & Hne);
    pose proof (perform_act _ _ _ b Hh Hc) as Hp; rewrite Ha in Hp; cbn in Hp.
  - eexists _, c'. split; [by exists b|]. split; [by eapply rtc_r; [|by eexists]|].
    split; [by apply list_lookup_insert_eq; eapply lookup_lt_Some|].
    apply act_acted, acted_remaining in Ha as [->|H]; [by edestruct Hne| |by eapply reachable_call].
    split; [lia|]. by right.
  - eexists _, c. split; [by exists b|]. split; [by eapply rtc_r; [|by eexists]|]. split; [done|].
    split; [by eapply act_fatal|by left].
Qed.

Lemma runs_out s id c :
  rtc net_step net_init s → n_halted s = false → calling s id c →
  ∃ n s' c', (n ≤ remaining c)%nat ∧ nsteps (own_step id) n s s' ∧ calling s' id c' ∧
    (n_halted s' = true ∨ returned c' ∨ blocked s' c').
Proof.
  remember (remaining c) as k eqn:Ek. revert s c Ek. induction k as [k IH] using lt_wf_ind.
  intros s c -> Hs Hh Hc. pose proof (net_reachable_known _ Hs) as Hk.
  pose proof (Forall_lookup_1 _ _ _ _ (nk_calls _ Hk) Hc) as Hkc.
  destruct (can_act s c Hk (reachable_call _ _ _ Hs Hc) Hkc) as [Hr|[Hr|Hg]].
  1,2: exists 0%nat, s, c; split; [lia|]; split; [constructor|]; by auto.
  destruct (own_step_on s id c Hs Hh Hc Hg) as (s1 & c1 & Hstep & Hs1 & Hc1 & Hpos & [Hh1|[Hh1 Hlt]]).
  - exists 1%nat, s1, c1. split; [lia|]. split; [by apply nsteps_once|by auto].
  - destruct (IH _ Hlt s1 c1 eq_refl Hs1 Hh1 Hc1) as (n & s' & c' & Hn & Hsteps & H).
    exists (S n), s', c'. split; [lia|]. split; [by eapply nsteps_l|done].
Qed.

(** C16. Every call returns unless its method does not: from every state that
    can be reached, and whatever the tester has broken, a call is at most ten
    steps of its own away from returning, from the end of the program (an
    unknown method, or a reply that does not decode), or from waiting for a
    method that runs on a server that is still there. *)
Theorem call_returns s id c :
  rtc net_step net_init s → n_halted s = false → n_calls s !! id = Some c →
  ∃ n s' c', (n ≤ 10)%nat ∧ nsteps (own_step id) n s s' ∧ n_calls s' !! id = Some c' ∧
    (n_halted s' = true ∨ returned c' ∨ blocked s' c').
Proof.
  intros Hs Hh Hc. pose proof (reachable_call _ _ _ Hs Hc) as Hok.
  destruct (runs_out s id c Hs Hh Hc) as (n & s' & c' & Hn & H). exists n, s', c'. split; [|done].
  pose proof (remaining_bound c Hok). lia.
Qed.

(** ** Types *)

(** C17. A method that runs is always one that [MakeService] accepted
    (exported, two parameters, the second a pointer, no results), under the
    name the request asks for; its argument has a type it takes and is the
    caller's own value when that value survives its encoding; what it leaves
    in its reply has the type of its reply parameter. *)
Theorem rpc_well_typed s id c p m a r :
  rtc net_step net_init s → n_calls s !! id = Some c → handler_ran (c_handler c) = Some (p, m, a, r) →
  (∃ service, split_last (svcMeth (c_req c)) = Some (service, Name m)) ∧
  PkgPath m = "" ∧ NumIn m = 3 ∧ NumOut m = 0 ∧
  assignable (argsType (c_req c)) (In1 m) = true ∧
  (assign (Zero (TypeOf (c_args c))) (c_args c) = (c_args c, true) → a = c_args c) ∧
  (∃ t, In2Elem m = Some t ∧ ∀ v, r = Some v → TypeOf v = t).
Proof.
  intros Hs Hc Hr. pose proof (reachable_call _ _ _ Hs Hc) as Hok.
  destruct (ck_req _ Hok) as (e & meth & Hreq). pose proof (ck_running _ Hok) as Hrun. unfold running_ok in Hrun.
  assert (called_ok (svcMeth (c_req c)) (c_args c) m a ∧ ∀ v, r = Some v → In2Elem m = Some (TypeOf v)) as [[Hn Hl Ht ->] Hv].
  { destruct (c_handler c); cbn in Hr; simplify_eq; naive_solver. }
  unfold looks_like_handler in Hl. rewrite negb_true_iff, !orb_false_iff, !negb_false_iff in Hl.
  destruct Hl as [[[Hpk Hin] Hel] Hout]. zbool. replace (argsType (c_req c)) with (TypeOf (c_args c)) by by rewrite Hreq.
  split_and!; try done; [by intros Ha; rewrite Ha|].
  destruct (In2Elem m) as [t|] eqn:Et; [|done]. exists t. split; [done|]. intros v [= ->]%Hv. done.
Qed.

(** ** Statistics *)

(** Calls whose method a server has looked up, those the network has taken and
    not finished with or run, and those that have left the caller. *)
Definition begun_on (p : nat) (c : Calling) : Z :=
  match handler_ran (c_handler c) with Some (q, _, _, _) => if bool_decide (q = p) then 1 else 0 | None => 0 end.
Definition taken (c : Calling) : Z :=
  match c_phase c with
  | CReceived | CDelaying _ _ _ => 1
  | _ => match c_handler c with HNone => 0 | _ => 1 end
  end.
Definition gone (c : Calling) : Z := match c_phase c with CSending => 0 | _ => 1 end.

Record counted (s : Net) : Prop := {
  cn_servers : ∀ p rs, n_heap s !! p = Some rs → srv_count rs = sum_of (begun_on p) (n_calls s);
  cn_total : ∃ n, net_count (n_net s) = wrap 32 n ∧ sum_of taken (n_calls s) ≤ n ≤ sum_of gone (n_calls s)
}.

Lemma acted_begun serving rn heap c rn' heap' c' p rs' :
  acted serving rn heap c rn' heap' c' → call_ok c → heap' !! p = Some rs' →
  ∃ rs, heap !! p = Some rs ∧ srv_count rs' - srv_count rs = begun_on p c' - begun_on p c.
Proof.
  intros H Hc Hrs'. pose proof (ck_phase c Hc) as Hph. unfold phase_ok in Hph.
  destruct H as [| | | | |? ? ? Hp|q rs ? ? ? Hh Hrs Hd|? ? ? ? Hh|? ? ? ? ? ? ? Hh| | |? ? ? ? ? Hh| | |];
    unfold begun_on; cbn; try (rewrite Hh; cbn); try (exists rs'; split; [done|lia]).
  - rewrite Hp in Hph. rewrite Hph. exists rs'. split; [done|cbn; lia].
  - apply list_lookup_insert_Some in Hrs' as [(<- & <- & _)|[Hne ?]].
    + exists rs. split; [done|]. pose proof (dispatch_server (c_req c) rs) as Hs. rewrite Hd in Hs. cbn in Hs. subst.
      rewrite bool_decide_eq_true_2 by done. cbn. lia.
    + exists rs'. split; [done|]. rewrite bool_decide_eq_false_2 by done. lia.
Qed.

Lemma acted_taken serving rn heap c rn' heap' c' :
  acted serving rn heap c rn' heap' c' → call_ok c →
  (net_count rn' = net_count rn ∧ taken c' ≤ taken c ∧ gone c ≤ gone c') ∨
  (net_count rn' = wrap 32 (net_count rn + 1) ∧ taken c' ≤ taken c + 1 ∧ gone c' = gone c + 1).
Proof.
  intros H Hc. pose proof (ck_phase c Hc) as Hph. unfold phase_ok in Hph.
  destruct H as [Hp _|Hp _|? ? ? Hp|? Hp|? ? ? ? Hp|? ? ? Hp|? ? ? ? ? Hh|? ? ? ? Hh|? ? ? ? ? ? Hp Hh|? ? Hp|?|
    ? ? ? ? Hl Hh|? ? ? ? ? ? ? ? ? ? ? Hp|? ? counted Hp|? ? ? Hp];
    unfold taken, gone; cbn; rewrite ?Hp in *; rewrite ?Hh in *; try rewrite Hph; cbn;
    try (by right); try (left; split; [done|]; lia).
  left. split; [by destruct counted|lia].
Qed.

Lemma acted_counted s id c rn heap c' :
  calling s id c → acted (n_serving s) (n_net s) (n_heap s) c rn heap c' → call_ok c → counted s →
  counted (s <| n_net := rn |> <| n_heap := heap |> <| n_calls ::= <[id := c']> |>).
Proof.
  intros Hid H Hc [Hsrv (n & Hn & Hlo & Hhi)]. split; cbn.
  - intros p rs' Hrs'. erewrite sum_of_insert by done.
    destruct (acted_begun _ _ _ _ _ _ _ _ _ H Hc Hrs') as (rs & Hrs & Hd). rewrite <- (Hsrv _ _ Hrs). lia.
  - erewrite !sum_of_insert by done.
    destruct (acted_taken _ _ _ _ _ _ _ H Hc) as [(-> & ? & ?)|(-> & ? & ?)].
    + exists n. split; [done|lia].
    + exists (n + 1). rewrite Hn, wrap_step. split; [done|lia].
Qed.

Lemma operate_counted o s s' : operate o s = Some s' → net_known s → counted s → counted s'.
Proof.
  intros H Hk Hcn. pose proof (operate_calls _ _ _ H) as Hcalls.
  assert (∀ s1, n_calls s1 = n_calls s → n_heap s1 = n_heap s → net_count (n_net s1) = net_count (n_net s) →
    counted s1) as Hsame.
  { intros s1 E1 E2 E3. destruct Hcn as [H1 H2]. split; by rewrite ?E1, ?E2, ?E3. }
  destruct o; cbn in H; simplify_option_eq; try (by apply Hsame).
  - unfold MakeEnd. destruct (ends _ !! _); by apply Hsame.
  - destruct Hcn as [H1 H2]. split; [|done]. cbn. intros p rs.
    intros [Hp|[Hp Hq]]%lookup_app_Some; [by apply H1|].
    apply list_lookup_singleton_Some in Hq as [Hq <-]. cbn. symmetry. apply sum_of_zero.
    eapply Forall_impl; [apply (nk_calls _ Hk)|]. intros c [_ Hon]. unfold begun_on.
    destruct (c_handler c); cbn in *; try done; (case_bool_decide; [|done]); subst;
      specialize (Hon _ eq_refl); lia.
  - destruct Hcn as [H1 H2]. split; [|done]. cbn. intros q rs'.
    intros [(<- & <- & _)|[_ ?]]%list_lookup_insert_Some; [|by apply H1].
    match goal with E : n_heap s !! p = Some _ |- _ => exact (H1 _ _ E) end.
  - destruct (GetCount _ _ _); by apply Hsame.
  - unfold Cleanup. destruct (net_done _); by apply Hsame.
Qed.

Lemma reachable_counted s : rtc net_step net_init s → counted s.
Proof.
  revert s. apply (rtc_ind_r counted).
  - split; [done|]. by exists 0.
  - intros s s' Hs [_ H]%net_step_stepped Hcn. pose proof (net_reachable_known _ Hs) as Hk.
    destruct H as [o s' H|e meth x reply|id c rn heap c' Hc H| |].
    + by eapply operate_counted.
    + destruct Hcn as [H1 H2]. split; cbn.
      * intros p rs Hp. rewrite sum_of_app, <- (H1 _ _ Hp). cbn. lia.
      * rewrite !sum_of_app. cbn. by rewrite !Z.add_0_r.
    + by eapply acted_counted, Hcn; [|done|eapply reachable_call].
    + destruct Hcn. by split.
    + destruct Hcn. by split.
Qed.

Lemma begun_taken p c : begun_on p c ≤ taken c.
Proof. unfold begun_on, taken. destruct (c_phase c), (c_handler c); cbn; try case_bool_decide; lia. Qed.
Lemma gone_one c : gone c ≤ 1.
Proof. unfold gone. destruct (c_phase c); lia. Qed.
Lemma taken_nonneg c : 0 ≤ taken c.
Proof. unfold taken. destruct (c_phase c), (c_handler c); lia. Qed.

(** The statistics: the count of a server is the number of calls it has
    run; the total count is the number of requests the network has taken, as
    a 32-bit integer, which is no less than what any server has run, no more
    than the number of calls made, and exact below 2^31 calls. *)
Theorem rpc_counts s k n :
  rtc net_step net_init s → GetCount k (n_net s) (n_heap s) = Some n →
  (∃ p, map_get None (servers (n_net s)) k = Some p ∧ n = sum_of (begun_on p) (n_calls s)) ∧
  ∃ t, n ≤ t ≤ len (n_calls s) ∧ GetTotalCount (n_net s) = wrap 32 t ∧
    (len (n_calls s) < 2 ^ 31 → GetTotalCount (n_net s) = t).
Proof.
  intros Hs Hn. destruct (reachable_counted _ Hs) as [Hsrv (t & Ht & Hlo & Hhi)]. unfold GetCount in Hn.
  destruct (map_get None _ k) as [p|] eqn:Ep; cbn in Hn; [|done].
  destruct (n_heap s !! p) as [rs|] eqn:Ers; cbn in Hn; [|done]. injection Hn as <-.
  rewrite (Hsrv _ _ Ers). split; [by exists p|]. exists t.
  pose proof (sum_of_mono _ _ (n_calls s) (begun_taken p)).
  pose proof (sum_of_mono (λ _, 0) _ (n_calls s) taken_nonneg).
  pose proof (sum_of_zero (λ _, 0) (n_calls s) ltac:(by apply Forall_true)).
  pose proof (sum_of_le gone (n_calls s) 1 (λ c _, gone_one c)).
  split; [lia|]. split; [done|]. intros Hlen. unfold GetTotalCount. rewrite Ht. apply wrap_small; lia.
Qed.

End rpc.
