(* ===== verification/LabrpcTests.v ===== *)
(** * labrpc: the first test, step by step

    [TestBasic] of [labrpc/test_test.go]: one end, one server with a
    [JunkServer], and a call of its [Handler2], taken through every step to
    its return; the claims of LabrpcClaims.v at the states of this run. *)
From stdpp Require Import base tactics strings numbers relations gmap list.
From S2P Require Import Prelude.
From S2P Require Import Labgob.
From S2P Require Import Labrpc.
From S2P Require Import LabrpcRun.
From S2P Require Import LabrpcFacts.
From S2P Require Import LabrpcClaims.
Open Scope Z_scope.

(** Integers and strings, as far as [reflect] and [gob] see them: a zero value
    is not sent, so that it leaves what the variable held. *)
Inductive Junk := JInt (z : Z) | JString (s : string).
Inductive JunkType := TInt | TString.
#[export] Instance JunkType_eq_dec : EqDecision JunkType.
Proof. solve_decision. Defined.

Definition junk_type (v : Junk) : JunkType := match v with JInt _ => TInt | JString _ => TString end.
Definition junk_zero (t : JunkType) : Junk := match t with TInt => JInt 0 | TString => JString "" end.
Definition junk_assign (x v : Junk) : Junk * bool :=
  match x, v with
  | JInt a, JInt b => (JInt (if b =? 0 then a else b), true)
  | JString a, JString b => (JString (if bool_decide (b = "") then a else b), true)
  | _, _ => (x, false)
  end.

#[export] Instance Junk_reflect : Reflect Junk := {|
  RType := JunkType;
  TypeOf := junk_type;
  Zero := junk_zero;
  assignable t t' := bool_decide (t = t');
  assign := junk_assign;
  byte_len l := 8 * len l
|}.

(** The method set of [*JunkServer], as far as the run needs it, with a method
    that is no handler. *)
Definition JunkServer : Rcvr Junk := mkRcvr "JunkServer"
  [mkMethod "Handler1" "" 3 TString (Some TInt) 0; mkMethod "Handler2" "" 3 TInt (Some TString) 0;
   mkMethod "Count" "" 1 TInt None 1].

Definition the_end : ClientEnd := mkClientEnd (IString "end1-99").

Definition set_up : list (Action (V:=Junk)) :=
  [AOperate (OMakeEnd (IString "end1-99")); AOperate OMakeServer; AOperate (OAddService 0 JunkServer);
   AOperate (OAddServer (IString "server99") 0); AOperate (OConnect (IString "end1-99") (IString "server99"));
   AOperate (OEnable (IString "end1-99") true); ACall the_end "JunkServer.Handler2" (JInt 111) (JString "")].

Definition to_method : list Action :=
  [AAct 0 Receive; AAct 0 (ReadInfo 5); AAct 0 (AfterDelay 7); AAct 0 Dispatch].
Definition to_return : list Action :=
  [AAct 0 (MethodReturns (JString "handler2-111")); AAct 0 TakeReply; AAct 0 (Conclude 1 2 3);
   AAct 0 Fire; AAct 0 Answer].

Definition after (acts : list Action) : Net (V:=Junk) := default net_init (perform_all acts net_init).
Definition called : Net := after set_up.
Definition answered : Net := after (set_up ++ to_method ++ to_return).

Lemma perform_all_app (acts more : list (Action (V:=Junk))) s :
  perform_all (acts ++ more) s = s1 ← perform_all acts s; perform_all more s1.
Proof.
  revert s. induction acts as [|a acts IH]; intros s; cbn; [done|].
  destruct (perform a s); cbn; [apply IH|done].
Qed.

Definition runs (acts : list (Action (V:=Junk))) : bool :=
  match perform_all acts net_init with Some _ => true | None => false end.

Lemma after_steps (acts more : list (Action (V:=Junk))) :
  runs (acts ++ more) = true →
  rtc net_step net_init (after acts) ∧ rtc net_step (after acts) (after (acts ++ more)).
Proof.
  unfold runs, after. rewrite perform_all_app.
  destruct (perform_all acts net_init) as [s1|] eqn:E1; cbn; [|done].
  destruct (perform_all more s1) as [s2|] eqn:E2; cbn; [|done].
  intros _. split; by eapply all_performed.
Qed.

Lemma called_reachable : rtc net_step net_init called.
Proof. by apply (after_steps set_up []); vm_compute. Qed.
Lemma answered_reachable : rtc net_step net_init answered.
Proof. apply (after_steps (set_up ++ to_method ++ to_return) []). by vm_compute. Qed.
Lemma called_answered : rtc net_step called answered.
Proof. by apply (after_steps set_up (to_method ++ to_return)); vm_compute. Qed.

(** The call at the end of the run. *)
Definition the_method : Method Junk := mkMethod "Handler2" "" 3 TInt (Some TString) 0.
Definition the_call (ph : Phase) (h : Running) : Calling :=
  mkCalling (JInt 111) (Call_request the_end "JunkServer.Handler2" (JInt 111)) (JString "") ph h.
Definition the_result : Junk := JString "handler2-111".

Lemma called_call : n_calls called = [the_call CSending HNone].
Proof. by vm_compute. Qed.
Lemma answered_call :
  n_calls answered = [the_call (CReturned true the_result) (HDone 0 the_method (JInt 111) the_result)].
Proof. by vm_compute. Qed.

(** The network is up for the end all along. *)
Definition up_at (s : Net (V:=Junk)) : bool :=
  reliable (n_net s) && negb (net_done (n_net s))
  && bool_decide (enabled (n_net s) !! ce_endname the_end = Some true)
  && bool_decide (connections (n_net s) !! ce_endname the_end = Some (IString "server99"))
  && bool_decide (servers (n_net s) !! IString "server99" = Some (Some 0%nat)).

Lemma up_at_up s : up_at s = true → up (ce_endname the_end) (IString "server99") 0 s.
Proof. unfold up_at. intros H. zbool. repeat match goal with H : _ ∧ _ |- _ => destruct H end. by split. Qed.

Fixpoint up_along (acts : list (Action (V:=Junk))) (s : Net) : option Net :=
  match acts with
  | [] => Some s
  | a :: acts => if up_at s then s' ← perform a s; up_along acts s' else None
  end.

Lemma up_along_steps acts s s' :
  up_along acts s = Some s' → rtc (up_step (ce_endname the_end) (IString "server99") 0) s s'.
Proof.
  revert s. induction acts as [|a acts IH]; cbn; intros s; [by intros [= ->]|].
  destruct (up_at s) eqn:Eu; [|done]. destruct (perform a s) as [s1|] eqn:Ea; cbn; [|done].
  intros H. eapply rtc_l; [|by apply IH]. split; [by exists a|by apply up_at_up].
Qed.

Lemma called_answered_up : rtc (up_step (ce_endname the_end) (IString "server99") 0) called answered.
Proof. apply (up_along_steps (to_method ++ to_return)). by vm_compute. Qed.

(** ** The claims at this run *)

Lemma rpc_at_most_once_witness : rtc rpcs_step (rpcs called) (rpcs answered).
Proof. exact (rpc_at_most_once called answered called_reachable called_answered). Defined.

Lemma positive_reply_witness :
  ∃ (s1 s2 : Net (V:=Junk)) p, rtc net_step net_init s1 ∧ rtc net_step s1 s2 ∧ rtc net_step s2 answered ∧
    target (readEndnameInfo (ce_endname the_end) (n_net s1)) = Some p ∧
    isServerDead (ce_endname the_end)
      (i_servername (readEndnameInfo (ce_endname the_end) (n_net s1))) (Some p) (n_net s2) = false.
Proof.
  destruct (positive_reply answered 0 (the_call (CReturned true the_result) (HDone 0 the_method (JInt 111) the_result))
    the_result answered_reachable ltac:(by rewrite answered_call) eq_refl)
    as (s1 & s2 & c1 & c2 & p & m & a & v & H1 & H12 & H2 & _ & _ & Ht & Hc2 & Hh & Hd & _).
  by exists s1, s2, p.
Defined.

Lemma reliable_answered_witness : ∃ m a v,
  HDone 0 the_method (JInt 111) the_result = HDone 0 m a v ∧ junk_assign (JString "") v = (the_result, true).
Proof.
  apply (reliable_answered called answered 0 (the_call CSending HNone)
    (the_call (CReturned true the_result) (HDone 0 the_method (JInt 111) the_result))
    (IString "server99") 0 true the_result called_reachable);
    [by rewrite called_call|done|exact called_answered_up|by rewrite answered_call|done].
Defined.

Lemma call_returns_witness : ∃ n s' c', (n ≤ 10)%nat ∧ nsteps (own_step 0) n called s' ∧
  n_calls s' !! 0%nat = Some c' ∧ (n_halted s' = true ∨ returned c' ∨ blocked s' c').
Proof.
  apply (call_returns called 0 (the_call CSending HNone) called_reachable); [by vm_compute|by rewrite called_call].
Defined.

Lemma rpc_well_typed_witness : NumIn the_method = 3 ∧ junk_type the_result = TString ∧
  ∃ t, In2Elem the_method = Some t ∧ ∀ v, Some the_result = Some v → junk_type v = t.
Proof.
  split_and!; [done|done|].
  apply (rpc_well_typed answered 0 (the_call (CReturned true the_result) (HDone 0 the_method (JInt 111) the_result))
    0 the_method (JInt 111) (Some the_result) answered_reachable); [by rewrite answered_call|done].
Defined.

Lemma rpc_counts_witness :
  GetCount (IString "server99") (n_net answered) (n_heap answered) = Some 1 ∧
  ∃ t, 1 ≤ t ≤ len (n_calls answered) ∧ GetTotalCount (n_net answered) = wrap 32 t ∧
    (len (n_calls answered) < 2 ^ 31 → GetTotalCount (n_net answered) = t).
Proof.
  assert (GetCount (IString "server99") (n_net answered) (n_heap answered) = Some 1) as Hn by by vm_compute.
  split; [done|]. exact (proj2 (rpc_counts answered (IString "server99") 1 answered_reachable Hn)).
Defined.
