(* ===== verification/LabrpcEnds.v ===== *)
(** * The ends a tester makes and switches

    The testers of Raft and of the services give every peer and every clerk a
    row of ends with random names, one to each server, and enable and disable
    them.  What they share: the loops over names, and what the network knows of
    an end after them. *)
From stdpp Require Import base tactics strings numbers gmap list.
From S2P Require Import Prelude.
From S2P Require Import Labrpc.
Open Scope go_scope.

(** A loop that enables or disables the ends of these names. *)
Definition enable_all (b : bool) (names : list string) (rn : Network) : Network :=
  foldl (λ rn nm, Enable (IString nm) b rn) rn names.

(** [ends[j] = MakeEnd(name); Connect(name, j)]. *)
Definition make_end (rn : Network) (jn : nat * string) : option Network :=
  '(rn, _) ← MakeEnd (IString jn.2) rn;
  Some (Connect (IString jn.2) (IInt (Z.of_nat jn.1)) rn).

Fixpoint make_ends (l : list (nat * string)) (rn : Network) : option Network :=
  match l with
  | [] => Some rn
  | jn :: l => rn ← make_end rn jn; make_ends l rn
  end.

Definition end_enabled (rn : Network) (nm : string) : bool := map_get false (enabled rn) (IString nm).

(** ** Lemmas *)

Implicit Types (nm : string).

Lemma enable_all_enabled b names rn nm :
  end_enabled (enable_all b names rn) nm = if decide (nm ∈ names) then b else end_enabled rn nm.
Proof.
  unfold enable_all. revert rn. induction names as [|x names IH]; intros rn; cbn; [done|].
  rewrite IH. unfold end_enabled at 1. cbn. unfold map_get.
  destruct (decide (nm = x)) as [->|Hne].
  - rewrite lookup_insert_eq. cbn. rewrite (decide_True (P:=x ∈ x :: names)) by left. by case_decide.
  - rewrite lookup_insert_ne by congruence.
    destruct (decide (nm ∈ names)); [by rewrite decide_True by by right|].
    rewrite decide_False; [done|]. by intros [|]%elem_of_cons.
Qed.

Lemma enable_all_rest b names rn :
  ends (enable_all b names rn) = ends rn ∧ connections (enable_all b names rn) = connections rn ∧
  servers (enable_all b names rn) = servers rn.
Proof. unfold enable_all. revert rn. induction names as [|x names IH]; intros rn; cbn; [done|].
  by destruct (IH (Enable (IString x) b rn)) as (-> & -> & ->).
Qed.

Lemma enable_all_app b l1 l2 rn : enable_all b (l1 ++ l2) rn = enable_all b l2 (enable_all b l1 rn).
Proof. unfold enable_all. by rewrite foldl_app. Qed.

(** What the network knows of an end: whether it exists, is enabled, and
    where it leads. *)
Definition end_view (rn : Network) (nm : string) : option ClientEnd * bool * Iface :=
  (ends rn !! IString nm, end_enabled rn nm, map_get INil (connections rn) (IString nm)).

(** An end just made: disabled, connected to peer [j]. *)
Definition fresh_end (j : nat) (nm : string) : option ClientEnd * bool * Iface :=
  (Some (mkClientEnd (IString nm)), false, IInt (Z.of_nat j)).

Lemma make_end_spec rn j nm rn' :
  make_end rn (j, nm) = Some rn' →
  ends rn !! IString nm = None ∧ end_view rn' nm = fresh_end j nm ∧ ∀ nm', nm' ≠ nm → end_view rn' nm' = end_view rn nm'.
Proof.
  unfold make_end, MakeEnd, end_view, end_enabled, fresh_end, map_get. cbn.
  destruct (ends rn !! IString nm); cbn; [done|]. intros [= <-]. cbn. split; [done|].
  split; [by rewrite !lookup_insert_eq|]. intros nm' Hne. by rewrite !lookup_insert_ne by congruence.
Qed.

(** The ends that [make_ends] adds are new. *)
Lemma make_ends_spec l rn rn' :
  make_ends l rn = Some rn' →
  NoDup l.*2 ∧ (∀ j nm, (j, nm) ∈ l → ends rn !! IString nm = None ∧ end_view rn' nm = fresh_end j nm) ∧
  (∀ nm, nm ∉ l.*2 → end_view rn' nm = end_view rn nm).
Proof.
  revert rn. induction l as [|[j nm] l IH]; cbn [make_ends]; intros rn.
  - intros [= <-]. split; [constructor|]. split; [by intros ?? ?%elem_of_nil|done].
  - destruct (make_end rn (j, nm)) as [rn1|] eqn:E; cbn; [|done]. intros H.
    destruct (make_end_spec _ _ _ _ E) as (Hnew & Hv & Hother). destruct (IH _ H) as (Hnd & Hin & Hout).
    assert (nm ∉ l.*2) as Hnm.
    { intros ([j' nm'] & -> & Hl)%list_elem_of_fmap. destruct (Hin _ _ Hl) as [Hn _].
      unfold end_view, fresh_end in Hv. cbn in Hv. by rewrite Hn in Hv. }
    split; [by constructor|]. split.
    + intros j' nm' [[= -> ->]|Hl]%elem_of_cons; [by rewrite Hout|]. destruct (Hin _ _ Hl) as [Hn Hv']. split; [|done].
      assert (nm' ≠ nm) as Hne by (intros ->; apply Hnm; by apply (list_elem_of_fmap_2 snd _ _ Hl)).
      apply Hother in Hne. unfold end_view in Hne. rewrite Hn in Hne. by injection Hne.
    + intros nm' [Hne Hl]%not_elem_of_cons. by rewrite Hout, Hother.
Qed.

Lemma make_ends_total l rn :
  NoDup l.*2 → (∀ nm, nm ∈ l.*2 → ends rn !! IString nm = None) → is_Some (make_ends l rn).
Proof.
  revert rn. induction l as [|[j nm] l IH]; cbn; intros rn; [by eexists|].
  intros [Hnm Hnd]%NoDup_cons Hnew.
  assert (is_Some (make_end rn (j, nm))) as [rn1 E].
  { unfold make_end, MakeEnd. cbn. rewrite Hnew by left. by eexists. }
  rewrite E. cbn. apply IH; [done|]. intros nm' Hl. destruct (make_end_spec _ _ _ _ E) as (_ & _ & Hother).
  assert (nm' ≠ nm) as Hne by (intros ->; done). apply Hother in Hne. injection Hne as -> _ _.
  apply Hnew. by right.
Qed.

Lemma make_ends_servers l rn rn' : make_ends l rn = Some rn' → servers rn' = servers rn.
Proof.
  revert rn. induction l as [|[j nm] l IH]; cbn; intros rn; [by intros [= ->]|].
  unfold make_end, MakeEnd. cbn. destruct (ends rn !! _); cbn; [done|]. by intros ->%IH.
Qed.
