(* ===== verification/RaftConfig.v ===== *)
(** * The tester of Raft: which peers can talk

    [raft/config.go] keeps, for every pair of peers, the name of the end the
    first uses to call the second.  [connect] and [disconnect] enable and
    disable these ends; [start1] gives a peer that (re)starts a fresh row of
    ends, so that the instance that was killed cannot send any more.  The
    functions are over the network of Labrpc.v; the state of the Raft peers is
    in RaftTester.v. *)
From stdpp Require Import base tactics strings numbers relations gmap list.
From S2P Require Import Prelude.
From S2P Require Import Labrpc.
From S2P Require Import LabrpcEnds.
Open Scope go_scope.

(** The fields of [config] that these functions use; [rafts] says only which
    peers exist. *)
Record config := mkConfig {
  cfg_net : Network;
  cfg_n : nat;
  rafts : list bool;
  connected : list bool;
  endnames : list (option (list string))      (* a row for each peer, nil before it starts *)
}.

#[export] Instance config_eta : RecordEta config := λ c,
  mkConfig (cfg_net c) (cfg_n c) (rafts c) (connected c) (endnames c).

Definition is_connected (cfg : config) (j : nat) : Prop := connected cfg !! j = Some true.
#[export] Instance is_connected_dec cfg j : Decision (is_connected cfg j).
Proof. unfold is_connected. apply _. Defined.

(** [cfg.endnames[i][j]]: a nil row or an index out of range panics. *)
Definition endname (cfg : config) (i j : nat) : option string :=
  row ← endnames cfg !! i; names ← row; names !! j.
Definition has_row (cfg : config) (j : nat) : Prop := is_Some (endnames cfg !! j ≫= id).
#[export] Instance has_row_dec cfg j : Decision (has_row cfg j).
Proof. unfold has_row. apply _. Defined.

Definition peers (cfg : config) : list nat := seq 0 (cfg_n cfg).

(** Attach a peer to the network. *)
Definition connect (i : nat) (cfg : config) : option config :=
  let cfg := cfg <| connected ::= <[i := true]> |> in
  let js := filter (is_connected cfg) (peers cfg) in
  outgoing ← mapM (λ j, endname cfg i j) js;
  incoming ← mapM (λ j, endname cfg j i) js;
  Some (cfg <| cfg_net ::= λ rn, enable_all true incoming (enable_all true outgoing rn) |>).

(** Detach it. *)
Definition disconnect (i : nat) (cfg : config) : option config :=
  let cfg := cfg <| connected ::= <[i := false]> |> in
  outgoing ← mapM (λ j, endname cfg i j) (if decide (has_row cfg i) then peers cfg else []);
  incoming ← mapM (λ j, endname cfg j i) (filter (has_row cfg) (peers cfg));
  Some (cfg <| cfg_net ::= λ rn, enable_all false incoming (enable_all false outgoing rn) |>).

(** Shut a peer down.  Copying the persister and killing the peer are steps of
    the peers. *)
Definition crash1 (i : nat) (cfg : config) : option config :=
  cfg ← disconnect i cfg;
  Some (cfg <| cfg_net ::= DeleteServer (IInt (Z.of_nat i)) |> <| rafts ::= <[i := false]> |>).

(** Start or restart a peer: [names] are the random strings, [srv] the server
    made for it. *)
Definition start1 (i : nat) (names : list string) (srv : nat) (cfg : config) : option config :=
  cfg ← crash1 i cfg;
  let names := take (cfg_n cfg) names in
  let cfg := cfg <| endnames ::= <[i := Some names]> |> in
  rn ← make_ends (imap pair names) (cfg_net cfg);
  Some (cfg <| cfg_net := AddServer (IInt (Z.of_nat i)) (Some srv) rn |> <| rafts ::= <[i := true]> |>).

(** The loops of [makeConfig] over a network that has no ends. *)
Definition start_config (n : nat) (rn : Network) : config :=
  mkConfig (LongDelays true rn) n (replicate n false) (replicate n false) (replicate n None).

Fixpoint start_all (l : list (nat * (list string * nat))) (cfg : config) : option config :=
  match l with
  | [] => Some cfg
  | (i, (names, srv)) :: l => cfg ← start1 i names srv cfg; start_all l cfg
  end.
Fixpoint connect_all (l : list nat) (cfg : config) : option config :=
  match l with
  | [] => Some cfg
  | i :: l => cfg ← connect i cfg; connect_all l cfg
  end.

Definition makeConfig (unreliable : bool) (starts : list (list string * nat)) (n : nat) (rn : Network) : option config :=
  let cfg := start_config n (Reliable (negb unreliable) rn) in
  cfg ← start_all (imap pair (take n starts)) cfg;
  connect_all (peers cfg) cfg.

(** ** What the tester does *)

Inductive cfg_step (cfg : config) : config → Prop :=
| cs_connect i cfg' : (i < cfg_n cfg)%nat → connect i cfg = Some cfg' → cfg_step cfg cfg'
| cs_disconnect i cfg' : (i < cfg_n cfg)%nat → disconnect i cfg = Some cfg' → cfg_step cfg cfg'
| cs_crash i cfg' : (i < cfg_n cfg)%nat → crash1 i cfg = Some cfg' → cfg_step cfg cfg'
| cs_start i names srv cfg' :
    (i < cfg_n cfg)%nat → (cfg_n cfg ≤ length names)%nat → start1 i names srv cfg = Some cfg' → cfg_step cfg cfg'.

(** ** The invariant *)

Record cfg_ok (cfg : config) : Prop := {
  ok_connected : length (connected cfg) = cfg_n cfg;
  ok_endnames : length (endnames cfg) = cfg_n cfg;
  ok_rows i row : endnames cfg !! i = Some (Some row) → length row = cfg_n cfg;
  (** every name belongs to one pair and is an end to the peer it is for *)
  ok_inj i j i' j' nm : endname cfg i j = Some nm → endname cfg i' j' = Some nm → i = i' ∧ j = j';
  ok_end i j nm : endname cfg i j = Some nm →
    is_Some (ends (cfg_net cfg) !! IString nm) ∧
    map_get INil (connections (cfg_net cfg)) (IString nm) = IInt (Z.of_nat j);
  (** a connected peer has started *)
  ok_started i : is_connected cfg i → has_row cfg i;
  (** exactly the ends between connected peers are enabled *)
  ok_enabled nm : end_enabled (cfg_net cfg) nm = true ↔
    ∃ i j, endname cfg i j = Some nm ∧ is_connected cfg i ∧ is_connected cfg j;
  ok_known nm : end_enabled (cfg_net cfg) nm = true → is_Some (ends (cfg_net cfg) !! IString nm)
}.

(** ** Every operation keeps it *)

Section operations.
Implicit Types (cfg : config) (nm : string).

(** Who is connected after [i] has been switched. *)
Definition switched (P : nat → Prop) (i : nat) (b : bool) (j : nat) : Prop := if decide (j = i) then b = true else P j.

Lemma switch_enabled (E : nat → nat → option string) (P : nat → Prop) i b (names : list string) old nm :
  (∀ j k j' k', E j k = Some nm → E j' k' = Some nm → j = j' ∧ k = k') →
  (nm ∈ names ↔ ∃ j k, E j k = Some nm ∧ (j = i ∨ k = i) ∧ (b = true → switched P i b j ∧ switched P i b k)) →
  (old = true ↔ ∃ j k, E j k = Some nm ∧ P j ∧ P k) →
  (if decide (nm ∈ names) then b else old) = true ↔ ∃ j k, E j k = Some nm ∧ switched P i b j ∧ switched P i b k.
Proof.
  intros Hinj Hn Ho. unfold switched in *. destruct b.
  - split.
    + destruct (decide (nm ∈ names)) as [Hd|Hd]; [apply Hn in Hd; naive_solver|]. intros (j & k & He & Hj & Hk)%Ho.
      exists j, k. split; [done|]. by repeat case_decide.
    + intros (j & k & He & Hj & Hk). destruct (decide (nm ∈ names)) as [Hd|Hd]; [done|].
      destruct (decide (j = i ∨ k = i)) as [Hjk|Hjk].
      * destruct Hd. apply Hn. exists j, k. auto.
      * apply Ho. exists j, k. rewrite decide_False in Hj by tauto. by rewrite decide_False in Hk by tauto.
  - split.
    + destruct (decide (nm ∈ names)) as [Hd|Hd]; [done|]. intros (j & k & He & Hj & Hk)%Ho. exists j, k. split; [done|].
      split; (case_decide; [|done]); destruct Hd; apply Hn; exists j, k; split_and!; by auto.
    + intros (j & k & He & Hj & Hk). destruct (decide (nm ∈ names)) as [Hd|Hd].
      * apply Hn in Hd as (j' & k' & He' & Hor & _). destruct (Hinj _ _ _ _ He He') as [-> ->].
        destruct Hor as [->| ->]; [by rewrite decide_True in Hj by done|by rewrite decide_True in Hk by done].
      * apply Ho. exists j, k. by destruct (decide (j = i)), (decide (k = i)).
Qed.

(** The rows, the ends and the connections stay; only who is connected and
    what is enabled changes. *)
Lemma switch_ok cfg i b names (f : Network → Network) :
  (∀ rn, f rn = enable_all b names rn) →
  cfg_ok cfg → (i < cfg_n cfg)%nat → (b = true → has_row cfg i) →
  (∀ nm, nm ∈ names ↔ ∃ j k, endname cfg j k = Some nm ∧ (j = i ∨ k = i) ∧
     (b = true → switched (is_connected cfg) i b j ∧ switched (is_connected cfg) i b k)) →
  cfg_ok (cfg <| connected ::= <[i := b]> |> <| cfg_net ::= f |>).
Proof.
  intros Hf [Hc He Hr Hinj Hend Hst Hen Hkn] Hi Hrow Hnames.
  destruct (enable_all_rest b names (cfg_net cfg)) as (E1 & E2 & _).
  assert (∀ j, is_connected (cfg <| connected ::= <[i := b]> |> <| cfg_net ::= f |>) j ↔
    switched (is_connected cfg) i b j) as Hcon.
  { intros j. unfold is_connected, switched. cbn. case_decide as Hj.
    - subst. rewrite list_lookup_insert_eq by lia. by split; [intros [= ->]|intros ->].
    - by rewrite list_lookup_insert_ne. }
  assert (∀ nm, end_enabled (enable_all b names (cfg_net cfg)) nm = true ↔ ∃ j k, endname cfg j k = Some nm ∧
    switched (is_connected cfg) i b j ∧ switched (is_connected cfg) i b k) as Hen'.
  { intros nm. rewrite enable_all_enabled. apply switch_enabled; eauto. }
  split; cbn; rewrite ?Hf; try done; try (by rewrite length_insert).
  - intros j k nm Hn. rewrite E1, E2. by apply Hend with j.
  - intros j Hj%Hcon. change (has_row cfg j). unfold switched in Hj. case_decide; subst; eauto.
  - intros nm. rewrite Hen'. by setoid_rewrite Hcon.
  - intros nm (j & k & Hn & _)%Hen'. rewrite E1. by eapply Hend.
Qed.

Lemma endname_lt cfg i j nm :
  cfg_ok cfg → endname cfg i j = Some nm → (i < cfg_n cfg)%nat ∧ (j < cfg_n cfg)%nat ∧ has_row cfg i.
Proof.
  intros Hok. unfold endname, has_row. destruct (endnames cfg !! i) as [[row|]|] eqn:E; cbn; try done.
  intros Hj%lookup_lt_Some. rewrite (ok_rows _ Hok _ _ E) in Hj. apply lookup_lt_Some in E.
  rewrite (ok_endnames _ Hok) in E. split_and!; [done|done|by eexists].
Qed.

Lemma endname_some cfg i j :
  cfg_ok cfg → has_row cfg i → (j < cfg_n cfg)%nat → is_Some (endname cfg i j).
Proof.
  intros Hok [row Hrow] Hj. unfold endname, has_row in *.
  destruct (endnames cfg !! i) as [[row'|]|] eqn:E; cbn in *; try done.
  apply lookup_lt_is_Some. by rewrite (ok_rows _ Hok _ _ E).
Qed.

(** [connect] panics for a peer that has not started, and otherwise succeeds. *)
Lemma connect_ok cfg i cfg' :
  cfg_ok cfg → (i < cfg_n cfg)%nat → connect i cfg = Some cfg' → cfg_ok cfg' ∧
  connected cfg' = <[i := true]> (connected cfg) ∧ endnames cfg' = endnames cfg ∧ cfg_n cfg' = cfg_n cfg.
Proof.
  intros Hok Hi. unfold connect. set (cfg1 := cfg <| connected ::= <[i := true]> |>).
  set (js := filter (is_connected cfg1) (peers cfg1)).
  destruct (mapM (λ j, endname cfg1 i j) js) as [out|] eqn:Eo; cbn [mbind option_bind]; [|done].
  destruct (mapM (λ j, endname cfg1 j i) js) as [inc|] eqn:Ei; cbn [mbind option_bind]; [|done].
  intros [= <-].
  assert (∀ j, is_connected cfg1 j ↔ switched (is_connected cfg) i true j) as Hcon.
  { intros j. unfold is_connected, switched, cfg1. cbn. case_decide as Hj.
    - subst. by rewrite list_lookup_insert_eq by (rewrite (ok_connected _ Hok); lia).
    - by rewrite list_lookup_insert_ne. }
  assert (∀ j, j ∈ js ↔ switched (is_connected cfg) i true j ∧ (j < cfg_n cfg)%nat) as Hjs.
  { intros j. unfold js. rewrite list_elem_of_filter, Hcon. unfold peers. rewrite elem_of_seq. cbn. naive_solver lia. }
  split; [|done]. apply (switch_ok cfg i true (out ++ inc)); [intros rn; by rewrite enable_all_app|done|done| |].
  - intros _. assert (i ∈ js) as [n Hn]%list_elem_of_lookup by (apply Hjs; split; [|done]; unfold switched; by rewrite decide_True).
    apply mapM_Some in Eo. destruct (Forall2_lookup_l _ _ _ _ _ Eo Hn) as (nm & _ & Hnm).
    by eapply (endname_lt cfg i i nm).
  - intros nm. rewrite elem_of_app, (mapM_elem _ _ _ _ Eo), (mapM_elem _ _ _ _ Ei).
    change (endname cfg1) with (endname cfg). setoid_rewrite Hjs.
    assert (switched (is_connected cfg) i true i) as Hii by (unfold switched; by rewrite decide_True). split.
    + intros [(j & [Hj _] & Hn)|(j & [Hj _] & Hn)]; [exists i, j|exists j, i]; auto.
    + intros (j & k & Hn & [->| ->] & Hsw); destruct (Hsw eq_refl);
        destruct (endname_lt _ _ _ _ Hok Hn) as (? & ? & _); [left|right]; eauto.
Qed.

Lemma disconnect_ok cfg i cfg' :
  cfg_ok cfg → (i < cfg_n cfg)%nat → disconnect i cfg = Some cfg' → cfg_ok cfg' ∧
  connected cfg' = <[i := false]> (connected cfg) ∧ endnames cfg' = endnames cfg ∧ cfg_n cfg' = cfg_n cfg.
Proof.
  intros Hok Hi. unfold disconnect. set (cfg1 := cfg <| connected ::= <[i := false]> |>).
  set (ks := if decide (has_row cfg1 i) then peers cfg1 else []). set (js := filter (has_row cfg1) (peers cfg1)).
  destruct (mapM (λ j, endname cfg1 i j) ks) as [out|] eqn:Eo; cbn [mbind option_bind]; [|done].
  destruct (mapM (λ j, endname cfg1 j i) js) as [inc|] eqn:Ei; cbn [mbind option_bind]; [|done].
  intros [= <-]. split; [|done].
  apply (switch_ok cfg i false (out ++ inc)); [intros rn; by rewrite enable_all_app|done|done|done|].
  intros nm. rewrite elem_of_app, (mapM_elem _ _ _ _ Eo), (mapM_elem _ _ _ _ Ei).
  change (endname cfg1) with (endname cfg). split.
  - intros [(j & _ & Hn)|(j & _ & Hn)]; [exists i, j|exists j, i]; split_and!; by auto.
  - intros (j & k & Hn & Hor & _). destruct (endname_lt _ _ _ _ Hok Hn) as (Hj & Hk & Hrow).
    destruct Hor as [->| ->]; [left; exists k|right; exists j]; (split; [|done]).
    + unfold ks. rewrite decide_True by done. apply elem_of_seq. cbn. lia.
    + apply list_elem_of_filter. split; [done|]. apply elem_of_seq. cbn. lia.
Qed.

Lemma cfg_ok_net cfg rn bs :
  cfg_ok cfg → ends rn = ends (cfg_net cfg) → connections rn = connections (cfg_net cfg) →
  enabled rn = enabled (cfg_net cfg) → cfg_ok (cfg <| cfg_net := rn |> <| rafts := bs |>).
Proof.
  intros [Hc He Hr Hinj Hend Hst Hen Hkn] E1 E2 E3.
  assert (∀ nm, end_enabled rn nm = end_enabled (cfg_net cfg) nm) as En by (intros nm; unfold end_enabled; by rewrite E3).
  split; cbn; rewrite ?E1, ?E2; try done; intros nm; rewrite En; auto.
Qed.

Lemma crash1_ok cfg i cfg' :
  cfg_ok cfg → (i < cfg_n cfg)%nat → crash1 i cfg = Some cfg' → cfg_ok cfg' ∧
  connected cfg' = <[i := false]> (connected cfg) ∧ endnames cfg' = endnames cfg ∧ cfg_n cfg' = cfg_n cfg.
Proof.
  intros Hok Hi. unfold crash1. destruct (disconnect i cfg) as [cfg1|] eqn:E; cbn; [|done]. intros [= <-].
  destruct (disconnect_ok _ _ _ Hok Hi E) as (Hok1 & Hrest). split; [|done].
  by apply (cfg_ok_net cfg1 (DeleteServer (IInt (Z.of_nat i)) (cfg_net cfg1)) (<[i := false]> (rafts cfg1))).
Qed.

(** ** The fresh ends of a peer that starts *)

(** The new row. *)
Definition with_row (i : nat) (names : list string) (cfg : config) : config :=
  cfg <| endnames ::= <[i := Some names]> |>.

Lemma endname_with_row cfg i names a b nm :
  cfg_ok cfg → (i < cfg_n cfg)%nat →
  endname (with_row i names cfg) a b = Some nm ↔
    (a = i ∧ names !! b = Some nm) ∨ (a ≠ i ∧ endname cfg a b = Some nm).
Proof.
  intros Hok Hi. unfold endname, with_row. cbn. destruct (decide (a = i)) as [->|Hne].
  - rewrite list_lookup_insert_eq by (by rewrite (ok_endnames _ Hok)). cbn. naive_solver.
  - rewrite list_lookup_insert_ne by done. naive_solver.
Qed.

(** A peer that is down gets new ends. *)
Lemma new_row_ok cfg i names rn :
  cfg_ok cfg → (i < cfg_n cfg)%nat → ¬ is_connected cfg i → length names = cfg_n cfg →
  make_ends (imap pair names) (cfg_net cfg) = Some rn → cfg_ok (with_row i names cfg <| cfg_net := rn |>).
Proof.
  intros Hok Hi Hdown Hlen Hm. destruct (make_ends_spec _ _ _ Hm) as (Hnd & Hin & Hout).
  rewrite imap_pair_snd in Hnd, Hout.
  assert (∀ j nm, names !! j = Some nm → ends (cfg_net cfg) !! IString nm = None ∧ end_view rn nm = fresh_end j nm)
    as Hnew by (intros j nm Hj; apply Hin; by apply elem_of_imap_pair).
  assert (∀ a b nm, endname cfg a b = Some nm → nm ∉ names) as Hold.
  { intros a b nm Ha [j Hj]%list_elem_of_lookup. destruct (Hnew _ _ Hj) as [Hn _].
    destruct (ok_end _ Hok _ _ _ Ha) as [[? He] _]. by rewrite He in Hn. }
  assert (∀ a b nm, endname (with_row i names cfg) a b = Some nm ↔
    (a = i ∧ names !! b = Some nm) ∨ (a ≠ i ∧ endname cfg a b = Some nm)) as Hnames by (intros; by apply endname_with_row).
  assert (∀ nm, (nm ∈ names ∧ end_enabled rn nm = false) ∨
    (nm ∉ names ∧ end_enabled rn nm = end_enabled (cfg_net cfg) nm ∧ ends rn !! IString nm = ends (cfg_net cfg) !! IString nm))
    as Hview.
  { intros nm. destruct (decide (nm ∈ names)) as [Hn|Hn].
    - left. split; [done|]. apply list_elem_of_lookup in Hn as [j Hj]. destruct (Hnew _ _ Hj) as [_ Hv]. by injection Hv.
    - right. split; [done|]. by injection (Hout _ Hn). }
  split; cbn; try (apply Hok; done).
  - by rewrite length_insert, (ok_endnames _ Hok).
  - intros a row [(<- & [= <-] & _)|[_ Ha]]%list_lookup_insert_Some; [done|by eapply ok_rows].
  - intros a b a' b' nm [[-> Hb]|[Hne Ha]]%Hnames [[-> Hb']|[Hne' Ha']]%Hnames.
    + split; [done|]. by eapply NoDup_lookup.
    + destruct (Hold _ _ _ Ha'). by eapply list_elem_of_lookup_2.
    + destruct (Hold _ _ _ Ha). by eapply list_elem_of_lookup_2.
    + by eapply ok_inj.
  - intros a b nm [[-> Hb]|[Hne Ha]]%Hnames.
    + destruct (Hnew _ _ Hb) as [_ Hv]. injection Hv as -> _ ->. by split.
    + pose proof (Hout _ (Hold _ _ _ Ha)) as Hv. injection Hv as -> _ ->. by eapply ok_end.
  - intros a Ha. unfold has_row. cbn. destruct (decide (a = i)) as [->|Hne]; [done|].
    rewrite list_lookup_insert_ne by done. by apply (ok_started _ Hok).
  - intros nm. destruct (Hview nm) as [[Hn ->]|(Hn & -> & _)].
    + split; [done|]. intros (a & b & [[-> Hb]|[Hne Ha]]%Hnames & Hca & _); [done|]. by destruct (Hold _ _ _ Ha).
    + rewrite (ok_enabled _ Hok). split; intros (a & b & Ha & Hca & Hcb).
      * exists a, b. split; [|done]. apply Hnames. right. split; [|done]. by intros ->.
      * exists a, b. split; [|done]. apply Hnames in Ha as [[-> Hb]|[Hne Ha]]; [|done].
        destruct Hn. by eapply list_elem_of_lookup_2.
  - intros nm. destruct (Hview nm) as [[Hn ->]|(Hn & -> & ->)]; [done|]. apply (ok_known _ Hok).
Qed.

Lemma start1_ok cfg i names srv cfg' :
  cfg_ok cfg → (i < cfg_n cfg)%nat → (cfg_n cfg ≤ length names)%nat → start1 i names srv cfg = Some cfg' → cfg_ok cfg' ∧
  connected cfg' = <[i := false]> (connected cfg) ∧
  endnames cfg' = <[i := Some (take (cfg_n cfg) names)]> (endnames cfg) ∧ cfg_n cfg' = cfg_n cfg.
Proof.
  intros Hok Hi Hlen. unfold start1. destruct (crash1 i cfg) as [cfg1|] eqn:E; cbn; [|done].
  destruct (crash1_ok _ _ _ Hok Hi E) as (Hok1 & Hc1 & He1 & Hn1).
  destruct (make_ends _ _) as [rn|] eqn:Em; cbn; [|done]. intros [= <-].
  cbn. rewrite Hc1, He1, Hn1. split; [|done].
  assert (cfg_ok (with_row i (take (cfg_n cfg1) names) cfg1 <| cfg_net := rn |>)) as Hok2.
  { apply new_row_ok; [done|lia| |rewrite length_take; lia|done].
    unfold is_connected. rewrite Hc1, list_lookup_insert_eq; [done|]. by rewrite (ok_connected _ Hok). }
  rewrite <- Hn1.
  by apply (cfg_ok_net _ (AddServer (IInt (Z.of_nat i)) (Some srv) rn) (<[i := true]> (rafts cfg1)) Hok2).
Qed.

Lemma cfg_step_ok cfg cfg' : cfg_step cfg cfg' → cfg_ok cfg → cfg_ok cfg'.
Proof.
  intros H Hok. destruct H; [eapply connect_ok|eapply disconnect_ok|eapply crash1_ok|eapply start1_ok]; eauto.
Qed.

Lemma start_config_ok n rn : enabled rn = ∅ → cfg_ok (start_config n rn).
Proof.
  intros Hempty. split; unfold end_enabled; cbn; rewrite ?Hempty; rewrite ?length_replicate; try done.
  - by intros i row [[=] _]%lookup_replicate.
  - intros i j i' j' nm H. unfold endname in H. cbn in H.
    destruct (replicate n None !! i) eqn:E; cbn in H; [|done]. apply lookup_replicate in E as [-> _]. done.
  - intros i j nm H. unfold endname in H. cbn in H.
    destruct (replicate n None !! i) eqn:E; cbn in H; [|done]. apply lookup_replicate in E as [-> _]. done.
  - by intros i [[=] _]%lookup_replicate.
  - intros nm. split; [done|]. intros (i & j & _ & [[=] _]%lookup_replicate & _).
Qed.

Lemma cfg_reachable_ok n cfg : rtc cfg_step (start_config n MakeNetwork) cfg → cfg_ok cfg.
Proof.
  intros H. assert (∀ cfg0, rtc cfg_step cfg0 cfg → cfg_ok cfg0 → cfg_ok cfg) as Hall.
  { clear H. intros cfg0 H. induction H as [|c1 c2 c3 H _ IH]; [done|]. intros Hok. by eapply IH, cfg_step_ok. }
  eapply Hall; [exact H|by apply start_config_ok].
Qed.

(** ** Nothing panics *)

Lemma elem_of_peers cfg j : j ∈ peers cfg ↔ (j < cfg_n cfg)%nat.
Proof. unfold peers. rewrite elem_of_seq. lia. Qed.

Lemma names_total cfg f js :
  cfg_ok cfg → (∀ j, j ∈ js → has_row cfg (f j).1 ∧ ((f j).2 < cfg_n cfg)%nat) →
  is_Some (mapM (λ j : nat, endname cfg (f j).1 (f j).2) js).
Proof.
  intros Hok H. apply mapM_is_Some_2, Forall_forall. intros j [? ?]%H. by apply endname_some.
Qed.

Lemma disconnect_total cfg i : cfg_ok cfg → (i < cfg_n cfg)%nat → is_Some (disconnect i cfg).
Proof.
  intros Hok Hi. unfold disconnect. set (cfg1 := cfg <| connected ::= <[i := false]> |>).
  destruct (names_total cfg (λ j, (i, j)) (if decide (has_row cfg1 i) then peers cfg1 else []) Hok) as [out Eo].
  { intros j Hj. destruct (decide (has_row cfg1 i)); [|by apply elem_of_nil in Hj]. by apply elem_of_peers in Hj. }
  destruct (names_total cfg (λ j, (j, i)) (filter (has_row cfg1) (peers cfg1)) Hok) as [inc Ei].
  { by intros j [Hr _]%list_elem_of_filter. }
  change (endname cfg1) with (endname cfg). cbn in Eo, Ei |- *. rewrite Eo. cbn. rewrite Ei. by eexists.
Qed.

(** [connect] panics only for a peer that was never started. *)
Lemma connect_total cfg i : cfg_ok cfg → (i < cfg_n cfg)%nat → has_row cfg i → is_Some (connect i cfg).
Proof.
  intros Hok Hi Hrow. unfold connect. set (cfg1 := cfg <| connected ::= <[i := true]> |>).
  set (js := filter (is_connected cfg1) (peers cfg1)).
  assert (∀ j, j ∈ js → has_row cfg j ∧ (j < cfg_n cfg)%nat) as Hjs.
  { intros j [Hc Hj%elem_of_peers]%list_elem_of_filter. split; [|done].
    destruct (decide (j = i)) as [->|Hne]; [done|]. apply (ok_started _ Hok).
    unfold is_connected, cfg1 in *. cbn in Hc. by rewrite list_lookup_insert_ne in Hc. }
  destruct (names_total cfg (λ j, (i, j)) js Hok) as [out Eo]; [by intros j [_ ?]%Hjs|].
  destruct (names_total cfg (λ j, (j, i)) js Hok) as [inc Ei]; [by intros j [? _]%Hjs|].
  change (endname cfg1) with (endname cfg). cbn in Eo, Ei |- *. rewrite Eo. cbn. rewrite Ei. by eexists.
Qed.

Lemma disconnect_ends cfg i cfg' : disconnect i cfg = Some cfg' → ends (cfg_net cfg') = ends (cfg_net cfg).
Proof.
  intros (out & _ & (inc & _ & [= <-])%bind_Some)%bind_Some. cbn. by rewrite !(proj1 (enable_all_rest _ _ _)).
Qed.

Lemma crash1_ends cfg i cfg' : crash1 i cfg = Some cfg' → ends (cfg_net cfg') = ends (cfg_net cfg).
Proof.
  unfold crash1. destruct (disconnect i cfg) as [cfg1|] eqn:E; cbn; [|done]. intros [= <-].
  by apply disconnect_ends in E.
Qed.

(** [start1] is fatal only when a name is taken. *)
Lemma start1_total cfg i names srv :
  cfg_ok cfg → (i < cfg_n cfg)%nat → NoDup (take (cfg_n cfg) names) →
  (∀ nm, nm ∈ take (cfg_n cfg) names → ends (cfg_net cfg) !! IString nm = None) → is_Some (start1 i names srv cfg).
Proof.
  intros Hok Hi Hnd Hnew. unfold start1.
  assert (is_Some (crash1 i cfg)) as [cfg1 E].
  { unfold crash1. destruct (disconnect_total cfg i Hok Hi) as [c ->]. by eexists. }
  rewrite E. cbn. destruct (crash1_ok _ _ _ Hok Hi E) as (_ & _ & _ & ->).
  destruct (make_ends_total (imap pair (take (cfg_n cfg) names)) (cfg_net cfg1)) as [rn ->]; [| |by eexists].
  - by rewrite imap_pair_snd.
  - intros nm. rewrite imap_pair_snd, (crash1_ends _ _ _ E). apply Hnew.
Qed.

Lemma start1_ends cfg i names srv cfg' nm :
  start1 i names srv cfg = Some cfg' → nm ∉ names → ends (cfg_net cfg') !! IString nm = ends (cfg_net cfg) !! IString nm.
Proof.
  unfold start1. destruct (crash1 i cfg) as [cfg1|] eqn:E; cbn; [|done].
  destruct (make_ends _ _) as [rn|] eqn:Em; cbn; [|done]. intros [= <-] Hnm. cbn.
  destruct (make_ends_spec _ _ _ Em) as (_ & _ & Hout). rewrite imap_pair_snd in Hout.
  assert (nm ∉ take (cfg_n cfg1) names) as Hn by (intros (k & Hk & _)%elem_of_take; apply Hnm; by eapply list_elem_of_lookup_2).
  apply Hout in Hn. injection Hn as -> _ _. by rewrite (crash1_ends _ _ _ E).
Qed.

Lemma delivered cfg nm p :
  cfg_ok cfg → target (readEndnameInfo (IString nm) (cfg_net cfg)) = Some p ↔
  ∃ i j, endname cfg i j = Some nm ∧ is_connected cfg i ∧ is_connected cfg j ∧
    map_get None (servers (cfg_net cfg)) (IInt (Z.of_nat j)) = Some p.
Proof.
  intros Hok. pose proof (ok_enabled _ Hok nm) as Hen. unfold end_enabled in Hen.
  unfold target, readEndnameInfo. cbn. split.
  - intros H. case_if_in H; [|done]. zbool. apply Hen in H0 as (i & j & Hn & Hi & Hj). exists i, j.
    destruct (ok_end _ Hok _ _ _ Hn) as [_ Hc]. rewrite Hc in H. by case_bool_decide.
  - intros (i & j & Hn & Hi & Hj & Hs). destruct (ok_end _ Hok _ _ _ Hn) as [_ Hc]. rewrite Hc.
    rewrite (proj2 Hen) by eauto. cbn. by rewrite Hs.
Qed.

(** C18. The tester partitions the network as it says, whatever it connects,
    disconnects, crashes and restarts: a request that a peer sends over one of
    its ends reaches a server exactly when the end is one of the current ones
    of a connected peer and leads to a connected peer whose server is
    registered; the ends of instances that were shut down lead nowhere. *)
Theorem delivery_exact n cfg nm p :
  rtc cfg_step (start_config n MakeNetwork) cfg →
  target (readEndnameInfo (IString nm) (cfg_net cfg)) = Some p ↔
  ∃ i j, endname cfg i j = Some nm ∧ is_connected cfg i ∧ is_connected cfg j ∧
    map_get None (servers (cfg_net cfg)) (IInt (Z.of_nat j)) = Some p.
Proof. intros H. by apply delivered, (cfg_reachable_ok n). Qed.

(** ** [makeConfig] *)

Lemma disconnect_servers cfg i cfg' : disconnect i cfg = Some cfg' → servers (cfg_net cfg') = servers (cfg_net cfg).
Proof.
  intros (out & _ & (inc & _ & [= <-])%bind_Some)%bind_Some. cbn.
  by destruct (enable_all_rest false inc (enable_all false out (cfg_net cfg))) as (_ & _ & ->),
    (enable_all_rest false out (cfg_net cfg)) as (_ & _ & ->).
Qed.
Lemma connect_servers cfg i cfg' : connect i cfg = Some cfg' → servers (cfg_net cfg') = servers (cfg_net cfg).
Proof.
  intros (out & _ & (inc & _ & [= <-])%bind_Some)%bind_Some. cbn.
  by destruct (enable_all_rest true inc (enable_all true out (cfg_net cfg))) as (_ & _ & ->),
    (enable_all_rest true out (cfg_net cfg)) as (_ & _ & ->).
Qed.

Lemma start1_servers cfg i names srv cfg' :
  start1 i names srv cfg = Some cfg' → servers (cfg_net cfg') = <[IInt (Z.of_nat i) := Some srv]> (servers (cfg_net cfg)).
Proof.
  intros (cfg1 & (cfg2 & E & [= <-])%bind_Some & (rn & Em & [= <-])%bind_Some)%bind_Some. cbn.
  rewrite (make_ends_servers _ _ _ Em). cbn. by rewrite (disconnect_servers _ _ _ E), insert_insert_eq.
Qed.

Definition row_names (l : list (nat * (list string * nat))) : list string := l ≫= λ x, x.2.1.

(** Starting peers one after the other, with fresh names. *)
Lemma start_all_spec l cfg :
  cfg_ok cfg → NoDup l.*1 → NoDup (row_names l) →
  (∀ i names srv, (i, (names, srv)) ∈ l → (i < cfg_n cfg)%nat ∧ length names = cfg_n cfg) →
  (∀ nm, nm ∈ row_names l → ends (cfg_net cfg) !! IString nm = None) →
  ∃ cfg', start_all l cfg = Some cfg' ∧ cfg_ok cfg' ∧ cfg_n cfg' = cfg_n cfg ∧
    (∀ i names srv, (i, (names, srv)) ∈ l → servers (cfg_net cfg') !! IInt (Z.of_nat i) = Some (Some srv) ∧
       endnames cfg' !! i = Some (Some names)) ∧
    (∀ i, i ∉ l.*1 → servers (cfg_net cfg') !! IInt (Z.of_nat i) = servers (cfg_net cfg) !! IInt (Z.of_nat i) ∧
       endnames cfg' !! i = endnames cfg !! i).
Proof.
  revert cfg. induction l as [|[i0 [names0 srv0]] l IH]; intros cfg Hok Hnd Hnn Hl Hnew.
  { exists cfg. split_and!; [done|done|done|by intros ??? ?%elem_of_nil|done]. }
  cbn in Hnd. apply NoDup_cons in Hnd as [Hi0 Hnd]. cbn in Hnn. apply NoDup_app in Hnn as (Hn0 & Hdis & Hnn).
  destruct (Hl i0 names0 srv0 ltac:(left)) as [Hlt Hlen0].
  assert (take (cfg_n cfg) names0 = names0) as Htake by (apply take_ge; lia).
  destruct (start1_total cfg i0 names0 srv0 Hok Hlt) as [cfg1 E].
  { by rewrite Htake. }
  { intros nm Hnm. rewrite Htake in Hnm. apply Hnew. cbn. apply elem_of_app. by left. }
  assert (cfg_n cfg ≤ length names0)%nat as Hle by lia.
  destruct (start1_ok _ _ _ _ _ Hok Hlt Hle E) as (Hok1 & _ & He1 & Hn1). rewrite Htake in He1.
  destruct (IH cfg1 Hok1 Hnd Hnn) as (cfg' & E' & Hok' & Hn' & Hin & Hout).
  { intros i names srv Hi. rewrite Hn1. apply (Hl i names srv). by right. }
  { intros nm Hnm. rewrite (start1_ends _ _ _ _ _ _ E); [|by intros ?; eapply Hdis].
    apply Hnew. cbn. apply elem_of_app. by right. }
  exists cfg'. cbn. rewrite E. split_and!; [done|done|lia| |].
  - intros i names srv [[= -> -> ->]|Hi]%elem_of_cons; [|by apply Hin]. destruct (Hout _ Hi0) as [-> ->].
    rewrite (start1_servers _ _ _ _ _ E), He1, lookup_insert_eq, list_lookup_insert_eq; [done|].
    by rewrite (ok_endnames _ Hok).
  - intros i [Hne Hi]%not_elem_of_cons. destruct (Hout _ Hi) as [-> ->].
    rewrite (start1_servers _ _ _ _ _ E), He1, lookup_insert_ne, list_lookup_insert_ne; [done|..].
    all: congruence || (intros [= H%Nat2Z.inj]; congruence).
Qed.

Lemma connect_all_spec l cfg :
  cfg_ok cfg → (∀ i, i ∈ l → (i < cfg_n cfg)%nat ∧ has_row cfg i) →
  ∃ cfg', connect_all l cfg = Some cfg' ∧ cfg_ok cfg' ∧ cfg_n cfg' = cfg_n cfg ∧ endnames cfg' = endnames cfg ∧
    servers (cfg_net cfg') = servers (cfg_net cfg) ∧ ∀ i, (i ∈ l ∨ is_connected cfg i) → is_connected cfg' i.
Proof.
  revert cfg. induction l as [|i0 l IH]; intros cfg Hok Hl.
  { exists cfg. split_and!; try done. by intros i [?%elem_of_nil|?]. }
  destruct (Hl i0 ltac:(left)) as [Hlt Hrow]. destruct (connect_total cfg i0 Hok Hlt Hrow) as [cfg1 E].
  destruct (connect_ok _ _ _ Hok Hlt E) as (Hok1 & Hc1 & He1 & Hn1).
  destruct (IH cfg1 Hok1) as (cfg' & E' & Hok' & Hn' & He' & Hs' & Hc').
  { intros i Hi. unfold has_row. rewrite Hn1, He1. apply Hl. by right. }
  exists cfg'. cbn [connect_all]. rewrite E, He', Hs', (connect_servers _ _ _ E), Hn', Hn1. cbn [mbind option_bind]. split_and!; try done.
  intros i Hi. apply Hc'. unfold is_connected. rewrite Hc1. destruct (decide (i = i0)) as [->|Hne].
  - right. rewrite list_lookup_insert_eq; [done|]. by rewrite (ok_connected _ Hok).
  - rewrite list_lookup_insert_ne by done. destruct Hi as [[->|Hi]%elem_of_cons|Hi]; [done|by left|by right].
Qed.

(** With fresh names [makeConfig] gets through without a fatal error, and
    then every peer reaches the server of every peer. *)
Theorem make_config_ready unreliable starts n :
  length starts = n → NoDup (row_names (imap pair starts)) → (∀ s, s ∈ starts → length s.1 = n) →
  ∃ cfg, makeConfig unreliable starts n MakeNetwork = Some cfg ∧
    ∀ i j names srv, starts !! j = Some (names, srv) → (i < n)%nat →
      ∃ nm, endname cfg i j = Some nm ∧ target (readEndnameInfo (IString nm) (cfg_net cfg)) = Some srv.
Proof.
  intros Hlen Hnd Hrows. unfold makeConfig. rewrite take_ge by lia.
  set (cfg0 := start_config n (Reliable (negb unreliable) MakeNetwork)).
  assert (∀ i names srv, (i, (names, srv)) ∈ imap pair starts → (i < n)%nat ∧ length names = n) as Hl.
  { intros i names srv Hi%elem_of_imap_pair. split; [apply lookup_lt_Some in Hi; lia|].
    apply (Hrows (names, srv)). by eapply list_elem_of_lookup_2. }
  destruct (start_all_spec (imap pair starts) cfg0) as (cfg1 & E1 & Hok1 & Hn1 & Hin & _);
    [by apply start_config_ok|rewrite imap_pair_fst; apply NoDup_seq|done|exact Hl|done|].
  assert (∀ i, (i < n)%nat → ∃ names srv, starts !! i = Some (names, srv) ∧ length names = n ∧
    endnames cfg1 !! i = Some (Some names)) as Hrow.
  { intros i Hi. destruct (lookup_lt_is_Some_2 starts i) as [[names srv] Hs]; [lia|]. exists names, srv.
    pose proof (proj2 (elem_of_imap_pair _ _ _) Hs) as He. split_and!; [done|by eapply Hl|by eapply Hin]. }
  destruct (connect_all_spec (peers cfg1) cfg1 Hok1) as (cfg2 & E2 & Hok2 & _ & He2 & Hs2 & Hc2).
  { intros i Hi%elem_of_peers. split; [done|]. rewrite Hn1 in Hi. destruct (Hrow i Hi) as (names & _ & _ & _ & E).
    unfold has_row. by rewrite E. }
  exists cfg2. rewrite E1. cbn [mbind option_bind]. split; [done|]. intros i j names srv Hj Hi.
  destruct (Hrow i Hi) as (row & srv' & _ & Hlrow & Erow). pose proof (lookup_lt_Some _ _ _ Hj) as Hjn.
  destruct (lookup_lt_is_Some_2 row j) as [nm Hnm]; [lia|].
  assert (endname cfg2 i j = Some nm) as Hend by (unfold endname; rewrite He2, Erow; done).
  exists nm. split; [done|]. apply delivered; [done|]. exists i, j.
  assert (∀ k, (k < n)%nat → is_connected cfg2 k) as Hcon.
  { intros k Hk. apply Hc2. left. apply elem_of_peers. by rewrite Hn1. }
  split_and!; [done|by apply Hcon|apply Hcon; lia|].
  rewrite Hs2. unfold map_get.
  destruct (Hin j names srv) as [-> _]; [by apply elem_of_imap_pair|done].
Qed.

End operations.

(** ** A run

    Two peers start and are connected; then the first is restarted with other
    names. *)
Inductive Event :=
| EConnect (i : nat)
| ECrash (i : nat)
| EStart (i : nat) (names : list string) (srv : nat).

Definition play (e : Event) (cfg : config) : option config :=
  match e with
  | EConnect i => if decide (i < cfg_n cfg)%nat then connect i cfg else None
  | ECrash i => if decide (i < cfg_n cfg)%nat then crash1 i cfg else None
  | EStart i names srv =>
      if decide (i < cfg_n cfg ∧ cfg_n cfg ≤ length names)%nat then start1 i names srv cfg else None
  end.
Fixpoint play_all (es : list Event) (cfg : config) : option config :=
  match es with
  | [] => Some cfg
  | e :: es => cfg ← play e cfg; play_all es cfg
  end.

Lemma play_all_steps es cfg cfg' : play_all es cfg = Some cfg' → rtc cfg_step cfg cfg'.
Proof.
  revert cfg. induction es as [|e es IH]; intros cfg; cbn; [by intros [= ->]|].
  intros (cfg1 & E & H)%bind_Some. eapply rtc_l; [|by apply IH]. destruct e; cbn in E.
  - destruct (decide _); [by eapply cs_connect|done].
  - destruct (decide _); [by eapply cs_crash|done].
  - destruct (decide _) as [[??]|]; [by eapply cs_start|done].
Qed.

Definition row_0 : list string := ["a"; "b"].
Definition row_1 : list string := ["c"; "d"].
Definition row_2 : list string := ["e"; "f"].

Definition restarted : config :=
  default (start_config 2 MakeNetwork) (play_all
    [EStart 0 row_0 0; EStart 1 row_1 1; EConnect 0; EConnect 1; ECrash 0; EStart 0 row_2 2; EConnect 0]
    (start_config 2 MakeNetwork)).

Lemma restarted_run : rtc cfg_step (start_config 2 MakeNetwork) restarted.
Proof.
  unfold restarted. destruct (play_all _ _) as [cfg|] eqn:E; [by eapply play_all_steps|].
  apply (f_equal (λ o, bool_decide (is_Some o))) in E. by vm_compute in E.
Qed.

Lemma delivery_exact_witness :
  target (readEndnameInfo (IString "f") (cfg_net restarted)) = Some 1%nat ∧
  target (readEndnameInfo (IString "b") (cfg_net restarted)) = None.
Proof.
  split.
  - apply (delivery_exact 2 restarted "f" 1 restarted_run). exists 0%nat, 1%nat. split_and!; by vm_compute.
  - destruct (target _) as [p|] eqn:E; [|reflexivity].
    apply (delivery_exact 2 restarted "b" p restarted_run) in E as (i & j & E & _).
    destruct i as [|[|i]], j as [|[|j]]; by vm_compute in E.
Defined.

Lemma make_config_ready_witness :
  ∃ cfg, makeConfig true [(row_0, 0%nat); (row_1, 1%nat)] 2 MakeNetwork = Some cfg ∧
    ∃ nm, endname cfg 0 1 = Some nm ∧ target (readEndnameInfo (IString nm) (cfg_net cfg)) = Some 1%nat.
Proof.
  destruct (make_config_ready true [(row_0, 0%nat); (row_1, 1%nat)] 2) as (cfg & Hc & Hr).
  - reflexivity.
  - apply (bool_decide_unpack _). vm_compute. exact I.
  - intros s [->|[->|[]%elem_of_nil]%elem_of_cons]%elem_of_cons; reflexivity.
  - exists cfg. split; [exact Hc|]. apply (Hr 0%nat 1%nat row_1 1%nat); [reflexivity|lia].
Defined.
