(* ===== verification/KVConfig.v ===== *)
(** * The tester of the key/value service: which servers and clerks can talk

    [kvraft/config.go] gives every server and every clerk a row of ends, one to
    each server, and enables and disables them to partition the network.  The
    functions are over the network of Labrpc.v; [Links] is their specification:
    who can talk to whom.  What the tests do to the servers themselves is in
    KVCluster.v. *)
From stdpp Require Import base tactics strings numbers sets gmap list.
From S2P Require Import Prelude.
From S2P Require Import Labrpc.
From S2P Require Import LabrpcEnds.
Open Scope go_scope.

(** The fields of [config] that these functions use; [kvServers] says only
    which servers exist, and a clerk is a number, as its address. *)
Record config := mkConfig {
  cfg_net : Network;
  cfg_n : nat;
  kvServers : list bool;
  endNames : list (option (list string));     (* a row for each server, nil before it starts *)
  clerks : gmap nat (list string);
  nextClientID : Z
}.

#[export] Instance config_eta : RecordEta config := λ c,
  mkConfig (cfg_net c) (cfg_n c) (kvServers c) (endNames c) (clerks c) (nextClientID c).

(** [cfg.endNames[i][j]] and [cfg.clerks[ck][j]]: [None] is a panic. *)
Definition endName (cfg : config) (i j : nat) : option string :=
  row ← endNames cfg !! i; names ← row; names !! j.
Definition clerkEnd (cfg : config) (ck j : nat) : option string := names ← clerks cfg !! ck; names !! j.

Definition All (cfg : config) : list nat := seq 0 (cfg_n cfg).

Definition connectUnlocked (i : nat) (to : list nat) (cfg : config) : option config :=
  outgoing ← mapM (λ j, endName cfg i j) to;
  incoming ← mapM (λ j, endName cfg j i) to;
  Some (cfg <| cfg_net ::= λ rn, enable_all true incoming (enable_all true outgoing rn) |>).

(** [if cfg.endNames[k] != nil { endName := cfg.endNames[a][b]; ... }] *)
Definition end_unless_nil (k a b : nat) (cfg : config) : option (option string) :=
  row ← endNames cfg !! k;
  match row with Some _ => Some <$> endName cfg a b | None => Some None end.

(** The loop over the incoming ends looks at [endNames[j]], not at
    [endNames[from[j]]]. *)
Definition disconnectUnlocked (i : nat) (from : list nat) (cfg : config) : option config :=
  outgoing ← mapM (λ j, end_unless_nil i i j cfg) from;
  incoming ← mapM (λ kj : nat * nat, end_unless_nil kj.1 kj.2 i cfg) (imap pair from);
  Some (cfg <| cfg_net ::= λ rn, enable_all false (omap id incoming) (enable_all false (omap id outgoing) rn) |>).

Fixpoint connect_each (l to : list nat) (cfg : config) : option config :=
  match l with
  | [] => Some cfg
  | i :: l => cfg ← connectUnlocked i to cfg; connect_each l to cfg
  end.
Definition ConnectAll (cfg : config) : option config := connect_each (All cfg) (All cfg) cfg.

(** One of the two loops of [partition]. *)
Fixpoint separate (l p other : list nat) (cfg : config) : option config :=
  match l with
  | [] => Some cfg
  | i :: l =>
      cfg ← disconnectUnlocked i other cfg;
      cfg ← connectUnlocked i p cfg;
      separate l p other cfg
  end.
Definition partition (p1 p2 : list nat) (cfg : config) : option config :=
  cfg ← separate p1 p1 p2 cfg; separate p2 p2 p1 cfg.

Definition ConnectClientUnlocked (ck : nat) (to : list nat) (cfg : config) : option config :=
  names ← mapM (λ j, clerkEnd cfg ck j) to;
  Some (cfg <| cfg_net ::= enable_all true names |>).
Definition DisconnectClientUnlocked (ck : nat) (from : list nat) (cfg : config) : option config :=
  names ← mapM (λ j, clerkEnd cfg ck j) from;
  Some (cfg <| cfg_net ::= enable_all false names |>).

(** [names] are the random strings and [ck] is the address of the new clerk. *)
Definition makeClient (ck : nat) (names : list string) (to : list nat) (cfg : config) : option config :=
  let names := take (cfg_n cfg) names in
  rn ← make_ends (imap pair names) (cfg_net cfg);
  ConnectClientUnlocked ck to
    (cfg <| cfg_net := rn |> <| clerks ::= <[ck := names]> |> <| nextClientID ::= Z.succ |>).

Definition deleteClient (ck : nat) (cfg : config) : config := cfg <| clerks ::= delete ck |>.

(** Copying the persister and killing the server are steps of the servers. *)
Definition ShutdownServer (i : nat) (cfg : config) : option config :=
  cfg ← disconnectUnlocked i (All cfg) cfg;
  Some (cfg <| cfg_net ::= DeleteServer (IInt (Z.of_nat i)) |> <| kvServers ::= <[i := false]> |>).

(** [srv] is the server made of the two services. *)
Definition StartServer (i : nat) (names : list string) (srv : nat) (cfg : config) : option config :=
  let names := take (cfg_n cfg) names in
  let cfg := cfg <| endNames ::= <[i := Some names]> |> in
  rn ← make_ends (imap pair names) (cfg_net cfg);
  Some (cfg <| cfg_net := AddServer (IInt (Z.of_nat i)) (Some srv) rn |> <| kvServers ::= <[i := true]> |>).

(** [is_leader] is what [GetState] answers; a server that is shut down is nil. *)
Fixpoint find_leader (is_leader : nat → bool) (l : list nat) (cfg : config) : option (bool * nat) :=
  match l with
  | [] => Some (false, 0%nat)
  | i :: l =>
      match kvServers cfg !! i with
      | Some true => if is_leader i then Some (true, i) else find_leader is_leader l cfg
      | _ => None
      end
  end.
Definition Leader (is_leader : nat → bool) (cfg : config) : option (bool * nat) :=
  find_leader is_leader (All cfg) cfg.

(** The loop of [makePartition] over the servers but for [l]. *)
Fixpoint deal (l : nat) (rest : list nat) (p1 p2 : list nat) (j : nat) : option (list nat * list nat) :=
  match rest with
  | [] => Some (p1, p2)
  | i :: rest =>
      if decide (i = l) then deal l rest p1 p2 j
      else if decide (j < length p1)%nat then deal l rest (<[j := i]> p1) p2 (S j)
      else if decide (j - length p1 < length p2)%nat then deal l rest p1 (<[(j - length p1)%nat := i]> p2) (S j)
      else None
  end.
Definition makePartition (is_leader : nat → bool) (cfg : config) : option (list nat * list nat) :=
  '(_, l) ← Leader is_leader cfg;
  '(p1, p2) ← deal l (All cfg) (replicate (cfg_n cfg `div` 2 + 1) 0%nat) (replicate (cfg_n cfg `div` 2) 0%nat) 0;
  match length p2 with
  | O => None
  | S last => Some (p1, <[last := l]> p2)
  end.

Definition start_config (n : nat) (rn : Network) : config :=
  mkConfig rn n (replicate n false) (replicate n None) ∅ (Z.of_nat n + 1000).
Fixpoint start_each (l : list (nat * (list string * nat))) (cfg : config) : option config :=
  match l with
  | [] => Some cfg
  | (i, (names, srv)) :: l => cfg ← StartServer i names srv cfg; start_each l cfg
  end.
Definition makeConfig (unreliable : bool) (starts : list (list string * nat)) (n : nat) (rn : Network) : option config :=
  cfg ← start_each (imap pair (take n starts)) (start_config n rn);
  cfg ← ConnectAll cfg;
  Some (cfg <| cfg_net ::= Reliable (negb unreliable) |>).

(** ** Who can talk to whom *)

(** A server ([inl]) or a clerk ([inr]) and the server it can call; and the
    ends of deleted clerks that lead to a server, with the server:
    [deleteClient] disables none, so that these are the ends that were linked
    when their clerk was deleted. *)
Record Links := mkLinks { on : gset ((nat + nat) * nat); left_on : gset (string * nat) }.
#[export] Instance Links_eta : RecordEta Links := λ L, mkLinks (on L) (left_on L).

Definition pairs (h : nat + nat) (js : list nat) : gset ((nat + nat) * nat) := list_to_set ((λ j, (h, j)) <$> js).
Definition both (i : nat) (js : list nat) : gset ((nat + nat) * nat) :=
  pairs (inl i) js ∪ list_to_set ((λ j, (inl j, i)) <$> js).

Definition link (i : nat) (to : list nat) (L : Links) : Links := L <| on ::= λ s, s ∪ both i to |>.
Definition cut (i : nat) (from : list nat) (L : Links) : Links := L <| on ::= λ s, s ∖ both i from |>.
Definition link_apart (l p other : list nat) (L : Links) : Links := foldl (λ L i, link i p (cut i other L)) L l.

(** The ends of a clerk that are linked. *)
Definition linked_ends (ck : nat) (names : list string) (L : Links) : gset (string * nat) :=
  list_to_set (omap (λ x : nat * string, if decide ((inr ck, x.1) ∈ on L) then Some (x.2, x.1) else None) (imap pair names)).

(** What the tests do; they connect servers that run, and start those that do
    not. *)
Inductive Act :=
| AConnect (i : nat) (to : list nat) | ADisconnect (i : nat) (from : list nat)
| APartition (p1 p2 : list nat)
| AClient (ck : nat) (names : list string) (to : list nat) | ADelete (ck : nat)
| AConnectClient (ck : nat) (to : list nat) | ADisconnectClient (ck : nat) (from : list nat)
| AShutdown (i : nat) | AStart (i : nat) (names : list string) (srv : nat).

Definition running (cfg : config) (i : nat) : Prop := kvServers cfg !! i = Some true.
#[export] Instance running_dec cfg i : Decision (running cfg i).
Proof. unfold running. apply _. Defined.

Definition do_act (a : Act) (cfg : config) : option config :=
  match a with
  | AConnect i to => if decide (Forall (running cfg) (i :: to)) then connectUnlocked i to cfg else None
  | ADisconnect i from => disconnectUnlocked i from cfg
  | APartition p1 p2 => if decide (Forall (running cfg) (p1 ++ p2)) then partition p1 p2 cfg else None
  | AClient ck names to =>
      if decide (clerks cfg !! ck = None ∧ (cfg_n cfg ≤ length names)%nat) then makeClient ck names to cfg else None
  | ADelete ck => Some (deleteClient ck cfg)
  | AConnectClient ck to => ConnectClientUnlocked ck to cfg
  | ADisconnectClient ck from => DisconnectClientUnlocked ck from cfg
  | AShutdown i => ShutdownServer i cfg
  | AStart i names srv =>
      if decide (kvServers cfg !! i = Some false ∧ (cfg_n cfg ≤ length names)%nat) then StartServer i names srv cfg else None
  end.

Definition spec_act (a : Act) (cfg : config) (L : Links) : Links :=
  match a with
  | AConnect i to => link i to L
  | ADisconnect i from => cut i from L
  | APartition p1 p2 => link_apart p2 p2 p1 (link_apart p1 p1 p2 L)
  | AClient ck _ to | AConnectClient ck to => L <| on ::= λ s, s ∪ pairs (inr ck) to |>
  | ADisconnectClient ck from => L <| on ::= λ s, s ∖ pairs (inr ck) from |>
  | ADelete ck => mkLinks (filter (λ x, x.1 ≠ inr ck) (on L)) (left_on L ∪ linked_ends ck (default [] (clerks cfg !! ck)) L)
  | AShutdown i => cut i (All cfg) L
  | AStart _ _ _ => L
  end.

Fixpoint do_acts (l : list Act) (cfg : config) (L : Links) : option (config * Links) :=
  match l with
  | [] => Some (cfg, L)
  | a :: l => cfg' ← do_act a cfg; do_acts l cfg' (spec_act a cfg L)
  end.

(** After [makeConfig] every server can call every server. *)
Definition all_linked (n : nat) : Links := mkLinks (list_to_set (seq 0 n ≫= λ i, (λ j, (inl i, j)) <$> seq 0 n)) ∅.

(** ** The ends follow the links *)

Section config.
Implicit Types (cfg : config) (L : Links) (nm : string) (h : nat + nat).

Definition end_of cfg h (j : nat) : option string :=
  match h with inl i => endName cfg i j | inr ck => clerkEnd cfg ck j end.

Record cfg_ok cfg L : Prop := {
  ok_rows : length (endNames cfg) = cfg_n cfg;
  ok_servers : length (kvServers cfg) = cfg_n cfg;
  ok_row i row : endNames cfg !! i = Some (Some row) → length row = cfg_n cfg;
  (** every name is one end of one server or clerk *)
  ok_inj h j h' j' nm : end_of cfg h j = Some nm → end_of cfg h' j' = Some nm → h = h' ∧ j = j';
  ok_end h j nm : end_of cfg h j = Some nm →
    is_Some (ends (cfg_net cfg) !! IString nm) ∧
    map_get INil (connections (cfg_net cfg)) (IString nm) = IInt (Z.of_nat j);
  (** exactly the ends of links are enabled, and those that clerks left so *)
  ok_on h j nm : end_of cfg h j = Some nm → end_enabled (cfg_net cfg) nm = true ↔ (h, j) ∈ on L;
  ok_rest nm : end_enabled (cfg_net cfg) nm = true → (∃ h j, end_of cfg h j = Some nm) ∨ ∃ j, (nm, j) ∈ left_on L;
  ok_left nm j : (nm, j) ∈ left_on L →
    end_enabled (cfg_net cfg) nm = true ∧
    map_get INil (connections (cfg_net cfg)) (IString nm) = IInt (Z.of_nat j) ∧
    ∀ h j', end_of cfg h j' ≠ Some nm;
  ok_known nm : end_enabled (cfg_net cfg) nm = true → is_Some (ends (cfg_net cfg) !! IString nm);
  (** links are between what is there, and of servers that run *)
  ok_dom h j : (h, j) ∈ on L → is_Some (end_of cfg h j);
  ok_run i j : (inl i, j) ∈ on L → running cfg i;
  ok_started i : running cfg i → ∃ row, endNames cfg !! i = Some (Some row)
}.

Definition all_started cfg : Prop := ∀ i, (i < cfg_n cfg)%nat → ∃ row, endNames cfg !! i = Some (Some row).

Lemma elem_of_pairs h j h' js : (h, j) ∈ pairs h' js ↔ h = h' ∧ j ∈ js.
Proof. unfold pairs. rewrite elem_of_list_to_set, list_elem_of_fmap. naive_solver. Qed.

Lemma elem_of_both h j i js : (h, j) ∈ both i js ↔ (h = inl i ∧ j ∈ js) ∨ (j = i ∧ ∃ a, h = inl a ∧ a ∈ js).
Proof.
  unfold both. rewrite elem_of_union, elem_of_pairs, elem_of_list_to_set, list_elem_of_fmap. naive_solver.
Qed.

(** Enabling or disabling the ends of a set of links. *)
Lemma switch_links cfg L (b : bool) (S : gset ((nat + nat) * nat)) (names : list string) (net : Network) :
  cfg_ok cfg L →
  (∀ nm, end_enabled net nm = if decide (nm ∈ names) then b else end_enabled (cfg_net cfg) nm) →
  ends net = ends (cfg_net cfg) → connections net = connections (cfg_net cfg) →
  (∀ nm, nm ∈ names ↔ ∃ h j, (h, j) ∈ S ∧ end_of cfg h j = Some nm) →
  (b = true → ∀ h j, (h, j) ∈ S → is_Some (end_of cfg h j) ∧ ∀ i, h = inl i → running cfg i) →
  cfg_ok (cfg <| cfg_net := net |>) (L <| on ::= λ s, if b then s ∪ S else s ∖ S |>).
Proof.
  intros [H1 H2 H3 Hinj Hend Hon Hrest Hleft Hkn Hdom Hrun Hst] He E1 E2 Hn HS.
  assert (∀ h j, end_of (cfg <| cfg_net := net |>) h j = end_of cfg h j) as Eo by (by intros [] ?).
  assert (∀ h j nm, end_of cfg h j = Some nm → nm ∈ names ↔ (h, j) ∈ S) as Hns.
  { intros h j nm Hh. rewrite Hn. split; [|eauto]. intros (h' & j' & HS' & Hh').
    by destruct (Hinj _ _ _ _ _ Hh Hh') as [-> ->]. }
  split; cbn; rewrite ?E1, ?E2; [done..| | | | | | | | |done].
  - intros h j h' j' nm. rewrite !Eo. apply Hinj.
  - intros h j nm. rewrite Eo. apply Hend.
  - intros h j nm. rewrite Eo, He. intros Hh. specialize (Hns _ _ _ Hh). specialize (Hon _ _ _ Hh).
    destruct (decide (nm ∈ names)), b; set_solver.
  - intros nm. setoid_rewrite Eo. rewrite He. case_decide as Hd; [|auto]. intros ->. left.
    apply Hn in Hd as (h & j & _ & ?). eauto.
  - intros nm j (Hen & ? & Hno)%Hleft. setoid_rewrite Eo. rewrite He. case_decide as Hd; [|done].
    apply Hn in Hd as (h & j' & _ & Hh). by apply Hno in Hh.
  - intros nm. rewrite He. case_decide as Hd; [|auto]. intros ->. apply Hn in Hd as (h & j & _ & ?). by eapply Hend.
  - intros h j. rewrite Eo. destruct b; [|set_solver]. intros [?|?]%elem_of_union; [eauto|by apply HS].
  - intros i j. change (running (cfg <| cfg_net := net |>) i) with (running cfg i). destruct b; [|set_solver].
    intros [?|Hs]%elem_of_union; [eauto|]. by eapply (HS eq_refl _ _ Hs).
Qed.

(** The names of two lists of ends, in both directions. *)
Lemma names_both cfg i js outgoing incoming nm :
  mapM (λ j, endName cfg i j) js = Some outgoing → mapM (λ j, endName cfg j i) js = Some incoming →
  nm ∈ outgoing ++ incoming ↔ ∃ h j, (h, j) ∈ both i js ∧ end_of cfg h j = Some nm.
Proof.
  intros Eo Ei. rewrite elem_of_app, (mapM_elem _ _ _ _ Eo), (mapM_elem _ _ _ _ Ei). setoid_rewrite elem_of_both. split.
  - intros [(j & ? & ?)|(j & ? & ?)]; [exists (inl i), j|exists (inl j), i]; cbn; eauto 6.
  - intros (h & j & [[-> ?]|(-> & a & -> & ?)] & Hn); cbn in Hn; [left|right]; eauto.
Qed.

Lemma connectUnlocked_ok cfg L i to cfg' :
  cfg_ok cfg L → Forall (running cfg) (i :: to) → connectUnlocked i to cfg = Some cfg' → cfg_ok cfg' (link i to L).
Proof.
  intros Hok [Hi Hto]%Forall_cons (out & Eo & (inc & Ei & [= <-])%bind_Some)%bind_Some.
  destruct (enable_all_rest true (out ++ inc) (cfg_net cfg)) as (E1 & E2 & _).
  apply (switch_links cfg L true (both i to) (out ++ inc)); rewrite <- ?enable_all_app; try done.
  - intros nm. apply enable_all_enabled.
  - intros nm. by apply names_both.
  - rewrite Forall_forall in Hto. intros _ h j [[-> Hj]|(-> & a & -> & Ha)]%elem_of_both; cbn.
    + apply mapM_Some in Eo. apply list_elem_of_lookup in Hj as [k Hj].
      destruct (Forall2_lookup_l _ _ _ _ _ Eo Hj) as (nm & _ & Hnm). split; [by eexists|]. by intros ? [= <-].
    + pose proof Ha as [k Hk]%list_elem_of_lookup. apply mapM_Some in Ei.
      destruct (Forall2_lookup_l _ _ _ _ _ Ei Hk) as (nm & _ & Hnm). split; [by eexists|]. intros ? [= <-]. auto.
Qed.

(** When every server has a row, the test for nil does not matter. *)
Lemma end_unless_nil_started cfg k a b :
  all_started cfg → length (endNames cfg) = cfg_n cfg →
  ∀ r, end_unless_nil k a b cfg = Some r ↔ (k < cfg_n cfg)%nat ∧ ∃ nm, r = Some nm ∧ endName cfg a b = Some nm.
Proof.
  intros Hall Hl r. unfold end_unless_nil. split.
  - intros (row & Hrow & H)%bind_Some. pose proof (lookup_lt_Some _ _ _ Hrow) as Hk. rewrite Hl in Hk. split; [done|].
    destruct (Hall k Hk) as (row' & Hrow'). simplify_eq. destruct (endName cfg a b) as [nm|]; [|done]. injection H as <-. eauto.
  - intros (Hk & nm & -> & Hn). destruct (Hall k Hk) as (row & ->). cbn. by rewrite Hn.
Qed.

(** The loops of [disconnectUnlocked] go over the ends of these servers. *)
Lemma ends_unless_nil cfg {A} (key a b : A → nat) (js : list A) (out : list (option string)) nm :
  all_started cfg → length (endNames cfg) = cfg_n cfg →
  mapM (λ x, end_unless_nil (key x) (a x) (b x) cfg) js = Some out →
  nm ∈ omap id out ↔ ∃ x, x ∈ js ∧ endName cfg (a x) (b x) = Some nm.
Proof.
  intros Hall Hl Eo. rewrite list_elem_of_omap. setoid_rewrite (mapM_elem _ _ _ _ Eo). split.
  - intros (r & (x & Hx & Hr) & Hnm). cbn in Hnm. subst r. exists x. split; [done|].
    apply (end_unless_nil_started cfg _ _ _ Hall Hl) in Hr as (_ & nm' & [= <-] & ?). done.
  - intros (x & Hx & Hn). exists (Some nm). split; [|done]. exists x. split; [done|].
    apply list_elem_of_lookup in Hx as [k Hk]. apply mapM_Some in Eo.
    destruct (Forall2_lookup_l _ _ _ _ _ Eo Hk) as (r & _ & Hr).
    pose proof Hr as (Hlt & _)%(end_unless_nil_started cfg _ _ _ Hall Hl). apply end_unless_nil_started; eauto.
Qed.

Lemma disconnectUnlocked_ok cfg L i from cfg' :
  cfg_ok cfg L → all_started cfg → disconnectUnlocked i from cfg = Some cfg' → cfg_ok cfg' (cut i from L).
Proof.
  intros Hok Hall (out & Eo & (inc & Ei & [= <-])%bind_Some)%bind_Some.
  destruct (enable_all_rest false (omap id out ++ omap id inc) (cfg_net cfg)) as (E1 & E2 & _).
  apply (switch_links cfg L false (both i from) (omap id out ++ omap id inc)); rewrite <- ?enable_all_app; try done.
  - intros nm. apply enable_all_enabled.
  - intros nm. rewrite elem_of_app.
    rewrite (ends_unless_nil cfg (λ _, i) (λ _, i) (λ j, j) from out nm Hall (ok_rows _ _ Hok) Eo).
    rewrite (ends_unless_nil cfg fst snd (λ _, i) (imap pair from) inc nm Hall (ok_rows _ _ Hok) Ei).
    setoid_rewrite elem_of_both. split.
    + intros [(j & ? & ?)|([k j] & Hk%elem_of_imap_pair & ?)]; [exists (inl i), j|exists (inl j), i]; cbn in *; eauto 6.
      split; [|done]. right. split; [done|]. exists j. split; [done|]. by eapply list_elem_of_lookup_2.
    + intros (h & j & [[-> ?]|(-> & a & -> & Ha)] & Hn); cbn in Hn; [left; eauto|right].
      apply list_elem_of_lookup in Ha as [k Hk]. exists (k, a). split; [by apply elem_of_imap_pair|done].
Qed.

(** What an operation leaves alone. *)
Definition same_rows cfg cfg' : Prop :=
  endNames cfg' = endNames cfg ∧ kvServers cfg' = kvServers cfg ∧ cfg_n cfg' = cfg_n cfg ∧
  servers (cfg_net cfg') = servers (cfg_net cfg).

Lemma same_rows_trans cfg1 cfg2 cfg3 : same_rows cfg1 cfg2 → same_rows cfg2 cfg3 → same_rows cfg1 cfg3.
Proof. unfold same_rows. naive_solver congruence. Qed.

Lemma same_rows_running cfg cfg' l : same_rows cfg cfg' → Forall (running cfg) l → Forall (running cfg') l.
Proof. intros (_ & E & _). unfold running. by rewrite E. Qed.
Lemma same_rows_started cfg cfg' : same_rows cfg cfg' → all_started cfg → all_started cfg'.
Proof. intros (E1 & _ & E2 & _). unfold all_started. by rewrite E1, E2. Qed.

Lemma enabled_rows cfg b names : same_rows cfg (cfg <| cfg_net ::= enable_all b names |>).
Proof. by destruct (enable_all_rest b names (cfg_net cfg)) as (_ & _ & ?). Qed.

Lemma connectUnlocked_rows cfg i to cfg' : connectUnlocked i to cfg = Some cfg' → same_rows cfg cfg'.
Proof.
  intros (out & Eo & (inc & Ei & [= <-])%bind_Some)%bind_Some.
  exact (same_rows_trans _ _ _ (enabled_rows cfg true out) (enabled_rows (cfg <| cfg_net ::= enable_all true out |>) true inc)).
Qed.
Lemma disconnectUnlocked_rows cfg i from cfg' : disconnectUnlocked i from cfg = Some cfg' → same_rows cfg cfg'.
Proof.
  intros (out & Eo & (inc & Ei & [= <-])%bind_Some)%bind_Some.
  exact (same_rows_trans _ _ _ (enabled_rows cfg false _) (enabled_rows (cfg <| cfg_net ::= enable_all false (omap id out) |>) false _)).
Qed.

Lemma separate_ok cfg L l p other cfg' :
  cfg_ok cfg L → all_started cfg → Forall (running cfg) (l ++ p) → separate l p other cfg = Some cfg' →
  cfg_ok cfg' (link_apart l p other L) ∧ same_rows cfg cfg'.
Proof.
  revert cfg L. induction l as [|i l IH]; intros cfg L Hok Hall Hrun; cbn [separate]; [by intros [= <-]|].
  intros (cfg1 & E1 & (cfg2 & E2 & H)%bind_Some)%bind_Some.
  cbn in Hrun. apply Forall_cons in Hrun as [Hi Hrun]. pose proof Hrun as [_ Hp]%Forall_app.
  pose proof (disconnectUnlocked_ok _ _ _ _ _ Hok Hall E1) as Hok1. pose proof (disconnectUnlocked_rows _ _ _ _ E1) as Hr1.
  pose proof (connectUnlocked_rows _ _ _ _ E2) as Hr2. pose proof (same_rows_trans _ _ _ Hr1 Hr2) as Hr.
  assert (cfg_ok cfg2 (link i p (cut i other L))) as Hok2.
  { eapply connectUnlocked_ok; [done| |done]. eapply same_rows_running; [done|]. by constructor. }
  destruct (IH _ _ Hok2) as [? Hr3]; [by eapply same_rows_started|by eapply same_rows_running|done|].
  split; [done|]. by eapply same_rows_trans.
Qed.

Lemma partition_ok cfg L p1 p2 cfg' :
  cfg_ok cfg L → all_started cfg → Forall (running cfg) (p1 ++ p2) → partition p1 p2 cfg = Some cfg' →
  cfg_ok cfg' (link_apart p2 p2 p1 (link_apart p1 p1 p2 L)) ∧ same_rows cfg cfg'.
Proof.
  intros Hok Hall [H1 H2]%Forall_app (cfg1 & E1 & E2)%bind_Some.
  assert (Forall (running cfg) (p1 ++ p1)) as H11 by by apply Forall_app.
  destruct (separate_ok _ _ _ _ _ _ Hok Hall H11 E1) as [Hok1 Hr1].
  destruct (separate_ok cfg1 _ p2 p2 p1 cfg' Hok1) as [Hok2 Hr2]; [by eapply same_rows_started| |done|].
  - apply Forall_app. by split; eapply same_rows_running.
  - split; [done|]. by eapply same_rows_trans.
Qed.

(** A server or a clerk gets a row of new ends. *)
Lemma fresh_ends cfg cfg' L h (names : list string) rn :
  cfg_ok cfg L → make_ends (imap pair names) (cfg_net cfg) = Some rn →
  ends (cfg_net cfg') = ends rn → enabled (cfg_net cfg') = enabled rn → connections (cfg_net cfg') = connections rn →
  (∀ h' j, end_of cfg' h' j = if decide (h' = h) then names !! j else end_of cfg h' j) →
  length (endNames cfg') = cfg_n cfg' → length (kvServers cfg') = cfg_n cfg' →
  (∀ i row, endNames cfg' !! i = Some (Some row) → length row = cfg_n cfg') →
  (∀ j, (h, j) ∉ on L) → (∀ i, running cfg i → running cfg' i) →
  (∀ i, running cfg' i → ∃ row, endNames cfg' !! i = Some (Some row)) → cfg_ok cfg' L.
Proof.
  intros Hok Hm E1 E2 E3 Hends ??? Hnone Hrun ?. destruct (make_ends_spec _ _ _ Hm) as (Hnd & Hin & Hout).
  rewrite imap_pair_snd in Hnd, Hout.
  assert (∀ nm, end_enabled (cfg_net cfg') nm = end_enabled rn nm) as En by (intros nm; unfold end_enabled; by rewrite E2).
  assert (∀ j nm, names !! j = Some nm → ends (cfg_net cfg) !! IString nm = None ∧ end_view rn nm = fresh_end j nm)
    as Hnew by (intros j nm Hj; apply Hin; by apply elem_of_imap_pair).
  assert (∀ h' j nm, end_of cfg h' j = Some nm → nm ∉ names) as Hold.
  { intros h' j nm Ha [k Hk]%list_elem_of_lookup. destruct (Hnew _ _ Hk) as [Hn _].
    destruct (ok_end _ _ Hok _ _ _ Ha) as [[? He] _]. by rewrite He in Hn. }
  split; try done; rewrite ?E1, ?E3.
  - intros h1 j1 h2 j2 nm. rewrite !Hends. repeat case_decide; intros Ha Hb; subst.
    + split; [done|]. by eapply NoDup_lookup.
    + destruct (Hold _ _ _ Hb). by eapply list_elem_of_lookup_2.
    + destruct (Hold _ _ _ Ha). by eapply list_elem_of_lookup_2.
    + by eapply (ok_inj _ _ Hok).
  - intros h1 j nm. rewrite Hends. case_decide; intros Ha.
    + destruct (Hnew _ _ Ha) as [_ Hv]. injection Hv as -> _ ->. by split.
    + pose proof (Hout _ (Hold _ _ _ Ha)) as Hv. injection Hv as -> _ ->. by eapply ok_end.
  - intros h1 j nm. rewrite Hends, En. case_decide; intros Ha; subst.
    + destruct (Hnew _ _ Ha) as [_ Hv]. injection Hv as _ -> _. split; [done|]. intros []%Hnone.
    + pose proof (Hout _ (Hold _ _ _ Ha)) as Hv. injection Hv as _ -> _. by apply (ok_on _ _ Hok).
  - intros nm. rewrite En. destruct (decide (nm ∈ names)) as [Hn|Hn].
    + apply list_elem_of_lookup in Hn as [j Hj]. intros _. left. exists h, j. by rewrite Hends, decide_True.
    + pose proof (Hout _ Hn) as Hv. injection Hv as _ -> _. intros He.
      destruct (ok_rest _ _ Hok _ He) as [(h' & j & Hh)|[j ?]]; [|right; by exists j]. left. exists h', j. rewrite Hends.
      case_decide as Hd; [|done]. subst. apply (ok_on _ _ Hok _ _ _ Hh) in He. by apply Hnone in He.
  - intros nm j Hl. destruct (ok_left _ _ Hok _ _ Hl) as (He & Hc & Hno).
    assert (nm ∉ names) as Hn.
    { intros [k Hk]%list_elem_of_lookup. destruct (Hnew _ _ Hk) as [Hx _]. destruct (ok_known _ _ Hok _ He) as [? Hy]. congruence. }
    pose proof (Hout _ Hn) as Hv. injection Hv as _ Hv1 Hv2. rewrite En, Hv1, Hv2. split_and!; [done..|].
    intros h' j'. rewrite Hends. case_decide; [|apply Hno]. intros Hx. by eapply Hn, list_elem_of_lookup_2.
  - intros nm. rewrite En. destruct (decide (nm ∈ names)) as [Hn|Hn].
    + apply list_elem_of_lookup in Hn as [j Hj]. destruct (Hnew _ _ Hj) as [_ Hv]. injection Hv as -> _ _. done.
    + pose proof (Hout _ Hn) as Hv. injection Hv as -> -> _. apply (ok_known _ _ Hok).
  - intros h' j Hl. rewrite Hends. case_decide; [subst; by apply Hnone in Hl|]. by apply (ok_dom _ _ Hok).
  - intros i j Hl. by eapply Hrun, (ok_run _ _ Hok).
Qed.

Lemma take_row cfg (names : list string) : (cfg_n cfg ≤ length names)%nat → length (take (cfg_n cfg) names) = cfg_n cfg.
Proof. intros. rewrite length_take. lia. Qed.

Lemma StartServer_links cfg L i names srv cfg' :
  cfg_ok cfg L → kvServers cfg !! i = Some false → (cfg_n cfg ≤ length names)%nat →
  StartServer i names srv cfg = Some cfg' →
  cfg_ok cfg' L ∧ cfg_n cfg' = cfg_n cfg ∧ kvServers cfg' = <[i := true]> (kvServers cfg) ∧
  endNames cfg' = <[i := Some (take (cfg_n cfg) names)]> (endNames cfg).
Proof.
  intros Hok Hdown Hlen (rn & Em & [= <-])%bind_Some. split; [|done]. cbn in Em.
  pose proof (lookup_lt_Some _ _ _ Hdown) as Hi. rewrite (ok_servers _ _ Hok) in Hi.
  eapply (fresh_ends cfg _ L (inl i) (take (cfg_n cfg) names)); [done|exact Em|done|done|done|..]; cbn.
  - intros [a|ck] j; cbn; [|by rewrite decide_False]. unfold endName. cbn. destruct (decide (a = i)) as [->|Hne].
    + rewrite decide_True by done. by rewrite list_lookup_insert_eq by (by rewrite (ok_rows _ _ Hok)).
    + rewrite decide_False by congruence. by rewrite list_lookup_insert_ne.
  - rewrite length_insert. apply Hok.
  - rewrite length_insert. apply Hok.
  - intros a row [(<- & [= <-] & _)|[_ Ha]]%list_lookup_insert_Some; [by apply take_row|by eapply (ok_row _ _ Hok)].
  - intros j Hl. apply (ok_run _ _ Hok) in Hl. unfold running in Hl. congruence.
  - unfold running. cbn. intros a Ha. destruct (decide (a = i)) as [->|Hne]; [congruence|].
    by rewrite list_lookup_insert_ne.
  - unfold running. cbn. intros a [(<- & _ & _)|[Hne Ha]]%list_lookup_insert_Some.
    + rewrite list_lookup_insert_eq by (by rewrite (ok_rows _ _ Hok)). eauto.
    + rewrite list_lookup_insert_ne by done. by apply (ok_started _ _ Hok).
Qed.

(** ** Clerks *)

Definition switch_client (b : bool) (ck : nat) (js : list nat) L : Links :=
  L <| on ::= λ s, if b then s ∪ pairs (inr ck) js else s ∖ pairs (inr ck) js |>.

Lemma client_ok cfg L b ck js names :
  cfg_ok cfg L → mapM (λ j, clerkEnd cfg ck j) js = Some names →
  cfg_ok (cfg <| cfg_net ::= enable_all b names |>) (switch_client b ck js L).
Proof.
  intros Hok En. destruct (enable_all_rest b names (cfg_net cfg)) as (E1 & E2 & _).
  apply (switch_links cfg L b (pairs (inr ck) js) names); try done.
  - intros nm. apply enable_all_enabled.
  - intros nm. rewrite (mapM_elem _ _ _ _ En). setoid_rewrite elem_of_pairs. split.
    + intros (j & ? & ?). by exists (inr ck), j.
    + intros (h & j & [-> ?] & ?). by exists j.
  - intros _ h j [-> Hj]%elem_of_pairs. split; [|done]. apply list_elem_of_lookup in Hj as [k Hk].
    apply mapM_Some in En. destruct (Forall2_lookup_l _ _ _ _ _ En Hk) as (nm & _ & Hnm). by exists nm.
Qed.

Lemma makeClient_ok cfg L ck names to cfg' :
  cfg_ok cfg L → clerks cfg !! ck = None → makeClient ck names to cfg = Some cfg' →
  cfg_ok cfg' (switch_client true ck to L) ∧ cfg_n cfg' = cfg_n cfg ∧ kvServers cfg' = kvServers cfg ∧
  endNames cfg' = endNames cfg ∧ servers (cfg_net cfg') = servers (cfg_net cfg).
Proof.
  intros Hok Hck (rn & Em & (out & Eo & [= <-])%bind_Some)%bind_Some. split.
  - apply client_ok; [|exact Eo]. eapply (fresh_ends cfg _ L (inr ck) (take (cfg_n cfg) names)); try done; cbn; try apply Hok.
    + intros [a|a] j; cbn; [by rewrite decide_False|]. unfold clerkEnd. cbn. destruct (decide (a = ck)) as [->|Hne].
      * by rewrite decide_True, lookup_insert_eq.
      * by rewrite decide_False, lookup_insert_ne by congruence.
    + intros j Hl. apply (ok_dom _ _ Hok) in Hl as [nm Hl]. cbn in Hl. unfold clerkEnd in Hl. by rewrite Hck in Hl.
  - cbn. split_and!; try done.
    destruct (enable_all_rest true out rn) as (_ & _ & ->). by eapply make_ends_servers.
Qed.

Lemma elem_of_linked_ends ck names L nm j :
  (nm, j) ∈ linked_ends ck names L ↔ (inr ck, j) ∈ on L ∧ names !! j = Some nm.
Proof.
  unfold linked_ends. rewrite elem_of_list_to_set, list_elem_of_omap. split.
  - intros ([j' nm'] & Hin%elem_of_imap_pair & H). cbn in H. case_decide; [|done]. by injection H as -> ->.
  - intros [Hl Hn]. exists (j, nm). split; [by apply elem_of_imap_pair|]. cbn. by rewrite decide_True.
Qed.

Lemma deleteClient_ok cfg L ck : cfg_ok cfg L → cfg_ok (deleteClient ck cfg) (spec_act (ADelete ck) cfg L).
Proof.
  intros [H1 H2 H3 Hinj Hend Hon Hrest Hleft Hkn Hdom Hrun Hst].
  assert (∀ h j nm, end_of (deleteClient ck cfg) h j = Some nm ↔ h ≠ inr ck ∧ end_of cfg h j = Some nm) as Ho.
  { intros [a|a] j nm; cbn; [naive_solver|]. unfold clerkEnd, deleteClient. cbn. destruct (decide (a = ck)) as [->|Hne].
    - rewrite lookup_delete_eq. naive_solver.
    - rewrite lookup_delete_ne by done. naive_solver. }
  split; cbn; try done.
  - intros h j h' j' nm [_ ?]%Ho [_ ?]%Ho. by eapply Hinj.
  - intros h j nm [_ ?]%Ho. by eapply Hend.
  - intros h j nm [Hne Hh]%Ho. rewrite (Hon _ _ _ Hh), elem_of_filter. cbn. naive_solver.
  - intros nm He. destruct (Hrest _ He) as [(h & j & Hh)|[j Hg]]; [|right; exists j; set_solver].
    destruct (decide (h = inr ck)) as [->|Hne]; [right; exists j|left; exists h, j; by apply Ho].
    apply elem_of_union_r, elem_of_linked_ends. split; [by apply (Hon _ _ _ Hh)|]. cbn in Hh. unfold clerkEnd in Hh.
    by destruct (clerks cfg !! ck).
  - intros nm j [Hl|[Hl Hn]%elem_of_linked_ends]%elem_of_union.
    { destruct (Hleft _ _ Hl) as (? & ? & Hno). split_and!; [done..|]. by intros h j' [_ ?%Hno]%Ho. }
    assert (end_of cfg (inr ck) j = Some nm) as Hh.
    { cbn. unfold clerkEnd. by destruct (clerks cfg !! ck). }
    split_and!; [by apply (Hon _ _ _ Hh)|by apply (Hend _ _ _ Hh)|].
    intros h j' [Hne Hh']%Ho. by destruct (Hinj _ _ _ _ _ Hh Hh') as [<- _].
  - intros h j [Hne [nm Hl]%Hdom]%elem_of_filter. exists nm. by apply Ho.
  - intros i j [_ Hl]%elem_of_filter. by eapply Hrun.
Qed.

Lemma ShutdownServer_ok cfg L i cfg' :
  cfg_ok cfg L → all_started cfg → ShutdownServer i cfg = Some cfg' →
  cfg_ok cfg' (cut i (All cfg) L) ∧ cfg_n cfg' = cfg_n cfg ∧ endNames cfg' = endNames cfg ∧
  kvServers cfg' = <[i := false]> (kvServers cfg).
Proof.
  intros Hok Hall (cfg1 & E & [= <-])%bind_Some. pose proof (disconnectUnlocked_ok _ _ _ _ _ Hok Hall E) as Hok1.
  destruct (disconnectUnlocked_rows _ _ _ _ E) as (Er & Es & En & _). cbn. rewrite Er, Es, En. split; [|done].
  assert (∀ j, (inl i, j) ∉ on (cut i (All cfg) L)) as Hcut.
  { intros j [Hl Hno]%elem_of_difference. apply Hno, elem_of_both. left. split; [done|].
    apply (ok_dom _ _ Hok) in Hl as [nm Hl]. cbn in Hl. unfold endName in Hl.
    apply bind_Some in Hl as ([row|] & Hrow & Hl); [|done]. cbn in Hl. apply lookup_lt_Some in Hl.
    apply elem_of_seq. rewrite (ok_row _ _ Hok _ _ Hrow) in Hl. lia. }
  destruct Hok1 as [H1 H2 H3 Hinj Hend Hon Hrest Hleft Hkn Hdom Hrun Hst].
  split; cbn; try done.
  - by rewrite length_insert.
  - intros a j Hl. pose proof (Hrun _ _ Hl) as Ha. unfold running in *. cbn. destruct (decide (a = i)) as [->|Hne].
    + by apply Hcut in Hl.
    + by rewrite list_lookup_insert_ne.
  - unfold running. cbn. intros a [(_ & [=] & _)|[_ Ha]]%list_lookup_insert_Some. by apply Hst.
Qed.

(** ** Whatever the tests do *)

Lemma do_act_ok a cfg L cfg' :
  cfg_ok cfg L → all_started cfg → do_act a cfg = Some cfg' →
  cfg_ok cfg' (spec_act a cfg L) ∧ all_started cfg' ∧ cfg_n cfg' = cfg_n cfg.
Proof.
  intros Hok Hall. destruct a as [i to|i from|p1 p2|ck names to|ck|ck to|ck from|i|i names srv]; cbn [do_act spec_act].
  - case_decide as Hr; [|done]. intros E. pose proof (connectUnlocked_rows _ _ _ _ E) as Hs.
    split_and!; [by eapply connectUnlocked_ok|by eapply same_rows_started|apply Hs].
  - intros E. pose proof (disconnectUnlocked_rows _ _ _ _ E) as Hs.
    split_and!; [by eapply disconnectUnlocked_ok|by eapply same_rows_started|apply Hs].
  - case_decide as Hr; [|done]. intros E. destruct (partition_ok _ _ _ _ _ Hok Hall Hr E) as [Hok' Hs].
    split_and!; [done|by eapply same_rows_started|apply Hs].
  - case_decide as Hr; [|done]. destruct Hr as [Hck _]. intros E.
    destruct (makeClient_ok _ _ _ _ _ _ Hok Hck E) as (Hok' & En & _ & Er & _).
    split_and!; [done|unfold all_started; by rewrite En, Er|done].
  - intros [= <-]. split_and!; [by apply deleteClient_ok|done|done].
  - intros (names & En & [= <-])%bind_Some. split_and!; [by apply (client_ok _ _ true)|done|done].
  - intros (names & En & [= <-])%bind_Some. split_and!; [by apply (client_ok _ _ false)|done|done].
  - intros E. destruct (ShutdownServer_ok _ _ _ _ Hok Hall E) as (Hok' & En & Er & _).
    split_and!; [done|unfold all_started; by rewrite En, Er|done].
  - case_decide as Hr; [|done]. destruct Hr as [Hdown Hlen]. intros E.
    destruct (StartServer_links _ _ _ _ _ _ Hok Hdown Hlen E) as (Hok' & En & _ & Er).
    split_and!; [done| |done]. intros k. rewrite En, Er. intros Hk. destruct (decide (k = i)) as [->|Hne].
    + rewrite list_lookup_insert_eq by (by rewrite (ok_rows _ _ Hok)). eauto.
    + rewrite list_lookup_insert_ne by done. by apply Hall.
Qed.

Lemma do_acts_ok acts cfg L cfg' L' :
  cfg_ok cfg L → all_started cfg → do_acts acts cfg L = Some (cfg', L') →
  cfg_ok cfg' L' ∧ all_started cfg' ∧ cfg_n cfg' = cfg_n cfg.
Proof.
  revert cfg L. induction acts as [|a acts IH]; intros cfg L Hok Hall; cbn; [by intros [= <- <-]|].
  intros (cfg1 & E & H)%bind_Some. destruct (do_act_ok _ _ _ _ Hok Hall E) as (Hok1 & Hall1 & <-). by eapply IH.
Qed.

(** ** [makeConfig] *)

Lemma start_cfg_ok n : cfg_ok (start_config n MakeNetwork) (mkLinks ∅ ∅).
Proof.
  assert (∀ h j nm, ¬ end_of (start_config n MakeNetwork) h j = Some nm) as Hno.
  { intros [i|ck] j nm; cbn.
    - unfold endName. cbn. intros ([row|] & Hr & H)%bind_Some; [|done]. by apply lookup_replicate in Hr as [[=] _].
    - unfold clerkEnd. cbn. by rewrite lookup_empty. }
  split; cbn; rewrite ?length_replicate; try done; try (intros; by edestruct Hno).
  - by intros i row [[=] _]%lookup_replicate.
  - unfold running. cbn. by intros i [[=] _]%lookup_replicate.
Qed.

Lemma start_each_ok l cfg L cfg' :
  cfg_ok cfg L → NoDup l.*1 → start_each l cfg = Some cfg' →
  (∀ i names srv, (i, (names, srv)) ∈ l → kvServers cfg !! i = Some false ∧ (cfg_n cfg ≤ length names)%nat) →
  cfg_ok cfg' L ∧ cfg_n cfg' = cfg_n cfg ∧ ∀ i, i ∈ l.*1 ∨ running cfg i → running cfg' i.
Proof.
  revert cfg. induction l as [|[i [names srv]] l IH]; intros cfg Hok; cbn [start_each fmap list_fmap fst].
  { intros _ [= <-] _. split_and!; [done|done|]. by intros i [?%elem_of_nil|?]. }
  intros [Hi Hnd]%NoDup_cons (cfg1 & E & H)%bind_Some Hl.
  destruct (Hl i names srv ltac:(left)) as [Hdown Hlen].
  destruct (StartServer_links _ _ _ _ _ _ Hok Hdown Hlen E) as (Hok1 & En & Es & _).
  destruct (IH cfg1 Hok1 Hnd H) as (Hok' & En' & Hrun).
  { intros i' names' srv' Hin. destruct (Hl i' names' srv') as [? ?]; [by right|]. rewrite Es, En.
    rewrite list_lookup_insert_ne; [done|]. intros ->. apply Hi, list_elem_of_fmap. by exists (i', (names', srv')). }
  split_and!; [done|congruence|]. intros k Hk. apply Hrun. unfold running. rewrite Es.
  destruct (decide (k = i)) as [->|Hne].
  - right. apply list_lookup_insert_eq. by eapply lookup_lt_Some.
  - rewrite list_lookup_insert_ne by done. destruct Hk as [[?|?]%elem_of_cons|?]; auto. done.
Qed.

Lemma connect_each_ok cfg L l to cfg' :
  cfg_ok cfg L → Forall (running cfg) (l ++ to) → connect_each l to cfg = Some cfg' →
  cfg_ok cfg' (foldl (λ L i, link i to L) L l) ∧ same_rows cfg cfg'.
Proof.
  revert cfg L. induction l as [|i l IH]; intros cfg L Hok Hrun; cbn [connect_each]; [by intros [= <-]|].
  intros (cfg1 & E & H)%bind_Some. cbn in Hrun. apply Forall_cons in Hrun as [Hi Hrun]. pose proof Hrun as [_ Hto]%Forall_app.
  pose proof (connectUnlocked_rows _ _ _ _ E) as Hs.
  assert (cfg_ok cfg1 (link i to L)) as Hok1 by (eapply connectUnlocked_ok; [done|by constructor|done]).
  destruct (IH _ _ Hok1) as [? Hs']; [by eapply same_rows_running|done|]. split; [done|]. by eapply same_rows_trans.
Qed.

Lemma elem_of_all_linked n h j : (h, j) ∈ on (all_linked n) ↔ ∃ i, h = inl i ∧ (i < n)%nat ∧ (j < n)%nat.
Proof.
  unfold all_linked. cbn. rewrite elem_of_list_to_set, list_elem_of_bind. setoid_rewrite list_elem_of_fmap.
  setoid_rewrite elem_of_seq. split.
  - intros (i & (j' & [= -> ->] & ?) & ?). exists i. split_and!; [done|lia..].
  - intros (i & -> & ? & ?). exists i. split; [|lia]. exists j. split; [done|lia].
Qed.

Lemma foldl_link l to L h j :
  (h, j) ∈ on (foldl (λ L i, link i to L) L l) ↔ (∃ i, i ∈ l ∧ (h, j) ∈ both i to) ∨ (h, j) ∈ on L.
Proof.
  revert L. induction l as [|i l IH]; intros L; cbn [foldl].
  - split; [auto|]. by intros [(i & ?%elem_of_nil & _)|?].
  - rewrite IH. cbn. rewrite elem_of_union. setoid_rewrite elem_of_cons. naive_solver.
Qed.
Lemma foldl_link_left l to L : left_on (foldl (λ L i, link i to L) L l) = left_on L.
Proof. revert L. induction l as [|i l IH]; intros L; cbn [foldl]; [done|]. by rewrite IH. Qed.

Lemma linked_all n : foldl (λ L i, link i (seq 0 n) L) (mkLinks ∅ ∅) (seq 0 n) = all_linked n.
Proof.
  set (L := foldl _ _ _). assert (on L = on (all_linked n)) as E.
  { apply set_eq. intros [h j]. unfold L. rewrite foldl_link, elem_of_all_linked. setoid_rewrite elem_of_both.
    setoid_rewrite elem_of_seq. split.
    - intros [(i & Hi & [[-> Hj]|(-> & a & -> & Ha)])|?%elem_of_empty]; [exists i|exists a|done]; split_and!; (done || lia).
    - intros (i & -> & Hi & Hj). left. exists i. split; [lia|]. left. split; [done|lia]. }
  assert (left_on L = left_on (all_linked n)) as E' by (unfold L; by rewrite foldl_link_left).
  destruct L. cbn in E, E'. by rewrite E, E'.
Qed.

Lemma makeConfig_ok unreliable starts n cfg :
  length starts = n → (∀ s, s ∈ starts → (n ≤ length s.1)%nat) → makeConfig unreliable starts n MakeNetwork = Some cfg →
  cfg_ok cfg (all_linked n) ∧ all_started cfg ∧ cfg_n cfg = n.
Proof.
  intros Hlen Hrows (cfg1 & E1 & (cfg2 & E2 & [= <-])%bind_Some)%bind_Some. rewrite take_ge in E1 by lia.
  destruct (start_each_ok (imap pair starts) (start_config n MakeNetwork) (mkLinks ∅ ∅) cfg1) as (Hok1 & En & Hrun);
    [apply start_cfg_ok|rewrite imap_pair_fst; apply NoDup_seq|done| |].
  { intros i names srv Hi%elem_of_imap_pair. cbn. split; [|apply (Hrows (names, srv)); by eapply list_elem_of_lookup_2].
    apply lookup_replicate. split; [done|]. apply lookup_lt_Some in Hi. lia. }
  cbn in En. assert (∀ i, (i < n)%nat → running cfg1 i) as Hall.
  { intros i Hi. apply Hrun. left. rewrite imap_pair_fst. apply elem_of_seq. lia. }
  destruct (connect_each_ok cfg1 (mkLinks ∅ ∅) (All cfg1) (All cfg1) cfg2 Hok1) as [Hok2 Hs]; [|done|].
  { apply Forall_forall. intros i Hi. apply Hall. unfold All in Hi. rewrite En in Hi.
    apply elem_of_app in Hi as [Hi|Hi]; apply elem_of_seq in Hi; lia. }
  assert (all_started cfg1) as Hst1 by (intros i Hi; apply (ok_started _ _ Hok1), Hall; lia).
  pose proof (same_rows_started _ _ Hs Hst1) as Hst2. unfold All in Hok2. rewrite En, linked_all in Hok2.
  destruct Hs as (_ & _ & En2 & _). split_and!; [by destruct Hok2|done|cbn; congruence].
Qed.

(** ** Delivery *)

(** Where a request over an end of now arrives. *)
Lemma current_end cfg L h j nm :
  cfg_ok cfg L → end_of cfg h j = Some nm →
  target (readEndnameInfo (IString nm) (cfg_net cfg)) =
    if bool_decide ((h, j) ∈ on L) then map_get None (servers (cfg_net cfg)) (IInt (Z.of_nat j)) else None.
Proof.
  intros Hok Hn. pose proof (ok_on _ _ Hok _ _ _ Hn) as Hon. destruct (ok_end _ _ Hok _ _ _ Hn) as [_ Hc].
  unfold end_enabled in Hon. unfold target, readEndnameInfo. cbn. rewrite Hc.
  destruct (decide ((h, j) ∈ on L)) as [Hd|Hd].
  - rewrite (bool_decide_true _ Hd), (proj2 Hon Hd). cbn. by destruct (map_get None _ _).
  - rewrite (bool_decide_false _ Hd). destruct (map_get false _ _); [by destruct Hd; apply Hon|done].
Qed.

(** An end that a deleted clerk left on. *)
Lemma left_end cfg L nm j :
  cfg_ok cfg L → (nm, j) ∈ left_on L →
  target (readEndnameInfo (IString nm) (cfg_net cfg)) = map_get None (servers (cfg_net cfg)) (IInt (Z.of_nat j)).
Proof.
  intros Hok Hl. destruct (ok_left _ _ Hok _ _ Hl) as (He & Hc & _). unfold end_enabled in He.
  unfold target, readEndnameInfo. cbn. rewrite Hc, He. cbn. by destruct (map_get None _ _).
Qed.

(** The end leads to server [j]. *)
Definition leads_to cfg L nm (j : nat) : Prop :=
  (∃ h, end_of cfg h j = Some nm ∧ (h, j) ∈ on L) ∨ (nm, j) ∈ left_on L.

Lemma delivered_to cfg L nm p :
  cfg_ok cfg L → target (readEndnameInfo (IString nm) (cfg_net cfg)) = Some p ↔
  ∃ j, leads_to cfg L nm j ∧ map_get None (servers (cfg_net cfg)) (IInt (Z.of_nat j)) = Some p.
Proof.
  intros Hok. split.
  - intros Ht. assert (end_enabled (cfg_net cfg) nm = true) as He.
    { unfold target, readEndnameInfo, end_enabled in *. cbn in Ht. by destruct (map_get false _ _). }
    destruct (ok_rest _ _ Hok _ He) as [(h & j & Hn)|[j Hl]]; exists j.
    + pose proof (proj1 (ok_on _ _ Hok _ _ _ Hn) He) as Hl. rewrite (current_end _ _ _ _ _ Hok Hn), bool_decide_true in Ht by done.
      split; [left; by exists h|done].
    + rewrite (left_end _ _ _ _ Hok Hl) in Ht. split; [by right|done].
  - intros (j & [(h & Hn & Hl)|Hl] & Hs).
    + rewrite (current_end _ _ _ _ _ Hok Hn). by rewrite bool_decide_true.
    + by rewrite (left_end _ _ _ _ Hok Hl).
Qed.

(** C21. Requests go where the tests say.  Whatever the tests connect,
    disconnect, partition, shut down, start again and delete after
    [makeConfig], a request over an end reaches a server exactly when the
    server is registered and either the end is one of now, of a server or of a
    clerk, that is linked to it, or the end was linked to it when its clerk was
    deleted: [deleteClient] forgets the ends of a clerk and does not disable
    them.  The ends of servers that were shut down lead nowhere. *)
Theorem kv_delivery_exact unreliable starts n cfg0 acts cfg L nm p :
  length starts = n → (∀ s, s ∈ starts → (n ≤ length s.1)%nat) →
  makeConfig unreliable starts n MakeNetwork = Some cfg0 → do_acts acts cfg0 (all_linked n) = Some (cfg, L) →
  target (readEndnameInfo (IString nm) (cfg_net cfg)) = Some p ↔
    ∃ j, leads_to cfg L nm j ∧ map_get None (servers (cfg_net cfg)) (IInt (Z.of_nat j)) = Some p.
Proof.
  intros Hlen Hrows E0 E. destruct (makeConfig_ok _ _ _ _ Hlen Hrows E0) as (Hok0 & Hall0 & _).
  destruct (do_acts_ok _ _ _ _ _ Hok0 Hall0 E) as (Hok & _). by apply delivered_to.
Qed.

(** ** Partitions *)

Lemma endName_some cfg L i j :
  cfg_ok cfg L → (∃ row, endNames cfg !! i = Some (Some row)) → (j < cfg_n cfg)%nat → is_Some (endName cfg i j).
Proof.
  intros Hok (row & Hr) Hj. unfold endName. rewrite Hr. cbn. apply lookup_lt_is_Some. by rewrite (ok_row _ _ Hok _ _ Hr).
Qed.

Lemma connectUnlocked_total cfg L i to :
  cfg_ok cfg L → all_started cfg → (i < cfg_n cfg)%nat → Forall (λ j, j < cfg_n cfg)%nat to →
  is_Some (connectUnlocked i to cfg).
Proof.
  intros Hok Hall Hi Hto. unfold connectUnlocked.
  destruct (mapM (λ j, endName cfg i j) to) as [out|] eqn:Eo.
  2: { apply eq_None_not_Some in Eo. destruct Eo. apply mapM_is_Some_2. eapply Forall_impl; [exact Hto|].
       intros j Hj. eapply endName_some; eauto. }
  destruct (mapM (λ j, endName cfg j i) to) as [inc|] eqn:Ei; [by eexists|].
  apply eq_None_not_Some in Ei. destruct Ei. apply mapM_is_Some_2. eapply Forall_impl; [exact Hto|].
  intros j Hj. eapply endName_some; eauto.
Qed.

(** [disconnectUnlocked] also panics when there are more servers than rows. *)
Lemma disconnectUnlocked_total cfg L i from :
  cfg_ok cfg L → all_started cfg → (i < cfg_n cfg)%nat → Forall (λ j, j < cfg_n cfg)%nat from →
  (length from ≤ cfg_n cfg)%nat → is_Some (disconnectUnlocked i from cfg).
Proof.
  intros Hok Hall Hi Hfrom Hlen. unfold disconnectUnlocked.
  assert (∀ k a b, (k < cfg_n cfg)%nat → (a < cfg_n cfg)%nat → (b < cfg_n cfg)%nat → is_Some (end_unless_nil k a b cfg)) as Hsome.
  { intros k a b Hk Ha Hb. destruct (endName_some cfg L a b Hok (Hall _ Ha) Hb) as [nm Hn]. exists (Some nm).
    apply end_unless_nil_started; [done|apply Hok|]. eauto. }
  destruct (mapM (λ j, end_unless_nil i i j cfg) from) as [out|] eqn:Eo.
  2: { apply eq_None_not_Some in Eo. destruct Eo. apply mapM_is_Some_2. eapply Forall_impl; [exact Hfrom|]. auto. }
  destruct (mapM _ (imap pair from)) as [inc|] eqn:Ei; [by eexists|].
  apply eq_None_not_Some in Ei. destruct Ei. apply mapM_is_Some_2, Forall_forall.
  intros [k j] Hk%elem_of_imap_pair. rewrite Forall_lookup in Hfrom. cbn. apply Hsome; [|by eapply Hfrom|done].
  apply lookup_lt_Some in Hk. lia.
Qed.

Lemma separate_total cfg L l p other :
  cfg_ok cfg L → all_started cfg → Forall (running cfg) (l ++ p) → Forall (λ j, j < cfg_n cfg)%nat (l ++ p ++ other) →
  (length other ≤ cfg_n cfg)%nat → is_Some (separate l p other cfg).
Proof.
  revert cfg L. induction l as [|i l IH]; intros cfg L Hok Hall Hrun Hlt Hlen; cbn [separate]; [by eexists|].
  cbn in Hrun, Hlt. apply Forall_cons in Hrun as [Hi Hrun], Hlt as [Hii Hlt].
  pose proof Hlt as [_ [Hp Hother]%Forall_app]%Forall_app.
  destruct (disconnectUnlocked_total _ _ i other Hok Hall Hii Hother Hlen) as [cfg1 E1]. rewrite E1. cbn.
  pose proof (disconnectUnlocked_ok _ _ _ _ _ Hok Hall E1) as Hok1. pose proof (disconnectUnlocked_rows _ _ _ _ E1) as Hr1.
  pose proof Hr1 as (_ & _ & En1 & _).
  destruct (connectUnlocked_total cfg1 _ i p Hok1) as [cfg2 E2]; [by eapply same_rows_started|by rewrite En1|by rewrite En1|].
  rewrite E2. cbn. pose proof (connectUnlocked_rows _ _ _ _ E2) as Hr2. pose proof (same_rows_trans _ _ _ Hr1 Hr2) as Hr.
  pose proof Hr as (_ & _ & En & _). pose proof Hrun as [_ Hrp]%Forall_app.
  eapply IH; [eapply connectUnlocked_ok; [done| |done]|by eapply same_rows_started|by eapply same_rows_running|by rewrite En..].
  eapply same_rows_running; [done|]. by constructor.
Qed.

Lemma partition_total cfg L p1 p2 :
  cfg_ok cfg L → all_started cfg → Forall (running cfg) (p1 ++ p2) → NoDup (p1 ++ p2) → is_Some (partition p1 p2 cfg).
Proof.
  intros Hok Hall Hrun Hnd.
  assert (Forall (λ j, j < cfg_n cfg)%nat (p1 ++ p2)) as Hlt.
  { eapply Forall_impl; [exact Hrun|]. intros j Hj%lookup_lt_Some. by rewrite (ok_servers _ _ Hok) in Hj. }
  assert (length (p1 ++ p2) ≤ cfg_n cfg)%nat as Hlen.
  { rewrite <- (length_seq (cfg_n cfg) 0). apply submseteq_length, NoDup_submseteq; [done|].
    intros j Hj. rewrite Forall_forall in Hlt. apply elem_of_seq. split; [lia|]. by apply Hlt. }
  rewrite length_app in Hlen. pose proof Hrun as [Hr1 Hr2]%Forall_app. pose proof Hlt as [Hl1 Hl2]%Forall_app.
  unfold partition. destruct (separate_total cfg L p1 p1 p2) as [cfg1 E1]; try done; try lia.
  { by apply Forall_app. } { by rewrite !Forall_app. }
  rewrite E1. cbn. assert (Forall (running cfg) (p1 ++ p1)) as Hr11 by by apply Forall_app.
  destruct (separate_ok _ _ _ _ _ _ Hok Hall Hr11 E1) as [Hok1 Hs]. pose proof Hs as (_ & _ & En & _).
  apply (separate_total _ _ p2 p2 p1 Hok1); rewrite ?En; [by eapply same_rows_started| |by rewrite !Forall_app|lia].
  apply Forall_app. by split; eapply same_rows_running.
Qed.

(** What one loop of [partition] does to the links. *)
Lemma link_apart_on l p other L h j :
  l ⊆ p → p ## other →
  (h, j) ∈ on (link_apart l p other L) ↔
    (∃ i, i ∈ l ∧ (h, j) ∈ both i p) ∨ ((h, j) ∈ on L ∧ ∀ i, i ∈ l → (h, j) ∉ both i other).
Proof.
  intros Hl Hd. revert L. induction l as [|i l IH]; intros L; cbn.
  - split; [intros H; right; split; [done|]; by intros i ?%elem_of_nil|]. by intros [(i & ?%elem_of_nil & _)|[? _]].
  - unfold link_apart in IH. rewrite IH by set_solver. cbn. rewrite elem_of_union, elem_of_difference.
    assert ((h, j) ∈ both i p → ∀ i', i' ∈ l → (h, j) ∉ both i' other) as Hx.
    { rewrite elem_of_both. setoid_rewrite elem_of_both. set_solver. }
    setoid_rewrite elem_of_cons. naive_solver.
Qed.

Lemma partition_links p1 p2 L i j :
  p1 ## p2 → i ∈ p1 ++ p2 → j ∈ p1 ++ p2 →
  (inl i, j) ∈ on (link_apart p2 p2 p1 (link_apart p1 p1 p2 L)) ↔ (i ∈ p1 ↔ j ∈ p1).
Proof.
  intros Hd Hi%elem_of_app Hj%elem_of_app. rewrite !link_apart_on by set_solver. setoid_rewrite elem_of_both.
  split; [set_solver|]. intros Hij. destruct (decide (i ∈ p1)) as [H1|H1].
  - right. split; [left; exists i; set_solver|set_solver].
  - left. exists i. set_solver.
Qed.

(** C20. Partitions are partitions.  After any of the above, [partition] with
    two groups of servers that run gets through without a panic, and then a
    request between two of them arrives exactly when they are in the same
    group. *)
Theorem partition_exact unreliable starts n cfg0 acts cfg L p1 p2 :
  length starts = n → (∀ s, s ∈ starts → (n ≤ length s.1)%nat) →
  makeConfig unreliable starts n MakeNetwork = Some cfg0 → do_acts acts cfg0 (all_linked n) = Some (cfg, L) →
  Forall (running cfg) (p1 ++ p2) → NoDup (p1 ++ p2) →
  ∃ cfg', partition p1 p2 cfg = Some cfg' ∧
    ∀ i j, i ∈ p1 ++ p2 → j ∈ p1 ++ p2 → ∃ nm, endName cfg' i j = Some nm ∧
      target (readEndnameInfo (IString nm) (cfg_net cfg')) =
        if decide (i ∈ p1 ↔ j ∈ p1) then map_get None (servers (cfg_net cfg)) (IInt (Z.of_nat j)) else None.
Proof.
  intros Hlen Hrows E0 E Hrun Hnd. destruct (makeConfig_ok _ _ _ _ Hlen Hrows E0) as (Hok0 & Hall0 & _).
  destruct (do_acts_ok _ _ _ _ _ Hok0 Hall0 E) as (Hok & Hall & _).
  destruct (partition_total _ _ _ _ Hok Hall Hrun Hnd) as [cfg' Ep]. exists cfg'. split; [done|].
  destruct (partition_ok _ _ _ _ _ Hok Hall Hrun Ep) as [Hok' Hs]. intros i j Hi Hj.
  pose proof Hs as (_ & _ & _ & Es). pose proof (same_rows_running _ _ _ Hs Hrun) as Hrun'. rewrite Forall_forall in Hrun'.
  assert (j < cfg_n cfg')%nat as Hjn.
  { rewrite <- (ok_servers _ _ Hok'). eapply lookup_lt_Some. by apply Hrun'. }
  destruct (endName_some _ _ i j Hok' (ok_started _ _ Hok' _ (Hrun' _ Hi)) Hjn) as [nm Hn]. exists nm. split; [done|].
  rewrite (current_end _ _ (inl i) j nm Hok' Hn), Es.
  assert (p1 ## p2) as Hd by (apply NoDup_app in Hnd as (_ & Hd & _); intros x; apply Hd).
  pose proof (partition_links p1 p2 L i j Hd Hi Hj) as Hl.
  destruct (decide (i ∈ p1 ↔ j ∈ p1)) as [H|H]; [by rewrite bool_decide_true by by apply Hl|].
  rewrite bool_decide_false; [done|]. by intros ?%Hl.
Qed.

(** ** [makePartition] *)

Definition others (l : nat) (all : list nat) : list nat := filter (λ i, i ≠ l) all.

Lemma deal_spec l rest p1 p2 j :
  (j + length (others l rest) ≤ length (p1 ++ p2))%nat →
  ∃ p1' p2', deal l rest p1 p2 j = Some (p1', p2') ∧ length p1' = length p1 ∧ length p2' = length p2 ∧
    p1' ++ p2' = take j (p1 ++ p2) ++ others l rest ++ drop (j + length (others l rest)) (p1 ++ p2).
Proof.
  revert p1 p2 j. induction rest as [|i rest IH]; intros p1 p2 j Hlen; cbn [deal].
  - exists p1, p2. cbn. by rewrite Nat.add_0_r, take_drop.
  - unfold others in *. destruct (decide (i = l)) as [->|Hne].
    + rewrite filter_cons_False in * by auto. by apply IH.
    + rewrite filter_cons_True in * by done. cbn [length] in Hlen. rewrite length_app in Hlen.
      assert (∀ q1 q2, q1 ++ q2 = <[j := i]> (p1 ++ p2) → length q1 = length p1 → length q2 = length p2 →
        ∃ p1' p2', deal l rest q1 q2 (S j) = Some (p1', p2') ∧ length p1' = length p1 ∧ length p2' = length p2 ∧
          p1' ++ p2' = take j (p1 ++ p2) ++ (i :: filter (λ x, x ≠ l) rest) ++
            drop (j + length (i :: filter (λ x, x ≠ l) rest)) (p1 ++ p2)) as Hstep.
      { intros q1 q2 E E1 E2. destruct (IH q1 q2 (S j)) as (p1' & p2' & Hd & Hl1 & Hl2 & Heq).
        { rewrite length_app. lia. }
        exists p1', p2'. split_and!; [done|congruence|congruence|]. rewrite Heq, E. cbn [length].
        rewrite drop_insert_lt by lia. rewrite (take_S_r _ _ i) by (rewrite list_lookup_insert_eq; [done|rewrite length_app; lia]).
        rewrite take_insert_ge by lia. rewrite <- app_assoc. cbn. by rewrite Nat.add_succ_r. }
      destruct (decide (j < length p1)%nat) as [Hj|Hj].
      * apply Hstep; [by rewrite insert_app_l|by rewrite length_insert|done].
      * rewrite decide_True by lia. apply Hstep; [|done|by rewrite length_insert].
        by rewrite insert_app_r_alt by lia.
Qed.

Lemma length_others l n : (l < n)%nat → S (length (others l (seq 0 n))) = n.
Proof.
  intros Hl. assert (seq 0 n ≡ₚ l :: others l (seq 0 n)) as Hp.
  { apply NoDup_Permutation; [apply NoDup_seq| |].
    - constructor; [|apply NoDup_filter, NoDup_seq]. by intros [? _]%list_elem_of_filter.
    - intros x. rewrite elem_of_cons. unfold others. rewrite list_elem_of_filter, !elem_of_seq.
      destruct (decide (x = l)); naive_solver lia. }
  apply Permutation_length in Hp. rewrite length_seq in Hp. cbn in Hp. lia.
Qed.

(** When servers are an odd number, [makePartition] splits them and puts the
    leader it found into the smaller group.  When they are an even number,
    server 0 is in the second group as well. *)
Theorem make_partition is_leader cfg b l :
  (2 ≤ cfg_n cfg)%nat → Leader is_leader cfg = Some (b, l) → (l < cfg_n cfg)%nat →
  ∃ p1 p2, makePartition is_leader cfg = Some (p1, p2) ∧ length p1 = S (length p2) ∧ last p2 = Some l ∧
    p1 ++ p2 = others l (All cfg) ++ (if Nat.even (cfg_n cfg) then [0%nat] else []) ++ [l].
Proof.
  intros Hn Hl Hlt. unfold makePartition. rewrite Hl. cbn [mbind option_bind].
  set (n := cfg_n cfg) in *. set (k := (n `div` 2)%nat).
  assert (n = 2 * k + (if Nat.even n then 0 else 1))%nat as Hk.
  { pose proof (Nat.div_mod_eq n 2) as Hdm. pose proof (Nat.bit0_mod n) as Hb.
    rewrite Nat.bit0_odd, <- Nat.negb_even in Hb. rewrite <- Hb in Hdm. unfold k. by destruct (Nat.even n). }
  pose proof (length_others l n Hlt) as Hlo. change (All cfg) with (seq 0 n).
  destruct (deal_spec l (seq 0 n) (replicate (k + 1) 0%nat) (replicate k 0%nat) 0) as (p1 & p2 & -> & H1 & H2 & E).
  { rewrite length_app, !length_replicate. destruct (Nat.even n); lia. }
  rewrite length_replicate in H1, H2. cbn [mbind option_bind]. rewrite H2. destruct k as [|k']; [destruct (Nat.even n); lia|].
  exists p1, (<[k' := l]> p2). split; [done|]. rewrite length_insert. split; [lia|].
  assert (k' < length p2)%nat as Hk' by lia.
  assert (<[k' := l]> p2 = take k' p2 ++ [l]) as Ep2.
  { rewrite <- (take_drop k' (<[k' := l]> p2)), take_insert_ge by lia. f_equal.
    rewrite (drop_S _ l) by (by apply list_lookup_insert_eq). f_equal. apply drop_ge. rewrite length_insert. lia. }
  split; [by rewrite Ep2, last_snoc|]. rewrite Ep2, app_assoc.
  assert (p1 ++ take k' p2 = take (length (p1 ++ take k' p2)) (p1 ++ p2)) as ->.
  { rewrite <- (take_drop k' p2) at 3. by rewrite app_assoc, take_app_length. }
  rewrite E, take_0, app_nil_l. rewrite length_app, length_take, <- replicate_add, drop_replicate.
  rewrite (Nat.min_l k') by lia. rewrite (app_assoc _ _ [l]). f_equal. rewrite take_app_ge by (destruct (Nat.even n); lia). f_equal.
  rewrite take_replicate. destruct (Nat.even n).
  - replace (Nat.min _ _) with 1%nat by lia. done.
  - replace (Nat.min _ _) with 0%nat by lia. done.
Qed.
End config.

(** ** A run

    Three servers start; a clerk is connected to all; another one is connected
    to server 1 and deleted; server 1 is shut down, started again and
    connected. *)
Definition row (a : string) : list string := [a +:+ "0"; a +:+ "1"; a +:+ "2"].
Definition three_starts : list (list string * nat) := [(row "a", 0%nat); (row "b", 1%nat); (row "c", 2%nat)].
Definition some_acts : list Act :=
  [AClient 7 (row "k") [0; 1; 2]; AClient 8 (row "m") [1]; ADelete 8; AShutdown 1; AStart 1 (row "d") 5; AConnect 1 [0; 1; 2]]%nat.

Definition first_config : config := default (start_config 3 MakeNetwork) (makeConfig true three_starts 3 MakeNetwork).
Definition later_config : config * Links :=
  default (first_config, all_linked 3) (do_acts some_acts first_config (all_linked 3)).

Lemma is_default {A} (d : A) (o : option A) : bool_decide (is_Some o) = true → o = Some (default d o).
Proof. by destruct o. Qed.

Lemma first_config_made : makeConfig true three_starts 3 MakeNetwork = Some first_config.
Proof. apply is_default. vm_compute. reflexivity. Qed.
Lemma later_config_made : do_acts some_acts first_config (all_linked 3) = Some (later_config.1, later_config.2).
Proof. rewrite <- surjective_pairing. apply is_default. vm_compute. reflexivity. Qed.
Lemma three_rows s : s ∈ three_starts → (3 ≤ length s.1)%nat.
Proof. intros [->|[->|[->|[]%elem_of_nil]%elem_of_cons]%elem_of_cons]%elem_of_cons; vm_compute; lia. Qed.

(** The end of the deleted clerk leads to the new server 1; the end that the
    old server 1 had leads nowhere. *)
Lemma kv_delivery_exact_witness :
  target (readEndnameInfo (IString "k1") (cfg_net later_config.1)) = Some 5%nat ∧
  target (readEndnameInfo (IString "m1") (cfg_net later_config.1)) = Some 5%nat ∧
  ¬ ∃ j, leads_to later_config.1 later_config.2 "b0" j ∧
    map_get None (servers (cfg_net later_config.1)) (IInt (Z.of_nat j)) = Some 0%nat.
Proof.
  pose proof (λ nm p, kv_delivery_exact true three_starts 3 first_config some_acts later_config.1 later_config.2 nm p
    eq_refl three_rows first_config_made later_config_made) as H.
  split; [|split].
  - apply H. exists 1%nat. split; [|vm_compute; reflexivity]. left. exists (inr 7%nat). split; [vm_compute; reflexivity|].
    apply (bool_decide_unpack _). vm_compute. exact I.
  - apply H. exists 1%nat. split; [|vm_compute; reflexivity]. right.
    apply (bool_decide_unpack _). vm_compute. exact I.
  - intros Hb%H. vm_compute in Hb. discriminate.
Defined.

Lemma partition_exact_witness :
  ∃ cfg' nm nm', partition [0; 1]%nat [2]%nat later_config.1 = Some cfg' ∧
    endName cfg' 0 1 = Some nm ∧ target (readEndnameInfo (IString nm) (cfg_net cfg')) = Some 5%nat ∧
    endName cfg' 1 2 = Some nm' ∧ target (readEndnameInfo (IString nm') (cfg_net cfg')) = None.
Proof.
  destruct (partition_exact true three_starts 3 first_config some_acts later_config.1 later_config.2 [0; 1]%nat [2]%nat
    eq_refl three_rows first_config_made later_config_made) as (cfg' & Hp & H).
  - apply (bool_decide_unpack _). vm_compute. exact I.
  - apply (bool_decide_unpack _). vm_compute. exact I.
  - assert (0 ∈ [0; 1; 2])%nat as H0 by (apply (bool_decide_unpack _); vm_compute; exact I).
    assert (1 ∈ [0; 1; 2])%nat as H1 by (apply (bool_decide_unpack _); vm_compute; exact I).
    assert (2 ∈ [0; 1; 2])%nat as H2 by (apply (bool_decide_unpack _); vm_compute; exact I).
    destruct (H 0%nat 1%nat H0 H1) as (nm & Hn & Ht). destruct (H 1%nat 2%nat H1 H2) as (nm' & Hn' & Ht').
    exists cfg', nm, nm'. split; [exact Hp|]. split; [exact Hn|]. split; [rewrite Ht; vm_compute; reflexivity|].
    split; [exact Hn'|]. rewrite Ht'. vm_compute. reflexivity.
Defined.

(** With four servers and the leader 1, server 0 is in both groups. *)
Definition four_servers : config := mkConfig MakeNetwork 4 (replicate 4 true) (replicate 4 None) ∅ 1004.
Example partition_of_four : makePartition (Nat.eqb 1) four_servers = Some ([0; 2; 3]%nat, [0; 1]%nat).
Proof. reflexivity. Qed.
