(* ===== verification/RaftTester.v ===== *)
(** * The tester of Raft: what it checks

    [raft/config.go] reads the apply channel of every peer, keeps a copy of
    what each has committed and checks every message against the copies of all
    peers ([checkLogs], [applier]); [nCommitted] and [checkOneLeader] look at
    these copies and at the peers from the tests.  A failed check is fatal:
    here it is [None].  [TestSystem] runs the peers, the goroutines that send
    batches and the tester together, also the instances that were shut down
    and still have something to deliver.  It is for the tests without
    snapshots. *)
From stdpp Require Import base tactics strings numbers relations sets gmap list.
From S2P Require Import Prelude.
From S2P Require Import Labgob.
From S2P Require Import Persister.
From S2P Require Import Raft.
From S2P Require Import RaftFacts.
From S2P Require Import RaftApply.
From S2P Require Import RaftSpec.
From S2P Require Import RaftCluster.
From S2P Require Import RaftCommands.
From S2P Require Import RaftRefine.
From S2P Require Import RaftSafety.
From S2P Require Import RaftLog.
Open Scope Z_scope.
Open Scope go_scope.

#[export] Instance any_eq_dec {Op} `{EqDecision Op} : EqDecision (any Op).
Proof. solve_decision. Defined.

Section tester.
Context {Op SV : Type} `{!EqDecision Op}.
Implicit Types (m : ApplyMsg Op SV) (rf : Raft Op SV) (v : any Op).

(** ** The checks *)

(** A copy for each peer of what it has committed, and the largest index seen. *)
Record Tester := mkTester { t_logs : list (gmap Z (any Op)); t_maxIndex : Z }.

#[export] Instance Tester_eta : RecordEta Tester := λ t, mkTester (t_logs t) (t_maxIndex t).

(** A server whose copy has another value at the index. *)
Definition disagrees (index : Z) v (jl : nat * gmap Z (any Op)) : option (nat * any Op) :=
  old ← jl.2 !! index; if decide (old = v) then None else Some (jl.1, old).

(** The error names the last such server; the flag says whether the peer has
    the index before this one. *)
Definition checkLogs (i : nat) m (t : Tester) : Tester * option (nat * any Op) * bool :=
  let v := Command m in
  let err_msg := last (omap (disagrees (CommandIndex m) v) (imap pair (t_logs t))) in
  let prevok := bool_decide (is_Some (log ← t_logs t !! i; log !! (CommandIndex m - 1))) in
  let t := t <| t_logs ::= alter <[CommandIndex m := v]> i |> in
  let t := if t_maxIndex t <? CommandIndex m then t <| t_maxIndex := CommandIndex m |> else t in
  (t, err_msg, prevok).

(** One turn of the loop of [applier]. *)
Definition applier_message (i : nat) m (t : Tester) : option Tester :=
  if negb (CommandValid m) then Some t
  else
    let '(t, err_msg, prevok) := checkLogs i m t in
    if (1 <? CommandIndex m) && negb prevok then None
    else match err_msg with Some _ => None | None => Some t end.

(** [nCommitted] on what it reads from the copy of each peer, one after the
    other. *)
Fixpoint nCommitted_loop (reads : list (option (any Op))) (count : Z) (cmd : option (any Op)) :
    option (Z * option (any Op)) :=
  match reads with
  | [] => Some (count, cmd)
  | None :: reads => nCommitted_loop reads count cmd
  | Some cmd1 :: reads =>
      if (0 <? count) && negb (bool_decide (cmd = Some cmd1)) then None
      else nCommitted_loop reads (count + 1) (Some cmd1)
  end.
Definition nCommitted (reads : list (option (any Op))) : option (Z * option (any Op)) :=
  nCommitted_loop reads 0 None.

(** One turn of [checkOneLeader], on what [GetState] answered for the peers
    that are connected: [None] when a term has two leaders, otherwise the
    leader of the last term that has one. *)
Definition add_leader (leaders : gmap Z (list Z)) (ts : Z * (Z * bool)) : gmap Z (list Z) :=
  let '(i, (term, leader)) := ts in
  if leader : bool then <[term := map_get [] leaders term ++ [i]]> leaders else leaders.

Definition checkOneLeader_turn (states : list (Z * (Z * bool))) : option (option Z) :=
  let leaders := foldl add_leader ∅ states in
  if bool_decide (map_Forall (λ _ l, len l <= 1) leaders) then
    let lastTermWithLeader := foldl Z.max (-1) (map_to_list leaders).*1 in
    Some (if bool_decide (leaders = ∅) then None else head (map_get [] leaders lastTermWithLeader))
  else None.

(** ** The tests *)

(** An instance that was shut down, with the batch its goroutine has in hand. *)
Record Old := mkOld { old_peer : Z; old_raft : Raft Op SV; old_batch : option (Batch Op SV) }.

Record TestSystem := mkTestSystem {
  ts_raft : Cluster (Op:=Op) (SV:=SV);
  ts_sending : gmap Z (Batch Op SV);
  ts_old : list Old;
  ts_checker : Tester
}.

#[export] Instance TestSystem_eta : RecordEta TestSystem := λ s,
  mkTestSystem (ts_raft s) (ts_sending s) (ts_old s) (ts_checker s).

(** What the peers and the tests do apart from delivery: a test submits its
    commands with [Start]. *)
Definition test_label (l : Label (Op:=Op) (SV:=SV)) : bool :=
  match l with LRun _ (StartCommand (AOp _)) => true | _ => peer_label l end.

Section steps.
Context (N : Z).

Inductive ts_step (s : TestSystem) : TestSystem → Prop :=
| ts_peers l c' :
    cl_does N (ts_raft s) l c' → test_label l = true →
    ts_step s (s <| ts_raft := c' |> <| ts_sending ::= hand_over (label_batch l (ts_raft s)) |>)
| ts_apply i m ms k t' :
    ts_sending s !! i = Some (m :: ms, k) → applier_message (Z.to_nat i) m (ts_checker s) = Some t' →
    ts_step s (s <| ts_sending ::= <[i := (ms, k)]> |> <| ts_checker := t' |>)
| ts_resume i k c' :
    ts_sending s !! i = Some ([], k) → cl_does N (ts_raft s) (LRun i (ResumeApply k)) c' →
    ts_step s (s <| ts_raft := c' |>
      <| ts_sending ::= λ b, hand_over (label_batch (LRun i (ResumeApply k)) (ts_raft s)) (delete i b) |>)
| ts_crash i rf c' :
    nodes (ts_raft s) !! i = Some rf → cl_does N (ts_raft s) (LCrash i) c' →
    ts_step s (s <| ts_raft := c' |> <| ts_sending ::= delete i |>
                 <| ts_old ::= cons (mkOld i rf (ts_sending s !! i)) |>)
| ts_old_apply n i rf m ms k t' :
    ts_old s !! n = Some (mkOld i rf (Some (m :: ms, k))) →
    applier_message (Z.to_nat i) m (ts_checker s) = Some t' →
    ts_step s (s <| ts_old ::= <[n := mkOld i rf (Some (ms, k))]> |> <| ts_checker := t' |>)
| ts_old_resume n i rf k :
    ts_old s !! n = Some (mkOld i rf (Some ([], k))) →
    ts_step s (s <| ts_old ::= <[n := mkOld i (apply_resume k rf).1 (apply_resume k rf).2]> |>).

(** [makeConfig]: the peers have started and the copies are empty. *)
Definition ts_init : TestSystem :=
  mkTestSystem (cl_init N) ∅ [] (mkTester (replicate (Z.to_nat N) ∅) 0).

End steps.

(** ** The copies follow the log *)

(** The copy holds the first entries of the list. *)
Definition copies (L : list Op) (log : gmap Z (any Op)) : Prop :=
  (size log ≤ length L)%nat ∧
  ∀ k, log !! k = if decide (0 < k ≤ Z.of_nat (size log)) then AOp <$> L !! Z.to_nat (k - 1) else None.

Lemma copies_prefix L L' log : L `prefix_of` L' → copies L log → copies L' log.
Proof.
  intros HL [Hs Hk]. split; [apply prefix_length in HL; lia|]. intros k. rewrite Hk. case_decide; [|done].
  destruct (lookup_lt_is_Some_2 L (Z.to_nat (k - 1))) as [op Hop]; [lia|].
  by rewrite Hop, (prefix_lookup_Some _ _ _ _ Hop HL).
Qed.

(** A message of the list at or just after the end of the copy. *)
Lemma copies_insert L log m :
  copies L log → in_log L m → CommandIndex m ≤ Z.of_nat (size log) + 1 →
  copies L (<[CommandIndex m := Command m]> log) ∧ (size log ≤ size (<[CommandIndex m := Command m]> log))%nat ∧
  CommandIndex m ≤ Z.of_nat (size (<[CommandIndex m := Command m]> log)) ∧
  (log !! CommandIndex m = None ∨ log !! CommandIndex m = Some (Command m)).
Proof.
  intros [Hs Hk] (op & Hop & Hpos & HL) Hle. set (k := CommandIndex m) in *.
  pose proof (lookup_lt_Some _ _ _ HL) as Hlt. destruct (decide (k ≤ Z.of_nat (size log))) as [Hin|Hout].
  - assert (log !! k = Some (Command m)) as Hlog by (rewrite Hk, decide_True, HL, Hop by lia; done).
    rewrite insert_id by done. split_and!; [done|done|done|by right].
  - assert (log !! k = None) as Hnone by (rewrite Hk, decide_False by lia; done).
    assert (size (<[k := Command m]> log) = S (size log)) as Hsize by (by rewrite map_size_insert_None).
    rewrite Hsize. split_and!; [|lia|lia|by left]. split; [rewrite Hsize; lia|]. intros k'. rewrite Hsize.
    destruct (decide (k' = k)) as [->|Hne].
    + rewrite lookup_insert_eq, decide_True, HL, Hop by lia. done.
    + rewrite lookup_insert_ne, Hk by done. case_decide; [by rewrite decide_True by lia|by rewrite decide_False by lia].
Qed.

Lemma copies_agree L log m v :
  copies L log → in_log L m → log !! CommandIndex m = Some v → v = Command m.
Proof.
  intros [Hs Hk] (op & Hop & Hpos & HL). rewrite Hk. case_decide; [|done]. rewrite HL. cbn. intros [= <-]. done.
Qed.

(** ** The invariant *)

(** The instance of peer [i] has sent what the copy of [i] holds. *)
Definition instance_ok (L : list Op) (t : Tester) (i : Z) rf (b : option (Batch Op SV)) : Prop :=
  covers L rf ∧ ∃ log ms, t_logs t !! Z.to_nat i = Some log ∧ sends L rf b ms ∧ (length ms ≤ size log)%nat.

Record tester_inv (N : Z) (L : list Op) (s : TestSystem) : Prop := {
  ti_shares : shares N (λ _, True) (ts_raft s) L;
  ti_length : length (t_logs (ts_checker s)) = Z.to_nat N;
  ti_copies : Forall (copies L) (t_logs (ts_checker s));
  ti_live i rf : nodes (ts_raft s) !! i = Some rf → instance_ok L (ts_checker s) i rf (ts_sending s !! i);
  ti_old : Forall (λ o, instance_ok L (ts_checker s) (old_peer o) (old_raft o) (old_batch o)) (ts_old s);
  ti_senders i b : ts_sending s !! i = Some b → is_Some (nodes (ts_raft s) !! i)
}.

Lemma next_message L t i rf m ms k :
  Forall (copies L) (t_logs t) → instance_ok L t i rf (Some (m :: ms, k)) →
  ∃ log, t_logs t !! Z.to_nat i = Some log ∧ copies L log ∧ CommandValid m = true ∧ in_log L m ∧
    CommandIndex m ≤ Z.of_nat (size log) + 1.
Proof.
  intros Hc (_ & log & ms' & Hlog & (Hpl & _ & [Hm _]%Forall_cons) & Hle). exists log.
  destruct (pi_batch _ _ Hpl) as (_ & _ & _ & Hcon). cbn in Hcon. destruct Hcon as (Hv & Hi & _).
  split_and!; [done|by eapply Forall_lookup_1|done|done|]. rewrite Hi. unfold len. lia.
Qed.

Lemma nobody_disagrees L logs m :
  Forall (copies L) logs → in_log L m → omap (disagrees (CommandIndex m) (Command m)) (imap pair logs) = [].
Proof.
  intros Hc Hm. apply omap_nil. intros [j log] Hj%elem_of_imap_pair. unfold disagrees. cbn.
  destruct (log !! CommandIndex m) as [old|] eqn:E; cbn; [|done].
  by rewrite (decide_True _ _ (copies_agree L log m old (Forall_lookup_1 _ _ _ _ Hc Hj) Hm E)).
Qed.

(** No check fails on the next message, which enters the copy. *)
Lemma applier_message_ok L t i m log :
  Forall (copies L) (t_logs t) → t_logs t !! i = Some log → CommandValid m = true → in_log L m →
  CommandIndex m ≤ Z.of_nat (size log) + 1 →
  ∃ t', applier_message i m t = Some t' ∧ t_logs t' = <[i := <[CommandIndex m := Command m]> log]> (t_logs t).
Proof.
  intros Hc Hi Hv Hm Hle. unfold applier_message. rewrite Hv. cbn. rewrite (nobody_disagrees L) by done. cbn.
  replace ((1 <? CommandIndex m) && _) with false.
  - eexists. split; [done|]. case_if; cbn; by apply alter_at.
  - symmetry. apply andb_false_iff. rewrite Hi. cbn. destruct (decide (1 < CommandIndex m)) as [Hgt|]; [right|left; lia].
    apply negb_false_iff, bool_decide_eq_true. destruct (Forall_lookup_1 _ _ _ _ Hc Hi) as [Hs Hk]. rewrite Hk.
    rewrite decide_True by lia. apply fmap_is_Some, lookup_lt_is_Some. lia.
Qed.

Lemma instance_ok_prefix L L' t i rf b : L `prefix_of` L' → instance_ok L t i rf b → instance_ok L' t i rf b.
Proof.
  intros HL (Hcov & log & ms & ? & ? & ?). split; [by eapply covers_prefix|]. exists log, ms.
  split_and!; [done|by eapply sends_prefix|done].
Qed.

(** The other instances do not mind. *)
Lemma instance_ok_delivered L t t' i m log j rf b :
  t_logs t !! i = Some log → (size log ≤ size (<[CommandIndex m := Command m]> log))%nat →
  t_logs t' = <[i := <[CommandIndex m := Command m]> log]> (t_logs t) →
  instance_ok L t j rf b → instance_ok L t' j rf b.
Proof.
  intros Hi Hs Ht (Hcov & log' & ms & Hj & Hsend & Hle). split; [done|].
  destruct (decide (i = Z.to_nat j)) as [->|Hne].
  - rewrite Hi in Hj. injection Hj as <-. eexists _, ms. rewrite Ht, list_lookup_insert_eq by by eapply lookup_lt_Some.
    split_and!; [done|done|lia].
  - exists log', ms. by rewrite Ht, list_lookup_insert_ne.
Qed.

Lemma delivered_inv N L s i rf m ms k :
  tester_inv N L s → instance_ok L (ts_checker s) i rf (Some (m :: ms, k)) →
  ∃ t', applier_message (Z.to_nat i) m (ts_checker s) = Some t' ∧ Forall (copies L) (t_logs t') ∧
    length (t_logs t') = Z.to_nat N ∧ instance_ok L t' i rf (Some (ms, k)) ∧
    ∀ j rf' b, instance_ok L (ts_checker s) j rf' b → instance_ok L t' j rf' b.
Proof.
  intros [Hsh Hlen Hc Hlive Hold Hsnd] Hin. destruct (next_message _ _ _ _ _ _ _ Hc Hin) as (log & Hi & Hcl & Hv & Hm & Hle).
  destruct (applier_message_ok _ _ _ _ _ Hc Hi Hv Hm Hle) as (t' & Ht' & Hl').
  destruct (copies_insert _ _ _ Hcl Hm Hle) as (Hcl' & Hs1 & Hs2 & _). exists t'. split; [done|]. rewrite Hl'.
  split; [by apply Forall_insert|]. split; [by rewrite length_insert|]. split; [|intros; by eapply instance_ok_delivered].
  destruct Hin as (Hcov & log' & ms' & Hi' & Hsend & Hle'). rewrite Hi in Hi'. injection Hi' as <-. split; [done|].
  eexists _, (ms' ++ [m]). rewrite Hl', list_lookup_insert_eq by by eapply lookup_lt_Some.
  split_and!; [done|by apply sends_message|]. rewrite length_app. cbn.
  destruct Hsend as (Hpl & _). destruct (pi_batch _ _ Hpl) as (_ & _ & _ & Hcon). cbn in Hcon.
  destruct Hcon as (_ & Hidx & _). unfold len in *. lia.
Qed.

(** ** Every step keeps it *)

Section inv.
Context (N : Z) (HN : 0 ≤ N).
Implicit Types (s : TestSystem) (c : Cluster (Op:=Op) (SV:=SV)).

Lemma cl_inv_of L s : tester_inv N L s → cl_inv N (ts_raft s).
Proof. intros H. by destruct (ti_shares _ _ _ H) as (_ & _ & _ & A & G & t & (? & _) & _). Qed.

Lemma peers_move L s l c' :
  tester_inv N L s → cl_does N (ts_raft s) l c' → snapshot_free l = true →
  (∀ command, label_command l = Some command → ∃ op, command = AOp op ∧ True) →
  ∃ L', L `prefix_of` L' ∧ shares N (λ _, True) c' L' ∧ Forall (copies L') (t_logs (ts_checker s)) ∧
    (∀ i rf, nodes (ts_raft s) !! i = Some rf → instance_ok L' (ts_checker s) i rf (ts_sending s !! i)) ∧
    Forall (λ o, instance_ok L' (ts_checker s) (old_peer o) (old_raft o) (old_batch o)) (ts_old s).
Proof.
  intros [Hsh Hlen Hc Hlive Hold Hsnd] Hdo Hf Hl.
  destruct (shares_step N HN _ (λ _, True) _ _ _ _ Hdo Hf (λ _ H, H) Hl Hsh) as (L' & HL & Hsh').
  exists L'. split_and!; [done|done| | |].
  - eapply Forall_impl; [exact Hc|]. intros log. by apply copies_prefix.
  - intros i rf Hi. eapply instance_ok_prefix; [done|by apply Hlive].
  - eapply Forall_impl; [exact Hold|]. intros o. by apply instance_ok_prefix.
Qed.

(** A critical section of a peer, with the batch it may leave. *)
Lemma instance_section L t i sec rf rf' b :
  instance_ok L t i rf b → rf' = run_section sec rf → covers L rf' → is_resume sec = false →
  (∀ n, local_section n sec) ∨
    (∃ args, sec = HandleSnapshot args ∧ isa_LastIncludedIndex args ≤ lastIncludedIndex rf) →
  (∀ msgs k, section_batch sec rf = Some (msgs, k) → Forall (in_log L) msgs) →
  instance_ok L t i rf' (match section_batch sec rf with Some b' => Some b' | None => b end).
Proof.
  intros (_ & log & ms & Hi & Hs & Hle) -> Hcov Hr Hsec Hb. split; [done|]. exists log, ms.
  split_and!; [done|by apply sends_section|done].
Qed.


(** Peers stay, and only peers send. *)
Lemma nodes_stay c l c' i : cl_does N c l c' → is_Some (nodes c !! i) → is_Some (nodes c' !! i).
Proof.
  intros Hdo Hi. pose proof (cl_does_nodes N _ _ _ Hdo) as Hns. destruct l as [|j sec|j].
  - by rewrite Hns.
  - destruct Hns as (rf & _ & _ & ->). destruct (decide (j = i)) as [->|]; [by rewrite lookup_insert_eq|by rewrite lookup_insert_ne].
  - destruct Hns as (rf & _ & ->). destruct (decide (j = i)) as [->|]; [by rewrite lookup_insert_eq|by rewrite lookup_insert_ne].
Qed.

Lemma senders_stay c l c' (m : gmap Z (Batch Op SV)) i b :
  cl_does N c l c' → (∀ i b, m !! i = Some b → is_Some (nodes c !! i)) →
  hand_over (label_batch l c) m !! i = Some b → is_Some (nodes c' !! i).
Proof.
  intros Hdo Hm Hb. eapply nodes_stay; [done|]. destruct l as [|j sec|j]; cbn in Hb; [by eapply Hm| |by eapply Hm].
  destruct (nodes c !! j) as [rf|] eqn:Hj; cbn in Hb; [|by eapply Hm].
  destruct (section_batch sec rf) as [b'|]; cbn in Hb; [|by eapply Hm].
  apply lookup_insert_Some in Hb as [[<- _]|[_ Hb]]; [by eexists|by eapply Hm].
Qed.

Lemma peers_step_inv L s l c' :
  tester_inv N L s → cl_does N (ts_raft s) l c' → test_label l = true →
  ∃ L', L `prefix_of` L' ∧ tester_inv N L' (s <| ts_raft := c' |> <| ts_sending ::= hand_over (label_batch l (ts_raft s)) |>).
Proof.
  intros Hinv Hdo Hp.
  destruct (peers_move L s l c' Hinv Hdo) as (L' & HL & Hsh & Hc & Hlive & Hold).
  { destruct l as [|i sec|]; try done. by destruct sec. }
  { intros command Hcmd. destruct l as [|i sec|]; try done. destruct sec; try done.
    injection Hcmd as ->. destruct command; [done|eauto]. }
  exists L'. split; [done|]. split; cbn -[label_batch]; [done|apply Hinv|done| |done|]; cycle 1.
  { intros i b. eapply senders_stay; [done|apply Hinv]. }
  pose proof (cl_does_nodes N _ _ _ Hdo) as Hns. destruct l as [|j sec|]; [| |done].
  - intros i rf. rewrite Hns. apply Hlive.
  - destruct Hns as (rf0 & Hj & _ & Hns).
    destruct (label_batch_run j sec rf0 (ts_raft s) (ts_sending s) Hj) as [Hb Hbne].
    intros i rf Hi. pose proof Hi as Hi'. rewrite Hns in Hi'.
    apply lookup_insert_Some in Hi' as [[<- <-]|[Hne Hi']]; [|rewrite Hbne by done; by apply Hlive].
    rewrite Hb. eapply instance_section; [by apply Hlive|done|by eapply shares_covers|by destruct sec| |].
    + destruct sec; try discriminate Hp; try (by left). right. eexists. split; [done|].
      eapply uncompacted_snapshot; [exact Hdo|apply (ti_shares _ _ _ Hinv)|done].
    + intros msgs k Hm. eapply batch_in_log; [exact Hdo|by eapply cl_inv_of|done|exact Hsh|exact Hm].
Qed.

Lemma covers_resume L rf k : covers L rf → covers L (apply_resume k rf).1.
Proof. destruct (apply_resume_state k rf) as (b & la & -> & _). done. Qed.

Lemma resume_in_log L rf k ms msgs k' :
  sends L rf (Some ([], k)) ms → covers L rf →
  section_batch (ResumeApply k) rf = Some (msgs, k') → Forall (in_log L) msgs.
Proof.
  intros (Hpl & _) Hcov Hb. destruct (pi_batch _ _ Hpl) as (_ & _ & Hk & _). cbn in Hk.
  destruct (batch_collected (ResumeApply k) rf _ (pi_wf _ _ Hpl) Hk Hb) as [Hwf Hcol].
  eapply collected_in_log; [done|by apply covers_resume|done].
Qed.

(** The goroutine of an instance has sent its batch. *)
Lemma instance_resume L L' t i rf k :
  instance_ok L t i rf (Some ([], k)) → L `prefix_of` L' → covers L' (run_section (ResumeApply k) rf) →
  instance_ok L' t i (run_section (ResumeApply k) rf) (section_batch (ResumeApply k) rf).
Proof.
  intros Hin HL Hcov. destruct (instance_ok_prefix _ _ _ _ _ _ HL Hin) as (Hcov0 & log & ms & Hi & Hs & Hle).
  split; [done|]. exists log, ms. split_and!; [done| |done].
  apply sends_resume; [done|]. intros msgs k'. by apply (resume_in_log L' rf k ms).
Qed.

Lemma resume_step_inv L s i k c' :
  tester_inv N L s → ts_sending s !! i = Some ([], k) → cl_does N (ts_raft s) (LRun i (ResumeApply k)) c' →
  ∃ L', L `prefix_of` L' ∧ tester_inv N L' (s <| ts_raft := c' |>
    <| ts_sending ::= λ b, hand_over (label_batch (LRun i (ResumeApply k)) (ts_raft s)) (delete i b) |>).
Proof.
  intros Hinv Hs Hdo. destruct (peers_move L s _ c' Hinv Hdo eq_refl) as (L' & HL & Hsh & Hc & Hlive & Hold); [done|].
  exists L'. split; [done|]. split; cbn -[label_batch]; [done|apply Hinv|done| |done|]; cycle 1.
  { intros j b. eapply senders_stay; [done|]. intros ? ? [_ ?]%lookup_delete_Some. by eapply Hinv. }
  destruct (cl_does_nodes N _ _ _ Hdo) as (rf0 & Hj & _ & Hns).
  destruct (label_batch_run i (ResumeApply k) rf0 (ts_raft s) (delete i (ts_sending s)) Hj) as [Hb Hbne].
  intros j rf Hjn. pose proof Hjn as Hjn'. rewrite Hns in Hjn'.
  apply lookup_insert_Some in Hjn' as [[<- <-]|[Hne Hi]].
  - rewrite Hb, lookup_delete_eq.
    replace (match section_batch _ rf0 with Some b => Some b | None => None end)
      with (section_batch (ResumeApply k) rf0) by (by destruct (section_batch _ rf0)).
    assert (∀ b, ts_sending s !! i = b → instance_ok L (ts_checker s) i rf0 b) as Hok by (intros b <-; by apply (ti_live _ _ _ Hinv)).
    eapply instance_resume; [exact (Hok _ Hs)|done|by eapply shares_covers].
  - rewrite Hbne, lookup_delete_ne by done. by apply Hlive.
Qed.

Lemma crash_step_inv L s i rf c' :
  tester_inv N L s → nodes (ts_raft s) !! i = Some rf → cl_does N (ts_raft s) (LCrash i) c' →
  ∃ L', L `prefix_of` L' ∧ tester_inv N L' (s <| ts_raft := c' |> <| ts_sending ::= delete i |>
    <| ts_old ::= cons (mkOld i rf (ts_sending s !! i)) |>).
Proof.
  intros Hinv Hi Hdo. destruct (peers_move L s _ c' Hinv Hdo eq_refl) as (L' & HL & Hsh & Hc & Hlive & Hold); [done|].
  exists L'. split; [done|]. split; cbn; [done|apply Hinv|done| | |].
  - destruct (cl_does_nodes N _ _ _ Hdo) as (rf0 & Hj & Hns). simplify_eq.
    destruct (ni_node _ _ _ _ (ci_node _ _ (cl_inv_of _ _ Hinv)) _ _ Hi) as (Hwf & Hd & Hp & Hm & _).
    intros j rf' Hjn. pose proof Hjn as Hjn'. rewrite Hns in Hjn'.
    apply lookup_insert_Some in Hjn' as [[<- <-]|[Hne Hj']]; [|rewrite lookup_delete_ne by done; by apply Hlive].
    rewrite lookup_delete_eq. split; [by eapply shares_covers|].
    destruct (Hlive _ _ Hi) as (_ & log & ms & Hlog & _). exists log, []. split_and!; [done| |cbn; lia].
    assert (Make N i (persister rf) = restart rf) as Hmk by (unfold restart; by rewrite Hp, Hm).
    rewrite <- Hmk. apply sends_start; rewrite Hmk; [by apply restart_wf|].
    destruct Hsh as (Hu & _). by eapply (uc_nodes _ Hu i).
  - constructor; [by apply Hlive|done].
  - intros j b [_ Hj]%lookup_delete_Some. eapply nodes_stay; [done|]. by eapply Hinv.
Qed.

Lemma old_resume_inv L s n i rf k :
  tester_inv N L s → ts_old s !! n = Some (mkOld i rf (Some ([], k))) →
  tester_inv N L (s <| ts_old ::= <[n := mkOld i (apply_resume k rf).1 (apply_resume k rf).2]> |>).
Proof.
  intros [Hsh Hlen Hc Hlive Hold Hsnd] Hn. split; cbn; try done. apply Forall_insert; [done|].
  pose proof (Forall_lookup_1 _ _ _ _ Hold Hn) as Hok. cbn in *.
  eapply (instance_resume L L); [exact Hok|done|]. apply covers_resume, Hok.
Qed.

Lemma live_message_inv L s i m ms k t' :
  tester_inv N L s → ts_sending s !! i = Some (m :: ms, k) →
  applier_message (Z.to_nat i) m (ts_checker s) = Some t' →
  tester_inv N L (s <| ts_sending ::= <[i := (ms, k)]> |> <| ts_checker := t' |>).
Proof.
  intros Hinv Hs Ht. destruct (ti_senders _ _ _ Hinv _ _ Hs) as [rf Hi].
  assert (∀ b, ts_sending s !! i = b → instance_ok L (ts_checker s) i rf b) as Hok by (intros b <-; by apply (ti_live _ _ _ Hinv)).
  destruct (delivered_inv _ _ _ _ _ _ _ _ Hinv (Hok _ Hs)) as (t1 & Ht1 & Hc & Hl & Hi' & Hmore). simplify_eq.
  destruct Hinv as [Hsh Hlen Hc0 Hlive Hold Hsnd]. split; cbn; try done.
  - intros j rf' Hj. destruct (decide (i = j)) as [<-|Hne].
    + rewrite lookup_insert_eq. by simplify_eq.
    + rewrite lookup_insert_ne by done. by apply Hmore, Hlive.
  - eapply Forall_impl; [exact Hold|]. intros o. apply Hmore.
  - intros j b [[<- _]|[_ ?]]%lookup_insert_Some; [done|by eapply Hsnd].
Qed.

Lemma old_message_inv L s n i rf m ms k t' :
  tester_inv N L s → ts_old s !! n = Some (mkOld i rf (Some (m :: ms, k))) →
  applier_message (Z.to_nat i) m (ts_checker s) = Some t' →
  tester_inv N L (s <| ts_old ::= <[n := mkOld i rf (Some (ms, k))]> |> <| ts_checker := t' |>).
Proof.
  intros Hinv Hn Ht. pose proof (Forall_lookup_1 _ _ _ _ (ti_old _ _ _ Hinv) Hn) as Hok. cbn in Hok.
  destruct (delivered_inv _ _ _ _ _ _ _ _ Hinv Hok) as (t1 & Ht1 & Hc & Hl & Hi' & Hmore). simplify_eq.
  destruct Hinv as [Hsh Hlen Hc0 Hlive Hold Hsnd]. split; cbn; try done.
  - intros j rf' Hj. by apply Hmore, Hlive.
  - apply Forall_insert; [|done]. eapply Forall_impl; [exact Hold|]. intros o. apply Hmore.
Qed.

Lemma ts_step_inv L s s' : tester_inv N L s → ts_step N s s' → ∃ L', L `prefix_of` L' ∧ tester_inv N L' s'.
Proof.
  intros Hinv H. destruct H.
  - by apply peers_step_inv.
  - exists L. split; [done|]. by eapply live_message_inv.
  - by apply resume_step_inv.
  - by apply crash_step_inv.
  - exists L. split; [done|]. by eapply old_message_inv.
  - exists L. split; [done|]. by apply old_resume_inv.
Qed.

Lemma ts_steps_inv L s s' : rtc (ts_step N) s s' → tester_inv N L s → ∃ L', L `prefix_of` L' ∧ tester_inv N L' s'.
Proof.
  intros H. revert L. induction H as [|s1 s2 s3 H1 _ IH]; intros L Hinv; [by exists L|].
  destruct (ts_step_inv _ _ _ Hinv H1) as (L1 & HL1 & Hinv1). destruct (IH _ Hinv1) as (L2 & HL2 & Hinv2).
  exists L2. split; [by etrans|done].
Qed.

Lemma ts_init_inv : tester_inv N [] (ts_init N).
Proof.
  split; cbn.
  - by apply cl_init_shares.
  - apply length_replicate.
  - apply Forall_replicate. split; [rewrite map_size_empty; cbn; lia|]. intros k.
    rewrite lookup_empty, map_size_empty, decide_False by lia. done.
  - intros i rf Hi. pose proof (cl_init_shares N HN (λ _ : Op, True) (SV:=SV)) as Hsh.
    assert (cl_inv N (cl_init N (Op:=Op) (SV:=SV))) as Hcl by by destruct Hsh as (_ & _ & _ & A & G & t & (? & _) & _).
    split; [by eapply shares_covers|]. exists ∅, [].
    destruct (ni_node _ _ _ _ (ci_node _ _ Hcl) _ _ Hi) as (Hwf & _).
    destruct Hsh as (Hu & _). destruct (uc_nodes _ Hu _ _ Hi) as [Hl _].
    apply elem_of_list_to_map_2 in Hi. apply list_elem_of_fmap in Hi as (j & [= -> ->] & Hj).
    unfold range in Hj. apply elem_of_seqZ in Hj. split_and!; [apply lookup_replicate; split; [done|lia]|by apply sends_start|cbn; lia].
  - constructor.
  - by intros i b ?%lookup_empty_Some.
Qed.

Lemma ts_reachable_inv s : rtc (ts_step N) (ts_init N) s → ∃ L, tester_inv N L s.
Proof. intros H. destruct (ts_steps_inv _ _ _ H ts_init_inv) as (L & _ & Hinv). by exists L. Qed.

(** ** What the tests check *)

(** C19. No check of the tester fails on a correct run: whatever the network
    does and whichever peers crash, the next message of every peer, also of an
    instance that has been shut down, agrees with the copies of all peers and
    follows on what its own peer has applied. *)
Theorem applier_never_fails s i :
  rtc (ts_step N) (ts_init N) s →
  (∀ m ms k, ts_sending s !! i = Some (m :: ms, k) → is_Some (applier_message (Z.to_nat i) m (ts_checker s))) ∧
  (∀ n rf m ms k, ts_old s !! n = Some (mkOld i rf (Some (m :: ms, k))) →
     is_Some (applier_message (Z.to_nat i) m (ts_checker s))).
Proof.
  intros (L & Hinv)%ts_reachable_inv. split.
  - intros m ms k Hs. destruct (ti_senders _ _ _ Hinv _ _ Hs) as [rf Hi].
    assert (∀ b, ts_sending s !! i = b → instance_ok L (ts_checker s) i rf b) as Hok by (intros b <-; by apply (ti_live _ _ _ Hinv)).
    destruct (delivered_inv _ _ _ _ _ _ _ _ Hinv (Hok _ Hs)) as (t & Ht & _). by exists t.
  - intros n rf m ms k Hn. pose proof (Forall_lookup_1 _ _ _ _ (ti_old _ _ _ Hinv) Hn) as Hok.
    destruct (delivered_inv _ _ _ _ _ _ _ _ Hinv Hok) as (t & Ht & _). by exists t.
Qed.

(** The values that are read at different moments of a run, one for each copy. *)
Definition read_copy (s : TestSystem) (index : Z) (j : nat) : option (any Op) :=
  log ← t_logs (ts_checker s) !! j; log !! index.
Definition reads_during s s' (index : Z) (reads : list (option (any Op))) : Prop :=
  ∀ j r, reads !! j = Some r → ∃ s1, rtc (ts_step N) s s1 ∧ rtc (ts_step N) s1 s' ∧ r = read_copy s1 index j.

(** What a copy has stays. *)
Lemma delivered_reads L t t' i rf m ms k j index v :
  Forall (copies L) (t_logs t) → instance_ok L t i rf (Some (m :: ms, k)) →
  applier_message (Z.to_nat i) m t = Some t' →
  (log ← t_logs t !! j; log !! index) = Some v → (log ← t_logs t' !! j; log !! index) = Some v.
Proof.
  intros Hc Hin Ht Hv. destruct (next_message _ _ _ _ _ _ _ Hc Hin) as (log & Hi & Hcl & Hval & Hm & Hle).
  destruct (applier_message_ok _ _ _ _ _ Hc Hi Hval Hm Hle) as (t1 & Ht1 & Hl). simplify_eq. rewrite Hl.
  destruct (copies_insert _ _ _ Hcl Hm Hle) as (_ & _ & _ & Hor).
  destruct (decide (Z.to_nat i = j)) as [<-|Hne]; [|by rewrite list_lookup_insert_ne].
  rewrite list_lookup_insert_eq by by eapply lookup_lt_Some. rewrite Hi in Hv. cbn in *.
  destruct (decide (CommandIndex m = index)) as [<-|Hne]; [|by rewrite lookup_insert_ne].
  rewrite lookup_insert_eq. destruct Hor as [Hn|Hs]; congruence.
Qed.

Lemma read_stays L s s' index j v :
  tester_inv N L s → ts_step N s s' → read_copy s index j = Some v → read_copy s' index j = Some v.
Proof.
  intros Hinv H Hv. destruct H as [| i m ms k t' Hs Ht| | |n i rf m ms k t' Hn Ht|]; try done; unfold read_copy in *; cbn.
  - destruct (ti_senders _ _ _ Hinv _ _ Hs) as [rf Hi].
    assert (∀ b, ts_sending s !! i = b → instance_ok L (ts_checker s) i rf b) as Hok by (intros b <-; by apply (ti_live _ _ _ Hinv)).
    eapply delivered_reads; [apply Hinv|exact (Hok _ Hs)|done|done].
  - eapply delivered_reads; [apply Hinv|exact (Forall_lookup_1 _ _ _ _ (ti_old _ _ _ Hinv) Hn)|done|done].
Qed.

Lemma reads_stay L s s' index j v :
  tester_inv N L s → rtc (ts_step N) s s' → read_copy s index j = Some v → read_copy s' index j = Some v.
Proof.
  intros Hinv H. revert L Hinv. induction H as [|s1 s2 s3 H1 _ IH]; intros L Hinv Hv; [done|].
  destruct (ts_step_inv _ _ _ Hinv H1) as (L1 & _ & Hinv1). exact (IH _ Hinv1 (read_stays _ _ _ _ _ _ Hinv H1 Hv)).
Qed.

(** All copies have the value of the list. *)
Lemma read_agrees L s index j j' v v' :
  tester_inv N L s → read_copy s index j = Some v → read_copy s index j' = Some v' → v = v'.
Proof.
  intros Hinv Hv Hv'. unfold read_copy in *.
  destruct (t_logs _ !! j) as [log|] eqn:Hj; cbn in Hv; [|done].
  destruct (t_logs _ !! j') as [log'|] eqn:Hj'; cbn in Hv'; [|done].
  destruct (Forall_lookup_1 _ _ _ _ (ti_copies _ _ _ Hinv) Hj) as [_ Hl].
  destruct (Forall_lookup_1 _ _ _ _ (ti_copies _ _ _ Hinv) Hj') as [_ Hl'].
  rewrite Hl in Hv. rewrite Hl' in Hv'. repeat case_decide; congruence.
Qed.

Lemma nCommitted_loop_spec reads v n cmd :
  (∀ r, r ∈ reads → r = None ∨ r = Some v) → 0 ≤ n → (0 < n → cmd = Some v) →
  ∃ k cmd', nCommitted_loop reads n cmd = Some (k, cmd') ∧
    k = n + len (filter is_Some reads) ∧ (0 < k → cmd' = Some v).
Proof.
  revert n cmd. induction reads as [|[cmd1|] reads IH]; intros n cmd Hr Hn Hcmd; cbn [nCommitted_loop].
  - exists n, cmd. split_and!; [done|unfold len; cbn; lia|done].
  - destruct (Hr (Some cmd1) ltac:(left)) as [|[= ->]]; [done|].
    replace ((0 <? n) && negb (bool_decide (cmd = Some v))) with false.
    + destruct (IH (n + 1) (Some v)) as (k & cmd' & -> & -> & Hk); [intros r ?; apply Hr; by right|lia|done|].
      eexists _, cmd'. split; [done|]. split; [|done]. rewrite filter_cons_True by by eexists. rewrite len_cons. lia.
    + destruct (decide (0 < n)) as [Hp|]; [|by rewrite (proj2 (Z.ltb_ge _ _)) by lia].
      rewrite Hcmd by done. by rewrite bool_decide_eq_true_2, andb_false_r.
  - destruct (IH n cmd) as (k & cmd' & -> & -> & Hk); [intros r ?; apply Hr; by right|done|done|].
    eexists _, cmd'. split; [done|]. split; [|done]. by rewrite filter_cons_False by by intros [? ?].
Qed.

(** [nCommitted] never finds two values at one index, although it reads
    the copies one after the other while the peers go on: it returns how many
    peers have the index, and their value. *)
Theorem nCommitted_agrees s s' index reads :
  rtc (ts_step N) (ts_init N) s → rtc (ts_step N) s s' → reads_during s s' index reads →
  ∃ count cmd, nCommitted reads = Some (count, cmd) ∧ count = len (filter is_Some reads) ∧
    ∀ v, Some v ∈ reads → cmd = Some v.
Proof.
  intros Hs Hss Hreads. destruct (ts_reachable_inv s') as (L & Hinv); [by etrans|].
  assert (∀ v, Some v ∈ reads → ∃ j, read_copy s' index j = Some v) as Hlast.
  { intros v [j Hj]%list_elem_of_lookup. destruct (Hreads _ _ Hj) as (s1 & H01 & H1 & Hr). exists j.
    destruct (ts_reachable_inv s1) as (L1 & Hinv1); [by etrans|]. by eapply reads_stay. }
  assert (∃ v, ∀ r, r ∈ reads → r = None ∨ r = Some v) as (v & Hv).
  { destruct (decide (Exists is_Some reads)) as [Hex|Hno].
    - apply Exists_exists in Hex as (? & Hx & [v ->]). exists v. intros [v'|] Hr; [|by left]. right. f_equal.
      destruct (Hlast _ Hx) as (j & Hj), (Hlast _ Hr) as (j' & Hj'). by eapply read_agrees.
    - exists (AString ""). intros [v'|] Hr; [|by left]. destruct Hno. apply Exists_exists. eauto. }
  destruct (nCommitted_loop_spec reads v 0 None Hv) as (k & cmd & Hk & Hcount & Hcmd); [lia|lia|].
  exists k, cmd. split_and!; [done|lia|]. intros v' Hv'. destruct (Hv _ Hv') as [|[= ->]]; [done|]. apply Hcmd.
  rewrite Hcount. destruct (filter is_Some reads) as [|r l] eqn:E; [|rewrite len_cons; pose proof (len_nonneg l); lia].
  assert (Some v ∈ filter is_Some reads) as Hin by (apply list_elem_of_filter; by split; [eexists|]).
  rewrite E in Hin. by apply elem_of_nil in Hin.
Qed.

(** ** [checkOneLeader] *)

(** The peers that said they lead the term, in order. *)
Definition leaders_of (t : Z) (states : list (Z * (Z * bool))) : list Z :=
  omap (λ x : Z * (Z * bool), if x.2.2 && (x.2.1 =? t) then Some x.1 else None) states.
Definition nonempty {A} (l : list A) : option (list A) := match l with [] => None | _ => Some l end.

Lemma elem_of_leaders t states i : i ∈ leaders_of t states ↔ (i, (t, true)) ∈ states.
Proof.
  unfold leaders_of. rewrite list_elem_of_omap. split.
  - intros ([j [t' []]] & Hx & He); cbn in He; [|done]. case_if_in He; [|done]. injection He as ->. by zbool; subst.
  - intros H. eexists. split; [exact H|]. cbn. by rewrite Z.eqb_refl.
Qed.

Lemma add_leaders states ls t :
  (∀ t, ls !! t = nonempty (map_get [] ls t)) →
  foldl add_leader ls states !! t = nonempty (map_get [] ls t ++ leaders_of t states).
Proof.
  revert ls. induction states as [|[i [t' l]] states IH]; intros ls Hm; cbn [foldl].
  - rewrite app_nil_r. apply Hm.
  - destruct l; cbn [add_leader].
    + rewrite IH.
      * unfold map_get at 1. cbn. destruct (t' =? t) eqn:Et; zbool.
        -- subst. rewrite lookup_insert_eq. cbn. by rewrite <- app_assoc.
        -- by rewrite lookup_insert_ne.
      * intros t0. unfold map_get at 2. destruct (decide (t0 = t')) as [->|Hne].
        -- rewrite lookup_insert_eq. cbn. by destruct (map_get [] ls t').
        -- rewrite lookup_insert_ne by done. apply Hm.
    + by rewrite IH.
Qed.

Lemma foldl_max_spec (l : list Z) a : (∀ x, x ∈ l → x ≤ foldl Z.max a l) ∧ a ≤ foldl Z.max a l ∧
  (foldl Z.max a l = a ∨ foldl Z.max a l ∈ l).
Proof.
  revert a. induction l as [|y l IH]; intros a; cbn; [split; [by intros x ?%elem_of_nil|split; [lia|by left]]|].
  destruct (IH (a `max` y)) as (H1 & H2 & H3). split_and!.
  - intros x [->|Hx]%elem_of_cons; [lia|auto].
  - lia.
  - destruct H3 as [->|H3]; [|right; by right]. destruct (Z.max_spec a y) as [[_ ->]|[_ ->]]; [right; by left|by left].
Qed.

Lemma leaders_NoDup t states : NoDup states.*1 → NoDup (leaders_of t states).
Proof.
  intros Hnd. eapply sublist_NoDup; [exact Hnd|]. unfold leaders_of. clear.
  induction states as [|[i [t' l]] states IH]; cbn; [done|]. destruct (l && (t' =? t)); by constructor.
Qed.

Lemma NoDup_equal_len (l : list Z) : NoDup l → (∀ i j, i ∈ l → j ∈ l → i = j) → len l <= 1.
Proof.
  destruct l as [|i [|j l]]; unfold len; cbn; [lia..|]. intros [Hi _]%NoDup_cons Heq. destruct Hi.
  rewrite (Heq i j); [left|left|right; left].
Qed.

(** The turn is decided by who leads what. *)
Lemma checkOneLeader_turn_spec states :
  (∀ i j t, (i, (t, true)) ∈ states → (j, (t, true)) ∈ states → i = j) → NoDup states.*1 →
  (∀ i t, (i, (t, true)) ∈ states → 0 ≤ t) →
  ∃ r, checkOneLeader_turn states = Some r ∧
    match r with
    | None => ∀ i t, (i, (t, true)) ∉ states
    | Some i => ∃ t, (i, (t, true)) ∈ states ∧ ∀ j t', (j, (t', true)) ∈ states → t' ≤ t
    end.
Proof.
  intros Hone Hnd Hpos. unfold checkOneLeader_turn. set (ls := foldl add_leader ∅ states).
  assert (∀ t, ls !! t = nonempty (leaders_of t states)) as Hm.
  { intros t. unfold ls. rewrite add_leaders by done. done. }
  assert (∀ t l, ls !! t = Some l → l = leaders_of t states ∧ l ≠ []) as Hmt.
  { intros t l E. rewrite Hm in E. by destruct (leaders_of t states); simplify_eq/=. }
  rewrite bool_decide_eq_true_2; cycle 1.
  { intros t l [-> _]%Hmt. apply NoDup_equal_len; [by apply leaders_NoDup|].
    intros i j Hi%elem_of_leaders Hj%elem_of_leaders. by eapply Hone. }
  eexists. split; [done|]. case_bool_decide as He.
  - intros i t Hi%elem_of_leaders. specialize (Hm t). rewrite He, lookup_empty in Hm.
    destruct (leaders_of t states); [by apply elem_of_nil in Hi|done].
  - assert (∀ t, t ∈ (map_to_list ls).*1 ↔ ∃ i, (i, (t, true)) ∈ states) as Hkeys.
    { intros t. rewrite list_elem_of_fmap. split.
      - intros ([t' l] & -> & Hl%elem_of_map_to_list). destruct (Hmt _ _ Hl) as [-> Hne]. cbn.
        destruct (leaders_of t' states) as [|i l] eqn:El; [done|]. exists i. apply elem_of_leaders. rewrite El. left.
      - intros (i & Hi%elem_of_leaders). exists (t, leaders_of t states). split; [done|].
        apply elem_of_map_to_list. rewrite Hm. destruct (leaders_of t states); [by apply elem_of_nil in Hi|done]. }
    destruct (foldl_max_spec (map_to_list ls).*1 (-1)) as (Hmax & _ & Hin).
    set (last := foldl Z.max (-1) (map_to_list ls).*1) in *.
    assert (last ∈ (map_to_list ls).*1) as Hlast.
    { destruct Hin as [Hneg|]; [|done]. exfalso. destruct (map_choose _ He) as (t & l & Hl).
      assert (t ∈ (map_to_list ls).*1) as Ht by (apply list_elem_of_fmap; exists (t, l); split; [done|by apply elem_of_map_to_list]).
      pose proof (Hmax _ Ht). apply Hkeys in Ht as (i & Hi). apply Hpos in Hi. lia. }
    pose proof Hlast as (i0 & Hi0)%Hkeys. unfold map_get. rewrite Hm. apply elem_of_leaders in Hi0.
    destruct (leaders_of last states) as [|i l] eqn:El; [by apply elem_of_nil in Hi0|]. cbn.
    exists last. split; [apply elem_of_leaders; rewrite El; left|]. intros j t' Hj. apply Hmax, Hkeys. by exists j.
Qed.

(** What [GetState] answered for different peers at different moments of a run. *)
Definition states_during s s' (states : list (Z * (Z * bool))) : Prop :=
  NoDup states.*1 ∧ ∀ i st, (i, st) ∈ states → ∃ s1 rf, rtc (ts_step N) s s1 ∧ rtc (ts_step N) s1 s' ∧
    nodes (ts_raft s1) !! i = Some rf ∧ st = GetState rf.

Lemma ts_steps_cluster s s' : rtc (ts_step N) s s' → rtc (cl_step N) (ts_raft s) (ts_raft s').
Proof.
  induction 1 as [|s1 s2 s3 H _ IH]; [done|]. etrans; [|exact IH].
  destruct H; cbn; try done; apply rtc_once; by eexists.
Qed.

Lemma term_nonneg c i rf : cl_reachable N c → nodes c !! i = Some rf → 0 ≤ currentTerm rf.
Proof.
  intros Hc Hi. destruct (cl_reachable_tracks N c HN Hc) as (A & _ & Ht).
  destruct (placed_at _ _ _ _ _ Ht Hi) as (pre & _ & _ & _ & Hv).
  destruct Ht as (_ & _ & Hinv). apply (i_view _ _ Hinv) in Hv. apply Hv.
Qed.

(** [checkOneLeader] never finds two leaders of one term, although it asks
    the peers one after the other while elections go on; when somebody leads,
    it returns a peer that led the latest term any of them led. *)
Theorem one_leader_per_term s s' states :
  rtc (ts_step N) (ts_init N) s → rtc (ts_step N) s s' → states_during s s' states →
  ∃ r, checkOneLeader_turn states = Some r ∧
    match r with
    | None => ∀ i t, (i, (t, true)) ∉ states
    | Some i => ∃ t, (i, (t, true)) ∈ states ∧ ∀ j t', (j, (t', true)) ∈ states → t' ≤ t
    end.
Proof.
  intros Hs Hss [Hnd Hst].
  assert (∀ s1, rtc (ts_step N) (ts_init N) s1 → cl_reachable N (ts_raft s1)) as Hreach
    by (intros s1 H1; by apply ts_steps_cluster in H1).
  assert (∀ i t, (i, (t, true)) ∈ states → 0 ≤ t ∧ (t, i) ∈ led (ts_raft s')) as Hled.
  { intros i t Hi. destruct (Hst _ _ Hi) as (s1 & rf & H01 & H1 & Hn & [= -> Hl]).
    assert (cl_reachable N (ts_raft s1)) as Hr by (apply Hreach; by etrans). split; [by eapply term_nonneg|].
    apply ts_steps_cluster in H1. apply (cl_steps_led N _ _ H1), (leader_led N); [done|done|done|].
    symmetry in Hl. by apply bool_decide_eq_true in Hl. }
  apply checkOneLeader_turn_spec; [|done|].
  - intros i j t [_ Hi]%Hled [_ Hj]%Hled. eapply (led_once N); [exact HN| |exact Hi|exact Hj]. apply Hreach. by etrans.
  - by intros i t [? _]%Hled.
Qed.

End inv.
End tester.

(** ** A run

    Peer 0 of three is elected with the vote of peer 1, a test submits the
    command 7, the leader replicates it to peer 1 and delivers it, then it is
    shut down. *)
Tactic Notation "peer_runs" uconstr(rule) :=
  run (eapply ts_peers; [eapply rule; [by_computing..]|by_computing]).

Definition state_of (s : TestSystem (Op:=Z) (SV:=Z)) (i : Z) : option (Z * bool) :=
  match nodes (ts_raft s) !! i with Some rf => Some (GetState rf) | None => None end.
Definition in_hand (s : TestSystem (Op:=Z) (SV:=Z)) (i : Z) : option (list Z) :=
  match ts_sending s !! i with Some (ms, _) => Some (map CommandIndex ms) | None => None end.

Lemma elected_run :
  ∃ s s', rtc (ts_step 3) (ts_init (Op:=Z) (SV:=Z) 3) s ∧ rtc (ts_step 3) s s' ∧
    state_of s 0 = Some (1, true) ∧ state_of s 1 = Some (1, false) ∧ in_hand s 0 = Some [1] ∧
    t_logs (ts_checker s') = [{[1 := AOp 7]}; ∅; ∅] ∧ length (ts_old s') = 1%nat.
Proof.
  do 2 eexists. split; [|split].
  - peer_runs (cl_tick 3 _ 0).
    peer_runs (cl_election 3 _ 0).
    peer_runs (cl_vote_call 3 _ 1).
    peer_runs (cl_vote_handle 3 _ 1).
    peer_runs (cl_vote_reply 3 _ 1).
    peer_runs (cl_vote_count 3 _ 1).
    peer_runs (cl_start 3 _ 0 _ (AOp 7)).
    peer_runs (cl_broadcast 3 _ 1).
    peer_runs (cl_replicate 3 _ 4).
    peer_runs (cl_app_handle 3 _ 4).
    peer_runs (cl_app_reply 3 _ 4).
    apply rtc_refl.
  - run (eapply (ts_apply _ _ 0); [by_computing..]).
    run (eapply (ts_crash _ _ 0); [by_computing|eapply cl_crash; [by_computing..]]).
    apply rtc_refl.
  - split_and!; vm_compute; reflexivity.
Qed.


Lemma applier_never_fails_witness :
  ∃ (s : TestSystem (Op:=Z) (SV:=Z)) m ms k, ts_sending s !! 0 = Some (m :: ms, k) ∧ CommandIndex m = 1 ∧
    is_Some (applier_message 0 m (ts_checker s)).
Proof.
  destruct elected_run as (s & s' & Hs & _ & _ & _ & Hb & _). unfold in_hand in Hb.
  destruct (ts_sending s !! 0) as [[[|m ms] k]|] eqn:E; try discriminate. injection Hb as Hm _.
  exists s, m, ms, k. split; [exact E|]. split; [exact Hm|].
  exact (proj1 (applier_never_fails 3 three_peers s 0 Hs) m ms k E).
Defined.

Lemma nCommitted_agrees_witness :
  ∃ (s s' : TestSystem (Op:=Z) (SV:=Z)) reads count cmd, reads_during 3 s s' 1 reads ∧
    reads = [Some (AOp 7); None; None] ∧ nCommitted reads = Some (count, cmd) ∧ cmd = Some (AOp 7).
Proof.
  destruct elected_run as (s & s' & Hs & Hss & _ & _ & _ & Hl & _).
  assert (reads_during 3 s s' 1 [Some (AOp 7); None; None]) as Hr.
  { intros j r Hj. exists s'. split; [exact Hss|]. split; [apply rtc_refl|]. unfold read_copy. rewrite Hl.
    destruct j as [|[|[|j]]]; cbn in Hj; [injection Hj as <-; reflexivity..|discriminate]. }
  destruct (nCommitted_agrees 3 three_peers s s' 1 _ Hs Hss Hr) as (count & cmd & Hn & _ & Hv).
  exists s, s', [Some (AOp 7); None; None], count, cmd.
  split; [exact Hr|]. split; [reflexivity|]. split; [exact Hn|]. apply Hv, list_elem_of_here.
Defined.

Lemma one_leader_per_term_witness :
  ∃ (s s' : TestSystem (Op:=Z) (SV:=Z)) states, states_during 3 s s' states ∧
    states = [(0, (1, true)); (1, (1, false))] ∧ ∃ r, checkOneLeader_turn states = Some r.
Proof.
  destruct elected_run as (s & s' & Hs & Hss & H0 & H1 & _). unfold state_of in H0, H1.
  assert (states_during 3 s s' [(0, (1, true)); (1, (1, false))]) as Hst.
  { split; [apply NoDup_cons; split; [intros H%list_elem_of_singleton; discriminate|apply NoDup_singleton]|].
    intros i st [[= -> ->]|[[= -> ->]|[]%elem_of_nil]%elem_of_cons]%elem_of_cons; exists s;
      [destruct (nodes (ts_raft s) !! 0) as [rf|]; [|discriminate]
      |destruct (nodes (ts_raft s) !! 1) as [rf|]; [|discriminate]];
      exists rf; split_and!; [apply rtc_refl|exact Hss|reflexivity|congruence
        |apply rtc_refl|exact Hss|reflexivity|congruence]. }
  destruct (one_leader_per_term 3 three_peers s s' _ Hs Hss Hst) as (r & Hr & _).
  exists s, s', [(0, (1, true)); (1, (1, false))]. split; [exact Hst|]. split; [reflexivity|]. exists r. exact Hr.
Defined.
