(* ===== verification/Commands.v ===== *)
(** * The commands of a replicated service and their order in its log

    A service is a state machine over the commands of a log.  A command that
    changes the state carries the number of its client and of its request, and
    the service applies it at its first occurrence only.  [Commands] is what
    this library has to know of a service: the key/value service and the shard
    controller are instances.  When every operation of a history has a point in
    the log between its call and its return, such that every change that takes
    effect has its operation, the order of the points is a linearization. *)
From stdpp Require Import base tactics strings numbers relations sets gmap sorting list.
From S2P Require Import Prelude.
Open Scope Z_scope.
Open Scope go_scope.

Class Commands (Op St Ans : Type) := {
  op_client : Op → Z;
  op_request : Op → Z;
  changes : Op → bool;                   (* retries of it are ignored *)
  spec_init : St;
  spec_step : Op → St → St * Ans;        (* the sequential specification *)
  no_answer : Ans;
  changes_answer op st : changes op = true → (spec_step op st).2 = no_answer;
  reads_keep op st : changes op = false → (spec_step op st).1 = st
}.

(** An operation of a history: a call that has returned, with the times. *)
Record Done (Call Ans : Type) := mkDone { d_call : Call; d_start : Z; d_value : Ans; d_end : Z }.
Arguments mkDone {_ _}.
Arguments d_call {_ _}.
Arguments d_start {_ _}.
Arguments d_value {_ _}.
Arguments d_end {_ _}.

Section commands.
Context {Op St Ans : Type} `{!Commands Op St Ans}.
Implicit Types (op : Op) (L : list Op) (st : St) (k n : nat).

Definition ident op : Z * Z := (op_client op, op_request op).

(** ** A log without its retries *)

Definition replay_step (sst : gset (Z * Z) * St) op : gset (Z * Z) * St :=
  if changes op && bool_decide (ident op ∈ sst.1) then sst
  else (if changes op then {[ident op]} ∪ sst.1 else sst.1, (spec_step op sst.2).1).
Definition replayed L : gset (Z * Z) * St := foldl replay_step (∅, spec_init) L.

(** The state after the first [n] commands, and the changes among them. *)
Definition state_at L n : St := (replayed (take n L)).2.
Definition idents L : gset (Z * Z) := list_to_set (ident <$> filter (λ op, changes op = true) L).

Definition first_change L k op : Prop := changes op = true ∧ ident op ∉ idents (take k L).

(** A client numbers its requests and makes the next when the last is done: a
    change in the log repeats one already there or is newer than all of them
    of its client. *)
Definition newer (seen : gset (Z * Z)) op : Prop := ident op ∈ seen ∨ ∀ r, (op_client op, r) ∈ seen → r < op_request op.
Definition in_order L : Prop :=
  ∀ k op, L !! k = Some op → changes op = true → newer (idents (take k L)) op.

Lemma elem_of_idents L x : x ∈ idents L ↔ ∃ op, op ∈ L ∧ changes op = true ∧ x = ident op.
Proof.
  unfold idents. rewrite elem_of_list_to_set, list_elem_of_fmap.
  setoid_rewrite list_elem_of_filter. naive_solver.
Qed.

Lemma take_idents L k x :
  x ∈ idents (take k L) ↔ ∃ j op, (j < k)%nat ∧ L !! j = Some op ∧ changes op = true ∧ x = ident op.
Proof. rewrite elem_of_idents. setoid_rewrite elem_of_take. naive_solver. Qed.

Lemma idents_snoc L op :
  idents (L ++ [op]) = if changes op then {[ident op]} ∪ idents L else idents L.
Proof.
  apply set_eq. intros x. rewrite elem_of_idents. setoid_rewrite elem_of_app.
  setoid_rewrite list_elem_of_singleton. destruct (changes op) eqn:E.
  - rewrite elem_of_union, elem_of_singleton, elem_of_idents. naive_solver.
  - rewrite elem_of_idents. split; [|naive_solver].
    intros (x' & [?| ->] & Hw & ?); [eauto|congruence].
Qed.

Lemma replayed_snoc L op : replayed (L ++ [op]) = replay_step (replayed L) op.
Proof. unfold replayed. by rewrite foldl_app. Qed.

Lemma replayed_idents L : (replayed L).1 = idents L.
Proof.
  induction L as [|op L IH] using rev_ind; [done|].
  rewrite replayed_snoc, idents_snoc, <- IH. unfold replay_step.
  destruct (changes op); cbn; [|done]. case_bool_decide; cbn; [|done]. set_solver.
Qed.

Lemma state_at_S L k op :
  L !! k = Some op →
  (changes op = false ∨ first_change L k op → state_at L (S k) = (spec_step op (state_at L k)).1) ∧
  (changes op = true → ¬ first_change L k op → state_at L (S k) = state_at L k).
Proof.
  intros Hk. unfold state_at, first_change. rewrite (take_S_r _ _ _ Hk), replayed_snoc. unfold replay_step.
  rewrite replayed_idents. destruct (changes op) eqn:E; cbn.
  - case_bool_decide; cbn; split; naive_solver.
  - by split.
Qed.

(** A server that skips retries by its own table has the state of the log. *)
Lemma replay_simulates {S : Type} (apply : Op → S → S) (R : gset (Z * Z) → St → S → Prop) (valid : Op → Prop) s0 L :
  R ∅ spec_init s0 →
  (∀ seen st s op, R seen st s → valid op → (changes op = true → newer seen op) →
     R (replay_step (seen, st) op).1 (replay_step (seen, st) op).2 (apply op s)) →
  Forall valid L → in_order L → R (idents L) (replayed L).2 (foldl (flip apply) s0 L).
Proof.
  intros H0 Hstep. induction L as [|op L IH] using rev_ind; [done|].
  intros [Hv [Hop _]%Forall_cons]%Forall_app Ho.
  assert (in_order L) as Ho'.
  { intros k op' Hk. pose proof (lookup_lt_Some _ _ _ Hk).
    rewrite <- (take_app_le L [op]) by lia. apply Ho. by apply lookup_app_l_Some. }
  specialize (Ho (length L) op). rewrite take_app_length, list_lookup_middle in Ho by done.
  rewrite <- (replayed_idents (L ++ [op])), replayed_snoc, foldl_app. cbn.
  pose proof (Hstep _ _ _ _ (IH Hv Ho') Hop (Ho eq_refl)) as H.
  by rewrite <- (replayed_idents L), <- surjective_pairing in H.
Qed.

Lemma in_order_take L n : in_order L → in_order (take n L).
Proof.
  intros Ho k op [Hk Hlt]%lookup_take_Some Hc. rewrite take_take, Nat.min_l by lia. by apply Ho.
Qed.

(** ** The specification of a history *)

Context {Call : Type} (command : Call → Op).
Implicit Types (d : Done Call Ans) (ds : list (Done Call Ans)).

(** [b] may come after [a]. *)
Definition may_come_after (a b : Done Call Ans) : Prop := ¬ d_end b < d_start a.

Inductive executes : St → list (Done Call Ans) → St → Prop :=
| exec_nil st : executes st [] st
| exec_cons st st1 st2 d ds :
    spec_step (command (d_call d)) st = (st1, d_value d) → executes st1 ds st2 → executes st (d :: ds) st2.

Definition linearizes ds : Prop :=
  ∃ ds' st, ds' ≡ₚ ds ∧ StronglySorted may_come_after ds' ∧ executes spec_init ds' st.

Lemma executes_snoc st ds st1 d st2 :
  executes st ds st1 → spec_step (command (d_call d)) st1 = (st2, d_value d) → executes st (ds ++ [d]) st2.
Proof. induction 1; intros; cbn; econstructor; eauto using exec_nil. Qed.

(** ** The operations in the order of their points *)
Section points.
Context (L : list Op) (g : Z → nat) (Hmono : ∀ x y, x ≤ y → (g x ≤ g y)%nat).
Context (pts : list (nat * Done Call Ans)) (Hdup : NoDup pts.*1).

(** The command of the operation is at its point, with its answer there, and
    the point lies between its call and its return. *)
Definition point_ok k d : Prop :=
  let op := command (d_call d) in
  L !! k = Some op ∧ (changes op = false ∨ first_change L k op) ∧
  d_value d = (spec_step op (state_at L k)).2 ∧ (g (d_start d) ≤ k < g (d_end d))%nat.

Context (Hpts : ∀ k d, (k, d) ∈ pts → point_ok k d).
Context (Hcover : ∀ k op, L !! k = Some op → first_change L k op → ∃ d, (k, d) ∈ pts).

Definition at_point k : option (Done Call Ans) := (list_to_map pts : gmap nat (Done Call Ans)) !! k.
Definition ordered n : list (Done Call Ans) := omap at_point (seq 0 n).

Lemma at_point_spec k d : at_point k = Some d ↔ (k, d) ∈ pts.
Proof. unfold at_point. symmetry. by apply elem_of_list_to_map. Qed.

Lemma ordered_S n : ordered (S n) = ordered n ++ option_list (at_point n).
Proof. unfold ordered. by rewrite seq_S, omap_app. Qed.

Lemma elem_of_ordered n d : d ∈ ordered n ↔ ∃ k, (k < n)%nat ∧ at_point k = Some d.
Proof.
  unfold ordered. rewrite list_elem_of_omap. setoid_rewrite elem_of_seq.
  split; intros (k & ? & ?); exists k; (split; [lia|done]).
Qed.

Lemma ordered_executes n : (n ≤ length L)%nat → executes spec_init (ordered n) (state_at L n).
Proof.
  induction n as [|k IH]; intros Hn; [constructor|].
  destruct (lookup_lt_is_Some_2 L k) as [op Hk]; [lia|].
  destruct (state_at_S L k op Hk) as [Hdo Hskip]. rewrite ordered_S. specialize (IH ltac:(lia)).
  destruct (at_point k) as [d|] eqn:E; cbn [option_list].
  - apply at_point_spec in E. destruct (Hpts _ _ E) as (Hk' & Hkind & Hv & _). simplify_eq.
    eapply executes_snoc; [exact IH|]. rewrite Hdo, Hv by done. by destruct (spec_step _ _).
  - rewrite app_nil_r. assert (¬ first_change L k op) as Hf.
    { intros Hf. destruct (Hcover _ _ Hk Hf) as [d Hd]. apply at_point_spec in Hd. congruence. }
    destruct (changes op) eqn:Ec; [by rewrite Hskip|]. rewrite Hdo by by left. by rewrite reads_keep.
Qed.

Lemma ordered_sorted n : StronglySorted may_come_after (ordered n).
Proof.
  induction n as [|k IH]; [constructor|]. rewrite ordered_S.
  destruct (at_point k) as [d|] eqn:E; cbn; [|by rewrite app_nil_r].
  apply StronglySorted_app_2; [|done|repeat constructor].
  intros a b (j & Hj & Ha)%elem_of_ordered ->%list_elem_of_singleton.
  apply at_point_spec in E, Ha. destruct (Hpts _ _ E) as (_ & _ & _ & _ & Hb).
  destruct (Hpts _ _ Ha) as (_ & _ & _ & Ha' & _).
  unfold may_come_after. intros Hlt. pose proof (Hmono (d_end d) (d_start a)). lia.
Qed.

Lemma ordered_perm : ordered (length L) ≡ₚ pts.*2.
Proof.
  set (h := λ k, (λ d, (k, d)) <$> at_point k).
  assert (∀ n, ordered n = (omap h (seq 0 n)).*2) as ->.
  { intros n. unfold ordered. induction (seq 0 n) as [|k l IH]; [done|]. cbn. rewrite IH.
    unfold h. by destruct (at_point k). }
  apply fmap_Permutation. apply NoDup_Permutation.
  - induction (length L) as [|n IH]; [constructor|]. rewrite seq_S, omap_app. apply NoDup_app.
    split; [done|]. split; [|change (NoDup (match h n with Some y => [y] | None => [] end));
      destruct (h n); [apply NoDup_singleton|apply NoDup_nil_2]].
    intros [j d] (k & Hk & Hh)%list_elem_of_omap (k' & Hk' & Hh')%list_elem_of_omap.
    apply elem_of_seq in Hk. apply list_elem_of_singleton in Hk' as ->. unfold h in *.
    destruct (at_point k), (at_point (0 + n)); simplify_eq/=. lia.
  - by eapply NoDup_fmap_1.
  - intros [k d]. rewrite list_elem_of_omap. split.
    + intros (j & _ & Hh). unfold h in Hh. destruct (at_point j) eqn:E; simplify_eq/=.
      by apply at_point_spec.
    + intros Hd. exists k. split.
      * destruct (Hpts _ _ Hd) as (Hk & _). apply lookup_lt_Some in Hk. apply elem_of_seq. lia.
      * apply at_point_spec in Hd. unfold h. by rewrite Hd.
Qed.

Lemma points_linearize : linearizes pts.*2.
Proof.
  exists (ordered (length L)), (state_at L (length L)). split_and!.
  - apply ordered_perm.
  - apply ordered_sorted.
  - by apply ordered_executes.
Qed.
End points.
End commands.
