(* ===== verification/Clerks.v ===== *)
(** * Clerks: one call at a time, numbered

    The side of the clients of a replicated service.  A clerk gives each call
    its number and a new request number, waits until the call has returned and
    only then makes the next.  [Clients] keeps the clerks, every call made, the
    calls that have returned and the clock of the history.  When each call that
    returned got the answer of the service at a place of its log, the history
    is linearizable. *)
From stdpp Require Import base tactics strings numbers relations sets gmap sorting list.
From S2P Require Import Prelude.
From S2P Require Import Commands.
Open Scope Z_scope.
Open Scope go_scope.

(** Methods of a clerk, clerks, and the calls they make. *)
Class Clerks (Method Ck Call : Type) {Op St Ans : Type} `{!Commands Op St Ans} := {
  command : Call → Op;
  make_call : Method → Ck → Call;
  ck_id : Ck → Z;
  ck_next : Ck → Z;                (* the number of its next request *)
  ck_called : Ck → Ck;             (* after a call *)
  call_client m ck : op_client (command (make_call m ck)) = ck_id ck;
  call_request m ck : op_request (command (make_call m ck)) = ck_next ck;
  called_id ck : ck_id (ck_called ck) = ck_id ck;
  called_next ck : ck_next ck < ck_next (ck_called ck)
}.

Section clerks.
Context {Method Ck Call Op St Ans : Type} `{!Commands Op St Ans} `{!Clerks Method Ck Call}.

(** A clerk and the call it waits for, with the time it was made. *)
Record Client := mkClient { ct_clerk : Ck; ct_waiting : option (Call * Z) }.

Record Clients := mkClients {
  cs_clients : gmap Z Client;
  cs_sent : list (Call * Z);
  cs_now : Z;
  cs_done : list (Done Call Ans)
}.

#[export] Instance Clients_eta : RecordEta Clients := λ s,
  mkClients (cs_clients s) (cs_sent s) (cs_now s) (cs_done s).

Definition invoked (id : Z) (ck : Ck) (m : Method) (t : Z) (s : Clients) : Clients :=
  let c := make_call m ck in
  s <| cs_clients ::= <[id := mkClient (ck_called ck) (Some (c, t))]> |>
    <| cs_sent ::= cons (c, t) |> <| cs_now := t |>.
Definition finished (id : Z) (ck : Ck) (d : Done Call Ans) (s : Clients) : Clients :=
  s <| cs_clients ::= <[id := mkClient ck None]> |> <| cs_now := d_end d |> <| cs_done ::= cons d |>.

Definition sent_op (s : Clients) (op : Op) : Prop := ∃ c t, (c, t) ∈ cs_sent s ∧ op = command c.

(** The calls the clerks wait for, and such a call as if it returned later. *)
Definition waiting (s : Clients) : list (Call * Z) := omap (λ p, ct_waiting p.2) (map_to_list (cs_clients s)).
Definition later (now : Z) (x : Call * Z) : Done Call Ans := mkDone x.1 x.2 no_answer (now + 1).

(** The clerks have just been made. *)
Definition clients_init (clerk : Z → Ck) (ids : gset Z) : Clients :=
  mkClients (set_to_map (λ id, (id, mkClient (clerk id) None)) ids) [] 0 [].

Section inv.
Implicit Types (s : Clients) (L : list Op) (g : Z → nat) (c : Call) (t : Z) (d : Done Call Ans) (k : nat).

(** The methods the clerks use, and what it means that a place of the log
    answers a call with a value. *)
Context (allowed : Method → Prop) (answered : list Op → Call → Ans → nat → Prop).
Context (answered_prefix : ∀ L L' c v k, L `prefix_of` L' → answered L c v k → answered L' c v k).
Context (answered_in : ∀ L c v k, answered L c v k → ∃ op, L !! k = Some op ∧ ident op = ident (command c)).

Definition clerk_call c : Prop := ∃ m ck, allowed m ∧ c = make_call m ck.
Definition from_clerks L : Prop := Forall (λ op, ∃ c, clerk_call c ∧ op = command c) L.

Context (answered_value : ∀ L c v k, in_order L → from_clerks L → clerk_call c → L !! k = Some (command c) →
  answered L c v k → v = (spec_step (command c) (state_at L k)).2).

(** ** The invariant

    [g t] is how much was committed at time [t]. *)
Record client_inv L g s : Prop := {
  ki_sent c t : (c, t) ∈ cs_sent s →
    t ≤ cs_now s ∧ clerk_call c ∧
    ∃ ct, cs_clients s !! op_client (command c) = Some ct ∧ op_request (command c) < ck_next (ct_clerk ct);
  ki_unique c t c' t' : (c, t) ∈ cs_sent s → (c', t') ∈ cs_sent s →
    ident (command c) = ident (command c') → c = c' ∧ t = t';
  ki_client id ct : cs_clients s !! id = Some ct →
    ck_id (ct_clerk ct) = id ∧
    (∀ c t, ct_waiting ct = Some (c, t) →
       (c, t) ∈ cs_sent s ∧ op_client (command c) = id ∧ c ∉ d_call <$> cs_done s) ∧
    (∀ c t, (c, t) ∈ cs_sent s → op_client (command c) = id →
       ct_waiting ct = Some (c, t) ∨ c ∈ d_call <$> cs_done s);
  ki_order c t c' t' : (c, t) ∈ cs_sent s → (c', t') ∈ cs_sent s →
    op_client (command c) = op_client (command c') → op_request (command c) < op_request (command c') →
    ∃ d, d ∈ cs_done s ∧ d_call d = c ∧ d_end d < t';
  ki_done d : d ∈ cs_done s →
    (d_call d, d_start d) ∈ cs_sent s ∧ d_start d < d_end d ≤ cs_now s ∧
    (∃ k, answered L (d_call d) (d_value d) k ∧ (k < g (d_end d))%nat) ∧
    ∀ c t, (c, t) ∈ cs_sent s → d_end d ≠ t;
  ki_once : NoDup (d_call <$> cs_done s);
  ki_log k op : L !! k = Some op → ∃ c t, (c, t) ∈ cs_sent s ∧ op = command c ∧ (g t ≤ k)%nat;
  ki_mono t t' : t ≤ t' → (g t ≤ g t')%nat;
  ki_bound t : (g t ≤ length L)%nat
}.

Lemma clients_init_inv clerk ids :
  (∀ id, ck_id (clerk id) = id) → client_inv [] (λ _, 0%nat) (clients_init clerk ids).
Proof.
  intros Hck. split; cbn; try (intros * ?%not_elem_of_nil; done); try done.
  - intros id ct Hct. apply lookup_set_to_map in Hct as (id' & _ & [= <- <-]); [|by intros ? ? _ _ [= ->]].
    cbn. split_and!; [done|done|]. by intros * ?%not_elem_of_nil.
  - constructor.
Qed.

(** The log grows and the clerks do nothing. *)
Lemma client_inv_log L L' g s :
  client_inv L g s → L `prefix_of` L' → Forall (sent_op s) L' → client_inv L' g s.
Proof.
  intros [] HL Hall. pose proof (prefix_length _ _ HL) as Hlen. split; try done.
  - intros d Hd. destruct (ki_done0 d Hd) as (? & ? & (k & ? & ?) & ?).
    split_and!; try done; try lia. exists k. eauto.
  - intros k op Hk. destruct (decide (k < length L)%nat) as [Hlt|Hge].
    + apply (ki_log0 k). destruct (lookup_lt_is_Some_2 L k Hlt) as [op' Hk'].
      pose proof (prefix_lookup_Some _ _ _ _ Hk' HL). congruence.
    + destruct (Forall_lookup_1 _ _ _ _ Hall Hk) as (c & t & ? & ?). exists c, t.
      pose proof (ki_bound0 t). split_and!; [done|done|lia].
  - intros t. pose proof (ki_bound0 t). lia.
Qed.

(** The time goes on. *)
Definition until (t : Z) g (n : nat) : Z → nat := λ x, if x <? t then g x else n.

Lemma until_before t g n x : x < t → until t g n x = g x.
Proof. unfold until. intros. by rewrite (proj2 (Z.ltb_lt _ _)). Qed.
Lemma until_after t g n x : t ≤ x → until t g n x = n.
Proof. unfold until. intros. by rewrite (proj2 (Z.ltb_ge _ _)). Qed.

Lemma until_mono t g n :
  (∀ x y, x ≤ y → (g x ≤ g y)%nat) → (∀ x, (g x ≤ n)%nat) →
  ∀ x y, x ≤ y → (until t g n x ≤ until t g n y)%nat.
Proof.
  intros Hm Hb x y Hxy. unfold until. pose proof (Hb x). pose proof (Hm x y Hxy).
  repeat case_if; zbool; lia.
Qed.
Lemma until_bound t g n : (∀ x, (g x ≤ n)%nat) → ∀ x, (until t g n x ≤ n)%nat.
Proof. intros Hb x. unfold until. case_if; [apply Hb|lia]. Qed.

(** What holds of the log at every later time as well. *)
Lemma until_log L g s t :
  client_inv L g s → cs_now s < t → ∀ k op, L !! k = Some op →
  ∃ c t', (c, t') ∈ cs_sent s ∧ op = command c ∧ (until t g (length L) t' ≤ k)%nat.
Proof.
  intros [] Hnow k op Hk. destruct (ki_log0 _ _ Hk) as (c' & t' & Hs & ? & ?). exists c', t'.
  destruct (ki_sent0 _ _ Hs) as (? & _). split_and!; [done|done|]. by rewrite until_before by lia.
Qed.

(** A new call has a new identifier. *)
Lemma fresh_call L g s id ck m c' t' :
  client_inv L g s → cs_clients s !! id = Some (mkClient ck None) → (c', t') ∈ cs_sent s →
  ident (command c') ≠ ident (command (make_call m ck)).
Proof.
  intros [] Hid Hs [= E1 E2]. destruct (ki_client0 _ _ Hid) as (Hck & _). cbn in Hck.
  destruct (ki_sent0 _ _ Hs) as (_ & _ & ct & Hct & Hlt).
  rewrite E1, call_client, Hck, Hid in Hct. injection Hct as <-. cbn in Hlt. rewrite call_request in E2. lia.
Qed.

Lemma client_inv_invoke L g s id ck m t :
  client_inv L g s → cs_clients s !! id = Some (mkClient ck None) → cs_now s < t → allowed m →
  client_inv L (until t g (length L)) (invoked id ck m t s).
Proof.
  intros Hinv Hid Hnow Hm. pose proof (until_log _ _ _ _ Hinv Hnow) as Hlog.
  assert (∀ c' t', (c', t') ∈ cs_sent s → ident (command c') ≠ ident (command (make_call m ck))) as Hfresh
    by (intros; by eapply fresh_call).
  destruct Hinv. unfold invoked. set (c := make_call m ck) in *.
  destruct (ki_client0 _ _ Hid) as (Hck & _ & Hall). cbn in Hck, Hall.
  assert (op_client (command c) = id) as Ec by (unfold c; by rewrite call_client).
  assert (op_request (command c) = ck_next ck) as Er by apply call_request.
  assert (∀ c', c' ∈ d_call <$> cs_done s → c' ≠ c) as Hdone.
  { intros c' (d & -> & Hd)%list_elem_of_fmap E. destruct (ki_done0 _ Hd) as (Hs & _).
    rewrite E in Hs. by eapply Hfresh. }
  pose proof (called_next ck) as Hnext. split; cbn.
  - intros c' t' [[= -> ->]|Hs]%elem_of_cons.
    + split_and!; [done|by exists m, ck|]. rewrite Ec, lookup_insert_eq. eexists. split; [done|]. cbn. lia.
    + destruct (ki_sent0 _ _ Hs) as (? & ? & ct & Hct & ?). split_and!; [lia|done|].
      destruct (decide (op_client (command c') = id)) as [E|Hne].
      * rewrite E in *. rewrite lookup_insert_eq. eexists. split; [done|]. simplify_eq/=. lia.
      * rewrite lookup_insert_ne by done. eauto.
  - intros c1 t1 c2 t2 [[= -> ->]|H1]%elem_of_cons [[= -> ->]|H2]%elem_of_cons E; [done|..].
    + by destruct (Hfresh _ _ H2).
    + by destruct (Hfresh _ _ H1).
    + by apply ki_unique0.
  - intros id' ct [[<- <-]|[Hne Hct]]%lookup_insert_Some; cbn.
    + split; [by rewrite called_id|]. split.
      * intros c' t' [= <- <-]. split_and!; [apply list_elem_of_here|done|].
        intros Hin. by apply (Hdone c).
      * intros c' t' [[= -> ->]|Hs]%elem_of_cons Hc; [by left|right].
        destruct (Hall _ _ Hs Hc); done.
    + destruct (ki_client0 _ _ Hct) as (? & Hw & Ha). split; [done|]. split.
      * intros c' t' Hw'. destruct (Hw _ _ Hw') as (? & ? & ?).
        split_and!; [by apply list_elem_of_further|done|done].
      * intros c' t' [[= -> ->]|Hs]%elem_of_cons Hc; [congruence|by apply Ha].
  - intros c1 t1 c2 t2 [[= -> ->]|H1]%elem_of_cons [[= -> ->]|H2]%elem_of_cons E Hlt; [lia|..].
    + destruct (ki_sent0 _ _ H2) as (_ & _ & ct & Hct & ?). rewrite <- E, Ec, Hid in Hct.
      injection Hct as <-. cbn in *. lia.
    + destruct (Hall _ _ H1) as [?|(d & -> & Hd)%list_elem_of_fmap]; [congruence|done|].
      exists d. destruct (ki_done0 _ Hd) as (_ & ? & _). split_and!; [done|done|lia].
    + by eapply ki_order0.
  - intros d Hd. destruct (ki_done0 _ Hd) as (Hs & ? & (k & ? & ?) & Hne).
    split_and!; [by apply list_elem_of_further|lia|lia| |].
    + exists k. by rewrite until_before by lia.
    + intros c' t' [[= -> ->]|Hs']%elem_of_cons; [lia|by eapply Hne].
  - done.
  - intros k op (c' & t' & ? & ? & ?)%Hlog. exists c', t'. split_and!; [by apply list_elem_of_further|done|done].
  - by apply until_mono.
  - by apply until_bound.
Qed.

Lemma client_inv_return L g s id ck c t v t' k :
  client_inv L g s → cs_clients s !! id = Some (mkClient ck (Some (c, t))) → cs_now s < t' →
  answered L c v k →
  client_inv L (until t' g (length L)) (finished id ck (mkDone c t v t') s).
Proof.
  intros Hinv Hid Hnow Hk. pose proof (until_log _ _ _ _ Hinv Hnow) as Hlog. destruct Hinv.
  destruct (ki_client0 _ _ Hid) as (Hck & Hw & Hall). cbn in Hck, Hw, Hall.
  destruct (Hw c t eq_refl) as (Hsent & Hcid & Hnew). destruct (ki_sent0 _ _ Hsent) as (Ht & _).
  split; cbn.
  - intros c' t1 Hs. destruct (ki_sent0 _ _ Hs) as (? & ? & ct & Hct & ?).
    split_and!; [lia|done|]. destruct (decide (op_client (command c') = id)) as [E|Hne].
    + rewrite E in *. rewrite lookup_insert_eq. eexists. split; [done|]. by simplify_eq/=.
    + rewrite lookup_insert_ne by done. eauto.
  - done.
  - intros id' ct [[<- <-]|[Hne Hct]]%lookup_insert_Some; cbn.
    + split_and!; [done|done|]. intros c' t1 Hs Hc. right.
      destruct (Hall _ _ Hs Hc) as [[= -> ->]|?]; [apply list_elem_of_here|by apply list_elem_of_further].
    + destruct (ki_client0 _ _ Hct) as (? & Hw' & Ha). split; [done|]. split.
      * intros c' t1 Hwt. destruct (Hw' _ _ Hwt) as (? & ? & ?). split_and!; [done|done|].
        intros [->|?]%elem_of_cons; [congruence|done].
      * intros c' t1 Hs Hc. destruct (Ha _ _ Hs Hc); [by left|right; by apply list_elem_of_further].
  - intros c1 t1 c2 t2 H1 H2 E Hlt. destruct (ki_order0 _ _ _ _ H1 H2 E Hlt) as (d & ? & ? & ?).
    exists d. split_and!; [by apply list_elem_of_further|done|done].
  - intros d [->|Hd]%elem_of_cons; cbn.
    + split_and!; [done|lia|lia| |].
      * exists k. split; [done|]. rewrite until_after by lia. destruct (answered_in _ _ _ _ Hk) as (op & Hop & _).
        by apply lookup_lt_Some in Hop.
      * intros c1 t1 Hs. destruct (ki_sent0 _ _ Hs) as (? & _). lia.
    + destruct (ki_done0 _ Hd) as (Hs & ? & (k' & ? & ?) & Hne).
      split_and!; [done|lia|lia| |done]. exists k'. by rewrite until_before by lia.
  - by constructor.
  - done.
  - by apply until_mono.
  - by apply until_bound.
Qed.

Lemma client_inv_until L g s : client_inv L g s → client_inv L (until (cs_now s + 1) g (length L)) s.
Proof.
  intros Hinv. assert (cs_now s < cs_now s + 1) as Hnow by lia.
  pose proof (until_log _ _ _ _ Hinv Hnow) as Hlog. destruct Hinv. split; try done.
  - intros d Hd. destruct (ki_done0 _ Hd) as (? & ? & (k & ? & ?) & ?). split_and!; try done; try lia.
    exists k. by rewrite until_before by lia.
  - by apply until_mono.
  - by apply until_bound.
Qed.

(** ** The log holds the calls in order *)

Lemma log_from_clerks L g s : client_inv L g s → from_clerks L.
Proof.
  intros []. apply Forall_lookup_2. intros k op Hk.
  destruct (ki_log0 _ _ Hk) as (c & t & Hs & -> & _). destruct (ki_sent0 _ _ Hs) as (_ & ? & _). eauto.
Qed.

(** An identifier belongs to one call. *)
Lemma log_call L g s c t k op :
  client_inv L g s → (c, t) ∈ cs_sent s → L !! k = Some op → ident op = ident (command c) →
  op = command c ∧ (g t ≤ k)%nat.
Proof.
  intros [] Hs Hk E. destruct (ki_log0 _ _ Hk) as (c' & t' & Hs' & -> & Hg).
  by destruct (ki_unique0 _ _ _ _ Hs' Hs E) as [-> ->].
Qed.

Lemma log_in_order L g s : client_inv L g s → in_order L.
Proof.
  intros Hinv k op Hk Hw. destruct (decide (ident op ∈ idents (take k L))) as [?|Hn]; [by left|right].
  intros r (j & op' & Hj & Hk' & Hw' & [= Ec ->])%take_idents.
  destruct (ki_log _ _ _ Hinv _ _ Hk) as (c & t & Hs & -> & _).
  destruct (ki_log _ _ _ Hinv _ _ Hk') as (c' & t' & Hs' & -> & Hg').
  destruct (Z.lt_total (op_request (command c')) (op_request (command c))) as [?|[E|Hlt]]; [done|exfalso..].
  - apply Hn, take_idents. exists j, (command c'). split_and!; [done..|]. unfold ident. congruence.
  - destruct (ki_order _ _ _ Hinv _ _ _ _ Hs Hs' Ec Hlt) as (d & Hd & <- & Hlt').
    destruct (ki_done _ _ _ Hinv _ Hd) as (_ & _ & (k' & (op1 & Hop1 & E)%answered_in & Hg) & _).
    destruct (log_call _ _ _ _ _ _ _ Hinv Hs Hop1 E) as [-> _].
    apply Hn, take_idents. exists k', (command (d_call d)).
    pose proof (ki_mono _ _ _ Hinv (d_end d) t' ltac:(lia)). split_and!; [lia|done..].
Qed.

(** A change in the log takes effect at its first occurrence. *)
Lemma first_occurrence L g s c t k :
  client_inv L g s → (c, t) ∈ cs_sent s → changes (command c) = true → L !! k = Some (command c) →
  ∃ k', (k' ≤ k)%nat ∧ L !! k' = Some (command c) ∧ first_change L k' (command c).
Proof.
  intros Hc Hs Hw. induction (lt_wf k) as [k _ IH]. intros Hk.
  destruct (decide (ident (command c) ∈ idents (take k L))) as [Hin|Hn]; [|by exists k].
  apply take_idents in Hin as (j & op & Hj & Hop & Hw' & E).
  destruct (log_call _ _ _ _ _ _ _ Hc Hs Hop (eq_sym E)) as [-> _].
  destruct (IH j Hj Hop) as (k' & ? & ? & ?). exists k'. split_and!; [lia|done..].
Qed.

(** ** The points *)

(** [k] is a point for the operation [d]. *)
Definition item_ok L g s d k : Prop := (d_call d, d_start d) ∈ cs_sent s ∧ point_ok command L g k d.

Lemma done_point L g s d : client_inv L g s → d ∈ cs_done s → ∃ k, item_ok L g s d k.
Proof.
  intros Hc Hd. destruct (ki_done _ _ _ Hc _ Hd) as (Hs & _ & (k & Hk & Hg) & _).
  destruct (answered_in _ _ _ _ Hk) as (op & Hop & E).
  destruct (log_call _ _ _ _ _ _ _ Hc Hs Hop E) as [-> Hstart].
  pose proof (answered_value _ _ _ _ (log_in_order _ _ _ Hc) (log_from_clerks _ _ _ Hc)
    (proj1 (proj2 (ki_sent _ _ _ Hc _ _ Hs))) Hop Hk) as Hv.
  unfold item_ok, point_ok. destruct (changes (command (d_call d))) eqn:Ech.
  - destruct (first_occurrence _ _ _ _ _ _ Hc Hs Ech Hop) as (k' & ? & Hk' & Hf). exists k'.
    destruct (log_call _ _ _ _ _ _ _ Hc Hs Hk' eq_refl) as [_ ?].
    rewrite Hv, !changes_answer by done. split_and!; auto; lia.
  - exists k. split_and!; auto.
Qed.

(** The calls that clerks wait for, have reached the log and change something. *)
Definition taken L (x : Call * Z) : Prop := changes (command x.1) = true ∧ ∃ op, op ∈ L ∧ ident op = ident (command x.1).
#[local] Instance taken_dec L x : Decision (taken L x).
Proof.
  unfold taken. apply and_dec; [apply _|].
  refine (cast_if (decide (Exists (λ op, ident op = ident (command x.1)) L))); rewrite <- Exists_exists; done.
Defined.
Definition items L s : list (Done Call Ans) := cs_done s ++ (later (cs_now s) <$> filter (taken L) (waiting s)).

Lemma elem_of_waiting s c t :
  (c, t) ∈ waiting s ↔ ∃ id ct, cs_clients s !! id = Some ct ∧ ct_waiting ct = Some (c, t).
Proof.
  unfold waiting. rewrite list_elem_of_omap. split.
  - intros ([id ct] & Hin%elem_of_map_to_list & Hw). eauto.
  - intros (id & ct & Hin & Hw). exists (id, ct). split; [by apply elem_of_map_to_list|done].
Qed.

Lemma waiting_sent L g s c t :
  client_inv L g s → (c, t) ∈ waiting s → (c, t) ∈ cs_sent s ∧ c ∉ d_call <$> cs_done s.
Proof.
  intros Hc (id & ct & Hin & Hw)%elem_of_waiting. destruct (ki_client _ _ _ Hc _ _ Hin) as (_ & H & _).
  by destruct (H _ _ Hw) as (? & _ & ?).
Qed.

Lemma waiting_nodup L g s : client_inv L g s → NoDup (waiting s).*1.
Proof.
  intros Hc. unfold waiting.
  assert (∀ p, p ∈ map_to_list (cs_clients s) → ∀ c t, ct_waiting p.2 = Some (c, t) →
    op_client (command c) = p.1) as Hid.
  { intros [id ct] Hin%elem_of_map_to_list c t Hw. destruct (ki_client _ _ _ Hc _ _ Hin) as (_ & H & _).
    by destruct (H _ _ Hw) as (_ & ? & _). }
  pose proof (NoDup_fst_map_to_list (cs_clients s)) as Hnd.
  induction (map_to_list (cs_clients s)) as [|p l IH]; [constructor|]. cbn in *.
  apply NoDup_cons in Hnd as [Hp Hnd].
  assert (NoDup (omap (λ p, ct_waiting p.2) l).*1) as Hl
    by (apply IH; [|done]; intros; eapply Hid; [by apply list_elem_of_further|done]).
  destruct (ct_waiting p.2) as [[c t]|] eqn:E; [|done]. cbn. constructor; [|done].
  intros ([c' t'] & -> & (q & Hq & Hw)%list_elem_of_omap)%list_elem_of_fmap. cbn in *.
  apply Hp, list_elem_of_fmap. exists q. split; [|done].
  rewrite <- (Hid p (list_elem_of_here _ _) _ _ E). by eapply Hid; [apply list_elem_of_further|].
Qed.

Lemma items_nodup L g s : client_inv L g s → NoDup (d_call <$> items L s).
Proof.
  intros Hc. unfold items. rewrite fmap_app, <- list_fmap_compose. apply NoDup_app. split_and!.
  - by apply (ki_once _ _ _ Hc).
  - intros c Hd ([c' t] & -> & [_ Hw]%list_elem_of_filter)%list_elem_of_fmap.
    by destruct (waiting_sent _ _ _ _ _ Hc Hw).
  - change (d_call ∘ later (cs_now s)) with (@fst Call Z).
    eapply sublist_NoDup; [by eapply waiting_nodup|]. apply fmap_sublist, sublist_filter.
Qed.

Lemma item_point L g s d :
  client_inv L g s → d ∈ items L s → ∃ k, item_ok L (until (cs_now s + 1) g (length L)) s d k.
Proof.
  intros Hc%client_inv_until [Hd|([c t] & -> & [[Hw (op & [k Hk]%list_elem_of_lookup & E)] Hin]%list_elem_of_filter)
    %list_elem_of_fmap]%elem_of_app.
  - by eapply done_point.
  - destruct (waiting_sent _ _ _ _ _ Hc Hin) as [Hs _]. cbn in *.
    destruct (log_call _ _ _ _ _ _ _ Hc Hs Hk E) as [-> _].
    destruct (first_occurrence _ _ _ _ _ _ Hc Hs Hw Hk) as (k' & ? & Hk' & Hf). exists k'.
    destruct (log_call _ _ _ _ _ _ _ Hc Hs Hk' eq_refl) as [_ ?].
    unfold item_ok, point_ok. cbn. rewrite changes_answer by done.
    apply lookup_lt_Some in Hk' as Hlt. split_and!; auto. by rewrite until_after by lia.
Qed.

Lemma choose_points {A} (P : A → nat → Prop) (l : list A) :
  (∀ x, x ∈ l → ∃ k, P x k) → ∃ ks, Forall2 P l ks.
Proof.
  induction l as [|x l IH]; intros H; [by exists []|].
  destruct IH as [ks Hks]; [intros; apply H; by apply list_elem_of_further|].
  destruct (H x (list_elem_of_here _ _)) as [k Hk]. exists (k :: ks). by constructor.
Qed.

(** Two operations have different points. *)
Lemma points_distinct L g s ks :
  client_inv L g s → Forall2 (item_ok L (until (cs_now s + 1) g (length L)) s) (items L s) ks → NoDup ks.
Proof.
  intros Hc Hks. apply NoDup_alt. intros j j' k Hk Hk'.
  destruct (Forall2_lookup_r _ _ _ _ _ Hks Hk) as (d & Hd & Hs & HL & _).
  destruct (Forall2_lookup_r _ _ _ _ _ Hks Hk') as (d' & Hd' & Hs' & HL' & _).
  rewrite HL in HL'. injection HL' as E.
  destruct (ki_unique _ _ _ Hc _ _ _ _ Hs Hs' ltac:(by rewrite E)) as [Ed _].
  eapply NoDup_lookup; [by apply (items_nodup L g s)| |]; rewrite list_lookup_fmap; [by rewrite Hd|by rewrite Hd', Ed].
Qed.

(** Every change that takes effect is an operation of the history or one that
    a clerk still waits for. *)
Lemma change_has_item L g s k c t :
  client_inv L g s → (c, t) ∈ cs_sent s → L !! k = Some (command c) → changes (command c) = true →
  ∃ d, d ∈ items L s ∧ d_call d = c.
Proof.
  intros Hc Hs Hk Hw. destruct (ki_sent _ _ _ Hc _ _ Hs) as (_ & _ & ct & Hct & _).
  destruct (ki_client _ _ _ Hc _ _ Hct) as (_ & _ & Ha). unfold items. setoid_rewrite elem_of_app.
  destruct (Ha _ _ Hs eq_refl) as [Hwait|(d & -> & ?)%list_elem_of_fmap]; [|by eauto].
  exists (later (cs_now s) (c, t)). split; [right|done].
  apply list_elem_of_fmap. exists (c, t). split; [done|]. apply list_elem_of_filter.
  split; [|apply elem_of_waiting; eauto]. split; [done|]. exists (command c).
  split; [by eapply list_elem_of_lookup_2|done].
Qed.

Lemma items_linearize L g s : client_inv L g s → linearizes command (items L s).
Proof.
  intros Hc. pose proof (client_inv_until _ _ _ Hc) as Hc'.
  destruct (choose_points (item_ok L (until (cs_now s + 1) g (length L)) s) (items L s)) as [ks Hks];
    [intros; by apply item_point|].
  pose proof (Forall2_length _ _ _ Hks) as Hlen. pose proof (points_distinct _ _ _ _ Hc Hks) as Hnd.
  set (pts := zip ks (items L s)).
  assert (pts.*2 = items L s) as <- by (apply snd_zip; lia).
  assert (∀ k d, (k, d) ∈ pts → item_ok L (until (cs_now s + 1) g (length L)) s d k) as Hok.
  { intros k d [j (k' & d' & [= <- <-] & Hk & Hd)%lookup_zip_with_Some]%list_elem_of_lookup. by eapply Forall2_lookup_lr. }
  apply (points_linearize command L (until (cs_now s + 1) g (length L)) (ki_mono _ _ _ Hc')).
  - unfold pts. by rewrite fst_zip by lia.
  - intros k d Hin. by destruct (Hok _ _ Hin).
  - intros k op HL Hf. destruct (ki_log _ _ _ Hc _ _ HL) as (c & t & Hs & -> & _).
    destruct (change_has_item _ _ _ _ _ _ Hc Hs HL (proj1 Hf)) as (d & [j Hj]%list_elem_of_lookup & <-).
    destruct (Forall2_lookup_l _ _ _ _ _ Hks Hj) as (k' & Hk' & Hitem). exists d.
    assert (k = k') as ->; [|apply list_elem_of_lookup; exists j; apply lookup_zip_with_Some; eauto 6].
    destruct Hitem as (_ & HL' & Hkind & _). destruct Hf as [Hw Hf].
    destruct Hkind as [E|[_ Hf']]; [congruence|].
    destruct (Nat.lt_total k k') as [?|[->|?]]; [exfalso|done|exfalso].
    + apply Hf', take_idents. eauto 6.
    + apply Hf, take_idents. eauto 6.
Qed.

(** ** The history *)

(** What has returned, with some of what clerks still wait for, is linearizable. *)
Lemma clients_linearizable L g s :
  client_inv L g s → ∃ more, more `sublist_of` waiting s ∧
    linearizes command (cs_done s ++ (later (cs_now s) <$> more)).
Proof. intros Hc. exists (filter (taken L) (waiting s)). split; [apply sublist_filter|by eapply items_linearize]. Qed.

(** Every operation takes time, and none begins when another ends. *)
Lemma done_timely L g s d d' :
  client_inv L g s → d ∈ cs_done s → d' ∈ cs_done s → d_start d < d_end d ∧ d_end d ≠ d_start d'.
Proof.
  intros Hc Hd Hd'. destruct (ki_done _ _ _ Hc d Hd) as (_ & [? _] & _ & Hne).
  destruct (ki_done _ _ _ Hc d' Hd') as (Hs & _). split; [done|by eapply Hne].
Qed.

Lemma done_clerk_call L g s d : client_inv L g s → d ∈ cs_done s → clerk_call (d_call d).
Proof. intros Hc Hd. destruct (ki_done _ _ _ Hc d Hd) as (Hs & _). by destruct (ki_sent _ _ _ Hc _ _ Hs) as (_ & ? & _). Qed.
Lemma waiting_clerk_call L g s c t : client_inv L g s → (c, t) ∈ waiting s → clerk_call c.
Proof. intros Hc Hw. destruct (waiting_sent _ _ _ _ _ Hc Hw) as [Hs _]. by destruct (ki_sent _ _ _ Hc _ _ Hs) as (_ & ? & _). Qed.
End inv.
End clerks.
