(* ===== verification/Service.v ===== *)
(** * A replicated service: Raft, its servers, its clerks and the network

    [System] puts the pieces together: the Raft peers with their goroutines
    and RPCs ([Cluster]), on each peer a server with its handlers and its apply
    loop, the batch of committed entries its peer is sending on [applyCh], and
    the clerks.  Requests and replies stay on the network for ever: a request
    may reach any server any number of times, also late, and a reply may be
    lost.  The servers take no snapshots.

    [Server] is what a server does, [ServerLaws] the contract it keeps: after
    any steps it has applied the commands it has received, and a reply that a
    clerk accepts is the answer of the service at some place of the log.  Every
    service that keeps the contract is linearizable. *)
From stdpp Require Import base tactics strings numbers relations sets gmap list.
From S2P Require Import Prelude.
From S2P Require Import Labgob.
From S2P Require Import Persister.
From S2P Require Import Raft.
From S2P Require Import RaftFacts.
From S2P Require Import RaftApply.
From S2P Require Import RaftCluster.
From S2P Require Import RaftCommands.
From S2P Require Import RaftRefine.
From S2P Require Import RaftLog.
From S2P Require Import Commands.
From S2P Require Import Clerks.
Open Scope Z_scope.
Open Scope go_scope.

(** A server on a peer: it starts from stable storage, receives a message of
    the apply channel, begins to handle a call (with [Start]), goes on by
    itself, and has replies of handlers that have returned; [accepted] is what
    a method of the clerk returns on a reply, if it is satisfied with it. *)
Class Server (W Reply : Type) (SV : Type) {Method Ck Call Op St Ans : Type}
    `{!Commands Op St Ans} `{!Clerks Method Ck Call} := {
  sv_start (npeers i : Z) (ps : Persister (RaftGob Op) SV) : option W;
  sv_receive : Raft Op SV → ApplyMsg Op SV → W → W → Prop;
  sv_call : Raft Op SV → Call → W → W → Prop;
  sv_serve : Raft Op SV → W → W → Prop;
  sv_reply : W → Call → Reply → Prop;
  accepted : Call → Reply → option Ans
}.

(** [sv_ok w l]: the server has applied the commands [l] since it started. *)
Class ServerLaws (W Reply : Type) (SV : Type) {Method Ck Call Op St Ans : Type}
    `{!Commands Op St Ans} `{!Clerks Method Ck Call} `{!Server W Reply SV} := {
  allowed : Method → Prop;
  sv_ok : W → list Op → Prop;
  answered : list Op → Call → Ans → nat → Prop;
  start_ok npeers i ps w : ReadSnapshot ps = [] → sv_start npeers i ps = Some w → sv_ok w [];
  receive_ok rf m op w w' l : sv_ok w l → CommandValid m = true → Command m = AOp op →
    CommandIndex m = len l + 1 → sv_receive rf m w w' → sv_ok w' (l ++ [op]);
  call_ok rf c w w' l : sv_ok w l → sv_call rf c w w' → sv_ok w' l;
  serve_ok rf w w' l : sv_ok w l → sv_serve rf w w' → sv_ok w' l;
  reply_ok w c r v l : sv_ok w l → sv_reply w c r → accepted c r = Some v → ∃ k, answered l c v k;
  answered_prefix L L' c v k : L `prefix_of` L' → answered L c v k → answered L' c v k;
  answered_in L c v k : answered L c v k → ∃ op, L !! k = Some op ∧ ident op = ident (command c);
  answered_value L c v k : in_order L → from_clerks allowed L → clerk_call allowed c → L !! k = Some (command c) →
    answered L c v k → v = (spec_step (command c) (state_at L k)).2
}.

Section service.
Context {W Reply SV Method Ck Call Op St Ans : Type}.
Context `{!Commands Op St Ans} `{!Clerks Method Ck Call} `{!Server W Reply SV}.

Record System := mkSystem {
  sy_raft : Cluster (Op:=Op) (SV:=SV);
  sy_servers : gmap Z W;
  sy_sending : gmap Z (Batch Op SV);
  sy_clients : Clients (Ck:=Ck) (Call:=Call) (Ans:=Ans);
  sy_replies : list (Call * Reply)
}.

#[export] Instance System_eta : RecordEta System := λ s,
  mkSystem (sy_raft s) (sy_servers s) (sy_sending s) (sy_clients s) (sy_replies s).

Definition put_server (i : Z) (w : W) (s : System) : System := s <| sy_servers ::= <[i := w]> |>.

Section steps.
Context (N : Z) (may_call : Method → Prop).

Inductive sy_step (s : System) : System → Prop :=
| sy_peers l c' :
    cl_does N (sy_raft s) l c' → peer_label l = true →
    sy_step s (s <| sy_raft := c' |> <| sy_sending ::= hand_over (label_batch l (sy_raft s)) |>)
| sy_apply i m ms k rf w w' :
    sy_sending s !! i = Some (m :: ms, k) → nodes (sy_raft s) !! i = Some rf → sy_servers s !! i = Some w →
    sv_receive rf m w w' → sy_step s (put_server i w' (s <| sy_sending ::= <[i := (ms, k)]> |>))
| sy_resume i k c' :
    sy_sending s !! i = Some ([], k) → cl_does N (sy_raft s) (LRun i (ResumeApply k)) c' →
    sy_step s (s <| sy_raft := c' |>
      <| sy_sending ::= λ m, hand_over (label_batch (LRun i (ResumeApply k)) (sy_raft s)) (delete i m) |>)
| sy_call i c t rf w w' c' :
    (c, t) ∈ cs_sent (sy_clients s) → nodes (sy_raft s) !! i = Some rf → sy_servers s !! i = Some w →
    sv_call rf c w w' → cl_does N (sy_raft s) (LRun i (StartCommand (AOp (command c)))) c' →
    sy_step s (put_server i w' (s <| sy_raft := c' |>))
| sy_serve i rf w w' :
    nodes (sy_raft s) !! i = Some rf → sy_servers s !! i = Some w → sv_serve rf w w' →
    sy_step s (put_server i w' s)
| sy_reply i rf w c r :
    nodes (sy_raft s) !! i = Some rf → sy_servers s !! i = Some w → sv_reply w c r →
    sy_step s (s <| sy_replies ::= cons (c, r) |>)
| sy_invoke id ck m t :
    cs_clients (sy_clients s) !! id = Some (mkClient ck None) → cs_now (sy_clients s) < t → may_call m →
    sy_step s (s <| sy_clients ::= invoked id ck m t |>)
| sy_return id ck c t r v t' :
    cs_clients (sy_clients s) !! id = Some (mkClient ck (Some (c, t))) → (c, r) ∈ sy_replies s →
    accepted c r = Some v → cs_now (sy_clients s) < t' →
    sy_step s (s <| sy_clients ::= finished id ck (mkDone c t v t') |>)
| sy_crash i rf w c' :
    nodes (sy_raft s) !! i = Some rf → cl_does N (sy_raft s) (LCrash i) c' →
    sv_start N i (persister rf) = Some w →
    sy_step s (put_server i w (s <| sy_raft := c' |> <| sy_sending ::= delete i |>)).

(** The servers start for the first time; a clerk for each identifier. *)
Definition first_servers : gmap Z W :=
  list_to_map (omap (λ i, pair i <$> sv_start N i MakePersister) (range 0 (N - 1))).
Definition sy_init (clerk : Z → Ck) (ids : gset Z) : System :=
  mkSystem (cl_init N) first_servers ∅ (clients_init clerk ids) [].
End steps.

(** The operations that have returned. *)
Definition done (s : System) : list (Done Call Ans) := cs_done (sy_clients s).
Definition now (s : System) : Z := cs_now (sy_clients s).

(** ** The servers follow one log *)

Section laws.
Context `{!ServerLaws W Reply SV} (N : Z) (HN : 0 ≤ N).
Implicit Types (s : System) (w : W) (L : list Op) (rf : Raft Op SV) (ms : list (ApplyMsg Op SV)).

Definition ops_of ms : list Op := omap (λ m, match Command m with AOp op => Some op | _ => None end) ms.

Lemma ops_of_from L ms (lo : nat) :
  consecutive (Z.of_nat lo) ms → Forall (in_log L) ms → ops_of ms = take (length ms) (drop lo L).
Proof.
  revert lo. induction ms as [|m ms IH]; intros lo; [done|].
  intros (_ & Hi & Hc) [(op & Hop & _ & HL) Hms]%Forall_cons.
  rewrite Hi in HL. replace (Z.to_nat (Z.of_nat lo + 1 - 1)) with lo in HL by lia.
  rewrite (drop_S _ _ _ HL). cbn. rewrite Hop. cbn. f_equal.
  replace (Z.of_nat lo + 1) with (Z.of_nat (S lo)) in Hc by lia. apply (IH _ Hc Hms).
Qed.

Lemma ops_of_prefix L ms :
  consecutive 0 ms → Forall (in_log L) ms → ops_of ms `prefix_of` L ∧ length (ops_of ms) = length ms.
Proof.
  intros Hc Hms. pose proof (ops_of_from L ms 0 Hc Hms) as E. rewrite drop_0 in E. split.
  - exists (drop (length ms) L). by rewrite E, take_drop.
  - clear Hc E. induction Hms as [|m ms (op & Hop & _) _ IH]; [done|].
    unfold ops_of in *. cbn. rewrite Hop. cbn. by rewrite IH.
Qed.

Definition server_ok L rf w (b : option (Batch Op SV)) : Prop := ∃ ms, sends L rf b ms ∧ sv_ok w (ops_of ms).

Lemma server_ok_prefix L L' rf w b : L `prefix_of` L' → server_ok L rf w b → server_ok L' rf w b.
Proof. intros HL (ms & ? & ?). exists ms. split; [by eapply sends_prefix|done]. Qed.

(** What a server has applied is the beginning of the log, and the next message
    is the next command. *)
Lemma server_ok_spec L rf w b :
  server_ok L rf w b → ∃ l, l `prefix_of` L ∧ sv_ok w l ∧
    match b with
    | Some (m :: _, _) => ∃ op, CommandValid m = true ∧ Command m = AOp op ∧
        CommandIndex m = len l + 1 ∧ L !! length l = Some op
    | _ => True
    end.
Proof.
  intros (ms & (Hpl & Hms & Hb) & Hok). destruct (ops_of_prefix L ms) as [Hpre Hlen]; [apply (pi_delivered _ _ Hpl)|done|].
  exists (ops_of ms). split_and!; [done|done|]. destruct b as [[[|m msgs] k]|]; [done| |done].
  apply Forall_cons in Hb as [(op & Hop & _ & HL) _].
  destruct (pi_batch _ _ Hpl) as (_ & _ & _ & Hcon). cbn in Hcon. destruct Hcon as (Hv & Hi & _).
  unfold len in *. exists op. split_and!; [done|done|lia|].
  rewrite Hlen, <- HL. f_equal. lia.
Qed.

Lemma server_ok_receive L rf w w' m msgs k :
  server_ok L rf w (Some (m :: msgs, k)) → sv_receive rf m w w' → server_ok L rf w' (Some (msgs, k)).
Proof.
  intros Hok Hr. destruct Hok as (ms & Hs & Hw). pose proof Hs as (Hpl & Hms & [(op & Hop & _) _]%Forall_cons).
  destruct (pi_batch _ _ Hpl) as (_ & _ & _ & Hcon). cbn in Hcon. destruct Hcon as (Hv & Hi & _).
  destruct (ops_of_prefix L ms) as [_ Hlen]; [apply (pi_delivered _ _ Hpl)|done|].
  exists (ms ++ [m]). split; [by apply sends_message|].
  assert (ops_of (ms ++ [m]) = ops_of ms ++ [op]) as -> by (unfold ops_of; rewrite omap_app; cbn; by rewrite Hop).
  eapply receive_ok; [exact Hw|done|done| |exact Hr]. unfold len in *. lia.
Qed.

Lemma server_ok_section L rf w b sec :
  server_ok L rf w b → is_resume sec = false →
  (∀ n, local_section n sec) ∨
    (∃ args, sec = HandleSnapshot args ∧ isa_LastIncludedIndex args ≤ lastIncludedIndex rf) →
  (∀ msgs k, section_batch sec rf = Some (msgs, k) → Forall (in_log L) msgs) →
  server_ok L (run_section sec rf) w (match section_batch sec rf with Some b' => Some b' | None => b end).
Proof. intros (ms & ? & ?) ???. exists ms. split; [by apply sends_section|done]. Qed.

Lemma server_ok_resume L rf w k :
  server_ok L rf w (Some ([], k)) →
  (∀ msgs k', section_batch (ResumeApply k) rf = Some (msgs, k') → Forall (in_log L) msgs) →
  server_ok L (run_section (ResumeApply k) rf) w (section_batch (ResumeApply k) rf).
Proof. intros (ms & ? & ?) ?. exists ms. split; [by apply sends_resume|done]. Qed.

Lemma server_ok_keep L rf w w' b : (∀ l, sv_ok w l → sv_ok w' l) → server_ok L rf w b → server_ok L rf w' b.
Proof. intros H (ms & ? & ?). exists ms. auto. Qed.

Lemma server_ok_start L i ps w :
  raft_wf (Make N i ps) → lastIncludedIndex (Make N i ps) = 0 → ReadSnapshot ps = [] →
  sv_start N i ps = Some w → server_ok L (Make N i ps) w None.
Proof. intros ? ? Hsn Hst. exists []. split; [by apply sends_start|]. by eapply start_ok. Qed.

(** ** The system *)

Record log_inv L s : Prop := {
  li_shares : shares N (sent_op (sy_clients s)) (sy_raft s) L;
  li_servers i rf w : nodes (sy_raft s) !! i = Some rf → sy_servers s !! i = Some w →
    server_ok L rf w (sy_sending s !! i);
  li_replies c r v : (c, r) ∈ sy_replies s → accepted c r = Some v → ∃ k, answered L c v k
}.

Lemma li_cl_inv L s : log_inv L s → cl_inv N (sy_raft s).
Proof. intros H. by destruct (li_shares _ _ H) as (_ & _ & _ & A & G & t & (? & _) & _). Qed.

Lemma log_inv_sent L s : log_inv L s → Forall (sent_op (sy_clients s)) L.
Proof. intros H. by destruct (li_shares _ _ H) as (_ & _ & ? & _). Qed.

(** The batch that the goroutine of a peer has in hand. *)
Lemma li_batch L s i rf w b :
  log_inv L s → nodes (sy_raft s) !! i = Some rf → sy_servers s !! i = Some w → sy_sending s !! i = b →
  server_ok L rf w b.
Proof. intros Hinv ? ? <-. by apply (li_servers _ _ Hinv). Qed.

(** The list grows with a step of the peers. *)
Lemma raft_moves L s l c' :
  log_inv L s → cl_does N (sy_raft s) l c' → snapshot_free l = true →
  (∀ command, label_command l = Some command → ∃ op, command = AOp op ∧ sent_op (sy_clients s) op) →
  ∃ L', L `prefix_of` L' ∧ shares N (sent_op (sy_clients s)) c' L' ∧
    (∀ i rf w, nodes (sy_raft s) !! i = Some rf → sy_servers s !! i = Some w →
       server_ok L' rf w (sy_sending s !! i)) ∧
    (∀ c r v, (c, r) ∈ sy_replies s → accepted c r = Some v → ∃ k, answered L' c v k).
Proof.
  intros [Hsh Hsrv Hre] Hdo Hf Hl.
  destruct (shares_step N HN _ (sent_op (sy_clients s)) _ _ _ _ Hdo Hf (λ _ H, H) Hl Hsh) as (L' & HL & Hsh').
  exists L'. split_and!; [done|done|eauto using server_ok_prefix|].
  intros c r v Hin Hok. destruct (Hre c r v Hin Hok) as (k & Hk). eauto using answered_prefix.
Qed.

Lemma peers_log_inv L s l c' :
  log_inv L s → cl_does N (sy_raft s) l c' → peer_label l = true →
  ∃ L', L `prefix_of` L' ∧
    log_inv L' (s <| sy_raft := c' |> <| sy_sending ::= hand_over (label_batch l (sy_raft s)) |>).
Proof.
  intros Hinv Hdo Hp.
  destruct (raft_moves L s l c' Hinv Hdo (peer_label_free _ Hp)) as (L' & HL & Hsh & Hsrv & Hre).
  { by rewrite (peer_label_command _ Hp). }
  exists L'. split; [done|]. split; cbn; [done| |done].
  pose proof (cl_does_nodes N _ _ _ Hdo) as Hns. destruct l as [|j sec|]; [| |done].
  - intros i rf w. rewrite Hns. apply Hsrv.
  - destruct Hns as (rf0 & Hj & _ & Hns).
    destruct (label_batch_run j sec rf0 (sy_raft s) (sy_sending s) Hj) as [Hb Hbne].
    intros i rf w. rewrite Hns.
    intros [[<- <-]|[Hne Hi]]%lookup_insert_Some Hw; [|rewrite Hbne by done; eauto].
    rewrite Hb. apply server_ok_section; [eauto|by destruct sec| |].
    + destruct sec; try discriminate Hp; try (by left). right. eexists. split; [done|].
      eapply uncompacted_snapshot; [exact Hdo|apply (li_shares _ _ Hinv)|done].
    + intros msgs k Hm. eapply batch_in_log; [exact Hdo|by eapply li_cl_inv|done|exact Hsh|exact Hm].
Qed.

Lemma resume_log_inv L s i k c' :
  log_inv L s → sy_sending s !! i = Some ([], k) →
  cl_does N (sy_raft s) (LRun i (ResumeApply k)) c' →
  ∃ L', L `prefix_of` L' ∧ log_inv L' (s <| sy_raft := c' |>
    <| sy_sending ::= λ m, hand_over (label_batch (LRun i (ResumeApply k)) (sy_raft s)) (delete i m) |>).
Proof.
  intros Hinv Hs Hdo.
  destruct (raft_moves L s _ c' Hinv Hdo eq_refl) as (L' & HL & Hsh & Hsrv & Hre); [done|].
  exists L'. split; [done|]. split; cbn -[label_batch]; [done| |done].
  destruct (cl_does_nodes N _ _ _ Hdo) as (rf0 & Hj & _ & Hns).
  destruct (label_batch_run i (ResumeApply k) rf0 (sy_raft s) (delete i (sy_sending s)) Hj) as [Hb Hbne].
  intros j rf w. rewrite Hns.
  intros [[<- <-]|[Hne Hi]]%lookup_insert_Some Hw.
  - rewrite Hb.
    assert (∀ b, sy_sending s !! i = b → server_ok L' rf0 w b) as Hok by (intros b <-; eauto).
    specialize (Hok _ Hs).
    replace (match section_batch _ rf0 with Some b => Some b | None => _ end)
      with (section_batch (ResumeApply k) rf0)
      by (rewrite lookup_delete_eq; by destruct (section_batch _ rf0)).
    apply server_ok_resume; [done|]. intros msgs k' Hm.
    eapply batch_in_log; [exact Hdo|by eapply li_cl_inv|done|exact Hsh|exact Hm].
  - rewrite Hbne by done. rewrite lookup_delete_ne by done. eauto.
Qed.

(** The server of one peer changes, and the peers do not. *)
Lemma put_server_log_inv L s i w b :
  log_inv L s → (∀ rf, nodes (sy_raft s) !! i = Some rf → server_ok L rf w b) →
  log_inv L (put_server i w s <| sy_sending ::= partial_alter (λ _, b) i |>).
Proof.
  intros [Hsh Hsrv Hre] Hw. split; [done| |done]. intros j rf w' Hj. cbn.
  intros [[<- <-]|[Hne Hw']]%lookup_insert_Some.
  - rewrite lookup_partial_alter_eq. by apply Hw.
  - rewrite lookup_partial_alter_ne by done. eauto.
Qed.

Lemma keep_sending L s i w :
  log_inv L (put_server i w s <| sy_sending ::= partial_alter (λ _, sy_sending s !! i) i |>) →
  log_inv L (put_server i w s).
Proof.
  intros [Hsh Hsrv Hre]. split; [done| |done]. intros j rf w' Hj Hw'.
  specialize (Hsrv j rf w' Hj Hw'). cbn in *. destruct (decide (i = j)) as [<-|Hne].
  - by rewrite lookup_partial_alter_eq in Hsrv.
  - by rewrite lookup_partial_alter_ne in Hsrv.
Qed.

Lemma apply_log_inv L s i m ms k rf w w' :
  log_inv L s → sy_sending s !! i = Some (m :: ms, k) → nodes (sy_raft s) !! i = Some rf →
  sy_servers s !! i = Some w → sv_receive rf m w w' →
  log_inv L (put_server i w' (s <| sy_sending ::= <[i := (ms, k)]> |>)).
Proof.
  intros Hinv Hs Hi Hw Hr. apply (put_server_log_inv L s i _ (Some (ms, k)) Hinv). intros rf' Hi'. simplify_eq.
  eapply server_ok_receive; [by eapply li_batch|done].
Qed.

Lemma serve_log_inv L s i rf w w' :
  log_inv L s → nodes (sy_raft s) !! i = Some rf → sy_servers s !! i = Some w → sv_serve rf w w' →
  log_inv L (put_server i w' s).
Proof.
  intros Hinv Hi Hw Hstep. apply keep_sending, put_server_log_inv; [done|]. intros rf' Hi'. simplify_eq.
  eapply server_ok_keep; [|by eapply li_servers]. intros l Hl. by eapply serve_ok.
Qed.

Lemma call_log_inv L s i c t rf w w' c' :
  log_inv L s → (c, t) ∈ cs_sent (sy_clients s) → nodes (sy_raft s) !! i = Some rf → sy_servers s !! i = Some w →
  sv_call rf c w w' → cl_does N (sy_raft s) (LRun i (StartCommand (AOp (command c)))) c' →
  ∃ L', L `prefix_of` L' ∧ log_inv L' (put_server i w' (s <| sy_raft := c' |>)).
Proof.
  intros Hinv Hc Hi Hw Hst Hdo.
  destruct (raft_moves L s _ c' Hinv Hdo eq_refl) as (L' & HL & Hsh & Hsrv & Hre).
  { intros x [= <-]. exists (command c). split; [done|]. by exists c, t. }
  destruct (cl_does_nodes N _ _ _ Hdo) as (rf0 & Hj & _ & Hns). simplify_eq.
  exists L'. split; [done|].
  assert (server_ok L' (run_section (StartCommand (AOp (command c))) rf) w (sy_sending s !! i)) as Hok.
  { apply (server_ok_section L' rf w (sy_sending s !! i) (StartCommand (AOp (command c)))); eauto.
    - by left.
    - done. }
  apply keep_sending, put_server_log_inv; [split; cbn; [done| |done]|]; cbn.
  - intros j rf' w0. rewrite Hns. intros [[<- <-]|[Hne Hi']]%lookup_insert_Some Hw'; [|eauto].
    by simplify_eq.
  - intros rf'. rewrite Hns, lookup_insert_eq. intros [= <-].
    eapply server_ok_keep; [|exact Hok]. intros l Hl. by eapply call_ok.
Qed.

Lemma crash_log_inv L s i rf w c' :
  log_inv L s → nodes (sy_raft s) !! i = Some rf → cl_does N (sy_raft s) (LCrash i) c' →
  sv_start N i (persister rf) = Some w →
  ∃ L', L `prefix_of` L' ∧ log_inv L' (put_server i w (s <| sy_raft := c' |> <| sy_sending ::= delete i |>)).
Proof.
  intros Hinv Hi Hdo Hst.
  destruct (raft_moves L s _ c' Hinv Hdo eq_refl) as (L' & HL & Hsh & Hsrv & Hre); [done|].
  destruct (cl_does_nodes N _ _ _ Hdo) as (rf0 & Hj & Hns). simplify_eq.
  exists L'. split; [done|].
  destruct (ni_node _ _ _ _ (ci_node _ _ (li_cl_inv _ _ Hinv)) _ _ Hi) as (Hwf & Hd & Hp & Hm & _).
  assert (Make N i (persister rf) = restart rf) as Hmk by (unfold restart; by rewrite Hp, Hm).
  split; cbn; [done| |done].
  intros j rf' w'. rewrite Hns. intros [[<- <-]|[Hne Hi']]%lookup_insert_Some.
  - intros [[_ <-]|[? _]]%lookup_insert_Some; [|done]. rewrite lookup_delete_eq, <- Hmk.
    apply server_ok_start; [rewrite Hmk; by apply restart_wf| | |done].
    + rewrite Hmk. destruct Hsh as (Hu & _). eapply (uc_nodes _ Hu i). rewrite Hns. apply lookup_insert_eq.
    + destruct (li_shares _ _ Hinv) as (Hu & _). by eapply (uc_nodes _ Hu i).
  - rewrite lookup_insert_ne, lookup_delete_ne by done. eauto.
Qed.

Lemma shares_more P P' (c : Cluster (Op:=Op) (SV:=SV)) L :
  (∀ op, P op → P' op) → shares N P c L → shares N P' c L.
Proof.
  intros HP (Hu & Hg & HL & Hrest). split_and!; [done| |by eapply Forall_impl|done].
  eapply commands_given_more; [|exact Hg]. intros x (op & ? & ?). eauto.
Qed.

Lemma clients_log_inv L s cs :
  (∀ op, sent_op (sy_clients s) op → sent_op cs op) → log_inv L s → log_inv L (s <| sy_clients := cs |>).
Proof. intros Hcs [Hsh Hsrv Hre]. split; cbn; [by eapply shares_more|done|done]. Qed.

Lemma reply_log_inv L s i rf w c r :
  log_inv L s → nodes (sy_raft s) !! i = Some rf → sy_servers s !! i = Some w → sv_reply w c r →
  log_inv L (s <| sy_replies ::= cons (c, r) |>).
Proof.
  intros [Hsh Hsrv Hre] Hi Hw Hr. split; cbn; [done|done|].
  intros c' r' v [[= -> ->]|Hin']%elem_of_cons Hok; [|eauto].
  destruct (server_ok_spec _ _ _ _ (Hsrv _ _ _ Hi Hw)) as (l & Hl & Hlw & _).
  destruct (reply_ok _ _ _ _ _ Hlw Hr Hok) as (k & Hk). eauto using answered_prefix.
Qed.

(** ** Runs *)

Definition sys_inv L s : Prop := log_inv L s ∧ ∃ g, client_inv allowed answered L g (sy_clients s).

Lemma sy_step_inv L s s' :
  sy_step N allowed s s' → sys_inv L s → ∃ L', L `prefix_of` L' ∧ sys_inv L' s'.
Proof.
  intros Hstep (Hl & g & Hc).
  assert (∀ s2, (∃ L', L `prefix_of` L' ∧ log_inv L' s2) → sy_clients s2 = sy_clients s →
    ∃ L', L `prefix_of` L' ∧ sys_inv L' s2) as Hlog.
  { intros s2 (L' & HL & Hl') E. exists L'. split; [done|]. split; [done|]. exists g. rewrite E.
    eapply client_inv_log; [apply answered_prefix|done|done|]. rewrite <- E. by apply log_inv_sent. }
  destruct Hstep as [l c' Hdo Hp|i m ms k rf w w' Hs Hi Hw Hr|i k c' Hs Hdo|i c t rf w w' c' Hc' Hi Hw Hst Hdo
    |i rf w w' Hi Hw Hst|i rf w c r Hi Hw Hr|id ck m t Hid Ht Hm|id ck c t r v t' Hid Hr Hv Ht|i rf w c' Hi Hdo Hst].
  - apply Hlog; [by eapply peers_log_inv|done].
  - apply Hlog; [|done]. exists L. split; [done|]. by eapply apply_log_inv.
  - apply Hlog; [by eapply resume_log_inv|done].
  - apply Hlog; [by eapply call_log_inv|done].
  - apply Hlog; [|done]. exists L. split; [done|]. by eapply serve_log_inv.
  - apply Hlog; [|done]. exists L. split; [done|]. by eapply reply_log_inv.
  - exists L. split; [done|]. split; [|eexists; by apply client_inv_invoke].
    apply (clients_log_inv L s (invoked id ck m t (sy_clients s))); [|done].
    intros op (c & t' & ? & ?). exists c, t'. split; [by apply list_elem_of_further|done].
  - destruct (li_replies _ _ Hl c r v) as (k & Hk); [done|done|].
    exists L. split; [done|]. split; [|eexists; eapply client_inv_return; [apply answered_in|done..]].
    by apply (clients_log_inv L s (finished id ck (mkDone c t v t') (sy_clients s))).
  - apply Hlog; [by eapply crash_log_inv|done].
Qed.

Lemma sy_steps_inv L s s' :
  rtc (sy_step N allowed) s s' → sys_inv L s → ∃ L', L `prefix_of` L' ∧ sys_inv L' s'.
Proof.
  intros H. revert L. induction H as [s|s1 s2 s3 H _ IH]; intros L Hinv; [by exists L|].
  destruct (sy_step_inv _ _ _ H Hinv) as (L1 & H1 & Hinv1).
  destruct (IH _ Hinv1) as (L2 & H2 & Hinv2). exists L2. split; [by etrans|done].
Qed.

Lemma sy_init_inv clerk ids : (∀ id, ck_id (clerk id) = id) → sys_inv [] (sy_init N clerk ids).
Proof.
  intros Hck. split; [|exists (λ _, 0%nat); by apply clients_init_inv].
  split; cbn; [by apply cl_init_shares| |by intros c r v ?%not_elem_of_nil].
  intros i rf w Hi%elem_of_list_to_map_2 Hw%elem_of_list_to_map_2. rewrite lookup_empty.
  apply list_elem_of_fmap in Hi as (j & [= -> ->] & Hj).
  apply list_elem_of_omap in Hw as (j' & _ & Hst). destruct (sv_start N j' MakePersister) as [w'|] eqn:E; [|done].
  injection Hst as -> ->. apply elem_of_seqZ in Hj. apply server_ok_start; [|done..].
  apply Make_init_inv. lia.
Qed.

Lemma sy_reachable_inv clerk ids s :
  (∀ id, ck_id (clerk id) = id) → rtc (sy_step N allowed) (sy_init N clerk ids) s → ∃ L, sys_inv L s.
Proof. intros Hck H. destruct (sy_steps_inv _ _ _ H (sy_init_inv _ _ Hck)) as (L & _ & ?). by exists L. Qed.

(** What has returned, with some of what clerks still wait for, is
    linearizable. *)
Lemma sys_linearizable L s :
  sys_inv L s → ∃ more, more `sublist_of` waiting (sy_clients s) ∧
    linearizes command (done s ++ (later (now s) <$> more)).
Proof.
  intros (_ & g & Hc). eapply (clients_linearizable allowed answered); [apply answered_in| |exact Hc].
  apply answered_value.
Qed.

(** Every server has applied a prefix of the log, and gets the next command. *)
Lemma sys_server L s i rf w b :
  sys_inv L s → nodes (sy_raft s) !! i = Some rf → sy_servers s !! i = Some w → sy_sending s !! i = b →
  ∃ l, l `prefix_of` L ∧ sv_ok w l ∧
    match b with
    | Some (m :: _, _) => ∃ op, CommandValid m = true ∧ Command m = AOp op ∧
        CommandIndex m = len l + 1 ∧ L !! length l = Some op
    | _ => True
    end.
Proof. intros (Hl & _) ? ? ?. eapply server_ok_spec, li_batch; done. Qed.

(** The log holds calls the clerks made, each client's in order. *)
Lemma sys_log L s :
  sys_inv L s → Forall (sent_op (sy_clients s)) L ∧ from_clerks allowed L ∧ in_order L.
Proof.
  intros (Hl & g & Hc). split_and!; [by apply log_inv_sent|by eapply log_from_clerks|].
  eapply log_in_order; [apply answered_in|exact Hc].
Qed.

(** A call that has returned is in the log, with the answer of that place. *)
Lemma sys_done L s d :
  sys_inv L s → d ∈ done s →
  (d_call d, d_start d) ∈ cs_sent (sy_clients s) ∧ ∃ k, L !! k = Some (command (d_call d)) ∧
    d_value d = (spec_step (command (d_call d)) (state_at L k)).2.
Proof.
  intros (_ & g & Hc) Hd. destruct (done_point allowed answered answered_in answered_value L g _ d Hc Hd)
    as (k & Hs & Hk & _ & Hv & _). split; [done|]. by exists k.
Qed.

(** A reply a clerk would accept is the answer at a place of the log. *)
Lemma sys_reply L s c r v :
  sys_inv L s → (c, r) ∈ sy_replies s → accepted c r = Some v → ∃ k, answered L c v k.
Proof. intros (Hl & _). by apply (li_replies _ _ Hl). Qed.
End laws.
End service.
