(* ===== verification/KVModel.v ===== *)
(** * models/kv.go: the sequential specification of the key/value service

    [KvModel] is what the linearizability checker compares histories with: the
    state of one key is a string, and [Step] says which output an operation
    may have in a state and which state it leaves.  [Partition] groups a
    history by key.  [kv_spec] is the whole service that results, a map from
    keys to the states of the per-key model. *)
From stdpp Require Import base tactics list gmap strings numbers sorting.
From S2P Require Import Prelude.
Open Scope Z_scope.
Open Scope go_scope.

(** [Op] is a [uint8]: 0 is get, 1 put, everything else append. *)
Record KvInput := mkKvInput { ki_Op : Z; ki_Key : string; ki_Value : string }.
Record KvOutput := mkKvOutput { ko_Value : string }.

Module KvModel.

Definition Init : string := "".

Definition Step (st : string) (inp : KvInput) (out : KvOutput) : bool * string :=
  if ki_Op inp =? 0 then (bool_decide (ko_Value out = st), st)
  else if ki_Op inp =? 1 then (true, ki_Value inp)
  else (true, st +:+ ki_Value inp).

(** The comparison [sort.Strings] uses, bytewise. *)
Definition string_le (s t : string) : Prop := String.leb s t = true.
#[export] Instance string_le_dec s t : Decision (string_le s t).
Proof. unfold string_le. apply _. Defined.

(** [Partition]: the map of slices the first loop fills, then the slices in
    the order of the sorted keys.  [merge_sort] stands for [sort.Strings]. *)
Definition group_by_key {A} (key : A → string) (history : list A) : gmap string (list A) :=
  foldl (λ m v, <[key v := map_get [] m (key v) ++ [v]]> m) ∅ history.

Definition Partition {A} (key : A → string) (history : list A) : list (list A) :=
  let m := group_by_key key history in
  (λ k, map_get [] m k) <$> merge_sort string_le (map_to_list m).*1.

(** The text an operation is shown with. *)
Definition DescribeOperation (inp : KvInput) (out : KvOutput) : string :=
  if ki_Op inp =? 0 then "get('" +:+ ki_Key inp +:+ "') -> '" +:+ ko_Value out +:+ "'"
  else if ki_Op inp =? 1 then "put('" +:+ ki_Key inp +:+ "', '" +:+ ki_Value inp +:+ "')"
  else if ki_Op inp =? 2 then "append('" +:+ ki_Key inp +:+ "', '" +:+ ki_Value inp +:+ "')"
  else "<invalid>".

End KvModel.

(** The service as one map: an operation with its output is a step when the
    model of its key allows it; the other keys keep their state. *)
Definition kv_spec (m m' : gmap string string) (inp : KvInput) (out : KvOutput) : Prop :=
  ∃ st', KvModel.Step (map_get KvModel.Init m (ki_Key inp)) inp out = (true, st') ∧
    map_get KvModel.Init m' (ki_Key inp) = st' ∧
    ∀ k, k ≠ ki_Key inp → m' !! k = m !! k.

(** A sequential execution of the service. *)
Inductive kv_execution : gmap string string → list (KvInput * KvOutput) → gmap string string → Prop :=
| kv_exec_nil m : kv_execution m [] m
| kv_exec_cons m m1 m2 inp out es :
    kv_spec m m1 inp out → kv_execution m1 es m2 → kv_execution m ((inp, out) :: es) m2.

Lemma kv_execution_snoc m es m1 inp out m2 :
  kv_execution m es m1 → kv_spec m1 m2 inp out → kv_execution m (es ++ [(inp, out)]) m2.
Proof.
  induction 1 as [|m ma mb i o es Hs _ IH]; intros; cbn; econstructor; eauto using kv_exec_nil.
Qed.

(** ** Partition *)

Lemma group_by_key_lookup {A} (key : A → string) history k :
  map_get [] (KvModel.group_by_key key history) k = filter (λ v, key v = k) history.
Proof.
  unfold KvModel.group_by_key. induction history as [|v history IH] using rev_ind; [done|].
  rewrite foldl_app, filter_app, filter_cons, filter_nil. cbn.
  unfold map_get in *. destruct (decide (key v = k)) as [->|Hne].
  - rewrite lookup_insert_eq. cbn. by rewrite IH.
  - rewrite lookup_insert_ne by done. by rewrite IH, app_nil_r.
Qed.

Lemma group_by_key_dom {A} (key : A → string) history k :
  k ∈ dom (KvModel.group_by_key key history) ↔ ∃ v, v ∈ history ∧ key v = k.
Proof.
  unfold KvModel.group_by_key. induction history as [|v history IH] using rev_ind.
  - cbn. set_solver.
  - rewrite foldl_app. cbn. rewrite dom_insert. set_solver.
Qed.
