(* ===== verification/KVServer.v ===== *)
(** * kvraft/server.go and kvraft/common.go: one server of the key/value service

    The server's state and the critical sections of its methods, on top of the
    Raft peer of Raft.v: [kv_rf] is the peer, whose commands are [Op]s and whose
    snapshots are gob streams of [KVSnapshot]s.  A Go channel is a position in
    the heap [chans] of the channels the server has made, each a buffer of
    capacity one, since two handlers can hold the same channel.  [None] as a
    result is the end of the process: a failed type assertion or [log.Fatal]. *)
From stdpp Require Import base tactics list gmap strings numbers relations.
From S2P Require Import Prelude.
From S2P Require Import Labgob.
From S2P Require Import Persister.
From S2P Require Import Raft.
Open Scope Z_scope.
Open Scope go_scope.

Definition OK : string := "OK".
Definition ErrNoKey : string := "ErrNoKey".
Definition ErrWrongLeader : string := "ErrWrongLeader".
Definition ErrTimeout : string := "ErrTimeout".

Record PutAppendArgs := mkPAArgs {
  paa_Key : string; paa_Value : string; paa_Op : string; paa_ClientId : Z; paa_RequestId : Z }.
Record PutAppendReply := mkPAReply { par_Err : string }.
Record GetArgs := mkGetArgs { ga_Key : string; ga_ClientId : Z; ga_RequestId : Z }.
Record GetReply := mkGetReply { gr_Err : string; gr_Value : string }.

Record Op := mkOp {
  OpType : string; Key : string; Value : string; ClientID : Z; RequestID : Z }.

#[export] Instance Op_eq_dec : EqDecision Op.
Proof. solve_decision. Defined.

Record ApplyResult := mkResult { res_Op : Op; res_Value : string }.
Record KVSnapshot := mkSnapshot { snap_KV : gmap string string; snap_LastReqID : gmap Z Z }.

Definition sameOp (a b : Op) : bool :=
  (ClientID a =? ClientID b) && (RequestID a =? RequestID b)
  && bool_decide (OpType a = OpType b) && bool_decide (Key a = Key b)
  && bool_decide (Value a = Value b).

Record KVServer := mkKV {
  kv_me : Z;
  kv_rf : Raft Op KVSnapshot;      (* its persister is [kv.persister] too *)
  kv_dead : bool;
  maxraftstate : Z;
  kvStore : gmap string string;
  lastAppliedReq : gmap Z Z;
  notify : gmap Z nat;
  appliedResults : gmap Z ApplyResult;
  chans : list (option ApplyResult)
}.

#[export] Instance KVServer_eta : RecordEta KVServer := λ kv,
  mkKV (kv_me kv) (kv_rf kv) (kv_dead kv) (maxraftstate kv) (kvStore kv) (lastAppliedReq kv)
    (notify kv) (appliedResults kv) (chans kv).

(** ** The state machine *)

Definition shouldApply (clientID reqID : Z) (kv : KVServer) : bool :=
  match lastAppliedReq kv !! clientID with
  | Some last => last <? reqID
  | None => true
  end.

(** The [switch] of [applier]: the new state and the value a [Get] returns. *)
Definition applyOp (op : Op) (kv : KVServer) : KVServer * string :=
  if decide (OpType op = "Get") then (kv, map_get "" (kvStore kv) (Key op))
  else if decide (OpType op = "Put") then
    if shouldApply (ClientID op) (RequestID op) kv
    then (kv <| kvStore ::= <[Key op := Value op]> |>
             <| lastAppliedReq ::= <[ClientID op := RequestID op]> |>, "")
    else (kv, "")
  else if decide (OpType op = "Append") then
    if shouldApply (ClientID op) (RequestID op) kv
    then
      let cur := map_get "" (kvStore kv) (Key op) in
      (kv <| kvStore ::= <[Key op := cur +:+ Value op]> |>
          <| lastAppliedReq ::= <[ClientID op := RequestID op]> |>, "")
    else (kv, "")
  else (kv, "").

(** ** Channels *)

Definition make_chan (kv : KVServer) : KVServer * nat :=
  (kv <| chans ::= λ cs, cs ++ [None] |>, length (chans kv)).

(** [select { case ch <- res: default: }] *)
Definition offer (ch : nat) (res : ApplyResult) (kv : KVServer) : KVServer :=
  match chans kv !! ch with
  | Some None => kv <| chans ::= <[ch := Some res]> |>
  | _ => kv
  end.

(** [res := <-ch]; [None]: the handler keeps waiting. *)
Definition receive (ch : nat) (kv : KVServer) : option (KVServer * ApplyResult) :=
  match chans kv !! ch with
  | Some (Some res) => Some (kv <| chans ::= <[ch := None]> |>, res)
  | _ => None
  end.

Definition getNotifyCh (index : Z) (kv : KVServer) : KVServer * nat :=
  match notify kv !! index with
  | Some ch => (kv, ch)
  | None =>
      let '(kv, ch) := make_chan kv in
      let kv := kv <| notify ::= <[index := ch]> |> in
      match appliedResults kv !! index with
      | Some res => (offer ch res kv, ch)
      | None => (kv, ch)
      end
  end.

Definition removeNotifyCh (index : Z) (kv : KVServer) : KVServer :=
  kv <| notify ::= delete index |> <| appliedResults ::= delete index |>.

Definition trimNotifications (snapshotIndex : Z) (kv : KVServer) : KVServer :=
  kv <| notify ::= filter (λ e, ¬ e.1 ≤ snapshotIndex) |>
     <| appliedResults ::= filter (λ e, ¬ e.1 ≤ snapshotIndex) |>.

(** ** Snapshots *)

(** [for k, v := range m { copy[k] = v }] into an empty map. *)
Definition copy_map {K V} `{Countable K} (m : gmap K V) : gmap K V :=
  foldl (λ c e, <[e.1 := e.2]> c) ∅ (map_to_list m).

Definition encodeSnapshot (kv : KVServer) : list KVSnapshot :=
  EncodeAll [mkSnapshot (copy_map (kvStore kv)) (copy_map (lastAppliedReq kv))].

Definition restoreSnapshot (data : list KVSnapshot) (kv : KVServer) : option KVServer :=
  if len data =? 0 then Some kv
  else
    match (Decode Some (NewDecoder data)).1 with
    | None => None
    | Some snap => Some (kv <| kvStore := copy_map (snap_KV snap) |>
                            <| lastAppliedReq := copy_map (snap_LastReqID snap) |>)
    end.

Section server.
Context (raft_bytes : list (RaftGob Op) → Z).

(** [kv.persister == nil] cannot hold here: [raft.Make] has used it. *)
Definition maybeSnapshot (appliedIndex : Z) (kv : KVServer) : KVServer :=
  if maxraftstate kv =? -1 then kv
  else if maxraftstate kv <=? RaftStateSize raft_bytes (persister (kv_rf kv)) then
    let data := encodeSnapshot kv in
    kv <| kv_rf ::= Snapshot appliedIndex data |>
  else kv.

(** ** The apply loop

    A command: the critical section, up to [kv.mu.Unlock]; then the delivery;
    then [maybeSnapshot].  [applier] is one turn of the loop without anything
    in between. *)
Definition applier_command (msg : ApplyMsg Op KVSnapshot) (kv : KVServer)
    : option (KVServer * ApplyResult * option nat) :=
  match Command msg with
  | AString _ => None
  | AOp op =>
      let '(kv, v) := applyOp op kv in
      let res := mkResult op v in
      let kv := kv <| appliedResults ::= <[CommandIndex msg := res]> |> in
      Some (kv, res, notify kv !! CommandIndex msg)
  end.

Definition applier_deliver (ch : option nat) (res : ApplyResult) (kv : KVServer) : KVServer :=
  match ch with Some ch => offer ch res kv | None => kv end.

Definition applier_snapshot (msg : ApplyMsg Op KVSnapshot) (kv : KVServer) : option KVServer :=
  let '(rf, ok) := CondInstallSnapshot (SnapshotTerm msg) (SnapshotIndex msg) (Snapshot_ msg)
                     (kv_rf kv) in
  let kv := kv <| kv_rf := rf |> in
  if ok : bool then
    match restoreSnapshot (Snapshot_ msg) kv with
    | Some kv => Some (trimNotifications (SnapshotIndex msg) kv)
    | None => None
    end
  else Some kv.

Definition applier (msg : ApplyMsg Op KVSnapshot) (kv : KVServer) : option KVServer :=
  if CommandValid msg then
    match applier_command msg kv with
    | Some (kv, res, ch) => Some (maybeSnapshot (CommandIndex msg) (applier_deliver ch res kv))
    | None => None
    end
  else if SnapshotValid msg then applier_snapshot msg kv
  else Some kv.

End server.

(** ** Start and end *)

Definition kv_Kill (kv : KVServer) : KVServer := kv <| kv_dead := true |> <| kv_rf ::= Kill |>.
Definition kv_killed (kv : KVServer) : bool := kv_dead kv.

Definition StartKVServer (npeers me maxraftstate : Z) (ps : Persister (RaftGob Op) KVSnapshot)
    : option KVServer :=
  let kv := mkKV me (Make npeers me ps) false maxraftstate ∅ ∅ ∅ ∅ [] in
  restoreSnapshot (ReadSnapshot ps) kv.

(** ** The RPC handlers

    [Get] and [PutAppend] run the same code but for the operation and the
    reply.  The pieces: [Start]; [getNotifyCh]; one arm of the [select], which
    gives a reply or, for the time-out of a leader still in its term, none; and
    the deferred [removeNotifyCh]. *)
Inductive Call := CGet (args : GetArgs) | CPutAppend (args : PutAppendArgs).
Inductive Reply := RGet (reply : GetReply) | RPutAppend (reply : PutAppendReply).

Definition call_op (c : Call) : Op :=
  match c with
  | CGet args => mkOp "Get" (ga_Key args) "" (ga_ClientId args) (ga_RequestId args)
  | CPutAppend args =>
      mkOp (paa_Op args) (paa_Key args) (paa_Value args) (paa_ClientId args) (paa_RequestId args)
  end.

Definition wrong_leader (c : Call) : Reply :=
  match c with
  | CGet _ => RGet (mkGetReply ErrWrongLeader "")
  | CPutAppend _ => RPutAppend (mkPAReply ErrWrongLeader)
  end.

(** The new state and, for a leader, the index and the term. *)
Definition handler_start (c : Call) (kv : KVServer) : KVServer * (Reply + Z * Z) :=
  let '(rf, (index, term, isLeader)) := Start (AOp (call_op c)) (kv_rf kv) in
  (kv <| kv_rf := rf |>, if isLeader : bool then inr (index, term) else inl (wrong_leader c)).

Definition handler_result (c : Call) (res : ApplyResult) : Reply :=
  if sameOp (res_Op res) (call_op c) then
    match c with
    | CGet _ => RGet (mkGetReply OK (res_Value res))
    | CPutAppend _ => RPutAppend (mkPAReply OK)
    end
  else wrong_leader c.

Definition handler_timeout (c : Call) (term : Z) (kv : KVServer) : option Reply :=
  let '(curTerm, stillLeader) := GetState (kv_rf kv) in
  if negb stillLeader || negb (curTerm =? term) then Some (wrong_leader c) else None.

Definition reply_Err (r : Reply) : string :=
  match r with RGet r => gr_Err r | RPutAppend r => par_Err r end.
Definition reply_Value (r : Reply) : string :=
  match r with RGet r => gr_Value r | RPutAppend r => "" end.
