(* ===== verification/KVStateMachine.v ===== *)
(** * The replicated state machine of the key/value service

    What the apply loop of KVServer.v does to the map and to the table of
    client requests: duplicates have no effect and the rest is a sequential
    execution of the specification of KVModel.v; snapshots restore what they
    saved; and over commands, snapshots of any server, concurrent critical
    sections and restarts, a server's state is the replay of a prefix of the
    log. *)
From stdpp Require Import base tactics list gmap strings numbers relations.
From S2P Require Import Prelude.
From S2P Require Import Labgob.
From S2P Require Import Persister.
From S2P Require Import Raft.
From S2P Require Import RaftFacts.
From S2P Require Import RaftCommands.
From S2P Require Import KVModel.
From S2P Require Import KVServer.
Open Scope Z_scope.
Open Scope go_scope.

(** ** Definitions *)

Definition is_write (op : Op) : bool :=
  bool_decide (OpType op = "Put") || bool_decide (OpType op = "Append").
Definition valid_op (op : Op) : bool := bool_decide (OpType op = "Get") || is_write op.
Definition op_id (op : Op) : Z * Z := (ClientID op, RequestID op).

(** The apply loop over a log: the final server and each result. *)
Fixpoint run_log (L : list Op) (kv : KVServer) : KVServer * list (Op * string) :=
  match L with
  | [] => (kv, [])
  | op :: L =>
      let '(kv, v) := applyOp op kv in
      let '(kv, rs) := run_log L kv in
      (kv, (op, v) :: rs)
  end.

(** Leave out the writes whose identifier was seen before. *)
Fixpoint without_retries {A : Type} (seen : gset (Z * Z)) (rs : list (Op * A)) : list (Op * A) :=
  match rs with
  | [] => []
  | (op, v) :: rs =>
      if is_write op then
        if bool_decide (op_id op ∈ seen) then without_retries seen rs
        else (op, v) :: without_retries ({[op_id op]} ∪ seen) rs
      else (op, v) :: without_retries seen rs
  end.

(** Clients number their requests and wait for an answer before the next one:
    a write in the log repeats one already there or is newer than all of them
    of its client. *)
Fixpoint sequential_clients (seen : gset (Z * Z)) (L : list Op) : Prop :=
  match L with
  | [] => True
  | op :: L =>
      (is_write op = true →
       op_id op ∈ seen ∨ ∀ r, (ClientID op, r) ∈ seen → r < RequestID op) ∧
      sequential_clients (if is_write op then {[op_id op]} ∪ seen else seen) L
  end.

Definition to_input (op : Op) : KvInput :=
  mkKvInput (if decide (OpType op = "Get") then 0
             else if decide (OpType op = "Put") then 1 else 2) (Key op) (Value op).
Definition to_step (r : Op * string) : KvInput * KvOutput := (to_input r.1, mkKvOutput r.2).

(** The two maps the log drives. *)
Definition data (kv : KVServer) : gmap string string * gmap Z Z := (kvStore kv, lastAppliedReq kv).
Definition fresh (npeers i max : Z) : KVServer :=
  mkKV i (Make npeers i MakePersister) false max ∅ ∅ ∅ ∅ [].
Definition replay (L : list Op) : gmap string string * gmap Z Z :=
  data (run_log L (fresh 1 0 0)).1.
Definition prefix_upto (n : Z) (G : list Op) : list Op := take (Z.to_nat n) G.

(** What else may happen to a server at any point between two crashes: the
    critical sections of its peer, but for the two that the apply loop runs
    itself, and those of the handlers. *)
Inductive side_step : KVServer → KVServer → Prop :=
| side_raft s kv :
    own_section s = true → section_pre s (kv_rf kv) →
    side_step kv (kv <| kv_rf ::= run_section s |>)
| side_notify i kv : side_step kv (getNotifyCh i kv).1
| side_remove i kv : side_step kv (removeNotifyCh i kv)
| side_receive ch kv kv' res : receive ch kv = Some (kv', res) → side_step kv kv'
| side_deliver ch res kv : side_step kv (applier_deliver ch res kv)
| side_kill kv : side_step kv (kv_Kill kv).

Section log.
Context (raft_bytes : list (RaftGob Op) → Z).
(** The commands of the log, the one of index 1 first. *)
Context (G : list Op).

(** The servers of the service: [n] is the index applied last, [due] that the
    apply loop still has to run [maybeSnapshot] for it.  A snapshot comes from
    the stable storage of any server of the service. *)
Inductive kv_reachable : KVServer → Z → bool → Prop :=
| kv_start npeers i max kv :
    0 ≤ i < npeers → StartKVServer npeers i max MakePersister = Some kv →
    kv_reachable kv 0 false
| kv_command kv n op t kv' res ch :
    kv_reachable kv n false → G !! Z.to_nat n = Some op →
    applier_command (commandMsg (AOp op) (n + 1) t) kv = Some (kv', res, ch) →
    kv_reachable kv' (n + 1) true
| kv_maybe kv n :
    kv_reachable kv n true → kv_reachable (maybeSnapshot raft_bytes n kv) n false
| kv_snapshot kv n from m due t kv' :
    kv_reachable kv n false → kv_reachable from m due →
    let i := lastIncludedIndex (kv_rf from) in
    let msg := snapshotMsg (ReadSnapshot (persister (kv_rf from))) t i in
    applier raft_bytes msg kv = Some kv' →
    kv_reachable kv' (if lastIncludedIndex (kv_rf kv) <? i then i else n) false
| kv_side kv n due kv' :
    kv_reachable kv n due → side_step kv kv' → kv_reachable kv' n due
| kv_restart kv n due max kv' :
    kv_reachable kv n due →
    StartKVServer (peers (kv_rf kv)) (me (kv_rf kv)) max (persister (kv_rf kv)) = Some kv' →
    kv_reachable kv' (lastIncludedIndex (kv_rf kv)) false.

(** The peer's stable storage holds the state at its snapshot's index. *)
Definition snapshot_ok (rf : Raft Op KVSnapshot) : Prop :=
  0 ≤ lastIncludedIndex rf ≤ len G ∧
  ((ReadSnapshot (persister rf) = [] ∧ lastIncludedIndex rf = 0) ∨
   ∃ snap, ReadSnapshot (persister rf) = [snap] ∧
     (snap_KV snap, snap_LastReqID snap) = replay (prefix_upto (lastIncludedIndex rf) G)).

Definition kv_inv (kv : KVServer) (n : Z) : Prop :=
  raft_wf (kv_rf kv) ∧ durable (kv_rf kv) ∧ snapshot_ok (kv_rf kv) ∧
  0 ≤ n ≤ len G ∧ data kv = replay (prefix_upto n G).

End log.

(** ** One operation *)

Lemma applyOp_rest op kv :
  let kv' := (applyOp op kv).1 in
  kv_rf kv' = kv_rf kv ∧ notify kv' = notify kv ∧ chans kv' = chans kv ∧
  appliedResults kv' = appliedResults kv ∧ maxraftstate kv' = maxraftstate kv ∧
  kv_me kv' = kv_me kv.
Proof. unfold applyOp. repeat case_if; done. Qed.

Lemma applyOp_data op kv1 kv2 :
  data kv1 = data kv2 →
  data (applyOp op kv1).1 = data (applyOp op kv2).1 ∧ (applyOp op kv1).2 = (applyOp op kv2).2.
Proof.
  unfold data, applyOp, shouldApply. intros [= E1 E2]. rewrite E1, E2.
  repeat case_if; cbn; rewrite ?E1, ?E2; done.
Qed.

Lemma run_log_app L1 L2 kv :
  (run_log (L1 ++ L2) kv).1 = (run_log L2 (run_log L1 kv).1).1.
Proof.
  revert kv. induction L1 as [|op L1 IH]; intros kv; cbn; [done|].
  destruct (applyOp op kv) as [kv1 v]. specialize (IH kv1).
  destruct (run_log (L1 ++ L2) kv1), (run_log L1 kv1). done.
Qed.

Lemma run_log_snoc L op kv :
  (run_log (L ++ [op]) kv).1 = (applyOp op (run_log L kv).1).1.
Proof. rewrite run_log_app. cbn. by destruct (applyOp op _). Qed.

Lemma run_log_data L kv1 kv2 :
  data kv1 = data kv2 → data (run_log L kv1).1 = data (run_log L kv2).1.
Proof.
  revert kv1 kv2. induction L as [|op L IH]; intros kv1 kv2 E; cbn; [done|].
  destruct (applyOp_data op _ _ E) as [E' _].
  destruct (applyOp op kv1) as [k1 v1], (applyOp op kv2) as [k2 v2]. cbn in E'.
  specialize (IH k1 k2 E'). by destruct (run_log L k1), (run_log L k2).
Qed.

Lemma replay_snoc L op kv :
  data kv = replay L → data (applyOp op kv).1 = replay (L ++ [op]).
Proof.
  unfold replay. rewrite run_log_snoc. intros E. by destruct (applyOp_data op _ _ E).
Qed.

(** The table of requests against the identifiers of the writes so far. *)
Definition table_ok (seen : gset (Z * Z)) (kv : KVServer) : Prop :=
  ∀ c, match lastAppliedReq kv !! c with
       | None => ∀ r, (c, r) ∉ seen
       | Some m => (c, m) ∈ seen ∧ ∀ r, (c, r) ∈ seen → r ≤ m
       end.

Lemma shouldApply_spec seen kv c r :
  table_ok seen kv → ((c, r) ∈ seen ∨ ∀ r', (c, r') ∈ seen → r' < r) →
  shouldApply c r kv = negb (bool_decide ((c, r) ∈ seen)).
Proof.
  intros Ht Hc. specialize (Ht c). unfold shouldApply.
  destruct (lastAppliedReq kv !! c) as [m|].
  - destruct Ht as [Hm Hmax]. case_bool_decide as Hin; cbn.
    + apply Z.ltb_ge. auto.
    + apply Z.ltb_lt. destruct Hc; [done|auto].
  - by rewrite bool_decide_false.
Qed.

Lemma table_ok_write seen kv kv' c r :
  table_ok seen kv → (∀ r', (c, r') ∈ seen → r' < r) →
  lastAppliedReq kv' = <[c := r]> (lastAppliedReq kv) → table_ok ({[(c, r)]} ∪ seen) kv'.
Proof.
  intros Ht Hnew E c'. rewrite E. destruct (decide (c = c')) as [<-|Hne].
  - rewrite lookup_insert_eq. split; [set_solver|].
    intros r' [[= <-]%elem_of_singleton|Hin]%elem_of_union; [lia|]. apply Hnew in Hin. lia.
  - rewrite lookup_insert_ne by done. specialize (Ht c'). case_match; set_solver.
Qed.

Lemma is_write_false op : OpType op = "Get" ∨ valid_op op = false → is_write op = false.
Proof.
  unfold valid_op, is_write. intros [E|H]; [by rewrite E|]. by apply orb_false_iff in H as [_ ?].
Qed.

Lemma is_write_append op : is_write op = true → OpType op ≠ "Put" → OpType op = "Append".
Proof. unfold is_write. intros Hw Hp. rewrite bool_decide_false in Hw by done. by apply bool_decide_eq_true in Hw. Qed.

(** An operation that is not a retry is a step of the specification; a retry
    changes nothing. *)
Lemma applyOp_step seen op kv :
  table_ok seen kv → valid_op op = true →
  (is_write op = true → op_id op ∈ seen ∨ ∀ r, (ClientID op, r) ∈ seen → r < RequestID op) →
  let '(kv', v) := applyOp op kv in
  let retry := is_write op && bool_decide (op_id op ∈ seen) in
  table_ok (if is_write op then {[op_id op]} ∪ seen else seen) kv' ∧
  if retry then kvStore kv' = kvStore kv
  else kv_spec (kvStore kv) (kvStore kv') (to_input op) (mkKvOutput v).
Proof.
  intros Ht Hv Hc. unfold applyOp, kv_spec, to_input, KvModel.Step. cbn.
  destruct (decide (OpType op = "Get")) as [E|E].
  { rewrite (is_write_false op) by by left. cbn. split; [done|].
    eexists. split; [by rewrite bool_decide_true|]. done. }
  assert (is_write op = true) as Hw
    by (unfold valid_op in Hv; by rewrite bool_decide_false in Hv).
  specialize (Hc Hw). rewrite Hw. cbn.
  assert (∀ kv', lastAppliedReq kv' = <[ClientID op := RequestID op]> (lastAppliedReq kv) →
            op_id op ∉ seen → table_ok ({[op_id op]} ∪ seen) kv') as Hnew.
  { intros kv' E' Hni. eapply table_ok_write; [exact Ht| |exact E']. by destruct Hc. }
  assert (op_id op ∈ seen → {[op_id op]} ∪ seen = seen) as Hold by set_solver.
  rewrite (shouldApply_spec seen) by done. fold (op_id op).
  destruct (decide (OpType op = "Put")) as [E1|E1];
    [|rewrite decide_True by (by apply is_write_append)]; (case_bool_decide as Hin; cbn;
    [by rewrite Hold|split; [by apply Hnew|]; eexists; split; [done|]; unfold map_get;
     rewrite lookup_insert_eq; split; [done|]; intros k Hk; by rewrite lookup_insert_ne]).
Qed.

Lemma run_log_execution L kv seen :
  table_ok seen kv → Forall (λ op, valid_op op = true) L → sequential_clients seen L →
  kv_execution (kvStore kv) (to_step <$> without_retries seen (run_log L kv).2)
    (kvStore (run_log L kv).1).
Proof.
  revert kv seen. induction L as [|op L IH]; intros kv seen Ht Hv Hc; cbn; [constructor|].
  apply Forall_cons in Hv as [Hop Hv]. destruct Hc as [Hc Hcs].
  pose proof (applyOp_step seen op kv Ht Hop Hc) as Hs.
  destruct (applyOp op kv) as [kv1 v]. destruct Hs as [Ht1 Hs].
  specialize (IH kv1 _ Ht1 Hv Hcs). destruct (run_log L kv1) as [kv2 rs]. cbn in *.
  destruct (is_write op); cbn in *; [case_bool_decide as Hin|].
  - rewrite <- Hs. by replace ({[op_id op]} ∪ seen) with seen in IH by set_solver.
  - by econstructor.
  - by econstructor.
Qed.

(** ** Snapshots *)

Lemma copy_map_id {K V} `{Countable K} (m : gmap K V) : copy_map m = m.
Proof.
  unfold copy_map. rewrite foldl_insert_union by apply NoDup_fst_map_to_list.
  by rewrite list_to_map_to_list, map_union_empty.
Qed.

Lemma encodeSnapshot_eq kv : encodeSnapshot kv = [mkSnapshot (kvStore kv) (lastAppliedReq kv)].
Proof. unfold encodeSnapshot. by rewrite EncodeAll_eq, !copy_map_id. Qed.

Lemma restoreSnapshot_one snap kv :
  restoreSnapshot [snap] kv =
    Some (kv <| kvStore := snap_KV snap |> <| lastAppliedReq := snap_LastReqID snap |>).
Proof. unfold restoreSnapshot. cbn. by rewrite !copy_map_id. Qed.

(** ** The server follows the log *)

Lemma snapshot_ok_kept G rf rf' : snap_kept rf rf' → snapshot_ok G rf → snapshot_ok G rf'.
Proof. unfold snapshot_ok. by intros [-> ->]. Qed.

Lemma section_inv G s rf :
  own_section s = true → section_pre s rf →
  raft_wf rf ∧ durable rf ∧ snapshot_ok G rf →
  raft_wf (run_section s rf) ∧ durable (run_section s rf) ∧ snapshot_ok G (run_section s rf).
Proof.
  intros Hs Hpre (Hwf & Hd & Hsn). split_and!.
  - by apply run_section_wf.
  - eapply durable_saved, run_section_saved; done.
  - eapply snapshot_ok_kept; [by apply run_section_snap|done].
Qed.

Lemma offer_rf ch res kv : kv_rf (offer ch res kv) = kv_rf kv.
Proof. unfold offer. by repeat case_match. Qed.

Lemma offer_data ch res kv : data (offer ch res kv) = data kv.
Proof. unfold offer. by repeat case_match. Qed.

Lemma side_step_inv G kv kv' n : side_step kv kv' → kv_inv G kv n → kv_inv G kv' n.
Proof.
  assert (∀ k k', kv_rf k' = kv_rf k → data k' = data k → kv_inv G k n → kv_inv G k' n) as Hsame
    by (unfold kv_inv; intros k k' -> ->; done).
  destruct 1 as [s kv Hs Hpre|i kv|i kv|ch kv kv' res H|ch res kv|kv].
  - intros (Hwf & Hd & Hsn & Hn & Hdata). destruct (section_inv G s (kv_rf kv)) as (? & ? & ?); auto.
    unfold kv_inv; split_and!; try done; lia.
  - apply Hsame; unfold getNotifyCh, make_chan; case_match; cbn; try done;
      case_match; try done; cbn; by rewrite ?offer_rf, ?offer_data.
  - by apply Hsame.
  - unfold receive in H. repeat case_match; simplify_eq. by apply Hsame.
  - apply Hsame; destruct ch; cbn; try done; by rewrite ?offer_rf, ?offer_data.
  - intros (Hwf & Hd & Hsn & Hn & Hdata).
    destruct (section_inv G KillPeer (kv_rf kv)) as (? & ? & ?); [done..|].
    unfold kv_inv; split_and!; try done; lia.
Qed.

Lemma Snapshot_snap i sn (rf : Raft Op KVSnapshot) :
  snap_kept rf (Snapshot i sn rf) ∨
  (lastIncludedIndex (Snapshot i sn rf) = i ∧ ReadSnapshot (persister (Snapshot i sn rf)) = sn).
Proof.
  unfold Snapshot. case_if; [by left|]. case_match; [right|by left].
  unfold saveStateAndSnapshot. rewrite raiseToSnapshot_eq.
  split; [done|apply ReadSnapshot_SaveBoth].
Qed.

Lemma CondInstallSnapshot_snap t i sn (rf rf' : Raft Op KVSnapshot) ok :
  CondInstallSnapshot t i sn rf = (rf', ok) →
  ok = (lastIncludedIndex rf <? i) ∧
  if ok : bool then lastIncludedIndex rf' = i ∧ ReadSnapshot (persister rf') = sn else rf' = rf.
Proof.
  unfold CondInstallSnapshot. intros H. case_if_in H; simplify_eq; zbool.
  - split; [|done]. symmetry. by apply Z.ltb_ge.
  - split; [symmetry; by apply Z.ltb_lt|]. unfold saveStateAndSnapshot.
    rewrite raiseToSnapshot_eq. split; [done|apply ReadSnapshot_SaveBoth].
Qed.

Lemma maybeSnapshot_inv G raft_bytes kv n :
  kv_inv G kv n → kv_inv G (maybeSnapshot raft_bytes n kv) n.
Proof.
  intros (Hwf & Hd & Hsn & Hn & Hdata). unfold maybeSnapshot. case_if; [done|]. case_if; [|done].
  destruct (Snapshot_snap n (encodeSnapshot kv) (kv_rf kv)) as [Hk|[E1 E2]].
  all: pose proof (Snapshot_wf n (encodeSnapshot kv) (kv_rf kv) Hwf) as Hwf'.
  all: pose proof (durable_saved _ _ Hd
    (run_section_saved (TakeSnapshot n (encodeSnapshot kv)) (kv_rf kv))) as Hd'.
  - split_and!; [done|done|by eapply snapshot_ok_kept|lia|lia|done].
  - split_and!; [done|done| |lia|lia|done].
    change (snapshot_ok G (Snapshot n (encodeSnapshot kv) (kv_rf kv))).
    unfold snapshot_ok. rewrite E1, E2. split; [done|]. right.
    eexists. split; [apply encodeSnapshot_eq|]. done.
Qed.

Lemma prefix_upto_S (G : list Op) n op :
  0 ≤ n → G !! Z.to_nat n = Some op → prefix_upto (n + 1) G = prefix_upto n G ++ [op].
Proof.
  intros Hn Hop. unfold prefix_upto. replace (Z.to_nat (n + 1)) with (S (Z.to_nat n)) by lia.
  by apply take_S_r.
Qed.

Lemma command_inv G kv n op t kv' res ch :
  G !! Z.to_nat n = Some op →
  applier_command (commandMsg (AOp op) (n + 1) t) kv = Some (kv', res, ch) →
  kv_inv G kv n → kv_inv G kv' (n + 1).
Proof.
  intros Hop H (Hwf & Hd & Hsn & Hn & Hdata). unfold applier_command in H. cbn in H.
  destruct (applyOp_rest op kv) as (Hrf & _). pose proof (replay_snoc _ op _ Hdata) as Hr.
  destruct (applyOp op kv) as [k v]. cbn in *. simplify_eq. unfold kv_inv. cbn. rewrite Hrf.
  pose proof (lookup_lt_Some _ _ _ Hop). split_and!; try done; try lia.
  - unfold len. lia.
  - rewrite (prefix_upto_S _ _ op) by (done || lia). exact Hr.
Qed.

Lemma snapshot_inv G raft_bytes kv n from m t kv' :
  let i := lastIncludedIndex (kv_rf from) in
  applier raft_bytes (snapshotMsg (ReadSnapshot (persister (kv_rf from))) t i) kv = Some kv' →
  kv_inv G from m → kv_inv G kv n →
  kv_inv G kv' (if lastIncludedIndex (kv_rf kv) <? i then i else n).
Proof.
  cbn. intros H (_ & _ & [Hi Hsn] & _) (Hwf & Hd & Hsk & Hn & Hdata).
  unfold applier, applier_snapshot in H. cbn in H.
  set (i := lastIncludedIndex (kv_rf from)) in *.
  set (sn := ReadSnapshot (persister (kv_rf from))) in *.
  pose proof (run_section_wf (CondInstall t i sn) (kv_rf kv) Hwf I) as Hwf'.
  pose proof (durable_saved _ _ Hd (run_section_saved (CondInstall t i sn) (kv_rf kv))) as Hd'.
  cbn in Hwf', Hd'. destruct (CondInstallSnapshot t i sn (kv_rf kv)) as [rf ok] eqn:HC.
  destruct (CondInstallSnapshot_snap _ _ _ _ _ _ HC) as [<- Hok]. cbn in *.
  destruct ok; [|simplify_eq; unfold kv_inv; split_and!; try done; lia].
  destruct (CondInstallSnapshot_snap _ _ _ _ _ _ HC) as [Hlt%eq_sym%Z.ltb_lt _].
  destruct Hok as [E1 E2]. pose proof (wf_lii _ Hwf).
  destruct Hsn as [[_ ?]|(snap & Esn & Hsnap)]; [lia|].
  rewrite Esn, restoreSnapshot_one in H. cbn in H. simplify_eq. unfold kv_inv; split_and!; cbn; try done; try lia.
  unfold snapshot_ok. rewrite E1, E2. split; [done|]. right. by exists snap.
Qed.

Lemma StartKVServer_data npeers i max (ps : Persister (RaftGob Op) KVSnapshot) kv :
  StartKVServer npeers i max ps = Some kv →
  kv_rf kv = Make npeers i ps ∧
  data kv = match ReadSnapshot ps with
            | [] => replay []
            | snap :: _ => (snap_KV snap, snap_LastReqID snap)
            end.
Proof.
  unfold StartKVServer. destruct (ReadSnapshot ps) as [|snap l] eqn:E.
  - unfold restoreSnapshot. change (len _ =? 0) with true. by intros [= <-].
  - unfold restoreSnapshot. change (len _ =? 0) with false. intros [= <-]. split; [done|].
    unfold data. cbn [kvStore lastAppliedReq update_field]. by rewrite !copy_map_id.
Qed.

Lemma start_inv G npeers i max kv :
  0 ≤ i < npeers → StartKVServer npeers i max MakePersister = Some kv → kv_inv G kv 0.
Proof.
  intros Hi H. destruct (StartKVServer_data _ _ _ _ _ H) as [Hrf Hdata].
  unfold kv_inv. rewrite Hrf, Hdata.
  destruct (Make_init_inv (Op:=Op) (SV:=KVSnapshot) npeers i Hi).
  pose proof (len_nonneg G). split; [done|]. split; [done|]. split; [|split; [lia|done]].
  unfold snapshot_ok. change (lastIncludedIndex _) with 0. split; [lia|by left].
Qed.

Lemma restart_inv G kv n max kv' :
  StartKVServer (peers (kv_rf kv)) (me (kv_rf kv)) max (persister (kv_rf kv)) = Some kv' →
  kv_inv G kv n → kv_inv G kv' (lastIncludedIndex (kv_rf kv)).
Proof.
  intros H (Hwf & Hd & Hsn & _). destruct (StartKVServer_data _ _ _ _ _ H) as [Hrf Hdata].
  fold (restart (kv_rf kv)) in Hrf. unfold kv_inv. rewrite Hrf, Hdata.
  destruct (restart_persistent _ Hwf Hd) as (_ & _ & Hlii & _).
  destruct (peer_step_inv _ _ (peer_crash (kv_rf kv)) Hwf Hd) as [Hwf' Hd'].
  assert (persister (restart (kv_rf kv)) = persister (kv_rf kv)) as Eps by apply Make_volatile.
  split; [done|]. split; [done|]. split; [|split].
  - eapply snapshot_ok_kept; [|exact Hsn]. split; [by rewrite Eps|done].
  - apply Hsn.
  - destruct Hsn as [_ [[-> ->]|(snap & -> & Es)]]; [done|by rewrite <- Es].
Qed.

Lemma kv_reachable_inv raft_bytes G kv n due : kv_reachable raft_bytes G kv n due → kv_inv G kv n.
Proof.
  induction 1; eauto using start_inv, command_inv, maybeSnapshot_inv, side_step_inv, restart_inv.
  by eapply snapshot_inv.
Qed.

Lemma restart_succeeds G kv n max :
  kv_inv G kv n →
  is_Some (StartKVServer (peers (kv_rf kv)) (me (kv_rf kv)) max (persister (kv_rf kv))).
Proof.
  intros (_ & _ & (_ & [[E _]|(snap & E & _)]) & _); unfold StartKVServer; rewrite E;
    unfold restoreSnapshot; by cbn.
Qed.

(** ** The claims *)

Definition write_ids {A} (rs : list (Op * A)) : list (Z * Z) :=
  op_id <$> filter (λ op, is_write op = true) rs.*1.

Lemma without_retries_ids {A : Type} seen (rs : list (Op * A)) :
  NoDup (write_ids (without_retries seen rs)) ∧
  ∀ i, i ∈ write_ids (without_retries seen rs) ↔ i ∈ write_ids rs ∧ i ∉ seen.
Proof.
  unfold write_ids. revert seen. induction rs as [|[op v] rs IH]; intros seen; cbn -[filter].
  { split; [constructor|set_solver]. }
  destruct (is_write op) eqn:Hw; [case_bool_decide as Hin|]; cbn -[filter];
    rewrite ?(filter_cons_True _ op), ?(filter_cons_False _ op) by congruence;
    rewrite ?fmap_cons.
  - destruct (IH seen) as [? Hi]. split; [done|]. intros i. rewrite Hi, elem_of_cons.
    naive_solver.
  - destruct (IH ({[op_id op]} ∪ seen)) as [? Hi]. split.
    + constructor; [|done]. rewrite Hi. set_solver.
    + intros i. rewrite !elem_of_cons, Hi. split; [set_solver|].
      intros [[->|?] ?]; [by left|]. destruct (decide (i = op_id op)); set_solver.
  - apply IH.
Qed.

Lemma run_log_fst L kv : (run_log L kv).2.*1 = L.
Proof.
  revert kv. induction L as [|op L IH]; intros kv; cbn; [done|].
  destruct (applyOp op kv) as [kv1 v]. specialize (IH kv1). destruct (run_log L kv1).
  cbn in *. by rewrite IH.
Qed.

(** C22.  Exactly-once semantics: for a log in which clients
    number their requests and await the answers, running the apply loop over
    it, retries included, is the sequential execution, by the specification of
    models/kv.go, of the log without the retries; that execution has each
    write of the log exactly once, and each operation with the value returned
    for it. *)
Theorem kv_exactly_once L npeers i max :
  Forall (λ op, valid_op op = true) L → sequential_clients ∅ L →
  let '(kv, rs) := run_log L (fresh npeers i max) in
  let once := without_retries ∅ rs in
  kv_execution ∅ (to_step <$> once) (kvStore kv) ∧ rs.*1 = L ∧
  NoDup (write_ids once) ∧ ∀ op, op ∈ L → is_write op = true → op_id op ∈ write_ids once.
Proof.
  intros Hv Hc. set (kv0 := fresh npeers i max).
  pose proof (run_log_execution L kv0 ∅) as He. pose proof (run_log_fst L kv0) as Hf.
  destruct (run_log L kv0) as [kv rs]. cbn in *.
  destruct (without_retries_ids ∅ rs) as [Hnd Hin].
  split; [|split; [done|split; [done|]]].
  - apply He; [|done|done]. intros c. cbn. by rewrite lookup_empty.
  - intros op Hop Hw. apply Hin. split; [|set_solver]. unfold write_ids.
    rewrite Hf. apply list_elem_of_fmap. exists op. by rewrite list_elem_of_filter.
Qed.

(** Whatever a server goes through, commands, concurrent
    critical sections, snapshots installed from any server, crashes at any
    point and restarts, its two maps are the replay of the prefix of the log
    up to the index it stands at, hence equal on any two servers at the same
    index; and a restart from its stable storage never fails. *)
Theorem kv_tracks_log raft_bytes G kv n due :
  kv_reachable raft_bytes G kv n due →
  data kv = replay (prefix_upto n G) ∧ 0 ≤ n ≤ len G ∧
  ∀ max, is_Some (StartKVServer (peers (kv_rf kv)) (me (kv_rf kv)) max (persister (kv_rf kv))).
Proof.
  intros Hinv%kv_reachable_inv. pose proof Hinv as (_ & _ & _ & ? & ?).
  split; [done|]. split; [done|]. intros. by eapply restart_succeeds.
Qed.

(** Encoding a server's snapshot and restoring it on
    any server gives that server the same map and the same table, and keeps
    the rest of its state. *)
Theorem kv_snapshot_roundtrip kv kv' :
  restoreSnapshot (encodeSnapshot kv) kv' =
    Some (kv' <| kvStore := kvStore kv |> <| lastAppliedReq := lastAppliedReq kv |>).
Proof. by rewrite encodeSnapshot_eq, restoreSnapshot_one. Qed.

(** ** Witnesses *)

Definition put_x (v : string) (r : Z) : Op := mkOp "Put" "x" v 7 r.
Definition append_x (v : string) (r : Z) : Op := mkOp "Append" "x" v 7 r.
Definition get_x (r : Z) : Op := mkOp "Get" "x" "" 7 r.
Definition retried_log : list Op := [put_x "a" 1; append_x "b" 2; append_x "b" 2; get_x 3].

Lemma kv_exactly_once_witness :
  (run_log retried_log (fresh 3 0 0)).2 !! 3%nat = Some (get_x 3, "ab") ∧
  kv_execution ∅ (to_step <$> without_retries ∅ (run_log retried_log (fresh 3 0 0)).2)
    (kvStore (run_log retried_log (fresh 3 0 0)).1).
Proof.
  split; [vm_compute; reflexivity|].
  assert (Forall (λ op, valid_op op = true) retried_log) as Hv by (repeat constructor).
  assert (sequential_clients ∅ retried_log) as Hc.
  { unfold retried_log, sequential_clients.
    repeat change (is_write (put_x _ _)) with true. repeat change (is_write (append_x _ _)) with true.
    split; [intros _; right; set_solver|]. split; [intros _; right|].
    { by intros r [[= ->]%elem_of_singleton|[]%not_elem_of_empty]%elem_of_union. }
    split; [intros _; left; set_solver|]. done. }
  pose proof (kv_exactly_once retried_log 3 0 0 Hv Hc) as H.
  destruct (run_log retried_log (fresh 3 0 0)) as [kv rs]. apply H.
Defined.

Definition two_puts : list Op := [put_x "1" 1; put_x "2" 2].

Definition side_section (s : Section_ Op KVSnapshot) (kv : KVServer) : KVServer :=
  kv <| kv_rf ::= run_section s |>.

Lemma run_side raft_bytes G kv n due s :
  kv_reachable raft_bytes G kv n due → own_section s = true → section_pre s (kv_rf kv) →
  kv_reachable raft_bytes G (side_section s kv) n due.
Proof. intros. by eapply kv_side, side_raft. Qed.

(** Peer 0 is elected and commits both commands; it applies the first and
    takes a snapshot.  The follower, peer 1, got both commands from it and has
    applied both. *)
Definition entries_1_2 : list (LogEntry Op) :=
  [mkEntry (AOp (put_x "1" 1)) 1; mkEntry (AOp (put_x "2" 2)) 1].
Definition deliver (msg : ApplyMsg Op KVSnapshot) (kv : KVServer) : KVServer :=
  default kv (applier (λ _, 1) msg kv).
Definition leader_sections : list (Section_ Op KVSnapshot) :=
  [BeginElection; CountVote (mkElection 1 1 false); StartCommand (AOp (put_x "1" 1));
   StartCommand (AOp (put_x "2" 2));
   EntriesReply 1 1 (mkAEArgs 1 0 0 0 entries_1_2 0 0) (mkAEReply 1 true)].
Definition run_sections (ss : list (Section_ Op KVSnapshot)) (kv : KVServer) : KVServer :=
  foldl (λ kv s, side_section s kv) kv ss.
Definition put_1 : ApplyMsg Op KVSnapshot := commandMsg (AOp (put_x "1" 1)) 1 1.
Definition put_2 : ApplyMsg Op KVSnapshot := commandMsg (AOp (put_x "2" 2)) 2 1.

Definition the_leader : KVServer := deliver put_1 (run_sections leader_sections (fresh 3 0 0)).
Definition the_snapshot : ApplyMsg Op KVSnapshot :=
  snapshotMsg (ReadSnapshot (persister (kv_rf the_leader))) 1 1.
Definition follower_before : KVServer :=
  run_sections [ResumeApply 2] (deliver put_2 (deliver put_1
    (run_sections [HandleEntries (mkAEArgs 1 0 0 0 entries_1_2 2 1)] (fresh 3 1 (-1))))).
Definition snapshot_rpc : InstallSnapshotArgs KVSnapshot :=
  mkISArgs 1 0 1 1 (Snapshot_ the_snapshot).
Definition follower_after : KVServer :=
  deliver the_snapshot (run_sections [HandleSnapshot snapshot_rpc; SnapshotSent] follower_before).

Lemma run_sections_reachable raft_bytes G ss kv n due :
  kv_reachable raft_bytes G kv n due → Forall (λ s, own_section s = true) ss →
  (∀ ss1 s ss2, ss = ss1 ++ s :: ss2 → section_pre s (kv_rf (run_sections ss1 kv))) →
  kv_reachable raft_bytes G (run_sections ss kv) n due.
Proof.
  revert kv. induction ss as [|s ss IH]; intros kv Hk Ho Hp; [done|]. cbn.
  apply Forall_cons in Ho as [? Ho]. apply IH; [|done|].
  - apply run_side; [done|done|]. by apply (Hp [] s ss).
  - intros ss1 s' ss2 ->. by apply (Hp (s :: ss1) s' ss2).
Qed.

Lemma deliver_reachable G kv n op t :
  kv_reachable (λ _, 1) G kv n false → G !! Z.to_nat n = Some op →
  kv_reachable (λ _, 1) G (deliver (commandMsg (AOp op) (n + 1) t) kv) (n + 1) false.
Proof.
  intros Hk Hop. unfold deliver, applier. cbn [CommandValid commandMsg].
  destruct (applier_command (commandMsg (AOp op) (n + 1) t) kv) as [[[kv' res] ch]|] eqn:E.
  - cbn. apply kv_maybe. eapply kv_side; [|apply side_deliver]. by eapply kv_command.
  - unfold applier_command in E. cbn in E. by destruct (applyOp op kv).
Qed.

Lemma fresh_reachable raft_bytes G npeers i max :
  0 ≤ i < npeers → kv_reachable raft_bytes G (fresh npeers i max) 0 false.
Proof. intros Hi. by eapply kv_start. Qed.

Lemma no_pre (ss : list (Section_ Op KVSnapshot)) kv :
  Forall (λ s, match s with ResumeApply _ => False | _ => True end) ss →
  ∀ ss1 s ss2, ss = ss1 ++ s :: ss2 → section_pre s (kv_rf (run_sections ss1 kv)).
Proof. intros H ss1 s ss2 ->. apply Forall_app in H as [_ [? _]%Forall_cons]. by destruct s. Qed.

Lemma snapshot_reachable raft_bytes G kv n from m due t kv' n' :
  kv_reachable raft_bytes G kv n false → kv_reachable raft_bytes G from m due →
  applier raft_bytes (snapshotMsg (ReadSnapshot (persister (kv_rf from))) t
                        (lastIncludedIndex (kv_rf from))) kv = Some kv' →
  n' = (if lastIncludedIndex (kv_rf kv) <? lastIncludedIndex (kv_rf from)
        then lastIncludedIndex (kv_rf from) else n) →
  kv_reachable raft_bytes G kv' n' false.
Proof. intros ? ? ? ->. by eapply kv_snapshot. Qed.

Lemma the_leader_reachable : kv_reachable (λ _, 1) two_puts the_leader 1 false.
Proof.
  apply (deliver_reachable _ _ 0); [|done].
  apply run_sections_reachable; [by apply fresh_reachable|by repeat constructor|].
  apply no_pre. by repeat constructor.
Qed.

Lemma follower_before_reachable : kv_reachable (λ _, 1) two_puts follower_before 2 false.
Proof.
  apply run_sections_reachable; [|by repeat constructor|].
  - apply (deliver_reachable _ _ 1); [|done]. apply (deliver_reachable _ _ 0); [|done].
    apply run_sections_reachable; [by apply fresh_reachable|by repeat constructor|].
    apply no_pre. by repeat constructor.
  - intros ss1 s ss2 E. destruct ss1 as [|? [|? ?]]; cbn in E; simplify_eq. vm_compute. done.
Qed.

Lemma follower_after_reachable : kv_reachable (λ _, 1) two_puts follower_after 1 false.
Proof.
  set (kv := run_sections [HandleSnapshot snapshot_rpc; SnapshotSent] follower_before).
  apply (snapshot_reachable _ _ kv 2 the_leader 1 false 1);
    [|apply the_leader_reachable|by vm_compute|by vm_compute].
  apply run_sections_reachable; [apply follower_before_reachable|by repeat constructor|].
  apply no_pre. by repeat constructor.
Qed.

Lemma kv_tracks_log_witness :
  kv_reachable (λ _, 1) two_puts follower_before 2 false ∧
  kvStore follower_before !! "x" = Some "2" ∧
  data follower_before = replay (prefix_upto 2 two_puts).
Proof.
  split; [apply follower_before_reachable|]. split; [by vm_compute|].
  apply (kv_tracks_log _ _ _ _ _ follower_before_reachable).
Defined.

(** C30.  [CondInstallSnapshot] compares a snapshot with the peer's own
    snapshot only, not with what it has applied: a snapshot at index 1 that is
    delayed until the follower has applied index 2 is installed, the follower's
    map goes back to index 1, and as [lastApplied] stays at 2 the apply loop
    has nothing to send: the second write is lost to this server until it
    restarts. *)
Theorem stale_snapshot_rolls_back :
  kv_reachable (λ _, 1) two_puts follower_before 2 false ∧
  kv_reachable (λ _, 1) two_puts follower_after 1 false ∧
  kvStore follower_before !! "x" = Some "2" ∧ kvStore follower_after !! "x" = Some "1" ∧
  lastApplied (kv_rf follower_before) = 2 ∧ lastApplied (kv_rf follower_after) = 2 ∧
  commitIndex (kv_rf follower_after) = 2 ∧ applying (kv_rf follower_after) = false ∧
  (apply_enter (kv_rf follower_after)).2 = None.
Proof.
  split; [apply follower_before_reachable|]. split; [apply follower_after_reachable|].
  split_and!; by vm_compute.
Qed.
