(* ===== verification/KVHandlers.v ===== *)
(** * The RPC handlers of a key/value server and its apply loop, interleaved

    [World] is one server between two crashes with the goroutines of its
    [Get] and [PutAppend] handlers, each at one of the points where it takes or
    gives up a lock, its apply loop, and a history of what was applied. *)
From stdpp Require Import base tactics list gmap strings numbers relations.
From S2P Require Import Prelude.
From S2P Require Import Labgob.
From S2P Require Import Persister.
From S2P Require Import Raft.
From S2P Require Import RaftFacts.
From S2P Require Import RaftCommands.
From S2P Require Import KVServer.
From S2P Require Import KVStateMachine.
Open Scope Z_scope.
Open Scope go_scope.

(** Where a handler stands; [HReturned] has the index [Start] gave it. *)
Inductive Handler :=
| HStarted (c : Call) (index term : Z)
| HWaiting (c : Call) (index term : Z) (ch : nat)
| HLeaving (c : Call) (index : Z) (r : Reply)
| HReturned (c : Call) (index : option Z) (r : Reply).

(** Where the apply loop stands. *)
Inductive Applier :=
| AIdle
| ADeliver (ch : option nat) (res : ApplyResult) (index : Z)
| AMaybe (index : Z).

Definition Maps : Type := gmap string string * gmap Z Z.

(** History: a command applied, or the maps replaced by a snapshot's. *)
Inductive Event := EApplied (index : Z) (op : Op) | EInstalled (d : Maps).

Record World := mkWorld {
  w_kv : KVServer; w_handlers : list Handler; w_applier : Applier; w_log : list Event }.

Definition with_maps (d : Maps) : KVServer :=
  (fresh 1 0 0) <| kvStore := d.1 |> <| lastAppliedReq := d.2 |>.
Definition apply_event (d : Maps) (e : Event) : Maps :=
  match e with
  | EApplied _ op => data (applyOp op (with_maps d)).1
  | EInstalled d' => d'
  end.
Definition maps_after (d : Maps) (log : list Event) : Maps := foldl apply_event d log.

Arguments maps_after : simpl never.
Arguments data : simpl never.

Section world.
Context (raft_bytes : list (RaftGob Op) → Z).

Inductive w_step : World → World → Prop :=
| w_refused c kv kv' r hs a log :
    handler_start c kv = (kv', inl r) →
    w_step (mkWorld kv hs a log) (mkWorld kv' (hs ++ [HReturned c None r]) a log)
| w_call c kv kv' i t hs a log :
    handler_start c kv = (kv', inr (i, t)) →
    w_step (mkWorld kv hs a log) (mkWorld kv' (hs ++ [HStarted c i t]) a log)
| w_channel k c i t kv kv' ch hs a log :
    hs !! k = Some (HStarted c i t) → getNotifyCh i kv = (kv', ch) →
    w_step (mkWorld kv hs a log) (mkWorld kv' (<[k := HWaiting c i t ch]> hs) a log)
| w_receive k c i t ch kv kv' res hs a log :
    hs !! k = Some (HWaiting c i t ch) → receive ch kv = Some (kv', res) →
    w_step (mkWorld kv hs a log)
      (mkWorld kv' (<[k := HLeaving c i (handler_result c res)]> hs) a log)
| w_timeout k c i t ch kv r hs a log :
    hs !! k = Some (HWaiting c i t ch) → handler_timeout c t kv = Some r →
    w_step (mkWorld kv hs a log) (mkWorld kv (<[k := HLeaving c i r]> hs) a log)
| w_leave k c i r kv hs a log :
    hs !! k = Some (HLeaving c i r) →
    w_step (mkWorld kv hs a log)
      (mkWorld (removeNotifyCh i kv) (<[k := HReturned c (Some i) r]> hs) a log)
| w_command msg kv kv' res ch hs log :
    CommandValid msg = true → applier_command msg kv = Some (kv', res, ch) →
    w_step (mkWorld kv hs AIdle log)
      (mkWorld kv' hs (ADeliver ch res (CommandIndex msg))
         (log ++ [EApplied (CommandIndex msg) (res_Op res)]))
| w_deliver ch res i kv hs log :
    w_step (mkWorld kv hs (ADeliver ch res i) log)
      (mkWorld (applier_deliver ch res kv) hs (AMaybe i) log)
| w_maybe i kv hs log :
    w_step (mkWorld kv hs (AMaybe i) log) (mkWorld (maybeSnapshot raft_bytes i kv) hs AIdle log)
| w_snapshot msg kv kv' hs log :
    CommandValid msg = false → SnapshotValid msg = true → applier_snapshot msg kv = Some kv' →
    w_step (mkWorld kv hs AIdle log) (mkWorld kv' hs AIdle (log ++ [EInstalled (data kv')]))
| w_raft s kv hs a log :
    own_section s = true →
    w_step (mkWorld kv hs a log) (mkWorld (side_section s kv) hs a log).

(** A server that has just started. *)
Definition w_start (w : World) : Prop :=
  ∃ npeers i max ps kv, StartKVServer npeers i max ps = Some kv ∧ w = mkWorld kv [] AIdle [].

(** The entry of [index] was applied, with this result. *)
Definition happened (d : Maps) (log : list Event) (index : Z) (res : ApplyResult) : Prop :=
  ∃ log1 log2, log = log1 ++ EApplied index (res_Op res) :: log2 ∧
    res_Value res = (applyOp (res_Op res) (with_maps (maps_after d log1))).2.

Definition answered (d : Maps) (log : list Event) (c : Call) (index : Z) (r : Reply) : Prop :=
  reply_Err r = OK →
  ∃ res, happened d log index res ∧ res_Op res = call_op c ∧
    match c with CGet _ => reply_Value r = res_Value res | CPutAppend _ => True end.

(** [own] is the index each channel was made for. *)
Definition handler_ok (d : Maps) (log : list Event) (own : list Z) (h : Handler) : Prop :=
  match h with
  | HStarted _ _ _ => True
  | HWaiting c i t ch => own !! ch = Some i
  | HLeaving c i r | HReturned c (Some i) r => answered d log c i r
  | HReturned c None r => reply_Err r ≠ OK
  end.

Record w_inv (d : Maps) (own : list Z) (w : World) : Prop := {
  wi_data : data (w_kv w) = maps_after d (w_log w);
  wi_own : length own = length (chans (w_kv w));
  wi_notify i ch : notify (w_kv w) !! i = Some ch → own !! ch = Some i;
  wi_results i res : appliedResults (w_kv w) !! i = Some res → happened d (w_log w) i res;
  wi_chans ch res : chans (w_kv w) !! ch = Some (Some res) →
    ∃ i, own !! ch = Some i ∧ happened d (w_log w) i res;
  wi_applier : match w_applier w with
               | ADeliver ch res i => happened d (w_log w) i res ∧
                                      ∀ c, ch = Some c → own !! c = Some i
               | _ => True end;
  wi_handlers h : h ∈ w_handlers w → handler_ok d (w_log w) own h
}.

(** A handler nobody will notify: its channel is empty, the server no longer
    knows it and the apply loop does not hold it, while the peer still leads
    the handler's term. *)
Definition unreachable_chan (ch : nat) (w : World) : Prop :=
  chans (w_kv w) !! ch = Some None ∧ (∀ i, notify (w_kv w) !! i ≠ Some ch) ∧
  match w_applier w with ADeliver (Some ch') _ _ => ch' ≠ ch | _ => True end.
Definition leads (t : Z) (w : World) : Prop := GetState (kv_rf (w_kv w)) = (t, true).

(** Steps between worlds in which the peer leads term [t]. *)
Definition w_step_leading (t : Z) (w w' : World) : Prop := w_step w w' ∧ leads t w ∧ leads t w'.

(** ** The invariant *)

Lemma happened_mono d log e i res : happened d log i res → happened d (log ++ [e]) i res.
Proof.
  intros (l1 & l2 & -> & ?). exists l1, (l2 ++ [e]). by rewrite <- app_assoc.
Qed.

Lemma answered_mono d log e c i r : answered d log c i r → answered d (log ++ [e]) c i r.
Proof. intros H Hr. destruct (H Hr) as (res & ? & ?). exists res. auto using happened_mono. Qed.

Lemma handler_ok_mono d log e own x h :
  handler_ok d log own h → handler_ok d (log ++ [e]) (own ++ x) h.
Proof.
  destruct h as [| | |? [|] ?]; cbn; auto using answered_mono.
  intros. by apply lookup_app_l_Some.
Qed.

Lemma handler_ok_own d log own x h : handler_ok d log own h → handler_ok d log (own ++ x) h.
Proof. destruct h as [| | |? [|] ?]; cbn; auto. intros. by apply lookup_app_l_Some. Qed.

Lemma handlers_insert (P : Handler → Prop) (hs : list Handler) (k : nat) h :
  (∀ x, x ∈ hs → P x) → P h → ∀ x, x ∈ <[k := h]> hs → P x.
Proof.
  intros Hall Hh x [j Hj]%list_elem_of_lookup. apply list_lookup_insert_Some in Hj.
  destruct Hj as [(_ & <- & _)|[_ Hj]]; [done|]. by eapply Hall, list_elem_of_lookup_2.
Qed.

Lemma applyOp_with_maps op kv :
  data (applyOp op kv).1 = apply_event (data kv) (EApplied 0 op) ∧
  (applyOp op kv).2 = (applyOp op (with_maps (data kv))).2.
Proof. apply applyOp_data. done. Qed.

(** Changes that leave the handlers' part of the server alone. *)
Definition same_serving (kv kv' : KVServer) : Prop :=
  data kv' = data kv ∧ notify kv' = notify kv ∧ appliedResults kv' = appliedResults kv ∧
  chans kv' = chans kv.

Lemma w_inv_same d own kv kv' hs a log hs' a' :
  w_inv d own (mkWorld kv hs a log) → same_serving kv kv' →
  (∀ h, h ∈ hs' → handler_ok d log own h) → match a' with ADeliver _ _ _ => a' = a | _ => True end →
  w_inv d own (mkWorld kv' hs' a' log).
Proof.
  intros [Hd Ho Hn Hr Hc Ha Hh] (E1 & E2 & E3 & E4) Hhs Ha'. cbn in *.
  split; cbn; rewrite ?E1, ?E2, ?E3, ?E4; try done. by destruct a'; subst.
Qed.

Lemma offer_inv d own kv hs a log ch res i :
  w_inv d own (mkWorld kv hs a log) → own !! ch = Some i → happened d log i res →
  w_inv d own (mkWorld (offer ch res kv) hs a log).
Proof.
  intros Hinv Hi Hres. unfold offer. case_match eqn:Hch; [|done]. case_match; [done|].
  destruct Hinv as [Hd Ho Hn Hr Hc Ha Hh]. split; cbn in *; try done.
  - by rewrite length_insert.
  - intros ch' res' [(<- & [= <-] & _)|[_ H']]%list_lookup_insert_Some; eauto.
Qed.

Lemma make_chan_inv d own kv hs a log i :
  w_inv d own (mkWorld kv hs a log) →
  let '(kv', ch) := make_chan kv in
  w_inv d (own ++ [i]) (mkWorld (kv' <| notify ::= <[i := ch]> |>) hs a log) ∧
  (own ++ [i]) !! ch = Some i.
Proof.
  intros [Hd Ho Hn Hr Hc Ha Hh]. cbn in *.
  assert ((own ++ [i]) !! length (chans kv) = Some i) as Hnew
    by (rewrite <- Ho; by apply list_lookup_middle).
  split; [|done]. split; cbn; try done.
  - rewrite !length_app. cbn. lia.
  - intros j ch [(<- & <-)|[_ Hj]]%lookup_insert_Some; [done|]. apply lookup_app_l_Some. eauto.
  - intros ch res [Hch|[_ Hch]]%lookup_app_Some.
    + destruct (Hc _ _ Hch) as (j & ? & ?). exists j. auto using lookup_app_l_Some.
    + by apply list_lookup_singleton_Some in Hch as [_ ?].
  - destruct a; auto. destruct Ha. auto using lookup_app_l_Some.
  - auto using handler_ok_own.
Qed.

Lemma getNotifyCh_inv d own kv hs a log i kv' ch :
  w_inv d own (mkWorld kv hs a log) → getNotifyCh i kv = (kv', ch) →
  ∃ own', w_inv d own' (mkWorld kv' hs a log) ∧ own' !! ch = Some i.
Proof.
  intros Hinv. unfold getNotifyCh. case_match eqn:Hi.
  { intros [= <- <-]. exists own. split; [done|]. by apply (wi_notify _ _ _ Hinv). }
  pose proof (make_chan_inv d own kv hs a log i Hinv) as Hm.
  destruct (make_chan kv) as [kv1 ch1]. destruct Hm as [Hm Hown].
  case_match eqn:Hres; intros [= <- <-]; exists (own ++ [i]); [|done].
  split; [|done]. eapply offer_inv; [done|done|]. by apply (wi_results _ _ _ Hm).
Qed.

Lemma lookup_delete_keep {V} (m : gmap Z V) i j x : delete i m !! j = Some x → m !! j = Some x.
Proof. by intros [_ ?]%lookup_delete_Some. Qed.

Lemma lookup_filter_keep {V} (P : Z * V → Prop) `{∀ x, Decision (P x)} (m : gmap Z V) j x :
  filter P m !! j = Some x → m !! j = Some x.
Proof. by intros [? _]%map_lookup_filter_Some. Qed.

Lemma sameOp_eq a b : sameOp a b = true → a = b.
Proof.
  unfold sameOp. destruct a, b; cbn. intros H. zbool. by subst.
Qed.

Lemma handler_result_answered d log c i res :
  happened d log i res → answered d log c i (handler_result c res).
Proof.
  intros Hres. unfold answered, handler_result. destruct (sameOp _ _) eqn:Hs.
  - apply sameOp_eq in Hs. intros _. exists res. by destruct c.
  - by destruct c.
Qed.

Lemma wrong_leader_answered d log c i r : r = wrong_leader c → answered d log c i r.
Proof. intros -> H. by destruct c. Qed.

Lemma handler_start_rest c kv kv' x :
  handler_start c kv = (kv', x) →
  same_serving kv kv' ∧ ∀ r, x = inl r → r = wrong_leader c.
Proof.
  unfold handler_start. destruct (Start _ _) as [rf [[i t] l]]. intros [= <- <-].
  split; [done|]. destruct l; [done|]. by intros r [= <-].
Qed.

Lemma handler_timeout_result c t kv r : handler_timeout c t kv = Some r → r = wrong_leader c.
Proof. unfold handler_timeout. destruct (GetState _). case_if; [by intros [= <-]|done]. Qed.

Lemma maybeSnapshot_rest i kv : same_serving kv (maybeSnapshot raft_bytes i kv).
Proof. unfold maybeSnapshot. repeat case_if; done. Qed.

Lemma applier_deliver_inv d own kv hs ch res i log :
  w_inv d own (mkWorld kv hs (ADeliver ch res i) log) →
  w_inv d own (mkWorld (applier_deliver ch res kv) hs (AMaybe i) log).
Proof.
  intros Hinv. destruct (wi_applier _ _ _ Hinv) as [Hres Hch].
  assert (w_inv d own (mkWorld kv hs (AMaybe i) log)) as Hinv'
    by (eapply w_inv_same; [exact Hinv|done| |done]; apply (wi_handlers _ _ _ Hinv)).
  destruct ch as [ch|]; [|done]. cbn. eapply offer_inv; [done|by apply Hch|done].
Qed.

Lemma applier_command_inv d own kv hs log msg kv' res ch :
  w_inv d own (mkWorld kv hs AIdle log) → applier_command msg kv = Some (kv', res, ch) →
  w_inv d own (mkWorld kv' hs (ADeliver ch res (CommandIndex msg))
                 (log ++ [EApplied (CommandIndex msg) (res_Op res)])).
Proof.
  intros [Hd Ho Hn Hr Hc Ha Hh] H. unfold applier_command in H. cbn in *.
  destruct (Command msg) as [|op]; [done|]. destruct (applyOp_rest op kv) as (_ & En & Ec & Er & _).
  destruct (applyOp_with_maps op kv) as [Ed Ev]. destruct (applyOp op kv) as [k v]. cbn in *.
  injection H as <- <- <-. cbn in *. rewrite En.
  assert (happened d (log ++ [EApplied (CommandIndex msg) op]) (CommandIndex msg) (mkResult op v))
    as Hres by (exists log, []; cbn; rewrite <- Hd; done).
  split; cbn.
  - unfold maps_after. rewrite foldl_app. cbn. fold (maps_after d log). rewrite <- Hd. exact Ed.
  - by rewrite Ec.
  - rewrite En. done.
  - rewrite Er. intros i res [(<- & <-)|[_ Hi]]%lookup_insert_Some; auto using happened_mono.
  - rewrite Ec. intros c' res Hc'. destruct (Hc _ _ Hc') as (i & ? & ?).
    eauto using happened_mono.
  - split; [done|]. intros c' Hc'. by apply Hn.
  - intros h Hin. rewrite <- (app_nil_r own). by apply handler_ok_mono, Hh.
Qed.

Lemma applier_snapshot_inv d own kv hs log msg kv' :
  w_inv d own (mkWorld kv hs AIdle log) → applier_snapshot msg kv = Some kv' →
  w_inv d own (mkWorld kv' hs AIdle (log ++ [EInstalled (data kv')])).
Proof.
  intros [Hd Ho Hn Hr Hc Ha Hh] H. unfold applier_snapshot in H. cbn in *.
  assert ((∀ i ch, notify kv' !! i = Some ch → notify kv !! i = Some ch) ∧
          (∀ i r, appliedResults kv' !! i = Some r → appliedResults kv !! i = Some r) ∧
          chans kv' = chans kv) as (En & Er & Ec).
  { destruct (CondInstallSnapshot _ _ _ _) as [rf ok]. destruct ok; [|by simplify_eq].
    unfold restoreSnapshot in H. repeat case_match; simplify_eq/=;
      (split_and!; [|..|done]; intros ? ?; apply lookup_filter_keep). }
  split; cbn.
  - unfold maps_after. rewrite foldl_app. done.
  - by rewrite Ec.
  - eauto.
  - eauto using happened_mono.
  - rewrite Ec. intros c' res Hc'. destruct (Hc _ _ Hc') as (i & ? & ?). eauto using happened_mono.
  - done.
  - intros h Hin. rewrite <- (app_nil_r own). by apply handler_ok_mono, Hh.
Qed.

Lemma elem_of_snoc_ok d log own hs h :
  (∀ x, x ∈ hs → handler_ok d log own x) → handler_ok d log own h →
  ∀ x, x ∈ hs ++ [h] → handler_ok d log own x.
Proof. intros Hall Hh x [?| ->%list_elem_of_singleton]%elem_of_app; auto. Qed.

Lemma w_step_inv d own w w' : w_step w w' → w_inv d own w → ∃ own', w_inv d own' w'.
Proof.
  destruct 1 as [c kv kv' r hs a log H|c kv kv' i t hs a log H|k c i t kv kv' ch hs a log Hk H
    |k c i t ch kv kv' res hs a log Hk H|k c i t ch kv r hs a log Hk H|k c i r kv hs a log Hk
    |msg kv kv' res ch hs log Hm H|ch res i kv hs log|i kv hs log|msg kv kv' hs log Hm Hs H
    |s kv hs a log Hs]; intros Hinv; pose proof (wi_handlers _ _ _ Hinv) as Hh; cbn in Hh.
  - exists own. destruct (handler_start_rest _ _ _ _ H) as [Hsame Hr].
    eapply w_inv_same; [done|done| |by destruct a]. apply elem_of_snoc_ok; [done|].
    rewrite (Hr r) by done. by destruct c.
  - exists own. destruct (handler_start_rest _ _ _ _ H) as [Hsame _].
    eapply w_inv_same; [done|done| |by destruct a]. by apply elem_of_snoc_ok.
  - destruct (getNotifyCh_inv _ _ _ _ _ _ _ _ _ Hinv H) as (own' & Hinv' & Hch).
    exists own'. eapply w_inv_same; [done|done| |by destruct a].
    apply handlers_insert; [apply (wi_handlers _ _ _ Hinv')|done].
  - exists own. unfold receive in H. repeat case_match; simplify_eq.
    pose proof (Hh _ (list_elem_of_lookup_2 _ _ _ Hk)) as Hown. cbn in Hown.
    destruct (wi_chans _ _ _ Hinv _ _ H0) as (j & Hj & Hres). simplify_eq.
    assert (w_inv d own (mkWorld (kv <| chans ::= <[ch := None]> |>) hs a log)) as Hinv'.
    { destruct Hinv as [Hd Ho Hn Hr Hc Ha Hh']. split; cbn in *; try done.
      - by rewrite length_insert.
      - intros ch' res' [(_ & [=] & _)|[_ ?]]%list_lookup_insert_Some; eauto. }
    eapply w_inv_same; [exact Hinv'|done| |by destruct a].
    apply handlers_insert; [done|]. by apply handler_result_answered.
  - exists own. apply handler_timeout_result in H.
    eapply w_inv_same; [done|done| |by destruct a]. apply handlers_insert; [done|].
    by apply wrong_leader_answered.
  - exists own. pose proof (Hh _ (list_elem_of_lookup_2 _ _ _ Hk)) as Hans.
    assert (w_inv d own (mkWorld (removeNotifyCh i kv) hs a log)) as Hinv'.
    { destruct Hinv as [Hd Ho Hn Hr Hc Ha Hh']. split; cbn in *; try done;
        intros ? ? ?%lookup_delete_keep; eauto. }
    eapply w_inv_same; [exact Hinv'|done| |by destruct a]. by apply handlers_insert.
  - exists own. by apply applier_command_inv with (kv := kv).
  - exists own. by apply applier_deliver_inv.
  - exists own. eapply w_inv_same; [done|apply maybeSnapshot_rest|done|done].
  - exists own. by eapply applier_snapshot_inv.
  - exists own. eapply w_inv_same; [done|done|done|by destruct a].
Qed.

Lemma w_start_inv w : w_start w → w_inv (data (w_kv w)) [] w.
Proof.
  intros (n & i & max & ps & kv & H & ->). unfold StartKVServer, restoreSnapshot in H.
  assert (notify kv = ∅ ∧ appliedResults kv = ∅ ∧ chans kv = []) as (E1 & E2 & E3)
    by (repeat case_match; by simplify_eq/=).
  split; cbn; rewrite ?E1, ?E2, ?E3; try done; by intros h ?%not_elem_of_nil.
Qed.

Lemma w_steps_inv w0 w : w_start w0 → rtc w_step w0 w → ∃ own, w_inv (data (w_kv w0)) own w.
Proof.
  intros Hs. revert w. apply rtc_ind_r; [by exists []; apply w_start_inv|].
  intros y z _ Hyz [own Hy]. by eapply w_step_inv.
Qed.

(** C23.  A handler that answers [OK] answers for its own request: the command
    applied at the index [Start] gave it was its operation, and the value a
    [Get] returns is the value of the key in the maps just before, whatever
    other handlers, snapshots and leader changes happened in between. *)
Theorem kv_ok_reply_applied w0 w c i r :
  w_start w0 → rtc w_step w0 w → HReturned c i r ∈ w_handlers w → reply_Err r = OK →
  ∃ index log1 log2, i = Some index ∧ w_log w = log1 ++ EApplied index (call_op c) :: log2 ∧
    match c with
    | CGet args => reply_Value r = map_get "" (maps_after (data (w_kv w0)) log1).1 (ga_Key args)
    | CPutAppend _ => True
    end.
Proof.
  intros H0 Hs Hin Hok. destruct (w_steps_inv _ _ H0 Hs) as [own Hinv].
  pose proof (wi_handlers _ _ _ Hinv _ Hin) as Hh. destruct i as [i|]; [|done].
  destruct (Hh Hok) as (res & (log1 & log2 & Hlog & Hv) & Hop & Hval).
  exists i, log1, log2. rewrite <- Hop. split; [done|]. split; [done|].
  destruct c as [args|]; [|done]. rewrite Hval, Hv, Hop. done.
Qed.

(** ** Starvation *)

Lemma receive_spec ch kv kv' res :
  receive ch kv = Some (kv', res) →
  chans kv !! ch = Some (Some res) ∧ kv' = kv <| chans ::= <[ch := None]> |>.
Proof. unfold receive. intros H. repeat case_match; by simplify_eq. Qed.

Lemma offer_notify ch res kv : notify (offer ch res kv) = notify kv.
Proof. unfold offer. by repeat case_match. Qed.

Lemma offer_other ch ch' res kv : ch' ≠ ch → chans (offer ch' res kv) !! ch = chans kv !! ch.
Proof.
  intros Hne. unfold offer. repeat case_match; cbn; try done. by rewrite list_lookup_insert_ne.
Qed.

Lemma getNotifyCh_other ch i kv kv' ch' :
  chans kv !! ch = Some None → (∀ j, notify kv !! j ≠ Some ch) → getNotifyCh i kv = (kv', ch') →
  chans kv' !! ch = Some None ∧ ∀ j, notify kv' !! j ≠ Some ch.
Proof.
  intros Hc Hn H. pose proof (lookup_lt_Some _ _ _ Hc) as Hlt.
  assert (∀ j, <[i := length (chans kv)]> (notify kv) !! j ≠ Some ch) as Hn'.
  { intros j [(_ & ?)|[_ ?]]%lookup_insert_Some; [lia|naive_solver]. }
  unfold getNotifyCh, make_chan in H. repeat case_match; simplify_eq/=; [done|..].
  - rewrite offer_notify, offer_other by lia. split; [|done]. by apply lookup_app_l_Some.
  - split; [|done]. by apply lookup_app_l_Some.
Qed.

Lemma unreachable_same ch kv hs a log kv' hs' a' log' :
  unreachable_chan ch (mkWorld kv hs a log) → chans kv' !! ch = chans kv !! ch →
  (∀ j, notify kv' !! j = Some ch → notify kv !! j = Some ch) →
  match a' with ADeliver (Some ch') _ _ => ch' ≠ ch | _ => True end →
  unreachable_chan ch (mkWorld kv' hs' a' log').
Proof.
  intros (Hc & Hn & Ha) Ec En Ha'. split; [by rewrite <- Hc|]. split; [|done].
  intros j Hj%En. by apply Hn in Hj.
Qed.

Lemma applier_snapshot_serving msg kv kv' :
  applier_snapshot msg kv = Some kv' →
  chans kv' = chans kv ∧ ∀ i ch, notify kv' !! i = Some ch → notify kv !! i = Some ch.
Proof.
  intros H. unfold applier_snapshot in H.
  destruct (CondInstallSnapshot _ _ _ _) as [rf ok]. destruct ok; [|by simplify_eq].
  unfold restoreSnapshot in H. repeat case_match; simplify_eq/=;
    (split; [done|intros ? ?; apply lookup_filter_keep]).
Qed.

Lemma starving_step t ch k c i w w' :
  w_step_leading t w w' → unreachable_chan ch w → w_handlers w !! k = Some (HWaiting c i t ch) →
  unreachable_chan ch w' ∧ w_handlers w' !! k = Some (HWaiting c i t ch).
Proof.
  intros (Hstep & Hl & _) Hun Hk. pose proof Hun as (Hc & Hn & Ha). destruct Hstep as
    [c' kv kv' r hs a log H|c' kv kv' i' t' hs a log H|k' c' i' t' kv kv' ch' hs a log Hk' H
    |k' c' i' t' ch' kv kv' res hs a log Hk' H|k' c' i' t' ch' kv r hs a log Hk' H
    |k' c' i' r kv hs a log Hk'|msg kv kv' res ch' hs log Hm H|ch' res i' kv hs log|i' kv hs log
    |msg kv kv' hs log Hm Hs H|s kv hs a log Hs]; cbn in Hk, Hc, Hn, Ha, Hl |- *.
  - destruct (handler_start_rest _ _ _ _ H) as [(_ & E1 & _ & E2) _]. split.
    + eapply unreachable_same; [exact Hun|by rewrite E2|by intros j; rewrite E1|done].
    + by apply lookup_app_l_Some.
  - destruct (handler_start_rest _ _ _ _ H) as [(_ & E1 & _ & E2) _]. split.
    + eapply unreachable_same; [exact Hun|by rewrite E2|by intros j; rewrite E1|done].
    + by apply lookup_app_l_Some.
  - destruct (getNotifyCh_other _ _ _ _ _ Hc Hn H). split; [by split|].
    by rewrite list_lookup_insert_ne by congruence.
  - apply receive_spec in H as [H ->].
    assert (ch' ≠ ch) by congruence. split; [|by rewrite list_lookup_insert_ne by congruence].
    eapply unreachable_same; [exact Hun| |done..]. cbn. by rewrite list_lookup_insert_ne.
  - split; [done|]. rewrite list_lookup_insert_ne; [done|]. intros ->. simplify_eq.
    unfold handler_timeout, leads in *. cbn in Hl. rewrite Hl in H.
    by rewrite Z.eqb_refl in H.
  - split; [|by rewrite list_lookup_insert_ne by congruence].
    eapply unreachable_same; [exact Hun|done| |done]. intros j. apply lookup_delete_keep.
  - split; [|done]. unfold applier_command in H. destruct (Command msg) as [|op]; [done|].
    destruct (applyOp_rest op kv) as (_ & En & Ec & _). destruct (applyOp op kv) as [kv1 v].
    cbn in *. injection H as <- <- <-. cbn in *.
    eapply unreachable_same; [exact Hun|cbn; by rewrite Ec|cbn; intros j; by rewrite En|].
    rewrite En. destruct (notify kv !! CommandIndex msg) eqn:Hch; [|done]. cbn. congruence.
  - split; [|done]. destruct ch' as [ch'|]; [|done].
    eapply unreachable_same; [exact Hun|by apply offer_other| |done].
    intros j. cbn. by rewrite offer_notify.
  - split; [|done]. destruct (maybeSnapshot_rest i' kv) as (_ & E1 & _ & E2).
    eapply unreachable_same; [exact Hun|by rewrite E2|by intros j; rewrite E1|done].
  - split; [|done]. destruct (applier_snapshot_serving _ _ _ H) as [E ?].
    eapply unreachable_same; [exact Hun|by rewrite E|eauto|done].
  - split; [|done]. by eapply unreachable_same; [exact Hun|..].
Qed.

Lemma starving_steps t ch k c i w w' :
  rtc (w_step_leading t) w w' → unreachable_chan ch w →
  w_handlers w !! k = Some (HWaiting c i t ch) → w_handlers w' !! k = Some (HWaiting c i t ch).
Proof.
  induction 1 as [|x y z Hxy _ IH]; [done|]. intros Hun Hk.
  destruct (starving_step _ _ _ _ _ _ _ Hxy Hun Hk). auto.
Qed.

End world.

(** Two handlers of a server that leads twice in a row share the channel of an
    index: the entry of term 1 at index 2 is replaced before it commits and
    the server, leader again in term 3, gives index 2 to the second request.
    The one notification goes to the first handler. *)
Definition other_entry : LogEntry Op := mkEntry (AOp (put_x "0" 1)) 2.
Definition call_a : Call := CPutAppend (mkPAArgs "a" "1" "Put" 8 1).
Definition call_b : Call := CPutAppend (mkPAArgs "b" "1" "Put" 9 1).
Definition entry_b : LogEntry Op := mkEntry (AOp (call_op call_b)) 3.
Definition majority_reply : Section_ Op KVSnapshot :=
  EntriesReply 1 3 (mkAEArgs 3 0 0 0 [other_entry; entry_b] 0 0) (mkAEReply 3 true).
Definition lead (t : Z) : Section_ Op KVSnapshot := CountVote (mkElection t 1 false).
Definition before_apply_1 : ApplyMsg Op KVSnapshot := commandMsg (AOp (put_x "0" 1)) 1 2.
Definition apply_b : ApplyMsg Op KVSnapshot := commandMsg (AOp (call_op call_b)) 2 3.

Lemma fresh_start npeers i max : w_start (mkWorld (fresh npeers i max) [] AIdle []).
Proof. by exists npeers, i, max, MakePersister, (fresh npeers i max). Qed.

Ltac run_step rule := eapply rtc_l; [eapply rule; vm_compute; reflexivity|].

Lemma kv_ok_reply_applied_witness :
  ∃ w, rtc (w_step (λ _, 0)) (mkWorld (fresh 3 0 (-1)) [] AIdle []) w ∧
    HReturned call_a (Some 1) (RPutAppend (mkPAReply OK)) ∈ w_handlers w ∧
    ∃ index log1 log2, Some 1 = Some index ∧
      w_log w = log1 ++ EApplied index (call_op call_a) :: log2 ∧ True.
Proof.
  set (w0 := mkWorld (fresh 3 0 (-1)) [] AIdle []).
  assert (w_start w0) as H0 by apply fresh_start.
  assert (∃ w, rtc (w_step (λ _, 0)) w0 w ∧
            HReturned call_a (Some 1) (RPutAppend (mkPAReply OK)) ∈ w_handlers w)
    as (w & Hs & Hin).
  { eexists. split.
    - run_step (w_raft (λ _, 0) BeginElection). run_step (w_raft (λ _, 0) (lead 1)).
      run_step (w_call (λ _, 0) call_a). run_step (w_channel (λ _, 0) 0).
      run_step (w_command (λ _, 0) (commandMsg (AOp (call_op call_a)) 1 1)).
      eapply rtc_l; [apply w_deliver|]. run_step (w_receive (λ _, 0) 0).
      run_step (w_leave (λ _, 0) 0). apply rtc_refl.
    - vm_compute. apply list_elem_of_singleton. reflexivity. }
  exists w. split; [done|]. split; [done|].
  exact (kv_ok_reply_applied _ w0 w call_a (Some 1) _ H0 Hs Hin eq_refl).
Defined.

(** A request can wait for ever though it was applied: after the run above
    the peer leads term 3 and has applied the second request, but as long as
    it leads that term its handler is not answered, and its client waits. *)
Theorem kv_handler_starves :
  ∃ w0 w, w_start w0 ∧ rtc (w_step (λ _, 0)) w0 w ∧ leads 3 w ∧
    EApplied 2 (call_op call_b) ∈ w_log w ∧
    ∀ w', rtc (w_step_leading (λ _, 0) 3) w w' →
      w_handlers w' !! 1%nat = Some (HWaiting call_b 2 3 0).
Proof.
  exists (mkWorld (fresh 3 0 (-1)) [] AIdle []).
  assert (∃ w, rtc (w_step (λ _, 0)) (mkWorld (fresh 3 0 (-1)) [] AIdle []) w ∧ leads 3 w ∧
     w_log w = [EApplied 1 (put_x "0" 1); EApplied 2 (call_op call_b)] ∧
     (chans (w_kv w), notify (w_kv w), w_applier w) = ([None], ∅, AIdle) ∧
     w_handlers w !! 1%nat = Some (HWaiting call_b 2 3 0)) as (w & Hs & Hl & Hlog & Hc & Hh).
  { eexists. split.
    - run_step (w_raft (λ _, 0) BeginElection). run_step (w_raft (λ _, 0) (lead 1)).
      run_step (w_raft (λ _, 0) (StartCommand (AOp (put_x "9" 9)))).
      run_step (w_call (λ _, 0) call_a). run_step (w_channel (λ _, 0) 0).
      run_step (w_raft (λ _, 0) (HandleEntries (mkAEArgs 2 1 0 0 [other_entry] 0 0))).
      run_step (w_raft (λ _, 0) BeginElection). run_step (w_raft (λ _, 0) (lead 3)).
      run_step (w_call (λ _, 0) call_b). run_step (w_channel (λ _, 0) 1).
      run_step (w_raft (λ _, 0) majority_reply).
      run_step (w_command (λ _, 0) before_apply_1).
      eapply rtc_l; [apply w_deliver|]. eapply rtc_l; [apply w_maybe|].
      run_step (w_command (λ _, 0) apply_b).
      eapply rtc_l; [apply w_deliver|]. eapply rtc_l; [apply w_maybe|].
      run_step (w_receive (λ _, 0) 0). run_step (w_leave (λ _, 0) 0). apply rtc_refl.
    - split_and!; vm_compute; reflexivity. }
  exists w. split; [|split; [done|split; [done|split]]].
  - apply fresh_start.
  - rewrite Hlog. right. left.
  - intros w' Hw'. injection Hc as Hc Hn Ha. eapply starving_steps; [exact Hw'| |exact Hh].
    split; [by rewrite Hc|]. rewrite Hn, Ha. split; [|done]. intros i. by rewrite lookup_empty.
Qed.
