(* ===== verification/ClerkLoop.v ===== *)
(** * The request loop of the clerks

    All clerks of kvraft/client.go and shardctrler/client.go send a request to
    the servers in turn, from the one that led last, until one accepts it.
    [Call] is the network: the outcome of the [k]-th RPC of the request, sent
    to a server; [None] is a lost RPC.  The loop runs for ever when no server
    accepts, so it takes fuel, one unit for each round over the servers. *)
From stdpp Require Import base tactics list numbers.
From S2P Require Import Prelude.
Open Scope Z_scope.
Open Scope go_scope.

Section loop.
Context {R : Type} (Call : nat → Z → option R) (accept : R → bool) (n startAt : Z).

(** [for i := 0; i < n; i++], with [m] turns left; [k] counts the RPCs. *)
Fixpoint try_servers (m : nat) (i : Z) (k : nat) : option (Z * R) :=
  match m with
  | O => None
  | S m =>
      let srvIdx := (startAt + i) `mod` n in
      match Call k srvIdx with
      | Some reply => if accept reply then Some (srvIdx, reply) else try_servers m (i + 1) (S k)
      | None => try_servers m (i + 1) (S k)
      end
  end.

Fixpoint retry (fuel : nat) (k : nat) : option (Z * R) :=
  match fuel with
  | O => None
  | S fuel =>
      match try_servers (Z.to_nat n) 0 k with
      | Some r => Some r
      | None => retry fuel (k + Z.to_nat n)
      end
  end.
End loop.

(** ** The loop stops at the first acceptable answer *)
Section loop_facts.
Context {R : Type} (Call : nat → Z → option R) (accept : R → bool) (n startAt : Z).
Context (Hn : 0 < n).

Definition accepted (k : nat) : Prop :=
  ∃ r, Call k ((startAt + Z.of_nat k) `mod` n) = Some r ∧ accept r = true.

(** The [m] RPCs from the [i]-th of a round that starts at RPC [k0]. *)
Lemma try_servers_none m i k :
  (∀ j : nat, (j < m)%nat → ∀ r,
     Call (k + j) ((startAt + (i + Z.of_nat j)) `mod` n) = Some r → accept r = false) →
  try_servers Call accept n startAt m i k = None.
Proof.
  revert i k. induction m as [|m IH]; intros i k H; cbn; [done|].
  assert (try_servers Call accept n startAt m (i + 1) (S k) = None) as Hrest.
  { apply IH. intros j Hj r Hr. apply (H (S j)); [lia|]. rewrite <- Hr.
    f_equal; [lia|f_equal; lia]. }
  destruct (Call k _) as [r|] eqn:E; [|done]. rewrite (H 0%nat ltac:(lia) r); [done|].
  rewrite <- E. f_equal; [lia|f_equal; lia].
Qed.

Lemma try_servers_some m i k j r :
  (j < m)%nat →
  Call (k + j) ((startAt + (i + Z.of_nat j)) `mod` n) = Some r → accept r = true →
  (∀ j' : nat, (j' < j)%nat → ∀ r,
     Call (k + j') ((startAt + (i + Z.of_nat j')) `mod` n) = Some r → accept r = false) →
  try_servers Call accept n startAt m i k = Some ((startAt + (i + Z.of_nat j)) `mod` n, r).
Proof.
  revert i k j. induction m as [|m IH]; intros i k j Hj Hr Ha Hb; [lia|]. cbn.
  destruct j as [|j].
  - replace (i + Z.of_nat 0) with i in * by lia. rewrite Nat.add_0_r in Hr. by rewrite Hr, Ha.
  - assert (try_servers Call accept n startAt m (i + 1) (S k) =
              Some ((startAt + (i + Z.of_nat (S j))) `mod` n, r)) as Hrest.
    { replace (i + Z.of_nat (S j)) with (i + 1 + Z.of_nat j) in * by lia.
      apply IH; [lia| |done|]; [by replace (S k + j)%nat with (k + S j)%nat by lia|].
      intros j' Hj' r' Hr'. apply (Hb (S j')); [lia|]. rewrite <- Hr'.
      f_equal; [lia|f_equal; lia]. }
    destruct (Call k _) as [r'|] eqn:E; [|done]. rewrite (Hb 0%nat ltac:(lia) r'); [done|].
    rewrite <- E. f_equal; [lia|f_equal; lia].
Qed.

Lemma round_index (c : nat) (j : Z) :
  (startAt + (Z.of_nat (c * Z.to_nat n) + j)) `mod` n = (startAt + (0 + j)) `mod` n.
Proof.
  rewrite Nat2Z.inj_mul, Z2Nat.id by lia.
  replace (startAt + (Z.of_nat c * n + j)) with (startAt + (0 + j) + Z.of_nat c * n) by lia.
  apply Z_mod_plus_full.
Qed.

Lemma retry_first fuel c k r :
  (c * Z.to_nat n ≤ k)%nat → (k < (c + fuel) * Z.to_nat n)%nat →
  Call k ((startAt + Z.of_nat k) `mod` n) = Some r → accept r = true →
  (∀ j, (c * Z.to_nat n ≤ j < k)%nat → ¬ accepted j) →
  retry Call accept n startAt fuel (c * Z.to_nat n) =
    Some ((startAt + Z.of_nat k) `mod` n, r).
Proof.
  revert c. induction fuel as [|fuel IH]; intros c Hc Hk Hr Ha Hb; [lia|]. cbn.
  assert (∀ j : nat, (c * Z.to_nat n + j < k)%nat → ∀ r,
     Call (c * Z.to_nat n + j) ((startAt + (0 + Z.of_nat j)) `mod` n) = Some r →
     accept r = false) as Hbad.
  { intros j Hj r' Hr'. destruct (accept r') eqn:E; [|done]. exfalso.
    apply (Hb (c * Z.to_nat n + j)%nat); [lia|]. exists r'. split; [|done].
    by rewrite Nat2Z.inj_add, round_index. }
  destruct (decide (k < (S c) * Z.to_nat n)%nat) as [Hin|Hout].
  - assert (∃ j, k = (c * Z.to_nat n + j)%nat) as [j ->] by (exists (k - c * Z.to_nat n)%nat; lia).
    rewrite Nat2Z.inj_add, round_index in Hr |- *.
    rewrite (try_servers_some _ _ _ j r); [done|lia|done|done|].
    intros j' Hj'. apply Hbad. lia.
  - rewrite try_servers_none; [|intros j Hj; apply Hbad; lia].
    replace (c * Z.to_nat n + Z.to_nat n)%nat with (S c * Z.to_nat n)%nat by lia.
    apply IH; [lia|lia|done|done|]. intros j Hj. apply Hb. lia.
Qed.

End loop_facts.


(** The first accepted RPC ends the loop, after [k / n + 1] rounds at most. *)
Lemma retry_returns {R} (Call : nat → Z → option R) accept n startAt fuel (k : nat) r :
  0 < n → Z.of_nat k `div` n < Z.of_nat fuel →
  Call k ((startAt + Z.of_nat k) `mod` n) = Some r → accept r = true →
  (∀ j, (j < k)%nat → ¬ accepted Call accept n startAt j) →
  retry Call accept n startAt fuel 0 = Some ((startAt + Z.of_nat k) `mod` n, r).
Proof.
  intros Hn Hk Hr Ha Hb. apply (retry_first Call accept n startAt Hn fuel 0 k r); try done; [lia| |].
  - rewrite Nat.add_0_l. apply Nat2Z.inj_lt. rewrite Nat2Z.inj_mul, Z2Nat.id by lia.
    pose proof (Z.mod_pos_bound (Z.of_nat k) n). pose proof (Z.div_mod (Z.of_nat k) n). nia.
  - intros j Hj. apply Hb. lia.
Qed.
