(* ===== verification/KVClerk.v ===== *)
(** * kvraft/client.go: the clerk of the key/value service

    The outcome of the RPCs is a parameter, like the random [clientID]; see
    ClerkLoop.v for the loop. *)
From stdpp Require Import base tactics list strings numbers.
From S2P Require Import Prelude.
From S2P Require Import KVServer.
From S2P Require Import ClerkLoop.
Open Scope Z_scope.
Open Scope go_scope.

Record Clerk := mkClerk {
  servers : Z;               (* len(ck.servers) *)
  leaderHint : Z;
  clientID : Z;
  nextReqID : Z
}.

#[export] Instance Clerk_eta : RecordEta Clerk :=
  λ ck, mkClerk (servers ck) (leaderHint ck) (clientID ck) (nextReqID ck).

Definition MakeClerk (nservers nrand : Z) : Clerk := mkClerk nservers 0 nrand 1.

Section clerk.
Context (CallGet : GetArgs → nat → Z → option GetReply).
Context (CallPutAppend : PutAppendArgs → nat → Z → option PutAppendReply).

Definition get_ok (r : GetReply) : bool := bool_decide (gr_Err r = OK).
Definition put_ok (r : PutAppendReply) : bool := bool_decide (par_Err r = OK).

Definition Get (fuel : nat) (key : string) (ck : Clerk) : option (Clerk * string) :=
  let reqID := nextReqID ck in
  let ck := ck <| nextReqID ::= Z.succ |> in
  let args := mkGetArgs key (clientID ck) reqID in
  match retry (CallGet args) get_ok (servers ck) (leaderHint ck) fuel 0 with
  | Some (srvIdx, reply) => Some (ck <| leaderHint := srvIdx |>, gr_Value reply)
  | None => None
  end.

Definition PutAppend (fuel : nat) (key value op : string) (ck : Clerk) : option Clerk :=
  let reqID := nextReqID ck in
  let ck := ck <| nextReqID ::= Z.succ |> in
  let args := mkPAArgs key value op (clientID ck) reqID in
  match retry (CallPutAppend args) put_ok (servers ck) (leaderHint ck) fuel 0 with
  | Some (srvIdx, _) => Some (ck <| leaderHint := srvIdx |>)
  | None => None
  end.

Definition Put (fuel : nat) (key value : string) (ck : Clerk) : option Clerk :=
  PutAppend fuel key value "Put" ck.
Definition Append (fuel : nat) (key value : string) (ck : Clerk) : option Clerk :=
  PutAppend fuel key value "Append" ck.
End clerk.

(** A request returns with the first [OK] any server gives: if RPC [k]
    is the first one answered [OK], the clerk stops there, remembers that
    server as the leader, has used one request number for all its retries and
    returns the value; [k / n + 1] rounds suffice. *)
Theorem clerk_returns_first_ok CallGet fuel key ck (k : nat) reply :
  let args := mkGetArgs key (clientID ck) (nextReqID ck) in
  let n := servers ck in
  let server j := (leaderHint ck + Z.of_nat j) `mod` n in
  0 < n → Z.of_nat k `div` n < Z.of_nat fuel →
  CallGet args k (server k) = Some reply → gr_Err reply = OK →
  (∀ j r, (j < k)%nat → CallGet args j (server j) = Some r → gr_Err r ≠ OK) →
  Get CallGet fuel key ck =
    Some (ck <| nextReqID := nextReqID ck + 1 |> <| leaderHint := server k |>, gr_Value reply).
Proof.
  cbn. intros Hn Hk Hr Hok Hb. unfold Get. cbn.
  rewrite (retry_returns (CallGet _) get_ok (servers ck) (leaderHint ck) fuel k reply); try done.
  - unfold get_ok. by rewrite bool_decide_true.
  - intros j Hj (r & Hrj & Ha). unfold get_ok in Ha. zbool. by apply (Hb j r).
Qed.

(** The second server of three has the lead; the first is down. *)
Definition second_leads (args : GetArgs) (k : nat) (s : Z) : option GetReply :=
  if s =? 1 then Some (mkGetReply OK "v")
  else if s =? 0 then None else Some (mkGetReply ErrWrongLeader "").

Lemma clerk_returns_first_ok_witness :
  let ck := (MakeClerk 3 77) <| leaderHint := 2 |> in
  Get second_leads 1 "x" ck = Some (mkClerk 3 1 77 2, "v").
Proof.
  intros ck.
  exact (clerk_returns_first_ok second_leads 1 "x" ck 2 (mkGetReply OK "v")
    ltac:(done) ltac:(done) ltac:(done) ltac:(done)
    ltac:(intros j r Hj; destruct j as [|[|j]];
          [vm_compute; by intros [= <-]|vm_compute; done|lia])).
Defined.
