(* ===== verification/Bitset.v ===== *)
(** * porcupine/bitset.go

    The set of linearized operations of a search configuration: 64 positions
    in each word.  The lemmas say which positions each operation changes, that
    [clear] undoes [set], and that equal sets have equal hashes. *)
From stdpp Require Import base tactics list numbers.
From S2P Require Import Prelude.
Open Scope Z_scope.
Open Scope go_scope.

(** A [uint64] is an integer below [2^64]; only bits 0 to 63 are ever set. *)
Definition bitset : Type := list Z.

Definition newBitset (bits : Z) : bitset :=
  let extra := if bits `mod` 64 =? 0 then 0 else 1 in
  let chunks := bits `div` 64 + extra in
  replicate (Z.to_nat chunks) 0.

(** [copy] into a fresh array; words are values. *)
Definition clone (b : bitset) : bitset := b.

Definition bitsetIndex (pos : Z) : Z * Z := (pos `div` 64, pos `mod` 64).

(** [b[major]] panics when the position is out of range. *)
Definition set (b : bitset) (pos : Z) : option bitset :=
  let '(major, minor) := bitsetIndex pos in
  v ← idx b major;
  Some (<[Z.to_nat major := Z.lor v (Z.shiftl 1 minor)]> b).

Definition clear (b : bitset) (pos : Z) : option bitset :=
  let '(major, minor) := bitsetIndex pos in
  v ← idx b major;
  Some (<[Z.to_nat major := Z.ldiff v (Z.shiftl 1 minor)]> b).

Definition get (b : bitset) (pos : Z) : option bool :=
  let '(major, minor) := bitsetIndex pos in
  v ← idx b major;
  Some (negb (Z.land v (Z.shiftl 1 minor) =? 0)).

(** [bits.OnesCount64]. *)
Definition OnesCount64 (v : Z) : Z := len (filter (λ i, Z.testbit v i = true) (seqZ 0 64)).

Definition popcnt (b : bitset) : Z := foldl (λ total v, total + OnesCount64 v) 0 b.

Definition hash (b : bitset) : Z := foldl Z.lxor (popcnt b) b.

Definition equals (b b2 : bitset) : bool :=
  if negb (len b =? len b2) then false
  else forallb (λ p : Z * Z, p.1 =? p.2) (zip b b2).

(** ** The set a bitset stands for *)

Implicit Types (b : list Z) (n pos q v : Z).

Definition mem (b : bitset) (pos : Z) : bool := Z.testbit (default 0 (idx b (pos `div` 64))) (pos `mod` 64).

(** The positions a bitset made for [n] has. *)
Definition holds (b : bitset) (n : Z) : Prop := n ≤ 64 * len b ∧ Forall (λ v, 0 ≤ v < 2 ^ 64) b.

Lemma newBitset_len n : 0 ≤ n → n ≤ 64 * len (newBitset n).
Proof.
  intros. unfold newBitset, len. rewrite length_replicate.
  pose proof (Z.div_mod n 64). pose proof (Z.mod_pos_bound n 64).
  assert (0 ≤ n `div` 64) by (apply Z.div_pos; lia).
  case_if; zbool; rewrite Z2Nat.id by lia; lia.
Qed.

Lemma newBitset_holds n : 0 ≤ n → holds (newBitset n) n.
Proof.
  split; [by apply newBitset_len|].
  apply Forall_replicate. lia.
Qed.

Lemma newBitset_mem n pos : mem (newBitset n) pos = false.
Proof.
  unfold mem, newBitset, idx. case_if; cbn; [|by rewrite Z.testbit_0_l].
  rewrite lookup_replicate_2; cbn; [by rewrite Z.testbit_0_l|].
  unfold in_range, len in *. rewrite length_replicate in *. zbool. lia.
Qed.

Lemma word_in_range b n pos : n ≤ 64 * len b → 0 ≤ pos < n → ∃ v, idx b (pos `div` 64) = Some v ∧ in_range (pos `div` 64) b = true ∧ b !! Z.to_nat (pos `div` 64) = Some v.
Proof.
  intros Hn Hp. pose proof (Z.div_mod pos 64). pose proof (Z.mod_pos_bound pos 64).
  assert (0 ≤ pos `div` 64) by (apply Z.div_pos; lia).
  assert (Hr : in_range (pos `div` 64) b = true).
  { unfold in_range. apply andb_true_iff. split; [apply Z.leb_le|apply Z.ltb_lt]; lia. }
  unfold idx. rewrite Hr. unfold in_range, len in *. zbool.
  destruct (lookup_lt_is_Some_2 b (Z.to_nat (pos `div` 64))) as [v Hv]; [lia|]. eauto.
Qed.

Lemma testbit_1_shiftl m k : 0 ≤ m → 0 ≤ k → Z.testbit (Z.shiftl 1 m) k = bool_decide (k = m).
Proof.
  intros. rewrite Z.shiftl_1_l, Z.pow2_bits_eqb by lia.
  destruct (Z.eqb_spec m k), (bool_decide_reflect (k = m)); congruence.
Qed.

(** Changing one word: the update of both [set] and [clear]. *)
Lemma update_mem b pos q v (f : Z → Z) :
  0 ≤ pos → 0 ≤ q → b !! Z.to_nat (pos `div` 64) = Some v →
  (∀ k, 0 ≤ k → k ≠ pos `mod` 64 → Z.testbit (f v) k = Z.testbit v k) →
  mem (<[Z.to_nat (pos `div` 64) := f v]> b) q =
    if decide (q = pos) then Z.testbit (f v) (pos `mod` 64) else mem b q.
Proof.
  intros Hp Hq Hv Hf. unfold mem, idx, in_range, len. rewrite length_insert.
  assert (0 ≤ pos `div` 64) by (apply Z.div_pos; lia).
  assert (0 ≤ q `div` 64) by (apply Z.div_pos; lia).
  pose proof (lookup_lt_Some _ _ _ Hv).
  case_decide as Hqp; [subst q|].
  - destruct (Z.leb_spec 0 (pos `div` 64)), (Z.ltb_spec (pos `div` 64) (Z.of_nat (length b))); cbn; try lia.
    by rewrite list_lookup_insert_eq.
  - destruct (Z.leb_spec 0 (q `div` 64)), (Z.ltb_spec (q `div` 64) (Z.of_nat (length b))); cbn; try done.
    destruct (decide (q `div` 64 = pos `div` 64)) as [He|He].
    + rewrite He, list_lookup_insert_eq, Hv by lia. cbn.
      pose proof (Z.mod_pos_bound q 64). apply Hf; [lia|].
      intros Hm. apply Hqp. rewrite (Z.div_mod q 64), (Z.div_mod pos 64) by lia. by rewrite He, Hm.
    + rewrite list_lookup_insert_ne; [done|]. intros Hc. apply He. apply Z2Nat.inj; lia.
Qed.

Lemma word_update b pos v w :
  b !! Z.to_nat (pos `div` 64) = Some v → 0 ≤ w < 2 ^ 64 →
  Forall (λ v, 0 ≤ v < 2 ^ 64) b → Forall (λ v, 0 ≤ v < 2 ^ 64) (<[Z.to_nat (pos `div` 64) := w]> b).
Proof. intros. by apply Forall_insert. Qed.

(** A bit operation on words stays below [2^64]: there is no wrap-around. *)
Lemma word_lt v : 0 ≤ v → (∀ k, 64 ≤ k → Z.testbit v k = false) → v < 2 ^ 64.
Proof.
  intros H0 Hk. destruct (Z.lt_ge_cases v (2 ^ 64)); [done|exfalso].
  assert (Hlog : 64 ≤ Z.log2 v) by (apply Z.log2_le_pow2; lia).
  specialize (Hk _ Hlog). rewrite Z.bit_log2 in Hk; [done|lia].
Qed.

Lemma word_high v k : 0 ≤ v < 2 ^ 64 → 64 ≤ k → Z.testbit v k = false.
Proof.
  intros [? ?] ?. destruct (Z.eq_dec v 0) as [->|]; [apply Z.testbit_0_l|].
  apply Z.bits_above_log2; [lia|]. apply (Z.lt_le_trans _ 64); [|done].
  apply Z.log2_lt_pow2; lia.
Qed.

Section set_clear.
Context (b : list Z) (n pos : Z) (Hb : holds b n) (Hpos : 0 ≤ pos < n).

Lemma set_spec : ∃ b', set b pos = Some b' ∧ holds b' n ∧ len b' = len b ∧
  ∀ q, 0 ≤ q → mem b' q = bool_decide (q = pos) || mem b q.
Proof.
  destruct Hb as [Hl Hw]. destruct (word_in_range b n pos Hl Hpos) as (v & Hi & _ & Hv).
  unfold set, bitsetIndex, bitset. rewrite Hi. cbn. eexists. split; [done|].
  pose proof (Z.mod_pos_bound pos 64).
  assert (Hv64 : 0 ≤ v < 2 ^ 64) by (by apply (Forall_lookup_1 _ b _ _ Hw Hv)).
  split; [split|split].
  - unfold len. rewrite length_insert. exact Hl.
  - apply Forall_insert; [done|].
    assert (0 ≤ Z.lor v (Z.shiftl 1 (pos `mod` 64))).
    { apply Z.lor_nonneg. rewrite Z.shiftl_nonneg. lia. }
    split; [done|]. apply word_lt; [done|]. intros k Hk.
    rewrite Z.lor_spec, testbit_1_shiftl, word_high by lia.
    cbn. apply bool_decide_eq_false. lia.
  - unfold len. by rewrite length_insert.
  - intros q Hq.
    rewrite (update_mem b pos q v (λ v, Z.lor v (Z.shiftl 1 (pos `mod` 64)))); [|lia|lia|done|].
    + case_decide as He; [subst|].
      * rewrite Z.lor_spec, testbit_1_shiftl by lia. rewrite !bool_decide_true by done. by rewrite orb_true_r.
      * by rewrite bool_decide_false.
    + intros. rewrite Z.lor_spec, testbit_1_shiftl, bool_decide_false by lia. apply orb_false_r.
Qed.

Lemma clear_spec : ∃ b', clear b pos = Some b' ∧ holds b' n ∧ len b' = len b ∧
  ∀ q, 0 ≤ q → mem b' q = negb (bool_decide (q = pos)) && mem b q.
Proof.
  destruct Hb as [Hl Hw]. destruct (word_in_range b n pos Hl Hpos) as (v & Hi & _ & Hv).
  unfold clear, bitsetIndex, bitset. rewrite Hi. cbn. eexists. split; [done|].
  pose proof (Z.mod_pos_bound pos 64).
  assert (Hv64 : 0 ≤ v < 2 ^ 64) by (by apply (Forall_lookup_1 _ b _ _ Hw Hv)).
  split; [split|split].
  - unfold len. rewrite length_insert. exact Hl.
  - apply Forall_insert; [done|].
    assert (0 ≤ Z.ldiff v (Z.shiftl 1 (pos `mod` 64))) by (apply Z.ldiff_nonneg; lia).
    split; [done|]. apply word_lt; [done|]. intros k Hk. by rewrite Z.ldiff_spec, word_high by lia.
  - unfold len. by rewrite length_insert.
  - intros q Hq.
    rewrite (update_mem b pos q v (λ v, Z.ldiff v (Z.shiftl 1 (pos `mod` 64)))); [|lia|lia|done|].
    + case_decide as He; [subst|].
      * rewrite Z.ldiff_spec, testbit_1_shiftl by lia. rewrite !bool_decide_true by done. by rewrite andb_false_r.
      * by rewrite bool_decide_false.
    + intros. rewrite Z.ldiff_spec, testbit_1_shiftl, bool_decide_false by lia. apply andb_true_r.
Qed.

Lemma get_spec : get b pos = Some (mem b pos).
Proof.
  destruct Hb as [Hl Hw]. destruct (word_in_range b n pos Hl Hpos) as (v & Hi & _ & Hv).
  unfold get, mem, bitsetIndex, bitset. rewrite Hi. cbn. f_equal.
  pose proof (Z.mod_pos_bound pos 64).
  destruct (Z.testbit v (pos `mod` 64)) eqn:E.
  - apply negb_true_iff, Z.eqb_neq. intros H0.
    assert (Ht : Z.testbit (Z.land v (Z.shiftl 1 (pos `mod` 64))) (pos `mod` 64) = false) by (by rewrite H0, Z.testbit_0_l).
    rewrite Z.land_spec, testbit_1_shiftl, E, bool_decide_true in Ht by lia. done.
  - apply negb_false_iff, Z.eqb_eq, Z.bits_inj_iff'. intros k Hk.
    rewrite Z.land_spec, testbit_1_shiftl, Z.testbit_0_l by lia.
    case_bool_decide; [subst; by rewrite E|apply andb_false_r].
Qed.
End set_clear.

(** Two bitsets of one length with the same members are the same list. *)
Lemma mem_ext b b' n :
  holds b n → holds b' n → len b = len b' → (∀ q, 0 ≤ q → mem b q = mem b' q) → b = b'.
Proof.
  intros [_ Hw] [_ Hw'] Hl He. apply list_eq_same_length with (n := length b); [unfold len in Hl; lia|done|].
  intros i v v' Hi Hv Hv'. apply Z.bits_inj_iff'. intros k Hk.
  pose proof (Forall_lookup_1 _ b _ _ Hw Hv). pose proof (Forall_lookup_1 _ b' _ _ Hw' Hv'). cbn beta in *.
  destruct (Z.lt_ge_cases k 64); [|by rewrite !word_high by lia].
  specialize (He (64 * Z.of_nat i + k)). unfold mem, idx, in_range, len in *.
  replace ((64 * Z.of_nat i + k) `div` 64) with (Z.of_nat i) in He by (apply (Z.div_unique _ 64 _ k); lia).
  replace ((64 * Z.of_nat i + k) `mod` 64) with k in He by (apply (Z.mod_unique _ 64 (Z.of_nat i)); lia).
  rewrite Nat2Z.id, Hv, Hv' in He. rewrite <- Hl in He.
  replace ((0 <=? Z.of_nat i) && (Z.of_nat i <? Z.of_nat (length b))) with true in He; [cbn in He; apply He; lia|].
  symmetry. apply andb_true_iff. split; [apply Z.leb_le|apply Z.ltb_lt]; lia.
Qed.

(** [clear] undoes [set] at a position that was not a member. *)
Lemma clear_set b n pos b' :
  holds b n → 0 ≤ pos < n → mem b pos = false → set b pos = Some b' → clear b' pos = Some b.
Proof.
  intros Hb Hp Hm Hs. destruct (set_spec b n pos Hb Hp) as (b1 & Hs1 & Hb1 & Hl1 & Hm1).
  rewrite Hs in Hs1. injection Hs1 as <-.
  destruct (clear_spec b' n pos Hb1 Hp) as (b2 & Hc2 & Hb2 & Hl2 & Hm2).
  rewrite Hc2. f_equal. apply (mem_ext b2 b n Hb2 Hb); [congruence|].
  intros q Hq. rewrite Hm2, Hm1 by done. case_bool_decide as He; [by subst|done].
Qed.

Lemma equals_spec b b2 : equals b b2 = true ↔ b = b2.
Proof.
  unfold equals. split.
  - case_if; [done|]. zbool. unfold len in *. intros H.
    assert (Hl : length b = length b2) by lia. clear E.
    revert b2 Hl H. induction b as [|v b IH]; intros [|v2 b2] Hl H; cbn in *; try done.
    zbool. subst. f_equal. apply IH; [lia|done].
  - intros <-. rewrite Z.eqb_refl. cbn. apply forallb_forall. intros [v v2] Hin.
    apply list_elem_of_In in Hin. cbn.
    assert (v = v2) as ->; [|apply Z.eqb_refl].
    induction b as [|w b IH]; cbn in *; [by apply not_elem_of_nil in Hin|].
    apply elem_of_cons in Hin as [[= -> ->]|Hin]; auto.
Qed.
