(* ===== verification/Porcupine.v ===== *)
(** * porcupine/: the linearizability checker

    [model.go], [checker.go] and [porcupine.go].  Pointers to [node] are
    positions in a heap of nodes, [nil] is [None], and following [nil] is a
    panic ([None] of the result).  What the caller supplies in a [Model] and
    [sort.Sort] are parameters.  [In], [Out] and [St] are the types of the inputs,
    outputs and states, which the source keeps in [interface{}]. *)
From stdpp Require Import base tactics list gmap strings numbers.
From S2P Require Import Prelude Bitset.
Open Scope Z_scope.
Open Scope go_scope.

(** ** model.go *)

Record Operation {In Out} := mkOperation {
  op_ClientId : Z; op_Input : In; op_Call : Z; op_Output : Out; op_Return : Z }.
Arguments Operation : clear implicits.

Inductive EventKind := CallEvent | ReturnEvent.
Record Event {In Out} := mkEvent {
  ev_ClientId : Z; ev_Kind : EventKind; ev_Value : In + Out; ev_Id : Z }.
Arguments Event : clear implicits.

(** A field that holds [nil] is [None]. *)
Record Model {In Out St} := mkModel {
  m_Partition : option (list (Operation In Out) → list (list (Operation In Out)));
  m_PartitionEvent : option (list (Event In Out) → list (list (Event In Out)));
  m_Init : St;
  m_Step : St → In → Out → bool * St;
  m_Equal : option (St → St → bool);
  m_DescribeOperation : option (In → Out → string);
  m_DescribeState : option (St → string) }.
Arguments Model : clear implicits.

Inductive CheckResult := Unknown | Ok | Illegal.
#[export] Instance CheckResult_eq_dec : EqDecision CheckResult.
Proof. solve_decision. Defined.

(** ** The data of checker.go *)

Inductive entryKind := callEntry | returnEntry.
#[export] Instance entryKind_eq_dec : EqDecision entryKind.
Proof. solve_decision. Defined.

Record entry {In Out} := mkEntry {
  e_kind : entryKind; e_value : In + Out; e_id : Z; e_time : Z; e_clientId : Z }.
Arguments entry : clear implicits.

(** A call if [n_match] is not [nil], otherwise a return. *)
Record node {In Out} := mkNode {
  n_value : option (In + Out); n_match : option nat; n_id : Z;
  n_next : option nat; n_prev : option nat }.
Arguments node : clear implicits.
#[export] Instance node_eta In Out : RecordEta (node In Out) :=
  λ n, mkNode In Out (n_value n) (n_match n) (n_id n) (n_next n) (n_prev n).

Record cacheEntry {St} := mkCacheEntry { ce_linearized : bitset; ce_state : St }.
Arguments cacheEntry : clear implicits.
Record callsEntry {St} := mkCallsEntry { c_entry : option nat; c_state : St }.
Arguments callsEntry : clear implicits.

(** The variables of [checkSingle].  [longest] holds pointers to slices of
    ids; [seqs] has the slices made so far, a pointer is a position in it. *)
Record search {In Out St} := mkSearch {
  heap : list (node In Out);
  cur : option nat;
  state : St;
  linearized : bitset;
  cache : gmap Z (list (cacheEntry St));
  calls : list (callsEntry St);
  seqs : list (list Z);
  longest : list (option nat) }.
Arguments search : clear implicits.
#[export] Instance search_eta In Out St : RecordEta (search In Out St) :=
  λ s, mkSearch In Out St (heap s) (cur s) (state s) (linearized s) (cache s) (calls s) (seqs s) (longest s).

Record linearizationInfo {In Out} := mkInfo {
  history : list (list (entry In Out));
  partialLinearizations : list (list (list Z)) }.
Arguments linearizationInfo : clear implicits.

(** What the [select] of [checkParallel] receives. *)
Inductive arrival := Arrived (i : nat) | TimedOut.

Section porcupine.
Context {In Out St : Type}.
Implicit Types (h : list (node In Out)) (model : Model In Out St).

Definition NoPartition (history : list (Operation In Out)) : list (list (Operation In Out)) := [history].
Definition NoPartitionEvent (history : list (Event In Out)) : list (list (Event In Out)) := [history].

(** [==] on the states. *)
Definition ShallowEqual `{EqDecision St} (state1 state2 : St) : bool := bool_decide (state1 = state2).

(** ** Histories as entries *)

(** The loop of [makeEntries], before it sorts. *)
Fixpoint operationEntries (id : Z) (history : list (Operation In Out)) : list (entry In Out) :=
  match history with
  | [] => []
  | elem :: history =>
      mkEntry In Out callEntry (inl (op_Input elem)) id (op_Call elem) (op_ClientId elem)
      :: mkEntry In Out returnEntry (inr (op_Output elem)) id (op_Return elem) (op_ClientId elem)
      :: operationEntries (id + 1) history
  end.

Definition makeEntries (sort_byTime : list (entry In Out) → list (entry In Out))
    (history : list (Operation In Out)) : list (entry In Out) :=
  sort_byTime (operationEntries 0 history).

Fixpoint renumberLoop (m : gmap Z Z) (id : Z) (events : list (Event In Out)) : list (Event In Out) :=
  match events with
  | [] => []
  | v :: events =>
      match m !! ev_Id v with
      | Some r => mkEvent In Out (ev_ClientId v) (ev_Kind v) (ev_Value v) r :: renumberLoop m id events
      | None =>
          mkEvent In Out (ev_ClientId v) (ev_Kind v) (ev_Value v) id
          :: renumberLoop (<[ev_Id v := id]> m) (id + 1) events
      end
  end.
Definition renumber (events : list (Event In Out)) : list (Event In Out) := renumberLoop ∅ 0 events.

Definition convertEntries (events : list (Event In Out)) : list (entry In Out) :=
  imap (λ i elem,
    let kind := match ev_Kind elem with ReturnEvent => returnEntry | CallEvent => callEntry end in
    mkEntry In Out kind (ev_Value elem) (ev_Id elem) (Z.of_nat i) (ev_ClientId elem)) events.

(** ** The doubly linked list *)

Definition deref h (p : option nat) : option (node In Out) := i ← p; h !! i.
Definition set_next h (p v : option nat) : option (list (node In Out)) :=
  i ← p; n ← h !! i; Some (<[i := n <| n_next := v |>]> h).
Definition set_prev h (p v : option nat) : option (list (node In Out)) :=
  i ← p; n ← h !! i; Some (<[i := n <| n_prev := v |>]> h).

(** Returns [n]. *)
Definition insertBefore h (n mark : option nat) : option (list (node In Out)) :=
  match mark with
  | None => Some h
  | Some _ =>
      mk ← deref h mark;
      let beforeMark := n_prev mk in
      h ← set_prev h mark n;
      h ← set_next h n mark;
      match beforeMark with
      | None => Some h
      | Some _ => h ← set_prev h n beforeMark; set_next h beforeMark n
      end
  end.

(** [length]; the list has at most as many nodes as the heap. *)
Fixpoint list_length (fuel : nat) h (n : option nat) : option Z :=
  match n, fuel with
  | None, _ => Some 0
  | Some _, O => None
  | Some _, S fuel => nd ← deref h n; l ← list_length fuel h (n_next nd); Some (l + 1)
  end.

(** One turn of the loop of [makeLinkedEntries], which goes from the last
    entry to the first. *)
Definition linkEntry (elem : entry In Out) (acc : option (list (node In Out) * option nat * gmap Z nat)) :
    option (list (node In Out) * option nat * gmap Z nat) :=
  '(h, root, mtch) ← acc;
  let p := length h in
  let '(n, mtch) :=
    match e_kind elem with
    | returnEntry => (mkNode In Out (Some (e_value elem)) None (e_id elem) None None, <[e_id elem := p]> mtch)
    | callEntry => (mkNode In Out (Some (e_value elem)) (mtch !! e_id elem) (e_id elem) None None, mtch)
    end in
  h ← insertBefore (h ++ [n]) (Some p) root;
  Some (h, Some p, mtch).

Definition makeLinkedEntries (entries : list (entry In Out)) : option (list (node In Out) * option nat) :=
  '(h, root, _) ← foldr linkEntry (Some ([], None, ∅)) entries;
  Some (h, root).

Definition lift h (entry : option nat) : option (list (node In Out)) :=
  e ← deref h entry;
  h ← set_next h (n_prev e) (n_next e);
  e ← deref h entry;
  h ← set_prev h (n_next e) (n_prev e);
  e ← deref h entry;
  let mtch := n_match e in
  m ← deref h mtch;
  h ← set_next h (n_prev m) (n_next m);
  m ← deref h mtch;
  match n_next m with
  | None => Some h
  | Some _ => set_prev h (n_next m) (n_prev m)
  end.

Definition unlift h (entry : option nat) : option (list (node In Out)) :=
  e ← deref h entry;
  let mtch := n_match e in
  m ← deref h mtch;
  h ← set_next h (n_prev m) mtch;
  m ← deref h mtch;
  h ← match n_next m with
      | None => Some h
      | Some _ => set_prev h (n_next m) mtch
      end;
  e ← deref h entry;
  h ← set_next h (n_prev e) entry;
  e ← deref h entry;
  set_prev h (n_next e) entry.

(** ** The cache *)

Definition callEqual model (s t : St) : option bool := f ← m_Equal model; Some (f s t).

Fixpoint bucketContains model (bucket : list (cacheEntry St)) (entry : cacheEntry St) : option bool :=
  match bucket with
  | [] => Some false
  | elem :: bucket =>
      if equals (ce_linearized entry) (ce_linearized elem) then
        b ← callEqual model (ce_state entry) (ce_state elem);
        if b : bool then Some true else bucketContains model bucket entry
      else bucketContains model bucket entry
  end.

Definition cacheContains model (cache : gmap Z (list (cacheEntry St))) (entry : cacheEntry St) : option bool :=
  bucketContains model (map_get [] cache (hash (ce_linearized entry))) entry.

(** ** checkSingle *)

(** [model.Step] with the values of a call and a return: the type assertions
    of the model fail on anything else. *)
Definition callStep model (s : St) (input output : option (In + Out)) : option (bool * St) :=
  match input, output with
  | Some (inl i), Some (inr o) => Some (m_Step model s i o)
  | _, _ => None
  end.

Definition callIds h (calls : list (callsEntry St)) : option (list Z) :=
  mapM (λ v, n ← deref h (c_entry v); Some (n_id n)) calls.

(** The loop under [if computePartial]: [calls0] is the whole of [calls], [p]
    is the pointer [&seq] of this turn. *)
Fixpoint recordLongest h (calls0 : list (callsEntry St)) (p : nat) (calls : list (callsEntry St))
    (sl : list (list Z) * list (option nat)) : option (list (list Z) * list (option nat)) :=
  match calls with
  | [] => Some sl
  | v :: calls =>
      n ← deref h (c_entry v);
      old ← idx sl.2 (n_id n);
      better ← match old with
               | None => Some true
               | Some q => seq ← sl.1 !! q; Some (len seq <? len calls0)
               end;
      if better : bool then
        seqs ← (if decide (length sl.1 = p) then seq ← callIds h calls0; Some (sl.1 ++ [seq]) else Some sl.1);
        recordLongest h calls0 p calls (seqs, <[Z.to_nat (n_id n) := Some p]> sl.2)
      else recordLongest h calls0 p calls sl
  end.

(** The branch of a call entry [e]. *)
Definition tryCall model (head : option nat) (σ : search In Out St) (e : node In Out) : option (search In Out St) :=
  matching ← deref (heap σ) (n_match e);
  '(ok, newState) ← callStep model (state σ) (n_value e) (n_value matching);
  if ok : bool then
    newLinearized ← set (clone (linearized σ)) (n_id e);
    let newCacheEntry := mkCacheEntry St newLinearized newState in
    found ← cacheContains model (cache σ) newCacheEntry;
    if found : bool then Some (σ <| cur := n_next e |>)
    else
      let hsh := hash newLinearized in
      let σ := σ <| cache := <[hsh := map_get [] (cache σ) hsh ++ [newCacheEntry]]> (cache σ) |> in
      let σ := σ <| calls := calls σ ++ [mkCallsEntry St (cur σ) (state σ)] |> in
      let σ := σ <| state := newState |> in
      lin ← set (linearized σ) (n_id e);
      let σ := σ <| linearized := lin |> in
      h ← lift (heap σ) (cur σ);
      let σ := σ <| heap := h |> in
      hd ← deref h head;
      Some (σ <| cur := n_next hd |>)
  else Some (σ <| cur := n_next e |>).

Definition record (computePartial : bool) (σ : search In Out St) :
    option (list (list Z) * list (option nat)) :=
  if computePartial then
    recordLongest (heap σ) (calls σ) (length (seqs σ)) (calls σ) (seqs σ, longest σ)
  else Some (seqs σ, longest σ).

(** The branch of a return entry, once [calls] is known not to be empty. *)
Definition backtrack (computePartial : bool) (σ : search In Out St) : option (search In Out St) :=
  r ← record computePartial σ;
  callsTop ← idx (calls σ) (len (calls σ) - 1);
  e ← deref (heap σ) (c_entry callsTop);
  lin ← clear (linearized σ) (n_id e);
  h ← unlift (heap σ) (c_entry callsTop);
  e ← deref h (c_entry callsTop);
  Some (mkSearch In Out St h (n_next e) (c_state callsTop) lin (cache σ) (slice_to (calls σ) (len (calls σ) - 1)) r.1 r.2).

(** The loop of [checkSingle].  [kill k] is what its [k]-th read of the kill
    flag returns. *)
Fixpoint searchLoop (fuel : nat) (kill : nat → Z) model (computePartial : bool) (head : option nat)
    (σ : search In Out St) : option (bool * search In Out St) :=
  match fuel with
  | O => None
  | S fuel =>
      hd ← deref (heap σ) head;
      if decide (n_next hd = None) then Some (true, σ)
      else if negb (kill 0%nat =? 0) then Some (false, σ)
      else
        e ← deref (heap σ) (cur σ);
        let loop := searchLoop fuel (λ k, kill (S k)) model computePartial head in
        if decide (n_match e = None) then
          if len (calls σ) =? 0 then Some (false, σ)
          else σ ← backtrack computePartial σ; loop σ
        else σ ← tryCall model head σ e; loop σ
  end.

(** The state the loop starts in, with the head of the list. *)
Definition searchStart model (history : list (entry In Out)) : option (search In Out St * option nat) :=
  '(h, entry) ← makeLinkedEntries history;
  l ← list_length (length h) h entry;
  let n := l `div` 2 in
  let head := Some (length h) in
  h ← insertBefore (h ++ [mkNode In Out None None (-1) None None]) head entry;
  Some (mkSearch In Out St h entry (m_Init model) (newBitset n) ∅ [] [] (replicate (Z.to_nat n) None), head).

Definition checkSingle (fuel : nat) (kill : nat → Z) model (history : list (entry In Out))
    (computePartial : bool) : option (bool * (list (list Z) * list (option nat))) :=
  '(σ, head) ← searchStart model history;
  '(ok, σ) ← searchLoop fuel kill model computePartial head σ;
  if ok : bool then
    seq ← callIds (heap σ) (calls σ);
    Some (true, (seqs σ ++ [seq], replicate (length (longest σ)) (Some (length (seqs σ)))))
  else Some (false, (seqs σ, longest σ)).

(** ** checkParallel *)

(** The [select] loop: the goroutines' results come in some order, the
    time-out, when there is one, at some point.  When nothing more arrives the
    loop waits for ever. *)
Fixpoint collect (computeInfo hasTimeout ok : bool) (count : Z) (results : list bool)
    (arrivals : list arrival) : option (bool * bool) :=
  match arrivals with
  | [] => None
  | Arrived i :: arrivals =>
      result ← results !! i;
      let count := count + 1 in
      let ok := ok && result in
      if negb ok && negb computeInfo then Some (ok, false)
      else if len results <=? count then Some (ok, false)
      else collect computeInfo hasTimeout ok count results arrivals
  | TimedOut :: arrivals =>
      if hasTimeout then Some (ok, true)
      else collect computeInfo hasTimeout ok count results arrivals
  end.

(** The sequences the distinct pointers of [longest] lead to; Go ranges over
    the set of pointers in an unspecified order. *)
Definition partials (l : list (list Z) * list (option nat)) : list (list Z) :=
  omap (λ q, l.1 !! q) (remove_dups (omap (λ p, p) l.2)).

(** The goroutines: what each [checkSingle] returns.  [kills i] is what the
    [i]-th one reads in the kill flag. *)
Definition searchAll (fuel : nat) (kills : nat → nat → Z) model (history : list (list (entry In Out)))
    (computeInfo : bool) : option (list (bool * (list (list Z) * list (option nat)))) :=
  mapM (λ p : nat * list (entry In Out), checkSingle fuel (kills p.1) model p.2 computeInfo) (imap pair history).

Definition checkParallel (fuel : nat) (kills : nat → nat → Z) (arrivals : list arrival) model
    (history : list (list (entry In Out))) (computeInfo : bool) (timeout : Z) :
    option (CheckResult * linearizationInfo In Out) :=
  outcomes ← searchAll fuel kills model history computeInfo;
  '(ok, timedOut) ← collect computeInfo (0 <? timeout) true 0 outcomes.*1 arrivals;
  let info := if computeInfo then mkInfo In Out history (partials <$> outcomes.*2) else mkInfo In Out [] [] in
  let result := if negb ok then Illegal else if timedOut : bool then Unknown else Ok in
  Some (result, info).

(** ** The entry points *)

Section entry_points.
Context (sort_byTime : list (entry In Out) → list (entry In Out)).
Context (DefaultDescribeOperation : In → Out → string) (DefaultDescribeState : St → string).
Context `{EqDecision St}.
Context (fuel : nat) (kills : nat → nat → Z) (arrivals : list arrival).

Definition or_else {A} (f : option A) (g : A) : option A := match f with None => Some g | _ => f end.

Definition fillDefault model : Model In Out St :=
  mkModel In Out St
    (or_else (m_Partition model) NoPartition)
    (or_else (m_PartitionEvent model) NoPartitionEvent)
    (m_Init model) (m_Step model)
    (or_else (m_Equal model) ShallowEqual)
    (or_else (m_DescribeOperation model) DefaultDescribeOperation)
    (or_else (m_DescribeState model) DefaultDescribeState).

Definition checkEvents model (history : list (Event In Out)) (verbose : bool) (timeout : Z) :
    option (CheckResult * linearizationInfo In Out) :=
  let model := fillDefault model in
  partition ← m_PartitionEvent model;
  let l := (λ subhistory, convertEntries (renumber subhistory)) <$> partition history in
  checkParallel fuel kills arrivals model l verbose timeout.

Definition checkOperations model (history : list (Operation In Out)) (verbose : bool) (timeout : Z) :
    option (CheckResult * linearizationInfo In Out) :=
  let model := fillDefault model in
  partition ← m_Partition model;
  let l := makeEntries sort_byTime <$> partition history in
  checkParallel fuel kills arrivals model l verbose timeout.

Definition CheckOperations model (history : list (Operation In Out)) : option bool :=
  '(res, _) ← checkOperations model history false 0; Some (bool_decide (res = Ok)).
Definition CheckOperationsTimeout model (history : list (Operation In Out)) (timeout : Z) : option CheckResult :=
  '(res, _) ← checkOperations model history false timeout; Some res.
Definition CheckOperationsVerbose model (history : list (Operation In Out)) (timeout : Z) :
    option (CheckResult * linearizationInfo In Out) :=
  checkOperations model history true timeout.
Definition CheckEvents model (history : list (Event In Out)) : option bool :=
  '(res, _) ← checkEvents model history false 0; Some (bool_decide (res = Ok)).
Definition CheckEventsTimeout model (history : list (Event In Out)) (timeout : Z) : option CheckResult :=
  '(res, _) ← checkEvents model history false timeout; Some res.
Definition CheckEventsVerbose model (history : list (Event In Out)) (timeout : Z) :
    option (CheckResult * linearizationInfo In Out) :=
  checkEvents model history true timeout.
End entry_points.
End porcupine.
