(* ===== verification/PorcupineList.v ===== *)
(** * The doubly linked list of porcupine/checker.go

    [seg] says that pointers are linked in a row, [live] that the list holds
    given entries.  [lift] takes a call and its return out of the list,
    [unlift] puts them back: the heap is then the very heap before. *)
From stdpp Require Import base tactics strings numbers gmap list.
From S2P Require Import Prelude Bitset Porcupine.
Open Scope Z_scope.
Open Scope go_scope.

(** ** Filters *)
Section filters.
Context {A : Type} (P : A → Prop) `{∀ x, Decision (P x)}.

Lemma filter_keep_all (l : list A) : Forall P l → filter P l = l.
Proof. induction 1; [done|]. rewrite filter_cons_True by done. by f_equal. Qed.

Lemma Forall_filter_keep (Q : A → Prop) (l : list A) : Forall Q l → Forall Q (filter P l).
Proof. induction 1; [constructor|]. rewrite filter_cons. case_decide; by try constructor. Qed.

Lemma filter_drop_two (l1 : list A) a l2 b l3 :
  ¬ P a → ¬ P b → Forall P (l1 ++ l2 ++ l3) → filter P (l1 ++ a :: l2 ++ b :: l3) = l1 ++ l2 ++ l3.
Proof.
  intros Ha Hb Hl. rewrite filter_app, filter_cons_False, filter_app, filter_cons_False by done.
  rewrite <- !filter_app. by apply filter_keep_all.
Qed.
End filters.

(** ** Well-formed histories

    Every id has one call and, after it, one return. *)
Section histories.
Context {In Out : Type}.
Implicit Types (e f g : entry In Out) (es : list (entry In Out)).

Definition without (i : Z) es : list (entry In Out) := filter (λ g, e_id g ≠ i) es.

Definition paired es e f : Prop :=
  e_kind e = callEntry ∧ e_kind f = returnEntry ∧ e_id f = e_id e ∧
  ∃ A B C, es = A ++ e :: B ++ f :: C ∧ Forall (λ g, e_id g ≠ e_id e) (A ++ B ++ C).

Definition well_formed es : Prop := ∀ g, g ∈ es → ∃ e f, paired es e f ∧ (g = e ∨ g = f).

Lemma without_id i es : Forall (λ g, e_id g ≠ i) es → without i es = es.
Proof. intros. by apply filter_keep_all. Qed.

Lemma without_comm i j es : without i (without j es) = without j (without i es).
Proof. unfold without. rewrite !list_filter_filter. apply list_filter_iff. naive_solver. Qed.

Lemma without_paired es e f A B C :
  e_id f = e_id e → es = A ++ e :: B ++ f :: C → Forall (λ g, e_id g ≠ e_id e) (A ++ B ++ C) →
  without (e_id e) es = A ++ B ++ C.
Proof.
  intros Hf -> Hn. apply filter_drop_two; [naive_solver..|done].
Qed.

Lemma without_keeps_pair i es e f : paired es e f → e_id e ≠ i → paired (without i es) e f.
Proof.
  intros (Hk & Hk' & Hid & A & B & C & -> & Hn) Hi. split_and!; try done.
  exists (without i A), (without i B), (without i C). split.
  - unfold without. rewrite filter_app, filter_cons_True, filter_app, filter_cons_True by (congruence || done). done.
  - unfold without. rewrite <- !filter_app. by apply Forall_filter_keep.
Qed.

Lemma well_formed_without i es : well_formed es → well_formed (without i es).
Proof.
  intros Hw g [Hi Hg]%list_elem_of_filter. destruct (Hw g Hg) as (e & f & Hp & Hor).
  exists e, f. split; [|done]. apply without_keeps_pair; [done|].
  destruct Hp as (_ & _ & Hid & _). destruct Hor; congruence.
Qed.

(** The entries of one id. *)
Lemma paired_unique es e f g : paired es e f → g ∈ es → e_id g = e_id e → g = e ∨ g = f.
Proof.
  intros (_ & _ & _ & A & B & C & -> & Hn) Hg Hid.
  rewrite Forall_forall in Hn. rewrite !elem_of_app, !elem_of_cons, !elem_of_app, !elem_of_cons in Hg.
  setoid_rewrite elem_of_app in Hn. setoid_rewrite elem_of_app in Hn.
  destruct Hg as [?|[?|[?|[?|?]]]]; auto; exfalso; eapply Hn; eauto.
Qed.

Lemma well_formed_call es e : well_formed es → e ∈ es → e_kind e = callEntry → ∃ f, paired es e f.
Proof.
  intros Hw He Hk. destruct (Hw e He) as (e' & f & Hp & [-> | ->]); [by eauto|].
  destruct Hp as (_ & ? & _). congruence.
Qed.

Lemma well_formed_return es f : well_formed es → f ∈ es → e_kind f = returnEntry → ∃ e, paired es e f.
Proof.
  intros Hw Hf Hk. destruct (Hw f Hf) as (e & f' & Hp & [-> | ->]); [|by eauto].
  destruct Hp as (? & _). congruence.
Qed.

(** The place of the call, or of the return, in the history decides what
    follows it. *)
Lemma pivot es1 es2 g A B :
  es1 ++ g :: es2 = A ++ g :: B → g ∉ A → g ∉ B → es1 = A ∧ es2 = B.
Proof.
  intros He HA HB. apply app_inj_pivot in He as [[[_ H]|[_ H]]|H]; [| |done]; by apply list_elem_of_In in H.
Qed.

Lemma paired_after es1 es2 e f : paired (es1 ++ e :: es2) e f → f ∈ es2.
Proof.
  intros (Hk & Hk' & Hid & A & B & C & Hes & Hn). rewrite Forall_forall in Hn.
  destruct (pivot _ _ _ _ _ Hes) as [_ ->]; [| |set_solver].
  - intros He. apply (Hn e); [set_solver|done].
  - intros [He| [-> | He]%elem_of_cons]%elem_of_app; [|congruence|]; apply (Hn e); set_solver.
Qed.

Lemma call_before_return es1 es2 e :
  well_formed (es1 ++ e :: es2) → e_kind e = callEntry →
  ∃ f, f ∈ es2 ∧ e_kind f = returnEntry ∧ e_id f = e_id e.
Proof.
  intros Hw Hk. destruct (well_formed_call _ e Hw) as (f & Hp); [set_solver|done|].
  exists f. pose proof (paired_after _ _ _ _ Hp). by destruct Hp as (_ & ? & ? & _).
Qed.

Lemma nothing_after_return es1 es2 e f :
  well_formed (es1 ++ e :: es2) → e_kind e = returnEntry → f ∈ es2 → e_id f ≠ e_id e.
Proof.
  intros Hw Hk Hf. destruct (well_formed_return _ e Hw) as (c & Hkc & _ & Hid & A & B & C & Hes & Hn); [set_solver|done|].
  rewrite Forall_forall in Hn. rewrite Hid. rewrite (app_assoc A (c :: B) (e :: C) : A ++ c :: B ++ e :: C = _) in Hes.
  destruct (pivot _ _ _ _ _ Hes) as [_ ->]; [| |apply Hn; set_solver].
  - intros [He| [-> | He]%elem_of_cons]%elem_of_app; [|congruence|]; apply (Hn e); set_solver.
  - intros He. apply (Hn e); set_solver.
Qed.
End histories.

(** ** Segments of linked nodes *)
Section lists.
Context {In Out : Type}.
Implicit Types (h : list (node In Out)) (n : node In Out) (l : list nat).

Definition first (nn : option nat) l : option nat := match l with [] => nn | y :: _ => Some y end.

Fixpoint seg h l (nn : option nat) : Prop :=
  match l with
  | [] => True
  | x :: l =>
      n_next <$> h !! x = Some (first nn l) ∧
      (∀ y, first nn l = Some y → n_prev <$> h !! y = Some (Some x)) ∧
      seg h l nn
  end.

Lemma seg_app h l1 l2 nn : seg h (l1 ++ l2) nn ↔ seg h l1 (first nn l2) ∧ seg h l2 nn.
Proof.
  induction l1 as [|x l1 IH]; cbn; [naive_solver|]. rewrite IH.
  replace (first nn (l1 ++ l2)) with (first (first nn l2) l1) by (by destruct l1). naive_solver.
Qed.

(** What [seg] needs of the heap: the [next] of its nodes, the [prev] of all
    but the first. *)
Lemma seg_ext h h' l nn :
  (∀ x, x ∈ l → n_next <$> h' !! x = n_next <$> h !! x) →
  (∀ y, y ∈ tail l ∨ (l ≠ [] ∧ nn = Some y) → n_prev <$> h' !! y = n_prev <$> h !! y) →
  seg h l nn → seg h' l nn.
Proof.
  induction l as [|x l IH]; [done|]. intros Hn Hp (Hx & Hy & Hs). cbn in Hp. split_and!.
  - rewrite Hn; [done|apply list_elem_of_here].
  - intros y Hf. rewrite Hp; [by apply Hy|].
    destruct l; cbn in Hf; [right; by split|]. left. injection Hf as ->. apply list_elem_of_here.
  - apply IH; [| |done].
    + intros. apply Hn. by apply list_elem_of_further.
    + intros y [Hy'|[Hl ->]]; apply Hp; [left; by destruct l; [|apply list_elem_of_further]|by right].
Qed.

(** The fields that never change. *)
Definition static n : option (In + Out) * option nat * Z := (n_value n, n_match n, n_id n).
Definition same_static h h' : Prop := ∀ i, static <$> h' !! i = static <$> h !! i.

#[export] Instance same_static_equiv : Equivalence same_static.
Proof. split; [done|by intros ?? H ?|by intros ??? H1 H2 ?; rewrite H2, H1]. Qed.

Lemma same_static_lookup h h' x n :
  same_static h h' → h !! x = Some n → ∃ n', h' !! x = Some n' ∧ static n' = static n.
Proof.
  intros Hs Hx. specialize (Hs x). rewrite Hx in Hs. destruct (h' !! x) as [n'|]; cbn in *; [|done].
  exists n'. split; [done|]. congruence.
Qed.

(** Two heaps with the same fields everywhere are the same. *)
Lemma node_ext (m m' : option (node In Out)) :
  static <$> m' = static <$> m → n_next <$> m' = n_next <$> m → n_prev <$> m' = n_prev <$> m → m' = m.
Proof.
  destruct m as [[]|], m' as [[]|]; cbn; try done. unfold static. cbn. intros. congruence.
Qed.

Lemma heap_ext h h' :
  same_static h h' → (∀ x, n_next <$> h' !! x = n_next <$> h !! x) →
  (∀ x, n_prev <$> h' !! x = n_prev <$> h !! x) → h' = h.
Proof.
  intros Hs Hn Hp. apply list_eq. intros x. specialize (Hs x). specialize (Hn x). specialize (Hp x).
  by apply node_ext.
Qed.

(** What two heaps with the same nodes share. *)
Lemma same_static_is_Some h h' x : same_static h h' → is_Some (h !! x) → is_Some (h' !! x).
Proof. intros Hs [n Hn]. destruct (same_static_lookup _ _ _ _ Hs Hn) as (n' & ? & _). eauto. Qed.

Lemma same_static_length h h' : same_static h h' → length h' = length h.
Proof.
  intros Hs. apply Nat.le_antisymm; apply Nat.le_ngt; intros Hl;
    apply lookup_lt_is_Some_2 in Hl as Hi; destruct Hi as [n Hn].
  - specialize (Hs (length h)). by rewrite Hn, lookup_ge_None_2 in Hs.
  - specialize (Hs (length h')). by rewrite Hn, (lookup_ge_None_2 h') in Hs.
Qed.

Lemma set_next_spec h p v :
  is_Some (h !! p) → ∃ h', set_next h (Some p) v = Some h' ∧ same_static h h' ∧
    (∀ x, n_next <$> h' !! x = if decide (x = p) then Some v else n_next <$> h !! x) ∧
    (∀ x, n_prev <$> h' !! x = n_prev <$> h !! x).
Proof.
  intros [n Hp]. unfold set_next. cbn. rewrite Hp. cbn. eexists. split; [done|].
  pose proof (lookup_lt_Some _ _ _ Hp).
  split_and!; intros x; destruct (decide (x = p)) as [->|];
    rewrite ?list_lookup_insert_eq, ?list_lookup_insert_ne, ?Hp by done; done.
Qed.

Lemma set_prev_spec h p v :
  is_Some (h !! p) → ∃ h', set_prev h (Some p) v = Some h' ∧ same_static h h' ∧
    (∀ x, n_next <$> h' !! x = n_next <$> h !! x) ∧
    (∀ x, n_prev <$> h' !! x = if decide (x = p) then Some v else n_prev <$> h !! x).
Proof.
  intros [n Hp]. unfold set_prev. cbn. rewrite Hp. cbn. eexists. split; [done|].
  pose proof (lookup_lt_Some _ _ _ Hp).
  split_and!; intros x; destruct (decide (x = p)) as [->|];
    rewrite ?list_lookup_insert_eq, ?list_lookup_insert_ne, ?Hp by done; done.
Qed.

(** ** Taking one node out and putting it back *)

(** [z] is between [p] and [c]. *)
Definition around h (p z : nat) (c : option nat) : Prop :=
  p ≠ z ∧ c ≠ Some z ∧ is_Some (h !! p) ∧ (∀ y, c = Some y → is_Some (h !! y)) ∧
  ∃ n, h !! z = Some n ∧ n_prev n = Some p ∧ n_next n = c.

Definition unlink h (z : nat) : option (list (node In Out)) :=
  n ← h !! z;
  h ← set_next h (n_prev n) (n_next n);
  n ← h !! z;
  match n_next n with None => Some h | Some _ => set_prev h (n_next n) (n_prev n) end.

Definition relink h (z : nat) : option (list (node In Out)) :=
  n ← h !! z;
  h ← set_next h (n_prev n) (Some z);
  n ← h !! z;
  match n_next n with None => Some h | Some _ => set_prev h (n_next n) (Some z) end.

Lemma node_fields h z n v w :
  h !! z = Some n → n_next <$> h !! z = Some v → n_prev <$> h !! z = Some w → n_next n = v ∧ n_prev n = w.
Proof. intros ->. cbn. naive_solver. Qed.

(** Both assign the [next] of [p] and the [prev] of [c], from [z]. *)
Lemma relabel_spec h p z c (v w : option nat) :
  around h p z c →
  ∃ h1 h2 n, set_next h (Some p) v = Some h1 ∧ h1 !! z = Some n ∧ n_prev n = Some p ∧ n_next n = c ∧
    match c with None => Some h1 | Some _ => set_prev h1 c w end = Some h2 ∧
    same_static h h2 ∧ h2 !! z = h !! z ∧
    (∀ x, n_next <$> h2 !! x = if decide (x = p) then Some v else n_next <$> h !! x) ∧
    (∀ x, n_prev <$> h2 !! x = if decide (Some x = c) then Some w else n_prev <$> h !! x).
Proof.
  intros (Hpz & Hcz & Hp & Hc & n & Hz & Hzp & Hzn).
  destruct (set_next_spec h p v Hp) as (h1 & Hs1 & Hst1 & Hn1 & Hp1). exists h1.
  assert (Hz1 : h1 !! z = Some n).
  { unfold set_next in Hs1. destruct Hp as [np Hp]. cbn in Hs1. rewrite Hp in Hs1. injection Hs1 as <-.
    by rewrite list_lookup_insert_ne. }
  destruct c as [c|].
  - destruct (set_prev_spec h1 c w) as (h2 & Hs2 & Hst2 & Hn2 & Hp2).
    { eapply same_static_is_Some; [exact Hst1|by apply Hc]. }
    exists h2, n. split_and!; try done.
    + by etrans.
    + unfold set_prev in Hs2. cbn in Hs2. destruct (h1 !! c); [|done]. injection Hs2 as <-.
      rewrite list_lookup_insert_ne by congruence. congruence.
    + intros x. by rewrite Hn2, Hn1.
    + intros x. rewrite Hp2, Hp1. by repeat case_decide; simplify_eq.
  - exists h1, n. split_and!; try done. congruence.
Qed.

Lemma unlink_relink h p z c :
  around h p z c → n_next <$> h !! p = Some (Some z) → (∀ y, c = Some y → n_prev <$> h !! y = Some (Some z)) →
  ∃ h', unlink h z = Some h' ∧ relink h' z = Some h ∧ same_static h h' ∧ h' !! z = h !! z ∧
    (∀ x, n_next <$> h' !! x = if decide (x = p) then Some c else n_next <$> h !! x) ∧
    (∀ x, n_prev <$> h' !! x = if decide (Some x = c) then Some (Some p) else n_prev <$> h !! x).
Proof.
  intros Ha Hpn Hcp. pose proof Ha as (Hpz & Hcz & Hp & Hc & n & Hz & Hzp & Hzn).
  destruct (relabel_spec h p z c c (Some p) Ha) as (h1 & h2 & n1 & Hs1 & Hz1 & Hzp1 & Hzn1 & Hs2 & Hst & Hz2 & Hn2 & Hp2).
  exists h2. split_and!; try done.
  - unfold unlink. rewrite Hz. cbn [mbind option_bind]. rewrite Hzp, Hzn, Hs1. cbn [mbind option_bind].
    rewrite Hz1. cbn [mbind option_bind]. by rewrite Hzp1, Hzn1.
  - assert (Ha2 : around h2 p z c).
    { split_and!; try done; [by eapply same_static_is_Some|intros; eapply same_static_is_Some; eauto|].
      exists n. by rewrite Hz2. }
    destruct (relabel_spec h2 p z c (Some z) (Some z) Ha2) as (h3 & h4 & n3 & Hs3 & Hz3 & Hzp3 & Hzn3 & Hs4 & Hst4 & _ & Hn4 & Hp4).
    unfold relink. rewrite Hz2, Hz. cbn [mbind option_bind]. rewrite Hzp, Hs3. cbn [mbind option_bind].
    rewrite Hz3. cbn [mbind option_bind]. rewrite Hzn3, Hs4. f_equal. apply heap_ext; [by etrans|..].
    + intros x. rewrite Hn4, Hn2. by repeat case_decide; subst.
    + intros x. rewrite Hp4, Hp2. repeat case_decide; [|done]. symmetry. by apply Hcp.
Qed.

(** On the list. *)
Lemma unlink_spec h l1 p z l2 :
  NoDup (l1 ++ p :: z :: l2) → seg h (l1 ++ p :: z :: l2) None →
  ∃ h', unlink h z = Some h' ∧ relink h' z = Some h ∧ seg h' (l1 ++ p :: l2) None ∧
    same_static h h' ∧ ∀ u, u ∉ l1 ++ p :: l2 → h' !! u = h !! u.
Proof.
  intros Hnd Hs. apply seg_app in Hs as [Hs1 (Hpn & Hzp & (Hzn & Hzc & Hs2))]. cbn in Hpn, Hzp, Hs1.
  specialize (Hzp z eq_refl).
  apply NoDup_app in Hnd as (Hnd1 & Hdis & Hnd2). setoid_rewrite not_elem_of_cons in Hdis.
  rewrite !NoDup_cons, not_elem_of_cons in Hnd2. destruct Hnd2 as ([Hpz Hpl] & Hzl & Hnd2).
  destruct (unlink_relink h p z (first None l2)) as (h' & Hu & Hr & Hst & Hz & Hn & Hp); [|done..|].
  { split_and!; try done.
    - destruct l2; [done|]. intros [= ->]. apply Hzl, list_elem_of_here.
    - by apply fmap_is_Some with n_next; rewrite Hpn.
    - intros y Hy. apply fmap_is_Some with n_prev. rewrite (Hzc y Hy). eauto.
    - destruct (h !! z) as [n|]; [|done]. exists n. cbn in *. split_and!; congruence. }
  exists h'. split_and!; try done; [|intros u Hu'; rewrite elem_of_app, elem_of_cons in Hu'; apply node_ext; [by apply Hst|..]].
  2: { rewrite Hn, decide_False; [done|]. naive_solver. }
  2: { rewrite Hp, decide_False; [done|]. destruct l2; [done|]. intros [= ->]. apply Hu'. right. right. apply list_elem_of_here. }
  apply seg_app. split; [|cbn; split_and!].
  - cbn. revert Hs1. apply seg_ext.
    + intros x Hx. rewrite Hn, decide_False; [done|]. intros ->. by destruct (Hdis p Hx).
    + intros y Hy. rewrite Hp, decide_False; [done|]. intros Hf.
      destruct l2 as [|c l2]; [done|]. injection Hf as ->.
      destruct Hy as [Hy|[_ [= ->]]]; [|by apply Hpl, list_elem_of_here].
      destruct (Hdis c) as [_ Hc]; [by destruct l1; [apply not_elem_of_nil in Hy|apply list_elem_of_further]|].
      by apply Hc, list_elem_of_further, list_elem_of_here.
  - by rewrite Hn, decide_True.
  - intros y Hy. by rewrite Hp, decide_True by congruence.
  - revert Hs2. apply seg_ext.
    + intros x Hx. rewrite Hn, decide_False; [done|]. by intros ->.
    + intros y Hy. rewrite Hp, decide_False; [done|]. intros Hf. destruct l2 as [|c l2]; [done|]. injection Hf as ->.
      apply NoDup_cons in Hnd2 as [Hc _]. destruct Hy as [Hy|[_ [=]]]. done.
Qed.

Lemma field_grow {B} (fld : node In Out → B) h k x v :
  fld <$> h !! x = Some v → fld <$> (h ++ k) !! x = Some v.
Proof. destruct (h !! x) as [n|] eqn:E; [|done]. by rewrite (lookup_app_l_Some _ _ _ _ E). Qed.

Lemma seg_grow h k l nn : seg h l nn → seg (h ++ k) l nn.
Proof. induction l; cbn; [done|]. intros (? & ? & ?). split_and!; eauto using field_grow. Qed.

Lemma set_next_other h p v h' x : set_next h (Some p) v = Some h' → x ≠ p → h' !! x = h !! x.
Proof.
  unfold set_next. cbn. destruct (h !! p); [|done]. intros [= <-] ?. by rewrite list_lookup_insert_ne.
Qed.

(** ** lift and unlift as two nodes taken out and put back *)

Lemma lift_unlinks h h1 x y p n :
  h !! x = Some n → n_match n = Some y → n_prev n = Some p → p ≠ x → n_next n ≠ None →
  h1 !! x = h !! x → unlink h x = Some h1 → lift h (Some x) = unlink h1 y.
Proof.
  intros Hx Hm Hp Hpx Hn Hx1 Hu. unfold lift, unlink, deref in *.
  cbn [mbind option_bind] in *. rewrite Hx in Hu, Hx1 |- *. cbn [mbind option_bind] in *.
  rewrite Hp in *. destruct (set_next h (Some p) (n_next n)) as [h0|] eqn:E; [|done].
  cbn [mbind option_bind] in *. rewrite (set_next_other _ _ _ _ x E), Hx in Hu |- * by done.
  cbn [mbind option_bind] in *. destruct (n_next n) as [q|] eqn:En; [|done].
  rewrite Hp in *. rewrite Hu. cbn [mbind option_bind]. rewrite Hx1. cbn [mbind option_bind]. by rewrite Hm.
Qed.

Lemma unlift_relinks h2 h1 x y p n :
  h2 !! x = Some n → n_match n = Some y → n_prev n = Some p → p ≠ x → n_next n ≠ None →
  h1 !! x = h2 !! x → relink h2 y = Some h1 → unlift h2 (Some x) = relink h1 x.
Proof.
  intros Hx Hm Hp Hpx Hn Hx1 Hr. unfold unlift, relink, deref in *.
  cbn [mbind option_bind]. rewrite Hx in Hx1 |- *. cbn [mbind option_bind]. rewrite Hm. cbn [mbind option_bind].
  destruct (h2 !! y) as [ny|]; [|done]. cbn [mbind option_bind] in *.
  destruct (set_next h2 (n_prev ny) (Some y)) as [h0|]; [|done]. cbn [mbind option_bind] in *.
  destruct (h0 !! y) as [ny'|]; [|done]. cbn [mbind option_bind] in *. rewrite Hr. cbn [mbind option_bind].
  rewrite Hx1. cbn [mbind option_bind]. rewrite Hp.
  destruct (set_next h1 (Some p) (Some x)) as [h0'|] eqn:E; [|done]. cbn [mbind option_bind].
  rewrite (set_next_other _ _ _ _ x E), Hx1 by done. cbn [mbind option_bind].
  by destruct (n_next n).
Qed.

(** ** The list of the entries that are left *)

(** The node of an entry: a call points to the node of its return. *)
Definition node_of (zs : list (nat * entry In Out)) n (e : entry In Out) : Prop :=
  n_value n = Some (e_value e) ∧ n_id n = e_id e ∧
  match e_kind e with
  | returnEntry => n_match n = None
  | callEntry => ∃ y f, n_match n = Some y ∧ (y, f) ∈ zs ∧ e_kind f = returnEntry ∧ e_id f = e_id e
  end.

Record live h (head : nat) (zs : list (nat * entry In Out)) : Prop := {
  live_seg : seg h (head :: zs.*1) None;
  live_nodup : NoDup (head :: zs.*1);
  live_node : ∀ x e, (x, e) ∈ zs → ∃ n, h !! x = Some n ∧ node_of zs n e }.

Lemma list_snoc {A} (a : A) (xs : list A) : ∃ ys b, a :: xs = ys ++ [b].
Proof. destruct (exists_last (l := a :: xs)) as (ys & b & H); [done|]. eauto. Qed.

(** The place of a call and its return in the list. *)
Lemma paired_split (zs : list (nat * entry In Out)) x e f :
  (x, e) ∈ zs → paired zs.*2 e f →
  ∃ A y B C, zs = A ++ (x, e) :: B ++ (y, f) :: C ∧ Forall (λ p : nat * _, e_id p.2 ≠ e_id e) (A ++ B ++ C).
Proof.
  intros Hx (Hk & Hk' & Hid & A & B & C & Hz & Hn).
  apply fmap_app_inv in Hz as (A' & Z1 & -> & HZ & ->).
  symmetry in HZ. apply fmap_cons_inv in HZ as ([x' e'] & Z2 & He & HZ & ->). cbn in He. subst e'.
  symmetry in HZ. apply fmap_app_inv in HZ as (B' & Z3 & -> & HZ & ->).
  symmetry in HZ. apply fmap_cons_inv in HZ as ([y f'] & C' & Hf & -> & ->). cbn in Hf. subst f'.
  assert (Hn' : Forall (λ p : nat * entry In Out, e_id p.2 ≠ e_id e) (A' ++ B' ++ C')).
  { rewrite <- !fmap_app in Hn. rewrite Forall_fmap in Hn. exact Hn. }
  exists A', y, B', C'. rewrite Forall_forall in Hn' |- *. split; [|done].
  setoid_rewrite elem_of_app in Hn'. setoid_rewrite elem_of_app in Hn'.
  rewrite elem_of_app, elem_of_cons, elem_of_app, elem_of_cons in Hx.
  destruct Hx as [Hx|[[= ->]|[Hx|[[= -> ->]|Hx]]]]; [|done| |congruence|];
    exfalso; eapply Hn'; eauto.
Qed.

(** The match pointer of a call leads to its return. *)
Lemma match_unique (A B C : list (nat * entry In Out)) x y e f n :
  Forall (λ p : nat * _, e_id p.2 ≠ e_id e) (A ++ B ++ C) → e_kind e = callEntry →
  node_of (A ++ (x, e) :: B ++ (y, f) :: C) n e → n_match n = Some y.
Proof.
  intros Hn Hk (_ & _ & Hm). rewrite Hk in Hm. destruct Hm as (y' & f' & -> & Hin & Hkf & Hid).
  rewrite Forall_forall in Hn. setoid_rewrite elem_of_app in Hn. setoid_rewrite elem_of_app in Hn.
  rewrite elem_of_app, elem_of_cons, elem_of_app, elem_of_cons in Hin.
  destruct Hin as [Hx|[[= -> ->]|[Hx|[[= -> ->]|Hx]]]]; [|congruence| |done|];
    exfalso; eapply Hn; eauto.
Qed.

Lemma live_node_without h h' zs i :
  (∀ x e, (x, e) ∈ zs → ∃ n, h !! x = Some n ∧ node_of zs n e) → same_static h h' →
  ∀ x e, (x, e) ∈ filter (λ p : nat * entry In Out, e_id p.2 ≠ i) zs →
    ∃ n, h' !! x = Some n ∧ node_of (filter (λ p : nat * entry In Out, e_id p.2 ≠ i) zs) n e.
Proof.
  intros Hnode Hst x e [Hi Hx]%list_elem_of_filter. cbn in Hi.
  destruct (Hnode x e Hx) as (n & Hh & Hv & Hid & Hm).
  destruct (same_static_lookup _ _ _ _ Hst Hh) as (n' & Hh' & [= Hv' Hm' Hid']).
  exists n'. split; [done|]. unfold node_of. rewrite Hv', Hm', Hid'. split_and!; [done..|].
  destruct (e_kind e); [|done]. destruct Hm as (y & f & Hy & Hin & Hkf & Hidf).
  exists y, f. split_and!; try done. apply list_elem_of_filter. cbn. by rewrite Hidf.
Qed.

Lemma live_lift h head zs x e f :
  live h head zs → (x, e) ∈ zs → paired zs.*2 e f →
  ∃ h', lift h (Some x) = Some h' ∧ unlift h' (Some x) = Some h ∧ same_static h h' ∧
    live h' head (filter (λ p, e_id p.2 ≠ e_id e) zs).
Proof.
  intros [Hs Hnd Hnode] Hx Hp. destruct (paired_split zs x e f Hx Hp) as (A & y & B & C & -> & Hn).
  destruct Hp as (Hk & Hk' & Hid & _).
  destruct (Hnode _ _ Hx) as (n & Hhx & Hof). pose proof (match_unique _ _ _ _ _ _ _ _ Hn Hk Hof) as Hm.
  rewrite fmap_app, fmap_cons, fmap_app, fmap_cons in Hs, Hnd. cbn [fst] in Hs, Hnd.
  destruct (list_snoc head A.*1) as (l1 & p & Hl1).
  rewrite app_comm_cons, Hl1, <- app_assoc in Hs, Hnd. cbn [app] in Hs, Hnd.
  destruct (unlink_spec h l1 p x (B.*1 ++ y :: C.*1) Hnd Hs) as (h1 & Hu1 & Hr1 & Hs1 & Hst1 & Hx1).
  assert (Hnd1 : NoDup ((l1 ++ p :: B.*1) ++ y :: C.*1)).
  { rewrite <- app_assoc. eapply sublist_NoDup; [exact Hnd|]. apply sublist_app, sublist_skip, sublist_cons; done. }
  apply seg_app in Hs as [_ (Hpn & Hxp & Hxn & _)]. specialize (Hxp x eq_refl).
  rewrite Hhx in Hxp, Hxn. cbn in Hxp, Hxn. injection Hxp as Hxp. injection Hxn as Hxn.
  assert (Hnn : n_next n ≠ None) by (rewrite Hxn; by destruct B.*1).
  assert (Hpx : p ≠ x).
  { intros ->. apply NoDup_app in Hnd as (_ & _ & Hnd). apply NoDup_cons in Hnd as [Hnd _]. apply Hnd, list_elem_of_here. }
  destruct (list_snoc head (A.*1 ++ B.*1)) as (l2 & p2 & Hl2).
  pose proof Hl2 as Hl2'. rewrite app_comm_cons, Hl1, <- app_assoc in Hl2. cbn [app] in Hl2.
  rewrite (app_assoc l1 (p :: B.*1) (y :: C.*1) : l1 ++ p :: B.*1 ++ y :: C.*1 = _) in Hs1.
  rewrite Hl2, <- app_assoc in Hs1, Hnd1. cbn [app] in Hs1, Hnd1.
  destruct (unlink_spec h1 l2 p2 y C.*1 Hnd1 Hs1) as (h2 & Hu2 & Hr2 & Hs2 & Hst2 & Hy2).
  assert (Hxl : x ∉ l1 ++ p :: B.*1 ++ y :: C.*1).
  { intros Hin. assert (Hperm : l1 ++ p :: x :: B.*1 ++ y :: C.*1 ≡ₚ x :: l1 ++ p :: B.*1 ++ y :: C.*1) by solve_Permutation.
    rewrite Hperm in Hnd. apply NoDup_cons in Hnd as [Hnd _]. done. }
  assert (Hx2 : h2 !! x = h1 !! x).
  { apply Hy2. intros Hin. apply Hxl. rewrite app_comm_cons, app_assoc, Hl2, <- app_assoc. cbn [app].
    eapply elem_of_sublist; [exact Hin|]. by apply sublist_app, sublist_skip, sublist_cons. }
  pose proof (Hx1 x Hxl) as Hxh. exists h2. split_and!.
  - rewrite (lift_unlinks h h1 x y p n); done.
  - rewrite (unlift_relinks h2 h1 x y p n); [done|congruence|done..|congruence|done].
  - by etrans.
  - rewrite filter_drop_two; [|cbn; congruence..|done].
    split.
    + by rewrite !fmap_app, app_assoc, app_comm_cons, Hl2', <- app_assoc.
    + eapply sublist_NoDup; [exact Hnd1|].
      rewrite !fmap_app, app_assoc, app_comm_cons, Hl2', <- app_assoc. by apply sublist_app, sublist_skip, sublist_cons.
    + rewrite <- (filter_drop_two (λ p : nat * entry In Out, e_id p.2 ≠ e_id e) A (x, e) B (y, f) C); [|cbn; congruence..|done].
      apply (live_node_without h); [done|by etrans].
Qed.

(** ** Building the list *)

Lemma deref_prev h r : n_prev <$> h !! r = Some None → ∃ m, deref h (Some r) = Some m ∧ n_prev m = None.
Proof. unfold deref. cbn. destruct (h !! r) as [m|]; [|done]. cbn. intros [= ?]. eauto. Qed.

(** [insertBefore] of a new node at the front of the list. *)
Lemma insertBefore_spec h p ps :
  n_next <$> h !! p = Some None → n_prev <$> h !! p = Some None → NoDup (p :: ps) → seg h ps None →
  (∀ r, first None ps = Some r → n_prev <$> h !! r = Some None) →
  ∃ h', insertBefore h (Some p) (first None ps) = Some h' ∧ same_static h h' ∧
    seg h' (p :: ps) None ∧ n_prev <$> h' !! p = Some None.
Proof.
  intros Hpn Hpp [Hin Hnd]%NoDup_cons Hs Hr. destruct ps as [|r ps]; [by exists h; cbn; eauto|]. cbn [first insertBefore] in *.
  destruct (deref_prev h r (Hr r eq_refl)) as (m & -> & Hm). cbn [mbind option_bind]. rewrite Hm.
  assert (Hpr : p ≠ r) by (intros ->; apply Hin, list_elem_of_here).
  destruct (set_prev_spec h r (Some p)) as (h1 & -> & Hst1 & Hn1 & Hp1).
  { apply fmap_is_Some with n_prev. rewrite (Hr r eq_refl). eauto. }
  cbn [mbind option_bind].
  destruct (set_next_spec h1 p (Some r)) as (h2 & -> & Hst2 & Hn2 & Hp2).
  { eapply same_static_is_Some; [exact Hst1|]. apply fmap_is_Some with n_prev. rewrite Hpp. eauto. }
  exists h2. split_and!; [done|by etrans| |by rewrite Hp2, Hp1, decide_False].
  split; [by rewrite Hn2, decide_True|split].
  - intros y [= <-]. by rewrite Hp2, Hp1, decide_True.
  - revert Hs. apply NoDup_cons in Hnd as [Hrp _]. apply seg_ext.
    + intros x Hx. rewrite Hn2, Hn1, decide_False; [done|]. by intros ->.
    + intros y [Hy|[_ [=]]]. rewrite Hp2, Hp1, decide_False; [done|]. intros ->. done.
Qed.

(** The nodes made for the last entries of a history, and the returns found
    on the way. *)
Record linked h (zs : list (nat * entry In Out)) (mtch : gmap Z nat) : Prop := {
  linked_seg : seg h zs.*1 None;
  linked_prev : ∀ r, first None zs.*1 = Some r → n_prev <$> h !! r = Some None;
  linked_nodup : NoDup zs.*1;
  linked_length : length h = length zs;
  linked_in : ∀ x, x ∈ zs.*1 → (x < length h)%nat;
  linked_node : ∀ x e, (x, e) ∈ zs → ∃ n, h !! x = Some n ∧ node_of zs n e;
  linked_match : ∀ f, f ∈ zs.*2 → e_kind f = returnEntry → ∃ y, mtch !! e_id f = Some y ∧ (y, f) ∈ zs }.

Lemma node_of_cons z zs n e : node_of zs n e → node_of (z :: zs) n e.
Proof.
  unfold node_of. destruct (e_kind e); [|done]. intros (? & ? & y & f & ? & ? & ?).
  split_and!; [done..|]. exists y, f. split_and!; [done|by apply list_elem_of_further|naive_solver..].
Qed.

Lemma insert_front h zs mtch n :
  linked h zs mtch → n_next n = None → n_prev n = None →
  ∃ h', insertBefore (h ++ [n]) (Some (length h)) (first None zs.*1) = Some h' ∧
    seg h' (length h :: zs.*1) None ∧ n_prev <$> h' !! length h = Some None ∧
    NoDup (length h :: zs.*1) ∧ same_static (h ++ [n]) h'.
Proof.
  intros Hl Hn Hp. assert (Hat : (h ++ [n]) !! length h = Some n) by (by apply list_lookup_middle).
  assert (Hnd : NoDup (length h :: zs.*1)).
  { apply NoDup_cons. split; [|apply Hl]. intros Hin%(linked_in _ _ _ Hl). lia. }
  destruct (insertBefore_spec (h ++ [n]) (length h) zs.*1) as (h' & Hi & Hst & Hs & Hp').
  - by rewrite Hat, <- Hn.
  - by rewrite Hat, <- Hp.
  - done.
  - apply seg_grow, Hl.
  - intros r Hr. by apply field_grow, (linked_prev _ _ _ Hl).
  - by exists h'.
Qed.

Lemma static_grow h h' n x m :
  same_static (h ++ [n]) h' → h !! x = Some m → ∃ m', h' !! x = Some m' ∧ static m' = static m.
Proof. intros Hs Hx. eapply same_static_lookup; [exact Hs|]. by apply lookup_app_l_Some. Qed.

Lemma node_of_static zs n n' e : static n' = static n → node_of zs n e → node_of zs n' e.
Proof. unfold node_of. by intros [= -> -> ->]. Qed.

Lemma linkEntry_spec e h zs mtch :
  linked h zs mtch →
  (e_kind e = callEntry → ∃ f, f ∈ zs.*2 ∧ e_kind f = returnEntry ∧ e_id f = e_id e) →
  (e_kind e = returnEntry → ∀ f, f ∈ zs.*2 → e_id f ≠ e_id e) →
  ∃ h' mtch', linkEntry e (Some (h, first None zs.*1, mtch)) = Some (h', Some (length h), mtch') ∧
    linked h' ((length h, e) :: zs) mtch'.
Proof.
  intros Hl Hcall Hret.
  set (n := mkNode In Out (Some (e_value e)) (match e_kind e with returnEntry => None | callEntry => mtch !! e_id e end) (e_id e) None None).
  set (mtch' := match e_kind e with returnEntry => <[e_id e := length h]> mtch | callEntry => mtch end).
  destruct (insert_front h zs mtch n Hl eq_refl eq_refl) as (h' & Hi & Hs & Hp & Hnd & Hst).
  exists h', mtch'. split.
  { unfold linkEntry. cbn [mbind option_bind]. unfold n, mtch' in *. destruct (e_kind e); cbn in Hi |- *; by rewrite Hi. }
  pose proof (same_static_length _ _ Hst) as Hlen. rewrite length_app in Hlen. cbn in Hlen.
  assert (Hm : ∀ f, f ∈ ((length h, e) :: zs).*2 → e_kind f = returnEntry →
    ∃ y, mtch' !! e_id f = Some y ∧ (y, f) ∈ (length h, e) :: zs).
  { rewrite fmap_cons. cbn [snd]. intros f [->|Hf]%elem_of_cons Hk; unfold mtch'.
    - exists (length h). rewrite Hk, lookup_insert_eq. split; [done|apply list_elem_of_here].
    - destruct (linked_match _ _ _ Hl f Hf Hk) as (y & Hy & Hin). exists y.
      split; [|by apply list_elem_of_further]. destruct (e_kind e); [done|]. rewrite lookup_insert_ne; [done|].
      intros Heq. by apply (Hret eq_refl f Hf). }
  split; [done|by intros r [= <-]|done|by rewrite Hlen, (linked_length _ _ _ Hl), Nat.add_1_r| | |done].
  - rewrite fmap_cons. cbn [fst]. intros x [->|Hx]%elem_of_cons; [lia|]. pose proof (linked_in _ _ _ Hl x Hx). lia.
  - intros x e' [[= -> ->]|Hx]%elem_of_cons.
    + destruct (same_static_lookup _ _ (length h) n Hst) as (n' & Hn' & Hs'); [by apply list_lookup_middle|].
      exists n'. split; [done|]. apply (node_of_static _ n); [done|]. unfold node_of, n. cbn.
      destruct (e_kind e) eqn:Hk; cbn; [|done]. split_and!; [done..|].
      destruct Hcall as (f & Hf & Hkf & Hid); [done|].
      destruct (linked_match _ _ _ Hl f Hf Hkf) as (y & Hy & Hin). exists y, f. rewrite Hid in Hy.
      split_and!; try done. by apply list_elem_of_further.
    + destruct (linked_node _ _ _ Hl x e' Hx) as (m & Hm' & Hof).
      destruct (static_grow _ _ _ _ _ Hst Hm') as (m' & Hm'' & Hsm). exists m'. split; [done|].
      apply (node_of_static _ m); [done|]. by apply node_of_cons.
Qed.

(** Every suffix of a well-formed history can be linked. *)
Lemma makeLinked_suffix es1 es2 :
  well_formed (es1 ++ es2) →
  ∃ h zs mtch, foldr linkEntry (Some ([], None, ∅)) es2 = Some (h, first None zs.*1, mtch) ∧
    linked h zs mtch ∧ zs.*2 = es2.
Proof.
  revert es1. induction es2 as [|e es2 IH]; intros es1 Hw.
  { exists [], [], ∅. cbn. split_and!; [done| |done].
    split; try done; try (by intros ? [=]); try constructor; intros; by set_solver. }
  destruct (IH (es1 ++ [e])) as (h & zs & mtch & Hf & Hl & <-); [by rewrite <- app_assoc|].
  destruct (linkEntry_spec e h zs mtch Hl) as (h' & mtch' & Hlink & Hl').
  { by apply (call_before_return es1). }
  { intros Hk f. by apply (nothing_after_return es1). }
  exists h', ((length h, e) :: zs), mtch'. split_and!; [|done|done]. cbn [foldr]. by rewrite Hf, Hlink.
Qed.

Lemma makeLinkedEntries_spec es :
  well_formed es → ∃ h zs mtch, makeLinkedEntries es = Some (h, first None zs.*1) ∧ linked h zs mtch ∧ zs.*2 = es.
Proof.
  intros Hw. destruct (makeLinked_suffix [] es Hw) as (h & zs & mtch & Hf & Hl & Hz).
  exists h, zs, mtch. split; [|done]. unfold makeLinkedEntries. by rewrite Hf.
Qed.

Lemma list_length_seg fuel h l : seg h l None → (length l ≤ fuel)%nat → list_length fuel h (first None l) = Some (len l).
Proof.
  revert fuel. induction l as [|x l IH]; intros fuel Hs Hf; [by destruct fuel|].
  destruct fuel as [|fuel]; cbn in Hf; [lia|]. destruct Hs as (Hx & _ & Hs). cbn [list_length first].
  unfold deref. cbn [mbind option_bind]. destruct (h !! x) as [n|]; [|done]. injection Hx as Hx.
  cbn [mbind option_bind]. rewrite Hx, IH by (done || lia). cbn. f_equal. unfold len. cbn. lia.
Qed.
End lists.
