(* ===== verification/PorcupineSearch.v ===== *)
(** * checkSingle of porcupine/checker.go

    [path] linearizes operations of a history one after the other: an
    operation can be next when no other one has returned before it was called.
    The search finds a path through all operations exactly when there is one;
    a configuration in the cache is on the stack or has been settled, which
    means that no path leads from it to the end and that every path from it
    is at most as long as what [longest] records for its operations. *)
From stdpp Require Import base tactics strings numbers gmap list.
From S2P Require Import Prelude Bitset Porcupine PorcupineList.
Open Scope Z_scope.
Open Scope go_scope.

(** ** Linearizing a history *)
Section paths.
Context {In Out St : Type} (model : Model In Out St).
Implicit Types (e f g : entry In Out) (es : list (entry In Out)) (s t : St).

(** Operation [i] can be next in state [s] and leads to [s']. *)
Definition can_step es s (i : Z) s' : Prop :=
  ∃ A e R f x o, es = A ++ e :: R ∧ Forall (λ g, e_kind g = callEntry) A ∧
    e_kind e = callEntry ∧ e_id e = i ∧ f ∈ R ∧ e_kind f = returnEntry ∧ e_id f = i ∧
    e_value e = inl x ∧ e_value f = inr o ∧ m_Step model s x o = (true, s').

Inductive path : list (entry In Out) → St → list Z → list (entry In Out) → St → Prop :=
| path_nil es s : path es s [] es s
| path_cons es s i s1 ks es2 s2 :
    can_step es s i s1 → path (without i es) s1 ks es2 s2 → path es s (i :: ks) es2 s2.

Definition linearizable_from es s : Prop := ∃ ks s', path es s ks [] s'.

Lemma path_snoc es s ks es1 s1 i s2 :
  path es s ks es1 s1 → can_step es1 s1 i s2 → path es s (ks ++ [i]) (without i es1) s2.
Proof. induction 1; cbn; intros; econstructor; eauto using path_nil. Qed.

(** What the caller promises about [Equal]: equal states allow the same steps
    and lead to equal states. *)
Definition equal_ok : Prop :=
  ∃ same, m_Equal model = Some same ∧
    ∀ s t, same s t = true → ∀ x o s', m_Step model s x o = (true, s') →
      ∃ t', m_Step model t x o = (true, t') ∧ same s' t' = true.

Lemma path_equal same es s t ks es' s' :
  (∀ s t, same s t = true → ∀ x o s', m_Step model s x o = (true, s') →
      ∃ t', m_Step model t x o = (true, t') ∧ same s' t' = true) →
  same s t = true → path es s ks es' s' → ∃ t', path es t ks es' t'.
Proof.
  intros Heq Hst Hp. revert t Hst. induction Hp as [es s|es s i s1 ks es2 s2 Hs Hp IH]; intros t Hst.
  - exists t. constructor.
  - destruct Hs as (A & e & R & f & x & o & Hes & HA & Hk & Hi & Hf & Hkf & Hif & Hx & Ho & Hs).
    destruct (Heq s t Hst x o s1 Hs) as (t1 & Ht1 & Hst1). destruct (IH t1 Hst1) as (t' & Hp').
    exists t'. econstructor; [|exact Hp']. exists A, e, R, f, x, o. by split_and!.
Qed.

(** In a well-formed history the operation of a call is determined. *)
Definition typed e : Prop :=
  match e_kind e, e_value e with callEntry, inl _ | returnEntry, inr _ => True | _, _ => False end.

Lemma can_step_paired es s i s' e f :
  well_formed es → can_step es s i s' → paired es e f → e_id e = i →
  ∃ x o, e_value e = inl x ∧ e_value f = inr o ∧ m_Step model s x o = (true, s').
Proof.
  intros Hw (A & e' & R & f' & x & o & Hes & HA & Hk & Hi & Hf & Hkf & Hif & Hx & Ho & Hs) Hp Hid.
  exists x, o.
  assert (He' : e' = e).
  { destruct (paired_unique es e f e' Hp) as [|Heq]; [set_solver|congruence|done|].
    destruct Hp as (_ & Hkf' & _). congruence. }
  assert (Hf' : f' = f).
  { destruct (paired_unique es e f f' Hp) as [Heq|]; [set_solver|congruence| |done].
    destruct Hp as (Hke & _). congruence. }
  by subst.
Qed.

Lemma path_ids es s ks es' s' i : path es s ks es' s' → i ∈ ks → ∃ e, e ∈ es ∧ e_id e = i.
Proof.
  induction 1 as [|es s j s1 ks es2 s2 Hs Hp IH]; [by intros ?%not_elem_of_nil|].
  intros [->|Hi]%elem_of_cons.
  - destruct Hs as (A & e & R & f & x & o & -> & _ & _ & Hi & _). exists e. split; [set_solver|done].
  - destruct (IH Hi) as (e & [_ He]%list_elem_of_filter & Hid). eauto.
Qed.
End paths.

(** ** The longest partial linearizations *)
Section longest.
Context {In Out St : Type} (model : Model In Out St) (hist : list (entry In Out)).
Implicit Types (h : list (node In Out)) (cs : list (callsEntry St)) (ids : list Z)
  (sl : list (list Z) * list (option nat)).

Definition partial_ok (i : Z) (seq : list Z) : Prop :=
  i ∈ seq ∧ ∃ es' s', path model hist (m_Init model) seq es' s'.

(** Every pointer leads to a partial linearization with its operation. *)
Definition longest_ok sl : Prop :=
  ∀ i q, sl.2 !! i = Some (Some q) → ∃ seq, sl.1 !! q = Some seq ∧ partial_ok (Z.of_nat i) seq.

(** The partial linearization recorded for [i] has at least [k] operations. *)
Definition covers sl (i k : Z) : Prop :=
  0 ≤ i ∧ ∃ q seq, sl.2 !! Z.to_nat i = Some (Some q) ∧ sl.1 !! q = Some seq ∧ k ≤ len seq.

Definition grows sl sl' : Prop := ∀ i k, covers sl i k → covers sl' i k.

#[export] Instance grows_preorder : PreOrder grows.
Proof. split; [by intros ???|by intros ??? H1 H2 ?? ?; apply H2, H1]. Qed.

(** [calls] holds the operations [ids]. *)
Definition call_ids h cs ids : Prop :=
  Forall2 (λ v i, ∃ x n, c_entry v = Some x ∧ h !! x = Some n ∧ n_id n = i) cs ids.

Lemma call_ids_static h h' cs ids : same_static h h' → call_ids h cs ids → call_ids h' cs ids.
Proof.
  intros Hst Hc. eapply Forall2_impl; [exact Hc|]. cbn. intros v i (x & n & Hv & Hx & Hi).
  destruct (same_static_lookup _ _ _ _ Hst Hx) as (n' & Hx' & [= _ _ Hid]). exists x, n'. split_and!; [done..|congruence].
Qed.

Lemma callIds_spec h cs ids : call_ids h cs ids → callIds h cs = Some ids.
Proof.
  induction 1 as [|v i cs ids (x & n & Hv & Hx & <-) _ IH]; [done|].
  change (callIds h (v :: cs)) with
    (i ← (n ← deref h (c_entry v); Some (n_id n)); ids ← callIds h cs; Some (i :: ids)).
  unfold deref. rewrite Hv. cbn. rewrite Hx. cbn. by rewrite IH.
Qed.

(** One assignment of [recordLongest]. *)
Lemma record_one sl seq p i n :
  longest_ok sl → sl.1 !! p = Some seq → partial_ok i seq → 0 ≤ i < n → length sl.2 = Z.to_nat n →
  (∀ k, covers sl i k → k ≤ len seq) →
  let sl' := (sl.1, <[Z.to_nat i := Some p]> sl.2) in
  longest_ok sl' ∧ grows sl sl' ∧ covers sl' i (len seq) ∧ length sl'.2 = Z.to_nat n.
Proof.
  intros Hok Hp Hpo Hi Hlen Hle. cbn.
  assert (Hlt : (Z.to_nat i < length sl.2)%nat) by lia.
  assert (Hcov : covers (sl.1, <[Z.to_nat i := Some p]> sl.2) i (len seq)).
  { split; [lia|]. exists p, seq. cbn. by rewrite list_lookup_insert_eq. }
  split_and!; [| |done|by rewrite length_insert].
  - intros j q. cbn. destruct (decide (j = Z.to_nat i)) as [->|].
    + rewrite list_lookup_insert_eq by done. intros [= <-]. exists seq. rewrite Z2Nat.id by lia. done.
    + rewrite list_lookup_insert_ne by done. apply Hok.
  - intros j k Hc. destruct (decide (j = i)) as [->|].
    + destruct Hcov as (? & q & sq & ? & ? & ?). split; [done|]. exists q, sq. split_and!; try done.
      etrans; [by apply Hle|done].
    + destruct Hc as (Hj & q & sq & Hq & Hsq & Hk). split; [done|]. exists q, sq. split_and!; try done.
      cbn. rewrite list_lookup_insert_ne; [done|lia].
Qed.

(** A further sequence leaves what the pointers lead to. *)
Lemma grow_seqs sqs sqs' lg :
  sqs `prefix_of` sqs' → longest_ok (sqs, lg) → longest_ok (sqs', lg) ∧ grows (sqs, lg) (sqs', lg).
Proof.
  intros [k ->] Hok. split.
  - intros i q Hq. destruct (Hok i q Hq) as (seq & Hs & Hp). exists seq. split; [|done]. by apply lookup_app_l_Some.
  - intros i j (Hi & q & seq & Hq & Hs & Hj). split; [done|]. exists q, seq. split_and!; [done| |done]. by apply lookup_app_l_Some.
Qed.

(** The state of [recordLongest]: [ids] is the sequence of the operations on
    the stack, which has been made or not. *)
Definition recording (sqs : list (list Z)) (ids : list Z) (n : Z) sl : Prop :=
  longest_ok sl ∧ length sl.2 = Z.to_nat n ∧ (sl.1 = sqs ∨ sl.1 = sqs ++ [ids]).

Lemma record_turn h cs0 ids n sqs v cs sl x nd :
  call_ids h cs0 ids → recording sqs ids n sl → c_entry v = Some x → h !! x = Some nd →
  0 ≤ n_id nd < n → partial_ok (n_id nd) ids →
  ∃ sl', recordLongest h cs0 (length sqs) (v :: cs) sl = recordLongest h cs0 (length sqs) cs sl' ∧
    recording sqs ids n sl' ∧ grows sl sl' ∧ covers sl' (n_id nd) (len ids).
Proof.
  intros Hc0 (Hok & Hl & Hsq) Hv Hx Hr Hpo. destruct sl as [sq lg]. cbn in Hl, Hsq.
  assert (Hlen : len cs0 = len ids) by (unfold len; f_equal; by eapply Forall2_length).
  destruct (lookup_lt_is_Some_2 lg (Z.to_nat (n_id nd))) as [old Hold]; [lia|].
  assert (Hidx : idx lg (n_id nd) = Some old).
  { unfold idx, in_range, len. rewrite Hold.
    destruct (Z.leb_spec 0 (n_id nd)), (Z.ltb_spec (n_id nd) (Z.of_nat (length lg))); try lia. done. }
  cbn [recordLongest]. unfold deref. rewrite Hv. cbn [mbind option_bind]. rewrite Hx. cbn [mbind option_bind snd fst].
  rewrite Hidx. cbn [mbind option_bind].
  assert (Hbetter : (∀ k, covers (sq, lg) (n_id nd) k → k ≤ len ids) →
    ∃ sl', (seqs ← (if decide (length sq = length sqs) then seq ← callIds h cs0; Some (sq ++ [seq]) else Some sq);
        recordLongest h cs0 (length sqs) cs (seqs, <[Z.to_nat (n_id nd) := Some (length sqs)]> lg)) =
      recordLongest h cs0 (length sqs) cs sl' ∧
      recording sqs ids n sl' ∧ grows (sq, lg) sl' ∧ covers sl' (n_id nd) (len ids)).
  { intros Hle. rewrite (callIds_spec _ _ _ Hc0). cbn [mbind option_bind].
    assert (Hmade : (if decide (length sq = length sqs) then Some (sq ++ [ids]) else Some sq) = Some (sqs ++ [ids])).
    { destruct Hsq as [->| ->]; [by rewrite decide_True|]. rewrite decide_False; [done|]. rewrite length_app. cbn. lia. }
    rewrite Hmade. cbn [mbind option_bind]. eexists. split; [done|].
    destruct (grow_seqs sq (sqs ++ [ids]) lg) as [Hok' Hg']; [destruct Hsq as [->| ->]; [by eexists|done]|done|].
    destruct (record_one (sqs ++ [ids], lg) ids (length sqs) (n_id nd) n) as (? & ? & ? & ?);
      [done|by apply list_lookup_middle|done..| |].
    - intros k (_ & q & seq & Hq & Hs & Hk). apply Hle. split; [lia|]. exists q, seq. split_and!; [done| |done].
      cbn in Hq. destruct (Hok _ _ Hq) as (seq' & Hs' & _). cbn in Hs, Hs' |- *.
      destruct Hsq as [->| ->]; [|done]. rewrite (lookup_app_l_Some _ _ _ _ Hs') in Hs. congruence.
    - split_and!; [split_and!; [done..|by right]|by etrans|done]. }
  destruct old as [q|]; [|apply Hbetter; intros k (_ & q & seq & Hq & _); cbn in Hq; congruence].
  destruct (Hok _ _ Hold) as (seq & Hs & Hpq). cbn in Hs. rewrite Hs. cbn [mbind option_bind]. rewrite Hlen.
  destruct (Z.ltb_spec (len seq) (len ids)) as [Hlt|Hge].
  - apply Hbetter. intros k (_ & q' & seq' & Hq' & Hs' & Hk). cbn in Hq', Hs'. simplify_eq. lia.
  - exists (sq, lg). split_and!; try done. split; [lia|]. exists q, seq. done.
Qed.

Lemma recordLongest_spec h cs0 ids n sl0 :
  call_ids h cs0 ids → length sl0.2 = Z.to_nat n → (∀ i, i ∈ ids → 0 ≤ i < n ∧ partial_ok i ids) →
  longest_ok sl0 →
  ∃ sl', recordLongest h cs0 (length sl0.1) cs0 sl0 = Some sl' ∧ longest_ok sl' ∧ grows sl0 sl' ∧
    length sl'.2 = Z.to_nat n ∧ ∀ i, i ∈ ids → covers sl' i (len ids).
Proof.
  intros Hc0 Hlen Hids Hok0.
  assert (Hgen : ∀ cs ids1 sl, call_ids h cs ids1 → (∀ i, i ∈ ids1 → i ∈ ids) → recording sl0.1 ids n sl →
    ∃ sl', recordLongest h cs0 (length sl0.1) cs sl = Some sl' ∧ recording sl0.1 ids n sl' ∧ grows sl sl' ∧
      ∀ i, i ∈ ids1 → covers sl' i (len ids)).
  { intros cs ids1 sl Hc. revert sl. induction Hc as [|v i cs ids1 (x & nd & Hv & Hx & <-) _ IH]; intros sl Hin Hrec.
    { exists sl. split_and!; try done. by intros ? ?%not_elem_of_nil. }
    destruct (Hids (n_id nd)) as [Hr Hpo]; [apply Hin, list_elem_of_here|].
    destruct (record_turn h cs0 ids n sl0.1 v cs sl x nd) as (sl1 & -> & Hrec1 & Hg1 & Hcov1); [done..|].
    destruct (IH sl1) as (sl' & Hr' & Hrec' & Hg' & Hcov'); [by intros; apply Hin, list_elem_of_further|done|].
    exists sl'. split_and!; [done|done|by etrans|]. intros i [->|Hi]%elem_of_cons; auto. }
  destruct (Hgen cs0 ids sl0) as (sl' & Hr & (Hok & Hl & _) & Hg & Hcov); [done|done|by split_and!; auto|].
  exists sl'. by split_and!.
Qed.
End longest.

(** ** Configurations *)
Section search.
Context {In Out St : Type} (model : Model In Out St) (hist : list (entry In Out)) (n : Z) (head : nat) (cp : bool).
Implicit Types (e f g : entry In Out) (es : list (entry In Out)) (s t : St)
  (zs : list (nat * entry In Out)) (ids : list Z) (σ : search In Out St)
  (h : list (node In Out)) (nd : node In Out).
Context (hist_wf : well_formed hist) (hist_typed : Forall typed hist).
Context (hist_ids : ∀ e, e ∈ hist → 0 ≤ e_id e < n).
Context (same : St → St → bool) (eq_field : m_Equal model = Some same).
Context (eq_sound : ∀ s t, same s t = true → ∀ x o s', m_Step model s x o = (true, s') →
  ∃ t', m_Step model t x o = (true, t') ∧ same s' t' = true).

(** What is left of the history, and how many operations are not. *)
Definition rem (b : bitset) : list (entry In Out) := filter (λ e, mem b (e_id e) = false) hist.
Definition depth (b : bitset) : Z := (len hist - len (rem b)) `div` 2.

Lemma rem_wf b : well_formed (rem b).
Proof.
  intros g [Hm Hg]%list_elem_of_filter. destruct (hist_wf g Hg) as (e & f & Hp & Hor).
  exists e, f. split; [|done]. destruct Hp as (Hk & Hk' & Hid & A & B & C & Hes & Hn).
  assert (Hme : mem b (e_id e) = false) by (by destruct Hor as [-> | ->]; [|rewrite <- Hid]).
  split_and!; try done.
  exists (filter (λ e, mem b (e_id e) = false) A), (filter (λ e, mem b (e_id e) = false) B), (filter (λ e, mem b (e_id e) = false) C).
  split.
  - unfold rem. rewrite Hes. rewrite filter_app, filter_cons_True, filter_app, filter_cons_True by congruence. done.
  - rewrite <- !filter_app. by apply Forall_filter_keep.
Qed.

Lemma rem_in b e : e ∈ rem b → e ∈ hist ∧ mem b (e_id e) = false ∧ 0 ≤ e_id e < n.
Proof. intros [Hm He]%list_elem_of_filter. auto. Qed.

Lemma rem_set b i b' : holds b n → 0 ≤ i < n → set b i = Some b' → rem b' = without i (rem b) ∧ holds b' n.
Proof.
  intros Hb Hi Hs. destruct (set_spec b n i Hb Hi) as (b1 & Hs1 & Hb1 & _ & Hm).
  rewrite Hs in Hs1. injection Hs1 as <-. split; [|done].
  unfold rem, without. rewrite list_filter_filter.
  assert (Hext : ∀ es, (∀ e, e ∈ es → 0 ≤ e_id e < n) →
    filter (λ e, mem b' (e_id e) = false) es = filter (λ e, e_id e ≠ i ∧ mem b (e_id e) = false) es).
  { induction es as [|e es IH]; intros Hr; [done|]. rewrite !filter_cons, IH by set_solver.
    specialize (Hm (e_id e)). destruct (Hr e (list_elem_of_here _ _)) as [Hr0 _].
    rewrite (Hm Hr0). case_bool_decide; repeat case_decide; naive_solver. }
  by apply Hext.
Qed.

Lemma depth_set b i b' e :
  holds b n → e ∈ rem b → e_id e = i → set b i = Some b' → depth b' = depth b + 1.
Proof.
  intros Hb He Hi Hs. destruct (rem_in _ _ He) as (_ & _ & Hr). rewrite Hi in Hr.
  destruct (rem_set b i b' Hb Hr Hs) as [Hrem _]. unfold depth. rewrite Hrem.
  destruct (rem_wf b e He) as (c & f & (Hk & Hk' & Hid & A & B & C & Hes & Hn) & Hor).
  assert (Hc : e_id c = i) by (destruct Hor; congruence).
  pose proof (without_paired _ _ _ _ _ _ Hid Hes Hn) as Hw. rewrite Hc in Hw. rewrite Hw, Hes.
  unfold len. rewrite !length_app. cbn. rewrite !length_app. cbn.
  rewrite <- Z.div_add by lia. f_equal. lia.
Qed.

(** A configuration that need not be visited again. *)
Definition settled (sl : list (list Z) * list (option nat)) (c : cacheEntry St) : Prop :=
  ¬ linearizable_from model (rem (ce_linearized c)) (ce_state c) ∧
  (cp = true → ∀ ks es' s', path model (rem (ce_linearized c)) (ce_state c) ks es' s' →
    ∀ i, 0 ≤ i < n → mem (ce_linearized c) i = true ∨ i ∈ ks → covers sl i (depth (ce_linearized c) + len ks)).

Lemma settled_grows sl sl' c : grows sl sl' → settled sl c → settled sl' c.
Proof. intros Hg [Hd Hc]. split; [done|]. intros Hcp ks es' s' Hp i Hi Hor. eapply Hg, Hc; eauto. Qed.

Lemma settled_equal sl b s t : same s t = true → settled sl (mkCacheEntry St b t) → settled sl (mkCacheEntry St b s).
Proof.
  intros Hst [Hd Hc]. cbn in *. split; cbn.
  - intros (ks & s' & Hp). destruct (path_equal _ _ _ _ _ _ _ _ eq_sound Hst Hp) as (t' & Hp'). apply Hd. by exists ks, t'.
  - intros Hcp ks es' s' Hp i Hi Hor. destruct (path_equal _ _ _ _ _ _ _ _ eq_sound Hst Hp) as (t' & Hp'). eauto.
Qed.

(** The configurations one step away. *)
Definition children_settled sl b s : Prop :=
  ∀ i s' b', can_step model (rem b) s i s' → set b i = Some b' → settled sl (mkCacheEntry St b' s').

Lemma can_step_in es s i s' : can_step model es s i s' → ∃ e, e ∈ es ∧ e_kind e = callEntry ∧ e_id e = i.
Proof. intros (A & e & R & f & x & o & -> & _ & Hk & Hi & _). exists e. split; [set_solver|done]. Qed.

Lemma parent_settled sl b s :
  holds b n → rem b ≠ [] → children_settled sl b s →
  (cp = true → ∀ i, 0 ≤ i < n → mem b i = true → covers sl i (depth b)) →
  settled sl (mkCacheEntry St b s).
Proof.
  intros Hb Hne Hch Hcov.
  assert (Hstep : ∀ i s1, can_step model (rem b) s i s1 →
    ∃ b', settled sl (mkCacheEntry St b' s1) ∧ rem b' = without i (rem b) ∧ depth b' = depth b + 1 ∧
      ∀ j, 0 ≤ j → mem b j = true ∨ j = i → mem b' j = true).
  { intros i s1 Hs. destruct (can_step_in _ _ _ _ Hs) as (e & He & _ & Hid).
    destruct (rem_in _ _ He) as (_ & _ & Hr). rewrite Hid in Hr.
    destruct (set_spec b n i Hb Hr) as (b' & Hset & _ & _ & Hm). exists b'. split_and!.
    - by apply (Hch i).
    - by apply (rem_set b i).
    - by apply (depth_set b i b' e).
    - intros j Hj Hor. rewrite Hm by done. case_bool_decide; [done|]. naive_solver. }
  split; cbn.
  - intros (ks & s' & Hp). inversion Hp as [|? ? i s1 ks' ? ? Hs Hp']; subst; [congruence|].
    destruct (Hstep i s1 Hs) as (b' & [Hd _] & Hrem & _). apply Hd. cbn. rewrite Hrem. by exists ks', s'.
  - intros Hcp ks es' s' Hp j Hj Hor. inversion Hp as [|? ? i s1 ks' ? ? Hs Hp']; subst.
    + destruct Hor as [Hm|Hin]; [|by apply not_elem_of_nil in Hin].
      replace (depth b + len (@nil Z)) with (depth b) by (unfold len; cbn; lia). by apply Hcov.
    + destruct (Hstep i s1 Hs) as (b' & [_ Hc] & Hrem & Hdep & Hm). cbn in Hc. rewrite Hrem in Hc.
      specialize (Hc Hcp ks' es' s' Hp' j Hj). rewrite Hdep in Hc.
      replace (depth b + len (i :: ks')) with (depth b + 1 + len ks') by (unfold len; cbn; lia).
      apply Hc. destruct Hor as [|[->|]%elem_of_cons]; auto; left; apply Hm; auto; lia.
Qed.

(** ** The cache *)

Definition cached (ca : gmap Z (list (cacheEntry St))) (c : cacheEntry St) : Prop := ∃ k, c ∈ map_get [] ca k.

Lemma cached_insert ca k c c' :
  cached (<[k := map_get [] ca k ++ [c]]> ca) c' → c' = c ∨ cached ca c'.
Proof.
  intros [k' Hin]. unfold map_get in *. destruct (decide (k' = k)) as [->|].
  - rewrite lookup_insert_eq in Hin. cbn in Hin. apply elem_of_app in Hin as [Hin|Hin%list_elem_of_singleton]; [right; by exists k|by left].
  - rewrite lookup_insert_ne in Hin by done. right. by exists k'.
Qed.

Lemma cached_insert_new ca k c : cached (<[k := map_get [] ca k ++ [c]]> ca) c.
Proof. exists k. unfold map_get. rewrite lookup_insert_eq. cbn. set_solver. Qed.

Lemma bucketContains_spec bucket c :
  ∃ r, bucketContains model bucket c = Some r ∧
    (r = true → ∃ c', c' ∈ bucket ∧ ce_linearized c' = ce_linearized c ∧ same (ce_state c) (ce_state c') = true).
Proof.
  induction bucket as [|c' bucket (r & IH & Hr)]; cbn; [by eexists|].
  assert (Hrest : ∃ r, bucketContains model bucket c = Some r ∧
    (r = true → ∃ c'', c'' ∈ c' :: bucket ∧ ce_linearized c'' = ce_linearized c ∧ same (ce_state c) (ce_state c'') = true)).
  { exists r. split; [done|]. intros ->. destruct (Hr eq_refl) as (c'' & Hin & ?). exists c''. split; [by apply list_elem_of_further|done]. }
  destruct (equals (ce_linearized c) (ce_linearized c')) eqn:E; [|done]. apply equals_spec in E.
  unfold callEqual. rewrite eq_field. cbn. destruct (same (ce_state c) (ce_state c')) eqn:E'; [|done].
  exists true. split; [done|]. intros _. exists c'. split_and!; [apply list_elem_of_here|done|done].
Qed.

Lemma cacheContains_spec ca c :
  ∃ r, cacheContains model ca c = Some r ∧
    (r = true → ∃ t, cached ca (mkCacheEntry St (ce_linearized c) t) ∧ same (ce_state c) t = true).
Proof.
  destruct (bucketContains_spec (map_get [] ca (hash (ce_linearized c))) c) as (r & Hr & Hs).
  exists r. split; [done|]. intros Ht. destruct (Hs Ht) as ([b t] & Hin & <- & He). exists t. split; [by eexists|done].
Qed.

(** ** The state of the loop *)

Definition sl_of σ : list (list Z) * list (option nat) := (seqs σ, longest σ).

(** [zs] is the list the nodes form and [ids] the operations on the stack. *)
Record config σ zs ids : Prop := {
  cf_live : live (heap σ) head zs;
  cf_rem : zs.*2 = rem (linearized σ);
  cf_bits : holds (linearized σ) n;
  cf_path : path model hist (m_Init model) ids zs.*2 (state σ);
  cf_calls : call_ids (heap σ) (calls σ) ids;
  cf_range : ∀ i, i ∈ ids → 0 ≤ i < n;
  cf_depth : depth (linearized σ) = len ids;
  cf_mem : ∀ i, 0 ≤ i → mem (linearized σ) i = true → i ∈ ids;
  cf_ok : longest_ok model hist (sl_of σ);
  cf_longest : length (longest σ) = Z.to_nat n }.

Lemma seg_first_next h x ps : seg h (x :: ps) None → ∃ nd, h !! x = Some nd ∧ n_next nd = first None ps.
Proof. intros (Hx & _). destruct (h !! x) as [nd|]; [|done]. injection Hx as Hx. eauto. Qed.

Lemma live_head h zs : live h head zs → ∃ nd, deref h (Some head) = Some nd ∧ n_next nd = first None zs.*1.
Proof. intros Hl. by apply seg_first_next, Hl. Qed.

(** The node of an entry, and the one after it. *)
Lemma live_at h A x e R :
  live h head (A ++ (x, e) :: R) →
  ∃ nd, deref h (Some x) = Some nd ∧ n_next nd = first None R.*1 ∧ node_of (A ++ (x, e) :: R) nd e.
Proof.
  intros [Hs _ Hn]. destruct (Hn x e) as (nd & Hx & Hof); [set_solver|]. exists nd. split_and!; [done| |done].
  rewrite fmap_app, fmap_cons, app_comm_cons in Hs. apply seg_app in Hs as [_ Hs].
  destruct (seg_first_next _ _ _ Hs) as (nd' & Hx' & Hnext). cbn [fst] in Hx'. congruence.
Qed.

Lemma config_in σ zs ids x e : config σ zs ids → (x, e) ∈ zs → e ∈ rem (linearized σ).
Proof. intros Hc Hx. rewrite <- (cf_rem _ _ _ Hc). apply list_elem_of_fmap. by exists (x, e). Qed.

Lemma config_wf σ zs ids : config σ zs ids → well_formed zs.*2.
Proof. intros Hc. rewrite (cf_rem _ _ _ Hc). apply rem_wf. Qed.

(** A call, its return and their values. *)
Lemma config_call σ zs ids x e nd :
  config σ zs ids → (x, e) ∈ zs → e_kind e = callEntry → node_of zs nd e →
  ∃ f y m a b, paired zs.*2 e f ∧ n_match nd = Some y ∧ deref (heap σ) (Some y) = Some m ∧
    n_value nd = Some (inl a) ∧ n_value m = Some (inr b) ∧ e_value e = inl a ∧ e_value f = inr b.
Proof.
  intros Hc Hx Hk Hof. destruct (well_formed_call _ e (config_wf _ _ _ Hc)) as (f & Hp); [|done|].
  { apply list_elem_of_fmap. by exists (x, e). }
  destruct (paired_split zs x e f Hx Hp) as (A & y & B & C & Hz & Hn).
  assert (Hyf : (y, f) ∈ zs) by (rewrite Hz; set_solver).
  destruct (live_node _ _ _ (cf_live _ _ _ Hc) y f Hyf) as (m & Hm & Hvm & _).
  assert (Ht : typed e ∧ typed f).
  { rewrite Forall_forall in hist_typed. split; apply hist_typed, (rem_in (linearized σ)); eapply config_in; eauto. }
  destruct Hp as (_ & Hkf & Hp'). unfold typed in Ht. rewrite Hk, Hkf in Ht.
  destruct (e_value e) as [a|] eqn:Ea, (e_value f) as [|b] eqn:Eb; [by destruct Ht| |by destruct Ht..].
  exists f, y, m, a, b. rewrite Hz in Hof. split_and!; try done.
  - by apply (match_unique A B C x y e f).
  - rewrite <- Ea. apply Hof.
Qed.

(** ** One turn of the loop *)

Definition cache_ok σ : Prop :=
  ∀ c, cached (cache σ) c →
    settled (sl_of σ) c ∨ ∀ i, 0 ≤ i → mem (ce_linearized c) i = true → mem (linearized σ) i = true.

Definition child_settled sl σ i : Prop :=
  ∀ s' b', can_step model (rem (linearized σ)) (state σ) i s' → set (linearized σ) i = Some b' →
    settled sl (mkCacheEntry St b' s').

(** The state after [calls = append(...)] and [lift]. *)
Definition pushed σ h zs x s b : search In Out St :=
  mkSearch In Out St h (first None zs.*1) s b
    (<[hash b := map_get [] (cache σ) (hash b) ++ [mkCacheEntry St b s]]> (cache σ))
    (calls σ ++ [mkCallsEntry St (Some x) (state σ)]) (seqs σ) (longest σ).

(** The call of an operation that can be next. *)
Lemma can_step_here σ zs ids A x e R f a b s' :
  config σ zs ids → zs = A ++ (x, e) :: R → Forall (λ p : nat * entry In Out, e_kind p.2 = callEntry) A →
  paired zs.*2 e f → e_value e = inl a → e_value f = inr b → m_Step model (state σ) a b = (true, s') →
  can_step model (rem (linearized σ)) (state σ) (e_id e) s'.
Proof.
  intros Hc Hz HA Hp Ha Hb Hs. rewrite <- (cf_rem _ _ _ Hc). rewrite Hz, fmap_app, fmap_cons in Hp |- *. cbn [snd] in *.
  exists A.*2, e, R.*2, f, a, b. pose proof (paired_after _ _ _ _ Hp). destruct Hp as (? & ? & ? & _).
  split_and!; try done. by apply Forall_fmap.
Qed.

Lemma config_pushed σ zs ids x e f h b s' :
  config σ zs ids → (x, e) ∈ zs → paired zs.*2 e f → e_kind e = callEntry →
  can_step model (rem (linearized σ)) (state σ) (e_id e) s' → set (linearized σ) (e_id e) = Some b →
  lift (heap σ) (Some x) = Some h → same_static (heap σ) h →
  live h head (filter (λ p, e_id p.2 ≠ e_id e) zs) →
  config (pushed σ h (filter (λ p, e_id p.2 ≠ e_id e) zs) x s' b) (filter (λ p, e_id p.2 ≠ e_id e) zs) (ids ++ [e_id e]).
Proof.
  intros Hc Hx Hp Hk Hstep Hset Hlift Hst Hlive.
  pose proof (config_in _ _ _ _ _ Hc Hx) as He. destruct (rem_in _ _ He) as (_ & Hmem & Hr).
  destruct (rem_set _ _ _ (cf_bits _ _ _ Hc) Hr Hset) as [Hrem Hb].
  destruct (set_spec _ n _ (cf_bits _ _ _ Hc) Hr) as (b1 & Hs1 & _ & _ & Hm). rewrite Hset in Hs1. injection Hs1 as <-.
  assert (Hzs : (filter (λ p : nat * entry In Out, e_id p.2 ≠ e_id e) zs).*2 = rem b).
  { rewrite Hrem, <- (cf_rem _ _ _ Hc). unfold without. clear. induction zs as [|[y g] zs IH]; [done|].
    rewrite fmap_cons, !filter_cons. cbn [snd]. case_decide; [rewrite fmap_cons; by f_equal|done]. }
  split; cbn [heap cur state linearized cache calls seqs longest pushed]; try done.
  - rewrite Hzs, Hrem. eapply path_snoc; [|exact Hstep]. rewrite <- (cf_rem _ _ _ Hc). apply Hc.
  - apply Forall2_app; [eapply call_ids_static; [exact Hst|apply Hc]|]. constructor; [|constructor].
    destruct (live_node _ _ _ (cf_live _ _ _ Hc) x e Hx) as (nd & Hnd & _ & Hid & _).
    destruct (same_static_lookup _ _ _ _ Hst Hnd) as (nd' & Hnd' & [= _ _ Hid']). exists x, nd'. cbn. split_and!; congruence.
  - intros i [Hi|Hi%list_elem_of_singleton]%elem_of_app; [by apply (cf_range _ _ _ Hc)|by subst].
  - rewrite (depth_set _ _ _ e (cf_bits _ _ _ Hc) He eq_refl Hset), (cf_depth _ _ _ Hc). unfold len. rewrite length_app. cbn. lia.
  - intros i Hi. rewrite Hm by done. case_bool_decide; [subst; set_solver|]. cbn. intros Ht.
    apply elem_of_app. left. by apply (cf_mem _ _ _ Hc).
  - apply Hc.
  - apply Hc.
Qed.

Lemma tryCall_spec σ zs ids A x e R nd :
  config σ zs ids → cache_ok σ → zs = A ++ (x, e) :: R →
  Forall (λ p : nat * entry In Out, e_kind p.2 = callEntry) A →
  e_kind e = callEntry → cur σ = Some x → deref (heap σ) (Some x) = Some nd → n_next nd = first None R.*1 → node_of zs nd e →
  (tryCall model (Some head) σ nd = Some (σ <| cur := first None R.*1 |>) ∧ child_settled (sl_of σ) σ (e_id e)) ∨
  ∃ s' b h, tryCall model (Some head) σ nd = Some (pushed σ h (filter (λ p, e_id p.2 ≠ e_id e) zs) x s' b) ∧
    unlift h (Some x) = Some (heap σ) ∧ same_static (heap σ) h ∧
    can_step model (rem (linearized σ)) (state σ) (e_id e) s' ∧ set (linearized σ) (e_id e) = Some b ∧
    config (pushed σ h (filter (λ p, e_id p.2 ≠ e_id e) zs) x s' b) (filter (λ p, e_id p.2 ≠ e_id e) zs) (ids ++ [e_id e]) ∧
    (∀ s1, can_step model (rem (linearized σ)) (state σ) (e_id e) s1 → s1 = s').
Proof.
  intros Hc Hca Hz HA Hk Hcur Hnd Hnext Hof.
  assert (Hx : (x, e) ∈ zs) by (rewrite Hz; set_solver).
  destruct (config_call _ _ _ _ _ _ Hc Hx Hk Hof) as (f & y & m & a & b & Hp & Hmt & Hm & Hva & Hvb & Ha & Hb).
  pose proof (config_in _ _ _ _ _ Hc Hx) as He. destruct (rem_in _ _ He) as (_ & Hmem & Hr).
  assert (Hdet : ∀ s1, can_step model (rem (linearized σ)) (state σ) (e_id e) s1 → m_Step model (state σ) a b = (true, s1)).
  { intros s1 Hs1. rewrite <- (cf_rem _ _ _ Hc) in Hs1.
    destruct (can_step_paired _ _ _ _ _ _ _ (config_wf _ _ _ Hc) Hs1 Hp eq_refl) as (? & ? & ? & ? & ?). congruence. }
  unfold tryCall. rewrite Hmt, Hm. cbn [mbind option_bind]. unfold callStep. rewrite Hva, Hvb. cbn [mbind option_bind].
  destruct (m_Step model (state σ) a b) as [[] s'] eqn:Es; cbn [mbind option_bind].
  2: { left. rewrite Hnext. split; [done|]. intros s1 b1 Hs1. apply Hdet in Hs1. congruence. }
  destruct Hof as (_ & Hid & _). rewrite Hid.
  destruct (set_spec _ n _ (cf_bits _ _ _ Hc) Hr) as (b' & Hset & _ & _ & Hmb). unfold clone. rewrite Hset. cbn [mbind option_bind].
  destruct (cacheContains_spec (cache σ) (mkCacheEntry St b' s')) as (r & -> & Hhit). cbn [mbind option_bind].
  destruct r.
  { left. rewrite Hnext. split; [done|]. intros s1 b1 Hs1 Hb1. apply Hdet in Hs1. simplify_eq.
    destruct (Hhit eq_refl) as (t & Ht & Hst). cbn in Ht, Hst.
    destruct (Hca _ Ht) as [Hset'|Hsub]; [by apply (settled_equal _ _ _ t)|].
    exfalso. cbn in Hsub. specialize (Hsub (e_id e)). rewrite Hmb, bool_decide_true in Hsub by lia.
    rewrite Hsub in Hmem; [done|lia|done]. }
  right. cbn [cache calls state linearized heap cur update_field]. rewrite Hcur.
  destruct (live_lift _ _ _ _ _ _ (cf_live _ _ _ Hc) Hx Hp) as (h & Hl & Hu & Hst & Hlive).
  exists s', b', h. rewrite Hset. cbn [mbind option_bind]. rewrite Hl. cbn [mbind option_bind].
  destruct (live_head _ _ Hlive) as (hd & -> & Hhd). cbn [mbind option_bind]. rewrite Hhd.
  assert (Hstep : can_step model (rem (linearized σ)) (state σ) (e_id e) s') by (by apply (can_step_here σ zs ids A x e R f a b)).
  split_and!; try done; [by eapply config_pushed|]. intros s1 Hs1%Hdet. congruence.
Qed.

(** [backtrack] from a state whose top of the stack is [x] and whose heap is
    the one [lift] left. *)
Lemma backtrack_spec σ zs ids x e R A h zs' s' b σ1 :
  config σ zs ids → zs = A ++ (x, e) :: R → unlift h (Some x) = Some (heap σ) → same_static (heap σ) h →
  set (linearized σ) (e_id e) = Some b → e ∈ rem (linearized σ) →
  config σ1 zs' (ids ++ [e_id e]) → heap σ1 = h → linearized σ1 = b →
  calls σ1 = calls σ ++ [mkCallsEntry St (Some x) (state σ)] → state σ1 = s' →
  ∃ σ2, backtrack cp σ1 = Some σ2 ∧ config σ2 zs ids ∧ cur σ2 = first None R.*1 ∧ heap σ2 = heap σ ∧
    state σ2 = state σ ∧ linearized σ2 = linearized σ ∧ calls σ2 = calls σ ∧ cache σ2 = cache σ1 ∧
    grows (sl_of σ1) (sl_of σ2) ∧
    (cp = true → ∀ i, i ∈ ids ++ [e_id e] → covers (sl_of σ2) i (len (ids ++ [e_id e]))).
Proof.
  intros Hc Hz Hu Hst Hset He Hc1 Hh1 Hb1 Hcalls1 Hs1. destruct (rem_in _ _ He) as (_ & Hmem & Hr).
  assert (Hrec : ∃ sl, record cp σ1 = Some sl ∧ longest_ok model hist sl ∧ grows (sl_of σ1) sl ∧
    length sl.2 = Z.to_nat n ∧ (cp = true → ∀ i, i ∈ ids ++ [e_id e] → covers sl i (len (ids ++ [e_id e])))).
  { unfold record. destruct cp; [|exists (sl_of σ1); split_and!; [done|apply Hc1|done|apply Hc1|done]].
    destruct (recordLongest_spec model hist (heap σ1) (calls σ1) (ids ++ [e_id e]) n (sl_of σ1))
      as (sl & Hsl & Hok & Hg & Hlen & Hcov); [apply Hc1|apply Hc1| |apply Hc1|].
    - intros i Hi. split; [by apply (cf_range _ _ _ Hc1)|]. split; [done|].
      eexists _, _. apply (cf_path _ _ _ Hc1).
    - exists sl. by split_and!. }
  destruct Hrec as (sl & Hrec & Hok & Hg & Hlen & Hcov).
  destruct (live_at (heap σ) A x e R) as (nd & Hnd & Hnext & _ & Hid & _); [rewrite <- Hz; apply Hc|].
  pose proof (clear_set _ _ _ _ (cf_bits _ _ _ Hc) Hr Hmem Hset) as Hclear.
  assert (Hnd1 : ∃ nd1, deref h (Some x) = Some nd1 ∧ n_id nd1 = e_id e).
  { destruct (same_static_lookup _ _ _ _ Hst Hnd) as (nd1 & Hx1 & [= _ _ Hid1]). exists nd1. split; [done|congruence]. }
  destruct Hnd1 as (nd1 & Hnd1 & Hid1).
  assert (Htop : idx (calls σ1) (len (calls σ1) - 1) = Some (mkCallsEntry St (Some x) (state σ)) ∧
    slice_to (calls σ1) (len (calls σ1) - 1) = calls σ).
  { rewrite Hcalls1. unfold idx, in_range, slice_to, len. rewrite length_app. cbn.
    replace (Z.of_nat (length (calls σ) + 1) - 1) with (Z.of_nat (length (calls σ))) by lia. rewrite Nat2Z.id.
    split; [|by apply take_app_length]. rewrite list_lookup_middle by done.
    destruct (Z.leb_spec 0 (Z.of_nat (length (calls σ)))), (Z.ltb_spec (Z.of_nat (length (calls σ))) (Z.of_nat (length (calls σ) + 1))); try lia. done. }
  destruct Htop as [Htop Hpop].
  set (σ2 := mkSearch In Out St (heap σ) (first None R.*1) (state σ) (linearized σ) (cache σ1) (calls σ) sl.1 sl.2).
  assert (Hsl : sl_of σ2 = sl) by (by destruct sl).
  exists σ2. split.
  { unfold backtrack. rewrite Hrec. cbn [mbind option_bind]. rewrite Htop, Hpop. cbn [mbind option_bind c_entry c_state].
    rewrite Hh1, Hnd1. cbn [mbind option_bind]. rewrite Hid1, Hb1, Hclear. cbn [mbind option_bind].
    rewrite Hu. cbn [mbind option_bind]. rewrite Hnd. cbn [mbind option_bind]. by rewrite Hnext. }
  split_and!; rewrite ?Hsl; try done. destruct Hc. by split.
Qed.

(** ** Runs of the loop *)

Definition reaches (k : nat) (kill : nat → Z) σ σ' : Prop :=
  ∀ fuel, searchLoop (k + fuel) kill model cp (Some head) σ =
    searchLoop fuel (λ j, kill (k + j)%nat) model cp (Some head) σ'.
Definition returns (k : nat) (kill : nat → Z) σ (res : bool) σ' : Prop :=
  ∀ fuel, searchLoop (k + fuel) kill model cp (Some head) σ = Some (res, σ').

Lemma loop_ext fuel kill kill' σ :
  (∀ j, kill j = kill' j) →
  searchLoop fuel kill model cp (Some head) σ = searchLoop fuel kill' model cp (Some head) σ.
Proof.
  revert kill kill' σ. induction fuel as [|fuel IH]; intros kill kill' σ Hk; [done|].
  assert (IH' : ∀ σ, searchLoop fuel (λ j, kill (S j)) model cp (Some head) σ =
    searchLoop fuel (λ j, kill' (S j)) model cp (Some head) σ) by (by intros; apply IH; intros; apply Hk).
  cbn [searchLoop]. rewrite Hk. destruct (deref (heap σ) (Some head)) as [hd|]; [|done]. cbn [mbind option_bind].
  case_decide; [done|]. case_if; [done|]. destruct (deref (heap σ) (cur σ)) as [e|]; [|done]. cbn [mbind option_bind].
  case_decide.
  - case_if; [done|]. destruct (backtrack cp σ); [apply IH'|done].
  - destruct (tryCall model (Some head) σ e); [apply IH'|done].
Qed.

Lemma reaches_refl kill σ : reaches 0 kill σ σ.
Proof. intros fuel. by apply loop_ext. Qed.

Lemma reaches_trans k1 k2 kill σ1 σ2 σ3 :
  reaches k1 kill σ1 σ2 → reaches k2 (λ j, kill (k1 + j)%nat) σ2 σ3 → reaches (k1 + k2) kill σ1 σ3.
Proof.
  intros H1 H2 fuel. rewrite <- Nat.add_assoc, H1, H2. apply loop_ext. intros j. by rewrite Nat.add_assoc.
Qed.

Lemma reaches_returns k1 k2 kill σ1 σ2 res σ3 :
  reaches k1 kill σ1 σ2 → returns k2 (λ j, kill (k1 + j)%nat) σ2 res σ3 → returns (k1 + k2) kill σ1 res σ3.
Proof. intros H1 H2 fuel. by rewrite <- Nat.add_assoc, H1, H2. Qed.

Section turns.
Context (kill : nat → Z) (σ : search In Out St) (zs : list (nat * entry In Out)) (ids : list Z) (Hc : config σ zs ids).

Lemma turn_done : zs = [] → returns 1 kill σ true σ.
Proof.
  intros -> fuel. destruct (live_head _ _ (cf_live _ _ _ Hc)) as (hd & Hhd & Hnext).
  cbn [Nat.add searchLoop]. rewrite Hhd. cbn [mbind option_bind]. by rewrite decide_True.
Qed.

Lemma turn_killed : zs ≠ [] → kill 0%nat ≠ 0 → returns 1 kill σ false σ.
Proof.
  intros Hz Hk fuel. destruct (live_head _ _ (cf_live _ _ _ Hc)) as (hd & Hhd & Hnext).
  cbn [Nat.add searchLoop]. rewrite Hhd. cbn [mbind option_bind]. rewrite decide_False by (rewrite Hnext; by destruct zs).
  by apply Z.eqb_neq in Hk as ->.
Qed.

Context (Hz : zs ≠ []) (Hkill : kill 0%nat = 0) (nd : node In Out) (Hnd : deref (heap σ) (cur σ) = Some nd).

Lemma turn_eq fuel :
  searchLoop (1 + fuel) kill model cp (Some head) σ =
    let loop := searchLoop fuel (λ k, kill (S k)) model cp (Some head) in
    if decide (n_match nd = None) then
      if len (calls σ) =? 0 then Some (false, σ) else σ ← backtrack cp σ; loop σ
    else σ ← tryCall model (Some head) σ nd; loop σ.
Proof.
  destruct (live_head _ _ (cf_live _ _ _ Hc)) as (hd & Hhd & Hnext).
  cbn [Nat.add searchLoop]. rewrite Hhd. cbn [mbind option_bind]. rewrite decide_False by (rewrite Hnext; by destruct zs).
  rewrite Hkill. cbn. by rewrite Hnd.
Qed.

Lemma turn_call σ' : n_match nd ≠ None → tryCall model (Some head) σ nd = Some σ' → reaches 1 kill σ σ'.
Proof. intros Hm Ht fuel. rewrite turn_eq. cbn zeta. by rewrite decide_False, Ht. Qed.

Lemma turn_return σ' : n_match nd = None → calls σ ≠ [] → backtrack cp σ = Some σ' → reaches 1 kill σ σ'.
Proof.
  intros Hm Hne Ht fuel. rewrite turn_eq. cbn zeta. rewrite decide_True by done.
  destruct (Z.eqb_spec (len (calls σ)) 0) as [H0|]; [|by rewrite Ht].
  destruct (calls σ); [done|]. unfold len in H0. cbn in H0. lia.
Qed.

Lemma turn_fail : n_match nd = None → calls σ = [] → returns 1 kill σ false σ.
Proof. intros Hm Hcs fuel. rewrite turn_eq. cbn zeta. by rewrite decide_True, Hcs. Qed.
End turns.

(** ** The search *)

(** The number of turns it takes at most to settle a configuration with [m]
    operations left. *)
Fixpoint cost (m : nat) : nat :=
  match m with O => 1 | S m' => 2 * m * (cost m' + 2) end.

(** Nothing more can be done from here: the loop is at a return. *)
Record stuck σ zs ids σ' : Prop := {
  st_config : config σ' zs ids;
  st_heap : heap σ' = heap σ;
  st_state : state σ' = state σ;
  st_linearized : linearized σ' = linearized σ;
  st_calls : calls σ' = calls σ;
  st_cur : ∃ y f, cur σ' = Some y ∧ (y, f) ∈ zs ∧ e_kind f = returnEntry;
  st_grows : grows (sl_of σ) (sl_of σ');
  st_cache : ∀ c, cached (cache σ') c → cached (cache σ) c ∨ settled (sl_of σ') c;
  st_children : children_settled (sl_of σ') (linearized σ) (state σ) }.

(** The loop has returned. *)
Definition finished (kill : nat → Z) (res : bool) σ' : Prop :=
  longest_ok model hist (sl_of σ') ∧ length (longest σ') = Z.to_nat n ∧
  if res then ∃ ids s', path model hist (m_Init model) ids [] s' ∧ call_ids (heap σ') (calls σ') ids
  else ∃ j, kill j ≠ 0.

Definition outcome (k : nat) (kill : nat → Z) σ zs ids : Prop :=
  (∃ σ', reaches k kill σ σ' ∧ stuck σ zs ids σ') ∨
  (∃ res σ', returns k kill σ res σ' ∧ finished kill res σ').

Lemma finished_shift kill k res σ' : finished (λ j, kill (k + j)%nat) res σ' → finished kill res σ'.
Proof. intros (? & ? & H). split_and!; [done..|]. destruct res; [done|]. destruct H as [j ?]. by exists (k + j)%nat. Qed.

Lemma finished_killed kill σ zs ids : config σ zs ids → kill 0%nat ≠ 0 → finished kill false σ.
Proof. intros Hc Hk. split_and!; [apply Hc..|by exists 0%nat]. Qed.

Definition explores (m : nat) : Prop := ∀ R A σ zs ids kill,
  config σ zs ids → cache_ok σ → zs = A ++ R → length zs = (2 * m)%nat → zs ≠ [] → cur σ = first None R.*1 →
  Forall (λ p : nat * entry In Out, e_kind p.2 = callEntry) A →
  (∀ x e, (x, e) ∈ A → child_settled (sl_of σ) σ (e_id e)) →
  ∃ k, (k ≤ length R * (cost (m - 1) + 2))%nat ∧ outcome k kill σ zs ids.

(** What the search below a call leaves: the same place, one entry further,
    and that call settled. *)
Record resumed σ zs ids (R : list (nat * entry In Out)) i σ2 : Prop := {
  rs_config : config σ2 zs ids;
  rs_cur : cur σ2 = first None R.*1;
  rs_heap : heap σ2 = heap σ;
  rs_state : state σ2 = state σ;
  rs_linearized : linearized σ2 = linearized σ;
  rs_calls : calls σ2 = calls σ;
  rs_grows : grows (sl_of σ) (sl_of σ2);
  rs_cache : ∀ c, cached (cache σ2) c → cached (cache σ) c ∨ settled (sl_of σ2) c;
  rs_child : child_settled (sl_of σ2) σ i }.

Lemma pushed_cache_ok σ zs ids h zs' x s e b :
  config σ zs ids → cache_ok σ → e ∈ rem (linearized σ) → set (linearized σ) (e_id e) = Some b →
  cache_ok (pushed σ h zs' x s b).
Proof.
  intros Hc Hca He Hset c Hin. destruct (rem_in _ _ He) as (_ & _ & Hr).
  destruct (set_spec _ n _ (cf_bits _ _ _ Hc) Hr) as (b1 & Hs1 & _ & _ & Hm). rewrite Hset in Hs1. injection Hs1 as <-.
  apply cached_insert in Hin as [->|Hin]; [by right|].
  destruct (Hca c Hin) as [Hs|Hsub]; [by left|right]. intros i Hi Ht. cbn. rewrite Hm by done. rewrite Hsub by done. apply orb_true_r.
Qed.

Lemma filter_pair_length zs x e f :
  (x, e) ∈ zs → paired zs.*2 e f → length zs = (length (filter (λ p : nat * entry In Out, e_id p.2 ≠ e_id e) zs) + 2)%nat.
Proof.
  intros Hx Hp. destruct (paired_split zs x e f Hx Hp) as (A & y & B & C & -> & Hn).
  destruct Hp as (_ & _ & Hid & _). rewrite filter_drop_two; [|cbn; congruence..|done].
  rewrite !length_app. cbn. rewrite !length_app. cbn. lia.
Qed.

(** A configuration whose search got stuck is settled once its stack has been
    recorded. *)
Lemma stuck_settled σp zs' ids' σ1 sl :
  stuck σp zs' ids' σ1 → config σp zs' ids' → zs' ≠ [] → grows (sl_of σ1) sl →
  (cp = true → ∀ i, i ∈ ids' → covers sl i (len ids')) →
  settled sl (mkCacheEntry St (linearized σp) (state σp)).
Proof.
  intros Hst Hc Hz Hg Hcov. apply parent_settled.
  - apply Hc.
  - rewrite <- (cf_rem _ _ _ Hc). by destruct zs'.
  - intros i s' b' Hs Hb. eapply settled_grows; [exact Hg|]. by apply (st_children _ _ _ _ Hst i).
  - intros Hcp i Hi Hm. rewrite (cf_depth _ _ _ Hc). apply Hcov; [done|]. apply (cf_mem _ _ _ Hc); [lia|done].
Qed.

Lemma stuck_at_return σ zs ids σ' :
  stuck σ zs ids σ' → ∃ nd, deref (heap σ') (cur σ') = Some nd ∧ n_match nd = None.
Proof.
  intros Hs. destruct (st_cur _ _ _ _ Hs) as (y & f & -> & Hin & Hk).
  destruct (live_node _ _ _ (cf_live _ _ _ (st_config _ _ _ _ Hs)) y f Hin) as (nd & Hnd & _ & _ & Hm).
  rewrite Hk in Hm. eauto.
Qed.

Lemma explore_child m R A σ zs ids kill x e f s' b h :
  explores m → config σ zs ids → cache_ok σ → zs = A ++ (x, e) :: R → length zs = (2 * S m)%nat →
  e_kind e = callEntry → paired zs.*2 e f →
  let zs' := filter (λ p : nat * entry In Out, e_id p.2 ≠ e_id e) zs in
  let σp := pushed σ h zs' x s' b in
  reaches 1 kill σ σp → unlift h (Some x) = Some (heap σ) → same_static (heap σ) h →
  set (linearized σ) (e_id e) = Some b → config σp zs' (ids ++ [e_id e]) →
  (∀ s1, can_step model (rem (linearized σ)) (state σ) (e_id e) s1 → s1 = s') →
  ∃ k, (k ≤ cost m + 2)%nat ∧
    ((∃ σ2, reaches k kill σ σ2 ∧ resumed σ zs ids R (e_id e) σ2) ∨
     (∃ res σ', returns k kill σ res σ' ∧ finished kill res σ')).
Proof.
  intros IH Hc Hca Hz Hlen Hk Hp zs' σp Hreach Hu Hst Hset Hcp Hdet.
  assert (Hx : (x, e) ∈ zs) by (rewrite Hz; set_solver).
  pose proof (config_in _ _ _ _ _ Hc Hx) as He.
  pose proof (filter_pair_length zs x e f Hx Hp) as Hlen'. fold zs' in Hlen'.
  destruct (decide (zs' = [])) as [Hnil|Hne].
  { assert (m = 0)%nat as -> by (rewrite Hnil in Hlen'; cbn in Hlen'; lia).
    exists 2%nat. split; [cbn; lia|]. right. exists true, σp. split.
    - apply (reaches_returns 1 1 _ _ σp); [done|]. by apply (turn_done _ _ _ _ Hcp).
    - split_and!; [apply Hcp..|]. exists (ids ++ [e_id e]), (state σp). split; [|apply Hcp].
      pose proof (cf_path _ _ _ Hcp) as Hpath. by rewrite Hnil in Hpath. }
  destruct (IH zs' [] σp zs' (ids ++ [e_id e]) (λ j, kill (S j)) Hcp) as (k1 & Hk1 & Hout);
    [by apply (pushed_cache_ok σ zs ids h zs' x s' e b)|done|lia|done|done|constructor|by intros ?? ?%not_elem_of_nil|].
  assert (Hk1' : (k1 ≤ cost m)%nat).
  { destruct m as [|m]; [cbn in *; lia|]. cbn [cost] in *. replace (S m - 1)%nat with m in Hk1 by lia.
    etrans; [exact Hk1|]. apply Nat.mul_le_mono_r. lia. }
  destruct Hout as [(σ1 & Hr1 & Hs1)|(res & σ1 & Hr1 & Hf1)].
  2: { exists (1 + k1)%nat. split; [lia|]. right. exists res, σ1. split; [by eapply reaches_returns|]. by apply (finished_shift _ 1). }
  pose proof (reaches_trans _ _ _ _ _ _ Hreach Hr1) as Hr. pose proof (st_config _ _ _ _ Hs1) as Hc1.
  destruct (decide (kill (1 + k1)%nat = 0)) as [Hk0|Hk0].
  2: { exists (1 + k1 + 1)%nat. split; [lia|]. right. exists false, σ1. split.
       - eapply reaches_returns; [exact Hr|]. apply (turn_killed _ _ _ _ Hc1); [done|]. by rewrite Nat.add_0_r.
       - apply (finished_shift _ (1 + k1)). apply (finished_killed _ _ _ _ Hc1). by rewrite Nat.add_0_r. }
  destruct (backtrack_spec σ zs ids x e R A h zs' s' b σ1) as (σ2 & Hback & Hc2 & Hcur2 & Hh2 & Hst2 & Hl2 & Hcs2 & Hca2 & Hg2 & Hcov2);
    try done; [apply (st_heap _ _ _ _ Hs1)|apply (st_linearized _ _ _ _ Hs1)|apply (st_calls _ _ _ _ Hs1)|apply (st_state _ _ _ _ Hs1)|].
  destruct (stuck_at_return _ _ _ _ Hs1) as (nd & Hnd & Hm).
  exists (1 + k1 + 1)%nat. split; [lia|]. left. exists σ2. split.
  { eapply reaches_trans; [exact Hr|].
    assert (Hk0' : kill (1 + k1 + 0)%nat = 0) by (by rewrite Nat.add_0_r).
    apply (turn_return (λ j, kill (1 + k1 + j)%nat) _ _ _ Hc1 Hne Hk0' nd Hnd); [done| |done].
    rewrite (st_calls _ _ _ _ Hs1). cbn. by destruct (calls σ). }
  assert (Hg : grows (sl_of σ) (sl_of σ2)) by (etrans; [apply (st_grows _ _ _ _ Hs1)|done]).
  assert (Hsettled : settled (sl_of σ2) (mkCacheEntry St b s')) by (by apply (stuck_settled σp zs' (ids ++ [e_id e]) σ1)).
  split; try done.
  - rewrite Hca2. intros c Hin. destruct (st_cache _ _ _ _ Hs1 c Hin) as [Hin'|Hs]; [|right; by apply (settled_grows _ _ c Hg2)].
    apply cached_insert in Hin' as [->|Hin']; auto.
  - intros s1 b1 Hs1' Hb1. rewrite (Hdet _ Hs1'). congruence.
Qed.

(** Either a call is passed over or the search goes below it. *)
Lemma explore_call m R A σ zs ids kill x e :
  explores m → config σ zs ids → cache_ok σ → zs = A ++ (x, e) :: R → length zs = (2 * S m)%nat →
  cur σ = Some x → Forall (λ p : nat * entry In Out, e_kind p.2 = callEntry) A → e_kind e = callEntry →
  kill 0%nat = 0 →
  ∃ k, (k ≤ cost m + 2)%nat ∧
    ((∃ σ2, reaches k kill σ σ2 ∧ resumed σ zs ids R (e_id e) σ2) ∨
     (∃ res σ', returns k kill σ res σ' ∧ finished kill res σ')).
Proof.
  intros IH Hc Hca Hz Hlen Hcur HA Hk Hkill.
  assert (Hne : zs ≠ []) by (rewrite Hz; by destruct A).
  assert (Hx : (x, e) ∈ zs) by (rewrite Hz; set_solver).
  destruct (live_at (heap σ) A x e R) as (nd & Hnd & Hnext & Hof); [rewrite <- Hz; apply Hc|]. rewrite <- Hz in Hof.
  assert (Hm : n_match nd ≠ None).
  { destruct Hof as (_ & _ & Hm). rewrite Hk in Hm. destruct Hm as (y & f & -> & _). done. }
  assert (Hnd' : deref (heap σ) (cur σ) = Some nd) by (by rewrite Hcur).
  destruct (tryCall_spec σ zs ids A x e R nd) as [(Htry & Hch)|(s' & b & h & Htry & Hu & Hst & Hstep & Hset & Hcp & Hdet)]; try done.
  - exists 1%nat. split; [lia|]. left. eexists. split; [by apply (turn_call _ _ _ _ Hc Hne Hkill nd)|].
    split; try done; [by destruct Hc|by left].
  - destruct (well_formed_call _ e (config_wf _ _ _ Hc)) as (f & Hp); [|done|].
    { apply list_elem_of_fmap. by exists (x, e). }
    apply (explore_child m R A σ zs ids kill x e f s' b h); try done.
    by apply (turn_call _ _ _ _ Hc Hne Hkill nd).
Qed.

Lemma resumed_stuck σ zs ids R i σ2 σ' : resumed σ zs ids R i σ2 → stuck σ2 zs ids σ' → stuck σ zs ids σ'.
Proof.
  intros Hr Hs. split.
  - apply Hs.
  - rewrite (st_heap _ _ _ _ Hs). apply Hr.
  - rewrite (st_state _ _ _ _ Hs). apply Hr.
  - rewrite (st_linearized _ _ _ _ Hs). apply Hr.
  - rewrite (st_calls _ _ _ _ Hs). apply Hr.
  - apply Hs.
  - etrans; [apply Hr|apply Hs].
  - intros c Hin. destruct (st_cache _ _ _ _ Hs c Hin) as [Hin2|]; [|by right].
    destruct (rs_cache _ _ _ _ _ _ Hr c Hin2) as [|Hse]; [by left|right].
    apply (settled_grows _ _ c (st_grows _ _ _ _ Hs) Hse).
  - pose proof (st_children _ _ _ _ Hs) as Hch. by rewrite (rs_linearized _ _ _ _ _ _ Hr), (rs_state _ _ _ _ _ _ Hr) in Hch.
Qed.

(** A call with only calls before it is before every return. *)
Lemma calls_prefix (A A' R R' : list (entry In Out)) e f :
  A' ++ e :: R' = A ++ f :: R → Forall (λ g, e_kind g = callEntry) A' → e_kind e = callEntry →
  e_kind f = returnEntry → e ∈ A.
Proof.
  revert A. induction A' as [|a A' IH]; intros [|a' A] He HA Hk Hk'; cbn in He; simplify_eq.
  - congruence.
  - set_solver.
  - apply Forall_cons in HA as [Ha _]. congruence.
  - apply Forall_cons in HA as [_ HA]. apply list_elem_of_further. by apply IH.
Qed.

Lemma stuck_here R A σ zs ids x e :
  config σ zs ids → zs = A ++ (x, e) :: R → e_kind e = returnEntry → cur σ = Some x →
  (∀ y g, (y, g) ∈ A → child_settled (sl_of σ) σ (e_id g)) → stuck σ zs ids σ.
Proof.
  intros Hc Hz Hk Hcur Hch. split; try done; [exists x, e; rewrite Hz; set_solver|by left|].
  intros i s' b' Hs Hb. pose proof Hs as (A' & c & R' & f & a & o & Hes & HA' & Hkc & Hic & _).
  rewrite <- (cf_rem _ _ _ Hc), Hz, fmap_app, fmap_cons in Hes. symmetry in Hes.
  pose proof (calls_prefix _ _ _ _ _ _ Hes HA' Hkc Hk) as Hin. apply list_elem_of_fmap in Hin as ([y g] & -> & Hin).
  cbn in Hic. subst i. by apply (Hch y g Hin).
Qed.

Lemma explore m : explores m.
Proof.
  induction m as [|m IHm]; [intros R A σ zs ids kill _ _ _ Hlen Hne; by destruct zs|].
  intros R. induction R as [|[x e] R IH]; intros A σ zs ids kill Hc Hca Hz Hlen Hne Hcur HA Hch.
  { exfalso. rewrite app_nil_r in Hz. subst zs. destruct A as [|[x e] A]; [done|].
    apply Forall_cons in HA as [Hk HA]. cbn in Hk.
    destruct (call_before_return [] A.*2 e) as (f & Hf & Hkf & _); [by apply (config_wf _ _ _ Hc)|done|].
    apply list_elem_of_fmap in Hf as (p & -> & Hin). rewrite Forall_forall in HA. specialize (HA p Hin). congruence. }
  cbn [fmap list_fmap first fst] in Hcur.
  destruct (e_kind e) eqn:Hk.
  2: { exists 0%nat. split; [lia|]. left. exists σ. split; [apply reaches_refl|]. by apply (stuck_here R A σ zs ids x e). }
  destruct (decide (kill 0%nat = 0)) as [Hk0|Hk0].
  2: { exists 1%nat. split; [cbn; lia|]. right. exists false, σ. split; [by apply (turn_killed _ _ _ _ Hc)|by eapply finished_killed]. }
  replace (S m - 1)%nat with m in * by lia.
  destruct (explore_call m R A σ zs ids kill x e) as (k1 & Hle1 & [(σ2 & Hr1 & Hrs)|(res & σ' & Hr1 & Hf)]); try done.
  2: { exists k1. split; [cbn; lia|]. right. by exists res, σ'. }
  destruct (IH (A ++ [(x, e)]) σ2 zs ids (λ j, kill (k1 + j)%nat)) as (k2 & Hle2 & Hout); try done.
  - apply Hrs.
  - intros c Hin. rewrite (rs_linearized _ _ _ _ _ _ Hrs).
    destruct (rs_cache _ _ _ _ _ _ Hrs c Hin) as [Hin'|]; [|by left].
    destruct (Hca c Hin') as [Hs|]; [left|by right]. apply (settled_grows _ _ c (rs_grows _ _ _ _ _ _ Hrs) Hs).
  - by rewrite <- app_assoc.
  - apply Hrs.
  - apply Forall_app. split; [done|]. by constructor.
  - intros y g [Hin|Hin%list_elem_of_singleton]%elem_of_app; unfold child_settled;
      rewrite (rs_linearized _ _ _ _ _ _ Hrs), (rs_state _ _ _ _ _ _ Hrs); [|simplify_eq; apply Hrs].
    intros s' b' Hs Hb. apply (settled_grows _ _ _ (rs_grows _ _ _ _ _ _ Hrs)). by apply (Hch y g Hin).
  - exists (k1 + k2)%nat. split; [cbn [length]; replace (S m - 1)%nat with m in Hle2 by lia; lia|].
    destruct Hout as [(σ' & Hr2 & Hst)|(res & σ' & Hr2 & Hf)]; [left|right].
    + exists σ'. split; [by eapply reaches_trans|by eapply resumed_stuck].
    + exists res, σ'. split; [by eapply reaches_returns|by eapply finished_shift].
Qed.
End search.

(** ** From a history to an answer *)

(** What [checkSingle] expects: [n] operations with the ids below [n]. *)
Record history_ok {In Out} (hist : list (entry In Out)) (n : Z) : Prop := {
  ho_wf : well_formed hist;
  ho_typed : Forall typed hist;
  ho_ids : ∀ e, e ∈ hist → 0 ≤ e_id e < n;
  ho_all : ∀ i, 0 ≤ i < n → ∃ e, e ∈ hist ∧ e_id e = i;
  ho_len : len hist = 2 * n }.

Section checkSingle.
Context {In Out St : Type} (model : Model In Out St) (hist : list (entry In Out)) (n : Z).
Context (Hok : history_ok hist n).

Lemma path_all es s ks s' e : path model es s ks [] s' → e ∈ es → e_id e ∈ ks.
Proof.
  intros Hp. remember [] as es'. induction Hp as [|es s i s1 ks es2 s2 Hs Hp IH]; intros He; subst.
  - by apply not_elem_of_nil in He.
  - destruct (decide (e_id e = i)) as [->|]; [apply list_elem_of_here|].
    apply list_elem_of_further, IH; [done|]. by apply list_elem_of_filter.
Qed.

Lemma rem_newBitset : rem hist (newBitset n) = hist.
Proof. apply filter_keep_all, Forall_forall. intros. apply newBitset_mem. Qed.

Lemma searchStart_spec :
  ∃ σ head zs, searchStart model hist = Some (σ, Some head) ∧ config model hist n head σ zs [] ∧
    cache σ = ∅ ∧ calls σ = [] ∧ cur σ = first None zs.*1 ∧ zs.*2 = hist ∧ linearized σ = newBitset n ∧ state σ = m_Init model.
Proof.
  destruct (makeLinkedEntries_spec hist (ho_wf _ _ Hok)) as (h & zs & mtch & Hmk & Hl & Hz).
  assert (Hlen : len zs.*1 = 2 * n).
  { rewrite <- (ho_len _ _ Hok), <- Hz. unfold len. by rewrite !length_fmap. }
  pose proof (ho_len _ _ Hok) as Hlh. pose proof (len_nonneg hist) as Hge.
  assert (Hll : list_length (length h) h (first None zs.*1) = Some (len zs.*1)).
  { apply list_length_seg; [apply Hl|]. by rewrite length_fmap, (linked_length _ _ _ Hl). }
  set (hd := mkNode In Out None None (-1) None None).
  destruct (insert_front h zs mtch hd Hl eq_refl eq_refl) as (h' & Hins & Hseg & _ & Hnd & Hst).
  exists (mkSearch In Out St h' (first None zs.*1) (m_Init model) (newBitset n) ∅ [] [] (replicate (Z.to_nat n) None)),
    (length h), zs.
  split.
  { unfold searchStart. rewrite Hmk. cbn [mbind option_bind]. rewrite Hll. cbn [mbind option_bind].
    replace (len zs.*1 `div` 2) with n by (rewrite Hlen; symmetry; rewrite Z.mul_comm; by apply Z.div_mul).
    fold hd. by rewrite Hins. }
  split; [|by split_and!].
  split; cbn [heap cur state linearized cache calls seqs longest].
  - split; [done|done|]. intros x e Hx. destruct (linked_node _ _ _ Hl x e Hx) as (m & Hm & Hof).
    destruct (static_grow _ _ _ _ _ Hst Hm) as (m' & Hm' & Hs). exists m'. split; [done|]. by apply (node_of_static _ m).
  - by rewrite rem_newBitset.
  - apply newBitset_holds. lia.
  - rewrite Hz. constructor.
  - constructor.
  - by intros i ?%not_elem_of_nil.
  - unfold depth. rewrite rem_newBitset, Z.sub_diag. done.
  - intros i _. by rewrite newBitset_mem.
  - intros i q. cbn. intros [Hq _]%lookup_replicate. done.
  - by rewrite length_replicate.
Qed.

Context (Hequal : equal_ok model).

(** Enough turns for [n] operations. *)
Definition enough (n : Z) : nat := cost (Z.to_nat n) + 1.

(** No partial linearization is longer than what is recorded for its
    operations. *)
Definition best (sl : list (list Z) * list (option nat)) : Prop :=
  ∀ ks es' s', path model hist (m_Init model) ks es' s' → ∀ i, i ∈ ks → covers sl i (len ks).

Definition answer (cp : bool) (kill : nat → Z) (res : bool) (σ : search In Out St) : Prop :=
  longest_ok model hist (sl_of σ) ∧ length (longest σ) = Z.to_nat n ∧
  (res = true → ∃ ids s', path model hist (m_Init model) ids [] s' ∧ call_ids (heap σ) (calls σ) ids) ∧
  ((∀ j, kill j = 0) → res = false →
    ¬ linearizable_from model hist (m_Init model) ∧ (cp = true → best (sl_of σ))).

Lemma finished_answer cp kill res σ : finished model hist n kill res σ → answer cp kill res σ.
Proof.
  intros (Hlo & Hll & Hf). split_and!; [done..|by intros ->|]. intros Hk ->. destruct Hf as [j Hj]. by rewrite Hk in Hj.
Qed.

Lemma stuck_answer cp kill head σ zs :
  config model hist n head σ zs [] → zs ≠ [] → linearized σ = newBitset n → state σ = m_Init model →
  ∀ σ', stuck model hist n head cp σ zs [] σ' → answer cp kill false σ'.
Proof.
  intros Hc Hne Hlin Hst σ' Hs. pose proof (st_config _ _ _ _ _ _ _ _ _ Hs) as Hc'.
  split_and!; [apply Hc'..|done|]. intros _ _.
  assert (Hse : settled model hist n cp (sl_of σ') (mkCacheEntry St (linearized σ) (state σ))).
  { destruct Hequal as (same & Hf & Hsame).
    apply (stuck_settled model hist n head cp (ho_wf _ _ Hok) (ho_typed _ _ Hok) (ho_ids _ _ Hok) same Hf Hsame _ zs [] σ'); try done.
    intros _ i Hi. by apply not_elem_of_nil in Hi. }
  destruct Hse as [Hd Hcov]. cbn in Hd, Hcov. rewrite Hlin, Hst, rem_newBitset in Hd, Hcov. split; [done|].
  intros Hcp ks es' s' Hp i Hi. specialize (Hcov Hcp ks es' s' Hp i).
  rewrite <- Hlin, (cf_depth _ _ _ _ _ _ _ Hc) in Hcov. apply Hcov; [|by right].
  destruct (path_ids _ _ _ _ _ _ _ Hp Hi) as (e & He & <-). by apply (ho_ids _ _ Hok).
Qed.

Lemma searchLoop_spec cp kill fuel σ head zs :
  config model hist n head σ zs [] → cache σ = ∅ → calls σ = [] → cur σ = first None zs.*1 → zs.*2 = hist →
  linearized σ = newBitset n → state σ = m_Init model → (enough n ≤ fuel)%nat →
  ∃ res σ', searchLoop fuel kill model cp (Some head) σ = Some (res, σ') ∧ answer cp kill res σ'.
Proof.
  intros Hc Hca Hcs Hcur Hz Hlin Hst Hfuel. destruct Hequal as (same & Hf & Hsame).
  assert (Hlen : length zs = (2 * Z.to_nat n)%nat).
  { pose proof (ho_len _ _ Hok) as Hl. rewrite <- Hz in Hl. unfold len in Hl. rewrite length_fmap in Hl. lia. }
  assert (Hfin : ∀ k res σ', (k ≤ enough n)%nat → returns model head cp k kill σ res σ' → answer cp kill res σ' →
    ∃ res σ', searchLoop fuel kill model cp (Some head) σ = Some (res, σ') ∧ answer cp kill res σ').
  { intros k res σ' Hk Hret Ha. exists res, σ'. split; [|done].
    replace fuel with (k + (fuel - k))%nat by lia. apply Hret. }
  unfold enough in *. destruct (decide (zs = [])) as [->|Hne].
  { apply (Hfin 1%nat true σ); [lia|by apply (turn_done model hist n head cp _ _ _ _ Hc)|]. apply finished_answer.
    split_and!; [apply Hc..|]. exists [], (m_Init model). rewrite <- Hz. split; [constructor|apply Hc]. }
  assert (Hm : (1 ≤ Z.to_nat n)%nat) by (destruct zs; cbn in Hlen; [done|lia]).
  destruct (explore model hist n head cp (ho_wf _ _ Hok) (ho_typed _ _ Hok) (ho_ids _ _ Hok) same Hf Hsame (Z.to_nat n)
    zs [] σ zs [] kill) as (k & Hk & [(σ' & Hr & Hs)|(res & σ' & Hr & Hfd)]); try done.
  - intros c [j Hin]. rewrite Hca in Hin. unfold map_get in Hin. rewrite lookup_empty in Hin. by apply not_elem_of_nil in Hin.
  - by intros ?? ?%not_elem_of_nil.
  - assert (Hkc : (k + 1 ≤ cost (Z.to_nat n) + 1)%nat).
    { destruct (Z.to_nat n) as [|m]; [lia|]. cbn [cost]. replace (S m - 1)%nat with m in Hk by lia.
      rewrite Hlen in Hk. lia. }
    destruct (stuck_at_return _ _ _ _ _ _ _ _ _ Hs) as (nd & Hnd & Hmt).
    pose proof (st_config _ _ _ _ _ _ _ _ _ Hs) as Hc'.
    pose proof (stuck_answer cp kill head σ zs Hc Hne Hlin Hst σ' Hs) as Ha.
    apply (Hfin (k + 1)%nat false σ' Hkc); [|done]. eapply reaches_returns; [exact Hr|].
    assert (Hz0 : kill (k + 0)%nat = kill k) by (by rewrite Nat.add_0_r).
    destruct (decide (kill k = 0)) as [Hk0|Hk0].
    + apply (turn_fail model hist n head cp (λ j, kill (k + j)%nat) _ _ _ Hc' Hne ltac:(congruence) nd); [done|done|].
      by rewrite (st_calls _ _ _ _ _ _ _ _ _ Hs).
    + apply (turn_killed model hist n head cp (λ j, kill (k + j)%nat) _ _ _ Hc' Hne). congruence.
  - apply (Hfin k res σ'); [|done|by apply finished_answer].
    destruct (Z.to_nat n) as [|m]; [lia|]. cbn [cost]. replace (S m - 1)%nat with m in Hk by lia. rewrite Hlen in Hk. lia.
Qed.

Lemma path_nodup es s ks es' s' : path model es s ks es' s' → NoDup ks.
Proof.
  induction 1 as [|es s i s1 ks es2 s2 Hs Hp IH]; constructor; [|done].
  intros Hi. destruct (path_ids _ _ _ _ _ _ _ Hp Hi) as (e & [Hne _]%list_elem_of_filter & Hid). done.
Qed.

(** What [checkSingle] returns, however it is interrupted. *)
Lemma checkSingle_spec cp kill fuel :
  (enough n ≤ fuel)%nat →
  ∃ res sl, checkSingle fuel kill model hist cp = Some (res, sl) ∧ longest_ok model hist sl ∧
    (res = true → linearizable_from model hist (m_Init model) ∧ best sl) ∧
    ((∀ j, kill j = 0) → res = false → ¬ linearizable_from model hist (m_Init model) ∧ (cp = true → best sl)).
Proof.
  intros Hfuel. destruct searchStart_spec as (σ & head & zs & Hstart & Hc & Hca & Hcs & Hcur & Hz & Hlin & Hst).
  destruct (searchLoop_spec cp kill fuel σ head zs Hc Hca Hcs Hcur Hz Hlin Hst Hfuel) as (res & σ' & Hrun & Hlo & Hll & Ht & Hf).
  unfold checkSingle. rewrite Hstart. cbn [mbind option_bind]. rewrite Hrun. cbn [mbind option_bind].
  destruct res; [|by exists false, (sl_of σ')].
  destruct (Ht eq_refl) as (ids & s' & Hp & Hids). rewrite (callIds_spec _ _ _ Hids). cbn [mbind option_bind].
  set (sl := (seqs σ' ++ [ids], replicate (length (longest σ')) (Some (length (seqs σ'))))).
  assert (Hall : ∀ i, 0 ≤ i < n → i ∈ ids).
  { intros i Hi. destruct (ho_all _ _ Hok i Hi) as (e & He & <-). by eapply path_all. }
  exists true, sl. split_and!; [done| |intros _; split|done].
  - intros i q. cbn. intros [[= ->] Hi]%lookup_replicate. exists ids. split; [by apply list_lookup_middle|].
    split; [apply Hall; lia|]. by exists [], s'.
  - by exists ids, s'.
  - intros ks es1 s1 Hks i Hi.
    assert (Hin : ∀ j, j ∈ ks → 0 ≤ j < n).
    { intros j Hj. destruct (path_ids _ _ _ _ _ _ _ Hks Hj) as (e & He & <-). by apply (ho_ids _ _ Hok). }
    assert (Hle : (length ks ≤ length ids)%nat).
    { apply submseteq_length, NoDup_submseteq; [by eapply path_nodup|]. intros j Hj. by apply Hall, Hin. }
    pose proof (Hin i Hi). split; [lia|]. exists (length (seqs σ')), ids. cbn. split_and!.
    + apply lookup_replicate. split; [done|lia].
    + by apply list_lookup_middle.
    + unfold len. lia.
Qed.
End checkSingle.
