(* ===== verification/PorcupineHistory.v ===== *)
(** * Histories of operations and what it means that one is linearizable

    A history is linearizable when its operations can be put in an order that
    respects real time and that the model allows.  The sorted entries of a
    history are what [checkSingle] expects, and the paths through them are the
    linearizations. *)
From stdpp Require Import base tactics strings numbers gmap sorting list.
From S2P Require Import Prelude Bitset Porcupine PorcupineList PorcupineSearch.
Open Scope Z_scope.
Open Scope go_scope.

(** ** The specification *)
Section linearizable.
Context {In Out St : Type} (model : Model In Out St).
Implicit Types (o a b : Operation In Out) (ops : list (Operation In Out)) (s : St).

(** [b] may come after [a]. *)
Definition may_follow a b : Prop := ¬ op_Return b < op_Call a.

(** The model allows the operations in this order. *)
Fixpoint legal s ops : Prop :=
  match ops with
  | [] => True
  | o :: ops => ∃ s', m_Step model s (op_Input o) (op_Output o) = (true, s') ∧ legal s' ops
  end.

Definition linearizable ops : Prop :=
  ∃ ops', ops' ≡ₚ ops ∧ StronglySorted may_follow ops' ∧ legal (m_Init model) ops'.

(** Every operation returns after it was called. *)
Definition timely ops : Prop := Forall (λ o, op_Call o < op_Return o) ops.

(** No operation is called at the very time at which another one returns. *)
Definition no_ties ops : Prop := ∀ a b, a ∈ ops → b ∈ ops → op_Return a ≠ op_Call b.
End linearizable.

(** What [sort.Sort(byTime(entries))] promises; equal times may come in any
    order. *)
Definition sorts {In Out} (sort_byTime : list (entry In Out) → list (entry In Out)) : Prop :=
  ∀ l, sort_byTime l ≡ₚ l ∧ StronglySorted (λ e f, e_time e ≤ e_time f) (sort_byTime l).

Section entries.
Context {In Out St : Type} (model : Model In Out St) (sort_byTime : list (entry In Out) → list (entry In Out)).
Context (Hsort : sorts sort_byTime) (ops : list (Operation In Out)) (Htimely : timely ops).
Implicit Types (e f g : entry In Out) (es : list (entry In Out)) (o : Operation In Out) (i j : nat) (s : St).

Definition call_of i o : entry In Out := mkEntry In Out callEntry (inl (op_Input o)) (Z.of_nat i) (op_Call o) (op_ClientId o).
Definition return_of i o : entry In Out := mkEntry In Out returnEntry (inr (op_Output o)) (Z.of_nat i) (op_Return o) (op_ClientId o).
Definition entries_of i o : list (entry In Out) := [call_of i o; return_of i o].

Lemma operationEntries_eq k (l : list (Operation In Out)) :
  operationEntries (Z.of_nat k) l = concat (imap (λ i, entries_of (k + i)) l).
Proof.
  revert k. induction l as [|o l IH]; intros k; [done|]. cbn [operationEntries imap concat].
  unfold entries_of at 1, call_of, return_of. rewrite Nat.add_0_r. cbn [app]. do 2 f_equal.
  replace (Z.of_nat k + 1) with (Z.of_nat (S k)) by lia. rewrite IH. f_equal. apply imap_ext. intros. cbn. f_equal. lia.
Qed.

Definition hist : list (entry In Out) := makeEntries sort_byTime ops.

Lemma hist_perm : hist ≡ₚ concat (imap entries_of ops).
Proof.
  unfold hist, makeEntries. rewrite (proj1 (Hsort _)). change 0 with (Z.of_nat 0). by rewrite operationEntries_eq.
Qed.

Lemma hist_in e : e ∈ hist ↔ ∃ i o, ops !! i = Some o ∧ (e = call_of i o ∨ e = return_of i o).
Proof.
  rewrite hist_perm, list_elem_of_In, in_concat. setoid_rewrite <- list_elem_of_In. split.
  - intros (l & Hl & He). apply elem_of_lookup_imap_1 in Hl as (i & o & -> & Ho).
    exists i, o. split; [done|]. unfold entries_of in He. set_solver.
  - intros (i & o & Ho & Hor). exists (entries_of i o). split; [by apply elem_of_lookup_imap_2|].
    unfold entries_of. set_solver.
Qed.

Lemma hist_nodup : NoDup hist.
Proof.
  rewrite hist_perm. assert (Hgen : ∀ k (l : list (Operation In Out)), NoDup (concat (imap (λ i, entries_of (k + i)) l))).
  { intros k l. revert k. induction l as [|o l IH]; intros k; [constructor|]. cbn [imap concat]. rewrite Nat.add_0_r.
    assert (Hrest : ∀ e, e ∈ concat (imap (λ i, entries_of (k + S i)) l) → Z.of_nat k < e_id e).
    { intros e. rewrite list_elem_of_In, in_concat. setoid_rewrite <- list_elem_of_In. intros (l' & Hl & He).
      apply elem_of_lookup_imap_1 in Hl as (i & o' & -> & _). unfold entries_of in He.
      rewrite !elem_of_cons in He. destruct He as [->|[->|He%not_elem_of_nil]]; cbn; [lia|lia|done]. }
    assert (Hnd : NoDup (concat (imap (λ i, entries_of (k + S i)) l))).
    { erewrite imap_ext; [apply (IH (S k))|]. intros. cbn. f_equal. lia. }
    unfold entries_of at 1. cbn [app].
    apply NoDup_cons; split; [|apply NoDup_cons; split; [|done]].
    - rewrite elem_of_cons. intros [[=]|He%Hrest]. cbn in He. lia.
    - intros He%Hrest. cbn in He. lia. }
  apply (Hgen 0%nat).
Qed.

Lemma hist_sorted : StronglySorted (λ e f, e_time e ≤ e_time f) hist.
Proof. apply Hsort. Qed.

Lemma sorted_app (A B : list (entry In Out)) e f :
  StronglySorted (λ e f, e_time e ≤ e_time f) (A ++ B) → e ∈ A → f ∈ B → e_time e ≤ e_time f.
Proof.
  induction A as [|a A IH]; [by intros _ ?%not_elem_of_nil|]. cbn. intros Hs He Hf.
  apply StronglySorted_inv in Hs as [Hs Hall]. apply elem_of_cons in He as [->|He]; [|by apply IH].
  rewrite Forall_forall in Hall. apply Hall. set_solver.
Qed.

Lemma hist_paired i o : ops !! i = Some o → paired hist (call_of i o) (return_of i o).
Proof.
  intros Ho. assert (Hc : call_of i o ∈ hist) by (apply hist_in; eauto).
  assert (Hr : return_of i o ∈ hist) by (apply hist_in; eauto).
  pose proof hist_sorted as Hs. pose proof hist_nodup as Hnd.
  assert (Hids : ∀ e, e ∈ hist → e_id e = Z.of_nat i → e = call_of i o ∨ e = return_of i o).
  { intros e (j & o' & Ho' & Hor)%hist_in Hid. assert (j = i) as -> by (destruct Hor; subst e; cbn in Hid; lia). by simplify_eq. }
  split_and!; [done..|].
  apply list_elem_of_split in Hc as (A & R & Heq). rewrite Heq in *.
  assert (HR : return_of i o ∈ R).
  { apply elem_of_app in Hr as [Hr|[[=]|Hr]%elem_of_cons]; [|done]. exfalso.
    pose proof (sorted_app _ _ _ (call_of i o) Hs Hr (list_elem_of_here _ _)) as Hle. cbn in Hle.
    unfold timely in Htimely. rewrite Forall_forall in Htimely. specialize (Htimely o (list_elem_of_lookup_2 _ _ _ Ho)). lia. }
  apply list_elem_of_split in HR as (B & C & ->). exists A, B, C. split; [done|].
  apply Forall_forall. intros g Hg Hid. cbn in Hid.
  assert (Hg' : g = call_of i o ∨ g = return_of i o) by (apply Hids; [set_solver|done]).
  assert (Hperm : A ++ call_of i o :: B ++ return_of i o :: C ≡ₚ call_of i o :: return_of i o :: A ++ B ++ C) by solve_Permutation.
  rewrite Hperm, !NoDup_cons in Hnd. destruct Hnd as (Hn1 & Hn2 & _).
  destruct Hg' as [-> | ->]; [apply Hn1|by apply Hn2]. by apply list_elem_of_further.
Qed.

Lemma hist_history_ok : history_ok hist (len ops).
Proof.
  assert (Hlen : length hist = (2 * length ops)%nat).
  { rewrite hist_perm. assert (Hgen : ∀ k (l : list (Operation In Out)),
      length (concat (imap (λ i, entries_of (k + i)) l)) = (2 * length l)%nat); [|apply (Hgen 0%nat)].
    intros k l. revert k. induction l as [|o l IH]; intros k; [done|]. cbn [imap concat]. rewrite length_app.
    erewrite (imap_ext _ (λ i, entries_of (S k + i))); [rewrite (IH (S k)); cbn; lia|]. intros. cbn. f_equal. lia. }
  split.
  - intros g (i & o & Ho & Hor)%hist_in. exists (call_of i o), (return_of i o). split; [by apply hist_paired|done].
  - apply Forall_forall. intros e (i & o & _ & [-> | ->])%hist_in; done.
  - intros e (i & o & Ho & Hor)%hist_in. apply lookup_lt_Some in Ho. unfold len. destruct Hor; subst e; cbn; lia.
  - intros i Hi. destruct (lookup_lt_is_Some_2 ops (Z.to_nat i)) as [o Ho]; [unfold len in Hi; lia|].
    exists (call_of (Z.to_nat i) o). split; [apply hist_in; eauto|]. cbn. lia.
  - unfold len. rewrite Hlen. lia.
Qed.

(** ** Paths are linearizations *)

(** The entries of the operations [ks]. *)
Definition left_of (ks : list nat) : list (entry In Out) := filter (λ e, Z.to_nat (e_id e) ∈ ks) hist.

Lemma left_of_in ks e :
  e ∈ left_of ks ↔ ∃ i o, i ∈ ks ∧ ops !! i = Some o ∧ (e = call_of i o ∨ e = return_of i o).
Proof.
  unfold left_of. rewrite list_elem_of_filter, hist_in. split.
  - intros (Hk & i & o & Ho & Hor). exists i, o. split_and!; [|done|done].
    destruct Hor; subst e; cbn in Hk; by rewrite Nat2Z.id in Hk.
  - intros (i & o & Hk & Ho & Hor). split; [|by eauto]. destruct Hor; subst e; cbn; by rewrite Nat2Z.id.
Qed.

Lemma left_of_sorted ks : StronglySorted (λ e f, e_time e ≤ e_time f) (left_of ks).
Proof.
  unfold left_of. pose proof hist_sorted as Hs. induction hist as [|e l IH]; [constructor|].
  apply StronglySorted_inv in Hs as [Hs Hall]. rewrite filter_cons. case_decide; [|by apply IH].
  constructor; [by apply IH|]. by apply Forall_filter_keep.
Qed.

Lemma left_of_without i ks : i ∉ ks → without (Z.of_nat i) (left_of (i :: ks)) = left_of ks.
Proof.
  intros Hi. unfold without, left_of. rewrite list_filter_filter.
  assert (Hgen : ∀ l : list (entry In Out), (∀ e, e ∈ l → 0 ≤ e_id e) →
    filter (λ e, e_id e ≠ Z.of_nat i ∧ Z.to_nat (e_id e) ∈ i :: ks) l = filter (λ e, Z.to_nat (e_id e) ∈ ks) l).
  { induction l as [|e l IH]; intros Hl; [done|]. rewrite !filter_cons, IH by (intros; apply Hl; by apply list_elem_of_further).
    specialize (Hl e (list_elem_of_here _ _)). destruct (decide (Z.to_nat (e_id e) ∈ ks)) as [Hk|Hk].
    - rewrite decide_True; [done|]. split; [|by apply list_elem_of_further]. intros He. rewrite He, Nat2Z.id in Hk. done.
    - rewrite decide_False; [done|]. intros [Hne [Heq|?]%elem_of_cons]; [lia|done]. }
  apply Hgen. intros e He. by apply (ho_ids _ _ hist_history_ok e He).
Qed.

Lemma left_of_perm ks ks' : ks ≡ₚ ks' → left_of ks = left_of ks'.
Proof. intros Hp. apply list_filter_iff. intros e. by rewrite Hp. Qed.

Lemma left_of_all : left_of (seq 0 (length ops)) = hist.
Proof.
  apply filter_keep_all, Forall_forall. intros e (i & o & Ho & Hor)%hist_in. apply lookup_lt_Some in Ho.
  apply elem_of_seq. destruct Hor; subst e; cbn; lia.
Qed.

Definition indexed (ios : list (nat * Operation In Out)) : Prop := ∀ i o, (i, o) ∈ ios → ops !! i = Some o.

Lemma path_sound ks rest s s' :
  NoDup rest → (∀ i, i ∈ rest → (i < length ops)%nat) → path model (left_of rest) s ks [] s' →
  ∃ ios, indexed ios ∧ ios.*1 ≡ₚ rest ∧ StronglySorted may_follow ios.*2 ∧ legal model s ios.*2.
Proof.
  revert rest s. induction ks as [|k ks IH]; intros rest s Hnd Hlt Hp.
  - assert (Hes : left_of rest = []) by (by inversion Hp). destruct rest as [|i rest].
    { exists []. split_and!; [by intros ?? ?%not_elem_of_nil|done|constructor|done]. }
    exfalso. destruct (lookup_lt_is_Some_2 ops i) as [o Ho]; [apply Hlt, list_elem_of_here|].
    assert (Hin : call_of i o ∈ left_of (i :: rest)) by (apply left_of_in; exists i, o; split_and!; [apply list_elem_of_here|done|by left]).
    rewrite Hes in Hin. by apply not_elem_of_nil in Hin.
  - inversion Hp as [|? ? ? s1 ? ? ? Hs Hp']; subst.
    destruct Hs as (A & e & R & f & x & y & Hes & HA & Hk & Hid & Hf & Hkf & Hif & Hx & Hy & Hstep).
    assert (He : e ∈ left_of rest) by (rewrite Hes; set_solver).
    apply left_of_in in He as (i & o & Hi & Ho & [-> | ->]); [|done]. cbn in Hid. subst k.
    assert (Hf' : f ∈ left_of rest) by (rewrite Hes; set_solver).
    apply left_of_in in Hf' as (i' & o' & _ & Ho' & [-> | ->]); [done|]. cbn in Hif.
    assert (i' = i) as -> by lia. simplify_eq. cbn in Hx, Hy. simplify_eq.
    apply elem_of_Permutation in Hi as [rest' Hperm].
    rewrite (left_of_perm _ _ Hperm) in Hp', Hes. rewrite Hperm in Hnd. apply NoDup_cons in Hnd as [Hni Hnd].
    rewrite left_of_without in Hp' by done.
    destruct (IH rest' s1) as (ios & Hix & Hfst & Hss & Hleg); [done|intros; apply Hlt; rewrite Hperm; by apply list_elem_of_further|done|].
    exists ((i, o) :: ios). cbn [fmap list_fmap fst snd]. split_and!.
    + intros j p [[= -> ->]|Hj]%elem_of_cons; [done|by apply Hix].
    + by rewrite Hfst, Hperm.
    + constructor; [done|]. apply Forall_fmap, Forall_forall. intros [j p] Hj. cbn. unfold may_follow.
      assert (Hr : return_of j p ∈ left_of (i :: rest')).
      { apply left_of_in. exists j, p. split_and!; [|by apply Hix|by right]. apply list_elem_of_further. rewrite <- Hfst.
        apply list_elem_of_fmap. by exists (j, p). }
      pose proof (left_of_sorted (i :: rest')) as Hsorted. rewrite Hes in Hr, Hsorted.
      apply elem_of_app in Hr as [Hr|[[=]|Hr]%elem_of_cons].
      { rewrite Forall_forall in HA. by specialize (HA _ Hr). }
      rewrite cons_middle, app_assoc in Hsorted.
      pose proof (sorted_app _ _ (call_of i o) (return_of j p) Hsorted ltac:(set_solver) Hr) as Hle. cbn in Hle. lia.
    + by exists s1.
Qed.

Lemma path_complete ios s :
  no_ties ops → indexed ios → NoDup ios.*1 → StronglySorted may_follow ios.*2 → legal model s ios.*2 →
  ∃ s', path model (left_of ios.*1) s (Z.of_nat <$> ios.*1) [] s'.
Proof.
  intros Hties. revert s. induction ios as [|[i o] ios IH]; intros s Hix Hnd Hss Hleg; cbn [fmap list_fmap fst snd] in *.
  { exists s. replace (left_of []) with (@nil (entry In Out)); [constructor|]. unfold left_of. symmetry.
    induction hist as [|e l IHl]; [done|]. rewrite filter_cons_False; [done|]. apply not_elem_of_nil. }
  apply NoDup_cons in Hnd as [Hni Hnd]. apply StronglySorted_inv in Hss as [Hss Hall]. destruct Hleg as (s1 & Hstep & Hleg).
  destruct (IH s1) as (s' & Hp); [by intros j p Hj; apply Hix, list_elem_of_further|done..|].
  exists s'. apply path_cons with s1; [|by rewrite left_of_without].
  assert (Ho : ops !! i = Some o) by apply Hix, list_elem_of_here.
  assert (Hc : call_of i o ∈ left_of (i :: ios.*1)).
  { apply left_of_in. exists i, o. split_and!; [apply list_elem_of_here|done|by left]. }
  assert (Hr : return_of i o ∈ left_of (i :: ios.*1)).
  { apply left_of_in. exists i, o. split_and!; [apply list_elem_of_here|done|by right]. }
  pose proof (left_of_sorted (i :: ios.*1)) as Hsorted. pose proof Hc as Hc'.
  apply list_elem_of_split in Hc' as (A & R & Heq).
  assert (HA : Forall (λ g, e_kind g = callEntry) A).
  { apply Forall_forall. intros g Hg. assert (Hg' : g ∈ left_of (i :: ios.*1)) by (rewrite Heq; set_solver).
    apply left_of_in in Hg' as (j & p & Hj & Hop & [-> | ->]); [done|]. exfalso. rewrite Heq in Hsorted.
    pose proof (sorted_app _ _ _ (call_of i o) Hsorted Hg (list_elem_of_here _ _)) as Hle. cbn in Hle.
    assert (Hne : op_Return p ≠ op_Call o) by (apply Hties; by eapply list_elem_of_lookup_2).
    apply elem_of_cons in Hj as [->|Hj].
    - simplify_eq. unfold timely in Htimely. rewrite Forall_forall in Htimely. specialize (Htimely o (list_elem_of_lookup_2 _ _ _ Ho)). lia.
    - apply list_elem_of_fmap in Hj as ([j' q] & -> & Hj). cbn in Hop.
      assert (ops !! j' = Some q) by (by apply Hix, list_elem_of_further). simplify_eq.
      rewrite Forall_forall in Hall. specialize (Hall p). unfold may_follow in Hall.
      destruct Hall; [apply list_elem_of_fmap; by exists (j', p)|lia]. }
  exists A, (call_of i o), R, (return_of i o), (op_Input o), (op_Output o). split_and!; try done.
  rewrite Heq in Hr. apply elem_of_app in Hr as [Hr|[[=]|Hr]%elem_of_cons]; [|done].
  rewrite Forall_forall in HA. by specialize (HA _ Hr).
Qed.

(** The paths through a history and its linearizations. *)
Lemma path_linearizable : linearizable_from model hist (m_Init model) → linearizable model ops.
Proof.
  intros (ks & s' & Hp). rewrite <- left_of_all in Hp.
  destruct (path_sound ks (seq 0 (length ops)) (m_Init model) s') as (ios & Hix & Hfst & Hss & Hleg);
    [apply NoDup_seq|intros i Hi%elem_of_seq; lia|done|].
  exists ios.*2. split_and!; [|done|done].
  assert (Hperm : ios ≡ₚ imap pair ops).
  { apply NoDup_Permutation.
    - eapply NoDup_fmap_1. rewrite Hfst. apply NoDup_seq.
    - eapply (NoDup_fmap_1 fst). rewrite imap_pair_fst. apply NoDup_seq.
    - intros [i o]. split.
      + intros Hin%Hix. by apply elem_of_imap_pair.
      + intros Hin%elem_of_imap_pair. assert (Hi : i ∈ ios.*1).
        { rewrite Hfst. apply elem_of_seq. apply lookup_lt_Some in Hin. lia. }
        apply list_elem_of_fmap in Hi as ([j p] & -> & Hj). pose proof (Hix _ _ Hj). cbn in *. by simplify_eq. }
  rewrite Hperm. by rewrite imap_pair_snd.
Qed.

Lemma linearizable_path : no_ties ops → linearizable model ops → linearizable_from model hist (m_Init model).
Proof.
  intros Hties (ops' & Hp & Hss & Hleg).
  assert (Hsnd : (imap pair ops).*2 = ops) by apply imap_pair_snd.
  rewrite <- Hsnd in Hp. apply Permutation_map_inv in Hp as (ios & -> & Hperm).
  assert (Hfst : ios.*1 ≡ₚ seq 0 (length ops)) by (by rewrite <- Hperm, imap_pair_fst).
  destruct (path_complete ios (m_Init model) Hties) as (s' & Hpath); [| |done|done|].
  - intros i o Hin. rewrite <- Hperm in Hin. by apply elem_of_imap_pair.
  - rewrite Hfst. apply NoDup_seq.
  - rewrite (left_of_perm _ _ Hfst), left_of_all in Hpath. by exists (Z.of_nat <$> ios.*1), s'.
Qed.
End entries.
