(* ===== verification/PorcupineCheck.v ===== *)
(** * checkParallel and the entry points of porcupine/

    Whatever order the goroutines finish in: [Ok] means that every partition
    of the history is linearizable, [Illegal] that one is not, and without a
    time-out one of the two is returned. *)
From stdpp Require Import base tactics strings numbers gmap sorting list.
From S2P Require Import Prelude Bitset Porcupine PorcupineList PorcupineSearch PorcupineHistory.
Open Scope Z_scope.
Open Scope go_scope.

(** ** The select loop *)

Definition arrived (arrivals : list arrival) : list nat :=
  omap (λ a, match a with Arrived i => Some i | TimedOut => None end) arrivals.

(** Each of [n] goroutines sends one result. *)
Definition sent_once (n : nat) (arrivals : list arrival) : Prop :=
  NoDup (arrived arrivals) ∧ ∀ i, i ∈ arrived arrivals → (i < n)%nat.
Definition all_sent (n : nat) (arrivals : list arrival) : Prop := arrived arrivals ≡ₚ seq 0 n.

(** The kill flag is set when the loop ends: a goroutine whose result the loop
    still receives has not seen it set. *)
Definition flag_late (computeInfo hasTimeout : bool) (results : list bool) (arrivals : list arrival)
    (kills : nat → nat → Z) : Prop :=
  ∀ taken i rest, arrivals = taken ++ Arrived i :: rest →
    collect computeInfo hasTimeout true 0 results taken = None → ∀ k, kills i k = 0.

Section collect.
Context (computeInfo hasTimeout : bool) (results : list bool).
Implicit Types (got : list nat) (arrivals : list arrival).

Definition all_true got : Prop := ∀ i, i ∈ got → results !! i = Some true.

(** The results [got] have been received. *)
Lemma collect_spec (P : nat → Prop) got ok arrivals ok' timedOut :
  NoDup (got ++ arrived arrivals) → (∀ i, i ∈ got ++ arrived arrivals → (i < length results)%nat) →
  (ok = true ↔ all_true got) →
  (∀ i, i ∈ got → P i) →
  (∀ taken i rest, arrivals = taken ++ Arrived i :: rest →
    collect computeInfo hasTimeout ok (len got) results taken = None → P i) →
  collect computeInfo hasTimeout ok (len got) results arrivals = Some (ok', timedOut) →
  ∃ got', (∀ i, i ∈ got' → P i) ∧ (ok' = true ↔ all_true got') ∧
    (ok' = true → timedOut = false → ∀ i, (i < length results)%nat → i ∈ got') ∧
    (timedOut = true → hasTimeout = true ∧ TimedOut ∈ arrivals).
Proof.
  revert got ok. induction arrivals as [|[i|] arrivals IH]; intros got ok Hnd Hlt Hok HP Hlate Hcol; [done| |].
  - cbn [collect] in Hcol. cbn [arrived omap list_omap] in Hnd, Hlt.
    change (omap _ arrivals) with (arrived arrivals) in Hnd, Hlt.
    destruct (lookup_lt_is_Some_2 results i) as [r Hr]; [apply Hlt; set_solver|].
    rewrite Hr in Hcol. cbn [mbind option_bind] in Hcol.
    assert (HPi : P i) by (by apply (Hlate [] i arrivals)).
    assert (Hok1 : ok && r = true ↔ all_true (got ++ [i])).
    { rewrite andb_true_iff, Hok. unfold all_true. split.
      - intros [Hg ->] j [Hj| ->%list_elem_of_singleton]%elem_of_app; auto.
      - intros Hg. split; [intros; apply Hg; set_solver|]. specialize (Hg i ltac:(set_solver)). congruence. }
    assert (HP1 : ∀ j, j ∈ got ++ [i] → P j) by (intros j [?| ->%list_elem_of_singleton]%elem_of_app; auto).
    assert (Hlen : len (got ++ [i]) = len got + 1) by (unfold len; rewrite length_app; cbn; lia).
    destruct (negb (ok && r) && negb computeInfo) eqn:E1; [|destruct (len results <=? len got + 1) eqn:E2].
    + simplify_eq. apply andb_true_iff in E1 as [E1%negb_true_iff _]. exists (got ++ [i]).
      split_and!; [done|done|congruence|done].
    + simplify_eq. apply Z.leb_le in E2. exists (got ++ [i]). split_and!; [done|done| |done]. intros _ _ j Hj.
      assert (Hsub : seq 0 (length results) ⊆+ got ++ [i]); [|eapply elem_of_submseteq; [|exact Hsub]; apply elem_of_seq; lia].
      assert (Hsub' : got ++ [i] ⊆+ seq 0 (length results)).
      { apply NoDup_submseteq.
        - rewrite cons_middle, app_assoc in Hnd. by apply NoDup_app in Hnd as (? & _).
        - intros x Hx. apply elem_of_seq. split; [lia|]. apply Hlt. set_solver. }
      rewrite (submseteq_length_Permutation _ _ Hsub'); [done|]. rewrite length_seq. unfold len in E2. rewrite length_app. cbn. lia.
    + rewrite <- Hlen in Hcol. destruct (IH (got ++ [i]) (ok && r)) as (got' & H1 & H2 & H3 & H4); try done.
      * by rewrite <- app_assoc.
      * intros j. rewrite <- app_assoc. apply Hlt.
      * intros taken j rest -> Hnone. apply (Hlate (Arrived i :: taken) j rest); [done|].
        cbn [collect]. rewrite Hr. cbn [mbind option_bind]. by rewrite E1, E2, <- Hlen.
      * exists got'. split_and!; [done..|]. intros Ht. destruct (H4 Ht). split; [done|by apply list_elem_of_further].
  - cbn [collect] in Hcol. destruct hasTimeout eqn:Eh.
    + simplify_eq. exists got. split_and!; [done|done|congruence|]. intros _. split; [done|apply list_elem_of_here].
    + destruct (IH got ok) as (got' & H1 & H2 & H3 & H4); try done.
      * intros taken j rest -> Hnone. by apply (Hlate (TimedOut :: taken) j rest).
      * exists got'. split_and!; [done..|]. intros Ht. by destruct (H4 Ht).
Qed.
End collect.

(** The loop ends when all results arrive. *)
Lemma collect_total computeInfo hasTimeout results arrivals ok count :
  (∀ i, i ∈ arrived arrivals → (i < length results)%nat) → count < len results →
  len results ≤ count + len (arrived arrivals) →
  is_Some (collect computeInfo hasTimeout ok count results arrivals).
Proof.
  revert ok count. induction arrivals as [|[i|] arrivals IH]; intros ok count Hlt Hc Hle; cbn [collect].
  - unfold len in Hle. cbn in Hle. unfold len in Hc. lia.
  - cbn [arrived omap list_omap] in Hlt, Hle. change (omap _ arrivals) with (arrived arrivals) in Hlt, Hle.
    destruct (lookup_lt_is_Some_2 results i) as [r ->]; [apply Hlt; set_solver|]. cbn [mbind option_bind].
    case_if; [eauto|]. destruct (Z.leb_spec (len results) (count + 1)); [eauto|].
    apply IH; [intros; apply Hlt; set_solver|lia|]. unfold len in Hle |- *. cbn in Hle. unfold len in *. lia.
  - destruct hasTimeout; [eauto|]. by apply IH.
Qed.

(** ** The goroutines *)
Section parallel.
Context {In Out St : Type} (model : Model In Out St) (Hequal : equal_ok model).
Context (fuel : nat) (kills : nat → nat → Z) (computeInfo : bool) (hs : list (list (entry In Out))).
Implicit Types (h : list (entry In Out)).

Definition searchable : Prop := ∀ h, h ∈ hs → ∃ n, history_ok h n ∧ (enough n ≤ fuel)%nat.
Context (Hhs : searchable).

(** What is known of the result of one goroutine. *)
Definition outcome_of (i : nat) h (out : bool * (list (list Z) * list (option nat))) : Prop :=
  checkSingle fuel (kills i) model h computeInfo = Some out ∧
  longest_ok model h out.2 ∧
  (out.1 = true → linearizable_from model h (m_Init model) ∧ best model h out.2) ∧
  ((∀ k, kills i k = 0) → out.1 = false →
    ¬ linearizable_from model h (m_Init model) ∧ (computeInfo = true → best model h out.2)).

Lemma searchAll_spec :
  ∃ outs, searchAll fuel kills model hs computeInfo = Some outs ∧ length outs = length hs ∧
    ∀ i h, hs !! i = Some h → ∃ out, outs !! i = Some out ∧ outcome_of i h out.
Proof.
  assert (Hall : ∀ p, p ∈ imap pair hs → ∃ out, outcome_of p.1 p.2 out).
  { intros [i h] Hin%elem_of_imap_pair. cbn.
    destruct (Hhs h) as (n & Hok & Hn); [by eapply list_elem_of_lookup_2|].
    destruct (checkSingle_spec model h n Hok Hequal computeInfo (kills i) fuel Hn) as (b & sl & Hrun & Hlo & Ht & Hf).
    exists (b, sl). by split_and!. }
  assert (Hmap : ∃ outs, Forall2 (λ p out, outcome_of p.1 p.2 out) (imap pair hs) outs).
  { induction (imap pair hs) as [|p ps IH]; [by exists []|].
    destruct IH as (outs & IH); [intros; apply Hall; by apply list_elem_of_further|].
    destruct (Hall p (list_elem_of_here _ _)) as (out & Hout). exists (out :: outs). by constructor. }
  destruct Hmap as (outs & Houts). exists outs.
  assert (Hlen : length outs = length hs) by (rewrite <- (Forall2_length _ _ _ Houts); apply length_imap).
  split_and!; [|done|].
  - apply mapM_Some_2. eapply Forall2_impl; [exact Houts|]. by intros ?? [? _].
  - intros i h Hi. destruct (Forall2_lookup_l _ _ _ i (i, h) Houts) as (out & Hout & Ho).
    + by rewrite list_lookup_imap, Hi.
    + by exists out.
Qed.

(** ** The set of partial linearizations *)

Lemma partials_in sl seq : seq ∈ partials sl ↔ ∃ i q, sl.2 !! i = Some (Some q) ∧ sl.1 !! q = Some seq.
Proof.
  unfold partials. rewrite list_elem_of_omap. split.
  - intros (q & Hq & Hs). rewrite elem_of_remove_dups, list_elem_of_omap in Hq. destruct Hq as (p & Hp & ->).
    apply list_elem_of_lookup in Hp as [i Hi]. eauto.
  - intros (i & q & Hi & Hs). exists q. split; [|done]. apply elem_of_remove_dups, list_elem_of_omap.
    exists (Some q). split; [by eapply list_elem_of_lookup_2|done].
Qed.

(** What the verbose result says of one partition: every sequence is a partial
    linearization. *)
Definition partials_ok h (ps : list (list Z)) : Prop :=
  ∀ seq, seq ∈ ps → ∃ es s, path model h (m_Init model) seq es s.

(** And for each operation none that includes it is longer. *)
Definition partials_longest h (ps : list (list Z)) : Prop :=
  ∀ ks es s, path model h (m_Init model) ks es s → ∀ i, i ∈ ks → ∃ seq, seq ∈ ps ∧ i ∈ seq ∧ len ks ≤ len seq.

Lemma longest_partials h sl : longest_ok model h sl → partials_ok h (partials sl) ∧ (best model h sl → partials_longest h (partials sl)).
Proof.
  intros Hlo. split.
  - intros seq (i & q & Hi & Hs)%partials_in. destruct (Hlo i q Hi) as (seq' & Hs' & _ & Hp). simplify_eq. exact Hp.
  - intros Hb ks es s Hp i Hi. destruct (Hb ks es s Hp i Hi) as (H0 & q & seq & Hq & Hs & Hle).
    exists seq. split; [apply partials_in; eauto|]. destruct (Hlo _ _ Hq) as (seq' & Hs' & Hin & _).
    rewrite Z2Nat.id in Hin by lia. simplify_eq. done.
Qed.

(** ** The answer *)
Context (arrivals : list arrival) (timeout : Z).

Lemma checkParallel_spec res info :
  sent_once (length hs) arrivals →
  (∀ outs, searchAll fuel kills model hs computeInfo = Some outs →
    flag_late computeInfo (0 <? timeout) outs.*1 arrivals kills) →
  checkParallel fuel kills arrivals model hs computeInfo timeout = Some (res, info) →
  (res = Ok → ∀ h, h ∈ hs → linearizable_from model h (m_Init model)) ∧
  (res = Illegal → ∃ h, h ∈ hs ∧ ¬ linearizable_from model h (m_Init model)) ∧
  (res = Unknown → 0 < timeout ∧ TimedOut ∈ arrivals).
Proof.
  intros [Hnd Hlt] Hlate. unfold checkParallel. destruct searchAll_spec as (outs & Hall & Hlen & Houts).
  rewrite Hall. cbn [mbind option_bind]. specialize (Hlate outs Hall).
  destruct (collect computeInfo (0 <? timeout) true 0 outs.*1 arrivals) as [[ok timedOut]|] eqn:Ec; [|done].
  cbn [mbind option_bind]. intros [= Hres _].
  assert (Hl1 : length outs.*1 = length hs) by (by rewrite length_fmap).
  destruct (collect_spec computeInfo (0 <? timeout) outs.*1 (λ i, (i < length hs)%nat ∧ ∀ k, kills i k = 0) [] true arrivals ok timedOut)
    as (got & HP & Hok & Hcov & Hto).
  - done.
  - intros i Hi. rewrite Hl1. by apply Hlt.
  - split; [intros _ i Hi; by apply not_elem_of_nil in Hi|done].
  - intros i Hi. by apply not_elem_of_nil in Hi.
  - intros taken i rest Harr Hnone. split; [|by apply (Hlate taken i rest)]. apply Hlt.
    apply list_elem_of_omap. exists (Arrived i). split; [|done]. rewrite Harr. set_solver.
  - done.
  - rewrite Hl1 in Hcov. destruct ok; cbn in Hres.
    + destruct timedOut; subst res; split_and!; try done.
      * intros _. destruct (Hto eq_refl) as [Ht Hin]. split; [lia|done].
      * intros _ h Hh. apply list_elem_of_lookup in Hh as [i Hi]. destruct (Houts i h Hi) as (out & Hout & (_ & _ & Ht & _)).
        apply Ht. assert (Hg : i ∈ got) by (apply Hcov; [done|done|by eapply lookup_lt_Some]).
        pose proof (proj1 Hok eq_refl i Hg) as Htrue. rewrite list_lookup_fmap, Hout in Htrue. by injection Htrue.
    + subst res. split_and!; try done. intros _.
      destruct (decide (Forall (λ i, outs.*1 !! i = Some true) got)) as [Hf|Hf].
      { rewrite Forall_forall in Hf. by pose proof (proj2 Hok Hf). }
      apply not_Forall_Exists in Hf; [|apply _]. apply Exists_exists in Hf as (i & Hg & Hf). cbn in Hf.
      destruct (HP i Hg) as [Hi Hk]. destruct (lookup_lt_is_Some_2 hs i Hi) as [h Hh].
      destruct (Houts i h Hh) as ([b sl] & Hout & (_ & _ & _ & Hfalse)). rewrite list_lookup_fmap, Hout in Hf.
      destruct b; [done|]. exists h. split; [by eapply list_elem_of_lookup_2|]. by apply Hfalse.
Qed.

Lemma checkParallel_info res info :
  computeInfo = true → checkParallel fuel kills arrivals model hs computeInfo timeout = Some (res, info) →
  history info = hs ∧ length (partialLinearizations info) = length hs ∧
  ∀ i h, hs !! i = Some h → ∃ ps, partialLinearizations info !! i = Some ps ∧ partials_ok h ps ∧
    ((∀ k, kills i k = 0) → partials_longest h ps).
Proof.
  intros Hci. unfold checkParallel. destruct searchAll_spec as (outs & Hall & Hlen & Houts).
  rewrite Hall. cbn [mbind option_bind]. destruct (collect _ _ _ _ _ _) as [[ok timedOut]|]; [|done].
  cbn [mbind option_bind]. rewrite Hci. intros [= _ <-]. cbn [history partialLinearizations].
  split_and!; [done|by rewrite !length_fmap|]. intros i h Hi.
  destruct (Houts i h Hi) as ([b sl] & Hout & (_ & Hlo & Ht & Hf)). exists (partials sl).
  destruct (longest_partials h sl Hlo) as [Hpo Hpl]. split_and!; [by rewrite !list_lookup_fmap, Hout|done|].
  intros Hk. apply Hpl. destruct b; [by apply Ht|by apply Hf].
Qed.

(** Without a time-out, or when all goroutines are done before it, there is an
    answer. *)
Lemma checkParallel_total :
  hs ≠ [] → all_sent (length hs) arrivals → ∃ res info, checkParallel fuel kills arrivals model hs computeInfo timeout = Some (res, info).
Proof.
  intros Hne Hsent. unfold checkParallel. destruct searchAll_spec as (outs & -> & Hlen & _). cbn [mbind option_bind].
  assert (Hl1 : length outs.*1 = length hs) by (by rewrite length_fmap).
  destruct (collect_total computeInfo (0 <? timeout) outs.*1 arrivals true 0) as [[ok timedOut] ->].
  - intros i Hi. rewrite Hsent in Hi. apply elem_of_seq in Hi. lia.
  - unfold len. rewrite Hl1. destruct hs; [done|]. cbn. lia.
  - unfold len. rewrite Hl1, Hsent, length_seq. lia.
  - cbn. eauto.
Qed.
End parallel.

(** ** The entry points *)

Lemma cost_mono m m' : (m ≤ m')%nat → (cost m ≤ cost m')%nat.
Proof.
  induction 1 as [|m' _ IH]; [done|]. etrans; [exact IH|]. cbn [cost].
  pose proof (Nat.le_add_r (cost m') 2). nia.
Qed.

Lemma enough_mono n n' : n ≤ n' → (enough n ≤ enough n')%nat.
Proof. intros. unfold enough. apply Nat.add_le_mono_r, cost_mono. lia. Qed.

Section entry_points.
Context {In Out St : Type} `{EqDecision St} (model : Model In Out St).
Context (sort_byTime : list (entry In Out) → list (entry In Out)).
Context (DefaultDescribeOperation : In → Out → string) (DefaultDescribeState : St → string).
Context (fuel : nat) (kills : nat → nat → Z) (arrivals : list arrival).
Context (partition : list (Operation In Out) → list (list (Operation In Out))).
Context (ops : list (Operation In Out)) (verbose : bool) (timeout : Z).

Definition filled : Model In Out St := fillDefault DefaultDescribeOperation DefaultDescribeState model.
Definition parts : list (list (entry In Out)) := makeEntries sort_byTime <$> partition ops.

(** What the entry points ask of the model and of the history. *)
Record checkable : Prop := {
  ck_equal : equal_ok filled;
  ck_partition : m_Partition filled = Some partition;
  ck_sort : sorts sort_byTime;
  ck_timely : ∀ part, part ∈ partition ops → timely part;
  ck_fuel : ∀ part, part ∈ partition ops → (enough (len part) ≤ fuel)%nat }.

(** What the goroutines do: each sends one result, and reads the kill flag. *)
Record scheduled : Prop := {
  sd_sent : sent_once (length parts) arrivals;
  sd_late : ∀ outs, searchAll fuel kills filled parts verbose = Some outs →
    flag_late verbose (0 <? timeout) outs.*1 arrivals kills }.

Context (Hck : checkable).

Lemma parts_searchable : searchable fuel parts.
Proof.
  intros h Hh. apply list_elem_of_fmap in Hh as (part & -> & Hp). exists (len part).
  split; [apply hist_history_ok; [apply Hck|by apply Hck]|by apply Hck].
Qed.

Lemma checkOperations_eq :
  checkOperations sort_byTime DefaultDescribeOperation DefaultDescribeState fuel kills arrivals model ops verbose timeout =
  checkParallel fuel kills arrivals filled parts verbose timeout.
Proof.
  unfold checkOperations. fold filled. by rewrite (ck_partition Hck).
Qed.

(** A partition of the history, and its operations. *)
Lemma part_linearizable part :
  part ∈ partition ops →
  (linearizable_from filled (makeEntries sort_byTime part) (m_Init filled) → linearizable model part) ∧
  (no_ties part → linearizable model part → linearizable_from filled (makeEntries sort_byTime part) (m_Init filled)).
Proof.
  intros Hp. split.
  - apply (path_linearizable filled sort_byTime (ck_sort Hck) part). by apply Hck.
  - apply (linearizable_path filled sort_byTime (ck_sort Hck) part). by apply Hck.
Qed.

Lemma checkOperations_spec res info :
  scheduled →
  checkOperations sort_byTime DefaultDescribeOperation DefaultDescribeState fuel kills arrivals model ops verbose timeout = Some (res, info) →
  (res = Ok → ∀ part, part ∈ partition ops → linearizable model part) ∧
  (res = Illegal → (∀ part, part ∈ partition ops → no_ties part) → ∃ part, part ∈ partition ops ∧ ¬ linearizable model part) ∧
  (res = Unknown → 0 < timeout ∧ TimedOut ∈ arrivals).
Proof.
  intros [Hsent Hlate]. rewrite checkOperations_eq. intros Hrun.
  destruct (checkParallel_spec filled (ck_equal Hck) fuel kills verbose parts parts_searchable arrivals timeout res info Hsent Hlate Hrun)
    as (Hok & Hill & Hunk).
  split_and!; [| |done].
  - intros Hr part Hp. apply part_linearizable; [done|]. apply Hok; [done|]. apply list_elem_of_fmap. by exists part.
  - intros Hr Hties. destruct (Hill Hr) as (h & Hh & Hn). apply list_elem_of_fmap in Hh as (part & -> & Hp).
    exists part. split; [done|]. intros Hl. apply Hn. apply part_linearizable; auto.
Qed.
End entry_points.

(** ** Claims *)

Section claims.
Context {In Out St : Type} `{EqDecision St} (model : Model In Out St).
Context (sort_byTime : list (entry In Out) → list (entry In Out)).
Implicit Types (ops : list (Operation In Out)).

(** C37. [checkSingle], left alone, decides whether a
    history is linearizable: with fuel for its operations it returns, it does
    not panic, and its answer is [true] exactly for the linearizable
    histories.  Operations return after they are called, and none is called at
    the time another returns; [Equal] relates states that allow the same
    steps. *)
Theorem check_single_decides ops computePartial fuel :
  equal_ok model → sorts sort_byTime → timely ops → no_ties ops → (enough (len ops) ≤ fuel)%nat →
  ∃ b longest, checkSingle fuel (λ _, 0) model (makeEntries sort_byTime ops) computePartial = Some (b, longest) ∧
    (b = true ↔ linearizable model ops).
Proof.
  intros He Hs Ht Hties Hf. pose proof (hist_history_ok sort_byTime Hs ops Ht) as Hok.
  destruct (checkSingle_spec model _ _ Hok He computePartial (λ _, 0) fuel Hf) as (b & sl & Hrun & _ & Htrue & Hfalse).
  exists b, sl. split; [done|]. split.
  - intros ->. destruct (Htrue eq_refl) as [Hl _]. by apply (path_linearizable model sort_byTime Hs ops Ht).
  - intros Hl. destruct b; [done|]. destruct (Hfalse (λ _, eq_refl) eq_refl) as [Hn _]. destruct Hn.
    by apply (linearizable_path model sort_byTime Hs ops Ht).
Qed.

Context (DefaultDescribeOperation : In → Out → string) (DefaultDescribeState : St → string).
Context (fuel : nat) (kills : nat → nat → Z) (arrivals : list arrival).
Context (partition : list (Operation In Out) → list (list (Operation In Out))).

(** C38. Whatever order the goroutines finish in and whenever the
    time-out fires, [CheckOperationsTimeout] returns [Ok] only when every
    partition of the history is linearizable, [Illegal] only when one is not,
    and [Unknown] only when there was a time-out. *)
Theorem check_answer ops timeout res :
  checkable model sort_byTime DefaultDescribeOperation DefaultDescribeState fuel partition ops →
  scheduled model sort_byTime DefaultDescribeOperation DefaultDescribeState fuel kills arrivals partition ops false timeout →
  CheckOperationsTimeout sort_byTime DefaultDescribeOperation DefaultDescribeState fuel kills arrivals model ops timeout = Some res →
  (res = Ok → ∀ part, part ∈ partition ops → linearizable model part) ∧
  (res = Illegal → (∀ part, part ∈ partition ops → no_ties part) → ∃ part, part ∈ partition ops ∧ ¬ linearizable model part) ∧
  (res = Unknown → 0 < timeout ∧ TimedOut ∈ arrivals).
Proof.
  intros Hck Hsd. unfold CheckOperationsTimeout.
  destruct (checkOperations _ _ _ _ _ _ _ _ _ _) as [[res' info]|] eqn:Hrun; [|done]. cbn. intros [= ->].
  by apply (checkOperations_spec model sort_byTime DefaultDescribeOperation DefaultDescribeState fuel kills arrivals partition ops false timeout Hck res info).
Qed.

(** The partial linearizations [CheckOperationsVerbose]
    reports for a partition are partial linearizations of it, even when the
    search was killed; and when it was not, no partial linearization that
    includes an operation is longer than the reported ones that do. *)
Theorem verbose_partials ops timeout res info i part :
  checkable model sort_byTime DefaultDescribeOperation DefaultDescribeState fuel partition ops →
  CheckOperationsVerbose sort_byTime DefaultDescribeOperation DefaultDescribeState fuel kills arrivals model ops timeout = Some (res, info) →
  partition ops !! i = Some part →
  ∃ ps, partialLinearizations info !! i = Some ps ∧
    partials_ok (fillDefault DefaultDescribeOperation DefaultDescribeState model) (makeEntries sort_byTime part) ps ∧
    ((∀ k, kills i k = 0) →
      partials_longest (fillDefault DefaultDescribeOperation DefaultDescribeState model) (makeEntries sort_byTime part) ps).
Proof.
  intros Hck. unfold CheckOperationsVerbose.
  rewrite (checkOperations_eq model sort_byTime DefaultDescribeOperation DefaultDescribeState fuel kills arrivals partition ops true timeout Hck).
  intros Hrun Hi.
  destruct (checkParallel_info _ (ck_equal _ _ _ _ _ _ _ Hck) fuel kills true _
    (parts_searchable model sort_byTime DefaultDescribeOperation DefaultDescribeState fuel partition ops Hck)
    arrivals timeout res info eq_refl Hrun) as (_ & _ & Hps).
  apply Hps. unfold parts. by rewrite list_lookup_fmap, Hi.
Qed.
End claims.

(** ** A register, for the witnesses *)

(** Sorting entries by time. *)
Section merge_sort.
Context {In Out : Type}.
Definition earlier (e f : entry In Out) : Prop := e_time e ≤ e_time f.
#[export] Instance earlier_dec (e f : entry In Out) : Decision (earlier e f).
Proof. unfold earlier. apply _. Defined.
#[export] Instance earlier_trans : Transitive earlier.
Proof. intros ???. unfold earlier. lia. Qed.
#[export] Instance earlier_total : Total earlier.
Proof. intros ??. unfold earlier. lia. Qed.

Definition sort_entries (l : list (entry In Out)) : list (entry In Out) := merge_sort earlier l.

Lemma sort_entries_sorts : sorts sort_entries.
Proof. intros l. split; [apply merge_sort_Permutation|]. exact (StronglySorted_merge_sort earlier l). Qed.
End merge_sort.

Lemma no_ties_forall {In Out} (ops : list (Operation In Out)) :
  Forall (λ a, Forall (λ b, op_Return a ≠ op_Call b) ops) ops → no_ties ops.
Proof. intros Hf a b Ha Hb. rewrite Forall_forall in Hf. specialize (Hf a Ha). rewrite Forall_forall in Hf. by apply Hf. Qed.

Module Register.

(** [Some v] writes, [None] reads. *)
Definition step (s : Z) (i : option Z) (o : Z) : bool * Z :=
  match i with Some v => (true, v) | None => (bool_decide (o = s), s) end.
Definition register : Model (option Z) Z Z := mkModel (option Z) Z Z None None 0 step (Some ShallowEqual) None None.

Lemma register_equal : equal_ok register.
Proof.
  exists ShallowEqual. split; [done|]. unfold ShallowEqual. intros s t Hst x o s' Hs. apply bool_decide_eq_true in Hst as ->.
  exists s'. split; [done|]. by apply bool_decide_eq_true.
Qed.

Definition op (i : option Z) (c o r : Z) : Operation (option Z) Z := mkOperation (option Z) Z 0 i c o r.

(** A write overlaps a read that sees it. *)
Definition seen : list (Operation (option Z) Z) := [op (Some 1) 0 0 10; op None 2 1 5].
(** A read returns a value no one wrote. *)
Definition unseen : list (Operation (option Z) Z) := [op (Some 1) 0 0 3; op None 4 2 5].

Lemma seen_timely : timely seen.
Proof. repeat constructor. Qed.
Lemma unseen_timely : timely unseen.
Proof. repeat constructor. Qed.
Lemma unseen_no_ties : no_ties unseen.
Proof. apply no_ties_forall. repeat constructor; cbn; lia. Qed.

Lemma check_single_decides_witness :
  ∃ b longest, checkSingle (enough 2) (λ _, 0) register (makeEntries sort_entries unseen) true = Some (b, longest) ∧
    (b = true ↔ linearizable register unseen).
Proof.
  apply (check_single_decides register sort_entries unseen true (enough 2)
    register_equal sort_entries_sorts unseen_timely unseen_no_ties).
  vm_compute. lia.
Defined.

Definition describe (i : option Z) (o : Z) : string := "".
Definition describe_state (s : Z) : string := "".

Lemma register_checkable ops :
  timely ops → checkable register sort_entries describe describe_state (enough (len ops)) NoPartition ops.
Proof.
  intros Ht. split; [exact register_equal|done|apply sort_entries_sorts|..];
    by intros part ->%list_elem_of_singleton.
Qed.

Lemma register_scheduled ops verbose timeout :
  scheduled register sort_entries describe describe_state (enough (len ops)) (λ _ _, 0) [Arrived 0] NoPartition ops verbose timeout.
Proof.
  split; [|by intros outs _ taken i rest _ _ k]. split.
  - apply NoDup_singleton.
  - intros i. cbn. rewrite list_elem_of_singleton. unfold parts, NoPartition. cbn. lia.
Qed.

Lemma check_answer_witness : linearizable register seen.
Proof.
  refine (proj1 (check_answer register sort_entries describe describe_state (enough (len seen)) (λ _ _, 0) [Arrived 0] NoPartition seen 5 Ok
    (register_checkable seen seen_timely) (register_scheduled seen false 5) _) eq_refl seen _).
  - vm_compute. reflexivity.
  - apply list_elem_of_here.
Defined.

Definition unseen_info : linearizationInfo (option Z) Z :=
  match CheckOperationsVerbose sort_entries describe describe_state (enough (len unseen)) (λ _ _, 0) [Arrived 0] register unseen 0 with
  | Some (_, info) => info
  | None => mkInfo (option Z) Z [] []
  end.

Lemma verbose_partials_witness :
  ∃ ps, partialLinearizations unseen_info !! 0%nat = Some ps ∧
    partials_ok (fillDefault describe describe_state register) (makeEntries sort_entries unseen) ps ∧
    ((∀ k : nat, (λ _ _ : nat, 0) 0%nat k = 0) →
      partials_longest (fillDefault describe describe_state register) (makeEntries sort_entries unseen) ps).
Proof.
  apply (verbose_partials register sort_entries describe describe_state (enough (len unseen)) (λ _ _, 0) [Arrived 0] NoPartition
    unseen 0 Illegal unseen_info 0 unseen (register_checkable unseen unseen_timely)); vm_compute; reflexivity.
Defined.
End Register.
