(* ===== verification/PorcupineVisual.v ===== *)
(** * porcupine/visualization.go: the data of the picture

    [computeVisualizationData] turns what [CheckOperationsVerbose] reports
    into the data the page shows.  The page itself is HTML; [json.Marshal] and
    the file are not modelled.  [sort.Slice] is a parameter; it sorts the
    slice in place, so the [linearizationInfo] of the caller changes too. *)
From stdpp Require Import base tactics list gmap strings numbers sorting.
From S2P Require Import Prelude Bitset Porcupine PorcupineList PorcupineSearch PorcupineHistory PorcupineCheck.
Open Scope Z_scope.
Open Scope go_scope.

(** ** The data *)

Record historyElement := mkHistoryElement {
  he_ClientId : Z; he_Start : Z; he_End : Z; he_Description : string }.
#[export] Instance historyElement_eta : RecordEta historyElement :=
  λ h, mkHistoryElement (he_ClientId h) (he_Start h) (he_End h) (he_Description h).
Definition zeroElement : historyElement := mkHistoryElement 0 0 0 "".

Record linearizationStep := mkLinearizationStep { ls_Index : Z; ls_StateDescription : string }.

Record partitionVisualizationData := mkPartitionVisualizationData {
  pv_History : list historyElement;
  pv_PartialLinearizations : list (list linearizationStep);
  pv_Largest : gmap Z Z }.

Section visualization.
Context {In Out St : Type}.
Implicit Types (model : Model In Out St) (elem : entry In Out) (values callValue returnValue : gmap Z (In + Out)).

(** ** The history of a partition *)

(** [model.DescribeOperation] of a call's and a return's value. *)
Definition callDescribe model (input output : option (In + Out)) : option string :=
  match m_DescribeOperation model, input, output with
  | Some f, Some (inl i), Some (inr o) => Some (f i o)
  | _, _, _ => None
  end.

(** One turn of the loop over the entries: the slice [history] and the maps
    [callValue] and [returnValue]. *)
Definition visit model elem (acc : list historyElement * gmap Z (In + Out) * gmap Z (In + Out)) :
    option (list historyElement * gmap Z (In + Out) * gmap Z (In + Out)) :=
  let '(history, callValue, returnValue) := acc in
  he ← idx history (e_id elem);
  let at_id v := <[Z.to_nat (e_id elem) := v]> history in
  match e_kind elem with
  | callEntry =>
      Some (at_id (he <| he_ClientId := e_clientId elem |> <| he_Start := e_time elem |>),
            <[e_id elem := e_value elem]> callValue, returnValue)
  | returnEntry =>
      description ← callDescribe model (callValue !! e_id elem) (Some (e_value elem));
      Some (at_id (he <| he_End := e_time elem |> <| he_Description := description |>),
            callValue, <[e_id elem := e_value elem]> returnValue)
  end.

Fixpoint visitAll model (elems : list (entry In Out)) acc :
    option (list historyElement * gmap Z (In + Out) * gmap Z (In + Out)) :=
  match elems with
  | [] => Some acc
  | elem :: elems => acc ← visit model elem acc; visitAll model elems acc
  end.

(** ** The partial linearizations *)

(** [largestIndex] and [largestSize] when [histId] is seen in sequence [i],
    which has [size] operations. *)
Definition noteLargest (i size : Z) (largest : gmap Z Z * gmap Z Z) (histId : Z) : gmap Z Z * gmap Z Z :=
  if map_get 0 largest.2 histId <? size
  then (<[histId := i]> largest.1, <[histId := size]> largest.2) else largest.

Fixpoint drawSteps model callValue returnValue (i size : Z) (state : St) (partial : list Z)
    (largest : gmap Z Z * gmap Z Z) : option (list linearizationStep * (gmap Z Z * gmap Z Z)) :=
  match partial with
  | [] => Some ([], largest)
  | histId :: partial =>
      '(ok, state) ← callStep model state (callValue !! histId) (returnValue !! histId);
      if negb ok then None else
      describe ← m_DescribeState model;
      '(steps, largest) ← drawSteps model callValue returnValue i size state partial (noteLargest i size largest histId);
      Some (mkLinearizationStep histId (describe state) :: steps, largest)
  end.

Fixpoint drawPartials model callValue returnValue (i : Z) (partials : list (list Z))
    (largest : gmap Z Z * gmap Z Z) : option (list (list linearizationStep) * (gmap Z Z * gmap Z Z)) :=
  match partials with
  | [] => Some ([], largest)
  | partial :: partials =>
      '(linearization, largest) ← drawSteps model callValue returnValue i (len partial) (m_Init model) partial largest;
      '(linearizations, largest) ← drawPartials model callValue returnValue (i + 1) partials largest;
      Some (linearization :: linearizations, largest)
  end.

Definition drawPartition model (elems : list (entry In Out)) (partials : list (list Z)) :
    option partitionVisualizationData :=
  let n := len elems `quot` 2 in
  '(history, callValue, returnValue) ← visitAll model elems (replicate (Z.to_nat n) zeroElement, ∅, ∅);
  '(linearizations, (largestIndex, _)) ← drawPartials model callValue returnValue 0 partials (∅, ∅);
  Some (mkPartitionVisualizationData history linearizations largestIndex).

(** The loop over the partitions, from [partition] on; the second result is
    what it leaves in [info.partialLinearizations]. *)
Fixpoint drawAll (sort_bySize : list (list Z) → list (list Z)) model (partition : Z)
    (history : list (list (entry In Out))) (partialLinearizations : list (list (list Z))) :
    option (list partitionVisualizationData * list (list (list Z))) :=
  match history with
  | [] => Some ([], partialLinearizations)
  | elems :: history =>
      partials ← idx partialLinearizations partition;
      let partials := sort_bySize partials in
      d ← drawPartition model elems partials;
      '(data, partialLinearizations) ←
        drawAll sort_bySize model (partition + 1) history (<[Z.to_nat partition := partials]> partialLinearizations);
      Some (d :: data, partialLinearizations)
  end.

Definition computeVisualizationData `{EqDecision St} (DefaultDescribeOperation : In → Out → string)
    (DefaultDescribeState : St → string) (sort_bySize : list (list Z) → list (list Z)) model
    (info : linearizationInfo In Out) :
    option (list partitionVisualizationData * linearizationInfo In Out) :=
  let model := fillDefault DefaultDescribeOperation DefaultDescribeState model in
  '(data, sorted) ← drawAll sort_bySize model 0 (history info) (partialLinearizations info);
  Some (data, mkInfo In Out (history info) sorted).
End visualization.

(** What [sort.Slice] promises: the same slices, longest first. *)
Definition longer {A} (a b : list A) : Prop := len b ≤ len a.
Definition sorts_by_size (sort_bySize : list (list Z) → list (list Z)) : Prop :=
  ∀ l, sort_bySize l ≡ₚ l ∧ StronglySorted longer (sort_bySize l).

(** ** The history that is drawn *)
Section drawn_history.
Context {In Out St : Type} (model : Model In Out St) (describe : In → Out → string).
Context (Hdescribe : m_DescribeOperation model = Some describe).
Context (sort_byTime : list (entry In Out) → list (entry In Out)).
Context (Hsort : sorts sort_byTime) (part : list (Operation In Out)) (Htimely : timely part).
Implicit Types (o : Operation In Out) (k : nat) (P R : list (entry In Out)) (cv rv : gmap Z (In + Out)).

Definition shown o : historyElement :=
  mkHistoryElement (op_ClientId o) (op_Call o) (op_Return o) (describe (op_Input o) (op_Output o)).

(** What the loop knows of operation [k] after the entries [P]. *)
Definition shown_after P k o he cv rv : Prop :=
  (call_of k o ∈ P → he_ClientId he = op_ClientId o ∧ he_Start he = op_Call o ∧
    cv !! Z.of_nat k = Some (inl (op_Input o))) ∧
  (return_of k o ∈ P → he_End he = op_Return o ∧ he_Description he = describe (op_Input o) (op_Output o) ∧
    rv !! Z.of_nat k = Some (inr (op_Output o))).
Definition visited P (acc : list historyElement * gmap Z (In + Out) * gmap Z (In + Out)) : Prop :=
  length acc.1.1 = length part ∧
  ∀ k o, part !! k = Some o → ∃ he, acc.1.1 !! k = Some he ∧ shown_after P k o he acc.1.2 acc.2.

Lemma call_precedes P R k o : part !! k = Some o → (makeEntries sort_byTime part) = P ++ return_of k o :: R → call_of k o ∈ P.
Proof.
  intros Ho Heq. destruct (hist_paired sort_byTime Hsort part Htimely k o Ho) as (_ & _ & _ & A & B & C & Hes & _).
  pose proof (hist_nodup sort_byTime Hsort part) as Hnd. unfold hist in *.
  rewrite (app_assoc A (call_of k o :: B) (return_of k o :: C) : A ++ call_of k o :: B ++ return_of k o :: C = _) in Hes.
  rewrite Hes in Hnd. apply NoDup_app in Hnd as (_ & Hn & [Hc _]%NoDup_cons). rewrite Heq in Hes.
  destruct (pivot _ _ _ _ _ Hes) as [-> _]; [|done|set_solver]. intros Hin. apply (Hn _ Hin). set_solver.
Qed.

(** One turn changes what is known of its own operation only. *)
Lemma visited_turn P elem k o he he' history cv rv cv' rv' :
  visited P (history, cv, rv) → part !! k = Some o → elem = call_of k o ∨ elem = return_of k o →
  history !! k = Some he → shown_after (P ++ [elem]) k o he' cv' rv' →
  (∀ j, j ≠ Z.of_nat k → cv' !! j = cv !! j ∧ rv' !! j = rv !! j) →
  visited (P ++ [elem]) (<[k := he']> history, cv', rv').
Proof.
  intros [Hlen Hall] Ho Helem Hk Hnew Hother. split; cbn in *; [by rewrite length_insert|]. intros k' o' Ho'.
  destruct (decide (k' = k)) as [->|Hne].
  - simplify_eq. exists he'. split; [|done]. apply list_lookup_insert_eq. by eapply lookup_lt_Some.
  - destruct (Hall k' o' Ho') as (h & Hh & Hc & Hr). exists h. rewrite list_lookup_insert_ne by done. split; [done|].
    destruct (Hother (Z.of_nat k')) as [Ecv Erv]; [lia|]. unfold shown_after. rewrite Ecv, Erv.
    split; intros [Hin|Heq%list_elem_of_singleton]%elem_of_app; [by apply Hc| |by apply Hr|];
      exfalso; destruct Helem as [Helem|Helem]; rewrite Helem in Heq; injection Heq; lia.
Qed.

Lemma visit_spec P elem R acc :
  (makeEntries sort_byTime part) = P ++ elem :: R → visited P acc → ∃ acc', visit model elem acc = Some acc' ∧ visited (P ++ [elem]) acc'.
Proof.
  intros Heq Hv. destruct acc as [[history cv] rv].
  destruct (proj1 (hist_in sort_byTime Hsort part Htimely elem)) as (k & o & Ho & Helem); [unfold hist; rewrite Heq; set_solver|].
  destruct (proj2 Hv k o Ho) as (he & Hhe & Hc & Hr). cbn in Hhe, Hc, Hr.
  assert (Hidx : idx history (Z.of_nat k) = Some he) by (apply idx_Some; split; [lia|by rewrite Nat2Z.id]).
  assert (Hid : e_id elem = Z.of_nat k) by (by destruct Helem as [-> | ->]).
  unfold visit. rewrite Hid, Hidx. cbn [mbind option_bind]. rewrite Nat2Z.id.
  destruct Helem as [-> | ->]; cbn [e_kind e_value e_time e_clientId call_of return_of].
  - eexists. split; [done|]. eapply visited_turn; eauto; [|intros j Hj; by rewrite lookup_insert_ne].
    split; cbn.
    + intros _. by rewrite lookup_insert_eq.
    + intros [Hin|[=]%list_elem_of_singleton]%elem_of_app. by apply Hr.
  - destruct (Hc (call_precedes P R k o Ho Heq)) as (Hcl & Hst & Hcv). unfold callDescribe. rewrite Hdescribe, Hcv. cbn [mbind option_bind].
    eexists. split; [done|]. eapply visited_turn; eauto; [|intros j Hj; by rewrite lookup_insert_ne].
    split; cbn.
    + intros _. done.
    + intros _. by rewrite lookup_insert_eq.
Qed.

Lemma visitAll_spec R P acc :
  (makeEntries sort_byTime part) = P ++ R → visited P acc → ∃ acc', visitAll model R acc = Some acc' ∧ visited (makeEntries sort_byTime part) acc'.
Proof.
  revert P acc. induction R as [|elem R IH]; intros P acc Heq Hv; cbn.
  - rewrite app_nil_r in Heq. rewrite Heq. by exists acc.
  - destruct (visit_spec P elem R acc Heq Hv) as (acc1 & -> & Hv1). cbn [mbind option_bind].
    apply (IH (P ++ [elem])); [|done]. by rewrite <- app_assoc.
Qed.

Definition values_of cv rv : Prop := ∀ k o, part !! k = Some o →
  cv !! Z.of_nat k = Some (inl (op_Input o)) ∧ rv !! Z.of_nat k = Some (inr (op_Output o)).

Lemma history_drawn :
  ∃ cv rv, visitAll model (makeEntries sort_byTime part) (replicate (Z.to_nat (len (makeEntries sort_byTime part) `quot` 2)) zeroElement, ∅, ∅) = Some (shown <$> part, cv, rv) ∧
    values_of cv rv.
Proof.
  pose proof (ho_len _ _ (hist_history_ok sort_byTime Hsort part Htimely)) as Hlen. unfold hist in Hlen.
  destruct (visitAll_spec (makeEntries sort_byTime part) [] (replicate (Z.to_nat (len (makeEntries sort_byTime part) `quot` 2)) zeroElement, ∅, ∅)) as ([[hs cv] rv] & Hrun & Hl & Hall).
  - done.
  - rewrite Hlen, Z.mul_comm, Z.quot_mul by done. unfold len. rewrite Nat2Z.id. split; cbn; [apply length_replicate|].
    intros k o Ho. exists zeroElement. split; [apply lookup_replicate_2; by eapply lookup_lt_Some|].
    by split; intros ?%not_elem_of_nil.
  - cbn in *. exists cv, rv.
    assert (Hfull : ∀ k o, part !! k = Some o → ∃ he, hs !! k = Some he ∧ he = shown o ∧
        cv !! Z.of_nat k = Some (inl (op_Input o)) ∧ rv !! Z.of_nat k = Some (inr (op_Output o))).
    { intros k o Ho. destruct (Hall k o Ho) as (he & Hhe & Hc & Hr). exists he. split; [done|].
      destruct Hc as (? & ? & ?); [apply (hist_in sort_byTime Hsort part Htimely); eauto|].
      destruct Hr as (? & ? & ?); [apply (hist_in sort_byTime Hsort part Htimely); eauto|].
      split; [|done]. destruct he; cbn in *; subst. done. }
    split.
    + rewrite Hrun. do 3 f_equal. apply list_eq. intros k. rewrite list_lookup_fmap.
      destruct (part !! k) as [o|] eqn:Ho; cbn.
      * by destruct (Hfull k o Ho) as (he & -> & -> & _).
      * apply lookup_ge_None in Ho. apply lookup_ge_None. lia.
    + intros k o Ho. by destruct (Hfull k o Ho) as (he & _ & _ & ?).
Qed.
End drawn_history.

(** ** The partial linearizations that are drawn *)
Section drawn_partials.
Context {In Out St : Type} (model : Model In Out St) (describe_state : St → string).
Context (Hdescribe : m_DescribeState model = Some describe_state).
Context (part : list (Operation In Out)).
Implicit Types (o : Operation In Out) (s : St) (k i size : Z) (ks : list Z) (largest : gmap Z Z * gmap Z Z).

Definition indices (steps : list linearizationStep) : list Z := ls_Index <$> steps.

(** The model takes these steps from [s]. *)
Fixpoint allowed s ks : Prop :=
  match ks with
  | [] => True
  | k :: ks => ∃ o s', idx part k = Some o ∧ m_Step model s (op_Input o) (op_Output o) = (true, s') ∧ allowed s' ks
  end.

(** And these are the descriptions of its states. *)
Fixpoint runs s (steps : list linearizationStep) : Prop :=
  match steps with
  | [] => True
  | st :: steps => ∃ o s', idx part (ls_Index st) = Some o ∧
      m_Step model s (op_Input o) (op_Output o) = (true, s') ∧
      ls_StateDescription st = describe_state s' ∧ runs s' steps
  end.

Lemma path_allowed (sort_byTime : list (entry In Out) → list (entry In Out)) es s ks es' s' :
  sorts sort_byTime → timely part → (∀ e, e ∈ es → e ∈ hist sort_byTime part) →
  path model es s ks es' s' → allowed s ks.
Proof.
  intros Hsort Ht Hin Hp. induction Hp as [|es s k s1 ks es2 s2 Hs Hp IH]; cbn; [done|].
  destruct Hs as (A & e & R & f & x & out & -> & _ & Hk & Hid & Hf & Hkf & Hidf & Hx & Hout & Hstep).
  assert (He : e ∈ hist sort_byTime part) by (apply Hin; set_solver).
  assert (Hf' : f ∈ hist sort_byTime part) by (apply Hin; set_solver).
  apply hist_in in He as (j & o & Ho & [-> | ->]); [|done..]. apply hist_in in Hf' as (j' & o' & Ho' & [-> | ->]); [done| |done..].
  cbn in *. assert (j' = j) as -> by lia. simplify_eq. exists o, s1. split_and!; [|done|].
  - apply idx_Some. split; [lia|by rewrite Nat2Z.id].
  - apply IH. intros e [_ He]%list_elem_of_filter. by apply Hin.
Qed.

(** *** [largestIndex] and [largestSize] *)

Lemma note_spec i size ks largest k :
  let l := foldl (noteLargest i size) largest ks in
  (l.1 !! k, l.2 !! k) =
    if decide (k ∈ ks ∧ map_get 0 largest.2 k < size) then (Some i, Some size) else (largest.1 !! k, largest.2 !! k).
Proof.
  cbn. revert largest. induction ks as [|k1 ks IH]; intros largest; cbn.
  - case_decide as Hd; [|done]. by destruct Hd as [?%not_elem_of_nil _].
  - rewrite IH. clear IH. unfold noteLargest. destruct (map_get 0 largest.2 k1 <? size) eqn:E; zbool; cbn [fst snd].
    + destruct (decide (k = k1)) as [->|Hne].
      * assert (Hg : map_get 0 (<[k1:=size]> largest.2) k1 = size) by (unfold map_get; by rewrite lookup_insert_eq).
        rewrite Hg, !lookup_insert_eq.
        rewrite (decide_True _ _ (conj (list_elem_of_here k1 ks) E)). by case_decide.
      * assert (Hg : map_get 0 (<[k1:=size]> largest.2) k = map_get 0 largest.2 k) by (unfold map_get; by rewrite lookup_insert_ne).
        rewrite Hg, !lookup_insert_ne by done.
        repeat case_decide; set_solver.
    + destruct (decide (k = k1)) as [->|Hne]; repeat case_decide; try done; set_solver by lia.
Qed.

(** [largestIndex] leads to the largest of the sequences seen. *)
Definition largest_of (seen : list (list Z)) (index : gmap Z Z) : Prop :=
  ∀ k, match index !! k with
    | Some q => ∃ ks, idx seen q = Some ks ∧ k ∈ ks ∧ ∀ ks', ks' ∈ seen → k ∈ ks' → len ks' ≤ len ks
    | None => ∀ ks, ks ∈ seen → k ∉ ks
    end.
Definition largest_ok (seen : list (list Z)) largest : Prop :=
  largest_of seen largest.1 ∧
  ∀ k, largest.2 !! k = q ← largest.1 !! k; ks ← idx seen q; Some (len ks).

Lemma largest_snoc seen ks largest :
  largest_ok seen largest → largest_ok (seen ++ [ks]) (foldl (noteLargest (len seen) (len ks)) largest ks).
Proof.
  intros [Hof Hsize]. pose proof (note_spec (len seen) (len ks) ks largest) as Hn. cbn in Hn.
  assert (Hlast : idx (seen ++ [ks]) (len seen) = Some ks) by (by rewrite idx_app_r, Z.sub_diag by lia).
  assert (Hkeep : ∀ q ks', idx seen q = Some ks' → idx (seen ++ [ks]) q = Some ks').
  { intros q ks' Hq. rewrite idx_app_l; [done|]. apply idx_Some in Hq as [? Hq%lookup_lt_Some]. unfold len. lia. }
  split; intros k; specialize (Hn k); specialize (Hof k); specialize (Hsize k); case_decide as Hd; injection Hn as Hi Hs; rewrite ?Hi, ?Hs.
  - exists ks. split_and!; [done|apply Hd|]. intros ks' [Hin | ->%list_elem_of_singleton]%elem_of_app Hk; [|done].
    destruct Hd as [_ Hlt]. unfold map_get in Hlt. rewrite Hsize in Hlt.
    destruct (largest.1 !! k) as [q|]; [|by destruct (Hof ks' Hin)]. destruct Hof as (ks1 & Hq & _ & Hle). cbn in Hlt.
    rewrite Hq in Hlt. cbn in Hlt. specialize (Hle ks' Hin Hk). lia.
  - unfold map_get in Hd. rewrite Hsize in Hd. destruct (largest.1 !! k) as [q|].
    + destruct Hof as (ks1 & Hq & Hk & Hle). exists ks1. split_and!; [by apply Hkeep|done|].
      intros ks' [Hin | ->%list_elem_of_singleton]%elem_of_app Hk'; [by apply Hle|]. cbn in Hd. rewrite Hq in Hd. cbn in Hd.
      apply Z.nlt_ge. intros Hlt. by apply Hd.
    + intros ks' [Hin | ->%list_elem_of_singleton]%elem_of_app Hk'; [by apply (Hof ks')|]. apply Hd. split; [done|]. cbn.
      unfold len. destruct ks; [by apply not_elem_of_nil in Hk'|cbn; lia].
  - cbn. by rewrite Hlast.
  - rewrite Hsize. destruct (largest.1 !! k) as [q|]; [|done]. destruct Hof as (ks1 & Hq & _). cbn. by rewrite Hq, (Hkeep _ _ Hq).
Qed.

(** *** The loops *)
Context (cv rv : gmap Z (In + Out)) (Hvalues : values_of part cv rv).

Lemma drawSteps_spec i size s ks largest :
  allowed s ks → ∃ steps,
    drawSteps model cv rv i size s ks largest = Some (steps, foldl (noteLargest i size) largest ks) ∧
    indices steps = ks ∧ runs s steps.
Proof.
  revert s largest. induction ks as [|k ks IH]; intros s largest; cbn; [by exists []|].
  intros (o & s' & Ho & Hstep & Hks). pose proof Ho as [Hk Hlk]%idx_Some.
  destruct (Hvalues _ _ Hlk) as [Hcv Hrv]. rewrite Z2Nat.id in Hcv, Hrv by done. rewrite Hcv, Hrv. cbn. rewrite Hstep. cbn.
  rewrite Hdescribe. cbn. destruct (IH s' (noteLargest i size largest k) Hks) as (steps & -> & Hix & Hr). cbn.
  exists (mkLinearizationStep k (describe_state s') :: steps). split_and!; [done|by rewrite <- Hix|]. exists o, s'. done.
Qed.

Lemma drawPartials_spec seen pss largest :
  Forall (allowed (m_Init model)) pss → largest_ok seen largest → ∃ drawn largest',
    drawPartials model cv rv (len seen) pss largest = Some (drawn, largest') ∧
    indices <$> drawn = pss ∧ Forall (runs (m_Init model)) drawn ∧ largest_ok (seen ++ pss) largest'.
Proof.
  revert seen largest. induction pss as [|ks pss IH]; intros seen largest Hall Hl; cbn.
  - exists [], largest. by rewrite app_nil_r.
  - apply Forall_cons in Hall as [Hks Hall].
    destruct (drawSteps_spec (len seen) (len ks) (m_Init model) ks largest Hks) as (steps & -> & Hix & Hr). cbn.
    destruct (IH (seen ++ [ks]) _ Hall (largest_snoc seen ks largest Hl)) as (drawn & largest' & Hrun & Hdr & Hruns & Hl').
    rewrite len_snoc in Hrun. rewrite Hrun. cbn. exists (steps :: drawn), largest'. split_and!; [done| |by constructor|].
    + cbn. by rewrite Hix, Hdr.
    + by rewrite <- app_assoc in Hl'.
Qed.
End drawn_partials.

(** ** The picture of one partition *)

(** The operations as they were called; the partial linearizations [ps],
    longest first, with the states of the model; and for each operation the
    number of a longest one that has it. *)
Record draws {In Out St : Type} (model : Model In Out St) (describe : In → Out → string) (describe_state : St → string)
    (part : list (Operation In Out)) (ps : list (list Z)) (d : partitionVisualizationData) : Prop := {
  dr_history : pv_History d = shown describe <$> part;
  dr_partials : indices <$> pv_PartialLinearizations d ≡ₚ ps;
  dr_order : StronglySorted longer (indices <$> pv_PartialLinearizations d);
  dr_states : Forall (runs model describe_state part (m_Init model)) (pv_PartialLinearizations d);
  dr_largest : largest_of (indices <$> pv_PartialLinearizations d) (pv_Largest d) }.

(** When no partial linearization is longer than the reported ones, none is
    longer than the one the picture points to. *)
Lemma longest_drawn {In Out St : Type} (model : Model In Out St) describe describe_state part h ps d ks es s k :
  draws model describe describe_state part ps d → partials_longest model h ps →
  path model h (m_Init model) ks es s → k ∈ ks →
  ∃ q steps, pv_Largest d !! k = Some q ∧ idx (pv_PartialLinearizations d) q = Some steps ∧
    k ∈ indices steps ∧ len ks ≤ len steps.
Proof.
  intros Hdr Hlong Hp Hk. destruct (Hlong ks es s Hp k Hk) as (seq & Hseq & Hin & Hle).
  rewrite <- (dr_partials _ _ _ _ _ _ Hdr) in Hseq. pose proof (dr_largest _ _ _ _ _ _ Hdr k) as Hl.
  destruct (pv_Largest d !! k) as [q|]; [|by destruct (Hl seq Hseq)].
  destruct Hl as (ks' & [Hq0 Hq]%idx_Some & Hk' & Hmax). rewrite list_lookup_fmap_Some in Hq. destruct Hq as (steps & -> & Hq).
  exists q, steps. split_and!; [done|by apply idx_Some|done|]. specialize (Hmax seq Hseq Hin).
  unfold indices, len in *. rewrite length_fmap in Hmax. lia.
Qed.

Section drawing.
Context {In Out St : Type} (model : Model In Out St) (describe : In → Out → string) (describe_state : St → string).
Context (Hdescribe : m_DescribeOperation model = Some describe) (Hstate : m_DescribeState model = Some describe_state).
Context (sort_byTime : list (entry In Out) → list (entry In Out)) (Hsort : sorts sort_byTime).
Context (sort_bySize : list (list Z) → list (list Z)) (Hsize : sorts_by_size sort_bySize).
Implicit Types (part : list (Operation In Out)) (ps : list (list Z)).

Lemma drawPartition_spec part ps :
  timely part → partials_ok model (makeEntries sort_byTime part) ps →
  ∃ d, drawPartition model (makeEntries sort_byTime part) (sort_bySize ps) = Some d ∧
    draws model describe describe_state part ps d.
Proof.
  intros Ht Hps. destruct (Hsize ps) as [Hperm Hsorted].
  destruct (history_drawn model describe Hdescribe sort_byTime Hsort part Ht) as (cv & rv & Hrun & Hv).
  destruct (drawPartials_spec model describe_state Hstate part cv rv Hv [] (sort_bySize ps) (∅, ∅)) as (drawn & [largest size] & Hdr & Hix & Hruns & Hl & _).
  - apply Forall_forall. intros ks Hks. rewrite Hperm in Hks. destruct (Hps ks Hks) as (es & s & Hp).
    by eapply path_allowed.
  - split; intros k; cbn; rewrite !lookup_empty; [by intros ks ?%not_elem_of_nil|done].
  - exists (mkPartitionVisualizationData (shown describe <$> part) drawn largest). split.
    + unfold drawPartition. rewrite Hrun. cbn [mbind option_bind]. change (len (@nil (list Z))) with 0 in Hdr. by rewrite Hdr.
    + split; cbn; [done| | |done|]; by rewrite Hix.
Qed.

Lemma drawAll_spec (parts done : list (list (Operation In Out))) pls :
  length pls = (length done + length parts)%nat →
  (∀ i part, parts !! i = Some part → timely part ∧
    ∃ ps, pls !! (length done + i)%nat = Some ps ∧ partials_ok model (makeEntries sort_byTime part) ps) →
  ∃ data pls', drawAll sort_bySize model (len done) (makeEntries sort_byTime <$> parts) pls = Some (data, pls') ∧
    length data = length parts ∧
    ∀ i part ps, parts !! i = Some part → pls !! (length done + i)%nat = Some ps →
      ∃ d, data !! i = Some d ∧ draws model describe describe_state part ps d.
Proof.
  revert done pls. induction parts as [|part parts IH]; intros done pls Hlen Hall; cbn.
  - by exists [], pls.
  - destruct (Hall 0%nat part eq_refl) as (Ht & ps & Hps & Hpo). rewrite Nat.add_0_r in Hps.
    assert (Hidx : idx pls (len done) = Some ps) by (apply idx_Some; unfold len; rewrite Nat2Z.id; split; [lia|done]).
    rewrite Hidx. cbn. destruct (drawPartition_spec part ps Ht Hpo) as (d & -> & Hd). cbn.
    unfold len. rewrite Nat2Z.id.
    destruct (IH (done ++ [part]) (<[length done := sort_bySize ps]> pls)) as (data & pls' & Hrun & Hl & Hdata).
    + rewrite length_insert, length_app. cbn in *. lia.
    + intros i part' Hi. destruct (Hall (S i) part' Hi) as (Ht' & ps' & Hps' & Hpo'). split; [done|]. exists ps'. split; [|done].
      rewrite length_app, list_lookup_insert_ne by (cbn; lia). rewrite <- Hps'. f_equal. cbn. lia.
    + rewrite len_snoc in Hrun. unfold len in Hrun. rewrite Hrun. cbn. exists (d :: data), pls'. split_and!; [done|cbn; by rewrite Hl|].
      intros [|i] part' ps' Hi Hps'; cbn in Hi.
      * rewrite Nat.add_0_r in Hps'. simplify_eq. by exists d.
      * apply (Hdata i part'); [done|]. rewrite length_app, list_lookup_insert_ne by (cbn; lia). rewrite <- Hps'. f_equal. cbn. lia.
Qed.
End drawing.

(** ** The claim *)
Section claim.
Context {In Out St : Type} `{EqDecision St} (model : Model In Out St).
Context (sort_byTime : list (entry In Out) → list (entry In Out)).
Context (DefaultDescribeOperation : In → Out → string) (DefaultDescribeState : St → string).
Context (fuel : nat) (kills : nat → nat → Z) (arrivals : list arrival).
Context (partition : list (Operation In Out) → list (list (Operation In Out))).
Context (sort_bySize : list (list Z) → list (list Z)).
Local Definition drawn_model : Model In Out St := fillDefault DefaultDescribeOperation DefaultDescribeState model.
Local Definition describe_of : In → Out → string := default DefaultDescribeOperation (m_DescribeOperation model).
Local Definition describe_state_of : St → string := default DefaultDescribeState (m_DescribeState model).

(** C39. [computeVisualizationData] never panics on what
    [CheckOperationsVerbose] reports, whether the search was killed or not.
    For each partition it shows every operation with its client, its interval
    and its description, the reported partial linearizations, longest first,
    with the states that the model goes through, and for each operation a
    longest one of those that include it; if the search was not killed, no
    partial linearization of the history that includes it is longer. *)
Theorem visualization_faithful ops timeout res info :
  checkable model sort_byTime DefaultDescribeOperation DefaultDescribeState fuel partition ops →
  sorts_by_size sort_bySize →
  CheckOperationsVerbose sort_byTime DefaultDescribeOperation DefaultDescribeState fuel kills arrivals model ops timeout = Some (res, info) →
  ∃ data info', computeVisualizationData DefaultDescribeOperation DefaultDescribeState sort_bySize model info = Some (data, info') ∧
    length data = length (partition ops) ∧
    ∀ i part, partition ops !! i = Some part → ∃ d ps,
      data !! i = Some d ∧ partialLinearizations info !! i = Some ps ∧
      draws drawn_model describe_of describe_state_of part ps d ∧
      ((∀ n, kills i n = 0) →
        ∀ ks es s k, path drawn_model (makeEntries sort_byTime part) (m_Init model) ks es s → k ∈ ks →
          ∃ q steps, pv_Largest d !! k = Some q ∧ idx (pv_PartialLinearizations d) q = Some steps ∧
            k ∈ indices steps ∧ len ks ≤ len steps).
Proof.
  intros Hck Hsize Hrun. unfold CheckOperationsVerbose in Hrun.
  rewrite (checkOperations_eq model sort_byTime DefaultDescribeOperation DefaultDescribeState fuel kills arrivals partition ops true timeout Hck) in Hrun.
  destruct (checkParallel_info _ (ck_equal _ _ _ _ _ _ _ Hck) fuel kills true _
    (parts_searchable model sort_byTime DefaultDescribeOperation DefaultDescribeState fuel partition ops Hck)
    arrivals timeout res info eq_refl Hrun) as (Hhist & Hlen & Hps).
  unfold parts in *. rewrite length_fmap in Hlen.
  assert (Hparts : ∀ i part, partition ops !! i = Some part → ∃ ps, partialLinearizations info !! i = Some ps ∧
      partials_ok drawn_model (makeEntries sort_byTime part) ps ∧
      ((∀ n, kills i n = 0) → partials_longest drawn_model (makeEntries sort_byTime part) ps)).
  { intros i part Hi. apply Hps. by rewrite list_lookup_fmap, Hi. }
  destruct (drawAll_spec drawn_model describe_of describe_state_of) with (sort_byTime := sort_byTime) (sort_bySize := sort_bySize)
    (parts := partition ops) (done := @nil (list (Operation In Out))) (pls := partialLinearizations info) as (data & pls' & Hdraw & Hl & Hdata).
  - unfold drawn_model, describe_of. cbn. by destruct (m_DescribeOperation model).
  - unfold drawn_model, describe_state_of. cbn. by destruct (m_DescribeState model).
  - apply Hck.
  - done.
  - done.
  - intros i part Hi. destruct (Hparts i part Hi) as (ps & Hp & Hpo & _). split; [|by exists ps].
    apply (ck_timely _ _ _ _ _ _ _ Hck). by eapply list_elem_of_lookup_2.
  - exists data, (mkInfo In Out (history info) pls'). split_and!; [|done|].
    + unfold computeVisualizationData. rewrite Hhist. fold drawn_model. change (len []) with 0 in Hdraw. by rewrite Hdraw.
    + intros i part Hi. destruct (Hparts i part Hi) as (ps & Hp & _ & Hlong). destruct (Hdata i part ps Hi Hp) as (d & Hd & Hdr).
      exists d, ps. split_and!; [done..|]. intros Hk ks es s k Hpath Hin.
      exact (longest_drawn _ _ _ _ _ _ _ _ _ _ k Hdr (Hlong Hk) Hpath Hin).
Qed.
End claim.

(** ** The picture of a register, for the witness *)

#[export] Instance longer_dec {A} (a b : list A) : Decision (longer a b).
Proof. unfold longer. apply _. Defined.
#[export] Instance longer_trans {A} : Transitive (@longer A).
Proof. intros ???. unfold longer. lia. Qed.
#[export] Instance longer_total {A} : Total (@longer A).
Proof. intros ??. unfold longer. lia. Qed.

Lemma merge_sort_sorts_by_size : sorts_by_size (merge_sort longer).
Proof. intros l. split; [apply merge_sort_Permutation|]. exact (StronglySorted_merge_sort longer l). Qed.

Module RegisterPicture.
Import Register.

Definition describe_op (i : option Z) (o : Z) : string := match i with Some _ => "write" | None => "read" end.
Definition describe_value (s : Z) : string := if s =? 0 then "zero" else "written".

(** Two writes and a read that no order explains. *)
Definition stale : list (Operation (option Z) Z) := [op (Some 1) 0 0 3; op None 2 4 5; op (Some 2) 6 0 8].

Definition stale_run : option (CheckResult * linearizationInfo (option Z) Z) :=
  CheckOperationsVerbose sort_entries describe_op describe_value (enough (len stale)) (λ _ _, 0) [Arrived 0] register stale 0.
Definition stale_info : linearizationInfo (option Z) Z := from_option snd (mkInfo (option Z) Z [] []) stale_run.

(** The search stops at the read; the write before it is the only step. *)
Example stale_picture :
  fst <$> computeVisualizationData describe_op describe_value (merge_sort longer) register stale_info =
  Some [mkPartitionVisualizationData
    [mkHistoryElement 0 0 3 "write"; mkHistoryElement 0 2 5 "read"; mkHistoryElement 0 6 8 "write"]
    [[mkLinearizationStep 0 "written"]] {[0 := 0]}].
Proof. vm_compute. reflexivity. Qed.

Lemma stale_checkable :
  checkable register sort_entries describe_op describe_value (enough (len stale)) NoPartition stale.
Proof.
  split; [exact register_equal|done|apply sort_entries_sorts|..]; intros part ->%list_elem_of_singleton; [|done].
  repeat constructor.
Qed.

Lemma visualization_faithful_witness :
  ∃ data info', computeVisualizationData describe_op describe_value (merge_sort longer) register stale_info = Some (data, info') ∧
    length data = 1%nat.
Proof.
  destruct (visualization_faithful register sort_entries describe_op describe_value (enough (len stale)) (λ _ _, 0) [Arrived 0]
    NoPartition (merge_sort longer) stale 0 Illegal stale_info stale_checkable merge_sort_sorts_by_size) as (data & info' & Hrun & Hl & _).
  - vm_compute. reflexivity.
  - exists data, info'. split; [exact Hrun|exact Hl].
Defined.
End RegisterPicture.
