(* ===== verification/PorcupineKV.v ===== *)
(** * Checking the key/value service

    [CheckOperations] with [KvModel] of models/kv.go looks at one key after the
    other; its answer is about the whole service, because linearizations of the
    keys can be merged into one of all operations. *)
From stdpp Require Import base tactics strings numbers gmap sorting list.
From S2P Require Import Prelude Bitset Porcupine PorcupineList PorcupineSearch PorcupineHistory PorcupineCheck KVModel.
Open Scope Z_scope.
Open Scope go_scope.

Definition KvOperation : Type := Operation KvInput KvOutput.
Definition kv_key (o : KvOperation) : string := ki_Key (op_Input o).

(** [models.KvModel]; the fields it does not mention are [nil]. *)
Definition kv_model : Model KvInput KvOutput string :=
  mkModel KvInput KvOutput string
    (Some (KvModel.Partition kv_key)) None KvModel.Init KvModel.Step None
    (Some KvModel.DescribeOperation) None.

(** ** The service as a whole *)

Definition call_and_answer (o : KvOperation) : KvInput * KvOutput := (op_Input o, op_Output o).

(** The operations on all keys, in an order that respects real time and is an
    execution of the service that starts empty. *)
Definition service_linearizable (ops : list KvOperation) : Prop :=
  ∃ ops' m', ops' ≡ₚ ops ∧ StronglySorted may_follow ops' ∧ kv_execution ∅ (call_and_answer <$> ops') m'.

Definition on_key (k : string) (ops : list KvOperation) : list KvOperation := filter (λ o, kv_key o = k) ops.

Implicit Types (ops : list KvOperation) (o a b : KvOperation) (m : gmap string string) (k : string).

Lemma StronglySorted_filter {A} (R : A → A → Prop) (P : A → Prop) `{∀ x, Decision (P x)} (l : list A) :
  StronglySorted R l → StronglySorted R (filter P l).
Proof.
  induction 1 as [|x l Hs IH Hall]; [constructor|]. rewrite filter_cons. case_decide; [|done].
  constructor; [done|]. by apply Forall_filter_keep.
Qed.

(** An execution of the service is one of each key. *)
Lemma execution_on_key m ops m' k :
  kv_execution m (call_and_answer <$> ops) m' → legal kv_model (map_get KvModel.Init m k) (on_key k ops).
Proof.
  revert m. induction ops as [|o ops IH]; intros m Hx; [done|].
  cbn [fmap list_fmap] in Hx. inversion Hx as [|? m1 ? ? ? ? Hs Hx']; subst.
  destruct Hs as (st' & Hstep & Hget & Hother). unfold on_key. rewrite filter_cons.
  destruct (decide (kv_key o = k)) as [<-|Hne].
  - cbn. exists st'. split; [done|]. rewrite <- Hget. by apply IH.
  - assert (Hk : map_get KvModel.Init m1 k = map_get KvModel.Init m k) by (unfold map_get; by rewrite Hother).
    rewrite <- Hk. by apply IH.
Qed.

Lemma service_on_key ops k : service_linearizable ops → linearizable kv_model (on_key k ops).
Proof.
  intros (ops' & m' & Hp & Hs & Hx). exists (on_key k ops'). split_and!.
  - unfold on_key. by rewrite Hp.
  - by apply StronglySorted_filter.
  - pose proof (execution_on_key ∅ ops' m' k Hx) as Hl. unfold map_get in Hl. by rewrite lookup_empty in Hl.
Qed.

(** The operation that returns first. *)
Lemma first_return ops : ops ≠ [] → ∃ r, r ∈ ops ∧ ∀ o, o ∈ ops → op_Return r ≤ op_Return o.
Proof.
  induction ops as [|o ops IH]; [done|]. intros _. destruct (decide (ops = [])) as [->|Hne].
  - exists o. split; [apply list_elem_of_here|]. intros x [->|Hx%not_elem_of_nil]%elem_of_cons; [lia|done].
  - destruct (IH Hne) as (r & Hr & Hmin). destruct (Z.le_gt_cases (op_Return o) (op_Return r)).
    + exists o. split; [apply list_elem_of_here|]. intros x [->|Hx%Hmin]%elem_of_cons; lia.
    + exists r. split; [by apply list_elem_of_further|]. intros x [->|Hx%Hmin]%elem_of_cons; lia.
Qed.

(** Merging: take the head of the linearization of the key whose operation
    returns first. *)
Lemma merge_keys m ops (ls : string → list KvOperation) :
  timely ops → (∀ k, ls k ≡ₚ on_key k ops) → (∀ k, StronglySorted may_follow (ls k)) →
  (∀ k, legal kv_model (map_get KvModel.Init m k) (ls k)) →
  ∃ ops' m', ops' ≡ₚ ops ∧ StronglySorted may_follow ops' ∧ kv_execution m (call_and_answer <$> ops') m'.
Proof.
  remember (length ops) as n eqn:Hn. revert m ops ls Hn.
  induction n as [|n IH]; intros m ops ls Hn Ht Hp Hs Hl.
  { destruct ops; [|done]. exists [], m. split_and!; [done|constructor|constructor]. }
  destruct (first_return ops) as (r & Hr & Hmin); [by destruct ops|].
  assert (Hrk : r ∈ ls (kv_key r)) by (rewrite Hp; by apply list_elem_of_filter).
  destruct (ls (kv_key r)) as [|h t] eqn:Els; [by apply not_elem_of_nil in Hrk|].
  pose proof (Hs (kv_key r)) as Hsr. pose proof (Hl (kv_key r)) as Hlr. pose proof (Hp (kv_key r)) as Hpr.
  rewrite Els in Hsr, Hlr, Hpr. apply StronglySorted_inv in Hsr as [Hst Hall]. destruct Hlr as (st' & Hstep & Hlt).
  assert (Hh : h ∈ ops ∧ kv_key h = kv_key r).
  { assert (Hin : h ∈ on_key (kv_key r) ops) by (rewrite <- Hpr; apply list_elem_of_here).
    by apply list_elem_of_filter in Hin as [??]. }
  destruct Hh as [Hh Hk].
  assert (Hcall : op_Call h ≤ op_Return r).
  { apply elem_of_cons in Hrk as [->|Hrt].
    - unfold timely in Ht. rewrite Forall_forall in Ht. specialize (Ht h Hh). lia.
    - rewrite Forall_forall in Hall. specialize (Hall r Hrt). unfold may_follow in Hall. lia. }
  apply elem_of_Permutation in Hh as [rest Hperm].
  destruct (IH (<[kv_key r := st']> m) rest (λ k, if decide (k = kv_key r) then t else ls k)) as (ops' & m' & Hp' & Hs' & Hx).
  - rewrite Hperm in Hn. cbn in Hn. lia.
  - unfold timely in *. rewrite Hperm in Ht. by apply Forall_cons in Ht as [_ Ht].
  - intros k. case_decide as Hkr.
    + subst k. apply (Permutation_cons_inv (a := h)). rewrite Hpr. unfold on_key. rewrite Hperm. by rewrite filter_cons_True.
    + rewrite Hp. unfold on_key. rewrite Hperm. rewrite filter_cons_False; [done|congruence].
  - intros k. by case_decide.
  - intros k. case_decide as Hkr; [subst; unfold map_get; by rewrite lookup_insert_eq|].
    unfold map_get. rewrite lookup_insert_ne by congruence. apply Hl.
  - exists (h :: ops'), m'. split_and!; [by rewrite Hp', Hperm| |].
    + constructor; [done|]. apply Forall_forall. intros x Hx'. rewrite Hp' in Hx'. unfold may_follow.
      assert (Hxo : x ∈ ops) by (rewrite Hperm; by apply list_elem_of_further). specialize (Hmin x Hxo). lia.
    + cbn [fmap list_fmap]. econstructor; [|exact Hx]. exists st'. change (ki_Key (op_Input h)) with (kv_key h). rewrite Hk. split_and!.
      * done.
      * unfold map_get. by rewrite lookup_insert_eq.
      * intros k Hne. by apply lookup_insert_ne.
Qed.

Lemma keys_service ops : timely ops → (∀ k, linearizable kv_model (on_key k ops)) → service_linearizable ops.
Proof.
  intros Ht Hk.
  set (good := λ k l, l ≡ₚ on_key k ops ∧ StronglySorted may_follow l ∧ legal kv_model KvModel.Init l).
  assert (Hls : ∃ ls, ∀ k, k ∈ kv_key <$> ops → good k (ls k)).
  { generalize (kv_key <$> ops) as ks. induction ks as [|k ks (ls & IH)].
    - exists (λ _, []). by intros k ?%not_elem_of_nil.
    - destruct (Hk k) as (l & Hl). exists (λ j, if decide (j = k) then l else ls j).
      intros j [->|Hj]%elem_of_cons; [by rewrite decide_True|]. case_decide; [by subst|by apply IH]. }
  destruct Hls as (ls & Hls).
  assert (Hempty : ∀ k, k ∉ kv_key <$> ops → on_key k ops = []).
  { intros k Hn. apply elem_of_nil_inv. intros o [Hko Ho]%list_elem_of_filter. apply Hn, list_elem_of_fmap. by exists o. }
  apply (merge_keys ∅ ops (λ k, if decide (k ∈ kv_key <$> ops) then ls k else [])); [done|..]; intros k;
    case_decide as Hin; try (destruct (Hls k Hin) as (? & ? & ?)); try done.
  - by rewrite Hempty.
  - constructor.
Qed.

(** ** The partition *)

#[local] Existing Instance KvModel.string_le_dec.

Lemma partition_in ops part : part ∈ KvModel.Partition kv_key ops ↔ ∃ k, k ∈ kv_key <$> ops ∧ part = on_key k ops.
Proof.
  unfold KvModel.Partition. rewrite list_elem_of_fmap.
  assert (Hdom : ∀ k, k ∈ merge_sort KvModel.string_le (map_to_list (KvModel.group_by_key kv_key ops)).*1 ↔ k ∈ kv_key <$> ops).
  { intros k. rewrite merge_sort_Permutation. rewrite list_elem_of_fmap, list_elem_of_fmap. split.
    - intros ([k' l] & -> & Hkl%elem_of_map_to_list). cbn.
      destruct (proj1 (group_by_key_dom kv_key ops k')) as (o & Ho & Hk); [by apply elem_of_dom_2 in Hkl|]. by exists o.
    - intros (o & -> & Ho). pose proof (proj2 (group_by_key_dom kv_key ops (kv_key o)) ltac:(by exists o)) as Hd. apply elem_of_dom in Hd as [l Hl].
      exists (kv_key o, l). split; [done|]. by apply elem_of_map_to_list. }
  split.
  - intros (k & -> & Hk%Hdom). exists k. split; [done|]. apply group_by_key_lookup.
  - intros (k & Hk & ->). exists k. split; [|by apply Hdom]. symmetry. apply group_by_key_lookup.
Qed.

Lemma timely_on_key ops k : timely ops → timely (on_key k ops).
Proof. apply Forall_filter_keep. Qed.

Lemma no_ties_on_key ops k : no_ties ops → no_ties (on_key k ops).
Proof. intros Hn a b [_ Ha]%list_elem_of_filter [_ Hb]%list_elem_of_filter. by apply Hn. Qed.

Lemma kv_model_equal describe describe_state : equal_ok (fillDefault describe describe_state kv_model).
Proof.
  exists ShallowEqual. split; [done|]. unfold ShallowEqual. intros s t Hst x o s' Hs. apply bool_decide_eq_true in Hst as ->.
  exists s'. split; [done|]. by apply bool_decide_eq_true.
Qed.

Section check.
Context (sort_byTime : list (entry KvInput KvOutput) → list (entry KvInput KvOutput)) (Hsort : sorts sort_byTime).
Context (DefaultDescribeOperation : KvInput → KvOutput → string) (DefaultDescribeState : string → string).
Context (fuel : nat) (kills : nat → nat → Z) (arrivals : list arrival).

Lemma kv_checkable ops :
  timely ops → (enough (len ops) ≤ fuel)%nat →
  checkable kv_model sort_byTime DefaultDescribeOperation DefaultDescribeState fuel (KvModel.Partition kv_key) ops.
Proof.
  intros Ht Hf. split; [apply kv_model_equal|done|done|..]; intros part (k & _ & ->)%partition_in.
  - by apply timely_on_key.
  - etrans; [|exact Hf]. apply enough_mono. unfold len, on_key.
    pose proof (length_filter (λ o, kv_key o = k) ops) as Hl. apply Nat2Z.inj_le in Hl. exact Hl.
Qed.

(** The answer for the keys is the answer for the service. *)
Lemma parts_service ops :
  timely ops → (∀ part, part ∈ KvModel.Partition kv_key ops → linearizable kv_model part) → service_linearizable ops.
Proof.
  intros Ht Hp. apply keys_service; [done|]. intros k. destruct (decide (k ∈ kv_key <$> ops)) as [Hk|Hk].
  - apply Hp, partition_in. eauto.
  - exists []. split_and!; [|constructor|done]. replace (on_key k ops) with (@nil KvOperation); [done|].
    symmetry. apply elem_of_nil_inv. intros o [Hko Ho]%list_elem_of_filter. apply Hk, list_elem_of_fmap. by exists o.
Qed.

Lemma kv_check_decides ops :
  timely ops → ops ≠ [] → (enough (len ops) ≤ fuel)%nat →
  all_sent (length (KvModel.Partition kv_key ops)) arrivals →
  scheduled kv_model sort_byTime DefaultDescribeOperation DefaultDescribeState fuel kills arrivals
    (KvModel.Partition kv_key) ops false 0 →
  ∃ r : bool, CheckOperations sort_byTime DefaultDescribeOperation DefaultDescribeState fuel kills arrivals kv_model ops = Some r ∧
    (r = true → service_linearizable ops) ∧ (no_ties ops → service_linearizable ops → r = true).
Proof.
  intros Ht Hne Hf Hall Hsd. pose proof (kv_checkable ops Ht Hf) as Hck.
  unfold CheckOperations.
  destruct (checkParallel_total _ (ck_equal _ _ _ _ _ _ _ Hck) fuel kills false _ (parts_searchable _ _ _ _ _ _ _ Hck) arrivals 0)
    as (res & info & Hrun).
  - destruct ops as [|o ops]; [done|]. unfold parts. intros Hnil.
    assert (Hin : on_key (kv_key o) (o :: ops) ∈ KvModel.Partition kv_key (o :: ops)).
    { apply partition_in. exists (kv_key o). split; [apply list_elem_of_here|done]. }
    destruct (KvModel.Partition kv_key (o :: ops)); [by apply not_elem_of_nil in Hin|done].
  - unfold parts. by rewrite length_fmap.
  - rewrite <- (checkOperations_eq kv_model sort_byTime DefaultDescribeOperation DefaultDescribeState fuel kills arrivals
      (KvModel.Partition kv_key) ops false 0 Hck) in Hrun.
    destruct (checkOperations_spec _ _ _ _ _ _ _ _ _ _ _ Hck res info Hsd Hrun) as (Hok & Hill & Hunk).
    rewrite Hrun. cbn. exists (bool_decide (res = Ok)). split_and!; [done| |].
    + intros Hb%bool_decide_eq_true. apply parts_service; auto.
    + intros Hties Hserv. apply bool_decide_eq_true. destruct res; [|done|].
      * destruct (Hunk eq_refl). lia.
      * destruct (Hill eq_refl) as (part & (k & _ & ->)%partition_in & Hn).
        { intros part (k & _ & ->)%partition_in. by apply no_ties_on_key. }
        destruct Hn. by apply service_on_key.
Qed.

(** A linearizable history is never called [Illegal]. *)
Lemma kv_check_not_illegal ops verbose timeout res info :
  timely ops → no_ties ops → (enough (len ops) ≤ fuel)%nat → service_linearizable ops →
  scheduled kv_model sort_byTime DefaultDescribeOperation DefaultDescribeState fuel kills arrivals
    (KvModel.Partition kv_key) ops verbose timeout →
  checkOperations sort_byTime DefaultDescribeOperation DefaultDescribeState fuel kills arrivals kv_model ops
    verbose timeout = Some (res, info) →
  res ≠ Illegal.
Proof.
  intros Ht Hties Hf Hserv Hsd Hrun. pose proof (kv_checkable ops Ht Hf) as Hck.
  destruct (checkOperations_spec _ _ _ _ _ _ _ _ _ _ _ Hck res info Hsd Hrun) as (_ & Hill & _).
  intros Hr. destruct (Hill Hr) as (part & (k & _ & ->)%partition_in & Hn).
  { intros part (k & _ & ->)%partition_in. by apply no_ties_on_key. }
  destruct Hn. by apply service_on_key.
Qed.

(** C36. [CheckOperations] with [KvModel] returns for every
    history that is not empty, and its answer is about the service as a whole:
    [true] means that the operations on all keys can be put in one order that
    respects real time and is an execution of the key/value service, [false]
    that they cannot, unless an operation was called at the very time at which
    another returned. *)
Theorem check_kv_correct ops :
  timely ops → ops ≠ [] → (enough (len ops) ≤ fuel)%nat →
  all_sent (length (KvModel.Partition kv_key ops)) arrivals →
  scheduled kv_model sort_byTime DefaultDescribeOperation DefaultDescribeState fuel kills arrivals
    (KvModel.Partition kv_key) ops false 0 →
  ∃ r : bool, CheckOperations sort_byTime DefaultDescribeOperation DefaultDescribeState fuel kills arrivals kv_model ops = Some r ∧
    (r = true → service_linearizable ops) ∧ (no_ties ops → service_linearizable ops → r = true).
Proof. apply kv_check_decides. Qed.

(** For a history without operations [KvModel] has no
    partitions and [CheckOperations] never returns: the loop that collects the
    results looks at their number only after one has come in.  With a time-out
    the answer is [Unknown]. *)
Theorem check_empty_hangs timeout :
  sent_once 0 arrivals →
  CheckOperations sort_byTime DefaultDescribeOperation DefaultDescribeState fuel kills arrivals kv_model [] = None ∧
  (0 < timeout → TimedOut ∈ arrivals →
    CheckOperationsTimeout sort_byTime DefaultDescribeOperation DefaultDescribeState fuel kills arrivals kv_model [] timeout = Some Unknown).
Proof.
  intros [_ Hlt].
  assert (Hno : ∀ i, Arrived i ∉ arrivals).
  { intros i Hi. assert (Hc : (i < 0)%nat); [|lia]. apply Hlt, list_elem_of_omap. by exists (Arrived i). }
  clear Hlt. split.
  - unfold CheckOperations, checkOperations. cbn. unfold checkParallel. cbn.
    induction arrivals as [|[i|] l IH]; [done| |].
    + by destruct (Hno i (list_elem_of_here _ _)).
    + cbn. apply IH. intros i Hi. by apply (Hno i), list_elem_of_further.
  - intros Ht Hin. unfold CheckOperationsTimeout, checkOperations. cbn. unfold checkParallel. cbn.
    apply Z.ltb_lt in Ht. rewrite Ht. destruct arrivals as [|[i|] l]; [by apply not_elem_of_nil in Hin| |done].
    by destruct (Hno i (list_elem_of_here _ _)).
Qed.
End check.

(** ** Witnesses *)
Module KVHistory.

Definition op (kind : Z) (key value : string) (c : Z) (out : string) (r : Z) : KvOperation :=
  mkOperation KvInput KvOutput 0 (mkKvInput kind key value) c (mkKvOutput out) r.

(** Two keys; the read of ["x"] sees an append that overlaps it. *)
Definition two_keys : list KvOperation :=
  [op 1 "x" "a" 0 "" 3; op 2 "x" "b" 4 "" 11; op 0 "x" "" 5 "ab" 8; op 0 "y" "" 6 "" 9].

Definition describe (i : KvInput) (o : KvOutput) : string := "".
Definition describe_state (s : string) : string := "".

Lemma two_keys_timely : timely two_keys.
Proof. repeat constructor. Qed.

(** The goroutine of the second key is done first. *)
Lemma two_keys_scheduled :
  scheduled kv_model sort_entries describe describe_state (enough (len two_keys)) (λ _ _, 0) [Arrived 1; Arrived 0]
    (KvModel.Partition kv_key) two_keys false 0.
Proof.
  split; [|by intros outs _ taken i rest _ _ k]. 
  replace (length (parts _ _ _)) with 2%nat by (vm_compute; reflexivity). split.
  - cbn. apply NoDup_cons. split; [|apply NoDup_singleton]. by intros [=]%list_elem_of_singleton.
  - intros i. cbn. rewrite !elem_of_cons. intros [-> | [-> | Hi]]; [lia|lia|by apply not_elem_of_nil in Hi].
Qed.

Lemma check_kv_correct_witness :
  ∃ r : bool, CheckOperations sort_entries describe describe_state (enough (len two_keys)) (λ _ _, 0) [Arrived 1; Arrived 0] kv_model two_keys = Some r ∧
    (r = true → service_linearizable two_keys) ∧ (no_ties two_keys → service_linearizable two_keys → r = true).
Proof.
  apply (check_kv_correct sort_entries sort_entries_sorts describe describe_state (enough (len two_keys)) (λ _ _, 0) [Arrived 1; Arrived 0]
    two_keys two_keys_timely); [discriminate|apply Nat.le_refl| |exact two_keys_scheduled].
  replace (length _) with 2%nat by (vm_compute; reflexivity). apply perm_swap.
Defined.

Lemma check_empty_hangs_witness :
  CheckOperations sort_entries describe describe_state 5 (λ _ _, 0) [TimedOut] kv_model [] = None ∧
  (0 < 7 → TimedOut ∈ [TimedOut] →
    CheckOperationsTimeout sort_entries describe describe_state 5 (λ _ _, 0) [TimedOut] kv_model [] 7 = Some Unknown).
Proof.
  apply (check_empty_hangs sort_entries describe describe_state 5 (λ _ _, 0) [TimedOut] 7). split.
  - constructor.
  - intros i Hi. by apply not_elem_of_nil in Hi.
Defined.
End KVHistory.
