(* ===== verification/KVCluster.v ===== *)
(** * The replicated key/value service

    The clerks, commands and servers of the key/value service as the instances
    of [Clerks], [Commands] and [Server], and that they keep the contract
    [ServerLaws]: a server has the state after the commands it has received,
    and what a handler answers is the result of its request at the position
    where the log holds it.  The servers run with [maxraftstate == -1]. *)
From stdpp Require Import base tactics strings numbers relations sets gmap list.
From S2P Require Import Prelude.
From S2P Require Import Labgob.
From S2P Require Import Persister.
From S2P Require Import Raft.
From S2P Require Import Commands.
From S2P Require Import Clerks.
From S2P Require Import Service.
From S2P Require Import KVModel.
From S2P Require Import KVServer.
From S2P Require Import KVStateMachine.
From S2P Require Import KVHandlers.
From S2P Require Import KVClerk.
Open Scope Z_scope.
Open Scope go_scope.

(** ** Clerks *)

(** A method of the clerk and its arguments. *)
Inductive Method := MGet (key : string) | MPut (key value : string) | MAppend (key value : string).

(** The arguments the clerk sends: its next request number. *)
Definition method_call (m : Method) (ck : Clerk) : Call :=
  match m with
  | MGet key => CGet (mkGetArgs key (clientID ck) (nextReqID ck))
  | MPut key value => CPutAppend (mkPAArgs key value "Put" (clientID ck) (nextReqID ck))
  | MAppend key value => CPutAppend (mkPAArgs key value "Append" (clientID ck) (nextReqID ck))
  end.

(** What the method returns on a reply; [Put] and [Append] return nothing. *)
Definition method_value (c : Call) (r : Reply) : string :=
  match c with CGet _ => reply_Value r | CPutAppend _ => "" end.

(** ** The specification *)

(** The step of the model of the command's key. *)
Definition kv_step (op : Op) (m : gmap string string) : gmap string string * string :=
  let st := map_get KvModel.Init m (Key op) in
  if is_write op then (<[Key op := (KvModel.Step st (to_input op) (mkKvOutput "")).2]> m, "")
  else (m, if decide (OpType op = "Get") then st else "").

#[export] Program Instance kv_commands : Commands Op (gmap string string) string := {|
  op_client := ClientID;
  op_request := RequestID;
  changes := is_write;
  spec_init := ∅;
  spec_step := kv_step;
  no_answer := ""
|}.
Next Obligation. intros op st H. unfold kv_step. by rewrite H. Qed.
Next Obligation. intros op st H. unfold kv_step. by rewrite H. Qed.

#[export] Program Instance kv_clerks : Clerks Method Clerk Call := {|
  command := call_op;
  make_call := method_call;
  ck_id := clientID;
  ck_next := nextReqID;
  ck_called ck := ck <| nextReqID ::= Z.succ |>
|}.
Next Obligation. by intros []. Qed.
Next Obligation. by intros []. Qed.
Next Obligation. done. Qed.
Next Obligation. intros ck. cbn. lia. Qed.

(** ** Servers *)

Definition no_snapshots : Z := -1.

(** The server with its peer. *)
Definition with_raft (rf : Raft Op KVSnapshot) (w : World) : World :=
  mkWorld ((w_kv w) <| kv_rf := rf |>) (w_handlers w) (w_applier w) (w_log w).

(** Where a handler stands after [Start]. *)
Definition handler_begun (c : Call) (r : Reply + Z * Z) : Handler :=
  match r with inl r => HReturned c None r | inr (index, term) => HStarted c index term end.

Definition kv_receive (rf : Raft Op KVSnapshot) (m : ApplyMsg Op KVSnapshot) (w w' : World) : Prop :=
  ∃ kv' res ch, w_applier w = AIdle ∧ CommandValid m = true ∧
    applier_command m (w_kv (with_raft rf w)) = Some (kv', res, ch) ∧
    w' = mkWorld kv' (w_handlers w) (ADeliver ch res (CommandIndex m))
           (w_log w ++ [EApplied (CommandIndex m) (res_Op res)]).
Definition kv_call (rf : Raft Op KVSnapshot) (c : Call) (w w' : World) : Prop :=
  ∃ kv' r, handler_start c (w_kv (with_raft rf w)) = (kv', r) ∧
    w' = mkWorld kv' (w_handlers w ++ [handler_begun c r]) (w_applier w) (w_log w).
(** The steps of a server that receives nothing and starts no handler. *)
Definition kv_serve (rf : Raft Op KVSnapshot) (w w' : World) : Prop :=
  ∃ raft_bytes, w_step raft_bytes (with_raft rf w) w' ∧ w_log w' = w_log w ∧
    length (w_handlers w') = length (w_handlers w) ∧ kv_rf (w_kv w') = rf.

#[export] Instance kv_server : Server World Reply KVSnapshot := {|
  sv_start npeers i ps := kv ← StartKVServer npeers i no_snapshots ps; Some (mkWorld kv [] AIdle []);
  sv_receive := kv_receive;
  sv_call := kv_call;
  sv_serve := kv_serve;
  sv_reply w c r := ∃ index, HReturned c index r ∈ w_handlers w;
  accepted c r := if decide (reply_Err r = OK) then Some (method_value c r) else None
|}.

(** ** The contract *)

Implicit Types (w : World) (L l : list Op) (kv : KVServer) (rf : Raft Op KVSnapshot).

Definition no_data : Maps := (∅, ∅).

(** The history of a server that has applied these commands. *)
Definition applied_log l : list Event := imap (λ j op, EApplied (Z.of_nat j + 1) op) l.

Record applied w l : Prop := {
  ap_world : ∃ own, w_inv no_data own w;
  ap_max : maxraftstate (w_kv w) = no_snapshots;
  ap_log : w_log w = applied_log l
}.

Lemma with_raft_inv d own rf w : w_inv d own (with_raft rf w) ↔ w_inv d own w.
Proof. split; intros [? ? ? ? ? ? ?]; by constructor. Qed.

Lemma offer_max ch res kv : maxraftstate (offer ch res kv) = maxraftstate kv.
Proof. unfold offer. by repeat case_match. Qed.

Lemma w_step_max raft_bytes w w' : w_step raft_bytes w w' → maxraftstate (w_kv w') = maxraftstate (w_kv w).
Proof.
  destruct 1 as [c kv kv' r hs a log H|c kv kv' i t hs a log H|k c i t kv kv' ch hs a log Hk H
    |k c i t ch kv kv' res hs a log Hk H|k c i t ch kv r hs a log Hk H|k c i r kv hs a log Hk
    |msg kv kv' res ch hs log Hm H|ch res i kv hs log|i kv hs log|msg kv kv' hs log Hm Hs H
    |s kv hs a log Hs]; cbn; try done.
  - unfold handler_start in H. repeat case_match; by simplify_eq.
  - unfold handler_start in H. repeat case_match; by simplify_eq.
  - unfold getNotifyCh, make_chan in H. repeat case_match; simplify_eq/=; by rewrite ?offer_max.
  - unfold receive in H. repeat case_match; by simplify_eq.
  - unfold applier_command in H. destruct (Command msg) as [|op]; [done|].
    destruct (applyOp_rest op kv) as (_ & _ & _ & _ & Em & _). destruct (applyOp op kv).
    by simplify_eq/=.
  - destruct ch; cbn; by rewrite ?offer_max.
  - unfold maybeSnapshot. repeat case_if; done.
  - unfold applier_snapshot, restoreSnapshot in H. repeat case_match; by simplify_eq/=.
Qed.

Lemma applied_step raft_bytes rf w w' l l' :
  applied w l → w_step raft_bytes (with_raft rf w) w' → w_log w' = applied_log l' → applied w' l'.
Proof.
  intros [(own & Hw) Hm Hlog] Hs Hlog'. split; [|by rewrite (w_step_max _ _ _ Hs)|done].
  eapply w_step_inv; [exact Hs|by apply with_raft_inv].
Qed.

Lemma handler_begun_step raft_bytes c w kv' r :
  handler_start c (w_kv w) = (kv', r) →
  w_step raft_bytes w (mkWorld kv' (w_handlers w ++ [handler_begun c r]) (w_applier w) (w_log w)).
Proof.
  destruct w as [kv hs a log]. cbn. intros H. destruct r as [r|[ix t]]; cbn.
  - by apply w_refused.
  - by apply w_call.
Qed.

Definition no_bytes (gobs : list (RaftGob Op)) : Z := 0.

Lemma kv_start_applied npeers i ps w :
  ReadSnapshot ps = [] → sv_start npeers i ps = Some w → applied w [].
Proof.
  intros Hsn (kv & Hst & [= <-])%bind_Some. destruct (StartKVServer_data _ _ _ _ _ Hst) as [_ Hd]. rewrite Hsn in Hd.
  split; [|unfold StartKVServer in Hst; rewrite Hsn in Hst; by injection Hst as <-|done].
  exists []. change no_data with (replay []). rewrite <- Hd.
  apply (w_start_inv (mkWorld kv [] AIdle [])). by exists npeers, i, no_snapshots, ps, kv.
Qed.

Lemma kv_receive_applied rf m op w w' l :
  applied w l → Command m = AOp op → CommandIndex m = len l + 1 → kv_receive rf m w w' → applied w' (l ++ [op]).
Proof.
  intros Ha Hop Hi (kv' & res & ch & Hidle & Hv & Hc & ->).
  apply (applied_step no_bytes rf w _ l); [done| |].
  - unfold with_raft. rewrite Hidle. by apply w_command.
  - cbn. rewrite (ap_log _ _ Ha). unfold applied_log. rewrite imap_app. cbn. do 3 f_equal.
    + unfold len in Hi. lia.
    + unfold applier_command in Hc. rewrite Hop in Hc. destruct (applyOp op _). by simplify_eq/=.
Qed.

Lemma kv_call_applied rf c w w' l : applied w l → kv_call rf c w w' → applied w' l.
Proof.
  intros Ha (kv' & r & Hst & ->). apply (applied_step no_bytes rf w _ l); [done| |apply (ap_log _ _ Ha)].
  by apply (handler_begun_step no_bytes c (with_raft rf w) kv' r).
Qed.

Lemma kv_serve_applied rf w w' l : applied w l → kv_serve rf w w' → applied w' l.
Proof.
  intros Ha (rb & Hs & Hlog & _). eapply applied_step; [done|exact Hs|]. rewrite Hlog. apply (ap_log _ _ Ha).
Qed.

(** ** What an answer means *)

(** The call is in the list at this position, and the value is the result of
    executing the list up to there. *)
Definition answered_at L (c : Call) (v : string) (k : nat) : Prop :=
  L !! k = Some (call_op c) ∧
  v = match c with
      | CGet args => map_get "" (replay (take k L)).1 (ga_Key args)
      | CPutAppend _ => ""
      end.

Lemma kv_answered_prefix L L' c v k :
  L `prefix_of` L' → answered_at L c v k → answered_at L' c v k.
Proof.
  intros HL [Hk Hv]. split; [by eapply prefix_lookup_Some|].
  destruct HL as [l ->]. pose proof (lookup_lt_Some _ _ _ Hk). by rewrite take_app_le by lia.
Qed.

Lemma maps_after_replay L (f : nat → Op → Event) :
  (∀ j op, ∃ i, f j op = EApplied i op) → maps_after no_data (imap f L) = replay L.
Proof.
  intros Hf. induction L as [|op L IH] using rev_ind; [done|].
  rewrite imap_app. unfold maps_after in *. rewrite foldl_app, IH. cbn.
  destruct (Hf (length L + 0)%nat op) as [i ->]. cbn. apply replay_snoc. by destruct (replay L).
Qed.

Lemma applied_data w l : applied w l → data (w_kv w) = replay l.
Proof. intros [(own & Hw) _ Hlog]. rewrite (wi_data _ _ _ Hw), Hlog. apply maps_after_replay. eauto. Qed.

Lemma take_imap {A B} (f : nat → A → B) (l : list A) n : take n (imap f l) = imap f (take n l).
Proof.
  revert f n. induction l as [|x l IH]; intros f [|n]; cbn; [done..|]. f_equal. apply IH.
Qed.

(** What was applied at some moment is in the list, and the state before it is
    that after the list up to there. *)
Lemma applied_happened l log1 log2 index op :
  applied_log l = log1 ++ EApplied index op :: log2 →
  l !! length log1 = Some op ∧ maps_after no_data log1 = replay (take (length log1) l).
Proof.
  unfold applied_log. intros Hsplit. split.
  - apply (f_equal (λ x, x !! length log1)) in Hsplit.
    rewrite list_lookup_imap, list_lookup_middle in Hsplit by done.
    destruct (l !! _) as [op'|]; [|done]. by injection Hsplit as _ ->.
  - apply (f_equal (take (length log1))) in Hsplit. rewrite take_app_length, take_imap in Hsplit.
    rewrite <- Hsplit at 1. apply maps_after_replay. eauto.
Qed.

Lemma kv_reply_answered w c r v l :
  applied w l → sv_reply w c r → accepted c r = Some v → ∃ k, answered_at l c v k.
Proof.
  intros [(own & Hw) _ Hlog] (index & Hin) Hacc. cbn in Hacc. case_decide as Hok; [|done]. injection Hacc as <-.
  pose proof (wi_handlers _ _ _ Hw _ Hin) as Hh. destruct index as [i|]; [|done].
  destruct (Hh Hok) as (res & (log1 & log2 & Hsplit & Hv) & Hop & Hval). rewrite Hlog in Hsplit.
  destruct (applied_happened _ _ _ _ _ Hsplit) as [HL E]. exists (length log1). rewrite Hop in HL. split; [done|].
  destruct c as [args|]; [|done]. cbn [method_value]. by rewrite Hval, Hv, Hop, E.
Qed.

(** The map a server has after a log is that of the specification. *)
Lemma run_log_foldl L kv : (run_log L kv).1 = foldl (flip (λ op kv, (applyOp op kv).1)) kv L.
Proof.
  revert kv. induction L as [|op L IH]; intros kv; cbn; [done|]. rewrite <- IH.
  destruct (applyOp op kv) as [kv1 v]. cbn. by destruct (run_log L kv1).
Qed.

Lemma kv_replay_step seen kv op :
  table_ok seen kv → valid_op op = true → (is_write op = true → newer seen op) →
  kvStore (applyOp op kv).1 = (replay_step (seen, kvStore kv) op).2 ∧
  table_ok (replay_step (seen, kvStore kv) op).1 (applyOp op kv).1.
Proof.
  intros Ht Hv Hn. pose proof (applyOp_step seen op kv Ht Hv Hn) as Hs. unfold replay_step. cbn -[is_write].
  change (ident op) with (op_id op). destruct (applyOp op kv) as [kv' v] eqn:E. cbn in Hs |- *. destruct Hs as [Htab Hmap].
  destruct (is_write op) eqn:Hw; cbn in *.
  - case_bool_decide as Hin; cbn in *.
    + split; [done|]. by rewrite (proj1 (subseteq_union_L _ _)) in Htab by set_solver.
    + split; [|done]. unfold kv_step. rewrite Hw. cbn. unfold applyOp in E.
      rewrite (shouldApply_spec seen) in E by (try done; by apply Hn). fold (op_id op) in E.
      rewrite bool_decide_false in E by done. cbn in E. unfold to_input, KvModel.Step. cbn.
      destruct (decide (OpType op = "Get")) as [Hg|Hg]; [by rewrite (is_write_false op) in Hw by by left|].
      destruct (decide (OpType op = "Put")) as [Hp|Hp]; [by simplify_eq/=|].
      rewrite decide_True in E by (by apply is_write_append). by simplify_eq/=.
  - split; [|done]. unfold kv_step. rewrite Hw. cbn.
    unfold valid_op in Hv. rewrite Hw, orb_false_r in Hv. apply bool_decide_eq_true in Hv.
    unfold applyOp in E. rewrite decide_True in E by done. by simplify_eq/=.
Qed.

Lemma clerk_call_valid c : clerk_call (λ _, True) c → valid_op (call_op c) = true.
Proof. intros (m & ck & _ & ->). by destruct m. Qed.

Lemma replay_spec L : in_order L → from_clerks (λ _, True) L → (replay L).1 = (replayed L).2.
Proof.
  intros Ho Hv. unfold replay. rewrite run_log_foldl.
  eapply (replay_simulates (λ op kv, (applyOp op kv).1) (λ seen m kv, kvStore kv = m ∧ table_ok seen kv)
    (λ op, valid_op op = true) (fresh 1 0 0) L); [| | |done].
  - split; [done|]. intros c. change (lastAppliedReq (fresh 1 0 0)) with (∅ : gmap Z Z). rewrite lookup_empty.
    by intros r ?%not_elem_of_empty.
  - intros seen m kv op [<- Ht] Hop Hn. by apply kv_replay_step.
  - eapply Forall_impl; [exact Hv|]. intros op (c & Hc & ->). by apply clerk_call_valid.
Qed.

Lemma kv_answered_value L c v k :
  in_order L → from_clerks (λ _, True) L → clerk_call (λ _, True) c → answered_at L c v k →
  v = (kv_step (call_op c) (state_at L k)).2.
Proof.
  intros Ho Hv (m & ck & _ & ->) [_ ->]. unfold state_at.
  rewrite <- replay_spec; [|by apply in_order_take|by apply Forall_take]. by destruct m.
Qed.

#[local] Obligation Tactic := idtac.
#[export] Program Instance kv_laws : ServerLaws World Reply KVSnapshot := {|
  allowed _ := True;
  sv_ok := applied;
  Service.answered := answered_at
|}.
Next Obligation. eauto using kv_start_applied. Qed.
Next Obligation. intros rf m op w w' l ? _. apply kv_receive_applied; done. Qed.
Next Obligation. eauto using kv_call_applied. Qed.
Next Obligation. eauto using kv_serve_applied. Qed.
Next Obligation. eauto using kv_reply_answered. Qed.
Next Obligation. eauto using kv_answered_prefix. Qed.
Next Obligation. intros L c v k [Hk _]. by exists (call_op c). Qed.
Next Obligation. eauto using kv_answered_value. Qed.
