(* ===== verification/KVLinear.v ===== *)
(** * The key/value service is linearizable

    What Service.v shows of every service that keeps its contract, for the
    key/value service of KVCluster.v: its histories are linearizable with
    respect to the specification of KVModel.v, the checker the tests run agrees,
    and the servers are replicas.  Then a run. *)
From stdpp Require Import base tactics strings numbers relations sets gmap sorting list.
From S2P Require Import Prelude.
From S2P Require Import Labgob.
From S2P Require Import Persister.
From S2P Require Import Raft.
From S2P Require Import RaftApply.
From S2P Require Import RaftCluster.
From S2P Require Import Commands.
From S2P Require Import Clerks.
From S2P Require Import Service.
From S2P Require Import KVModel.
From S2P Require Import KVServer.
From S2P Require Import KVStateMachine.
From S2P Require Import KVHandlers.
From S2P Require Import KVClerk.
From S2P Require Import Porcupine.
From S2P Require Import PorcupineSearch.
From S2P Require Import PorcupineHistory.
From S2P Require Import PorcupineCheck.
From S2P Require Import PorcupineKV.
From S2P Require Import KVCluster.
Open Scope Z_scope.
Open Scope go_scope.

Definition KVSystem : Type := System (W:=World) (Reply:=Reply) (SV:=KVSnapshot) (Ck:=Clerk) (Call:=Call)
  (Op:=Op) (Ans:=string).

(** The record the tests keep of an operation. *)
Definition operation_of (d : Done Call string) : KvOperation :=
  let op := call_op (d_call d) in
  mkOperation _ _ (ClientID op) (to_input op) (d_start d) (mkKvOutput (d_value d)) (d_end d).
Definition history (s : KVSystem) : list KvOperation := operation_of <$> done s.

(** The service with these servers and clerks: its steps and its start. *)
Definition kv_sys_step (N : Z) : KVSystem → KVSystem → Prop := sy_step N allowed.
Definition kv_sys_init (N nservers : Z) (ids : gset Z) : KVSystem := sy_init N (MakeClerk nservers) ids.

Section linear.
Context (N : Z) (HN : 0 ≤ N).
Implicit Types (s : KVSystem) (d : Done Call string) (ds : list (Done Call string)) (L : list Op).

Lemma kv_system_inv nservers ids s :
  rtc (kv_sys_step N) (kv_sys_init N nservers ids) s → ∃ L, sys_inv N L s.
Proof. by apply sy_reachable_inv. Qed.

(** The steps of the specification are those of the model. *)
Lemma kv_step_spec op m m' v :
  valid_op op = true → kv_step op m = (m', v) → kv_spec m m' (to_input op) (mkKvOutput v).
Proof.
  unfold kv_step, kv_spec, valid_op. intros Hv. destruct (is_write op) eqn:Hw; intros [= <- <-].
  - eexists. split; [|split; [unfold map_get; rewrite lookup_insert_eq; cbn; reflexivity|]].
    + unfold KvModel.Step, to_input. cbn.
      destruct (decide (OpType op = "Get")); [by rewrite (is_write_false op) in Hw by by left|].
      by destruct (decide (OpType op = "Put")).
    + intros k Hk. by rewrite lookup_insert_ne.
  - rewrite orb_false_r in Hv. apply bool_decide_eq_true in Hv. rewrite decide_True by done.
    unfold KvModel.Step, to_input. cbn. rewrite decide_True by done. cbn. eexists. by rewrite bool_decide_eq_true_2.
Qed.

Lemma executes_kv m ds m' :
  Forall (λ d, valid_op (call_op (d_call d)) = true) ds → executes call_op m ds m' →
  kv_execution m (call_and_answer <$> (operation_of <$> ds)) m'.
Proof.
  intros Hv H. induction H as [|m m1 m2 d ds Hs _ IH]; [constructor|].
  apply Forall_cons in Hv as [Hd Hv]. cbn. econstructor; [by apply kv_step_spec|by apply IH].
Qed.

Lemma linearizes_kv ds :
  Forall (λ d, valid_op (call_op (d_call d)) = true) ds → linearizes call_op ds →
  service_linearizable (operation_of <$> ds).
Proof.
  intros Hv (ds' & m & Hp & Hs & Hx). exists (operation_of <$> ds'), m. split_and!.
  - by rewrite Hp.
  - clear Hp Hx. induction Hs as [|d l Hl IH Hd]; cbn; constructor; [done|].
    apply Forall_fmap. eapply Forall_impl; [exact Hd|]. done.
  - apply executes_kv; [by rewrite Hp|done].
Qed.

Lemma history_linearizable L s :
  sys_inv N L s → ∃ more, more `sublist_of` waiting (sy_clients s) ∧
    service_linearizable (history s ++ (operation_of ∘ later (now s) <$> more)).
Proof.
  intros Hinv. destruct (sys_linearizable _ _ _ Hinv) as (more & Hsub & Hl). exists more. split; [done|].
  unfold history. rewrite list_fmap_compose, <- fmap_app. apply linearizes_kv; [|done].
  destruct Hinv as (_ & g & Hc). apply Forall_app. split.
  - apply Forall_forall. intros d Hd. by eapply clerk_call_valid, done_clerk_call.
  - apply Forall_fmap, Forall_forall. intros [c t] Hx. cbn. eapply clerk_call_valid, waiting_clerk_call; [done|].
    eapply elem_of_submseteq; [exact Hx|by apply sublist_submseteq].
Qed.

Lemma history_timely L s : sys_inv N L s → timely (history s) ∧ no_ties (history s).
Proof.
  intros (_ & g & Hc). split.
  - apply Forall_fmap, Forall_forall. intros d Hd. cbn. by destruct (done_timely _ _ _ _ _ d d Hc Hd Hd).
  - intros a b (d & -> & Hd)%list_elem_of_fmap (d' & -> & Hd')%list_elem_of_fmap. cbn.
    by destruct (done_timely _ _ _ _ _ d d' Hc Hd Hd').
Qed.

(** C1. The key/value service is linearizable.  Whatever the
    network loses, delays, repeats or reorders, however the peers elect leaders
    and crash and restart, and whichever clerks call what, at every moment the
    operations that have returned, with some of those that clerks still wait
    for taken as returning now, can be put in one order that respects real time
    and is an execution of the specification. *)
Theorem kvraft_linearizable nservers ids s :
  rtc (kv_sys_step N) (kv_sys_init N nservers ids) s →
  ∃ more, more `sublist_of` waiting (sy_clients s) ∧
    service_linearizable (history s ++ (operation_of ∘ later (now s) <$> more)).
Proof. intros (L & Hinv)%kv_system_inv. by eapply history_linearizable. Qed.

(** C2. The tests of the service pass their check: when no clerk
    waits any more, the checker does not call the history of a run [Illegal],
    whatever its time-out and the order of its goroutines, and without a
    time-out it answers [true]. *)
Theorem kvraft_checked nservers ids s sort_byTime describe describe_state fuel kills arrivals :
  rtc (kv_sys_step N) (kv_sys_init N nservers ids) s → waiting (sy_clients s) = [] →
  sorts sort_byTime → (enough (len (history s)) ≤ fuel)%nat →
  (∀ timeout res info,
    scheduled kv_model sort_byTime describe describe_state fuel kills arrivals
      (KvModel.Partition kv_key) (history s) true timeout →
    CheckOperationsVerbose sort_byTime describe describe_state fuel kills arrivals kv_model
      (history s) timeout = Some (res, info) → res ≠ Illegal) ∧
  (history s ≠ [] → all_sent (length (KvModel.Partition kv_key (history s))) arrivals →
    scheduled kv_model sort_byTime describe describe_state fuel kills arrivals
      (KvModel.Partition kv_key) (history s) false 0 →
    CheckOperations sort_byTime describe describe_state fuel kills arrivals kv_model
      (history s) = Some true).
Proof.
  intros (L & Hinv)%kv_system_inv Hw Hsort Hf.
  assert (service_linearizable (history s)) as Hl.
  { destruct (history_linearizable _ _ Hinv) as (more & Hsub & Hl). rewrite Hw in Hsub.
    apply sublist_nil_r in Hsub as ->. by rewrite fmap_nil, app_nil_r in Hl. }
  destruct (history_timely _ _ Hinv) as [Ht Hn]. split.
  - intros timeout res info Hsd Hrun. by eapply kv_check_not_illegal.
  - intros Hne Hall Hsd.
    by destruct (kv_check_decides _ Hsort _ _ _ _ _ _ Ht Hne Hf Hall Hsd) as (r & -> & _ & ->).
Qed.

(** C3. The servers are replicas of one state machine: at every
    moment there is one list of commands, all of them calls that clerks made,
    such that every server has the state after as many of them as it has
    applied, and the next command a peer hands to its server does not make it
    panic. *)
Theorem kvraft_one_log nservers ids s :
  rtc (kv_sys_step N) (kv_sys_init N nservers ids) s →
  ∃ L, Forall (sent_op (sy_clients s)) L ∧
    ∀ i rf w, nodes (sy_raft s) !! i = Some rf → sy_servers s !! i = Some w →
    (length (w_log w) ≤ length L)%nat ∧ data (w_kv w) = replay (take (length (w_log w)) L) ∧
    ∀ m ms (last : Z), sy_sending s !! i = Some (m :: ms, last) → is_Some (applier_command m (w_kv (with_raft rf w))).
Proof.
  intros (L & Hinv)%kv_system_inv. exists L. split; [by apply (sys_log N L s)|]. intros i rf w Hi Hw.
  destruct (sys_server _ _ _ _ _ _ _ Hinv Hi Hw eq_refl) as (l & [l' ->] & Hok & _).
  change (applied w l) in Hok. pose proof (f_equal length (ap_log _ _ Hok)) as Hlen. unfold applied_log in Hlen.
  rewrite length_imap in Hlen. rewrite Hlen, take_app_length. split_and!.
  - rewrite length_app. lia.
  - by apply applied_data.
  - intros m ms last Hs. destruct (sys_server _ _ _ _ _ _ _ Hinv Hi Hw Hs) as (l1 & _ & _ & op & _ & Hop & _).
    unfold applier_command. rewrite Hop. by destruct (applyOp op _).
Qed.
End linear.

(** ** A run

    Peer 0 of three is elected with the vote of peer 1; a clerk puts a value,
    the leader replicates it to peer 1, commits and applies it and answers. *)
Definition put_call : Call := method_call (MPut "x" "1") (MakeClerk 3 77).

Lemma serve_by rf w w1 w' :
  with_raft rf w = w1 → w_step no_bytes w1 w' → w_log w' = w_log w →
  length (w_handlers w') = length (w_handlers w) → kv_rf (w_kv w') = rf → kv_serve rf w w'.
Proof. intros <- ????. by exists no_bytes. Qed.

Tactic Notation "peers_step" uconstr(rule) :=
  run (eapply sy_peers; [eapply rule; [by_computing..]|by_computing]).
Tactic Notation "serve_step" uconstr(rule) :=
  run (eapply (sy_serve _ _ _ 0); [by_computing|by_computing|
    eapply serve_by; [by_computing|eapply rule; [by_computing..]|by_computing..]]).

Lemma put_run :
  ∃ s, rtc (kv_sys_step 3) (kv_sys_init 3 3 {[77]}) s ∧ waiting (sy_clients s) = [] ∧
    history s = [mkOperation _ _ 77 (mkKvInput 1 "x" "1") 1 (mkKvOutput "") 2] ∧
    bool_decide (is_Some (nodes (sy_raft s) !! 0)) = true ∧
    match sy_servers s !! 0 with Some w => w_log w = [EApplied 1 (call_op put_call)] | None => False end.
Proof.
  eexists. split; [unfold kv_sys_step|].
  - run (eapply (sy_invoke _ _ _ 77 _ (MPut "x" "1") 1); [by_computing|by_computing|exact I]).
    peers_step (cl_tick 3 _ 0).
    peers_step (cl_election 3 _ 0).
    peers_step (cl_vote_call 3 _ 1).
    peers_step (cl_vote_handle 3 _ 1).
    peers_step (cl_vote_reply 3 _ 1).
    peers_step (cl_vote_count 3 _ 1).
    run (eapply (sy_call _ _ _ 0 put_call 1); [by_computing|by_computing|by_computing
      |do 2 eexists; split; [by_computing..]|apply cl_start; [by_computing..]]).
    serve_step (w_channel _ 0).
    peers_step (cl_broadcast 3 _ 1).
    peers_step (cl_replicate 3 _ 4).
    peers_step (cl_app_handle 3 _ 4).
    peers_step (cl_app_reply 3 _ 4).
    run (eapply (sy_apply _ _ _ 0); [by_computing|by_computing|by_computing
      |do 3 eexists; split_and!; [by_computing..]]).
    serve_step (w_deliver _).
    serve_step (w_maybe _).
    serve_step (w_receive _ 0).
    serve_step (w_leave _ 0).
    run (eapply (sy_reply _ _ _ 0 _ _ put_call (RPutAppend (mkPAReply OK)));
      [by_computing|by_computing|exists (Some 1); by_computing]).
    run (eapply (sy_return _ _ _ 77 _ put_call 1 (RPutAppend (mkPAReply OK)) "" 2); [by_computing..]).
    apply rtc_refl.
  - split_and!; vm_compute; reflexivity.
Qed.

Lemma three_servers : 0 ≤ 3.
Proof. done. Qed.

Lemma kvraft_linearizable_witness :
  ∃ s, history s = [mkOperation _ _ 77 (mkKvInput 1 "x" "1") 1 (mkKvOutput "") 2] ∧
    ∃ more, more `sublist_of` waiting (sy_clients s) ∧
      service_linearizable (history s ++ (operation_of ∘ later (now s) <$> more)).
Proof.
  destruct put_run as (s & Hs & _ & Hh & _). exists s. split; [exact Hh|].
  exact (kvraft_linearizable 3 three_servers 3 {[77]} s Hs).
Defined.

Lemma kvraft_checked_witness :
  ∃ s, waiting (sy_clients s) = [] ∧ history s ≠ [] ∧
    CheckOperations sort_entries KVHistory.describe KVHistory.describe_state (enough 1) (λ _ _, 0)
      [Arrived 0] kv_model (history s) = Some true.
Proof.
  destruct put_run as (s & Hs & Hw & Hh & _). exists s. split; [exact Hw|].
  assert (history s ≠ []) as Hne by (rewrite Hh; discriminate). split; [exact Hne|].
  assert (enough (len (history s)) ≤ enough 1)%nat as Hf by (rewrite Hh; apply Nat.le_refl).
  destruct (kvraft_checked 3 three_servers 3 {[77]} s sort_entries KVHistory.describe
    KVHistory.describe_state (enough 1) (λ _ _, 0) [Arrived 0] Hs Hw sort_entries_sorts Hf) as [_ H].
  apply (H Hne); rewrite Hh; clear.
  - replace (length _) with 1%nat by (vm_compute; reflexivity). apply Permutation_refl.
  - split; [|by intros outs _ taken i rest _ _ k].
    replace (length (parts _ _ _)) with 1%nat by (vm_compute; reflexivity). split.
    + apply NoDup_singleton.
    + intros i [= ->]%list_elem_of_singleton. lia.
Defined.

Lemma kvraft_one_log_witness :
  ∃ (s : KVSystem) w L, sy_servers s !! 0 = Some w ∧ w_log w = [EApplied 1 (call_op put_call)] ∧
    Forall (sent_op (sy_clients s)) L ∧ data (w_kv w) = replay (take 1 L).
Proof.
  destruct put_run as (s & Hs & _ & _ & Hrf & Hlog). destruct (sy_servers s !! 0) as [w|] eqn:Hw; [|destruct Hlog].
  destruct (nodes (sy_raft s) !! 0) as [rf|] eqn:Hi; [|discriminate].
  destruct (kvraft_one_log 3 three_servers 3 {[77]} s Hs) as (L & HL & Hall).
  exists s, w, L. split; [exact Hw|]. split; [exact Hlog|]. split; [exact HL|].
  destruct (Hall 0 rf w Hi Hw) as (_ & Hd & _). rewrite Hlog in Hd. exact Hd.
Defined.
