(* ===== verification/ShardCtrler.v ===== *)
(** * shardctrler/server.go and shardctrler/common.go: one shard controller

    A [Config] assigns the shards to replica groups; the controller keeps the
    list of all configurations and makes a new one for each [Join], [Leave]
    and [Move] its log holds.  [None] as a result is a run-time panic.  A Go
    [range] over a map visits its entries in an order the language leaves
    open: where the source ranges over one, the definition takes the list of
    entries, and a change takes the orders of all its loops ([..._of]).  The
    definitions without [_of] are those with the map's own list each time. *)
From stdpp Require Import base tactics list gmap strings numbers sorting.
From S2P Require Import Prelude.
From S2P Require Import Labgob.
From S2P Require Import Persister.
From S2P Require Import Raft.
Open Scope Z_scope.
Open Scope go_scope.

Definition NShards : Z := 10.

Record Config := mkConfig { Num : Z; Shards : list Z; Groups : gmap Z (list string) }.

#[export] Instance Config_eta : RecordEta Config :=
  λ c, mkConfig (Num c) (Shards c) (Groups c).

Definition OK : string := "OK".

Record JoinArgs := mkJoinArgs {
  ja_Servers : gmap Z (list string); ja_ClientID : Z; ja_RequestID : Z }.
Record LeaveArgs := mkLeaveArgs { la_GIDs : list Z; la_ClientID : Z; la_RequestID : Z }.
Record MoveArgs := mkMoveArgs {
  ma_Shard : Z; ma_GID : Z; ma_ClientID : Z; ma_RequestID : Z }.
Record QueryArgs := mkQueryArgs { qa_Num : Z; qa_ClientID : Z; qa_RequestID : Z }.
Record ChangeReply := mkChangeReply { cr_WrongLeader : bool; cr_Err : string }.
Record QueryReply := mkQueryReply { qr_WrongLeader : bool; qr_Err : string; qr_Config : Config }.

Definition DefaultConfig : Config := mkConfig 0 (replicate (Z.to_nat NShards) 0) ∅.

(** The zero value of [Config]. *)
Definition zeroConfig : Config := mkConfig 0 (replicate (Z.to_nat NShards) 0) ∅.

Record Op := mkOp {
  Type_ : string; JoinServers : gmap Z (list string); LeaveGIDs : list Z; MoveShard : Z; MoveGID : Z;
  QueryNum : Z; ClientID : Z; RequestID : Z }.
Definition zeroOp : Op := mkOp "" ∅ [] 0 0 0 0 0.

Record ApplyResult := mkResult { res_Op : Op; res_Config : Config }.

Record ShardCtrler := mkCtrler {
  sc_me : Z;
  sc_rf : Raft Op unit;
  configs : list Config;
  sc_notify : gmap Z nat;
  lastAppliedReq : gmap Z Z;
  sc_chans : list (option ApplyResult)     (* every channel made, capacity one *)
}.

#[export] Instance ShardCtrler_eta : RecordEta ShardCtrler := λ sc,
  mkCtrler (sc_me sc) (sc_rf sc) (configs sc) (sc_notify sc) (lastAppliedReq sc) (sc_chans sc).

(** ** Configurations *)

(** [configs[len(configs)-1]] *)
Definition latest (cs : list Config) : option Config := idx cs (len cs - 1).

Definition readConfig (num : Z) (sc : ShardCtrler) : option Config :=
  if (num =? -1) || (len (configs sc) <=? num) then latest (configs sc)
  else idx (configs sc) num.

Definition copyGroups_of (entries : list (Z * list string)) : gmap Z (list string) :=
  foldl (λ dst e, <[e.1 := e.2]> dst) ∅ entries.
Definition copyGroups (src : gmap Z (list string)) : gmap Z (list string) := copyGroups_of (map_to_list src).

(** [sort.Ints] *)
Definition sort_Ints (l : list Z) : list Z := merge_sort Z.le l.

Definition sortedGIDs_of (entries : list (Z * list string)) : list Z := sort_Ints entries.*1.
Definition sortedGIDs (groups : gmap Z (list string)) : list Z := sortedGIDs_of (map_to_list groups).

(** [entries] are those of [groups], in the order of the loop of [sortedGIDs]. *)
Definition computeTargets_of (entries : list (Z * list string)) : gmap Z Z :=
  let gids := sortedGIDs_of entries in
  let g := len gids in
  if g =? 0 then ∅
  else
    let q := NShards `div` g in
    let r := NShards `mod` g in
    foldl (λ targets e, <[e.2 := if e.1 <? r then q + 1 else q]> targets) ∅
      (zip (range 0 (g - 1)) gids).
Definition computeTargets (groups : gmap Z (list string)) : gmap Z Z := computeTargets_of (map_to_list groups).

(** [for gid, svrs := range servers { next.Groups[gid] = ... }] *)
Definition addGroups_of (entries : list (Z * list string)) (groups : gmap Z (list string)) : gmap Z (list string) :=
  foldl (λ dst e, <[e.1 := e.2]> dst) groups entries.
Definition addGroups (servers groups : gmap Z (list string)) : gmap Z (list string) :=
  addGroups_of (map_to_list servers) groups.

Definition incr (d : Z) (gid : Z) (counts : gmap Z Z) : gmap Z Z :=
  <[gid := map_get 0 counts gid + d]> counts.
Definition has (groups : gmap Z (list string)) (gid : Z) : bool := bool_decide (is_Some (groups !! gid)).
Definition shard_indices : list Z := range 0 (NShards - 1).

(** [for i := 0; i < NShards; i++ { next.Shards[i] = 0 }] *)
Definition all_to_zero (shards : list Z) : list Z :=
  foldl (λ sh i, wr sh i 0) shards shard_indices.

(** The shards each present group holds. *)
Definition joinCounts (groups : gmap Z (list string)) (shards : list Z) : gmap Z Z :=
  foldl (λ counts i, let gid := rd shards i in
           if has groups gid then incr 1 gid counts else counts) ∅ shard_indices.

(** The shards to give away, and the counts without them.  Every slice in
    [Groups] was made by [make] or [append], so it is not nil. *)
Definition joinDonors (groups : gmap Z (list string)) (targets : gmap Z Z) (shards : list Z)
    (counts : gmap Z Z) : list Z * gmap Z Z :=
  foldl (λ '(donors, counts) i,
    let gid := rd shards i in
    if (gid =? 0) || (has groups gid && (map_get 0 targets gid <? map_get 0 counts gid))
    then (donors ++ [i], if has groups gid then incr (-1) gid counts else counts)
    else (donors, counts)) ([], counts) shard_indices.

(** [for need > 0 && di < len(donorShards)]: [donors] is [donorShards[di:]]. *)
Fixpoint give (gid need : Z) (donors shards : list Z) : list Z * list Z :=
  match donors with
  | [] => ([], shards)
  | shard :: rest =>
      if 0 <? need then give gid (need - 1) rest (wr shards shard gid) else (donors, shards)
  end.

(** [for _, gid := range gids { need := ...; ... }] *)
Fixpoint fillGroups (gids : list Z) (targets counts : gmap Z Z) (donors shards : list Z)
    : list Z :=
  match gids with
  | [] => shards
  | gid :: gids =>
      let need := map_get 0 targets gid - map_get 0 counts gid in
      let '(donors, shards) := give gid need donors shards in
      fillGroups gids targets counts donors shards
  end.

(** [for gid := range servers { newGids = append(newGids, gid) }; sort.Ints(newGids)] *)
Definition newGIDs_of (entries : list (Z * list string)) : list Z := sort_Ints entries.*1.

(** ** The next configuration of each change

    The loops over maps that a change runs, and the order in which each of
    them visits the entries of its map. *)
Inductive RangeLoop :=
| RCopyGroups      (* the groups of the last configuration, in [copyGroups] *)
| RServers         (* the joining groups *)
| RSortedGIDs      (* the next groups, in [sortedGIDs] *)
| RTargets         (* the next groups, in the [sortedGIDs] of [computeTargets] *)
| RNewGids.        (* the joining groups again, for [newGids] *)
Definition MapOrder : Type := RangeLoop → gmap Z (list string) → list (Z * list string).
Definition map_order : MapOrder := λ _ m, map_to_list m.

Definition joinConfig_of (order : MapOrder) (servers : gmap Z (list string)) (prev : Config) : Config :=
  let next := mkConfig (Num prev + 1) (Shards prev)
                (addGroups_of (order RServers servers) (copyGroups_of (order RCopyGroups (Groups prev)))) in
  let gids := sortedGIDs_of (order RSortedGIDs (Groups next)) in
  if len gids =? 0 then next <| Shards ::= all_to_zero |>
  else
    let targets := computeTargets_of (order RTargets (Groups next)) in
    let counts := joinCounts (Groups next) (Shards next) in
    let '(donorShards, counts) := joinDonors (Groups next) targets (Shards next) counts in
    let newGids := newGIDs_of (order RNewGids servers) in
    next <| Shards ::= fillGroups newGids targets counts donorShards |>.
Definition joinConfig : gmap Z (list string) → Config → Config := joinConfig_of map_order.

Definition leaveDonors (leaving : gset Z) (groups : gmap Z (list string)) (shards : list Z)
    : list Z * gmap Z Z :=
  foldl (λ '(donors, counts) i,
    let gid := rd shards i in
    if bool_decide (gid ∈ leaving) then (donors ++ [i], counts)
    else if has groups gid then (donors, incr 1 gid counts)
    else (donors, counts)) ([], ∅) shard_indices.

Definition leaveConfig_of (order : MapOrder) (gids : list Z) (prev : Config) : Config :=
  let groups := foldl (λ g gid, delete gid g) (copyGroups_of (order RCopyGroups (Groups prev))) gids in
  let next := mkConfig (Num prev + 1) (Shards prev) groups in
  let remain := sortedGIDs_of (order RSortedGIDs (Groups next)) in
  if len remain =? 0 then next <| Shards ::= all_to_zero |>
  else
    let targets := computeTargets_of (order RTargets (Groups next)) in
    let leaving : gset Z := foldl (λ s gid, {[gid]} ∪ s) ∅ gids in
    let '(donorShards, counts) := leaveDonors leaving (Groups next) (Shards next) in
    next <| Shards ::= fillGroups remain targets counts donorShards |>.
Definition leaveConfig : list Z → Config → Config := leaveConfig_of map_order.

Definition moveConfig_of (order : MapOrder) (shard gid : Z) (prev : Config) : option Config :=
  if (0 <=? shard) && (shard <? NShards) then
    let next := mkConfig (Num prev + 1) (Shards prev) (copyGroups_of (order RCopyGroups (Groups prev))) in
    Some (next <| Shards ::= λ sh, wr sh shard gid |>)
  else None.
Definition moveConfig : Z → Z → Config → option Config := moveConfig_of map_order.

Definition append_config (next : Config) (sc : ShardCtrler) : ShardCtrler :=
  sc <| configs ::= λ cs, cs ++ [next] |>.

Definition applyJoin_of (order : MapOrder) (servers : gmap Z (list string)) (sc : ShardCtrler) : option ShardCtrler :=
  match latest (configs sc) with
  | Some prev => Some (append_config (joinConfig_of order servers prev) sc)
  | None => None
  end.
Definition applyLeave_of (order : MapOrder) (gids : list Z) (sc : ShardCtrler) : option ShardCtrler :=
  match latest (configs sc) with
  | Some prev => Some (append_config (leaveConfig_of order gids prev) sc)
  | None => None
  end.
Definition applyMove_of (order : MapOrder) (shard gid : Z) (sc : ShardCtrler) : option ShardCtrler :=
  match latest (configs sc) with
  | Some prev =>
      match moveConfig_of order shard gid prev with
      | Some next => Some (append_config next sc)
      | None => None
      end
  | None => None
  end.
Definition applyJoin : gmap Z (list string) → ShardCtrler → option ShardCtrler := applyJoin_of map_order.
Definition applyLeave : list Z → ShardCtrler → option ShardCtrler := applyLeave_of map_order.
Definition applyMove : Z → Z → ShardCtrler → option ShardCtrler := applyMove_of map_order.

(** ** The apply loop *)

Definition isDuplicate (clientID requestID : Z) (sc : ShardCtrler) : bool :=
  match lastAppliedReq sc !! clientID with
  | Some last => requestID <=? last
  | None => false
  end.

(** One of the three changes: unless it is a duplicate, apply and record it. *)
Definition apply_change (op : Op) (change : ShardCtrler → option ShardCtrler) (sc : ShardCtrler)
    : option ShardCtrler :=
  if negb (isDuplicate (ClientID op) (RequestID op) sc) then
    match change sc with
    | Some sc => Some (sc <| lastAppliedReq ::= <[ClientID op := RequestID op]> |>)
    | None => None
    end
  else Some sc.

Definition with_result (op : Op) (sc : option ShardCtrler) : option (ShardCtrler * ApplyResult) :=
  match sc with Some sc => Some (sc, mkResult op zeroConfig) | None => None end.

(** The [switch] of [applier]. *)
Definition applyOp_of (order : MapOrder) (op : Op) (sc : ShardCtrler) : option (ShardCtrler * ApplyResult) :=
  if decide (Type_ op = "Join") then
    with_result op (apply_change op (applyJoin_of order (JoinServers op)) sc)
  else if decide (Type_ op = "Leave") then
    with_result op (apply_change op (applyLeave_of order (LeaveGIDs op)) sc)
  else if decide (Type_ op = "Move") then
    with_result op (apply_change op (applyMove_of order (MoveShard op) (MoveGID op)) sc)
  else if decide (Type_ op = "Query") then
    match readConfig (QueryNum op) sc with
    | Some c => Some (sc, mkResult op c)
    | None => None
    end
  else Some (sc, mkResult zeroOp zeroConfig).
Definition applyOp : Op → ShardCtrler → option (ShardCtrler * ApplyResult) := applyOp_of map_order.

Definition getNotifyChUnlocked (index : Z) (sc : ShardCtrler) : ShardCtrler * nat :=
  match sc_notify sc !! index with
  | Some ch => (sc, ch)
  | None =>
      let ch := length (sc_chans sc) in
      (sc <| sc_chans ::= λ cs, cs ++ [None] |> <| sc_notify ::= <[index := ch]> |>, ch)
  end.
Definition getNotifyCh (index : Z) (sc : ShardCtrler) : ShardCtrler * nat :=
  getNotifyChUnlocked index sc.

Definition offer (ch : nat) (res : ApplyResult) (sc : ShardCtrler) : ShardCtrler :=
  match sc_chans sc !! ch with
  | Some None => sc <| sc_chans ::= <[ch := Some res]> |>
  | _ => sc
  end.

Definition applier (msg : ApplyMsg Op unit) (sc : ShardCtrler) : option ShardCtrler :=
  if CommandValid msg then
    match Command msg with
    | AString _ => Some sc
    | AOp op =>
        match applyOp op sc with
        | Some (sc, res) =>
            let '(sc, ch) := getNotifyChUnlocked (CommandIndex msg) sc in
            Some (offer ch res sc)
        | None => None
        end
    end
  else Some sc.

(** ** The RPC handlers *)

Inductive Call :=
| CJoin (args : JoinArgs) | CLeave (args : LeaveArgs)
| CMove (args : MoveArgs) | CQuery (args : QueryArgs).

Definition call_op (c : Call) : Op :=
  match c with
  | CJoin a => mkOp "Join" (ja_Servers a) [] 0 0 0 (ja_ClientID a) (ja_RequestID a)
  | CLeave a => mkOp "Leave" ∅ (la_GIDs a) 0 0 0 (la_ClientID a) (la_RequestID a)
  | CMove a => mkOp "Move" ∅ [] (ma_Shard a) (ma_GID a) 0 (ma_ClientID a) (ma_RequestID a)
  | CQuery a => mkOp "Query" ∅ [] 0 0 (qa_Num a) (qa_ClientID a) (qa_RequestID a)
  end.

Inductive Reply := RChange (r : ChangeReply) | RQuery (r : QueryReply).

Definition wrong_leader (c : Call) : Reply :=
  match c with
  | CQuery _ => RQuery (mkQueryReply true OK zeroConfig)
  | _ => RChange (mkChangeReply true OK)
  end.

Definition handler_start (c : Call) (sc : ShardCtrler) : ShardCtrler * (Reply + Z) :=
  let '(rf, (index, _, isLeader)) := Start (AOp (call_op c)) (sc_rf sc) in
  (sc <| sc_rf := rf |>, if isLeader : bool then inr index else inl (wrong_leader c)).

Definition handler_result (c : Call) (res : ApplyResult) : Reply :=
  let op := call_op c in
  if (ClientID (res_Op res) =? ClientID op) && (RequestID (res_Op res) =? RequestID op)
     && bool_decide (Type_ (res_Op res) = Type_ op)
  then match c with
       | CQuery _ => RQuery (mkQueryReply false OK (res_Config res))
       | _ => RChange (mkChangeReply false OK)
       end
  else wrong_leader c.

Definition handler_timeout (c : Call) : Reply := wrong_leader c.

Definition sc_Kill (sc : ShardCtrler) : ShardCtrler := sc <| sc_rf ::= Kill |>.
Definition sc_Raft (sc : ShardCtrler) : Raft Op unit := sc_rf sc.

Definition StartServer (npeers me : Z) (ps : Persister (RaftGob Op) unit) : ShardCtrler :=
  let c0 := zeroConfig <| Groups := ∅ |> <| Shards ::= all_to_zero |> in
  mkCtrler me (Make npeers me ps) [c0] ∅ ∅ [].
