(* ===== verification/ShardBalance.v ===== *)
(** * Rebalancing: counting lemmas and the effect of Join and Leave

    How many shards each group holds along the loops of ShardCtrler.v, and
    the properties of the configurations they build. *)
From stdpp Require Import base tactics list gmap strings numbers sorting.
From S2P Require Import Prelude.
From S2P Require Import ShardCtrler.
Open Scope Z_scope.
Open Scope go_scope.

(** ** Definitions *)

(** How many of the shards of [D] are assigned to [g]. *)
Definition occ (g : Z) (D shards : list Z) : Z := len (filter (λ i, rd shards i = g) D).
Definition held (g : Z) (shards : list Z) : Z := occ g shard_indices shards.
(** The shards of [g] outside [D]. *)
Definition kept (g : Z) (D shards : list Z) : Z := held g shards - occ g D shards.
Fixpoint sum (f : Z → Z) (l : list Z) : Z :=
  match l with [] => 0 | g :: l => f g + sum f l end.

(** Every shard has a group of the configuration (group 0 when there is none)
    and the groups hold [NShards / g] shards or one more. *)
Definition complete (c : Config) : Prop :=
  len (Shards c) = NShards ∧
  ∀ i, 0 ≤ i < NShards →
    if decide (Groups c = ∅) then rd (Shards c) i = 0 else rd (Shards c) i ∈ dom (Groups c).
Definition balanced (c : Config) : Prop :=
  let q := NShards `div` Z.of_nat (size (dom (Groups c))) in
  ∀ g, g ∈ dom (Groups c) → q ≤ held g (Shards c) ≤ q + 1.
Definition fair (c : Config) : Prop :=
  complete c ∧ balanced c ∧ 0 ∉ dom (Groups c).

(** ** Sums *)

Lemma sum_ext f f' l : (∀ g, g ∈ l → f g = f' g) → sum f l = sum f' l.
Proof.
  induction l as [|x l IH]; intros H; cbn; [done|].
  rewrite H by set_solver. rewrite IH; [done|]. set_solver.
Qed.

Lemma sum_add f f' l : sum (λ g, f g + f' g) l = sum f l + sum f' l.
Proof. induction l as [|x l IH]; cbn; [done|]. lia. Qed.

Lemma sum_sub f f' l : sum (λ g, f g - f' g) l = sum f l - sum f' l.
Proof. induction l as [|x l IH]; cbn; [done|]. lia. Qed.

Lemma sum_le f f' l : (∀ g, g ∈ l → f g ≤ f' g) → sum f l ≤ sum f' l.
Proof.
  induction l as [|x l IH]; intros H; cbn; [done|].
  pose proof (H x ltac:(set_solver)). assert (sum f l ≤ sum f' l) by (apply IH; set_solver). lia.
Qed.

(** Equal sums of pointwise ordered functions are pointwise equal. *)
Lemma sum_le_eq f f' l g :
  (∀ g, g ∈ l → f g ≤ f' g) → sum f l = sum f' l → g ∈ l → f g = f' g.
Proof.
  induction l as [|x l IH]; intros H E Hg; [set_solver|]. cbn in E.
  pose proof (H x ltac:(set_solver)).
  assert (sum f l ≤ sum f' l) by (apply sum_le; set_solver).
  apply elem_of_cons in Hg as [->|Hg]; [lia|]. apply IH; [set_solver|lia|done].
Qed.

Lemma sum_lt_exists f f' l : sum f l < sum f' l → ∃ g, g ∈ l ∧ f g < f' g.
Proof.
  induction l as [|x l IH]; cbn; [lia|]. intros H.
  destruct (decide (f x < f' x)); [exists x; set_solver|].
  destruct IH as (g & ? & ?); [lia|]. exists g. set_solver.
Qed.

Lemma sum_const c l : sum (λ _, c) l = c * len l.
Proof. induction l as [|x l IH]; [unfold len; cbn; lia|]. rewrite len_cons. cbn. rewrite IH. lia. Qed.

(** ** Occurrences *)

Lemma occ_nil g sh : occ g [] sh = 0.
Proof. done. Qed.

Lemma occ_cons g i D sh : occ g (i :: D) sh = (if decide (rd sh i = g) then 1 else 0) + occ g D sh.
Proof.
  unfold occ. rewrite filter_cons. repeat case_decide; rewrite ?len_cons; congruence || lia.
Qed.

Lemma occ_app g D1 D2 sh : occ g (D1 ++ D2) sh = occ g D1 sh + occ g D2 sh.
Proof. unfold occ. by rewrite filter_app, len_app. Qed.

Lemma occ_nonneg g D sh : 0 ≤ occ g D sh.
Proof. apply len_nonneg. Qed.

Lemma occ_wr_notin g D sh d v :
  0 ≤ d → d ∉ D → occ g D (wr sh d v) = occ g D sh.
Proof.
  induction D as [|i D IH]; intros Hd Hni; [done|]. rewrite !occ_cons.
  rewrite rd_wr_ne by set_solver. rewrite IH; set_solver.
Qed.

Lemma occ_wr_in g D sh d v :
  NoDup D → d ∈ D → 0 ≤ d < len sh →
  occ g D (wr sh d v) =
    occ g D sh + (if decide (v = g) then 1 else 0) - (if decide (rd sh d = g) then 1 else 0).
Proof.
  induction D as [|i D IH]; intros Hnd Hin Hd; [set_solver|].
  apply NoDup_cons in Hnd as [Hni Hnd]. rewrite !occ_cons.
  apply elem_of_cons in Hin as [->|Hin].
  - rewrite rd_wr_eq by done. rewrite occ_wr_notin by (done || lia). repeat case_decide; lia.
  - rewrite rd_wr_ne by (set_solver || lia). rewrite IH by done. repeat case_decide; lia.
Qed.

Lemma sum_indicator x l :
  NoDup l → sum (λ g, if decide (x = g) then 1 else 0) l = if decide (x ∈ l) then 1 else 0.
Proof.
  induction l as [|y l IH]; intros Hnd; cbn; [case_decide; set_solver|].
  apply NoDup_cons in Hnd as [? ?]. rewrite IH by done. repeat case_decide; set_solver.
Qed.

Lemma sum_occ l D sh :
  NoDup l → (∀ i, i ∈ D → rd sh i ∈ l) → sum (λ g, occ g D sh) l = len D.
Proof.
  intros Hnd. induction D as [|i D IH]; intros H.
  - rewrite (sum_ext _ (λ _, 0)), sum_const by done. done.
  - rewrite (sum_ext _ (λ g, (if decide (rd sh i = g) then 1 else 0) + occ g D sh))
      by (intros; apply occ_cons).
    rewrite sum_add, sum_indicator, IH, len_cons by set_solver.
    rewrite decide_True by set_solver. done.
Qed.

Lemma sum_occ_split l D sh :
  NoDup l →
  sum (λ g, occ g D sh) l + len (filter (λ i, rd sh i ∉ l) D) = len D.
Proof.
  intros Hnd. induction D as [|i D IH].
  - rewrite (sum_ext _ (λ _, 0)), sum_const by done. done.
  - rewrite (sum_ext _ (λ g, (if decide (rd sh i = g) then 1 else 0) + occ g D sh))
      by (intros; apply occ_cons).
    rewrite sum_add, sum_indicator, filter_cons, len_cons by done.
    repeat case_decide; rewrite ?len_cons; try done; lia.
Qed.

Lemma len_shard_indices : len shard_indices = NShards.
Proof. done. Qed.

Lemma shard_indices_spec i : i ∈ shard_indices ↔ 0 ≤ i < NShards.
Proof. unfold shard_indices, range. rewrite elem_of_seqZ. lia. Qed.

Lemma shard_indices_nodup : NoDup shard_indices.
Proof. apply NoDup_seqZ. Qed.

(** ** Giving shards away *)

(** The state of the loop: distinct shard numbers still to give. *)
Record donors_ok (D sh : list Z) : Prop := {
  do_nodup : NoDup D;
  do_range i : i ∈ D → 0 ≤ i < NShards;
  do_len : len sh = NShards
}.

Lemma donors_ok_tail d D sh v : donors_ok (d :: D) sh → donors_ok D (wr sh d v).
Proof.
  intros [Hnd Hr Hl]. apply NoDup_cons in Hnd as [? ?].
  split; [done|set_solver|by rewrite len_wr].
Qed.

Lemma kept_give d D sh v g :
  donors_ok (d :: D) sh →
  kept g D (wr sh d v) = kept g (d :: D) sh + (if decide (v = g) then 1 else 0).
Proof.
  intros [[Hni Hnd]%NoDup_cons Hr Hl]. unfold kept, held.
  pose proof (Hr d ltac:(set_solver)) as Hd.
  rewrite occ_wr_in; [|apply shard_indices_nodup|by apply shard_indices_spec|lia].
  rewrite occ_wr_notin, occ_cons by (done || lia). lia.
Qed.

(** [give] moves [min need (len D)] donors to [gid]. *)
Lemma give_spec gid need D sh D' sh' :
  donors_ok D sh → give gid need D sh = (D', sh') →
  donors_ok D' sh' ∧
  ∃ k, 0 ≤ k ≤ Z.max 0 need ∧ len D = k + len D' ∧ (D' = [] ∨ k = Z.max 0 need) ∧
    (∀ g, kept g D' sh' = kept g D sh + if decide (gid = g) then k else 0) ∧
    (∀ i, i ∈ D' → i ∈ D ∧ rd sh' i = rd sh i) ∧
    (∀ i, i ∈ D → i ∈ D' ∨ rd sh' i = gid) ∧
    (∀ i, 0 ≤ i → rd sh' i = rd sh i ∨ (i ∈ D ∧ rd sh' i = gid)).
Proof.
  revert need sh. induction D as [|d D IH]; intros need sh Hok; cbn.
  { intros [= <- <-]. split; [done|]. exists 0. split_and!; try done; try lia; auto.
    intros g. case_decide; lia. }
  case_if.
  - intros H. zbool. pose proof (donors_ok_tail _ _ _ gid Hok) as Hok'.
    destruct (IH _ _ Hok' H) as (? & k & Hk & Hlen & Hend & Hkept & HD & HDin & Hrd).
    pose proof (do_range _ _ Hok d ltac:(set_solver)) as Hd.
    pose proof (do_nodup _ _ Hok) as [Hni _]%NoDup_cons.
    split; [done|]. exists (k + 1). rewrite len_cons. split_and!; try lia.
    + destruct Hend; [by left|right; lia].
    + intros g. rewrite Hkept, (kept_give d D sh gid g Hok). repeat case_decide; lia.
    + intros i Hi. destruct (HD i Hi) as [? ->]. split; [set_solver|].
      apply rd_wr_ne; [lia|set_solver].
    + intros i [->|Hi]%elem_of_cons; [|auto]. right.
      destruct (Hrd d ltac:(lia)) as [->|[? ?]]; [|done].
      apply rd_wr_eq. rewrite (do_len _ _ Hok). done.
    + intros i Hi. destruct (decide (i = d)) as [->|Hne].
      * right. split; [set_solver|]. destruct (Hrd d ltac:(lia)) as [->|[? ?]]; [|done].
        apply rd_wr_eq. rewrite (do_len _ _ Hok). done.
      * destruct (Hrd i Hi) as [->|[? ?]]; [left; apply rd_wr_ne; [lia|done]|right; set_solver].
  - intros [= <- <-]. zbool. split; [done|]. exists 0. split_and!; try lia; auto.
    intros g. case_decide; lia.
Qed.

Lemma donors_nil (D : list Z) : (∀ i, i ∈ D → False) → D = [].
Proof. destruct D as [|d D]; [done|]. intros H. destruct (H d). set_solver. Qed.

(** The loop over the groups: each gets at most what it lacks, and all of it
    if any donor is left over. *)
Lemma fillGroups_spec gids T C D sh :
  donors_ok D sh → NoDup gids →
  let need g := Z.max 0 (map_get 0 T g - map_get 0 C g) in
  let sh' := fillGroups gids T C D sh in
  ∃ D' given, donors_ok D' sh' ∧
    (∀ g, kept g D' sh' = kept g D sh + given g) ∧
    (∀ g, 0 ≤ given g ≤ if decide (g ∈ gids) then need g else 0) ∧
    len D = len D' + sum given gids ∧
    (D' = [] ∨ ∀ g, g ∈ gids → given g = need g) ∧
    (∀ i, i ∈ D' → i ∈ D ∧ rd sh' i = rd sh i) ∧
    (∀ i, i ∈ D → i ∈ D' ∨ rd sh' i ∈ gids) ∧
    (∀ i, 0 ≤ i → rd sh' i = rd sh i ∨ (i ∈ D ∧ rd sh' i ∈ gids)).
Proof.
  cbn. revert D sh. induction gids as [|gid gids IH]; intros D sh Hok Hnd; cbn [fillGroups].
  { exists D, (λ _, 0). split_and!; try done; auto; try (intros; lia).
    - cbn. lia.
    - right. set_solver. }
  apply NoDup_cons in Hnd as [Hni Hnd].
  destruct (give gid _ D sh) as [D1 sh1] eqn:Hg.
  destruct (give_spec _ _ _ _ _ _ Hok Hg) as (Hok1 & k & Hk & Hlen & Hend & Hkept & HD & HDin & Hrd).
  destruct (IH D1 sh1 Hok1 Hnd) as 
    (D2 & given & Hok2 & Hkept2 & Hgiven & Hlen2 & Hend2 & HD2 & HDin2 & Hrd2).
  exists D2, (λ g, if decide (gid = g) then k else given g). split_and!.
  - done.
  - intros g. rewrite Hkept2, Hkept. destruct (decide (gid = g)) as [<-|Hne]; [|lia].
    specialize (Hgiven gid). rewrite decide_False in Hgiven by done. lia.
  - intros g. specialize (Hgiven g). destruct (decide (gid = g)) as [<-|Hne].
    + rewrite decide_True by (apply elem_of_cons; by left). lia.
    + destruct (decide (g ∈ gids)); [rewrite decide_True by (apply elem_of_cons; by right); lia|].
      rewrite decide_False; [lia|]. intros [?|?]%elem_of_cons; congruence.
  - cbn. rewrite decide_True by done.
    rewrite (sum_ext (λ g, if decide (gid = g) then k else given g) given); [lia|].
    intros g Hgin. rewrite decide_False; [done|]. by intros ->.
  - destruct Hend as [->|Hend].
    + left. apply donors_nil. intros i [?%not_elem_of_nil _]%HD2. done.
    + destruct Hend2 as [->|Hend2]; [by left|right]. intros g [->|?]%elem_of_cons.
      * rewrite decide_True by done. lia.
      * rewrite decide_False by (by intros ->). auto.
  - intros i Hi. destruct (HD2 i Hi) as [Hi1 ->]. by apply HD.
  - intros i Hi. rewrite elem_of_cons. destruct (HDin i Hi) as [Hi1|Hi1].
    + destruct (HDin2 i Hi1); auto.
    + pose proof (do_range _ _ Hok i Hi). destruct (Hrd2 i ltac:(lia)) as [->|[_ ?]]; auto.
  - intros i Hi. destruct (Hrd2 i Hi) as [->|[Hi1 Hin]].
    + destruct (Hrd i Hi) as [->|[? ->]]; [by left|right; split; [done|apply elem_of_cons; by left]].
    + right. split; [by apply HD|apply elem_of_cons; by right].
Qed.

Lemma held_kept g D sh : held g sh = kept g D sh + occ g D sh.
Proof. unfold kept. lia. Qed.

(** ** Targets *)

Lemma sort_Ints_perm l : sort_Ints l ≡ₚ l.
Proof. apply merge_sort_Permutation. Qed.

Lemma sortedGIDs_spec (groups : gmap Z (list string)) :
  NoDup (sortedGIDs groups) ∧ (∀ g, g ∈ sortedGIDs groups ↔ g ∈ dom groups) ∧
  len (sortedGIDs groups) = Z.of_nat (size (dom groups)).
Proof.
  unfold sortedGIDs, sortedGIDs_of. split_and!.
  - rewrite sort_Ints_perm. apply NoDup_fst_map_to_list.
  - intros g. rewrite sort_Ints_perm, list_elem_of_fmap, elem_of_dom. split.
    + intros ([g' v] & -> & Hin%elem_of_map_to_list). by exists v.
    + intros [v Hv]. exists (g, v). split; [done|by apply elem_of_map_to_list].
  - unfold len. rewrite sort_Ints_perm, length_fmap, size_dom. by rewrite length_map_to_list.
Qed.

(** The map the loop of [computeTargets] fills. *)
Lemma targets_foldl f (gids : list Z) n (acc : gmap Z Z) g :
  NoDup gids →
  let m := foldl (λ t (e : Z * Z), <[e.2 := f e.1]> t) acc (zip (seqZ n (len gids)) gids) in
  (∀ k : nat, gids !! k = Some g → m !! g = Some (f (n + Z.of_nat k))) ∧
  (g ∉ gids → m !! g = acc !! g).
Proof.
  revert n acc. induction gids as [|x gids IH]; intros n acc Hnd; cbn; [by split|].
  apply NoDup_cons in Hnd as [Hni Hnd]. rewrite len_cons, seqZ_cons by (pose proof (len_nonneg gids); lia).
  replace (Z.pred (1 + len gids)) with (len gids) by lia. cbn.
  destruct (IH (Z.succ n) (<[x := f n]> acc) Hnd) as [IH1 IH2]. split.
  - intros [|k]; cbn.
    + intros [= ->]. rewrite IH2, lookup_insert_eq by done. do 2 f_equal. lia.
    + intros Hk. rewrite (IH1 k Hk). do 2 f_equal. lia.
  - intros Hg. rewrite IH2 by set_solver. rewrite lookup_insert_ne; [done|]. set_solver.
Qed.

Lemma computeTargets_at (groups : gmap Z (list string)) (k : nat) g :
  groups ≠ ∅ → sortedGIDs groups !! k = Some g →
  let n := Z.of_nat (size (dom groups)) in
  map_get 0 (computeTargets groups) g =
    NShards `div` n + if Z.of_nat k <? NShards `mod` n then 1 else 0.
Proof.
  intros Hne Hk. destruct (sortedGIDs_spec groups) as (Hnd & _ & Hlen). cbn.
  unfold computeTargets, computeTargets_of. fold (sortedGIDs groups). rewrite <- Hlen. set (gids := sortedGIDs groups) in *.
  pose proof (lookup_lt_Some _ _ _ Hk) as Hlt.
  rewrite (proj2 (Z.eqb_neq (len gids) 0)) by (unfold len; lia).
  unfold range. replace (len gids - 1 + 1 - 0) with (len gids) by lia.
  destruct (targets_foldl (λ i, if i <? NShards `mod` len gids then NShards `div` len gids + 1
              else NShards `div` len gids) gids 0 ∅ g Hnd) as [Hm _].
  unfold map_get. rewrite (Hm k Hk). cbn [default]. rewrite Z.add_0_l. case_if; cbn; lia.
Qed.

(** [r] of the groups get one more. *)
Lemma sum_first_r q r l : 0 ≤ r ≤ len l →
  ∀ f, (∀ k g, l !! k = Some g → f g = q + if Z.of_nat k <? r then 1 else 0) →
  sum f l = q * len l + r.
Proof.
  revert r. induction l as [|x l IH]; intros r Hr f Hf.
  { unfold len in *. cbn in *. lia. }
  rewrite len_cons in *. cbn. rewrite (Hf 0%nat x eq_refl).
  destruct (decide (r = 0)) as [->|Hr0].
  - rewrite (IH 0); [change (Z.of_nat 0 <? 0) with false; cbv iota; lia|pose proof (len_nonneg l); lia|].
    intros k g Hk. rewrite (Hf (S k) g Hk). by rewrite !(proj2 (Z.ltb_ge _ _)) by lia.
  - rewrite (IH (r - 1)); [|lia|].
    + rewrite (proj2 (Z.ltb_lt _ _)) by lia. lia.
    + intros k g Hk. rewrite (Hf (S k) g Hk). f_equal. repeat case_if; zbool; lia.
Qed.

Lemma computeTargets_spec (groups : gmap Z (list string)) :
  groups ≠ ∅ →
  let q := NShards `div` Z.of_nat (size (dom groups)) in
  let t g := map_get 0 (computeTargets groups) g in
  (∀ g, g ∈ dom groups → q ≤ t g ≤ q + 1) ∧ sum t (sortedGIDs groups) = NShards.
Proof.
  intros Hne. destruct (sortedGIDs_spec groups) as (Hnd & Hin & Hlen). cbn. split.
  - intros g [k Hk]%Hin%list_elem_of_lookup. rewrite (computeTargets_at _ k) by done. case_if; lia.
  - set (n := Z.of_nat (size (dom groups))) in *.
    assert (0 < n).
    { pose proof (len_nonneg (sortedGIDs groups)). destruct (decide (n = 0)) as [E|]; [|lia].
      exfalso. apply Hne, dom_empty_iff_L, leibniz_equiv, size_empty_inv. lia. }
    rewrite (sum_first_r (NShards `div` n) (NShards `mod` n)).
    + rewrite Hlen. pose proof (Z.div_mod NShards n). lia.
    + rewrite Hlen. pose proof (Z.mod_pos_bound NShards n). lia.
    + intros k g Hk. by apply computeTargets_at.
Qed.

(** ** Counting with donors *)

Lemma occ_le g D D' sh sh' :
  NoDup D' → (∀ i, i ∈ D' → i ∈ D ∧ rd sh' i = rd sh i) → occ g D' sh' ≤ occ g D sh.
Proof.
  intros Hnd HD. unfold occ, len. apply inj_le, submseteq_length, NoDup_submseteq.
  - by apply NoDup_filter.
  - intros i [Hi Hin]%list_elem_of_filter. destruct (HD i Hin) as [? E].
    apply list_elem_of_filter. split; [congruence|done].
Qed.

(** The shards that groups outside a list hold are counted nowhere. *)
Lemma sum_kept_le l D sh :
  donors_ok D sh → NoDup l → sum (λ g, kept g D sh) l + len D ≤ NShards.
Proof.
  intros Hok Hl. unfold kept, held. rewrite sum_sub.
  pose proof (sum_occ_split l D sh Hl) as E1.
  pose proof (sum_occ_split l shard_indices sh Hl) as E2. rewrite len_shard_indices in E2.
  assert (len (filter (λ i, rd sh i ∉ l) D) ≤ len (filter (λ i, rd sh i ∉ l) shard_indices)).
  { apply inj_le, submseteq_length, NoDup_submseteq; [apply NoDup_filter, (do_nodup _ _ Hok)|].
    intros i [? Hi]%list_elem_of_filter. apply list_elem_of_filter. split; [done|].
    apply shard_indices_spec. by apply (do_range _ _ Hok). }
  lia.
Qed.

Lemma sum_subset f l l' :
  NoDup l → NoDup l' → (∀ g, g ∈ l → g ∈ l') → (∀ g, g ∈ l' → g ∉ l → f g = 0) →
  sum f l = sum f l'.
Proof.
  revert l'. induction l as [|x l IH]; intros l' Hl Hl' Hin H0.
  - cbn. rewrite (sum_ext f (λ _, 0) l'), sum_const; [lia|]. intros g Hg. apply H0; set_solver.
  - apply NoDup_cons in Hl as [Hx Hl].
    destruct (list_elem_of_split l' x) as (l1 & l2 & ->); [apply Hin; set_solver|].
    assert (NoDup (x :: l1 ++ l2)) as [Hx' Hl2]%NoDup_cons
      by (by rewrite Permutation_middle).
    assert (∀ a b, sum f (a ++ b) = sum f a + sum f b) as Happ
      by (clear; induction a as [|y a IH]; intros; cbn; [done|rewrite IH; lia]).
    rewrite Happ. cbn. rewrite (IH (l1 ++ l2)), Happ; [lia|done|done| |].
    + intros g Hg. assert (g ≠ x) by congruence. specialize (Hin g ltac:(set_solver)). set_solver.
    + intros g Hg Hng. apply H0; [set_solver|]. assert (g ≠ x) by congruence. set_solver.
Qed.

(** ** The donors of Join *)

Lemma map_get_incr d gid g (counts : gmap Z Z) :
  map_get 0 (incr d gid counts) g = map_get 0 counts g + if decide (gid = g) then d else 0.
Proof.
  unfold incr, map_get. case_decide as E.
  - subst. by rewrite lookup_insert_eq.
  - rewrite lookup_insert_ne by done. lia.
Qed.

Lemma joinCounts_at groups sh g :
  map_get 0 (joinCounts groups sh) g = if has groups g then held g sh else 0.
Proof.
  unfold joinCounts, held. induction shard_indices as [|i l IH] using rev_ind.
  - cbn. by case_if.
  - rewrite foldl_app. cbn. rewrite occ_app, occ_cons, occ_nil.
    destruct (has groups (rd sh i)) eqn:Hh.
    + rewrite map_get_incr, IH. case_decide as E; [rewrite <- E, Hh; lia|].
      destruct (has groups g); lia.
    + rewrite IH. destruct (has groups g) eqn:Hg; [|done]. rewrite decide_False; [lia|congruence].
Qed.

Lemma joinDonors_spec groups T sh C :
  has groups 0 = false → len sh = NShards →
  (∀ g, has groups g = true → map_get 0 C g = held g sh ∧ 0 ≤ map_get 0 T g) →
  let '(D, C') := joinDonors groups T sh C in
  donors_ok D sh ∧
  (∀ i, i ∈ D → rd sh i = 0 ∨ has groups (rd sh i) = true) ∧
  (∀ i, 0 ≤ i < NShards → rd sh i = 0 → i ∈ D) ∧
  (∀ g, has groups g = true →
     kept g D sh = held g sh `min` map_get 0 T g ∧ map_get 0 C' g = kept g D sh).
Proof.
  intros H0 Hlen HC.
  assert (let '(D, C') := joinDonors groups T sh C in
    (∀ i, i ∈ D → i ∈ shard_indices) ∧ NoDup D ∧
    (∀ i, i ∈ D → rd sh i = 0 ∨ has groups (rd sh i) = true) ∧
    (∀ i, i ∈ shard_indices → rd sh i = 0 → i ∈ D) ∧
    ∀ g, has groups g = true →
      occ g D sh = occ g shard_indices sh `min` (0 `max` (held g sh - map_get 0 T g)) ∧
      map_get 0 C' g = held g sh - occ g D sh) as H.
  { unfold joinDonors. pose proof shard_indices_nodup as Hnd.
    induction shard_indices as [|i l IH] using rev_ind.
    { cbn. split_and!; [set_solver|constructor|set_solver|set_solver|].
      intros g Hg. destruct (HC g Hg). rewrite !occ_nil. lia. }
    apply NoDup_app in Hnd as (Hnd & Hdis & _). specialize (IH Hnd). rewrite foldl_app. cbn.
    destruct (foldl _ _ l) as [D C']. destruct IH as (Hin & HndD & Hor & Hz & Hocc).
    assert (i ∉ D) as Hni by (intros Hi; apply (Hdis i); [by apply Hin|set_solver]).
    destruct (rd sh i =? 0) eqn:E0; cbn.
    - zbool. rewrite E0, H0. split_and!.
      + set_solver.
      + apply NoDup_app. split_and!; [done|set_solver|apply NoDup_singleton].
      + set_solver.
      + set_solver.
      + intros g Hg. rewrite !occ_app, !occ_cons, !occ_nil, E0.
        rewrite !decide_False by (intros <-; congruence). rewrite !Z.add_0_r. auto.
    - zbool. destruct (has groups (rd sh i)) eqn:Hh; cbn; [case_if|].
      + zbool. split_and!; [set_solver| |set_solver|set_solver|].
        { apply NoDup_app. split_and!; [done|set_solver|apply NoDup_singleton]. }
        intros g Hg. destruct (Hocc g Hg) as [Ho Hc]. destruct (Hocc _ Hh) as [Ho' Hc'].
        rewrite !occ_app, !occ_cons, !occ_nil, map_get_incr.
        case_decide as Eg; [subst g|]; lia.
      + zbool. split_and!; [set_solver|done|done|set_solver|].
        intros g Hg. destruct (Hocc g Hg) as [Ho Hc]. destruct (Hocc _ Hh) as [Ho' Hc'].
        pose proof (occ_nonneg g l sh).
        rewrite !occ_app, !occ_cons, !occ_nil. case_decide as Eg; [subst g|]; lia.
      + split_and!; [set_solver|done|done|set_solver|].
        intros g Hg. destruct (Hocc g Hg) as [Ho Hc]. rewrite !occ_app, !occ_cons, !occ_nil.
        rewrite decide_False by congruence. by rewrite !Z.add_0_r. }
  destruct (joinDonors groups T sh C) as [D C']. destruct H as (Hin & Hnd & Hor & Hz & Hocc).
  split_and!.
  - split; [done| |done]. intros i Hi. by apply shard_indices_spec, Hin.
  - done.
  - intros i Hi. by apply Hz, shard_indices_spec.
  - intros g Hg. destruct (Hocc g Hg) as [Ho Hc]. destruct (HC g Hg) as [_ ?].
    pose proof (occ_nonneg g shard_indices sh). unfold kept, held in *. lia.
Qed.

(** ** The donors of Leave *)

Lemma leaveDonors_spec leaving groups sh :
  len sh = NShards → (∀ g, has groups g = true → g ∉ leaving) →
  let '(D, C) := leaveDonors leaving groups sh in
  donors_ok D sh ∧
  (∀ i, 0 ≤ i < NShards → (i ∈ D ↔ rd sh i ∈ leaving)) ∧
  (∀ g, has groups g = true → kept g D sh = held g sh ∧ map_get 0 C g = kept g D sh).
Proof.
  intros Hlen Hdis.
  assert (let '(D, C) := leaveDonors leaving groups sh in
    (∀ i, i ∈ D ↔ i ∈ shard_indices ∧ rd sh i ∈ leaving) ∧ NoDup D ∧
    ∀ g, has groups g = true → occ g D sh = 0 ∧ map_get 0 C g = held g sh) as H.
  { unfold leaveDonors, held. pose proof shard_indices_nodup as Hnd.
    induction shard_indices as [|i l IH] using rev_ind.
    { cbn. split_and!; [set_solver|constructor|done]. }
    apply NoDup_app in Hnd as (Hnd & Hd & _). specialize (IH Hnd). rewrite foldl_app. cbn.
    destruct (foldl _ _ l) as [D C]. destruct IH as (Hin & HndD & Hocc).
    assert (i ∉ D) as Hni by (intros Hi; apply (Hd i); [by apply Hin|set_solver]).
    case_bool_decide as Hl; [|destruct (has groups (rd sh i)) eqn:Hh].
    - split_and!; [set_solver| |].
      + apply NoDup_app. split_and!; [done|set_solver|apply NoDup_singleton].
      + intros g Hg. destruct (Hocc g Hg). rewrite !occ_app, !occ_cons, !occ_nil.
        rewrite !decide_False by (intros <-; by apply Hdis in Hg). lia.
    - split_and!; [set_solver|done|]. intros g Hg. destruct (Hocc g Hg) as [? Hc].
      split; [done|]. rewrite map_get_incr, Hc, occ_app, occ_cons, occ_nil. lia.
    - split_and!; [set_solver|done|]. intros g Hg. destruct (Hocc g Hg) as [? Hc].
      split; [done|]. rewrite Hc, occ_app, occ_cons, occ_nil.
      rewrite decide_False by congruence. lia. }
  destruct (leaveDonors leaving groups sh) as [D C]. destruct H as (Hin & Hnd & Hocc).
  split_and!.
  - split; [done| |done]. intros i [? _]%Hin. by apply shard_indices_spec.
  - intros i Hi. rewrite Hin, shard_indices_spec. naive_solver.
  - intros g Hg. destruct (Hocc g Hg) as [E ->]. unfold kept. lia.
Qed.

(** ** Group maps *)

Lemma copyGroups_id groups : copyGroups groups = groups.
Proof. unfold copyGroups, copyGroups_of. by rewrite foldl_insert_map, map_union_empty. Qed.

Lemma addGroups_union servers groups : addGroups servers groups = servers ∪ groups.
Proof. unfold addGroups, addGroups_of. apply foldl_insert_map. Qed.

(** The changes, with the map's own order in every loop. *)
Lemma joinConfig_eq servers prev :
  joinConfig servers prev =
    let next := mkConfig (Num prev + 1) (Shards prev) (addGroups servers (copyGroups (Groups prev))) in
    if len (sortedGIDs (Groups next)) =? 0 then next <| Shards ::= all_to_zero |>
    else
      let targets := computeTargets (Groups next) in
      let '(donors, counts) := joinDonors (Groups next) targets (Shards next) (joinCounts (Groups next) (Shards next)) in
      next <| Shards ::= fillGroups (sortedGIDs servers) targets counts donors |>.
Proof. reflexivity. Qed.

Lemma leaveConfig_eq gids prev :
  leaveConfig gids prev =
    let groups := foldl (λ g gid, delete gid g) (copyGroups (Groups prev)) gids in
    let next := mkConfig (Num prev + 1) (Shards prev) groups in
    if len (sortedGIDs groups) =? 0 then next <| Shards ::= all_to_zero |>
    else
      let targets := computeTargets groups in
      let '(donors, counts) := leaveDonors (foldl (λ s gid, {[gid]} ∪ s) ∅ gids) groups (Shards next) in
      next <| Shards ::= fillGroups (sortedGIDs groups) targets counts donors |>.
Proof. reflexivity. Qed.

Lemma has_spec groups g : has groups g = true ↔ g ∈ dom groups.
Proof. unfold has. by rewrite bool_decide_eq_true, elem_of_dom. Qed.

Lemma len_gids_0 groups : len (sortedGIDs groups) = 0 ↔ groups = ∅.
Proof.
  destruct (sortedGIDs_spec groups) as (_ & _ & ->). split; [|intros ->; by rewrite dom_empty_L].
  intros E. apply dom_empty_iff_L, leibniz_equiv, size_empty_inv. lia.
Qed.

Lemma all_to_zero_spec sh :
  len (all_to_zero sh) = len sh ∧
  ∀ i, len sh = NShards → 0 ≤ i < NShards → rd (all_to_zero sh) i = 0.
Proof.
  unfold all_to_zero.
  assert (∀ l, len (foldl (λ sh i, wr sh i 0) sh l) = len sh ∧
     (∀ i, i ∈ l → 0 ≤ i < len sh → rd (foldl (λ sh i, wr sh i 0) sh l) i = 0)) as H.
  { intros l. induction l as [|j l [IH1 IH2]] using rev_ind; [split; [done|set_solver]|].
    rewrite foldl_app. cbn. rewrite len_wr. split; [done|].
    intros i Hi Hr. destruct (decide (i = j)) as [->|Hne]; [apply rd_wr_eq; lia|].
    destruct (decide (0 ≤ j)); [rewrite rd_wr_ne by done; apply IH2; set_solver|].
    unfold wr, in_range. rewrite (proj2 (Z.leb_gt _ _)) by lia. cbn.
    apply IH2; set_solver. }
  destruct (H shard_indices) as [E Hz]. split; [done|].
  intros i Hl Hi. apply Hz; [by apply shard_indices_spec|lia].
Qed.

(** More groups mean smaller shares. *)
Lemma share_antitone n m : 0 < n ≤ m → NShards `div` m ≤ NShards `div` n.
Proof. intros. apply Z.div_le_compat_l; [done|lia]. Qed.

Lemma size_dom_pos (groups : gmap Z (list string)) :
  groups ≠ ∅ → 0 < Z.of_nat (size (dom groups)).
Proof.
  intros Hne. destruct (decide (size (dom groups) = 0%nat)) as [E|]; [|lia].
  exfalso. by apply Hne, dom_empty_iff_L, leibniz_equiv, size_empty_inv.
Qed.

(** ** Join and Leave keep a configuration fair *)

(** Filling the groups [newg] of [gids] up to targets that add up to all the
    shards: a donor is left over only if some other group stays below its
    target. *)
Lemma fill_leftover gids newg T C D sh :
  donors_ok D sh → NoDup gids → NoDup newg → (∀ g, g ∈ newg → g ∈ gids) →
  (∀ g, g ∈ newg → map_get 0 C g = kept g D sh) →
  sum (λ g, map_get 0 T g) gids = NShards →
  let sh' := fillGroups newg T C D sh in
  ∃ D' given, donors_ok D' sh' ∧
    (∀ g, kept g D' sh' = kept g D sh + given g) ∧
    (∀ g, 0 ≤ given g ∧ (g ∉ newg → given g = 0) ∧ given g ≤ 0 `max` (map_get 0 T g - kept g D sh)) ∧
    (D' = [] ∨ ((∀ g, g ∈ newg → given g = 0 `max` (map_get 0 T g - kept g D sh)) ∧
                ∃ g, g ∈ gids ∧ g ∉ newg ∧ kept g D sh < map_get 0 T g)) ∧
    (∀ i, i ∈ D' → i ∈ D ∧ rd sh' i = rd sh i) ∧
    (∀ i, i ∈ D → i ∈ D' ∨ rd sh' i ∈ newg) ∧
    (∀ i, 0 ≤ i → rd sh' i = rd sh i ∨ (i ∈ D ∧ rd sh' i ∈ newg)).
Proof.
  intros Hok Hnd Hnew Hsub HC HT. cbn.
  destruct (fillGroups_spec newg T C D sh Hok Hnew)
    as (D' & given & Hok' & Hkept & Hgiven & Hlen & Hend & HD & HDin & Hrd).
  assert (∀ g, 0 ≤ given g ∧ (g ∉ newg → given g = 0) ∧
            given g ≤ 0 `max` (map_get 0 T g - kept g D sh)) as Hg.
  { intros g. specialize (Hgiven g). destruct (decide (g ∈ newg)) as [Hin|].
    - rewrite HC in Hgiven by done. split_and!; [lia|done|lia].
    - split_and!; [lia|lia|lia]. }
  exists D', given. split_and!; try done.
  destruct (decide (D' = [])) as [->|Hne]; [by left|right].
  destruct Hend as [?|Hend]; [done|]. split; [intros g Hin; by rewrite Hend, HC|].
  destruct (sum_lt_exists given (λ g, map_get 0 T g - kept g D sh) gids) as (g & Hin & Hlt).
  - rewrite <- (sum_subset given newg gids) by (done || (intros g _; apply Hg)).
    rewrite (sum_sub (λ g, map_get 0 T g)), HT. pose proof (sum_kept_le gids D sh Hok Hnd).
    assert (0 < len D') by (destruct D'; [done|rewrite len_cons; pose proof (len_nonneg D'); lia]).
    lia.
  - exists g. split; [done|]. destruct (Hg g) as (? & ? & ?). split; [|lia].
    intros Hin'. rewrite Hend, HC in Hlt by done. lia.
Qed.

(** If every shard is in a group and no group is above its target, each is at
    its target. *)
Lemma at_target gids T sh :
  NoDup gids → (∀ i, 0 ≤ i < NShards → rd sh i ∈ gids) →
  sum (λ g, map_get 0 T g) gids = NShards → (∀ g, g ∈ gids → held g sh ≤ map_get 0 T g) →
  ∀ g, g ∈ gids → held g sh = map_get 0 T g.
Proof.
  intros Hnd Hall HT Hle g Hg. apply (sum_le_eq (λ g, held g sh) (λ g, map_get 0 T g) gids); [done| |done].
  rewrite HT. unfold held. rewrite sum_occ; [apply len_shard_indices|done|].
  intros i Hi. by apply Hall, shard_indices_spec.
Qed.

Lemma zero_config_fair Gs sh n :
  len sh = NShards → Gs = ∅ → fair (mkConfig n (all_to_zero sh) Gs).
Proof.
  intros Hlen ->. destruct (all_to_zero_spec sh) as [El Ez].
  split; [split; [cbn; by rewrite El|]|split].
  - intros i Hi. rewrite decide_True by done. by apply Ez.
  - intros g. cbn. rewrite dom_empty_L. by intros ?%elem_of_empty.
  - cbn. rewrite dom_empty_L. apply not_elem_of_empty.
Qed.

(** What the shares of the old configuration say about the new ones. *)
Lemma same_share (Gp G : gmap Z (list string)) sh g b :
  balanced (mkConfig b sh Gp) → g ∈ dom Gp → dom Gp ⊆ dom G →
  held g sh ≤ NShards `div` Z.of_nat (size (dom G)) →
  NShards `div` Z.of_nat (size (dom Gp)) = NShards `div` Z.of_nat (size (dom G)).
Proof.
  intros Hb Hg Hsub Hlt. specialize (Hb g Hg). cbn in Hb.
  assert (0 < Z.of_nat (size (dom Gp))) by (apply size_dom_pos; intros ->; set_solver).
  assert (size (dom Gp) ≤ size (dom G))%nat by by apply subseteq_size.
  pose proof (share_antitone (Z.of_nat (size (dom Gp))) (Z.of_nat (size (dom G)))). lia.
Qed.

Lemma joinConfig_fair servers prev :
  fair prev → 0 ∉ dom servers → fair (joinConfig servers prev).
Proof.
  destruct prev as [num sh Gp]. intros ((Hlen & Hcomp) & Hbal & H0) Hs0. cbn in Hlen, Hcomp, H0.
  rewrite joinConfig_eq. cbn. rewrite copyGroups_id, addGroups_union. set (G := servers ∪ Gp).
  assert (dom G = dom servers ∪ dom Gp) as HdG by apply dom_union_L.
  destruct (len (sortedGIDs G) =? 0) eqn:EG; zbool; [by apply zero_config_fair, len_gids_0|].
  assert (G ≠ ∅) as HG by (intros E; by apply EG, len_gids_0).
  destruct (computeTargets_spec G HG) as [Hq HT]. set (T := computeTargets G) in *.
  set (q := NShards `div` Z.of_nat (size (dom G))) in *.
  assert (0 ≤ q) by (apply Z.div_pos; [done|by apply size_dom_pos]).
  destruct (sortedGIDs_spec G) as (Hnd & Hin & _).
  destruct (sortedGIDs_spec servers) as (Hnds & Hins & _).
  pose proof (joinDonors_spec G T sh (joinCounts G sh)) as HD.
  destruct (joinDonors G T sh (joinCounts G sh)) as [D C].
  destruct HD as (Hok & HDor & HDz & HDk).
  { destruct (has G 0) eqn:E; [|done]. apply has_spec in E. set_solver. }
  { done. }
  { intros g Hg. rewrite joinCounts_at, Hg. apply has_spec, Hq in Hg. lia. }
  destruct (fill_leftover (sortedGIDs G) (sortedGIDs servers) T C D sh)
    as (D' & given & Hok' & Hkept & Hgiven & Hend & HD' & HDin & Hrd); try done.
  { intros g. rewrite Hin, Hins. set_solver. }
  { intros g Hg. apply HDk, has_spec. rewrite Hins in Hg. set_solver. }
  set (sh' := fillGroups _ T C D sh) in *.
  assert (D' = [] ∨ ((∀ g, g ∈ dom servers → given g = 0 `max` (map_get 0 T g - kept g D sh)) ∧
            Gp ≠ ∅ ∧ ∀ g, g ∈ dom Gp → q ≤ held g sh ≤ q + 1)) as Hshare.
  { destruct Hend as [?|(Hfull & g & Hg & Hng & Hlt)]; [by left|right].
    rewrite Hin, HdG in Hg. rewrite Hins in Hng. assert (g ∈ dom Gp) as Hgp by set_solver.
    assert (g ∈ dom G) as HgG by set_solver.
    destruct (HDk g) as [Hk _]; [by apply has_spec|]. pose proof (Hq g HgG).
    split; [intros; apply Hfull; by apply Hins|]. split; [intros ->; set_solver|].
    unfold q. rewrite <- (same_share Gp G sh g num Hbal Hgp); [|set_solver|fold q; lia].
    intros g' Hg'. by apply Hbal. }
  assert (∀ i, 0 ≤ i < NShards → rd sh' i ∈ dom G) as Hall.
  { intros i Hi. destruct (Hrd i) as [E|[_ ?%Hins]]; [lia| |set_solver].
    specialize (Hcomp i Hi). case_decide as EGp; [|rewrite E; set_solver].
    destruct (HDin i) as [Hi'|?%Hins]; [by apply HDz| |set_solver].
    destruct Hshare as [->|(_ & ? & _)]; [by apply not_elem_of_nil in Hi'|done]. }
  split; [split; [apply (do_len _ _ Hok')|]|split; [|cbn; set_solver]].
  { intros i Hi. cbn. rewrite decide_False by done. by apply Hall. }
  intros g Hg. cbn in Hg |- *. fold q. change (held g _) with (held g sh').
  destruct (HDk g) as [Hk _]; [by apply has_spec|]. destruct (Hgiven g) as (? & Hg0 & ?).
  pose proof (Hkept g) as Ek. pose proof (held_kept g D' sh') as Eh. pose proof (Hq g Hg).
  destruct Hshare as [->|(Hfull & _ & Hold)].
  - rewrite (at_target (sortedGIDs G) T sh'); [done|done|by intros; apply Hin, Hall|done| |by apply Hin].
    intros g' Hg'. apply Hin in Hg'. destruct (HDk g') as [Hk' _]; [by apply has_spec|].
    destruct (Hgiven g') as (? & ? & ?). rewrite (held_kept g' [] sh'), Hkept, occ_nil. lia.
  - pose proof (occ_le g D D' sh sh' (do_nodup _ _ Hok') HD').
    pose proof (occ_nonneg g D' sh'). assert (occ g D sh = held g sh - kept g D sh) by (unfold kept; lia).
    destruct (decide (g ∈ dom Gp)) as [Hgp|Hgp].
    + specialize (Hold g Hgp). destruct (decide (g ∈ dom servers)) as [Hgs|Hgs].
      * pose proof (Hfull g Hgs). lia.
      * rewrite <- Hins in Hgs. specialize (Hg0 Hgs). lia.
    + assert (g ∈ dom servers) as Hgs by set_solver. pose proof (Hfull g Hgs).
      assert (held g sh = 0); [|lia]. unfold held, occ.
      enough (filter (λ i, rd sh i = g) shard_indices = []) as -> by done.
      apply donors_nil. intros i [Ei Hi%shard_indices_spec]%list_elem_of_filter.
      specialize (Hcomp i Hi). rewrite Ei in Hcomp. case_decide; [by subst g|done].
Qed.

Lemma delete_list_dom (gids : list Z) (groups : gmap Z (list string)) g :
  g ∈ dom (foldl (λ m gid, delete gid m) groups gids) ↔ g ∈ dom groups ∧ g ∉ gids.
Proof.
  revert groups. induction gids as [|x gids IH]; intros groups; cbn; [set_solver|].
  rewrite IH, dom_delete_L. set_solver.
Qed.

Lemma leaving_spec (gids : list Z) g :
  g ∈ foldl (λ (s : gset Z) gid, {[gid]} ∪ s) ∅ gids ↔ g ∈ gids.
Proof.
  enough (∀ acc : gset Z, g ∈ foldl (λ (s : gset Z) gid, {[gid]} ∪ s) acc gids ↔ g ∈ gids ∨ g ∈ acc)
    as H by (rewrite H; set_solver).
  induction gids as [|x gids IH]; intros acc; cbn; [set_solver|]. rewrite IH. set_solver.
Qed.

(** Leaving groups give all their shards away, so none is left over. *)
Lemma leaveConfig_parts gids prev :
  fair prev → let G := foldl (λ m gid, delete gid m) (Groups prev) gids in G ≠ ∅ →
  let T := computeTargets G in
  ∃ sh', leaveConfig gids prev = mkConfig (Num prev + 1) sh' G ∧ len sh' = NShards ∧
    (∀ i, 0 ≤ i < NShards → rd sh' i ∈ dom G) ∧
    (∀ i, 0 ≤ i < NShards → rd sh' i = rd (Shards prev) i ∨ rd (Shards prev) i ∈ gids) ∧
    ∀ g, g ∈ dom G →
      held g (Shards prev) ≤ held g sh' ≤ held g (Shards prev) `max` map_get 0 T g.
Proof.
  destruct prev as [num sh Gp]. cbn. intros ((Hlen & Hcomp) & Hbal & H0) HG. cbn in *.
  rewrite leaveConfig_eq. cbn. rewrite copyGroups_id.
  set (G := foldl _ Gp gids) in *. set (leaving := foldl _ ∅ gids).
  rewrite (proj2 (Z.eqb_neq _ _)) by (by intros ?%len_gids_0).
  destruct (computeTargets_spec G HG) as [Hq HT]. set (T := computeTargets G) in *.
  destruct (sortedGIDs_spec G) as (Hnd & Hin & _).
  pose proof (leaveDonors_spec leaving G sh Hlen) as HD.
  destruct (leaveDonors leaving G sh) as [D C]. destruct HD as (Hok & HDi & HDk).
  { intros g Hg%has_spec%delete_list_dom. unfold leaving. rewrite leaving_spec. apply Hg. }
  destruct (fill_leftover (sortedGIDs G) (sortedGIDs G) T C D sh)
    as (D' & given & Hok' & Hkept & Hgiven & Hend & HD' & HDin & Hrd); try done.
  { intros g Hg. apply HDk, has_spec, Hin, Hg. }
  set (sh' := fillGroups _ T C D sh) in *.
  assert (D' = []) as -> by (destruct Hend as [?|(_ & g & ? & ? & _)]; done).
  exists sh'. split; [done|]. split; [apply (do_len _ _ Hok')|]. split_and!.
  - intros i Hi. destruct (decide (i ∈ D)) as [HiD|HiD].
    + destruct (HDin i HiD) as [?%not_elem_of_nil|?%Hin]; done.
    + destruct (Hrd i) as [->|[? _]]; [lia| |done].
      rewrite (HDi i Hi) in HiD. unfold leaving in HiD. rewrite leaving_spec in HiD.
      apply delete_list_dom. split; [|done]. specialize (Hcomp i Hi).
      case_decide as EGp; [|done]. exfalso. apply HG, dom_empty_iff_L. apply set_eq. intros g.
      unfold G. rewrite delete_list_dom, EGp. set_solver.
  - intros i Hi. destruct (Hrd i) as [->|[HiD _]]; [lia|by left|right].
    apply HDi in HiD; [|done]. by apply leaving_spec in HiD.
  - intros g Hg. destruct (HDk g) as [Hk _]; [by apply has_spec|].
    destruct (Hgiven g) as (? & _ & ?). rewrite (held_kept g [] sh'), Hkept, occ_nil. lia.
Qed.

Lemma leaveConfig_fair gids prev : fair prev → fair (leaveConfig gids prev).
Proof.
  intros Hfair. set (G := foldl (λ m gid, delete gid m) (Groups prev) gids).
  destruct (decide (G = ∅)) as [E|HG].
  { rewrite leaveConfig_eq. cbn. rewrite copyGroups_id. fold G.
    rewrite (proj2 (Z.eqb_eq _ _)) by by apply len_gids_0. apply zero_config_fair; [apply Hfair|done]. }
  destruct (leaveConfig_parts gids prev Hfair HG) as (sh' & -> & Hlen & Hall & _ & Hheld).
  fold G in Hall, Hheld |- *. destruct Hfair as (_ & Hbal & H0).
  assert (∀ g, g ∈ dom G → g ∈ dom (Groups prev)) as Hsub by (intros g; apply delete_list_dom).
  split; [split; [done|]|split; [|cbn; auto]].
  { intros i Hi. cbn. rewrite decide_False by done. by apply Hall. }
  destruct (computeTargets_spec G HG) as [Hq HT]. set (T := computeTargets G) in *.
  destruct (sortedGIDs_spec G) as (Hnd & Hin & _).
  unfold balanced. cbn. set (q := NShards `div` Z.of_nat (size (dom G))) in *.
  intros g Hg. pose proof (Hq g Hg). pose proof (Hheld g Hg).
  destruct (decide (Exists (λ g, map_get 0 T g < held g (Shards prev)) (sortedGIDs G)))
    as [(g' & Hg' & Hlt)%Exists_exists|Hno].
  - rewrite Hin in Hg'. pose proof (Hbal g (Hsub g Hg)). pose proof (Hbal g' (Hsub g' Hg')).
    pose proof (Hq g' Hg'). cbn in *.
    assert (0 < Z.of_nat (size (dom G))) by by apply size_dom_pos.
    assert (size (dom G) ≤ size (dom (Groups prev)))%nat by (apply subseteq_size; intros ?; auto).
    pose proof (share_antitone (Z.of_nat (size (dom G))) (Z.of_nat (size (dom (Groups prev))))).
    unfold q in *. lia.
  - rewrite (at_target (sortedGIDs G) T sh'); try done; [by intros; apply Hin, Hall| |by apply Hin].
    intros g' Hg'. pose proof (Hheld g' (proj1 (Hin g') Hg')).
    assert (¬ map_get 0 T g' < held g' (Shards prev)) by (intros ?; apply Hno, Exists_exists; eauto).
    lia.
Qed.

(** A shard that Join moves goes to one of the joining groups. *)
Lemma joinConfig_moves servers prev i :
  len (Shards prev) = NShards → 0 ≤ i → servers ≠ ∅ → 0 ∉ dom (Groups prev) → 0 ∉ dom servers →
  rd (Shards (joinConfig servers prev)) i = rd (Shards prev) i ∨
  rd (Shards (joinConfig servers prev)) i ∈ dom servers.
Proof.
  destruct prev as [num sh Gp]. cbn. intros Hlen Hi Hs H0 Hs0.
  rewrite joinConfig_eq. cbn. rewrite copyGroups_id, addGroups_union. set (G := servers ∪ Gp).
  assert (dom G = dom servers ∪ dom Gp) as HdG by apply dom_union_L.
  assert (G ≠ ∅) as HG.
  { intros E. apply Hs, dom_empty_iff_L. apply (f_equal dom) in E. rewrite dom_empty_L in E. set_solver. }
  rewrite (proj2 (Z.eqb_neq _ _)) by (by intros ?%len_gids_0).
  destruct (computeTargets_spec G HG) as [Hq _]. set (T := computeTargets G) in *.
  pose proof (joinDonors_spec G T sh (joinCounts G sh)) as HD.
  destruct (joinDonors G T sh (joinCounts G sh)) as [D C].
  destruct HD as (Hok & _).
  { destruct (has G 0) eqn:E; [|done]. apply has_spec in E. set_solver. }
  { done. }
  { intros g Hg. rewrite joinCounts_at, Hg. apply has_spec, Hq in Hg.
    assert (0 ≤ NShards `div` Z.of_nat (size (dom G))) by (apply Z.div_pos; [done|by apply size_dom_pos]).
    lia. }
  destruct (sortedGIDs_spec servers) as (Hnds & Hins & _).
  destruct (fillGroups_spec (sortedGIDs servers) T C D sh Hok Hnds)
    as (D' & given & _ & _ & _ & _ & _ & _ & _ & Hrd).
  cbn. destruct (Hrd i Hi) as [?|[_ ?%Hins]]; auto.
Qed.
