(* ===== verification/ShardCtrlerFacts.v ===== *)
(** * The shard controller's state machine

    Over any log: configurations are numbered in order and never change once
    made; without Move they are complete and balanced; retries are ignored;
    replicas agree whichever order Go ranges over maps in.  Also the requests
    that stop every replica, which are the only ones that do. *)
From stdpp Require Import base tactics list gmap strings numbers sorting.
From S2P Require Import Prelude.
From S2P Require Import Labgob.
From S2P Require Import Persister.
From S2P Require Import Raft.
From S2P Require Import ShardCtrler.
From S2P Require Import ShardBalance.
Open Scope Z_scope.
Open Scope go_scope.

(** The apply loop over a log of operations; [None] is a panic. *)
Fixpoint run_ops (L : list Op) (sc : ShardCtrler) : option ShardCtrler :=
  match L with
  | [] => Some sc
  | op :: L =>
      match applyOp op sc with
      | Some (sc, _) => run_ops L sc
      | None => None
      end
  end.

Definition is_change (op : Op) : bool :=
  bool_decide (Type_ op = "Join") || bool_decide (Type_ op = "Leave")
  || bool_decide (Type_ op = "Move").

(** The operations of a log without Move: groups have nonzero numbers, and a
    query asks for the latest configuration or a numbered one. *)
Definition rebalancing_op (op : Op) : Prop :=
  (Type_ op = "Join" ∧ 0 ∉ dom (JoinServers op)) ∨ Type_ op = "Leave" ∨
  (Type_ op = "Query" ∧ -1 ≤ QueryNum op).

(** A query for a number below -1, and a move of a shard that does not exist
    unless it is taken for a retry. *)
Definition poison (sc : ShardCtrler) (op : Op) : Prop :=
  (Type_ op = "Query" ∧ QueryNum op < -1) ∨
  (Type_ op = "Move" ∧ ¬ 0 ≤ MoveShard op < NShards ∧ isDuplicate (ClientID op) (RequestID op) sc = false).

Definition numbered (sc : ShardCtrler) : Prop :=
  configs sc ≠ [] ∧ ∀ k c, configs sc !! k = Some c → Num c = Z.of_nat k.

(** ** One operation *)

(** With the map's own order in every loop. *)
Lemma applyOp_eq op sc :
  applyOp op sc =
    let changed_by (make : Config → option Config) sc :=
      match latest (configs sc) with
      | Some prev => match make prev with Some next => Some (append_config next sc) | None => None end
      | None => None
      end in
    if decide (Type_ op = "Join") then
      with_result op (apply_change op (changed_by (λ prev, Some (joinConfig (JoinServers op) prev))) sc)
    else if decide (Type_ op = "Leave") then
      with_result op (apply_change op (changed_by (λ prev, Some (leaveConfig (LeaveGIDs op) prev))) sc)
    else if decide (Type_ op = "Move") then
      with_result op (apply_change op (changed_by (moveConfig (MoveShard op) (MoveGID op))) sc)
    else if decide (Type_ op = "Query") then
      match readConfig (QueryNum op) sc with Some c => Some (sc, mkResult op c) | None => None end
    else Some (sc, mkResult zeroOp zeroConfig).
Proof. reflexivity. Qed.

Lemma latest_Some cs : cs ≠ [] → ∃ c, latest cs = Some c ∧ cs !! (length cs - 1)%nat = Some c.
Proof.
  intros Hne. assert (0 < length cs)%nat by (destruct cs; [done|cbn; lia]).
  destruct (idx_is_Some (len cs - 1) cs) as [c Hc]; [unfold len; lia|].
  exists c. split; [done|]. apply idx_Some in Hc as [_ <-]. f_equal. unfold len. lia.
Qed.

Lemma join_Num servers prev : Num (joinConfig servers prev) = Num prev + 1.
Proof.
  rewrite joinConfig_eq. cbn. case_if; [done|]. destruct (joinDonors _ _ _ _). done.
Qed.

Lemma leave_Num gids prev : Num (leaveConfig gids prev) = Num prev + 1.
Proof. rewrite leaveConfig_eq. cbn. case_if; [done|]. destruct (leaveDonors _ _ _). done. Qed.

Lemma move_Num shard gid prev next : moveConfig shard gid prev = Some next → Num next = Num prev + 1.
Proof. unfold moveConfig, moveConfig_of. case_if; [|done]. by intros [= <-]. Qed.

(** What an operation does to the list of configurations: nothing, or one more
    made from the latest. *)
Lemma applyOp_configs op sc sc' res :
  applyOp op sc = Some (sc', res) →
  configs sc' = configs sc ∨
  ∃ prev next, latest (configs sc) = Some prev ∧ configs sc' = configs sc ++ [next] ∧
    Num next = Num prev + 1 ∧
    ((Type_ op = "Join" ∧ next = joinConfig (JoinServers op) prev) ∨
     (Type_ op = "Leave" ∧ next = leaveConfig (LeaveGIDs op) prev) ∨
     (Type_ op = "Move" ∧ moveConfig (MoveShard op) (MoveGID op) prev = Some next)).
Proof.
  rewrite applyOp_eq. unfold with_result, apply_change. cbn. intros H.
  repeat case_decide; repeat case_if_in H; repeat case_match; simplify_eq/=; auto; right.
  - eexists _, _. split_and!; [done|done|apply join_Num|]. auto.
  - eexists _, _. split_and!; [done|done|apply leave_Num|]. auto.
  - eexists _, _. split_and!; [done|done|by eapply move_Num|]. auto.
Qed.

Lemma applyOp_numbered op sc sc' res :
  applyOp op sc = Some (sc', res) → numbered sc → numbered sc'.
Proof.
  intros H [Hne Hn]. destruct (applyOp_configs _ _ _ _ H) as [E|(prev & next & Hl & E & HN & _)];
    unfold numbered; rewrite E; [done|].
  split; [by destruct (configs sc)|]. intros k c [Hk|[Hk Hc]]%lookup_app_Some; [auto|].
  apply list_lookup_singleton_Some in Hc as [Hk' <-].
  destruct (latest_Some _ Hne) as (c & Hc & Hcl). simplify_eq. rewrite HN, (Hn _ _ Hcl).
  assert (0 < length (configs sc))%nat by (destruct (configs sc); [done|cbn; lia]). lia.
Qed.

Lemma readConfig_panics n sc : numbered sc → readConfig n sc = None ↔ n < -1.
Proof.
  intros [Hne _]. destruct (latest_Some _ Hne) as (c & Hc & _). pose proof (len_nonneg (configs sc)).
  unfold readConfig. rewrite Hc. split.
  - intros Hr. case_if_in Hr; [done|]. zbool. destruct (decide (n < -1)); [done|].
    destruct (idx_is_Some n (configs sc)); [lia|congruence].
  - intros Hn. rewrite (proj2 (Z.eqb_neq _ _)), (proj2 (Z.leb_gt _ _)) by lia. cbn. rewrite idx_None; [done|lia].
Qed.

Lemma moveConfig_panics shard gid prev : moveConfig shard gid prev = None ↔ ¬ 0 ≤ shard < NShards.
Proof.
  unfold moveConfig, moveConfig_of. case_if; zbool; split; try done; [lia|]. intros _. destruct E; zbool; lia.
Qed.

(** Exactly these operations panic. *)
Lemma applyOp_panics op sc : numbered sc → applyOp op sc = None ↔ poison sc op.
Proof.
  intros Hn. destruct (latest_Some _ (proj1 Hn)) as (c & Hc & _).
  pose proof (readConfig_panics (QueryNum op) sc Hn) as Hq. pose proof (moveConfig_panics (MoveShard op) (MoveGID op) c) as Hm.
  rewrite applyOp_eq. unfold with_result, apply_change, poison. cbn. rewrite Hc.
  clear Hn Hc. repeat case_decide; try match goal with E : Type_ op = _ |- _ => rewrite E end.
  - case_if; split; (done || intros [[??]|[??]]; done).
  - case_if; split; (done || intros [[??]|[??]]; done).
  - destruct (isDuplicate _ _ _), (moveConfig _ _ _); cbn; naive_solver.
  - destruct (readConfig _ _); naive_solver.
  - split; [done|]. intros [[??]|[??]]; done.
Qed.

Lemma applyOp_total op sc : numbered sc → ¬ poison sc op → is_Some (applyOp op sc).
Proof. intros Hn Hp. apply not_eq_None_Some. by intros ?%applyOp_panics. Qed.

Lemma applyOp_table op sc sc' res c last :
  applyOp op sc = Some (sc', res) → lastAppliedReq sc !! c = Some last →
  ∃ last', lastAppliedReq sc' !! c = Some last' ∧ last ≤ last'.
Proof.
  intros H Hc. rewrite applyOp_eq in H. unfold with_result, apply_change in H. cbn in H.
  assert (∀ sc1 : ShardCtrler, lastAppliedReq sc1 = lastAppliedReq sc →
            isDuplicate (ClientID op) (RequestID op) sc = false →
            ∃ last', <[ClientID op := RequestID op]> (lastAppliedReq sc1) !! c = Some last' ∧
                     last ≤ last') as Hnew.
  { intros sc1 -> Hd. destruct (decide (ClientID op = c)) as [<-|Hne].
    - rewrite lookup_insert_eq. eexists. split; [done|]. unfold isDuplicate in Hd.
      rewrite Hc in Hd. zbool. lia.
    - rewrite lookup_insert_ne by done. exists last. split; [done|lia]. }
  repeat case_decide; repeat case_if_in H; repeat case_match; simplify_eq/=; zbool;
    first [exists last; split; [done|lia]|eapply Hnew; done].
Qed.

Lemma applyOp_is_change op :
  is_change op = true →
  ∃ change, ∀ sc, applyOp op sc = with_result op (apply_change op change sc).
Proof.
  unfold is_change. intros Hch. setoid_rewrite applyOp_eq. cbn.
  destruct (decide (Type_ op = "Join")); [by eexists|].
  destruct (decide (Type_ op = "Leave")); [by eexists|].
  destruct (decide (Type_ op = "Move")); [by eexists|].
  by rewrite !bool_decide_false in Hch.
Qed.

Lemma run_ops_table L sc sc' c last :
  run_ops L sc = Some sc' → lastAppliedReq sc !! c = Some last →
  ∃ last', lastAppliedReq sc' !! c = Some last' ∧ last ≤ last'.
Proof.
  revert sc last. induction L as [|op L IH]; intros sc last; cbn.
  { intros [= <-]. exists last. split; [done|lia]. }
  destruct (applyOp op sc) as [[sc1 res]|] eqn:E; [|done]. intros HL Hc.
  destruct (applyOp_table _ _ _ _ _ _ E Hc) as (l1 & Hl1 & ?).
  destruct (IH _ _ HL Hl1) as (l2 & ? & ?). exists l2. split; [done|lia].
Qed.

Lemma start_configs npeers i ps :
  configs (StartServer npeers i ps) = [mkConfig 0 (all_to_zero (replicate (Z.to_nat NShards) 0)) ∅].
Proof. done. Qed.

Lemma start_numbered npeers i ps : numbered (StartServer npeers i ps).
Proof.
  split; [done|]. rewrite start_configs. intros k c Hk.
  by apply list_lookup_singleton_Some in Hk as [-> <-].
Qed.

(** Joins, leaves and queries do not panic and keep configurations fair. *)
Lemma run_ops_fair L sc :
  numbered sc → (∀ k c, configs sc !! k = Some c → fair c) → Forall rebalancing_op L →
  ∃ sc', run_ops L sc = Some sc' ∧ ∀ k c, configs sc' !! k = Some c → Num c = Z.of_nat k ∧ fair c.
Proof.
  revert sc. induction L as [|op L IH]; intros sc Hn Hf HL; cbn.
  { exists sc. split; [done|]. intros k c Hk. split; [by apply Hn|eauto]. }
  apply Forall_cons in HL as [Hop HL].
  destruct (applyOp_total op sc Hn) as [[sc1 res] E].
  { unfold rebalancing_op, poison in *. intros [[E Hq]|(E & _)]; rewrite E in Hop; naive_solver lia. }
  rewrite E. apply IH; [by eapply applyOp_numbered| |done].
  destruct (applyOp_configs _ _ _ _ E) as [->|(prev & next & Hp & -> & _ & Hnext)]; [done|].
  intros k c [Hk|[_ Hk]]%lookup_app_Some; [eauto|].
  apply list_lookup_singleton_Some in Hk as [_ <-].
  destruct (latest_Some _ (proj1 Hn)) as (p & Hp' & Hlast). simplify_eq.
  destruct Hnext as [[Ej ->]|[[El ->]|[Em _]]].
  - apply joinConfig_fair; [eauto|]. destruct Hop as [[_ ?]|[?|[? _]]]; congruence.
  - apply leaveConfig_fair; eauto.
  - destruct Hop as [[? _]|[?|[? _]]]; congruence.
Qed.

Lemma start_fair npeers i ps k c : configs (StartServer npeers i ps) !! k = Some c → fair c.
Proof.
  rewrite start_configs. intros Hk. apply list_lookup_singleton_Some in Hk as [_ <-]. by apply zero_config_fair.
Qed.

(** ** The claims *)

(** Over any log of joins and leaves with queries and retries in it no
    operation panics, the configurations are numbered in order from 0, and
    each assigns every shard to one of its groups (to group 0 when there is
    none) so that the groups' numbers of shards differ by one at most. *)
Theorem ctrler_configs_fair npeers i ps L :
  Forall rebalancing_op L →
  ∃ sc, run_ops L (StartServer npeers i ps) = Some sc ∧
    ∀ k c, configs sc !! k = Some c → Num c = Z.of_nat k ∧ fair c.
Proof. intros HL. apply run_ops_fair; [apply start_numbered|apply start_fair|done]. Qed.

(** The history of configurations only grows: any operation the log may hold
    keeps every configuration made so far, adds at most one, numbered next,
    and a query for number [n] then always gets the same answer. *)
Theorem ctrler_history sc op sc' res n c :
  numbered sc → applyOp op sc = Some (sc', res) → readConfig n sc = Some c → 0 ≤ n < len (configs sc) →
  numbered sc' ∧ len (configs sc) ≤ len (configs sc') ≤ len (configs sc) + 1 ∧
  readConfig n sc' = Some c ∧ Num c = n.
Proof.
  intros Hn H Hr Hlt. split; [by eapply applyOp_numbered|].
  assert (idx (configs sc) n = Some c) as Hc.
  { unfold readConfig in Hr. case_if_in Hr; [|done]. apply orb_true_iff in E as [E|E]; zbool; lia. }
  assert (Num c = n) as HN.
  { pose proof Hc as [? Hc']%idx_Some. rewrite (proj2 Hn _ _ Hc'). lia. }
  unfold readConfig. rewrite (proj2 (Z.eqb_neq n (-1))) by lia. cbn.
  destruct (applyOp_configs _ _ _ _ H) as [->|(? & next & _ & -> & _)].
  - rewrite (proj2 (Z.leb_gt _ _)) by lia. split_and!; auto; lia.
  - rewrite len_snoc, (proj2 (Z.leb_gt _ _)), idx_app_l by lia. split_and!; auto; lia.
Qed.

(** A query returns the configuration of its number, or the latest one for
    number -1 and for a number not reached yet; a number below -1 is a panic
    of the replica that applies it. *)
Theorem ctrler_query sc n :
  numbered sc →
  match readConfig n sc with
  | Some c => -1 ≤ n ∧ c ∈ configs sc ∧
              Num c = if (0 <=? n) && (n <? len (configs sc)) then n else len (configs sc) - 1
  | None => n < -1
  end.
Proof.
  intros [Hne Hn]. destruct (latest_Some _ Hne) as (l & Hl & Hlast).
  assert (Num l = len (configs sc) - 1) as HN.
  { rewrite (Hn _ _ Hlast). assert (0 < length (configs sc))%nat
      by (destruct (configs sc); [done|cbn; lia]).
    unfold len. lia. }
  pose proof (len_nonneg (configs sc)).
  unfold readConfig. destruct ((n =? -1) || (len (configs sc) <=? n)) eqn:E.
  - rewrite Hl. split; [apply orb_true_iff in E as [?|?]; zbool; lia|].
    split; [by eapply list_elem_of_lookup_2|]. rewrite HN. case_if; [|done]. zbool.
    destruct E; zbool; lia.
  - zbool. destruct (idx (configs sc) n) as [c|] eqn:Hc.
    + apply idx_Some in Hc as [? Hc]. split; [lia|]. split; [by eapply list_elem_of_lookup_2|].
      rewrite (proj2 (Z.leb_le _ _)), (proj2 (Z.ltb_lt _ _)) by lia. cbn.
      rewrite (Hn _ _ Hc). lia.
    + destruct (decide (n < -1)); [done|]. destruct (idx_is_Some n (configs sc)); [lia|congruence].
Qed.

(** A change that has been applied is never applied again, whatever was
    applied since: its retry leaves the controller as it is. *)
Theorem ctrler_retry_ignored op L sc sc1 sc2 res :
  is_change op = true → applyOp op sc = Some (sc1, res) → run_ops L sc1 = Some sc2 →
  applyOp op sc2 = Some (sc2, mkResult op zeroConfig).
Proof.
  intros Hch H HL. destruct (applyOp_is_change op Hch) as (change & Happ).
  rewrite Happ in *. unfold with_result, apply_change in *.
  assert (∃ last, lastAppliedReq sc1 !! ClientID op = Some last ∧ RequestID op ≤ last)
    as (last & Hlast & Hle).
  { destruct (isDuplicate (ClientID op) (RequestID op) sc) eqn:Hd; cbn in H.
    - simplify_eq. unfold isDuplicate in Hd. case_match; [|done]. zbool. eauto.
    - exists (RequestID op). split; [|lia]. destruct (change sc); simplify_eq/=.
      apply lookup_insert_eq. }
  destruct (run_ops_table _ _ _ _ _ HL Hlast) as (last' & Hlast' & ?).
  assert (isDuplicate (ClientID op) (RequestID op) sc2 = true) as ->
    by (unfold isDuplicate; rewrite Hlast'; apply Z.leb_le; lia).
  done.
Qed.

(** Rebalancing moves only the shards it must: a shard that a join moves
    goes to a group that joins, and a shard that a leave moves, while groups
    remain, belonged to a group that leaves. *)
Theorem ctrler_minimal_moves prev servers gids i :
  fair prev → 0 ≤ i < NShards →
  (servers ≠ ∅ → 0 ∉ dom servers → let next := joinConfig servers prev in
     rd (Shards next) i ≠ rd (Shards prev) i → rd (Shards next) i ∈ dom servers) ∧
  (let next := leaveConfig gids prev in Groups next ≠ ∅ →
     rd (Shards next) i ≠ rd (Shards prev) i → rd (Shards prev) i ∈ gids).
Proof.
  intros Hfair Hi. pose proof Hfair as ((Hlen & _) & _ & H0). split; cbn.
  - intros Hs Hs0. destruct (joinConfig_moves servers prev i); [done|lia|done|done|done|done|done].
  - set (G := foldl (λ m gid, delete gid m) (Groups prev) gids).
    destruct (decide (G = ∅)) as [E|HG].
    + intros Hne. exfalso. apply Hne. rewrite leaveConfig_eq. cbn. rewrite copyGroups_id. fold G.
      by rewrite (proj2 (Z.eqb_eq _ _)) by by apply len_gids_0.
    + destruct (leaveConfig_parts gids prev Hfair HG) as (sh' & -> & _ & _ & Hmv & _).
      intros _ Hne. cbn in Hne. destruct (Hmv i Hi); done.
Qed.

Lemma sort_perm l l' : l ≡ₚ l' → sort_Ints l = sort_Ints l'.
Proof.
  intros Hp. unfold sort_Ints. apply (StronglySorted_unique Z.le).
  - apply (StronglySorted_merge_sort _).
  - apply (StronglySorted_merge_sort _).
  - by rewrite !merge_sort_Permutation.
Qed.

(** The order of a loop may be any order of the entries of its map. *)
Definition any_order (order : MapOrder) : Prop := ∀ loop m, order loop m ≡ₚ map_to_list m.

Section orders.
Context (order : MapOrder) (Horder : any_order order).
Implicit Types (servers groups : gmap Z (list string)) (loop : RangeLoop).

Lemma order_nodup loop groups : NoDup (order loop groups).*1.
Proof using Horder. rewrite (Horder loop groups). apply NoDup_fst_map_to_list. Qed.

Lemma order_map loop groups : list_to_map (order loop groups) = groups.
Proof using Horder.
  rewrite <- (list_to_map_to_list groups) at 2. apply list_to_map_proper; [apply order_nodup|apply Horder].
Qed.

Lemma sortedGIDs_order loop groups : sortedGIDs_of (order loop groups) = sortedGIDs groups.
Proof using Horder. apply sort_perm. by rewrite (Horder loop groups). Qed.

Lemma newGIDs_order loop servers : newGIDs_of (order loop servers) = sortedGIDs servers.
Proof using Horder. apply sort_perm. by rewrite (Horder loop servers). Qed.

Lemma computeTargets_order loop groups : computeTargets_of (order loop groups) = computeTargets groups.
Proof using Horder. unfold computeTargets, computeTargets_of. by rewrite sortedGIDs_order. Qed.

Lemma copyGroups_order loop groups : copyGroups_of (order loop groups) = copyGroups groups.
Proof using Horder.
  rewrite copyGroups_id. unfold copyGroups_of. rewrite foldl_insert_union by apply order_nodup.
  by rewrite order_map, map_union_empty.
Qed.

Lemma addGroups_order loop servers groups : addGroups_of (order loop servers) groups = addGroups servers groups.
Proof using Horder.
  rewrite addGroups_union. unfold addGroups_of. rewrite foldl_insert_union by apply order_nodup. by rewrite order_map.
Qed.

(** The next configuration of a change. *)
Lemma joinConfig_order servers prev : joinConfig_of order servers prev = joinConfig servers prev.
Proof using Horder.
  rewrite joinConfig_eq. unfold joinConfig_of. cbn.
  by rewrite copyGroups_order, addGroups_order, sortedGIDs_order, computeTargets_order, newGIDs_order.
Qed.
Lemma leaveConfig_order gids prev : leaveConfig_of order gids prev = leaveConfig gids prev.
Proof using Horder.
  rewrite leaveConfig_eq. unfold leaveConfig_of. cbn. by rewrite copyGroups_order, sortedGIDs_order, computeTargets_order.
Qed.
Lemma moveConfig_order shard gid prev : moveConfig_of order shard gid prev = moveConfig shard gid prev.
Proof using Horder. unfold moveConfig, moveConfig_of. by rewrite copyGroups_order, (copyGroups_id : ∀ g, copyGroups_of (map_order RCopyGroups g) = g), copyGroups_id. Qed.

Lemma applyOp_order op sc : applyOp_of order op sc = applyOp op sc.
Proof using Horder.
  rewrite applyOp_eq. unfold applyOp_of, apply_change, applyJoin_of, applyLeave_of, applyMove_of. cbn.
  destruct (latest (configs sc)) as [prev|]; [|done]. by rewrite joinConfig_order, leaveConfig_order, moveConfig_order.
Qed.
End orders.

(** The apply loop of a replica whose loops over maps in its [k]-th operation
    run in the orders [orders k]. *)
Fixpoint run_ops_of (orders : nat → MapOrder) (L : list Op) (sc : ShardCtrler) : option ShardCtrler :=
  match L with
  | [] => Some sc
  | op :: L =>
      match applyOp_of (orders 0%nat) op sc with
      | Some (sc, _) => run_ops_of (λ k, orders (S k)) L sc
      | None => None
      end
  end.

(** C24.  Replicas agree.  Whichever order Go chooses for each loop over a map,
    each time a replica applies a [Join], a [Leave] or a [Move], the replica
    makes the same configurations of a log, shard by shard, panics at the same
    operations, and answers the next one in the same way. *)
Theorem ctrler_order_irrelevant (orders : nat → MapOrder) L sc :
  (∀ k, any_order (orders k)) →
  run_ops_of orders L sc = run_ops L sc ∧
  ∀ op sc', applyOp_of (orders (length L)) op sc' = applyOp op sc'.
Proof.
  intros Ho. split; [|intros op sc'; by apply applyOp_order]. revert orders sc Ho.
  induction L as [|op L IH]; intros orders sc Ho; [done|]. cbn. rewrite applyOp_order by done.
  destruct (applyOp op sc) as [[sc1 res]|]; [|done]. by apply IH.
Qed.

(** ** Requests that stop every replica, and an unbalanced join *)

Definition query_op (n : Z) : Op := mkOp "Query" ∅ [] 0 0 n 1 1.
Definition join_op (g : Z) (r : Z) : Op := mkOp "Join" {[g := ["a"]]} [] 0 0 0 1 r.
Definition leave_op (g : Z) (r : Z) : Op := mkOp "Leave" ∅ [g] 0 0 0 1 r.
Definition move_op (shard g r : Z) : Op := mkOp "Move" ∅ [] shard g 0 1 r.
Definition first_server : ShardCtrler := StartServer 3 0 MakePersister.

(** A log goes on from where a first part of it leads. *)
Lemma run_ops_app L1 L2 sc sc1 : run_ops L1 sc = Some sc1 → run_ops (L1 ++ L2) sc = run_ops L2 sc1.
Proof.
  revert sc. induction L1 as [|op L1 IH]; intros sc; cbn; [by intros [= ->]|].
  destruct (applyOp op sc) as [[sc' res]|]; [apply IH|done].
Qed.

Lemma run_ops_numbered L sc sc' : run_ops L sc = Some sc' → numbered sc → numbered sc'.
Proof.
  revert sc. induction L as [|op L IH]; intros sc; cbn; [by intros [= <-]|].
  destruct (applyOp op sc) as [[sc1 res]|] eqn:E; [|done]. eauto using applyOp_numbered.
Qed.

(** C25.  A replica panics on a log exactly when the log holds, after a part it
    gets through, a query for a number below -1, or a move of a shard that does
    not exist and that it does not take for a retry.  Such a command stops
    every replica, and stops it again each time it replays the log; no other
    command does. *)
Theorem ctrler_poison_requests L :
  run_ops L first_server = None ↔
  ∃ L1 op L2 sc, L = L1 ++ op :: L2 ∧ run_ops L1 first_server = Some sc ∧ poison sc op.
Proof.
  split.
  - assert (numbered first_server) as Hn by apply start_numbered. revert Hn. generalize first_server as sc.
    induction L as [|op L IH]; intros sc Hn; [done|]. cbn. destruct (applyOp op sc) as [[sc1 res]|] eqn:E.
    + intros Hr. destruct (IH sc1) as (L1 & op' & L2 & sc2 & -> & Hr1 & Hp); [by eapply applyOp_numbered|done|].
      exists (op :: L1), op', L2, sc2. cbn. by rewrite E.
    + intros _. exists [], op, L, sc. split_and!; [done|done|]. by apply applyOp_panics.
  - intros (L1 & op & L2 & sc & -> & Hr & Hp). rewrite (run_ops_app _ _ _ _ Hr). cbn.
    by rewrite (proj2 (applyOp_panics op sc (run_ops_numbered _ _ _ Hr (start_numbered _ _ _))) Hp).
Qed.

(** A join after moves need not balance: it gives shards to the joining
    groups only, so with groups 1 and 2 and every shard moved to group 1, a
    join of group 3 leaves group 2 without a shard and group 1 with seven. *)
Theorem ctrler_join_after_move :
  ∃ sc c, run_ops ([join_op 1 1; join_op 2 2] ++ ((λ i, move_op i 1 (3 + i)) <$> shard_indices)
                     ++ [join_op 3 13]) first_server = Some sc ∧
    latest (configs sc) = Some c ∧
    (held 1 (Shards c), held 2 (Shards c), held 3 (Shards c)) = (7, 0, 3).
Proof. eexists _, _. split; [vm_compute; reflexivity|]. split; vm_compute; reflexivity. Qed.

(** ** Witnesses *)

Definition some_log : list Op :=
  [join_op 1 1; join_op 2 2; join_op 2 2; join_op 5 3; query_op (-1); leave_op 1 4].

Lemma some_log_ok : Forall rebalancing_op some_log.
Proof.
  unfold some_log. repeat (apply Forall_cons; split); [..|by apply Forall_nil];
    unfold rebalancing_op; cbn -[dom singletonM];
    first [left; split; [done|rewrite dom_singleton_L; set_solver]|right; left; done|right; right; split; [done|cbn; lia]].
Qed.

Lemma ctrler_configs_fair_witness :
  ∃ sc, run_ops some_log first_server = Some sc ∧
    (∀ k c, configs sc !! k = Some c → Num c = Z.of_nat k ∧ fair c) ∧
    len (configs sc) = 5.
Proof.
  destruct (ctrler_configs_fair 3 0 MakePersister some_log some_log_ok) as (sc & H & Hf).
  exists sc. split; [done|]. split; [done|].
  assert (run_ops some_log first_server = Some sc) as H' by done.
  vm_compute in H'. by injection H' as <-.
Defined.

Definition after_join_1 : ShardCtrler :=
  default first_server (run_ops [join_op 1 1] first_server).

Lemma ctrler_history_witness :
  ∃ sc' res c, applyOp (join_op 2 2) after_join_1 = Some (sc', res) ∧
    readConfig 1 sc' = Some c ∧ Num c = 1.
Proof.
  assert (numbered after_join_1) as Hn.
  { split; [done|]. intros k c. destruct k as [|[|k]]; [vm_compute; by intros [= <-]..|done]. }
  destruct (applyOp (join_op 2 2) after_join_1) as [[sc' res]|] eqn:E; [|by vm_compute in E].
  destruct (readConfig 1 after_join_1) as [c|] eqn:Ec; [|by vm_compute in Ec].
  destruct (ctrler_history _ _ _ _ 1 c Hn E Ec ltac:(by vm_compute)) as (_ & _ & ? & ?).
  exists sc', res, c. done.
Defined.

Lemma ctrler_query_witness :
  match readConfig (-1) first_server with Some c => Num c = 0 | None => False end.
Proof.
  pose proof (ctrler_query first_server (-1) (start_numbered 3 0 MakePersister)) as H.
  destruct (readConfig (-1) first_server) as [c|]; [|done]. apply H.
Defined.

Lemma ctrler_retry_ignored_witness :
  ∃ sc2, run_ops [join_op 2 2] after_join_1 = Some sc2 ∧
    applyOp (join_op 1 1) sc2 = Some (sc2, mkResult (join_op 1 1) zeroConfig).
Proof.
  destruct (applyOp (join_op 1 1) first_server) as [[sc1 res]|] eqn:E; [|by vm_compute in E].
  destruct (run_ops [join_op 2 2] sc1) as [sc2|] eqn:E2.
  - exists sc2. split.
    + rewrite <- E2. unfold after_join_1. cbn [run_ops default]. by rewrite E.
    + by apply (ctrler_retry_ignored (join_op 1 1) [join_op 2 2] first_server sc1 sc2 res).
  - exfalso. vm_compute in E. injection E as <- <-. by vm_compute in E2.
Defined.

Lemma ctrler_minimal_moves_witness :
  rd (Shards (joinConfig {[2 := ["b"]]} (mkConfig 1 (replicate 10 1) {[1 := ["a"]]}))) 0 = 2 ∧
  2 ∈ dom ({[2 := ["b"]]} : gmap Z (list string)).
Proof.
  assert (fair (mkConfig 1 (replicate 10 1) {[1 := ["a"]]})) as Hf.
  { split; [split; [done|]|split].
    - intros i Hi. rewrite decide_False by done. cbn.
      assert (∀ j : nat, (j < 10)%nat → rd (replicate 10 1) (Z.of_nat j) = 1) as H
        by (intros j Hj; do 10 (destruct j as [|j]; [done|]); lia).
      replace i with (Z.of_nat (Z.to_nat i)) by (unfold NShards in Hi; lia).
      rewrite H by (unfold NShards in Hi; lia). set_solver.
    - intros g Hg. assert (g = 1) as -> by set_solver. by vm_compute.
    - set_solver. }
  destruct (ctrler_minimal_moves _ {[2 := ["b"]]} [] 0 Hf ltac:(done)) as [Hj _].
  split; [by vm_compute|]. apply Hj; [done|set_solver|by vm_compute].
Defined.

(** A replica that goes over every map backwards. *)
Lemma ctrler_order_irrelevant_witness :
  ∃ sc, run_ops_of (λ _ _ m, reverse (map_to_list m)) some_log first_server = Some sc ∧ len (configs sc) = 5.
Proof.
  destruct (ctrler_order_irrelevant (λ _ _ m, reverse (map_to_list m)) some_log first_server) as [-> _].
  - intros k loop m. apply reverse_Permutation.
  - destruct (run_ops some_log first_server) as [sc|] eqn:E; [|by vm_compute in E].
    exists sc. split; [reflexivity|]. vm_compute in E. by injection E as <-.
Defined.

Lemma ctrler_poison_requests_witness :
  run_ops ([join_op 1 1] ++ query_op (-2) :: [join_op 2 2]) first_server = None ∧
  run_ops [join_op 1 1; move_op 10 1 1] first_server ≠ None.
Proof.
  destruct (run_ops [join_op 1 1] first_server) as [sc|] eqn:E; [|by vm_compute in E]. split; [|by vm_compute].
  apply ctrler_poison_requests. exists [join_op 1 1], (query_op (-2)), [join_op 2 2], sc.
  split; [reflexivity|]. split; [exact E|]. left. by split.
Defined.
