(* ===== verification/ShardCtrlerClerk.v ===== *)
(** * shardctrler/client.go: the clerk of the shard controller

    Its four requests run the loop of ClerkLoop.v; they accept a reply that
    does not say [WrongLeader]. *)
From stdpp Require Import base tactics list gmap strings numbers.
From S2P Require Import Prelude.
From S2P Require Import ClerkLoop.
From S2P Require Import ShardCtrler.
Open Scope Z_scope.
Open Scope go_scope.

Record Clerk := mkClerk { servers : Z; clientID : Z; requestSeq : Z; leaderHint : Z }.

#[export] Instance Clerk_eta : RecordEta Clerk :=
  λ ck, mkClerk (servers ck) (clientID ck) (requestSeq ck) (leaderHint ck).

Definition MakeClerk (nservers nrand : Z) : Clerk := mkClerk nservers nrand 0 0.

Section clerk.
Context (CallQuery : QueryArgs → nat → Z → option QueryReply).
Context (CallJoin : JoinArgs → nat → Z → option ChangeReply).
Context (CallLeave : LeaveArgs → nat → Z → option ChangeReply).
Context (CallMove : MoveArgs → nat → Z → option ChangeReply).

Definition query_ok (r : QueryReply) : bool := negb (qr_WrongLeader r).
Definition change_ok (r : ChangeReply) : bool := negb (cr_WrongLeader r).

Definition Query (fuel : nat) (num : Z) (ck : Clerk) : option (Clerk * Config) :=
  let ck := ck <| requestSeq ::= Z.succ |> in
  let args := mkQueryArgs num (clientID ck) (requestSeq ck) in
  match retry (CallQuery args) query_ok (servers ck) (leaderHint ck) fuel 0 with
  | Some (srv, reply) => Some (ck <| leaderHint := srv |>, qr_Config reply)
  | None => None
  end.

Definition Join (fuel : nat) (groups : gmap Z (list string)) (ck : Clerk) : option Clerk :=
  let ck := ck <| requestSeq ::= Z.succ |> in
  let args := mkJoinArgs groups (clientID ck) (requestSeq ck) in
  match retry (CallJoin args) change_ok (servers ck) (leaderHint ck) fuel 0 with
  | Some (srv, _) => Some (ck <| leaderHint := srv |>)
  | None => None
  end.

Definition Leave (fuel : nat) (gids : list Z) (ck : Clerk) : option Clerk :=
  let ck := ck <| requestSeq ::= Z.succ |> in
  let args := mkLeaveArgs gids (clientID ck) (requestSeq ck) in
  match retry (CallLeave args) change_ok (servers ck) (leaderHint ck) fuel 0 with
  | Some (srv, _) => Some (ck <| leaderHint := srv |>)
  | None => None
  end.

Definition Move (fuel : nat) (shard gid : Z) (ck : Clerk) : option Clerk :=
  let ck := ck <| requestSeq ::= Z.succ |> in
  let args := mkMoveArgs shard gid (clientID ck) (requestSeq ck) in
  match retry (CallMove args) change_ok (servers ck) (leaderHint ck) fuel 0 with
  | Some (srv, _) => Some (ck <| leaderHint := srv |>)
  | None => None
  end.
End clerk.
