(* ===== verification/CtrlerService.v ===== *)
(** * The replicated shard controller

    The clerks, commands and servers of [shardctrler/] as the instances of
    [Clerks], [Commands] and [Server], and that they keep the contract
    [ServerLaws].  A handler may wait on the channel of an index while another
    command is committed there; it compares what it receives with its request,
    so that what it answers is the result of that request at its place in the
    log.  The controller takes no snapshots.  Clerks may call a method with any
    arguments.  A replica whose next command panics never applies it; that its
    handlers may still answer until it restarts only adds behaviours. *)
From stdpp Require Import base tactics strings numbers relations sets gmap list.
From S2P Require Import Prelude.
From S2P Require Import Labgob.
From S2P Require Import Persister.
From S2P Require Import Raft.
From S2P Require Import Commands.
From S2P Require Import Clerks.
From S2P Require Import Service.
From S2P Require Import ShardCtrler.
From S2P Require Import ShardCtrlerFacts.
From S2P Require Import ShardCtrlerClerk.
Open Scope Z_scope.
Open Scope go_scope.

(** ** Clerks *)

(** A method of the clerk and its arguments. *)
Inductive Method :=
| MJoin (servers : gmap Z (list string)) | MLeave (gids : list Z)
| MMove (shard gid : Z) | MQuery (num : Z).

(** The arguments the clerk sends; it has counted the request already. *)
Definition method_call (m : Method) (ck : Clerk) : Call :=
  let id := clientID ck in
  let r := requestSeq ck + 1 in
  match m with
  | MJoin servers => CJoin (mkJoinArgs servers id r)
  | MLeave gids => CLeave (mkLeaveArgs gids id r)
  | MMove shard gid => CMove (mkMoveArgs shard gid id r)
  | MQuery num => CQuery (mkQueryArgs num id r)
  end.

(** What the method returns on a reply, if it does not try again: [Query] the
    configuration, the others nothing. *)
Definition method_value (c : Call) (r : Reply) : option (option Config) :=
  match c, r with
  | CQuery _, RQuery r => if qr_WrongLeader r then None else Some (Some (qr_Config r))
  | CQuery _, RChange _ | _, RQuery _ => None
  | _, RChange r => if cr_WrongLeader r then None else Some None
  end.

(** ** The specification: the list of configurations *)

Definition query (num : Z) (cs : list Config) : option Config :=
  if (num =? -1) || (len cs <=? num) then latest cs else idx cs num.

(** The configuration a change makes of the latest one. *)
Definition changed (op : Op) (prev : Config) : option Config :=
  if decide (Type_ op = "Join") then Some (joinConfig (JoinServers op) prev)
  else if decide (Type_ op = "Leave") then Some (leaveConfig (LeaveGIDs op) prev)
  else moveConfig (MoveShard op) (MoveGID op) prev.

Definition ctrler_step (op : Op) (cs : list Config) : list Config * option Config :=
  if is_change op then
    (match prev ← latest cs; changed op prev with Some next => cs ++ [next] | None => cs end, None)
  else (cs, if decide (Type_ op = "Query") then query (QueryNum op) cs else None).

#[export] Program Instance ctrler_commands : Commands Op (list Config) (option Config) := {|
  op_client := ClientID;
  op_request := RequestID;
  changes := is_change;
  spec_init := [DefaultConfig];
  spec_step := ctrler_step;
  no_answer := None
|}.
Next Obligation. intros op st H. unfold ctrler_step. by rewrite H. Qed.
Next Obligation. intros op st H. unfold ctrler_step. by rewrite H. Qed.

#[export] Program Instance ctrler_clerks : Clerks Method Clerk Call := {|
  command := call_op;
  make_call := method_call;
  ck_id := clientID;
  ck_next ck := requestSeq ck + 1;
  ck_called ck := ck <| requestSeq ::= Z.succ |>
|}.
Next Obligation. by intros []. Qed.
Next Obligation. by intros []. Qed.
Next Obligation. done. Qed.
Next Obligation. intros ck. cbn. lia. Qed.

(** ** Servers *)

(** Where a handler stands. *)
Inductive Handler :=
| HStarted (c : Call) (index : Z)
| HWaiting (c : Call) (ch : nat)
| HReturned (c : Call) (r : Reply).

Record Host := mkHost { h_ctrler : ShardCtrler; h_handlers : list Handler }.

Definition on_peer (rf : Raft Op unit) (w : Host) : ShardCtrler := (h_ctrler w) <| sc_rf := rf |>.

Definition begun (c : Call) (r : Reply + Z) : Handler :=
  match r with inl r => HReturned c r | inr index => HStarted c index end.

(** [<-ch]: a result that is in the buffer. *)
Definition receive (ch : nat) (sc : ShardCtrler) : option (ShardCtrler * ApplyResult) :=
  match sc_chans sc !! ch with
  | Some (Some res) => Some (sc <| sc_chans ::= <[ch := None]> |>, res)
  | _ => None
  end.

Inductive host_step : Host → Host → Prop :=
| h_channel k c i sc sc' ch hs :
    hs !! k = Some (HStarted c i) → getNotifyCh i sc = (sc', ch) →
    host_step (mkHost sc hs) (mkHost sc' (<[k := HWaiting c ch]> hs))
| h_receive k c ch sc sc' res hs :
    hs !! k = Some (HWaiting c ch) → receive ch sc = Some (sc', res) →
    host_step (mkHost sc hs) (mkHost sc' (<[k := HReturned c (handler_result c res)]> hs))
| h_timeout k c ch sc hs :
    hs !! k = Some (HWaiting c ch) →
    host_step (mkHost sc hs) (mkHost sc (<[k := HReturned c (handler_timeout c)]> hs)).

#[export] Instance ctrler_server : Server Host Reply unit := {|
  sv_start npeers i ps := Some (mkHost (StartServer npeers i ps) []);
  sv_receive rf m w w' := ∃ sc, applier m (on_peer rf w) = Some sc ∧ w' = mkHost sc (h_handlers w);
  sv_call rf c w w' := ∃ sc r, handler_start c (on_peer rf w) = (sc, r) ∧
    w' = mkHost sc (h_handlers w ++ [begun c r]);
  sv_serve rf w w' := host_step (mkHost (on_peer rf w) (h_handlers w)) w';
  sv_reply w c r := HReturned c r ∈ h_handlers w;
  accepted := method_value
|}.

(** ** What the state machine computes *)

Implicit Types (sc : ShardCtrler) (op : Op) (L l : list Op) (cs : list Config) (w : Host).

(** The part of a controller that its log determines. *)
Definition machine sc : list Config * gmap Z Z := (configs sc, lastAppliedReq sc).

Definition blank : ShardCtrler := StartServer 1 0 MakePersister.

Lemma isDuplicate_machine sc1 sc2 c r : machine sc1 = machine sc2 → isDuplicate c r sc1 = isDuplicate c r sc2.
Proof. intros [= _ E]. unfold isDuplicate. by rewrite E. Qed.

Lemma applyOp_machine op sc1 sc2 :
  machine sc1 = machine sc2 →
  (λ x, (machine x.1, x.2)) <$> applyOp op sc1 = (λ x, (machine x.1, x.2)) <$> applyOp op sc2.
Proof.
  intros E. destruct sc1, sc2. injection E as -> ->.
  rewrite !applyOp_eq. unfold with_result, apply_change, readConfig, isDuplicate. cbn -[NShards].
  repeat case_decide; repeat case_match; by simplify_eq/=.
Qed.

Lemma run_ops_snoc L op sc : run_ops (L ++ [op]) sc = sc ← run_ops L sc; fst <$> applyOp op sc.
Proof.
  revert sc. induction L as [|op' L IH]; intros sc; cbn.
  - by destruct (applyOp op sc) as [[]|].
  - destruct (applyOp op' sc) as [[sc1 res]|]; [apply IH|done].
Qed.

(** The result that a controller sends when it applies the command at a place
    of the list. *)
Definition result_at L (k : nat) (res : ApplyResult) : Prop :=
  ∃ op sc sc', L !! k = Some op ∧ run_ops (take k L) blank = Some sc ∧ applyOp op sc = Some (sc', res).

Lemma result_at_prefix L L' k res : L `prefix_of` L' → result_at L k res → result_at L' k res.
Proof.
  intros [l ->] (op & sc & sc' & Hk & Hr & Ha). exists op, sc, sc'. pose proof (lookup_lt_Some _ _ _ Hk).
  split_and!; [by apply lookup_app_l_Some|by rewrite take_app_le by lia|done].
Qed.

(** The result names the command, unless it is of no kind. *)
Lemma applyOp_res op sc sc' res :
  applyOp op sc = Some (sc', res) → Type_ (res_Op res) ≠ "" → res_Op res = op.
Proof.
  rewrite applyOp_eq. unfold with_result. cbn. repeat case_decide; intros Ha; repeat case_match; by simplify_eq/=.
Qed.

Lemma call_op_type c : Type_ (call_op c) ≠ "".
Proof. by destruct c. Qed.

(** ** The contract *)

(** The command at the place is the call, and the value is in its result. *)
Definition answered_at L (c : Call) (v : option Config) (k : nat) : Prop :=
  ∃ res, result_at L k res ∧ L !! k = Some (res_Op res) ∧ ident (res_Op res) = ident (call_op c) ∧
    v = match c with CQuery _ => Some (res_Config res) | _ => None end.

Definition handler_ok L (h : Handler) : Prop :=
  match h with
  | HReturned c r => ∀ v, method_value c r = Some v → ∃ k, answered_at L c v k
  | _ => True
  end.

Record host_ok w L : Prop := {
  ho_machine : ∃ sc, run_ops L blank = Some sc ∧ machine (h_ctrler w) = machine sc;
  ho_chans ch res : sc_chans (h_ctrler w) !! ch = Some (Some res) → ∃ k, result_at L k res;
  ho_handlers : Forall (handler_ok L) (h_handlers w)
}.

Lemma ctrler_answered_prefix L L' c v k : L `prefix_of` L' → answered_at L c v k → answered_at L' c v k.
Proof.
  intros HL (res & Hres & Hk & ? & ?). exists res. split_and!; [by eapply result_at_prefix|by eapply prefix_lookup_Some|done|done].
Qed.

Lemma handler_ok_prefix L L' h : L `prefix_of` L' → handler_ok L h → handler_ok L' h.
Proof.
  intros HL. destruct h; try done. cbn. intros H v Hv. destruct (H v Hv) as (k & ?). exists k. by eapply ctrler_answered_prefix.
Qed.

(** A handler that takes a result. *)
Lemma handler_result_ok L k c res : result_at L k res → handler_ok L (HReturned c (handler_result c res)).
Proof.
  intros Hres v Hv. exists k, res. unfold handler_result in Hv. case_if_in Hv.
  2: { exfalso. by destruct c. }
  apply andb_true_iff in E as [[Hc%Z.eqb_eq Hr%Z.eqb_eq]%andb_true_iff Ht%bool_decide_eq_true]. pose proof Hres as Hres'.
  destruct Hres' as (op & sc & sc' & Hk & _ & Ha).
  assert (res_Op res = op) as Eop by (eapply applyOp_res; [done|]; rewrite Ht; apply call_op_type).
  split_and!; [done|by rewrite Eop| |].
  - unfold ident. cbn. congruence.
  - by destruct c; cbn in Hv; simplify_eq.
Qed.

Lemma timeout_ok L c : handler_ok L (HReturned c (handler_timeout c)).
Proof. intros v Hv. by destruct c. Qed.

(** A channel that is made is empty, and making one keeps what is waiting. *)
Lemma getNotifyCh_chans i sc sc' ch :
  getNotifyCh i sc = (sc', ch) →
  machine sc' = machine sc ∧ ∀ ch res, sc_chans sc' !! ch = Some (Some res) → sc_chans sc !! ch = Some (Some res).
Proof.
  unfold getNotifyCh, getNotifyChUnlocked. case_match; intros [= <- <-]; [done|]. split; [done|]. cbn.
  intros ch' res [?|[_ H']]%lookup_app_Some; [done|]. by apply list_lookup_singleton_Some in H' as [_ ?].
Qed.

Lemma host_start_ok npeers i ps : host_ok (mkHost (StartServer npeers i ps) []) [].
Proof. split; [by exists blank|by intros ch res|constructor]. Qed.

Lemma host_receive_ok rf m op w w' L :
  host_ok w L → CommandValid m = true → Command m = AOp op → sv_receive rf m w w' → host_ok w' (L ++ [op]).
Proof.
  intros [(sc0 & Hrun & Em) Hch Hh] Hv Hop (sc' & Ha & ->). unfold applier in Ha. rewrite Hv, Hop in Ha.
  destruct (applyOp op (on_peer rf w)) as [[sc1 res]|] eqn:E; [|done].
  destruct (getNotifyChUnlocked (CommandIndex m) sc1) as [sc2 ch] eqn:En. injection Ha as <-.
  destruct (getNotifyCh_chans (CommandIndex m) sc1 sc2 ch En) as [Em2 Hch2].
  assert (machine (on_peer rf w) = machine sc0) as Em1 by done.
  pose proof (applyOp_machine op _ _ Em1) as Eo. rewrite E in Eo. cbn in Eo.
  destruct (applyOp op sc0) as [[sc0' res0]|] eqn:E0; [|done]. cbn in Eo. injection Eo as Ec Et Er. subst res0.
  assert (result_at (L ++ [op]) (length L) res) as Hres.
  { exists op, sc0, sc0'. by rewrite list_lookup_middle, take_app_length. }
  assert (sc_chans sc1 = sc_chans (h_ctrler w)) as Echans.
  { pose proof E as E'. rewrite applyOp_eq in E'. unfold with_result, apply_change in E'. cbn in E'.
    repeat case_decide; repeat case_if_in E'; repeat case_match; by simplify_eq/=. }
  split; cbn.
  - exists sc0'. rewrite run_ops_snoc, Hrun. cbn. rewrite E0. split; [done|].
    trans (machine sc2); [unfold offer; by repeat case_match|]. rewrite Em2. unfold machine. by rewrite Ec, Et.
  - intros ch' res' Hr. assert (res' = res ∨ sc_chans sc2 !! ch' = Some (Some res')) as [->|H2].
    { unfold offer in Hr. repeat case_match; try (by right). cbn in Hr.
      apply list_lookup_insert_Some in Hr as [(_ & [= ->] & _)|[_ ?]]; [by left|by right]. }
    + by exists (length L).
    + apply Hch2 in H2. rewrite Echans in H2. destruct (Hch _ _ H2) as (k & Hk). exists k.
      eapply result_at_prefix; [by exists [op]|done].
  - eapply Forall_impl; [exact Hh|]. intros h. apply handler_ok_prefix. by exists [op].
Qed.

Lemma host_call_ok rf c w w' L : host_ok w L → sv_call rf c w w' → host_ok w' L.
Proof.
  intros [Hm Hch Hh] (sc & r & Hst & ->). unfold handler_start in Hst.
  destruct (Start _ _) as [rf' [[index term] isLeader]]. injection Hst as <- <-. split; [done|done|]. cbn.
  apply Forall_app. split; [done|]. constructor; [|done]. destruct isLeader; [done|]. intros v Hv. by destruct c.
Qed.

Lemma host_serve_ok rf w w' L : host_ok w L → sv_serve rf w w' → host_ok w' L.
Proof.
  intros [Hm Hch Hh] Hs. cbn in Hs. remember (mkHost (on_peer rf w) (h_handlers w)) as w0 eqn:Ew.
  assert (∃ sc, run_ops L blank = Some sc ∧ machine (h_ctrler w0) = machine sc) as Hm0 by by subst w0.
  assert (∀ ch res, sc_chans (h_ctrler w0) !! ch = Some (Some res) → ∃ k, result_at L k res) as Hch0 by by subst w0.
  assert (Forall (handler_ok L) (h_handlers w0)) as Hh0 by by subst w0. clear Ew Hm Hch Hh.
  destruct Hs as [k c i sc sc' ch hs Hk Hn|k c ch sc sc' res hs Hk Hr|k c ch sc hs Hk]; cbn in *.
  - destruct (getNotifyCh_chans _ _ _ _ Hn) as [Em Hc]. split; cbn; [by rewrite Em|eauto|by apply Forall_insert].
  - unfold receive in Hr. destruct (sc_chans sc !! ch) as [[res'|]|] eqn:E; [|done..]. injection Hr as <- <-.
    destruct (Hch0 _ _ E) as (k' & Hres). split; cbn; [done| |].
    + intros ch' res'' [(_ & [=] & _)|[_ H']]%list_lookup_insert_Some. eauto.
    + apply Forall_insert; [done|]. by eapply handler_result_ok.
  - split; [done|done|]. apply Forall_insert; [done|]. apply timeout_ok.
Qed.

Lemma host_reply_ok w c r v L :
  host_ok w L → sv_reply w c r → accepted c r = Some v → ∃ k, answered_at L c v k.
Proof. intros [_ _ Hh] Hr Hv. rewrite Forall_forall in Hh. by apply (Hh _ Hr). Qed.

(** ** The configurations of a log are those of the specification *)

Definition table_ok (seen : gset (Z * Z)) sc : Prop :=
  ∀ c, match lastAppliedReq sc !! c with
       | None => ∀ r, (c, r) ∉ seen
       | Some m => (c, m) ∈ seen ∧ ∀ r, (c, r) ∈ seen → r ≤ m
       end.

Lemma isDuplicate_spec seen sc op :
  table_ok seen sc → newer seen op →
  isDuplicate (ClientID op) (RequestID op) sc = bool_decide (ident op ∈ seen).
Proof.
  intros Ht Hn. specialize (Ht (ClientID op)). unfold isDuplicate, newer, ident in *. cbn in *.
  destruct (lastAppliedReq sc !! ClientID op) as [m|].
  - destruct Ht as [Hm Hmax]. case_bool_decide as Hin.
    + apply Z.leb_le. auto.
    + apply Z.leb_gt. destruct Hn; [done|auto].
  - by rewrite bool_decide_false.
Qed.

Lemma table_ok_insert seen sc op sc' :
  table_ok seen sc → ident op ∉ seen → newer seen op →
  lastAppliedReq sc' = <[ClientID op := RequestID op]> (lastAppliedReq sc) → table_ok ({[ident op]} ∪ seen) sc'.
Proof.
  unfold newer, ident. cbn. intros Ht Hni [?|Hnew] E c'; [done|]. rewrite E. destruct (decide (ClientID op = c')) as [<-|Hne].
  - rewrite lookup_insert_eq. split; [set_solver|].
    intros r' [[= <-]%elem_of_singleton|Hin]%elem_of_union; [lia|]. apply Hnew in Hin. lia.
  - rewrite lookup_insert_ne by done. specialize (Ht c'). case_match; set_solver.
Qed.

(** A change that is not a retry. *)
Lemma apply_change_step op sc sc' res :
  numbered sc → is_change op = true → isDuplicate (ClientID op) (RequestID op) sc = false →
  applyOp op sc = Some (sc', res) →
  configs sc' = (ctrler_step op (configs sc)).1 ∧
    lastAppliedReq sc' = <[ClientID op := RequestID op]> (lastAppliedReq sc).
Proof.
  intros Hn Hc Hd. unfold ctrler_step. rewrite Hc, applyOp_eq. unfold with_result, apply_change, changed. rewrite Hd. cbn.
  destruct (latest_Some _ (proj1 Hn)) as (prev & -> & _). cbn.
  destruct (decide (Type_ op = "Join")) as [Ej|Ej]; [by intros [= <- <-]|].
  destruct (decide (Type_ op = "Leave")) as [Ev|Ev]; [by intros [= <- <-]|].
  destruct (decide (Type_ op = "Move")) as [Em|Em].
  - destruct (moveConfig _ _ _); [by intros [= <- <-]|done].
  - unfold is_change in Hc. by rewrite !bool_decide_false in Hc.
Qed.

(** A query, or an operation of no kind. *)
Lemma applyOp_no_change op sc sc' res :
  is_change op = false → applyOp op sc = Some (sc', res) → sc' = sc.
Proof.
  unfold is_change. intros [[E1 E2]%orb_false_iff E3]%orb_false_iff.
  apply bool_decide_eq_false in E1, E2, E3. rewrite applyOp_eq. rewrite !decide_False by done.
  case_decide; [destruct (readConfig _ _); [|done]|]; by intros [= <- <-].
Qed.

Lemma ctrler_replay_step seen sc op sc' res :
  table_ok seen sc → numbered sc → (is_change op = true → newer seen op) → applyOp op sc = Some (sc', res) →
  configs sc' = (replay_step (seen, configs sc) op).2 ∧ table_ok (replay_step (seen, configs sc) op).1 sc'.
Proof.
  intros Ht Hn Hc E. unfold replay_step. cbn -[is_change]. destruct (is_change op) eqn:Ech; cbn -[is_change].
  - pose proof (isDuplicate_spec _ _ _ Ht (Hc eq_refl)) as Hd. case_bool_decide as Hin; cbn.
    + destruct (applyOp_is_change op Ech) as (change & E'). rewrite E' in E. unfold apply_change in E.
      rewrite Hd in E. cbn in E. by injection E as <- <-.
    + destruct (apply_change_step op sc sc' res Hn Ech Hd E) as [E1 E2]. split; [done|].
      by eapply table_ok_insert; [| |apply Hc|].
  - pose proof (applyOp_no_change _ _ _ _ Ech E) as ->. unfold ctrler_step. by rewrite Ech.
Qed.

(** A controller that gets through a log has the configurations that the
    specification makes of it. *)
Lemma run_ops_spec L sc : in_order L → run_ops L blank = Some sc → numbered sc ∧ configs sc = (replayed L).2.
Proof.
  intros Ho Hr. split; [by eapply run_ops_numbered; [|apply start_numbered]|].
  pose (step := λ op (o : option ShardCtrler), sc ← o; fst <$> applyOp op sc).
  assert (∀ o, foldl (flip step) o L = sc ← o; run_ops L sc) as Hfold.
  { clear. induction L as [|op L IH] using rev_ind; intros o; [by destruct o|]. rewrite foldl_app, IH. cbn.
    destruct o as [sc|]; cbn; [|done]. by rewrite run_ops_snoc. }
  pose proof (replay_simulates step (λ seen cs o, ∀ sc, o = Some sc → configs sc = cs ∧ numbered sc ∧ table_ok seen sc)
    (λ _, True) (Some blank) L) as H. rewrite Hfold in H. cbn in H.
  refine (proj1 (H _ _ _ Ho sc Hr)); clear H Hfold; [| |by apply Forall_true].
  - intros sc' [= <-]. split_and!; [done|apply start_numbered|]. intros c. change (lastAppliedReq blank) with (∅ : gmap Z Z).
    rewrite lookup_empty. by intros r ?%not_elem_of_empty.
  - intros seen cs o op Hsim _ Hnew sc' Hs. unfold step in Hs. cbn in Hs. destruct o as [sc0|]; [|done]. cbn in Hs.
    destruct (Hsim sc0 eq_refl) as (<- & Hn & Ht). destruct (applyOp op sc0) as [[sc1 res]|] eqn:E; [|done]. injection Hs as <-.
    destruct (ctrler_replay_step seen sc0 op sc1 res Ht Hn Hnew E) as [Hc' Ht']. split_and!; [done|by eapply applyOp_numbered|done].
Qed.

Lemma state_at_spec L k sc : in_order L → run_ops (take k L) blank = Some sc → configs sc = state_at L k.
Proof. intros Ho Hr. by destruct (run_ops_spec (take k L) sc (in_order_take _ _ Ho) Hr). Qed.

Lemma ctrler_answered_value L c v k :
  in_order L → L !! k = Some (call_op c) → answered_at L c v k → v = (ctrler_step (call_op c) (state_at L k)).2.
Proof.
  intros Ho Hk (res & (op & sc & sc' & Hk' & Hrun & Ha) & _ & _ & ->). simplify_eq.
  rewrite <- (state_at_spec _ _ _ Ho Hrun). destruct c as [args|args|args|args]; try done.
  unfold ctrler_step, is_change. cbn in *. rewrite applyOp_eq in Ha. cbn in Ha. unfold query, readConfig in *.
  by destruct (if (_ || _) : bool then _ else _); simplify_eq/=.
Qed.

#[local] Obligation Tactic := idtac.
#[export] Program Instance ctrler_laws : ServerLaws Host Reply unit := {|
  allowed _ := True;
  sv_ok := host_ok;
  answered := answered_at
|}.
Next Obligation. intros npeers i ps w _ [= <-]. apply host_start_ok. Qed.
Next Obligation. intros rf m op w w' l ?? ? _. by apply host_receive_ok. Qed.
Next Obligation. eauto using host_call_ok. Qed.
Next Obligation. eauto using host_serve_ok. Qed.
Next Obligation. eauto using host_reply_ok. Qed.
Next Obligation. eauto using ctrler_answered_prefix. Qed.
Next Obligation. intros L c v k (res & _ & Hk & Hid & _). by exists (res_Op res). Qed.
Next Obligation. intros L c v k Ho _ _. by apply ctrler_answered_value. Qed.
