(* ===== verification/ShardKV.v ===== *)
(** * shardkv/server.go and shardkv/common.go: one server of a replica group

    A group serves the shards the current configuration gives it.  Shards move
    between groups in steps: the new owner pulls a copy ([Pulling]), serves it
    while the old one still keeps it ([GCing] and [BePulling]), then both drop
    the marks.  A log command is [Command]: the tag and the dynamic value of
    the source in one type.  [None] as a result is a run-time panic (a nil
    [*Shard]), or [log.Fatal]. *)
From stdpp Require Import base tactics list gmap strings numbers.
From Stdlib Require Import Ascii.
From S2P Require Import Prelude.
From S2P Require Import Labgob.
From S2P Require Import Persister.
From S2P Require Import Raft.
From S2P Require Import ShardCtrler.
Open Scope Z_scope.
Open Scope go_scope.

Definition ErrNoKey : string := "ErrNoKey".
Definition ErrWrongGroup : string := "ErrWrongGroup".
Definition ErrWrongLeader : string := "ErrWrongLeader".
Definition ErrOutDated : string := "ErrOutDated".
Definition ErrNotReady : string := "ErrNotReady".
Definition OpGet : string := "Get".
Definition OpPut : string := "Put".
Definition OpAppend : string := "Append".

Record CommandRequest := mkRequest {
  rq_Key : string; rq_Value : string; rq_Op : string; rq_ClientId : Z; rq_CommandId : Z }.
Record CommandResponse := mkResponse { rs_Err : string; rs_Value : string }.

(** [LastResponse] is a pointer to a response that is never changed. *)
Record OperationContext := mkContext {
  MaxAppliedCommandId : Z; LastResponse : CommandResponse }.

Record ShardOperationRequest := mkShardRequest { sor_ConfigNum : Z; sor_ShardIDs : list Z }.
Record ShardOperationResponse := mkShardResponse {
  sop_Err : string; sop_ConfigNum : Z; sop_Shards : gmap Z (gmap string string);
  sop_LastOperations : gmap Z OperationContext }.

Inductive Command :=
| Operation (r : CommandRequest)
| Configuration (c : Config)
| InsertShards (r : ShardOperationResponse)
| DeleteShards (r : ShardOperationRequest)
| EmptyEntry.

Inductive ShardStatus := Serving | Pulling | BePulling | GCing.

#[export] Instance ShardStatus_eq_dec : EqDecision ShardStatus.
Proof. solve_decision. Defined.

Definition key2shard (key : string) : Z :=
  let shard := match String.get 0 key with Some c => Z.of_nat (nat_of_ascii c) | None => 0 end in
  shard `mod` NShards.

(** ** Shards *)

Record Shard := mkShard { KV : gmap string string; Status : ShardStatus }.

#[export] Instance Shard_eta : RecordEta Shard := λ s, mkShard (KV s) (Status s).

Definition NewShard : Shard := mkShard ∅ Serving.

Definition Shard_Get (key : string) (s : Shard) : string * string :=
  match KV s !! key with Some v => (v, OK) | None => ("", ErrNoKey) end.
Definition Shard_Put (key value : string) (s : Shard) : Shard * string :=
  (s <| KV ::= <[key := value]> |>, OK).
Definition Shard_Append (key value : string) (s : Shard) : Shard * string :=
  (s <| KV ::= <[key := map_get "" (KV s) key +:+ value]> |>, OK).
Definition deepCopy (s : Shard) : gmap string string :=
  foldl (λ m e, <[e.1 := e.2]> m) ∅ (map_to_list (KV s)).

(** The values of a snapshot. *)
Inductive SnapValue :=
| SnapMachines (m : gmap Z Shard)
| SnapOperations (m : gmap Z OperationContext)
| SnapConfig (c : Config).

Record ShardKV := mkShardKV {
  skv_me : Z;
  skv_dead : bool;
  skv_rf : Raft Command SnapValue;
  gid : Z;
  maxRaftState : Z;
  skv_lastApplied : Z;
  lastConfig : Config;
  currentConfig : Config;
  stateMachines : gmap Z Shard;
  lastOperations : gmap Z OperationContext;
  notifyChans : gmap Z nat;
  skv_chans : list (option CommandResponse)   (* every channel made, capacity one *)
}.

#[export] Instance ShardKV_eta : RecordEta ShardKV := λ kv,
  mkShardKV (skv_me kv) (skv_dead kv) (skv_rf kv) (gid kv) (maxRaftState kv) (skv_lastApplied kv)
    (lastConfig kv) (currentConfig kv) (stateMachines kv) (lastOperations kv) (notifyChans kv)
    (skv_chans kv).

(** ** Serving clients *)

Definition isDuplicateRequest (clientId commandId : Z) (kv : ShardKV) : bool :=
  match lastOperations kv !! clientId with
  | Some ctx => commandId <=? MaxAppliedCommandId ctx
  | None => false
  end.

Definition owner (c : Config) (shard : Z) : Z := rd (Shards c) shard.
Definition status_of (kv : ShardKV) (shard : Z) : option ShardStatus :=
  Status <$> stateMachines kv !! shard.

Definition servable (s : ShardStatus) : bool :=
  match s with Serving | GCing => true | _ => false end.

(** [&&] does not look at the shard of another group. *)
Definition canServe (shardID : Z) (kv : ShardKV) : option bool :=
  if owner (currentConfig kv) shardID =? gid kv then servable <$> status_of kv shardID
  else Some false.

(** [Command] up to the end of its critical section: an answer, or go on to
    [Execute]. *)
Definition Command_check (request : CommandRequest) (kv : ShardKV)
    : option (option CommandResponse) :=
  if negb (bool_decide (rq_Op request = OpGet))
     && isDuplicateRequest (rq_ClientId request) (rq_CommandId request) kv
  then Some (LastResponse <$> lastOperations kv !! rq_ClientId request)
  else
    match canServe (key2shard (rq_Key request)) kv with
    | None => None
    | Some true => Some None
    | Some false => Some (Some (mkResponse ErrWrongGroup ""))
    end.

(** [switch operation.Op] on a shard; another [Op] leaves [err] empty. *)
Definition applyLogToStateMachines (operation : CommandRequest) (s : Shard)
    : Shard * CommandResponse :=
  if decide (rq_Op operation = OpPut) then
    let '(s, err) := Shard_Put (rq_Key operation) (rq_Value operation) s in (s, mkResponse err "")
  else if decide (rq_Op operation = OpAppend) then
    let '(s, err) := Shard_Append (rq_Key operation) (rq_Value operation) s in
    (s, mkResponse err "")
  else if decide (rq_Op operation = OpGet) then
    let '(value, err) := Shard_Get (rq_Key operation) s in (s, mkResponse err value)
  else (s, mkResponse "" "").

Definition applyOperation (operation : CommandRequest) (kv : ShardKV)
    : option (ShardKV * CommandResponse) :=
  let shardID := key2shard (rq_Key operation) in
  match canServe shardID kv with
  | None => None
  | Some false => Some (kv, mkResponse ErrWrongGroup "")
  | Some true =>
      let write := negb (bool_decide (rq_Op operation = OpGet)) in
      if write && isDuplicateRequest (rq_ClientId operation) (rq_CommandId operation) kv
      then (λ ctx, (kv, LastResponse ctx)) <$> lastOperations kv !! rq_ClientId operation
      else
        match stateMachines kv !! shardID with
        | None => None
        | Some s =>
            let '(s, response) := applyLogToStateMachines operation s in
            let kv := kv <| stateMachines ::= <[shardID := s]> |> in
            Some (if write
                  then kv <| lastOperations ::=
                         <[rq_ClientId operation := mkContext (rq_CommandId operation) response]> |>
                  else kv, response)
        end
  end.

(** ** Configurations *)

(** The body of the loop over the shards; [alter] on a missing shard is the
    nil dereference [applyConfiguration] checks for. *)
Definition configureShard (kv : ShardKV) (i : Z) (s : Shard) : Shard :=
  let cur := owner (currentConfig kv) i in
  let last := owner (lastConfig kv) i in
  let s := if (cur =? gid kv) && negb (last =? gid kv) then
             if last =? 0 then s <| Status := Serving |> else s <| Status := Pulling |>
           else s in
  if (last =? gid kv) && negb (cur =? gid kv) then
    if cur =? 0 then s <| Status := Serving |> <| KV := ∅ |> else s <| Status := BePulling |>
  else s.

Definition touches (kv : ShardKV) (i : Z) : bool :=
  xorb (owner (currentConfig kv) i =? gid kv) (owner (lastConfig kv) i =? gid kv).

Definition applyConfiguration (nextConfig : Config) (kv : ShardKV)
    : option (ShardKV * CommandResponse) :=
  let response := mkResponse OK "" in
  if Num nextConfig =? Num (currentConfig kv) + 1 then
    let kv := kv <| lastConfig := currentConfig kv |> in
    let kv := kv <| currentConfig := nextConfig |> in
    let step acc i :=
      match acc with
      | None => None
      | Some kv =>
          match stateMachines kv !! i with
          | Some s => Some (kv <| stateMachines ::= <[i := configureShard kv i s]> |>)
          | None => if touches kv i then None else Some kv
          end
      end in
    (λ kv, (kv, response)) <$> foldl step (Some kv) shard_indices
  else Some (kv, response).

(** ** Shards that arrive and leave *)

Definition copy_kv (m : gmap string string) : gmap string string :=
  foldl (λ c e, <[e.1 := e.2]> c) ∅ (map_to_list m).

(** The two [range] loops of [applyInsertShards], over the entries in the
    order the maps give. *)
Definition insertShard (kv : ShardKV) (e : Z * gmap string string) : option ShardKV :=
  let '(shardID, shardData) := e in
  match stateMachines kv !! shardID with
  | None => None
  | Some s =>
      Some (if decide (Status s = Pulling)
            then kv <| stateMachines ::= <[shardID := mkShard (copy_kv shardData) GCing]> |>
            else kv)
  end.

Definition mergeOperation (kv : ShardKV) (e : Z * OperationContext) : ShardKV :=
  let '(clientId, opCtx) := e in
  let newer :=
    match lastOperations kv !! clientId with
    | Some lastOp => MaxAppliedCommandId lastOp <? MaxAppliedCommandId opCtx
    | None => true
    end in
  if newer then kv <| lastOperations ::= <[clientId := opCtx]> |> else kv.

Fixpoint fold_option {A B} (f : A → B → option A) (acc : A) (l : list B) : option A :=
  match l with
  | [] => Some acc
  | x :: l => match f acc x with Some acc => fold_option f acc l | None => None end
  end.

Definition applyInsertShards (shardsInfo : ShardOperationResponse) (kv : ShardKV)
    : option (ShardKV * CommandResponse) :=
  let response := mkResponse OK "" in
  if sop_ConfigNum shardsInfo =? Num (currentConfig kv) then
    match fold_option insertShard kv (map_to_list (sop_Shards shardsInfo)) with
    | Some kv => Some (foldl mergeOperation kv (map_to_list (sop_LastOperations shardsInfo)), response)
    | None => None
    end
  else Some (kv, response).

Definition deleteShard (kv : ShardKV) (shardID : Z) : option ShardKV :=
  match stateMachines kv !! shardID with
  | None => None
  | Some s =>
      let s := match Status s with
               | GCing => s <| Status := Serving |>
               | BePulling => s <| Status := Serving |> <| KV := ∅ |>
               | _ => s
               end in
      Some (kv <| stateMachines ::= <[shardID := s]> |>)
  end.

Definition applyDeleteShards (shardsInfo : ShardOperationRequest) (kv : ShardKV)
    : option (ShardKV * CommandResponse) :=
  let response := mkResponse OK "" in
  if sor_ConfigNum shardsInfo =? Num (currentConfig kv)
  then (λ kv, (kv, response)) <$> fold_option deleteShard kv (sor_ShardIDs shardsInfo)
  else Some (kv, response).

Definition applyEmptyEntry (kv : ShardKV) : ShardKV * CommandResponse := (kv, mkResponse OK "").

(** The [switch] of [applier]. *)
Definition applyCommand (command : Command) (kv : ShardKV) : option (ShardKV * CommandResponse) :=
  match command with
  | Operation r => applyOperation r kv
  | Configuration c => applyConfiguration c kv
  | InsertShards r => applyInsertShards r kv
  | DeleteShards r => applyDeleteShards r kv
  | EmptyEntry => Some (applyEmptyEntry kv)
  end.

(** ** Notification channels *)

Definition getNotifyChan (index : Z) (kv : ShardKV) : ShardKV * nat :=
  match notifyChans kv !! index with
  | Some ch => (kv, ch)
  | None =>
      let ch := length (skv_chans kv) in
      (kv <| skv_chans ::= λ cs, cs ++ [None] |> <| notifyChans ::= <[index := ch]> |>, ch)
  end.

Definition removeNotifyChan (index : Z) (kv : ShardKV) : ShardKV :=
  kv <| notifyChans ::= delete index |>.

(** [ch <- response] blocks while the buffer is full: [None]. *)
Definition send (ch : nat) (response : CommandResponse) (kv : ShardKV) : option ShardKV :=
  match skv_chans kv !! ch with
  | Some None => Some (kv <| skv_chans ::= <[ch := Some response]> |>)
  | _ => None
  end.

(** [result := <-ch] *)
Definition receive (ch : nat) (kv : ShardKV) : option (ShardKV * CommandResponse) :=
  match skv_chans kv !! ch with
  | Some (Some r) => Some (kv <| skv_chans ::= <[ch := None]> |>, r)
  | _ => None
  end.

(** ** Snapshots *)

Definition as_machines (v : SnapValue) : option (gmap Z Shard) :=
  match v with SnapMachines m => Some m | _ => None end.
Definition as_operations (v : SnapValue) : option (gmap Z OperationContext) :=
  match v with SnapOperations m => Some m | _ => None end.
Definition as_config (v : SnapValue) : option Config :=
  match v with SnapConfig c => Some c | _ => None end.

Definition snapshotBytes (kv : ShardKV) : list SnapValue :=
  EncodeAll [SnapMachines (stateMachines kv); SnapOperations (lastOperations kv);
             SnapConfig (currentConfig kv); SnapConfig (lastConfig kv)].

Definition takeSnapshot (index : Z) (kv : ShardKV) : ShardKV :=
  kv <| skv_rf ::= Snapshot index (snapshotBytes kv) |>.

Definition restoreSnapshot (snapshot : list SnapValue) (kv : ShardKV) : option ShardKV :=
  if len snapshot <? 1 then Some kv
  else
    let '(m, d) := Decode as_machines (NewDecoder snapshot) in
    let '(o, d) := Decode as_operations d in
    let '(c, d) := Decode as_config d in
    let '(l, _) := Decode as_config d in
    match m, o, c, l with
    | Some m, Some o, Some c, Some l =>
        Some (kv <| stateMachines := m |> <| lastOperations := o |>
                 <| currentConfig := c |> <| lastConfig := l |>)
    | _, _, _, _ => None
    end.

(** ** The apply loop *)

(** How one turn of the loop ends: a new state, a panic, or for ever blocked
    on a full channel with the lock held. *)
Inductive Turn := Done (kv : ShardKV) | Panic | Blocked.

Section server.
Context (raft_bytes : list (RaftGob Command) → Z).

Definition needSnapshot (kv : ShardKV) : bool :=
  if maxRaftState kv =? -1 then false
  else maxRaftState kv <=? RaftStateSize raft_bytes (persister (skv_rf kv)).

Definition notify_response (index term : Z) (response : CommandResponse) (kv : ShardKV)
    : option ShardKV :=
  let '(currentTerm, isLeader) := GetState (skv_rf kv) in
  if isLeader && (term =? currentTerm)
  then let '(kv, ch) := getNotifyChan index kv in send ch response kv
  else Some kv.

Definition applier (message : ApplyMsg Command SnapValue) (kv : ShardKV) : Turn :=
  if CommandValid message then
    if Raft.CommandIndex message <=? skv_lastApplied kv then Done kv
    else
      let kv := kv <| skv_lastApplied := CommandIndex message |> in
      match Raft.Command message with
      | AString _ => Panic
      | AOp command =>
          match applyCommand command kv with
          | None => Panic
          | Some (kv, response) =>
              match notify_response (CommandIndex message) (CommandTerm message) response kv with
              | None => Blocked
              | Some kv =>
                  Done (if needSnapshot kv then takeSnapshot (CommandIndex message) kv else kv)
              end
          end
      end
  else if SnapshotValid message then
    let '(rf, ok) := CondInstallSnapshot (SnapshotTerm message) (SnapshotIndex message)
                       (Snapshot_ message) (skv_rf kv) in
    let kv := kv <| skv_rf := rf |> in
    if ok : bool then
      match restoreSnapshot (Snapshot_ message) kv with
      | Some kv => Done (kv <| skv_lastApplied := SnapshotIndex message |>)
      | None => Panic
      end
    else Done kv
  else Done kv.

End server.

(** ** Execute *)

(** The index and the term of the command, for a leader. *)
Definition Execute_start (command : Command) (kv : ShardKV) : ShardKV * option (Z * Z) :=
  let '(rf, (index, term, isLeader)) := Start (AOp command) (skv_rf kv) in
  (kv <| skv_rf := rf |>, if isLeader : bool then Some (index, term) else None).

(** The response once the [select] has chosen: [result] is [None] after the
    time-out; the term is checked last. *)
Definition Execute_end (term : Z) (result : option CommandResponse) (kv : ShardKV)
    : CommandResponse :=
  let response := match result with
                  | Some r => r
                  | None => mkResponse ErrWrongLeader ""
                  end in
  if negb ((GetState (skv_rf kv)).1 =? term)
  then mkResponse ErrWrongLeader (rs_Value response) else response.

(** ** Start and end *)

Definition skv_Kill (kv : ShardKV) : ShardKV := kv <| skv_dead := true |> <| skv_rf ::= Kill |>.
Definition skv_killed (kv : ShardKV) : bool := skv_dead kv.

Definition StartServer (npeers me : Z) (ps : Persister (RaftGob Command) SnapValue)
    (maxRaftState gid : Z) : option ShardKV :=
  let kv := mkShardKV me false (Make npeers me ps) gid maxRaftState 0 DefaultConfig DefaultConfig
              ∅ ∅ ∅ [] in
  let kv := foldl (λ kv i, kv <| stateMachines ::= <[i := NewShard]> |>) kv shard_indices in
  restoreSnapshot (ReadSnapshot ps) kv.

(** ** The monitors *)

(** [configureAction] up to the query: the number to ask for.  Then the
    command to execute for the answer. *)
Definition all_serving (kv : ShardKV) : bool :=
  forallb (λ e, bool_decide (Status e.2 = Serving)) (map_to_list (stateMachines kv)).

Definition configureAction_query (kv : ShardKV) : option Z :=
  if all_serving kv then Some (Num (currentConfig kv) + 1) else None.
Definition configureAction_propose (query : Z) (nextConfig : Config) : option Command :=
  if Num nextConfig =? query then Some (Configuration nextConfig) else None.

(** The shards in a status, by the group that had them before, from the
    entries of the map in the order [range] visits them. *)
Definition gidToShards (st : ShardStatus) (entries : list (Z * Shard)) (kv : ShardKV)
    : gmap Z (list Z) :=
  foldl (λ m e, if decide (Status e.2 = st)
                then let prev := owner (lastConfig kv) e.1 in
                     <[prev := map_get [] m prev ++ [e.1]]> m
                else m) ∅ entries.

(** The request for the servers of each such group. *)
Definition shard_requests (st : ShardStatus) (kv : ShardKV) : list (Z * ShardOperationRequest) :=
  (λ e, (e.1, mkShardRequest (Num (currentConfig kv)) e.2)) <$>
    map_to_list (gidToShards st (map_to_list (stateMachines kv)) kv).
Definition migrationAction (kv : ShardKV) : list (Z * ShardOperationRequest) :=
  shard_requests Pulling kv.
Definition gcAction (kv : ShardKV) : list (Z * ShardOperationRequest) :=
  shard_requests GCing kv.

(** What the goroutine of a request executes for a reply, if anything. *)
Definition migrationAction_reply (reply : ShardOperationResponse) : option Command :=
  if decide (sop_Err reply = OK) then Some (InsertShards reply) else None.
Definition gcAction_reply (args : ShardOperationRequest) (reply : ShardOperationResponse)
    : option Command :=
  if decide (sop_Err reply = OK) then Some (DeleteShards args) else None.

Definition checkEntryInCurrentTermAction (kv : ShardKV) : option (option Command) :=
  match HasLogInCurrentTerm (skv_rf kv) with
  | None => None
  | Some true => Some None
  | Some false => Some (Some EmptyEntry)
  end.

(** ** The RPCs between groups *)

Definition refuse_shards (err : string) : ShardOperationResponse := mkShardResponse err 0 ∅ ∅.

(** The copy of the requested shards that are being given away. *)
Definition copyShard (kv : ShardKV) (shards : gmap Z (gmap string string)) (shardID : Z)
    : option (gmap Z (gmap string string)) :=
  match stateMachines kv !! shardID with
  | None => None
  | Some s => Some (match Status s with
                    | BePulling | GCing => <[shardID := deepCopy s]> shards
                    | _ => shards
                    end)
  end.
Definition shardsData (ids : list Z) (kv : ShardKV) : option (gmap Z (gmap string string)) :=
  fold_option (copyShard kv) ∅ ids.

Definition GetShardsData (request : ShardOperationRequest) (kv : ShardKV)
    : option ShardOperationResponse :=
  if negb (GetState (skv_rf kv)).2 then Some (refuse_shards ErrWrongLeader)
  else if negb (sor_ConfigNum request =? Num (currentConfig kv)) then Some (refuse_shards ErrNotReady)
  else
    match shardsData (sor_ShardIDs request) kv with
    | None => None
    | Some shards =>
        Some (mkShardResponse OK (sor_ConfigNum request) shards
                (foldl (λ m e, <[e.1 := e.2]> m) ∅ (map_to_list (lastOperations kv))))
    end.

(** [DeleteShardsData] up to [Execute]: an answer, or the command to execute.
    The response of [Execute] is dropped: the answer is then [OK]. *)
Definition DeleteShardsData (request : ShardOperationRequest) (kv : ShardKV)
    : ShardOperationResponse + Command :=
  if negb (GetState (skv_rf kv)).2 then inl (refuse_shards ErrWrongLeader)
  else if sor_ConfigNum request <? Num (currentConfig kv) then inl (refuse_shards OK)
  else if Num (currentConfig kv) <? sor_ConfigNum request then inl (refuse_shards ErrNotReady)
  else inr (DeleteShards request).
Definition DeleteShardsData_executed (executed : CommandResponse) : ShardOperationResponse :=
  refuse_shards OK.
