(* ===== verification/ShardKVFacts.v ===== *)
(** * The state machine of a replica group: what each command does

    Pointwise descriptions of the commands of ShardKV.v, for the proofs about
    several groups, and the claims about one server. *)
From stdpp Require Import base tactics list gmap strings numbers sorting.
From S2P Require Import Prelude.
From S2P Require Import Labgob.
From S2P Require Import Persister.
From S2P Require Import Raft.
From S2P Require Import ShardCtrler.
From S2P Require Import ShardBalance.
From S2P Require Import ShardKV.
Open Scope Z_scope.
Open Scope go_scope.

(** ** Definitions *)

(** The part of a server's state the log determines. *)
Definition machine (kv : ShardKV) :
    Z * Config * Config * gmap Z Shard * gmap Z OperationContext :=
  (gid kv, lastConfig kv, currentConfig kv, stateMachines kv, lastOperations kv).
Definition same_machine (kv kv' : ShardKV) : Prop := machine kv = machine kv'.

#[export] Instance same_machine_equiv : Equivalence same_machine.
Proof. unfold same_machine. split; [done|intros x y ->; done|intros x y z -> ->; done]. Qed.

(** The groups have all their shards. *)
Definition has_shards (kv : ShardKV) : Prop :=
  ∀ s, is_Some (stateMachines kv !! s) ↔ 0 ≤ s < NShards.

(** A write that takes effect. *)
Definition effective (r : CommandRequest) (kv : ShardKV) : bool :=
  bool_decide (canServe (key2shard (rq_Key r)) kv = Some true)
  && negb (bool_decide (rq_Op r = OpGet))
  && negb (isDuplicateRequest (rq_ClientId r) (rq_CommandId r) kv).
Definition write_effect (r : CommandRequest) (m : gmap string string) : gmap string string :=
  KV (applyLogToStateMachines r (mkShard m Serving)).1.

(** ** Auxiliary facts *)

Lemma key2shard_range key : 0 ≤ key2shard key < NShards.
Proof. unfold key2shard. apply Z.mod_pos_bound. done. Qed.

Lemma deepCopy_id s : deepCopy s = KV s.
Proof. unfold deepCopy. by rewrite foldl_insert_map, map_union_empty. Qed.

Lemma copy_kv_id m : copy_kv m = m.
Proof. unfold copy_kv. by rewrite foldl_insert_map, map_union_empty. Qed.

Lemma applyLog_shard r s :
  (applyLogToStateMachines r s).1 = mkShard (write_effect r (KV s)) (Status s).
Proof.
  unfold write_effect, applyLogToStateMachines, Shard_Put, Shard_Append, Shard_Get. destruct s.
  repeat case_decide; cbn; repeat case_match; simplify_eq/=; done.
Qed.

Lemma applyLog_get r s : rq_Op r = OpGet → (applyLogToStateMachines r s).1 = s.
Proof.
  intros E. unfold applyLogToStateMachines, Shard_Get. rewrite E.
  repeat (rewrite decide_False by done). rewrite decide_True by done. by case_match.
Qed.

Lemma canServe_true kv s :
  canServe s kv = Some true ↔
  owner (currentConfig kv) s = gid kv ∧
  ∃ sh, stateMachines kv !! s = Some sh ∧ servable (Status sh) = true.
Proof.
  unfold canServe, status_of. destruct (owner (currentConfig kv) s =? gid kv) eqn:E; zbool.
  - destruct (stateMachines kv !! s) as [sh|] eqn:Es; cbn.
    + split; [intros [= E']; eauto|]. by intros (_ & ? & [= <-] & ->).
    + split; [done|]. by intros (_ & ? & [=] & _).
  - split; [done|]. by intros [? _].
Qed.

Lemma has_shards_insert kv i s :
  has_shards kv → 0 ≤ i < NShards → has_shards (kv <| stateMachines ::= <[i := s]> |>).
Proof.
  intros H Hi j. cbn. destruct (decide (i = j)) as [<-|Hne].
  - rewrite lookup_insert_eq. split; [done|eauto].
  - rewrite lookup_insert_ne by done. apply H.
Qed.

(** ** Client operations *)

Lemma applyOperation_spec r kv kv' resp :
  applyOperation r kv = Some (kv', resp) →
  gid kv' = gid kv ∧ lastConfig kv' = lastConfig kv ∧ currentConfig kv' = currentConfig kv ∧
  if effective r kv then
    ∃ sh ctx, stateMachines kv !! key2shard (rq_Key r) = Some sh ∧
      stateMachines kv' =
        <[key2shard (rq_Key r) := mkShard (write_effect r (KV sh)) (Status sh)]> (stateMachines kv) ∧
      lastOperations kv' = <[rq_ClientId r := ctx]> (lastOperations kv) ∧
      MaxAppliedCommandId ctx = rq_CommandId r
  else stateMachines kv' = stateMachines kv ∧ lastOperations kv' = lastOperations kv.
Proof.
  unfold applyOperation, effective. set (i := key2shard (rq_Key r)).
  destruct (canServe i kv) as [[]|] eqn:Hs; [| |done].
  2: { rewrite bool_decide_false by done. by intros [= <- _]. }
  rewrite (bool_decide_true (Some true = Some true)) by done. cbn.
  destruct (bool_decide (rq_Op r = OpGet)) eqn:Hg; cbn.
  - case_match eqn:Hi; [|done]. apply bool_decide_eq_true in Hg.
    pose proof (applyLog_get r s Hg) as E. destruct (applyLogToStateMachines r s) as [s' resp'].
    cbn in E. subst s'. intros [= <- _]. cbn. by rewrite insert_id.
  - destruct (isDuplicateRequest _ _ kv); cbn.
    + destruct (lastOperations kv !! _); [|done]. by intros [= <- _].
    + case_match eqn:Hi; [|done]. pose proof (applyLog_shard r s) as E.
      destruct (applyLogToStateMachines r s) as [s' resp']. cbn in E. subst s'.
      intros [= <- _]. cbn. split_and!; try done. eexists _, _. done.
Qed.

(** ** Configurations *)

Lemma configureShard_rest kv kv' i s :
  gid kv' = gid kv → lastConfig kv' = lastConfig kv → currentConfig kv' = currentConfig kv →
  configureShard kv' i s = configureShard kv i s.
Proof. unfold configureShard. by intros -> -> ->. Qed.

Lemma applyConfiguration_spec c kv :
  has_shards kv →
  ∃ kv', applyConfiguration c kv = Some (kv', mkResponse OK "") ∧ gid kv' = gid kv ∧
    lastOperations kv' = lastOperations kv ∧
    if Num c =? Num (currentConfig kv) + 1 then
      lastConfig kv' = currentConfig kv ∧ currentConfig kv' = c ∧
      ∀ i, stateMachines kv' !! i = configureShard kv' i <$> stateMachines kv !! i
    else kv' = kv.
Proof.
  intros Hs. unfold applyConfiguration. case_if; [|by exists kv].
  set (kv0 := kv <| lastConfig := _ |> <| currentConfig := c |>).
  set (step := λ acc i, _).
  assert (∀ l, NoDup l → (∀ i, i ∈ l → 0 ≤ i < NShards) →
    ∃ kv', foldl step (Some kv0) l = Some kv' ∧ gid kv' = gid kv0 ∧
      lastConfig kv' = lastConfig kv0 ∧ currentConfig kv' = currentConfig kv0 ∧
      lastOperations kv' = lastOperations kv0 ∧
      ∀ i, stateMachines kv' !! i = if decide (i ∈ l)
             then configureShard kv0 i <$> stateMachines kv0 !! i else stateMachines kv0 !! i) as H.
  { induction l as [|j l IH] using rev_ind; intros Hnd Hr.
    { exists kv0. by split_and!. }
    apply NoDup_app in Hnd as (Hnd & Hj & _).
    destruct IH as (k1 & Ek & E1 & E2 & E3 & E4 & Hm); [done|intros; apply Hr; set_solver|].
    rewrite foldl_app, Ek. cbn. rewrite Hm, decide_False by (intros Hjl; apply (Hj j Hjl); set_solver).
    destruct (proj2 (Hs j)) as [s Hsj]; [apply Hr; set_solver|].
    change (stateMachines kv0) with (stateMachines kv). rewrite Hsj.
    eexists. split; [done|]. cbn. split_and!; try done. intros i. destruct (decide (j = i)) as [<-|Hne].
    - rewrite lookup_insert_eq, decide_True by set_solver. rewrite Hsj. cbn.
      by rewrite (configureShard_rest kv0 k1).
    - rewrite lookup_insert_ne, Hm by done. change (stateMachines kv0) with (stateMachines kv).
      destruct (decide (i ∈ l)); [rewrite decide_True by set_solver; done|].
      rewrite decide_False by set_solver. done. }
  destruct (H shard_indices) as (kv' & -> & E1 & E2 & E3 & E4 & Hm).
  { apply shard_indices_nodup. }
  { intros i. apply shard_indices_spec. }
  exists kv'. cbn. split_and!; try done. intros i. rewrite Hm.
  change (stateMachines kv0) with (stateMachines kv).
  destruct (stateMachines kv !! i) as [s|] eqn:Es; cbn; [|by case_decide].
  rewrite decide_True by (apply shard_indices_spec, Hs; eauto).
  by rewrite (configureShard_rest kv0 kv').
Qed.

(** ** Arriving and leaving shards *)

Definition inserted (data : option (gmap string string)) (s : Shard) : Shard :=
  match data with
  | Some m => if decide (Status s = Pulling) then mkShard m GCing else s
  | None => s
  end.

Lemma fold_insertShard l kv :
  NoDup l.*1 → (∀ s d, (s, d) ∈ l → is_Some (stateMachines kv !! s)) →
  ∃ kv', fold_option insertShard kv l = Some kv' ∧ gid kv' = gid kv ∧
    lastConfig kv' = lastConfig kv ∧ currentConfig kv' = currentConfig kv ∧
    lastOperations kv' = lastOperations kv ∧
    ∀ i, stateMachines kv' !! i =
         inserted ((list_to_map l : gmap Z (gmap string string)) !! i) <$> stateMachines kv !! i.
Proof.
  revert kv. induction l as [|[s d] l IH]; intros kv Hnd Hin; cbn.
  { exists kv. split_and!; try done. intros i. rewrite lookup_empty. by destruct (_ !! i). }
  apply NoDup_cons in Hnd as [Hs Hnd].
  destruct (Hin s d) as [sh Hsh]; [set_solver|]. rewrite Hsh.
  set (kv1 := if decide _ then _ else kv).
  assert (gid kv1 = gid kv ∧ lastConfig kv1 = lastConfig kv ∧ currentConfig kv1 = currentConfig kv ∧
          lastOperations kv1 = lastOperations kv ∧
          ∀ i, stateMachines kv1 !! i =
            inserted (if decide (s = i) then Some d else None) <$> stateMachines kv !! i)
    as (E1 & E2 & E3 & E4 & Hm).
  { subst kv1. destruct (decide (Status sh = Pulling)) as [Ep|Ep]; split_and!; try done; intros i.
    - cbn. destruct (decide (s = i)) as [<-|Hne].
      + rewrite lookup_insert_eq, Hsh. cbn. by rewrite copy_kv_id, decide_True.
      + rewrite lookup_insert_ne by done. by destruct (_ !! i).
    - destruct (decide (s = i)) as [<-|Hne].
      + rewrite Hsh. cbn. by rewrite decide_False.
      + by destruct (_ !! i). }
  destruct (IH kv1 Hnd) as (kv' & E & F1 & F2 & F3 & F4 & Hm').
  { intros i d' Hi. rewrite Hm. destruct (Hin i d') as [x ->]; [set_solver|done]. }
  exists kv'. split_and!; try congruence. intros i. rewrite Hm', Hm.
  destruct (decide (s = i)) as [<-|Hne].
  - rewrite lookup_insert_eq, not_elem_of_list_to_map_1 by done. cbn.
    by destruct (stateMachines kv !! s).
  - rewrite lookup_insert_ne by done. by destruct (stateMachines kv !! i).
Qed.

Lemma fold_insertShard_config l kv kv' :
  fold_option insertShard kv l = Some kv' →
  currentConfig kv' = currentConfig kv ∧ lastConfig kv' = lastConfig kv.
Proof.
  revert kv. induction l as [|[s d] l IH]; intros kv; cbn; [by intros [= <-]|].
  destruct (stateMachines kv !! s) as [sh|]; [|done]. intros (-> & ->)%IH. by case_decide.
Qed.

(** The table after a merge: nothing recorded is lost on either side. *)
Lemma mergeOperation_dup kv e c id :
  isDuplicateRequest c id kv = true ∨ (e.1 = c ∧ id ≤ MaxAppliedCommandId e.2) →
  isDuplicateRequest c id (mergeOperation kv e) = true.
Proof.
  destruct e as [c' ctx]. unfold mergeOperation, isDuplicateRequest. cbn.
  destruct (lastOperations kv !! c') as [old|] eqn:Eo; [case_if|]; cbn; zbool.
  - destruct (decide (c' = c)) as [<-|Hne].
    + rewrite lookup_insert_eq, Eo. intros [?|[_ ?]]; zbool; apply Z.leb_le; lia.
    + rewrite lookup_insert_ne by done. intros [?|[? _]]; [done|congruence].
  - intros [?|[<- ?]]; [done|]. rewrite Eo. apply Z.leb_le. lia.
  - destruct (decide (c' = c)) as [<-|Hne].
    + rewrite lookup_insert_eq, Eo. intros [?|[_ ?]]; [done|apply Z.leb_le; lia].
    + rewrite lookup_insert_ne by done. intros [?|[? _]]; [done|congruence].
Qed.

Lemma fold_mergeOperation l kv :
  let kv' := foldl mergeOperation kv l in
  gid kv' = gid kv ∧ lastConfig kv' = lastConfig kv ∧ currentConfig kv' = currentConfig kv ∧
  stateMachines kv' = stateMachines kv ∧
  ∀ c id, isDuplicateRequest c id kv = true ∨
          (∃ ctx, (c, ctx) ∈ l ∧ id ≤ MaxAppliedCommandId ctx) →
          isDuplicateRequest c id kv' = true.
Proof.
  cbn. revert kv. induction l as [|e l IH]; intros kv; cbn.
  { split_and!; try done. intros c id [?|(ctx & ?%not_elem_of_nil & _)]; done. }
  destruct (IH (mergeOperation kv e)) as (E1 & E2 & E3 & E4 & Hd).
  assert (gid (mergeOperation kv e) = gid kv ∧ lastConfig (mergeOperation kv e) = lastConfig kv ∧
          currentConfig (mergeOperation kv e) = currentConfig kv ∧
          stateMachines (mergeOperation kv e) = stateMachines kv) as (F1 & F2 & F3 & F4).
  { destruct e. unfold mergeOperation. cbn. repeat case_match; by cbn. }
  split_and!; try congruence. intros c id H. apply Hd.
  destruct H as [?|(ctx & [Hc|Hc]%elem_of_cons & ?)].
  - left. apply mergeOperation_dup. by left.
  - left. apply mergeOperation_dup. right. by rewrite <- Hc.
  - right. eauto.
Qed.

Lemma elem_of_map_fst {V} (m : gmap Z V) s : (∃ d, (s, d) ∈ map_to_list m) ↔ is_Some (m !! s).
Proof.
  split; [intros [d Hd%elem_of_map_to_list]; eauto|].
  intros [d Hd]. exists d. by apply elem_of_map_to_list.
Qed.

Lemma applyInsertShards_spec info kv :
  has_shards kv → (∀ s, is_Some (sop_Shards info !! s) → 0 ≤ s < NShards) →
  ∃ kv', applyInsertShards info kv = Some (kv', mkResponse OK "") ∧ gid kv' = gid kv ∧
    lastConfig kv' = lastConfig kv ∧ currentConfig kv' = currentConfig kv ∧
    if sop_ConfigNum info =? Num (currentConfig kv) then
      (∀ i, stateMachines kv' !! i = inserted (sop_Shards info !! i) <$> stateMachines kv !! i) ∧
      ∀ c id, isDuplicateRequest c id kv = true ∨
              (∃ ctx, sop_LastOperations info !! c = Some ctx ∧ id ≤ MaxAppliedCommandId ctx) →
              isDuplicateRequest c id kv' = true
    else kv' = kv.
Proof.
  intros Hs Hr. unfold applyInsertShards. case_if; [|by exists kv].
  destruct (fold_insertShard (map_to_list (sop_Shards info)) kv) as (k1 & -> & E1 & E2 & E3 & E4 & Hm).
  { apply NoDup_fst_map_to_list. }
  { intros s d Hin. apply Hs, Hr. apply elem_of_map_fst. eauto. }
  destruct (fold_mergeOperation (map_to_list (sop_LastOperations info)) k1)
    as (F1 & F2 & F3 & F4 & Hd).
  eexists. split; [done|]. split_and!; try congruence.
  - intros i. by rewrite F4, Hm, list_to_map_to_list.
  - intros c id H. apply Hd. destruct H as [?|(ctx & ? & ?)].
    + left. unfold isDuplicateRequest in *. by rewrite E4.
    + right. exists ctx. by rewrite elem_of_map_to_list.
Qed.

Definition deleted (s : Shard) : Shard :=
  match Status s with
  | GCing => s <| Status := Serving |>
  | BePulling => s <| Status := Serving |> <| KV := ∅ |>
  | _ => s
  end.

Lemma deleted_twice s : deleted (deleted s) = deleted s.
Proof. destruct s as [m []]; done. Qed.

Lemma fold_deleteShard ids kv :
  has_shards kv → Forall (λ s, 0 ≤ s < NShards) ids →
  ∃ kv', fold_option deleteShard kv ids = Some kv' ∧ gid kv' = gid kv ∧
    lastConfig kv' = lastConfig kv ∧ currentConfig kv' = currentConfig kv ∧
    lastOperations kv' = lastOperations kv ∧
    ∀ i, stateMachines kv' !! i =
         (if decide (i ∈ ids) then deleted else id) <$> stateMachines kv !! i.
Proof.
  revert kv. induction ids as [|s ids IH]; intros kv Hs Hr; cbn.
  { exists kv. split_and!; try done. intros i. by destruct (_ !! i). }
  apply Forall_cons in Hr as [Hr1 Hr]. unfold deleteShard at 1.
  destruct (proj2 (Hs s) Hr1) as [sh Hsh]. rewrite Hsh. fold (deleted sh).
  destruct (IH (kv <| stateMachines ::= <[s := deleted sh]> |>)) as (kv' & -> & E1 & E2 & E3 & E4 & Hm);
    [by apply has_shards_insert|done|].
  exists kv'. split_and!; try done. intros i. rewrite Hm. cbn.
  destruct (decide (s = i)) as [<-|Hne].
  - rewrite lookup_insert_eq, Hsh. cbn. rewrite (decide_True (P := s ∈ s :: ids)) by set_solver.
    case_decide; cbn; [by rewrite deleted_twice|done].
  - rewrite lookup_insert_ne by done.
    destruct (decide (i ∈ ids)); [rewrite decide_True by set_solver; done|].
    rewrite decide_False by set_solver. done.
Qed.

Lemma fold_deleteShard_config l kv kv' :
  fold_option deleteShard kv l = Some kv' →
  currentConfig kv' = currentConfig kv ∧ lastConfig kv' = lastConfig kv.
Proof.
  revert kv. induction l as [|s l IH]; intros kv; cbn; [by intros [= <-]|].
  destruct (deleteShard kv s) as [x|] eqn:E; [|done]. intros (-> & ->)%IH.
  unfold deleteShard in E. case_match; [|done]. by simplify_eq.
Qed.

Lemma applyDeleteShards_spec info kv :
  has_shards kv → Forall (λ s, 0 ≤ s < NShards) (sor_ShardIDs info) →
  ∃ kv', applyDeleteShards info kv = Some (kv', mkResponse OK "") ∧ gid kv' = gid kv ∧
    lastConfig kv' = lastConfig kv ∧ currentConfig kv' = currentConfig kv ∧
    lastOperations kv' = lastOperations kv ∧
    if sor_ConfigNum info =? Num (currentConfig kv) then
      ∀ i, stateMachines kv' !! i =
           (if decide (i ∈ sor_ShardIDs info) then deleted else id) <$> stateMachines kv !! i
    else kv' = kv.
Proof.
  intros Hs Hr. unfold applyDeleteShards. case_if; [|by exists kv].
  destruct (fold_deleteShard _ _ Hs Hr) as (kv' & -> & ?). exists kv'. cbn. naive_solver.
Qed.

(** ** The requests between groups *)

Lemma gidToShards_spec st entries kv g :
  map_get [] (gidToShards st entries kv) g =
  (filter (λ e, Status e.2 = st ∧ owner (lastConfig kv) e.1 = g) entries).*1.
Proof.
  unfold gidToShards. induction entries as [|e l IH] using rev_ind; [done|].
  rewrite foldl_app, filter_app, fmap_app, <- IH, filter_cons, filter_nil. cbn.
  case_decide as E1; [|rewrite decide_False by tauto; cbn; by rewrite app_nil_r].
  unfold map_get at 1. destruct (decide (owner (lastConfig kv) e.1 = g)) as [E2|E2].
  - rewrite E2, lookup_insert_eq, decide_True by done. done.
  - rewrite lookup_insert_ne, decide_False by tauto. cbn. by rewrite app_nil_r.
Qed.

(** A request asks a group for shards it had in the last configuration. *)
Lemma shard_requests_spec st kv g req s :
  (g, req) ∈ shard_requests st kv → s ∈ sor_ShardIDs req →
  sor_ConfigNum req = Num (currentConfig kv) ∧ owner (lastConfig kv) s = g ∧
  status_of kv s = Some st.
Proof.
  unfold shard_requests. intros ([g' ids] & [= -> ->] & Hin%elem_of_map_to_list)%list_elem_of_fmap Hs.
  cbn in *. split; [done|].
  pose proof (gidToShards_spec st (map_to_list (stateMachines kv)) kv g') as E.
  unfold map_get in E. rewrite Hin in E. cbn in E. subst ids.
  apply list_elem_of_fmap in Hs as ([s' sh] & -> & [[? ?] Hl%elem_of_map_to_list]%list_elem_of_filter).
  cbn in *. split; [done|]. unfold status_of. rewrite Hl. cbn. congruence.
Qed.

Lemma shard_requests_ids st kv g req :
  has_shards kv → (g, req) ∈ shard_requests st kv →
  Forall (λ s, 0 ≤ s < NShards) (sor_ShardIDs req).
Proof.
  intros Hs Hin. apply Forall_forall. intros s Hsr.
  destruct (shard_requests_spec _ _ _ _ _ Hin Hsr) as (_ & _ & Hst). apply Hs.
  unfold status_of in Hst. destruct (_ !! s); [eauto|done].
Qed.

Lemma shardsData_spec ids kv :
  has_shards kv → Forall (λ s, 0 ≤ s < NShards) ids →
  ∃ m, shardsData ids kv = Some m ∧
    ∀ s d, m !! s = Some d → s ∈ ids ∧
      ∃ sh, stateMachines kv !! s = Some sh ∧ KV sh = d ∧ (Status sh = BePulling ∨ Status sh = GCing).
Proof.
  intros Hs. unfold shardsData.
  enough (∀ acc : gmap Z (gmap string string), Forall (λ s, 0 ≤ s < NShards) ids →
    ∃ m, fold_option (copyShard kv) acc ids = Some m ∧ ∀ s d, m !! s = Some d → acc !! s = Some d ∨
      (s ∈ ids ∧ ∃ sh, stateMachines kv !! s = Some sh ∧ KV sh = d ∧
         (Status sh = BePulling ∨ Status sh = GCing))) as H.
  { intros Hr. destruct (H ∅ Hr) as (m & Hm & Hd). exists m. split; [done|].
    intros s d [?|?]%Hd; [by rewrite lookup_empty in *|done]. }
  induction ids as [|i ids IH]; intros acc Hr; cbn; [eauto|].
  apply Forall_cons in Hr as [Hi Hr]. destruct (proj2 (Hs i) Hi) as [sh Hsh].
  unfold copyShard at 1. rewrite Hsh.
  destruct (IH (match Status sh with
                | BePulling | GCing => <[i := deepCopy sh]> acc
                | _ => acc end) Hr) as (m & -> & Hm).
  exists m. split; [done|]. intros s d Hd. destruct (Hm s d Hd) as [Hacc|[? ?]];
    [|right; set_solver].
  destruct (Status sh) eqn:Hst; auto;
    (apply lookup_insert_Some in Hacc as [[<- <-]|[_ ?]]; [right|by left];
     split; [set_solver|]; exists sh; rewrite deepCopy_id; auto).
Qed.

Lemma GetShardsData_spec req kv resp :
  has_shards kv → Forall (λ s, 0 ≤ s < NShards) (sor_ShardIDs req) →
  GetShardsData req kv = Some resp → sop_Err resp = OK →
  sop_ConfigNum resp = Num (currentConfig kv) ∧ sor_ConfigNum req = Num (currentConfig kv) ∧
  sop_LastOperations resp = lastOperations kv ∧
  ∀ s d, sop_Shards resp !! s = Some d → s ∈ sor_ShardIDs req ∧
    ∃ sh, stateMachines kv !! s = Some sh ∧ KV sh = d ∧ (Status sh = BePulling ∨ Status sh = GCing).
Proof.
  intros Hs Hr H Hok. unfold GetShardsData in H. case_if_in H; [by simplify_eq|].
  case_if_in H; [by simplify_eq|]. zbool.
  destruct (shardsData_spec _ _ Hs Hr) as (m & Hm & Hd). rewrite Hm in H. simplify_eq. cbn.
  split_and!; [done|done|by rewrite foldl_insert_map, map_union_empty|done].
Qed.

(** ** Claims *)

Lemma restore_snapshotBytes kv kv' :
  restoreSnapshot (snapshotBytes kv) kv' =
    Some (kv' <| stateMachines := stateMachines kv |> <| lastOperations := lastOperations kv |>
              <| currentConfig := currentConfig kv |> <| lastConfig := lastConfig kv |>).
Proof. unfold snapshotBytes. rewrite EncodeAll_eq. done. Qed.

(** C29.  A snapshot carries the whole state machine: a server of the same
    group that restores it has the shards with their statuses, the table of
    requests and both configurations of the server that took it. *)
Theorem shard_snapshot_roundtrip kv kv' :
  gid kv' = gid kv →
  ∃ r, restoreSnapshot (snapshotBytes kv) kv' = Some r ∧ same_machine r kv ∧
    skv_rf r = skv_rf kv' ∧ notifyChans r = notifyChans kv'.
Proof.
  intros Hg. rewrite restore_snapshotBytes. eexists. split; [done|].
  split; [|done]. unfold same_machine, machine. cbn. by rewrite Hg.
Qed.

Lemma shard_snapshot_roundtrip_witness :
  ∃ kv r, StartServer 3 0 MakePersister (-1) 101 = Some kv ∧
    restoreSnapshot (snapshotBytes kv) kv = Some r ∧ same_machine r kv.
Proof.
  destruct (StartServer 3 0 MakePersister (-1) 101) as [kv|] eqn:E; [|by vm_compute in E].
  destruct (shard_snapshot_roundtrip kv kv eq_refl) as (r & ? & ? & _). by exists kv, r.
Defined.
