(* ===== verification/ShardGroups.v ===== *)
(** * Shards moving between replica groups

    Several groups, each with the history of its state machine: the states
    after each entry of its log, the newest first.  A command enters a log
    because some server of the group, which may lag behind and so stand at any
    state of the history, decided to propose it, and a request to another
    group may be answered from any state of that group's history.  The
    configurations come from the shard controller, as an interface. *)
From stdpp Require Import base tactics list gmap strings numbers sorting relations.
From S2P Require Import Prelude.
From S2P Require Import Labgob.
From S2P Require Import Persister.
From S2P Require Import Raft.
From S2P Require Import ShardCtrler.
From S2P Require Import ShardBalance.
From S2P Require Import ShardKV.
From S2P Require Import ShardKVFacts.
Open Scope Z_scope.
Open Scope go_scope.

(** What the controller promises: configuration [k] has number [k], the first
    one assigns no shard, and a shard that has a group never goes back to
    group 0 (as long as the controller is not left without groups). *)
Class ConfigHistory (cfg : nat → Config) : Prop := {
  ch_first : cfg 0%nat = DefaultConfig;
  ch_num k : Num (cfg k) = Z.of_nat k;
  ch_no_return k s : owner (cfg k) s ≠ 0 → owner (cfg (S k)) s ≠ 0
}.

(** [hist] maps each group to its history; [wlog] is the history of the writes
    that took effect on each shard, in any group. *)
Record Groups_ := mkGroups {
  hist : gmap Z (list ShardKV); wlog : gmap Z (list CommandRequest) }.

Section groups.
Context (cfg : nat → Config).

(** Why a command may be in the log of group [g]. *)
Definition justified (w : Groups_) (g : Z) (command : Command) : Prop :=
  ∃ past, hist w !! g = Some past ∧
  match command with
  | Operation _ | EmptyEntry => True
  | Configuration c =>
      ∃ p k, p ∈ past ∧ configureAction_query p = Some (Z.of_nat k) ∧ c = cfg k
  | InsertShards reply =>
      ∃ p prev req q rf past', p ∈ past ∧ (prev, req) ∈ migrationAction p ∧
        hist w !! prev = Some past' ∧ q ∈ past' ∧
        GetShardsData req (q <| skv_rf := rf |>) = Some reply ∧
        migrationAction_reply reply = Some command
  | DeleteShards req =>
      (∃ p prev reply, p ∈ past ∧ (prev, req) ∈ gcAction p ∧ gcAction_reply req reply = Some command)
      ∨ (∃ g' past' p, hist w !! g' = Some past' ∧ p ∈ past' ∧ (g, req) ∈ gcAction p)
  end.

Definition log_write (command : Command) (cur : ShardKV) (l : gmap Z (list CommandRequest))
    : gmap Z (list CommandRequest) :=
  match command with
  | Operation r =>
      if effective r cur
      then let s := key2shard (rq_Key r) in <[s := map_get [] l s ++ [r]]> l
      else l
  | _ => l
  end.

(** One more entry of a group's log is applied. *)
Inductive gs_step : Groups_ → Groups_ → Prop :=
| gs_apply w g cur past command cur' resp :
    hist w !! g = Some (cur :: past) → justified w g command →
    applyCommand command cur = Some (cur', resp) →
    gs_step w (mkGroups (<[g := cur' :: cur :: past]> (hist w)) (log_write command cur (wlog w))).

Definition gs_init (w : Groups_) : Prop :=
  wlog w = ∅ ∧
  ∀ g past, hist w !! g = Some past →
    g ≠ 0 ∧ ∃ n i max kv, StartServer n i MakePersister max g = Some kv ∧ past = [kv].

Definition gs_reachable (w : Groups_) : Prop := ∃ w0, gs_init w0 ∧ rtc gs_step w0 w.

(** The shard's contents as the writes in order leave them. *)
Definition replay_writes (rs : list CommandRequest) : gmap string string :=
  foldl (λ m r, write_effect r m) ∅ rs.

(** ** The invariant *)

(** The owner of a shard in configuration [k]. *)
Definition own (k : nat) (s : Z) : Z := owner (cfg k) s.

(** A shard's status against the configurations [k] and [k - 1] of its group. *)
Definition shard_ok (g : Z) (k : nat) (s : Z) (sh : Shard) : Prop :=
  match Status sh with
  | Pulling | GCing => own k s = g ∧ own (pred k) s ≠ g ∧ own (pred k) s ≠ 0
  | BePulling => own k s ≠ g ∧ own (pred k) s = g
  | Serving => own k s ≠ g → KV sh = ∅
  end.

Record state_ok (g : Z) (p : ShardKV) (k : nat) : Prop := {
  so_gid : gid p = g;
  so_cur : currentConfig p = cfg k;
  so_last : lastConfig p = cfg (pred k);
  so_dom : has_shards p;
  so_shard s sh : stateMachines p !! s = Some sh → shard_ok g k s sh
}.

(** The group has got to configuration [k]. *)
Definition reached (w : Groups_) (g : Z) (k : nat) : Prop :=
  ∃ cur past, hist w !! g = Some (cur :: past) ∧ Z.of_nat k ≤ Num (currentConfig cur).

(** Every group that gave the shard away up to configuration [n] has got to
    the configuration in which it did. *)
Definition chain (w : Groups_) (n : nat) (s : Z) : Prop :=
  ∀ j, (S j ≤ n)%nat → own j s ≠ own (S j) s → own j s ≠ 0 → reached w (own j s) (S j).

(** The group of the shard in configuration [m] has not got its copy yet. *)
Definition pending (w : Groups_) (m : nat) (s : Z) : Prop :=
  ∀ cur past, hist w !! own m s = Some (cur :: past) →
    Num (currentConfig cur) < Z.of_nat m ∨
    (Num (currentConfig cur) = Z.of_nat m ∧ status_of cur s = Some Pulling).

(** A copy with the writes so far, and a table that knows them. *)
Definition up_to_date (w : Groups_) (p : ShardKV) (s : Z) : Prop :=
  (∃ sh, stateMachines p !! s = Some sh ∧ KV sh = replay_writes (map_get [] (wlog w) s)) ∧
  ∀ r, r ∈ map_get [] (wlog w) s → isDuplicateRequest (rq_ClientId r) (rq_CommandId r) p = true.

Definition serves (p : ShardKV) (s : Z) : Prop := canServe s p = Some true.

(** Each client's command numbers increase along the writes. *)
Definition increasing (rs : list CommandRequest) : Prop :=
  ∀ i j r r', (i < j)%nat → rs !! i = Some r → rs !! j = Some r' →
    rq_ClientId r = rq_ClientId r' → rq_CommandId r < rq_CommandId r'.

Record gs_inv (w : Groups_) : Prop := {
  gi_hist g past : hist w !! g = Some past → g ≠ 0 ∧ ∃ cur rest, past = cur :: rest ∧
    ∀ p, p ∈ past → (∃ k, state_ok g p k) ∧
      Num (currentConfig p) ≤ Num (currentConfig cur) ∧
      (Num (currentConfig p) = Num (currentConfig cur) → all_serving p = true →
       all_serving cur = true);
  gi_chain g past p k s sh : hist w !! g = Some past → p ∈ past → state_ok g p k →
    stateMachines p !! s = Some sh →
    (servable (Status sh) = true → own k s = g → chain w k s) ∧
    (Status sh = BePulling → chain w (pred k) s);
  gi_serving g cur rest s : hist w !! g = Some (cur :: rest) → serves cur s → up_to_date w cur s;
  gi_leaving g past q m s sh : hist w !! g = Some past → q ∈ past → state_ok g q m →
    stateMachines q !! s = Some sh → Status sh = BePulling → pending w m s → up_to_date w q s;
  gi_written s : map_get [] (wlog w) s ≠ [] →
    ∃ n, own n s ≠ 0 ∧ reached w (own n s) n ∧ chain w n s;
  gi_once s : increasing (map_get [] (wlog w) s)
}.

(** ** Configurations reached *)

Context `{!ConfigHistory cfg}.

Lemma reached_le w g j k : (j ≤ k)%nat → reached w g k → reached w g j.
Proof. intros Hjk (cur & past & ? & ?). exists cur, past. split; [done|lia]. Qed.

Lemma chain_le w n m s : (m ≤ n)%nat → chain w n s → chain w m s.
Proof. intros Hmn Hc j Hj. apply Hc. lia. Qed.

Lemma owner_stays j k s : (j ≤ k)%nat → own j s ≠ 0 → own k s ≠ 0.
Proof. induction 1 as [|k _ IH]; [done|]. intros Hj. by apply ch_no_return, IH. Qed.

(** A former owner has got past every configuration in which it was the owner. *)
Lemma chain_past w n s i h :
  chain w n s → (i ≤ n)%nat → own i s = h → h ≠ 0 → own n s ≠ h → reached w h (S i).
Proof.
  intros Hc Hin. remember (n - i)%nat as d eqn:Hd. revert i Hin Hd.
  induction d as [|d IH]; intros i Hin Hd Hi Hh Hn.
  - replace i with n in Hi by lia. done.
  - destruct (decide (own (S i) s = h)) as [E|E].
    + apply (reached_le _ _ _ (S (S i))); [lia|]. apply IH; [lia|lia|done..].
    + rewrite <- Hi. apply Hc; [lia|congruence|congruence].
Qed.

Lemma state_ok_num g p k : state_ok g p k → Num (currentConfig p) = Z.of_nat k.
Proof. intros H. rewrite (so_cur _ _ _ H). apply ch_num. Qed.

Lemma state_ok_fun g p k k' : state_ok g p k → state_ok g p k' → k = k'.
Proof. intros H%state_ok_num H'%state_ok_num. lia. Qed.

Lemma serves_spec g p k s :
  state_ok g p k →
  serves p s ↔ own k s = g ∧ ∃ sh, stateMachines p !! s = Some sh ∧ servable (Status sh) = true.
Proof. intros H. unfold serves. unfold own. by rewrite canServe_true, (so_cur _ _ _ H), (so_gid _ _ _ H). Qed.

Lemma head_in {A} (x : A) l : x ∈ x :: l.
Proof. apply elem_of_cons. by left. Qed.

Section inv.
Context (w : Groups_) (Hinv : gs_inv w).

Lemma newest g cur rest : hist w !! g = Some (cur :: rest) → g ≠ 0 ∧ ∃ k, state_ok g cur k.
Proof.
  intros H. destruct (gi_hist _ Hinv _ _ H) as (? & c & r & [= <- <-] & Hp).
  split; [done|]. apply (Hp cur), head_in.
Qed.

Lemma not_reached g cur rest k n :
  hist w !! g = Some (cur :: rest) → state_ok g cur k → (k < n)%nat → ¬ reached w g n.
Proof.
  intros H Hk Hlt (c & r & H' & Hn). simplify_eq. rewrite (state_ok_num _ _ _ Hk) in Hn. lia.
Qed.

(** No group serves a shard that is on its way. *)
Lemma no_server_while_pending prev past q m s sh g cur rest :
  hist w !! prev = Some past → q ∈ past → state_ok prev q m →
  stateMachines q !! s = Some sh → Status sh = BePulling → pending w m s →
  hist w !! g = Some (cur :: rest) → ¬ serves cur s.
Proof.
  intros Hprev Hq Hqm Hsh Hst Hpend Hg Hserve.
  destruct (newest _ _ _ Hg) as (Hg0 & n & Hn).
  apply (serves_spec _ _ _ _ Hn) in Hserve as (Hon & shc & Hshc & Hsv).
  destruct (gi_chain _ Hinv _ _ _ _ _ _ Hprev Hq Hqm Hsh) as [_ Hcq].
  destruct (gi_chain _ Hinv _ _ cur _ _ _ Hg (head_in _ _) Hn Hshc) as [Hcg _].
  pose proof (so_shard _ _ _ Hqm _ _ Hsh) as Hok. unfold shard_ok in Hok. rewrite Hst in Hok.
  destruct Hok as [Hm Hpm]. destruct (gi_hist _ Hinv _ _ Hprev) as (Hprev0 & cp & rp & -> & Hp).
  assert (Num (currentConfig q) ≤ Num (currentConfig cp)) as Hle by by apply Hp.
  rewrite (state_ok_num _ _ _ Hqm) in Hle.
  destruct (lt_eq_lt_dec n m) as [[Hlt| ->]|Hgt].
  - destruct (decide (g = prev)) as [->|Hne].
    + simplify_eq. rewrite (state_ok_num _ _ _ Hn) in Hle. lia.
    + apply (not_reached _ _ _ _ (S n) Hg Hn); [lia|].
      apply (chain_past w (pred m) s n); [auto|lia|done|done|congruence].
  - rewrite <- Hon in Hg. destruct (Hpend _ _ Hg) as [?|[_ E]].
    + rewrite (state_ok_num _ _ _ Hn) in *. lia.
    + unfold status_of in E. rewrite Hshc in E. cbn in E. simplify_eq. by rewrite E in Hsv.
  - assert (own m s ≠ 0) as Hm0 by (apply (owner_stays (pred m)); [lia|congruence]).
    destruct (decide (own m s = g)) as [E|Hne].
    + rewrite <- E in Hg. destruct (Hpend _ _ Hg) as [?|[? _]];
        rewrite (state_ok_num _ _ _ Hn) in *; lia.
    + destruct (chain_past w n s m (own m s)) as (c & r & Hc & Hle'); auto; [lia|congruence|].
      destruct (Hpend _ _ Hc) as [?|[? _]]; lia.
Qed.

Lemma one_server g1 c1 r1 g2 c2 r2 s :
  hist w !! g1 = Some (c1 :: r1) → hist w !! g2 = Some (c2 :: r2) →
  serves c1 s → serves c2 s → g1 = g2.
Proof.
  revert g1 c1 r1 g2 c2 r2.
  enough (∀ g1 c1 r1 g2 c2 r2, hist w !! g1 = Some (c1 :: r1) → hist w !! g2 = Some (c2 :: r2) →
    serves c1 s → serves c2 s → Num (currentConfig c1) ≤ Num (currentConfig c2) → g1 = g2) as H.
  { intros g1 c1 r1 g2 c2 r2 H1 H2 S1 S2.
    destruct (Z.le_ge_cases (Num (currentConfig c1)) (Num (currentConfig c2))); [by eapply H|].
    symmetry. by eapply H. }
  intros g1 c1 r1 g2 c2 r2 H1 H2 S1 S2 Hle.
  destruct (newest _ _ _ H1) as (Hg1 & n1 & Hn1). destruct (newest _ _ _ H2) as (Hg2 & n2 & Hn2).
  apply (serves_spec _ _ _ _ Hn1) in S1 as (O1 & _).
  apply (serves_spec _ _ _ _ Hn2) in S2 as (O2 & sh & Hsh & Hsv).
  rewrite (state_ok_num _ _ _ Hn1), (state_ok_num _ _ _ Hn2) in Hle.
  destruct (gi_chain _ Hinv _ _ c2 _ _ _ H2 (head_in _ _) Hn2 Hsh) as [Hc _].
  destruct (decide (g1 = g2)) as [|Hne]; [done|]. exfalso.
  destruct (decide (n1 = n2)) as [->|?]; [congruence|].
  apply (not_reached _ _ _ _ (S n1) H1 Hn1); [lia|].
  apply (chain_past w n2 s n1); [auto|lia|done|done|congruence].
Qed.

(** ** One more entry

    What a step of group [g] from [cur] to [cur'] keeps, given what the new
    state itself satisfies. *)
Section step.
Context (g : Z) (cur cur' : ShardKV) (past : list ShardKV) (k k' : nat).
Context (wl : gmap Z (list CommandRequest)).
Let w' := mkGroups (<[g := cur' :: cur :: past]> (hist w)) wl.
Context (Hg : hist w !! g = Some (cur :: past)) (Hcur : state_ok g cur k).
Context (Hcur' : state_ok g cur' k') (Hkk : (k ≤ k')%nat).
Context (Hsame : k' = k → ∀ s, status_of cur' s = Some Pulling → status_of cur s = Some Pulling).

Lemma reached_step h n : reached w h n → reached w' h n.
Proof.
  clear Hsame. intros (c & r & Hh & Hn). unfold reached. cbn. destruct (decide (g = h)) as [<-|Hne].
  - simplify_eq. rewrite lookup_insert_eq. eexists _, _. split; [done|].
    rewrite (state_ok_num _ _ _ Hcur) in Hn. rewrite (state_ok_num _ _ _ Hcur'). lia.
  - rewrite lookup_insert_ne by done. eauto.
Qed.

Lemma chain_step n s : chain w n s → chain w' n s.
Proof. intros Hc j ???. apply reached_step. auto. Qed.

Lemma reached_self n : (n ≤ k')%nat → reached w' g n.
Proof.
  clear Hsame. intros Hn. exists cur', (cur :: past). cbn. rewrite lookup_insert_eq. split; [done|].
  rewrite (state_ok_num _ _ _ Hcur'). lia.
Qed.

Lemma pending_step m s : pending w' m s → pending w m s.
Proof.
  intros Hp c r Hc. destruct (decide (g = own m s)) as [E|Hne].
  - rewrite <- E, Hg in Hc. assert (c = cur) as -> by congruence.
    destruct (Hp cur' (cur :: past)) as [Hlt|[Heq Hst]].
    { cbn. by rewrite E, lookup_insert_eq. }
    + left. rewrite (state_ok_num _ _ _ Hcur). rewrite (state_ok_num _ _ _ Hcur') in Hlt. lia.
    + rewrite (state_ok_num _ _ _ Hcur') in Heq. rewrite (state_ok_num _ _ _ Hcur).
      destruct (decide (k' = k)) as [Ek|?]; [|left; lia]. right. split; [lia|]. by apply Hsame.
  - apply (Hp c r). cbn. by rewrite lookup_insert_ne.
Qed.

Context (Hall : k' = k → all_serving cur = true → all_serving cur' = true).
Context (Hlog : ∀ s, map_get [] wl s = map_get [] (wlog w) s ∨ serves cur s).
Context (Honce : ∀ s, increasing (map_get [] wl s)).
Context (Hown : ∀ s sh, stateMachines cur' !! s = Some sh → servable (Status sh) = true →
  own k' s = g → chain w' k' s ∧ up_to_date w' cur' s).
Context (Hleave : ∀ s sh, stateMachines cur' !! s = Some sh → Status sh = BePulling →
  chain w' (pred k') s ∧ (pending w k' s → up_to_date w' cur' s)).

Lemma hist_step h past' : hist w' !! h = Some past' → h ≠ 0 ∧ ∃ c rest, past' = c :: rest ∧
  ∀ p, p ∈ past' → (∃ k, state_ok h p k) ∧
    Num (currentConfig p) ≤ Num (currentConfig c) ∧
    (Num (currentConfig p) = Num (currentConfig c) → all_serving p = true → all_serving c = true).
Proof.
  cbn. intros [[<- <-]|[Hne Hh]]%lookup_insert_Some; [|by apply (gi_hist _ Hinv)].
  destruct (gi_hist _ Hinv _ _ Hg) as (? & c & r & [= <- <-] & Hp). split; [done|].
  eexists _, _. split; [done|]. intros p [->|Hin]%elem_of_cons; [by split_and!; eauto; lia|].
  destruct (Hp p Hin) as (Hok & Hle & Heq). split; [done|].
  rewrite (state_ok_num _ _ _ Hcur) in Hle, Heq. rewrite (state_ok_num _ _ _ Hcur').
  split; [lia|]. intros E Ha. assert (k' = k) by lia. apply Hall; [done|]. apply Heq; [lia|done].
Qed.

(** Every state of a history of [w'] is the new one or one of [w]. *)
Lemma past_step h past' p : hist w' !! h = Some past' → p ∈ past' →
  (h = g ∧ p = cur') ∨ ∃ past0, hist w !! h = Some past0 ∧ p ∈ past0.
Proof.
  cbn. intros [[<- <-]|[Hne Hh]]%lookup_insert_Some Hp; [|eauto].
  apply elem_of_cons in Hp as [->|Hp]; eauto.
Qed.

Lemma up_to_date_step p s :
  up_to_date w p s → map_get [] wl s = map_get [] (wlog w) s → up_to_date w' p s.
Proof. intros H E. unfold up_to_date. cbn. by rewrite E. Qed.

Lemma step_inv : gs_inv w'.
Proof.
  split.
  - apply hist_step.
  - intros h past' p n s sh Hh Hp Hn Hsh.
    destruct (past_step _ _ _ Hh Hp) as [[-> ->]|(past0 & H0 & Hp0)].
    + rewrite (state_ok_fun _ _ _ _ Hn Hcur'). split; intros; [by eapply Hown|by eapply Hleave].
    + destruct (gi_chain _ Hinv _ _ _ _ _ _ H0 Hp0 Hn Hsh) as [H1 H2].
      split; intros; apply chain_step; auto.
  - intros h c rest s Hh Hs. cbn in Hh. apply lookup_insert_Some in Hh as [[<- [= <- <-]]|[Hne Hh]].
    + apply (serves_spec _ _ _ _ Hcur') in Hs as (Ho & sh & Hsh & Hsv). by eapply Hown.
    + destruct (Hlog s) as [E|Hsc].
      * apply up_to_date_step; [|done]. by eapply gi_serving.
      * destruct Hne. by eapply one_server.
  - intros h past' q m s sh Hh Hq Hm Hsh Hst Hp%pending_step.
    destruct (past_step _ _ _ Hh Hq) as [[-> ->]|(past0 & H0 & Hq0)].
    + rewrite (state_ok_fun _ _ _ _ Hm Hcur') in *. by eapply Hleave.
    + destruct (Hlog s) as [E|Hsc].
      * apply up_to_date_step; [|done]. by eapply gi_leaving.
      * exfalso. by eapply (no_server_while_pending h past0 q m s sh g cur past).
  - cbn. intros s Hs. destruct (Hlog s) as [E|Hsc].
    + rewrite E in Hs. destruct (gi_written _ Hinv s Hs) as (n & ? & ? & ?).
      exists n. split_and!; [done|by apply reached_step|by apply chain_step].
    + destruct (newest _ _ _ Hg) as (Hg0 & _).
      apply (serves_spec _ _ _ _ Hcur) in Hsc as (Ho & sh & Hsh & Hsv).
      destruct (gi_chain _ Hinv _ _ cur _ _ _ Hg (head_in _ _) Hcur Hsh) as [Hc _].
      exists k. rewrite Ho. split_and!; [done|by apply reached_self|apply chain_step; auto].
  - done.
Qed.

End step.

(** ** The commands *)

Definition next (g : Z) (cur' cur : ShardKV) (past : list ShardKV) : Groups_ :=
  mkGroups (<[g := cur' :: cur :: past]> (hist w)) (wlog w).

Section commands.
Context (g : Z) (cur : ShardKV) (past : list ShardKV) (k : nat).
Context (Hg : hist w !! g = Some (cur :: past)) (Hcur : state_ok g cur k).

Lemma kept_shards s sh :
  stateMachines cur !! s = Some sh → servable (Status sh) = true → own k s = g →
  chain w k s ∧ up_to_date w cur s.
Proof.
  intros Hsh Hsv Ho. split.
  - by eapply (gi_chain _ Hinv _ _ cur); [done|apply head_in|..].
  - eapply (gi_serving _ Hinv); [done|]. apply (serves_spec _ _ _ _ Hcur). eauto.
Qed.

Lemma kept_leaving s sh :
  stateMachines cur !! s = Some sh → Status sh = BePulling →
  chain w (pred k) s ∧ (pending w k s → up_to_date w cur s).
Proof.
  intros Hsh Hst. split.
  - by eapply (gi_chain _ Hinv _ _ cur); [done|apply head_in|..].
  - intros Hp. by eapply (gi_leaving _ Hinv _ _ cur k); [done|apply head_in|..].
Qed.

(** An arriving shard: the whole chain and all the writes. *)
Definition arrived (cur' : ShardKV) (s : Z) (sh sh' : Shard) : Prop :=
  Status sh = Pulling ∧ Status sh' = GCing ∧ chain w k s ∧ up_to_date w cur' s.

Context (cur' : ShardKV).
Context (Hgid : gid cur' = gid cur) (Hlast : lastConfig cur' = lastConfig cur).
Context (Hconf : currentConfig cur' = currentConfig cur) (Hdom : has_shards cur').
Context (Hdup : ∀ c id, isDuplicateRequest c id cur = true → isDuplicateRequest c id cur' = true).
Context (Hshard : ∀ s sh', stateMachines cur' !! s = Some sh' → ∃ sh,
  stateMachines cur !! s = Some sh ∧ (sh' = sh ∨ sh' = deleted sh ∨ arrived cur' s sh sh')).

Lemma shard_ok_deleted s sh : shard_ok g k s sh → shard_ok g k s (deleted sh).
Proof. destruct sh as [m []]; unfold shard_ok, deleted; cbn; tauto. Qed.

Lemma state_ok_same : state_ok g cur' k.
Proof.
  destruct Hcur as [E1 E2 E3 _ Hsok]. split; [congruence..|done|].
  intros s sh' Hsh'. destruct (Hshard s sh' Hsh') as (sh & Hsh & [->|[->|(Hp & Hg' & _)]]); auto.
  - by apply shard_ok_deleted, Hsok.
  - specialize (Hsok s sh Hsh). unfold shard_ok in *. rewrite Hp in Hsok. by rewrite Hg'.
Qed.

Lemma up_to_date_kept s sh sh' :
  stateMachines cur !! s = Some sh → stateMachines cur' !! s = Some sh' → KV sh' = KV sh →
  up_to_date w cur s → up_to_date w cur' s.
Proof.
  intros Hsh Hsh' E [(x & Hx & Hkv) Hd]. simplify_eq. split; [|auto].
  exists sh'. split; [done|congruence].
Qed.

Lemma all_serving_spec kv :
  all_serving kv = true ↔ ∀ s sh, stateMachines kv !! s = Some sh → Status sh = Serving.
Proof.
  unfold all_serving. rewrite forallb_forall. split.
  - intros H s sh Hsh%elem_of_map_to_list%list_elem_of_In. apply H in Hsh. by zbool.
  - intros H [s sh] Hin%list_elem_of_In%elem_of_map_to_list. apply bool_decide_eq_true. by eapply H.
Qed.

Lemma step_same : gs_inv (next g cur' cur past).
Proof.
  apply (step_inv g cur cur' past k k (wlog w) Hg Hcur state_ok_same); [done|..].
  - intros _ s Hst. unfold status_of in *. destruct (stateMachines cur' !! s) as [sh'|] eqn:E; [|done].
    destruct (Hshard s sh' E) as (sh & -> & [->|[->|(_ & E' & _)]]); [done| |].
    + destruct sh as [m []]; done.
    + cbn in Hst. congruence.
  - intros _. rewrite !all_serving_spec. intros Ha s sh' Hsh'.
    destruct (Hshard s sh' Hsh') as (sh & Hsh & Hc). pose proof (Ha s sh Hsh) as Hst.
    destruct Hc as [->|[->|(E & _)]]; [done| |congruence]. unfold deleted. by rewrite Hst.
  - auto.
  - apply (gi_once _ Hinv).
  - intros s sh' Hsh' Hsv Ho. destruct (Hshard s sh' Hsh') as (sh & Hsh & Hc).
    enough (chain w k s ∧ up_to_date w cur' s) as [? ?].
    { split; [by apply (chain_step g cur cur' past k k (wlog w) Hg Hcur state_ok_same (le_n k))|done]. }
    destruct Hc as [->|[->|(_ & _ & ? & ?)]]; [| |done].
    + destruct (kept_shards s sh Hsh Hsv Ho). split; [done|]. by eapply up_to_date_kept.
    + pose proof (so_shard _ _ _ Hcur _ _ Hsh) as Hok. unfold shard_ok in Hok.
      destruct sh as [m st]. destruct st; cbn in *; [| |tauto|];
        try done; (destruct (kept_shards s _ Hsh eq_refl Ho); split; [done|];
                   by eapply up_to_date_kept).
  - intros s sh' Hsh' Hst. destruct (Hshard s sh' Hsh') as (sh & Hsh & Hc).
    assert (sh' = sh) as ->.
    { destruct Hc as [->|[->|(_ & ? & _)]]; [done| |congruence]. by destruct sh as [m []]. }
    destruct (kept_leaving s sh Hsh Hst) as [? Hp].
    split; [by apply (chain_step g cur cur' past k k (wlog w) Hg Hcur state_ok_same (le_n k))|].
    intros Hpend. eapply up_to_date_kept; [done|done|done|auto].
Qed.

End commands.

(** A copy requested at a state of the group and answered at a state of the
    group that gives the shard away. *)
Lemma inserted_arrives g cur past k p prev req q rf past' reply s d sh :
  hist w !! g = Some (cur :: past) → state_ok g cur k → p ∈ cur :: past →
  (prev, req) ∈ migrationAction p → hist w !! prev = Some past' → q ∈ past' →
  GetShardsData req (q <| skv_rf := rf |>) = Some reply → sop_Err reply = OK →
  sop_ConfigNum reply = Num (currentConfig cur) →
  sop_Shards reply !! s = Some d → stateMachines cur !! s = Some sh → Status sh = Pulling →
  chain w k s ∧ d = replay_writes (map_get [] (wlog w) s) ∧
  ∀ r, r ∈ map_get [] (wlog w) s → isDuplicateRequest (rq_ClientId r) (rq_CommandId r) q = true.
Proof.
  intros Hg Hcur Hp Hreq Hprev Hq Hget Hok Hnum Hd Hsh Hst.
  destruct (gi_hist _ Hinv _ _ Hg) as (Hg0 & c & r & [= <- <-] & Hpast).
  destruct (Hpast p Hp) as ([kp Hkp] & _).
  destruct (gi_hist _ Hinv _ _ Hprev) as (Hprev0 & c' & r' & -> & Hpast').
  destruct (Hpast' q Hq) as ([m Hm] & Hqle & _).
  assert (has_shards (q <| skv_rf := rf |>)) as Hqs by apply (so_dom _ _ _ Hm).
  destruct (GetShardsData_spec req (q <| skv_rf := rf |>) reply Hqs) as (E1 & E2 & E3 & Hshards); [|done..|].
  { eapply shard_requests_ids; [apply (so_dom _ _ _ Hkp)|exact Hreq]. }
  destruct (Hshards s d Hd) as (Hids & shq & Hshq & <- & Hstq).
  destruct (shard_requests_spec _ _ _ _ _ Hreq Hids) as (F1 & F2 & _).
  cbn in E1, E2, Hshq.
  rewrite (state_ok_num _ _ _ Hm) in E1, E2, Hqle. rewrite (state_ok_num _ _ _ Hkp) in F1.
  rewrite (state_ok_num _ _ _ Hcur) in Hnum.
  assert (kp = k) as -> by lia. assert (m = k) as -> by lia.
  rewrite (so_last _ _ _ Hkp) in F2. change (owner (cfg (pred k)) s) with (own (pred k) s) in F2.
  pose proof (so_shard _ _ _ Hcur _ _ Hsh) as Ho. unfold shard_ok in Ho. rewrite Hst in Ho.
  pose proof (so_shard _ _ _ Hm _ _ Hshq) as Hoq. unfold shard_ok in Hoq.
  destruct Hstq as [Hstq|Hstq]; rewrite Hstq in Hoq; [|destruct Ho as (? & ? & ?); destruct Hoq; congruence].
  destruct Ho as (O1 & O2 & O3).
  destruct (gi_chain _ Hinv _ _ q _ _ _ Hprev Hq Hm Hshq) as [_ Hc].
  specialize (Hc Hstq). split.
  - intros j Hj Hne Hj0. destruct (decide (S j = k)) as [Ejk|Hjk].
    + exists c', r'. replace (own j s) with prev by (rewrite <- F2; f_equal; lia).
      split; [done|lia].
    + apply Hc; [lia|done|done].
  - assert (pending w k s) as Hpend.
    { intros c0 r0. rewrite O1, Hg. intros [= <- <-]. right.
      split; [by apply (state_ok_num g)|]. unfold status_of. by rewrite Hsh, <- Hst. }
    destruct (gi_leaving _ Hinv _ _ q k s _ Hprev Hq Hm Hshq Hstq Hpend) as [(x & Hx & Hkv) Hdup].
    split; [congruence|done].
Qed.

Lemma insert_step g cur past k info p prev req q rf past' cur' resp :
  hist w !! g = Some (cur :: past) → state_ok g cur k → p ∈ cur :: past →
  (prev, req) ∈ migrationAction p → hist w !! prev = Some past' → q ∈ past' →
  GetShardsData req (q <| skv_rf := rf |>) = Some info → sop_Err info = OK →
  applyInsertShards info cur = Some (cur', resp) → gs_inv (next g cur' cur past).
Proof.
  intros Hg Hcur Hp Hreq Hprev Hq Hget Hok Happ.
  destruct (gi_hist _ Hinv _ _ Hg) as (Hg0 & c & r & [= <- <-] & Hpast).
  destruct (Hpast p Hp) as ([kp Hkp] & _).
  destruct (gi_hist _ Hinv _ _ Hprev) as (_ & ? & ? & _ & Hpast').
  destruct (Hpast' q Hq) as ([m Hm] & _).
  assert (has_shards (q <| skv_rf := rf |>)) as Hqs by apply (so_dom _ _ _ Hm).
  destruct (GetShardsData_spec req (q <| skv_rf := rf |>) info Hqs) as (_ & _ & E3 & Hshards); [|done..|].
  { eapply shard_requests_ids; [apply (so_dom _ _ _ Hkp)|exact Hreq]. }
  destruct (applyInsertShards_spec info cur) as (c1 & Happ' & E1 & E2 & E4 & Hspec).
  { apply (so_dom _ _ _ Hcur). }
  { intros s [d Hd]. destruct (Hshards s d Hd) as (_ & sh & Hsh & _). apply Hqs. eauto. }
  simplify_eq. case_if_in Hspec; zbool.
  - destruct Hspec as [Hm' Hdup]. apply (step_same g cur past k Hg Hcur cur'); [done..| | |].
    + intros s. rewrite Hm', fmap_is_Some. apply (so_dom _ _ _ Hcur).
    + auto.
    + intros s sh'. rewrite Hm'. intros (sh & Hsh & ->)%fmap_Some. exists sh. split; [done|].
      unfold inserted. destruct (sop_Shards info !! s) as [d|] eqn:Hd; [|by left].
      case_decide as Hst; [|by left]. right. right.
      destruct (inserted_arrives g cur past k p prev req q rf past' info s d sh)
        as (Hc & -> & Hdq); try done.
      split_and!; [done|done|done|]. split.
      * eexists. rewrite Hm', Hsh. cbn. unfold inserted. rewrite Hd, decide_True by done. done.
      * intros r Hr. apply Hdup. right. rewrite E3. specialize (Hdq r Hr).
        unfold isDuplicateRequest in Hdq. cbn in *. case_match; [|done]. zbool. eauto.
  - subst cur'. apply (step_same g cur past k Hg Hcur cur); [done..|apply (so_dom _ _ _ Hcur)|done|eauto].
Qed.

Lemma delete_step g cur past k info cur' resp :
  hist w !! g = Some (cur :: past) → state_ok g cur k →
  Forall (λ s, 0 ≤ s < NShards) (sor_ShardIDs info) →
  applyDeleteShards info cur = Some (cur', resp) → gs_inv (next g cur' cur past).
Proof.
  intros Hg Hcur Hr Happ. pose proof (so_dom _ _ _ Hcur) as Hdom.
  destruct (applyDeleteShards_spec info cur Hdom Hr) as (c1 & Happ' & E1 & E2 & E3 & E4 & Hspec).
  simplify_eq. case_if_in Hspec; zbool.
  - apply (step_same g cur past k Hg Hcur cur'); [done..| | |].
    + intros s. rewrite Hspec, fmap_is_Some. apply Hdom.
    + intros c id. unfold isDuplicateRequest. by rewrite E4.
    + intros s sh'. rewrite Hspec. intros (sh & Hsh & ->)%fmap_Some. exists sh. split; [done|].
      case_decide; auto.
  - subst cur'. apply (step_same g cur past k Hg Hcur cur); [done..|done|eauto].
Qed.

(** A shard that no group has had yet has no writes. *)
Lemma fresh_shard g cur past k s :
  hist w !! g = Some (cur :: past) → state_ok g cur k → own k s = 0 → own (S k) s = g →
  map_get [] (wlog w) s = [].
Proof.
  intros Hg Hcur Hk0 Hk1. destruct (map_get [] (wlog w) s) as [|r l] eqn:E; [done|]. exfalso.
  destruct (newest _ _ _ Hg) as [Hg0 _].
  destruct (gi_written _ Hinv s) as (n & Hn0 & Hr & Hc); [by rewrite E|].
  assert (k < n)%nat as Hkn.
  { destruct (decide (k < n)%nat); [done|]. destruct (owner_stays n k s); [lia|done|done]. }
  destruct (decide (own n s = g)) as [E1|Hne].
  - rewrite E1 in Hr. by apply (not_reached _ _ _ _ n Hg Hcur).
  - apply (not_reached _ _ _ _ (S (S k)) Hg Hcur); [lia|].
    by apply (chain_past w n s (S k)).
Qed.

Section config_step.
Context (g : Z) (cur : ShardKV) (past : list ShardKV) (k : nat).
Context (Hg : hist w !! g = Some (cur :: past)) (Hcur : state_ok g cur k).
Context (Hserving : all_serving cur = true) (cur' : ShardKV).
Context (Hgid : gid cur' = gid cur) (Hops : lastOperations cur' = lastOperations cur).
Context (Hlast : lastConfig cur' = currentConfig cur) (Hconf : currentConfig cur' = cfg (S k)).
Context (Hshard : ∀ i, stateMachines cur' !! i = configureShard cur' i <$> stateMachines cur !! i).

(** The status of a shard after the configuration, from the two owners. *)
Lemma configured s sh' :
  stateMachines cur' !! s = Some sh' → ∃ sh, stateMachines cur !! s = Some sh ∧
  Status sh = Serving ∧
  ((own (S k) s = g ∧ own k s = g ∧ sh' = sh) ∨
   (own (S k) s ≠ g ∧ own k s ≠ g ∧ sh' = sh) ∨
   (own (S k) s = g ∧ own k s = 0 ∧ sh' = sh) ∨
   (own (S k) s = g ∧ own k s ≠ g ∧ own k s ≠ 0 ∧ Status sh' = Pulling) ∨
   (own (S k) s ≠ g ∧ own k s = g ∧ Status sh' = BePulling ∧ KV sh' = KV sh)).
Proof.
  rewrite Hshard. intros (sh & Hsh & ->)%fmap_Some. exists sh. split; [done|].
  pose proof (proj1 (all_serving_spec cur) Hserving _ _ Hsh) as Hst. split; [done|].
  destruct (newest _ _ _ Hg) as [Hg0 _].
  unfold configureShard. rewrite Hconf, Hlast, (so_cur _ _ _ Hcur), Hgid, (so_gid _ _ _ Hcur).
  change (owner (cfg (S k)) s) with (own (S k) s). change (owner (cfg k) s) with (own k s).
  pose proof (ch_no_return k s) as Hnr. change (own k s ≠ 0 → own (S k) s ≠ 0) in Hnr.
  destruct sh as [m st]. cbn in Hst. subst st.
  destruct (own (S k) s =? g) eqn:E1; destruct (own k s =? g) eqn:E2; zbool; cbn.
  - by left.
  - destruct (own k s =? 0) eqn:E3; zbool; cbn; [right; right; by left|].
    right; right; right; by left.
  - destruct (own (S k) s =? 0) eqn:E3; zbool; cbn; [|by do 4 right].
    destruct Hnr; [congruence|done].
  - right. by left.
Qed.

Lemma configured_ok : state_ok g cur' (S k).
Proof.
  split; [rewrite Hgid; apply Hcur|done|rewrite Hlast; apply Hcur|..].
  - intros s. rewrite Hshard, fmap_is_Some. apply (so_dom _ _ _ Hcur).
  - intros s sh' Hsh'. destruct (configured s sh' Hsh') as (sh & Hsh & Hst & Hc).
    pose proof (so_shard _ _ _ Hcur _ _ Hsh) as Hok. unfold shard_ok in *. rewrite Hst in Hok.
    cbn [pred].
    destruct Hc as [(?&?&->)|[(?&?&->)|[(?&?&->)|[(?&?&?&Hst')|(?&?&Hst'&?)]]]];
      rewrite ?Hst, ?Hst'; auto; done.
Qed.

Lemma config_inv : gs_inv (next g cur' cur past).
Proof.
  pose proof configured_ok as Hok'.
  pose proof (chain_step g cur cur' past k (S k) (wlog w) Hg Hcur Hok' (le_S _ _ (le_n k))) as Hcs.
  assert (∀ s sh, stateMachines cur !! s = Some sh → Status sh = Serving → own k s = g →
    chain w k s ∧ ∀ sh', stateMachines cur' !! s = Some sh' → KV sh' = KV sh → up_to_date w cur' s) as Hkept.
  { intros s sh Hsh Hst Ho.
    destruct (kept_shards g cur past k Hg Hcur s sh Hsh) as [? [(x & Hx & Hkv) Hd]]; [by rewrite Hst|done|].
    split; [done|]. intros sh' Hsh' E. simplify_eq. split; [exists sh'; split; [done|congruence]|].
    intros r Hr. unfold isDuplicateRequest. rewrite Hops. by apply Hd. }
  assert (∀ s, chain w k s → own k s = own (S k) s ∨ own k s = 0 → chain w (S k) s) as Hnolink.
  { intros s Hc Ho j Hj Hne Hj0. destruct (decide (j = k)) as [->|]; [|apply Hc; [lia|done|done]].
    by destruct Ho. }
  apply (step_inv g cur cur' past k (S k) (wlog w) Hg Hcur Hok'); [lia|lia|lia|auto|apply (gi_once _ Hinv)|..].
  - intros s sh' Hsh' Hsv Ho. destruct (configured s sh' Hsh') as (sh & Hsh & Hst & Hc).
    destruct Hc as [(?&O&->)|[(?&?&->)|[(?&O&->)|[(?&?&?&Hst')|(?&?&Hst'&?)]]]]; try done.
    + destruct (Hkept s sh Hsh Hst O) as [Hck Hu]. split; [|by eapply Hu].
      apply Hcs, Hnolink; [done|left; congruence].
    + split.
      * apply Hcs. intros j Hj _ Hj0. destruct (owner_stays j k s); [lia|done|done].
      * assert (map_get [] (wlog w) s = []) as E by by eapply fresh_shard.
        split; [|cbn; rewrite E; by intros r Hr%not_elem_of_nil].
        exists sh. split; [done|]. cbn. rewrite E.
        pose proof (so_shard _ _ _ Hcur _ _ Hsh) as Hok. unfold shard_ok in Hok. rewrite Hst in Hok.
        apply Hok. destruct (newest _ _ _ Hg). congruence.
    + by rewrite Hst' in Hsv.
  - intros s sh' Hsh' Hbp. destruct (configured s sh' Hsh') as (sh & Hsh & Hst & Hc).
    destruct Hc as [(?&O&->)|[(?&?&->)|[(?&O&->)|[(?&?&?&Hst')|(?&O&Hst'&E)]]]]; try congruence.
    destruct (Hkept s sh Hsh Hst O) as [Hck Hu]. split; [by apply Hcs|].
    intros _. by eapply Hu.
Qed.

End config_step.

Lemma configuration_step g cur past k c p j cur' resp :
  hist w !! g = Some (cur :: past) → state_ok g cur k → p ∈ cur :: past →
  configureAction_query p = Some (Z.of_nat j) → c = cfg j →
  applyConfiguration c cur = Some (cur', resp) → gs_inv (next g cur' cur past).
Proof.
  intros Hg Hcur Hp Hq -> Happ.
  destruct (gi_hist _ Hinv _ _ Hg) as (Hg0 & c & r & [= <- <-] & Hpast).
  destruct (Hpast p Hp) as (_ & _ & Hall).
  unfold configureAction_query in Hq. case_if_in Hq; [|done]. simplify_eq.
  destruct (applyConfiguration_spec (cfg j) cur) as (c1 & Happ' & E1 & E2 & Hspec);
    [apply (so_dom _ _ _ Hcur)|].
  simplify_eq. rewrite ch_num, (state_ok_num _ _ _ Hcur) in Hspec. case_if_in Hspec; zbool.
  - destruct Hspec as (F1 & F2 & F3). assert (j = S k) as -> by lia.
    apply (config_inv g cur past k); try done.
    apply Hall; [rewrite (state_ok_num _ _ _ Hcur); lia|done].
  - subst cur'. apply (step_same g cur past k Hg Hcur cur); [done..|apply (so_dom _ _ _ Hcur)|done|eauto].
Qed.

(** ** Client operations *)

Lemma replay_writes_snoc l r : replay_writes (l ++ [r]) = write_effect r (replay_writes l).
Proof. unfold replay_writes. by rewrite foldl_app. Qed.

Lemma isDuplicate_mono c id id' kv :
  isDuplicateRequest c id kv = true → isDuplicateRequest c id' kv = false → id < id'.
Proof. unfold isDuplicateRequest. case_match; [|done]. intros. zbool. lia. Qed.

Lemma increasing_snoc l r :
  increasing l → (∀ r', r' ∈ l → rq_ClientId r' = rq_ClientId r → rq_CommandId r' < rq_CommandId r) →
  increasing (l ++ [r]).
Proof.
  intros Hl Hr i j a b Hij Ha Hb Hc. pose proof (lookup_lt_Some _ _ _ Hb) as Hj.
  rewrite length_app in Hj. cbn in Hj. rewrite lookup_app_l in Ha by lia.
  destruct (decide (j < length l)%nat).
  - rewrite lookup_app_l in Hb by done. by apply (Hl i j a b).
  - replace j with (length l) in Hb by lia. rewrite lookup_app_r, Nat.sub_diag in Hb by lia.
    cbn in Hb. simplify_eq. apply Hr; [by eapply list_elem_of_lookup_2|done].
Qed.

Section write.
Context (g : Z) (cur : ShardKV) (past : list ShardKV) (k : nat) (r : CommandRequest).
Context (Hg : hist w !! g = Some (cur :: past)) (Hcur : state_ok g cur k).
Context (Heff : effective r cur = true) (cur' : ShardKV) (sh : Shard) (ctx : OperationContext).
Let s0 := key2shard (rq_Key r).
Context (Hgid : gid cur' = gid cur) (Hlast : lastConfig cur' = lastConfig cur).
Context (Hconf : currentConfig cur' = currentConfig cur).
Context (Hsh0 : stateMachines cur !! s0 = Some sh).
Context (Hst' : stateMachines cur' =
  <[s0 := mkShard (write_effect r (KV sh)) (Status sh)]> (stateMachines cur)).
Context (Hops' : lastOperations cur' = <[rq_ClientId r := ctx]> (lastOperations cur)).
Context (Hid : MaxAppliedCommandId ctx = rq_CommandId r).

Lemma write_serves : serves cur s0 ∧ isDuplicateRequest (rq_ClientId r) (rq_CommandId r) cur = false.
Proof. unfold effective in Heff. zbool. done. Qed.

Lemma write_status s sh' : stateMachines cur' !! s = Some sh' →
  ∃ x, stateMachines cur !! s = Some x ∧ Status x = Status sh' ∧ (s ≠ s0 → x = sh').
Proof.
  rewrite Hst'. intros [[<- <-]|[Hne Hx]]%lookup_insert_Some; [|eauto].
  exists sh. by split_and!.
Qed.

Lemma write_state_ok : state_ok g cur' k.
Proof.
  destruct Hcur as [E1 E2 E3 Hd Hsok]. split; [congruence..| |].
  - intros s. rewrite Hst'. destruct (decide (s0 = s)) as [<-|Hne].
    + rewrite lookup_insert_eq. split; [|eauto]. intros _. apply Hd. eauto.
    + rewrite lookup_insert_ne by done. apply Hd.
  - intros s sh' Hs'. destruct (write_status s sh' Hs') as (x & Hx & Est & Ex).
    specialize (Hsok s x Hx). destruct (decide (s = s0)) as [->|Hne]; [|by rewrite <- Ex].
    destruct write_serves as [Hs _]. apply (serves_spec _ _ _ _ Hcur) in Hs as (Ho & y & Hy & Hsv).
    unfold shard_ok in *. rewrite <- Est. simplify_eq.
    destruct (Status _) eqn:Ey; try done; tauto.
Qed.

Lemma write_dup c id :
  isDuplicateRequest c id cur = true ∨ (c = rq_ClientId r ∧ id = rq_CommandId r) →
  isDuplicateRequest c id cur' = true.
Proof.
  intros H. unfold isDuplicateRequest at 1. rewrite Hops'.
  destruct (decide (rq_ClientId r = c)) as [<-|Hne].
  - rewrite lookup_insert_eq, Hid. apply Z.leb_le. destruct H as [Hd|[_ ->]]; [|lia].
    destruct write_serves as [_ Hn]. pose proof (isDuplicate_mono _ _ _ _ Hd Hn). lia.
  - rewrite lookup_insert_ne by done. destruct H as [Hd|[-> _]]; done.
Qed.

Lemma log_other s : s ≠ s0 → map_get [] (log_write (Operation r) cur (wlog w)) s = map_get [] (wlog w) s.
Proof.
  intros Hne. unfold log_write. rewrite Heff. unfold map_get at 1. by rewrite lookup_insert_ne by done.
Qed.

Lemma log_same :
  map_get [] (log_write (Operation r) cur (wlog w)) s0 = map_get [] (wlog w) s0 ++ [r].
Proof. unfold log_write. rewrite Heff. unfold map_get at 1. by rewrite lookup_insert_eq. Qed.

Lemma write_inv :
  gs_inv (mkGroups (<[g := cur' :: cur :: past]> (hist w)) (log_write (Operation r) cur (wlog w))).
Proof.
  pose proof write_state_ok as Hok'. destruct write_serves as [Hserve Hnd].
  pose proof (chain_step g cur cur' past k k (log_write (Operation r) cur (wlog w)) Hg Hcur Hok'
    (le_n k)) as Hcs.
  destruct (gi_serving _ Hinv g cur past s0 Hg Hserve) as [(y & Hy & Hkv) Hd].
  apply (step_inv g cur cur' past k k _ Hg Hcur Hok'); [done|..].
  - intros _ s. unfold status_of. destruct (stateMachines cur' !! s) as [sh'|] eqn:E; [|done].
    destruct (write_status s sh' E) as (x & -> & Est & _). cbn. by rewrite Est.
  - intros _. rewrite !all_serving_spec. intros Ha s sh' Hs'.
    destruct (write_status s sh' Hs') as (x & Hx & <- & _). by eapply Ha.
  - intros s. destruct (decide (s = s0)) as [->|Hne]; [by right|left; by apply log_other].
  - intros s. destruct (decide (s = s0)) as [->|Hne]; [|rewrite log_other by done; apply (gi_once _ Hinv)].
    rewrite log_same. apply increasing_snoc; [apply (gi_once _ Hinv)|].
    intros r' Hr' E. apply (isDuplicate_mono (rq_ClientId r) _ _ cur); [rewrite <- E; auto|done].
  - intros s sh' Hs' Hsv Ho. destruct (write_status s sh' Hs') as (x & Hx & Est & Ex).
    destruct (kept_shards g cur past k Hg Hcur s x Hx) as [Hc [(z & Hz & Hzkv) Hzd]];
      [by rewrite Est|done|]. split; [by apply Hcs|].
    destruct (decide (s = s0)) as [->|Hne]; unfold up_to_date; cbn [wlog].
    + rewrite log_same. split.
      * eexists. rewrite Hst', lookup_insert_eq. split; [done|]. cbn. rewrite replay_writes_snoc. congruence.
      * intros r' [Hr'|Hr'%list_elem_of_singleton]%elem_of_app; apply write_dup; [auto|]. by right; subst.
    + rewrite log_other by done. split.
      * exists sh'. split; [done|]. rewrite <- Ex by done. congruence.
      * intros r' Hr'. apply write_dup. auto.
  - intros s sh' Hs' Hbp. destruct (write_status s sh' Hs') as (x & Hx & Est & Ex).
    destruct (kept_leaving g cur past k Hg Hcur s x Hx) as [Hc Hp]; [congruence|].
    split; [by apply Hcs|]. intros Hpend. destruct (Hp Hpend) as [(z & Hz & Hzkv) Hzd].
    destruct (decide (s = s0)) as [->|Hne].
    { apply (serves_spec _ _ _ _ Hcur) in Hserve as (_ & u & Hu & Hsv). simplify_eq.
      rewrite Est, Hbp in Hsv. done. }
    unfold up_to_date. cbn [wlog]. rewrite log_other by done. split.
    + exists sh'. split; [done|]. rewrite <- Ex by done. congruence.
    + intros r' Hr'. apply write_dup. auto.
Qed.

End write.

Lemma operation_step g cur past k r cur' resp :
  hist w !! g = Some (cur :: past) → state_ok g cur k → applyOperation r cur = Some (cur', resp) →
  gs_inv (mkGroups (<[g := cur' :: cur :: past]> (hist w)) (log_write (Operation r) cur (wlog w))).
Proof.
  intros Hg Hcur Happ.
  destruct (applyOperation_spec r cur cur' resp Happ) as (E1 & E2 & E3 & Hspec).
  destruct (effective r cur) eqn:Heff.
  - destruct Hspec as (sh & ctx & Hsh & Hst & Hops & Hid).
    by apply (write_inv g cur past k r Hg Hcur Heff cur' sh ctx).
  - unfold log_write. rewrite Heff. destruct Hspec as [F1 F2].
    apply (step_same g cur past k Hg Hcur cur'); [done..| | |].
    + intros s. rewrite F1. apply (so_dom _ _ _ Hcur).
    + intros c id. unfold isDuplicateRequest. by rewrite F2.
    + intros s sh. rewrite F1. eauto.
Qed.

End inv.

Lemma gs_step_inv w w' : gs_inv w → gs_step w w' → gs_inv w'.
Proof.
  intros Hinv Hstep. destruct Hstep as [w g cur past command cur' resp Hg Hj Happ].
  destruct (newest w Hinv _ _ _ Hg) as (_ & k & Hcur). destruct Hj as (past0 & Hg' & Hj).
  rewrite Hg in Hg'. injection Hg' as <-. destruct command as [r|c|info|req|]; cbn in Happ.
  - by eapply operation_step.
  - destruct Hj as (p & j & ? & ? & ?). by eapply configuration_step.
  - destruct Hj as (p & prev & req & q & rf & past' & ? & ? & ? & ? & ? & Hrep).
    unfold migrationAction_reply in Hrep. case_decide; [|done]. simplify_eq. by eapply insert_step.
  - assert (Forall (λ s, 0 ≤ s < NShards) (sor_ShardIDs req)) as Hids.
    { destruct Hj as [(p & prev & reply & Hp & Hreq & Hrep)|(g' & past' & p & Hg' & Hp & Hreq)].
      - unfold gcAction_reply in Hrep. case_decide; [|done]. simplify_eq.
        destruct (gi_hist _ Hinv _ _ Hg) as (_ & c & rr & [= <- <-] & Hpast).
        destruct (Hpast p Hp) as [[kp Hkp] _].
        eapply shard_requests_ids; [apply (so_dom _ _ _ Hkp)|exact Hreq].
      - destruct (gi_hist _ Hinv _ _ Hg') as (_ & c & rr & -> & Hpast).
        destruct (Hpast p Hp) as [[kp Hkp] _].
        eapply shard_requests_ids; [apply (so_dom _ _ _ Hkp)|exact Hreq]. }
    by eapply delete_step.
  - injection Happ as <- _.
    apply (step_same w Hinv g cur past k Hg Hcur cur); [done..|apply (so_dom _ _ _ Hcur)|done|eauto].
Qed.

Lemma StartServer_fresh n i max g kv :
  StartServer n i MakePersister max g = Some kv →
  gid kv = g ∧ currentConfig kv = DefaultConfig ∧ lastConfig kv = DefaultConfig ∧
  stateMachines kv = foldl (λ m i, <[i := NewShard]> m) ∅ shard_indices.
Proof. intros H. vm_compute in H. by injection H as <-. Qed.

Lemma foldl_insert_const {V} (v : V) l (m : gmap Z V) s :
  foldl (λ m i, <[i := v]> m) m l !! s = if decide (s ∈ l) then Some v else m !! s.
Proof.
  revert m. induction l as [|x l IH]; intros m; [done|]. cbn [foldl]. rewrite IH.
  destruct (decide (s ∈ l)) as [Hl|Hl].
  - by rewrite decide_True by (apply elem_of_cons; by right).
  - destruct (decide (x = s)) as [<-|Hne].
    + by rewrite lookup_insert_eq, decide_True by (apply elem_of_cons; by left).
    + rewrite lookup_insert_ne by done. rewrite decide_False; [done|].
      intros [?|?]%elem_of_cons; [congruence|done].
Qed.

Lemma StartServer_ok n i max g kv :
  g ≠ 0 → StartServer n i MakePersister max g = Some kv →
  state_ok g kv 0 ∧ ∀ s sh, stateMachines kv !! s = Some sh → sh = NewShard.
Proof.
  intros Hg0 H. destruct (StartServer_fresh _ _ _ _ _ H) as (E1 & E2 & E3 & E4).
  assert (∀ s, stateMachines kv !! s = if decide (s ∈ shard_indices) then Some NewShard else None) as Hm.
  { intros s. by rewrite E4, foldl_insert_const. }
  assert (∀ s sh, stateMachines kv !! s = Some sh → sh = NewShard) as Hnew.
  { intros s sh. rewrite Hm. case_decide; [by intros [= <-]|done]. }
  split; [|done]. split; [done|by rewrite ch_first|by rewrite ch_first|..].
  - intros s. rewrite Hm, <- shard_indices_spec. case_decide; split; try done; eauto.
  - intros s sh Hsh. by rewrite (Hnew s sh Hsh).
Qed.

Lemma gs_init_inv w : gs_init w → gs_inv w.
Proof.
  intros [Hw Hh].
  assert (∀ g past p, hist w !! g = Some past → p ∈ past → ∃ n i max,
    g ≠ 0 ∧ past = [p] ∧ StartServer n i MakePersister max g = Some p) as Hpast.
  { intros g past p Hg Hp. destruct (Hh g past Hg) as (? & n & i & max & kv & Hs & ->).
    apply list_elem_of_singleton in Hp as ->. by exists n, i, max. }
  assert (∀ s, map_get [] (wlog w) s = []) as Hl by (intros; by rewrite Hw).
  split.
  - intros g past Hg. destruct (Hh g past Hg) as (Hg0 & n & i & max & kv & Hs & ->).
    split; [done|]. eexists _, _. split; [done|]. intros p ->%list_elem_of_singleton.
    split; [exists 0%nat; by eapply StartServer_ok|]. split; [lia|done].
  - intros g past p k s sh Hg Hp Hk Hsh. destruct (Hpast g past p Hg Hp) as (n & i & max & Hg0 & _ & Hs).
    destruct (StartServer_ok _ _ _ _ _ Hg0 Hs) as [Hok Hnew].
    rewrite (state_ok_fun _ _ _ _ Hk Hok), (Hnew s sh Hsh). split; [|done]. intros _ _ j Hj. lia.
  - intros g cur rest s Hg (Ho & sh & Hsh & Hsv)%canServe_true.
    destruct (Hpast g _ cur Hg (head_in _ _)) as (n & i & max & Hg0 & _ & Hs).
    destruct (StartServer_ok _ _ _ _ _ Hg0 Hs) as [Hok Hnew]. split; rewrite Hl.
    + exists sh. split; [done|]. by rewrite (Hnew s sh Hsh).
    + by intros r Hr%not_elem_of_nil.
  - intros g past q m s sh Hg Hq Hm Hsh Hst.
    destruct (Hpast g _ q Hg Hq) as (n & i & max & Hg0 & _ & Hs).
    destruct (StartServer_ok _ _ _ _ _ Hg0 Hs) as [_ Hnew]. by rewrite (Hnew s sh Hsh) in Hst.
  - intros s. by rewrite Hl.
  - intros s i j r r' _. by rewrite Hl, lookup_nil.
Qed.

Lemma reachable_inv w : gs_reachable w → gs_inv w.
Proof.
  intros (w0 & Hi & Hr). apply gs_init_inv in Hi. induction Hr; [done|].
  by eauto using gs_step_inv.
Qed.

(** A command of a log never makes a server panic. *)
Lemma command_total w g cur past command :
  gs_inv w → hist w !! g = Some (cur :: past) → justified w g command →
  is_Some (applyCommand command cur).
Proof.
  intros Hinv Hg (past0 & Hg' & Hj). rewrite Hg in Hg'. injection Hg' as <-.
  destruct (gi_hist _ Hinv _ _ Hg) as (_ & c & rr & [= <- <-] & Hpast).
  destruct (Hpast cur (head_in _ _)) as [[k Hcur] _]. pose proof (so_dom _ _ _ Hcur) as Hdom.
  assert (∀ g' past' p n st req, hist w !! g' = Some past' → p ∈ past' →
    (n, req) ∈ shard_requests st p → Forall (λ s, 0 ≤ s < NShards) (sor_ShardIDs req)) as Hids.
  { intros g' past' p n st req Hg' Hp Hreq.
    destruct (gi_hist _ Hinv _ _ Hg') as (_ & c & r' & -> & Hpast').
    destruct (Hpast' p Hp) as [[kp Hkp] _].
    eapply shard_requests_ids; [apply (so_dom _ _ _ Hkp)|exact Hreq]. }
  destruct command as [r|c|info|req|]; cbn.
  - unfold applyOperation. destruct (proj2 (Hdom _) (key2shard_range (rq_Key r))) as [sh Hsh].
    unfold canServe, status_of. rewrite Hsh. cbn.
    assert (∀ b, is_Some (if b && isDuplicateRequest (rq_ClientId r) (rq_CommandId r) cur
      then (λ ctx, (cur, LastResponse ctx)) <$> lastOperations cur !! rq_ClientId r
      else let '(s, response) := applyLogToStateMachines r sh in
        let kv := cur <| stateMachines ::= <[key2shard (rq_Key r) := s]> |> in
        Some (if b : bool then kv <| lastOperations ::=
          <[rq_ClientId r := mkContext (rq_CommandId r) response]> |> else kv, response))) as H.
    { intros b. case_if; [|by case_match]. zbool. unfold isDuplicateRequest in *.
      by destruct (lastOperations cur !! _). }
    case_if; [|done]. destruct (servable (Status sh)); [apply H|done].
  - destruct (applyConfiguration_spec c cur Hdom) as (? & -> & _). done.
  - destruct Hj as (p & prev & req & q & rf & past' & Hp & Hreq & Hprev & Hq & Hget & Hrep).
    unfold migrationAction_reply in Hrep. case_decide as Hok; [|done].
    destruct (gi_hist _ Hinv _ _ Hprev) as (_ & c & r' & -> & Hpast').
    destruct (Hpast' q Hq) as [[kq Hkq] _].
    assert (has_shards (q <| skv_rf := rf |>)) as Hqs by apply (so_dom _ _ _ Hkq).
    destruct (GetShardsData_spec req (q <| skv_rf := rf |>) info Hqs) as (_ & _ & _ & Hd);
      [exact (Hids g _ p prev Pulling req Hg Hp Hreq)|done|done|].
    destruct (applyInsertShards_spec info cur Hdom) as (? & -> & _); [|done].
    intros s [d Hsd]. destruct (Hd s d Hsd) as (_ & sh & Hsh & _). apply Hqs. eauto.
  - destruct (applyDeleteShards_spec req cur Hdom) as (? & -> & _); [|done].
    destruct Hj as [(p & prev & reply & Hp & Hreq & Hrep)|(g' & past' & p & Hg' & Hp & Hreq)].
    + unfold gcAction_reply in Hrep. case_decide; [|done]. simplify_eq.
      exact (Hids g _ p prev GCing req Hg Hp Hreq).
    + exact (Hids g' past' p g GCing req Hg' Hp Hreq).
  - done.
Qed.

End groups.
