(* ===== verification/ShardMigration.v ===== *)
(** * Shards moving between replica groups: the claims

    What the invariant of ShardGroups.v says of every reachable state of the
    groups, with runs of two groups in which a shard moves from one to the
    other. *)
From stdpp Require Import base tactics list gmap strings numbers sorting relations.
From S2P Require Import Prelude.
From S2P Require Import Labgob.
From S2P Require Import Persister.
From S2P Require Import Raft.
From S2P Require Import ShardCtrler.
From S2P Require Import ShardBalance.
From S2P Require Import ShardKV.
From S2P Require Import ShardKVFacts.
From S2P Require Import ShardGroups.
Open Scope Z_scope.
Open Scope go_scope.

(** ** Runs

    Groups in which every server has applied all of its log: the commands the
    monitors of the newest state propose, one at a time. *)
Inductive Act :=
| Client (r : CommandRequest)
| Configure
| Pull          (* [migrationAction], the first request *)
| Collect       (* the same for [gcAction], at the group that gives the shards away *)
| Finish.       (* the end of [gcAction], at the group that has got them *)

(** The Raft instance of a server that is the leader. *)
Definition leader_rf : Raft Command SnapValue :=
  (Make 1 0 MakePersister) <| state := Leader |>.

Section runs.
Context (cfg : nat → Config).

Definition head_state (w : Groups_) (g : Z) : option ShardKV :=
  match hist w !! g with Some (cur :: _) => Some cur | _ => None end.

Definition pull (w : Groups_) (cur : ShardKV) : option Command :=
  match migrationAction cur with
  | (prev, req) :: _ =>
      match head_state w prev with
      | Some q =>
          match GetShardsData req (q <| skv_rf := leader_rf |>) with
          | Some reply => migrationAction_reply reply
          | None => None
          end
      | None => None
      end
  | [] => None
  end.

Definition collect (w : Groups_) (from g : Z) : option Command :=
  match head_state w from with
  | Some p =>
      match gcAction p with
      | (prev, req) :: _ => if decide (prev = g) then Some (DeleteShards req) else None
      | [] => None
      end
  | None => None
  end.

Definition finish (cur : ShardKV) : option Command :=
  match gcAction cur with
  | (prev, req) :: _ => gcAction_reply req (DeleteShardsData_executed (mkResponse OK ""))
  | [] => None
  end.

Definition act (w : Groups_) (g from : Z) (cur : ShardKV) (a : Act) : option Command :=
  match a with
  | Client r => Some (Operation r)
  | Configure =>
      match configureAction_query cur with
      | Some n => if 0 <=? n then Some (Configuration (cfg (Z.to_nat n))) else None
      | None => None
      end
  | Pull => pull w cur
  | Collect => collect w from g
  | Finish => finish cur
  end.

(** Group [g] applies the command of the action; [from] is the other group. *)
Definition run_one (w : Groups_) (step : Z * Z * Act) : option Groups_ :=
  let '(g, from, a) := step in
  match hist w !! g with
  | Some (cur :: past) =>
      match act w g from cur a with
      | Some command =>
          match applyCommand command cur with
          | Some (cur', _) =>
              Some (mkGroups (<[g := cur' :: cur :: past]> (hist w)) (log_write command cur (wlog w)))
          | None => None
          end
      | None => None
      end
  | _ => None
  end.

Definition run (w : Groups_) (steps : list (Z * Z * Act)) : option Groups_ :=
  fold_option run_one w steps.

Lemma head_state_spec w g p :
  head_state w g = Some p → ∃ past, hist w !! g = Some past ∧ p ∈ past.
Proof.
  unfold head_state. destruct (hist w !! g) as [[|c past]|]; try done.
  intros [= ->]. eexists. split; [done|]. apply head_in.
Qed.

Lemma act_justified w g from cur past a command :
  hist w !! g = Some (cur :: past) → act w g from cur a = Some command → justified cfg w g command.
Proof.
  intros Hg Ha. exists (cur :: past). split; [done|]. destruct a as [r| | | |]; cbn in Ha.
  - by simplify_eq.
  - destruct (configureAction_query cur) as [n|] eqn:E; [|done]. case_if_in Ha; [|done]. simplify_eq.
    exists cur, (Z.to_nat n). split; [apply head_in|]. zbool. by rewrite Z2Nat.id.
  - unfold pull in Ha. destruct (migrationAction cur) as [|[prev req] l] eqn:E; [done|].
    destruct (head_state w prev) as [q|] eqn:Hq; [|done].
    destruct (GetShardsData _ _) as [reply|] eqn:Hget; [|done].
    destruct (head_state_spec _ _ _ Hq) as (past' & Hp' & Hin). pose proof Ha as Hrep.
    unfold migrationAction_reply in Ha. case_decide; [|done]. simplify_eq.
    exists cur, prev, req, q, leader_rf, past'. rewrite E.
    split_and!; try done; apply head_in.
  - unfold collect in Ha. destruct (head_state w from) as [p|] eqn:Hp; [|done].
    destruct (gcAction p) as [|[prev req] l] eqn:E; [done|]. case_decide; [|done]. simplify_eq.
    destruct (head_state_spec _ _ _ Hp) as (past' & Hp' & Hin).
    right. exists from, past', p. rewrite E. split_and!; try done. apply head_in.
  - unfold finish in Ha. destruct (gcAction cur) as [|[prev req] l] eqn:E; [done|].
    pose proof Ha as Hrep. unfold gcAction_reply in Ha. case_decide; [|done]. simplify_eq.
    left. eexists cur, prev, _. rewrite E. split_and!; [apply head_in|apply head_in|done].
Qed.

Lemma run_reachable steps w w' : gs_reachable cfg w → run w steps = Some w' → gs_reachable cfg w'.
Proof.
  unfold run. revert w. induction steps as [|[[g from] a] steps IH]; intros w Hw; cbn; [by intros [= <-]|].
  destruct (hist w !! g) as [[|cur past]|] eqn:Hg; try done.
  destruct (act w g from cur a) as [command|] eqn:Ha; [|done].
  destruct (applyCommand command cur) as [[cur' resp]|] eqn:Happ; [|done].
  apply IH. destruct Hw as (w0 & Hi & Hr). exists w0. split; [done|].
  eapply rtc_r; [done|]. eapply gs_apply; [done| |done]. by eapply act_justified.
Qed.

End runs.

(** The runs: all shards to group 100, then all of them to group 101. *)
Definition history (k : nat) : Config :=
  match k with
  | 0%nat => DefaultConfig
  | 1%nat => mkConfig 1 (replicate 10 100) {[100 := ["a"]]}
  | S (S _) => mkConfig (Z.of_nat k) (replicate 10 101) {[100 := ["a"]; 101 := ["b"]]}
  end.

#[export] Instance history_ok : ConfigHistory history.
Proof.
  split; [done| |].
  - by intros [|[|k]].
  - intros [|[|k]] s; cbn; [|unfold owner, rd..].
    + unfold owner, rd. cbn. intros []. unfold idx. case_if; [|done].
      by destruct (Z.to_nat s) as [|[|[|[|[|[|[|[|[|[|]]]]]]]]]].
    + unfold idx. cbn. unfold in_range, len. cbn. case_if; [|done].
      by destruct (Z.to_nat s) as [|[|[|[|[|[|[|[|[|[|]]]]]]]]]].
    + done.
Qed.

Definition started (g : Z) : list ShardKV :=
  match StartServer 1 0 MakePersister (-1) g with Some kv => [kv] | None => [] end.
Definition begin : Groups_ := mkGroups {[100 := started 100; 101 := started 101]} ∅.

Lemma begin_reachable cfg : gs_reachable cfg begin.
Proof.
  exists begin. split; [|done]. split; [done|]. intros g past Hg. unfold begin in Hg. cbn in Hg.
  apply lookup_insert_Some in Hg as [[<- <-]|[_ [<- <-]%lookup_singleton_Some]];
    (split; [done|]; exists 1, 0, (-1); eexists; split; vm_compute; reflexivity).
Qed.

Definition put1 : CommandRequest := mkRequest "0" "x" OpPut 7 0.
Definition append2 : CommandRequest := mkRequest "0" "y" OpAppend 7 1.
Definition get3 : CommandRequest := mkRequest "0" "" OpGet 7 2.

(** A write before the move and one after it, then both groups drop the marks. *)
Definition move_steps : list (Z * Z * Act) :=
  [(100, 101, Configure); (101, 100, Configure); (100, 101, Client put1);
   (100, 101, Configure); (101, 100, Configure); (101, 100, Pull);
   (101, 100, Client append2); (100, 101, Collect); (101, 100, Finish)].
Definition moving : Groups_ := default begin (run history begin (take 7 move_steps)).
Definition moved : Groups_ := default begin (run history begin move_steps).

(** The same without [Collect]. *)
Definition stranded_steps : list (Z * Z * Act) := take 7 move_steps ++ [(101, 100, Finish)].
Definition stranded : Groups_ := default begin (run history begin stranded_steps).

Lemma default_run_reachable cfg steps : gs_reachable cfg (default begin (run cfg begin steps)).
Proof.
  destruct (run cfg begin steps) as [w|] eqn:E; [|apply begin_reachable].
  by apply (run_reachable cfg steps begin); [apply begin_reachable|].
Qed.

Lemma moving_reachable : gs_reachable history moving.
Proof. exact (default_run_reachable history (take 7 move_steps)). Qed.
Lemma moved_reachable : gs_reachable history moved.
Proof. exact (default_run_reachable history move_steps). Qed.
Lemma stranded_reachable : gs_reachable history stranded.
Proof. exact (default_run_reachable history stranded_steps). Qed.

(** All shards to group 100, then to no group, then to group 101. *)
Definition orphaning (k : nat) : Config :=
  match k with
  | 0%nat => DefaultConfig
  | 1%nat => mkConfig 1 (replicate 10 100) {[100 := ["a"]]}
  | 2%nat => mkConfig 2 (replicate 10 0) ∅
  | _ => mkConfig (Z.of_nat k) (replicate 10 101) {[101 := ["b"]]}
  end.
Definition orphaned_steps : list (Z * Z * Act) :=
  [(100, 101, Configure); (100, 101, Client put1); (101, 100, Configure); (101, 100, Configure);
   (101, 100, Configure)].
Definition orphaned : Groups_ := default begin (run orphaning begin orphaned_steps).
Lemma orphaned_reachable : gs_reachable orphaning orphaned.
Proof. exact (default_run_reachable orphaning orphaned_steps). Qed.

Definition writes (w : Groups_) (s : Z) : list CommandRequest := map_get [] (wlog w) s.

(** What a [Get] answers on a shard that holds [m]. *)
Definition get_response (key : string) (m : gmap string string) : CommandResponse :=
  match m !! key with Some v => mkResponse OK v | None => mkResponse ErrNoKey "" end.

(** ** The claims *)

Section claims.
Context (cfg : nat → Config) `{!ConfigHistory cfg}.

(** C26.  However the groups propose configurations, pull and delete shards from
    states that lag behind, no two groups can serve the same shard: while the
    newest state of one group accepts operations on a shard, that of every
    other group refuses them. *)
Theorem shard_exclusive w g1 c1 past1 g2 c2 past2 s :
  gs_reachable cfg w →
  hist w !! g1 = Some (c1 :: past1) → hist w !! g2 = Some (c2 :: past2) → g1 ≠ g2 →
  0 ≤ s < NShards → canServe s c1 = Some true → canServe s c2 = Some false.
Proof.
  intros Hw%reachable_inv Hg1 Hg2 Hne Hr Hs; [|done].
  destruct (newest cfg w Hw _ _ _ Hg2) as (_ & k & Hk).
  destruct (canServe s c2) as [[]|] eqn:E; [|done|].
  - destruct Hne. by apply (one_server cfg w Hw g1 c1 past1 g2 c2 past2 s).
  - unfold canServe, status_of in E. case_if_in E; [|done].
    by destruct (proj2 (so_dom _ _ _ _ Hk s) Hr) as [sh Hsh]; rewrite Hsh in E.
Qed.

(** C27.  The group that can serve a shard holds exactly the effect of all the
    writes made to the shard in any group before, in the order they were made;
    no client's command is among them twice or out of order; and the group's
    table knows each of them, so that a retry there changes nothing. *)
Theorem shard_contents w g cur past s :
  gs_reachable cfg w → hist w !! g = Some (cur :: past) → canServe s cur = Some true →
  (∃ sh, stateMachines cur !! s = Some sh ∧ KV sh = replay_writes (writes w s)) ∧
  increasing (writes w s) ∧
  (∀ r, r ∈ writes w s → isDuplicateRequest (rq_ClientId r) (rq_CommandId r) cur = true).
Proof.
  intros Hw%reachable_inv Hg Hs; [|done].
  destruct (gi_serving cfg w Hw g cur past s Hg Hs) as [Hkv Hd].
  split_and!; [done|apply (gi_once cfg w Hw)|done].
Qed.

(** A [Get] that a group applies on a shard it can serve answers the value
    that all the writes to the shard, in any group, leave for the key, or
    [ErrNoKey] if they leave none; it changes neither the shards nor the table. *)
Theorem shard_get w g cur past r :
  gs_reachable cfg w → hist w !! g = Some (cur :: past) → rq_Op r = OpGet →
  canServe (key2shard (rq_Key r)) cur = Some true →
  ∃ cur', applyOperation r cur =
      Some (cur', get_response (rq_Key r) (replay_writes (writes w (key2shard (rq_Key r))))) ∧
    same_machine cur' cur.
Proof.
  intros Hw%reachable_inv Hg Hop Hs; [|done].
  destruct (gi_serving cfg w Hw g cur past _ Hg Hs) as [(sh & Hsh & Hkv) _].
  unfold applyOperation. rewrite Hs, Hop, bool_decide_true by done. cbn. rewrite Hsh.
  pose proof (applyLog_get r sh Hop) as E.
  assert ((applyLogToStateMachines r sh).2 = get_response (rq_Key r) (KV sh)) as E'.
  { unfold applyLogToStateMachines, Shard_Get, get_response. rewrite Hop.
    repeat (rewrite decide_False by done). rewrite decide_True by done. by destruct (KV sh !! rq_Key r). }
  destruct (applyLogToStateMachines r sh) as [sh' resp]. cbn in E, E'. subst sh' resp.
  unfold writes. rewrite <- Hkv. eexists. split; [done|].
  unfold same_machine, machine. cbn. by rewrite insert_id.
Qed.

(** C28.  No command that the client code or a monitor of some group can have put
    in a group's log makes a server of the group panic when it is applied, and
    no request makes it panic before it enters the log. *)
Theorem groups_never_panic w g cur past command :
  gs_reachable cfg w → hist w !! g = Some (cur :: past) → justified cfg w g command →
  is_Some (applyCommand command cur) ∧ ∀ r, is_Some (Command_check r cur).
Proof.
  intros Hw%reachable_inv Hg Hj; [|done]. split; [by eapply command_total|]. intros r.
  destruct (newest cfg w Hw _ _ _ Hg) as (_ & k & Hk). unfold Command_check. case_if; [done|].
  unfold canServe, status_of.
  destruct (proj2 (so_dom _ _ _ _ Hk _) (key2shard_range (rq_Key r))) as [sh ->]. cbn.
  case_if; [by destruct (servable (Status sh))|done].
Qed.

(** A group takes the configurations of the controller one by one, and the
    next one only when it has finished with the shards of the last: no shard
    is on its way in or out, and nothing else changes its configuration. *)
Theorem config_waits w g cur past command cur' resp :
  gs_reachable cfg w → hist w !! g = Some (cur :: past) → justified cfg w g command →
  applyCommand command cur = Some (cur', resp) →
  (currentConfig cur' = currentConfig cur ∧ lastConfig cur' = lastConfig cur) ∨
  (∃ k, currentConfig cur = cfg k ∧ currentConfig cur' = cfg (S k) ∧ lastConfig cur' = cfg k ∧
    ∀ s sh, stateMachines cur !! s = Some sh → Status sh = Serving).
Proof.
  intros Hw%reachable_inv Hg (past0 & Hg' & Hj) Happ; [|done].
  rewrite Hg in Hg'. injection Hg' as <-.
  destruct (gi_hist _ _ Hw _ _ Hg) as (_ & c & rr & [= <- <-] & Hpast).
  destruct (Hpast cur (head_in _ _)) as [[k Hk] _]. pose proof (so_dom _ _ _ _ Hk) as Hdom.
  destruct command as [r|c|info|req|]; cbn in Happ.
  - destruct (applyOperation_spec r cur cur' resp Happ) as (_ & ? & ? & _). by left.
  - destruct Hj as (p & j & Hp & Hq & ->). destruct (Hpast p Hp) as (_ & _ & Hall).
    destruct (applyConfiguration_spec (cfg j) cur Hdom) as (x & Happ' & _ & _ & Hspec).
    simplify_eq. case_if_in Hspec; [|subst; by left]. zbool. right.
    unfold configureAction_query in Hq. case_if_in Hq; [|done]. simplify_eq.
    destruct Hspec as (E1 & E2 & _). rewrite ch_num, (state_ok_num _ _ _ _ Hk) in *.
    assert (j = S k) as -> by lia. exists k.
    split_and!; [apply (so_cur _ _ _ _ Hk)|done|by rewrite E1, (so_cur _ _ _ _ Hk)|].
    apply all_serving_spec, Hall; [lia|done].
  - unfold applyInsertShards in Happ. left. case_if_in Happ; [|by simplify_eq].
    destruct (fold_option _ _ _) as [x|] eqn:Ex; [|done]. simplify_eq.
    destruct (fold_mergeOperation (map_to_list (sop_LastOperations info)) x) as (_ & -> & -> & _).
    by eapply fold_insertShard_config.
  - unfold applyDeleteShards in Happ. left. case_if_in Happ; [|by simplify_eq].
    destruct (fold_option _ _ _) as [x|] eqn:Ex; [|done]. cbn in Happ. simplify_eq.
    by eapply fold_deleteShard_config.
  - injection Happ as <- _. by left.
Qed.

End claims.

(** C31.  [DeleteShardsData] answers [OK] whatever became of the command it
    executed.  The group that has got the shards then drops its mark and never
    asks again, so if that command was lost the other group keeps the shards it
    gave away: it does not ask for another configuration, and the first one
    has no request left to make. *)
Theorem gc_strands_shard :
  (∀ executed, sop_Err (DeleteShardsData_executed executed) = OK) ∧
  gs_reachable history stranded ∧
  match head_state stranded 100, head_state stranded 101 with
  | Some old, Some new =>
      status_of old 8 = Some BePulling ∧ configureAction_query old = None ∧
      all_serving new = true ∧ gcAction new = [] ∧ migrationAction old = [] ∧ gcAction old = []
  | _, _ => False
  end.
Proof. split_and!; [done|exact stranded_reachable|]. vm_compute. by split_and!. Qed.

(** C32.  Why the controller must not be left without groups: a shard that goes
    from a group to group 0 and then to another group is served at once by the
    new group, without a copy, while the old group, still at the first
    configuration, serves it too, and the writes made there are lost. *)
Theorem orphaned_shard_served_twice :
  gs_reachable orphaning orphaned ∧
  match head_state orphaned 100, head_state orphaned 101 with
  | Some old, Some new =>
      canServe 8 old = Some true ∧ canServe 8 new = Some true ∧
      KV <$> stateMachines old !! 8 = Some {["0" := "x"]} ∧
      KV <$> stateMachines new !! 8 = Some ∅
  | _, _ => False
  end.
Proof. split; [exact orphaned_reachable|]. vm_compute. by split_and!. Qed.

(** ** Witnesses *)

(** The newest state of a group, with a fact about it that computes. *)
Lemma newest_with (w : Groups_) g (P : ShardKV → bool) :
  match hist w !! g with Some (cur :: _) => P cur | _ => false end = true →
  ∃ cur past, hist w !! g = Some (cur :: past) ∧ P cur = true.
Proof. destruct (hist w !! g) as [[|cur past]|]; try done. eauto. Qed.

Definition can_serve_8 (kv : ShardKV) : bool := bool_decide (canServe 8 kv = Some true).
Definition gives_8 (kv : ShardKV) : bool := bool_decide (status_of kv 8 = Some BePulling).

Lemma shard_exclusive_witness :
  ∃ c1 past1 c2 past2, hist moving !! 101 = Some (c1 :: past1) ∧
    hist moving !! 100 = Some (c2 :: past2) ∧ canServe 8 c1 = Some true ∧
    status_of c2 8 = Some BePulling ∧ canServe 8 c2 = Some false.
Proof.
  destruct (newest_with moving 101 can_serve_8) as (c1 & past1 & E1 & S1); [by vm_compute|].
  destruct (newest_with moving 100 gives_8) as (c2 & past2 & E2 & S2); [by vm_compute|].
  apply bool_decide_eq_true in S1, S2.
  exists c1, past1, c2, past2. split; [exact E1|]. split; [exact E2|].
  split; [exact S1|]. split; [exact S2|].
  exact (shard_exclusive history moving 101 c1 past1 100 c2 past2 8 moving_reachable E1 E2
    (Z.neq_sym 100 101 (Z.lt_neq 100 101 eq_refl)) (key2shard_range "0") S1).
Defined.

Lemma shard_contents_witness :
  writes moved 8 = [put1; append2] ∧ ∃ cur past, hist moved !! 101 = Some (cur :: past) ∧
    canServe 8 cur = Some true ∧
    (∃ sh, stateMachines cur !! 8 = Some sh ∧ KV sh = replay_writes (writes moved 8)) ∧
    increasing (writes moved 8).
Proof.
  split; [by vm_compute|].
  destruct (newest_with moved 101 can_serve_8) as (cur & past & E1 & S1); [by vm_compute|].
  apply bool_decide_eq_true in S1.
  destruct (shard_contents history moved 101 cur past 8) as (Hkv & Hinc & _);
    [exact moved_reachable|exact E1|exact S1|].
  exists cur, past. split; [exact E1|]. split; [exact S1|]. split; [exact Hkv|exact Hinc].
Defined.

Lemma shard_get_witness :
  ∃ cur past cur', hist moved !! 101 = Some (cur :: past) ∧
    applyOperation get3 cur = Some (cur', mkResponse OK "xy").
Proof.
  destruct (newest_with moved 101 can_serve_8) as (cur & past & E1 & S1); [by vm_compute|].
  apply bool_decide_eq_true in S1.
  assert (get_response (rq_Key get3) (replay_writes (writes moved (key2shard (rq_Key get3)))) =
          mkResponse OK "xy") as E by by vm_compute.
  destruct (shard_get history moved 101 cur past get3) as (cur' & H & _);
    [exact moved_reachable|exact E1|done|exact S1|].
  exists cur, past, cur'. split; [exact E1|]. rewrite H, E. done.
Defined.

(** A deletion that group 101 asks group 100 for. *)
Lemma groups_never_panic_witness :
  ∃ cur past command, hist moving !! 100 = Some (cur :: past) ∧
    act history moving 100 101 cur Collect = Some command ∧ is_Some (applyCommand command cur).
Proof.
  destruct (newest_with moving 100 (λ cur,
    match act history moving 100 101 cur Collect with Some _ => true | None => false end))
    as (cur & past & E1 & S2); [by vm_compute|].
  destruct (act history moving 100 101 cur Collect) as [command|] eqn:Ea; [|discriminate S2].
  exists cur, past, command. split; [exact E1|]. split; [exact Ea|].
  apply (groups_never_panic history moving 100 cur past); [exact moving_reachable|exact E1|].
  apply (act_justified history moving 100 101 cur past Collect); [exact E1|exact Ea].
Defined.

(** Group 101 takes configuration 3 when it has finished with configuration 2. *)
Lemma config_waits_witness :
  ∃ cur past command cur' resp, hist moved !! 101 = Some (cur :: past) ∧
    act history moved 101 100 cur Configure = Some command ∧
    applyCommand command cur = Some (cur', resp) ∧
    Num (currentConfig cur) = 2 ∧ Num (currentConfig cur') = 3 ∧
    ((currentConfig cur' = currentConfig cur ∧ lastConfig cur' = lastConfig cur) ∨
     (∃ k, currentConfig cur = history k ∧ currentConfig cur' = history (S k) ∧
       lastConfig cur' = history k ∧
       ∀ s sh, stateMachines cur !! s = Some sh → Status sh = Serving)).
Proof.
  destruct (newest_with moved 101 (λ cur, (Num (currentConfig cur) =? 2) &&
    match act history moved 101 100 cur Configure with
    | Some command =>
        match applyCommand command cur with
        | Some (cur', _) => Num (currentConfig cur') =? 3
        | None => false
        end
    | None => false
    end)) as (cur & past & E1 & [S1 S2]%andb_true_iff); [by vm_compute|].
  apply Z.eqb_eq in S1.
  destruct (act history moved 101 100 cur Configure) as [command|] eqn:Ea; [|discriminate S2].
  destruct (applyCommand command cur) as [[cur' resp]|] eqn:Hc; [|discriminate S2].
  exists cur, past, command, cur', resp.
  split; [exact E1|]. split; [exact Ea|]. split; [exact Hc|]. split; [exact S1|].
  split; [by apply Z.eqb_eq|].
  apply (config_waits history moved 101 cur past command cur' resp);
    [exact moved_reachable|exact E1| |exact Hc].
  apply (act_justified history moved 101 100 cur past Configure); [exact E1|exact Ea].
Defined.
