(* ===== verification/CtrlerLinear.v ===== *)
(** * The replicated shard controller is linearizable

    What Service.v shows of every service that keeps its contract, for the
    shard controller of CtrlerService.v: its histories are linearizable, there
    is one history of configurations, and it is such as the replica groups of
    ShardGroups.v rely on.  Then a run. *)
From stdpp Require Import base tactics strings numbers relations sets gmap list.
From S2P Require Import Prelude.
From S2P Require Import Labgob.
From S2P Require Import Persister.
From S2P Require Import Raft.
From S2P Require Import RaftApply.
From S2P Require Import RaftCluster.
From S2P Require Import Commands.
From S2P Require Import Clerks.
From S2P Require Import Service.
From S2P Require Import ShardCtrler.
From S2P Require Import ShardBalance.
From S2P Require Import ShardCtrlerFacts.
From S2P Require Import ShardCtrlerClerk.
From S2P Require Import CtrlerService.
From S2P Require Import ShardKV.
From S2P Require Import ShardGroups.
Import ShardCtrler.
Open Scope Z_scope.
Open Scope go_scope.

Definition CtrlerSystem : Type := System (W:=Host) (Reply:=Reply) (SV:=unit) (Ck:=Clerk) (Call:=Call)
  (Op:=Op) (Ans:=option Config).

(** The service with these servers and clerks: its steps and its start. *)
Definition ctrler_sys_step (N : Z) : CtrlerSystem → CtrlerSystem → Prop := sy_step N allowed.
Definition ctrler_sys_init (N nservers : Z) (ids : gset Z) : CtrlerSystem := sy_init N (MakeClerk nservers) ids.

Implicit Types (s : CtrlerSystem) (L : list Op) (sc : ShardCtrler) (cs : list Config).

(** ** Histories of configurations *)

(** The configurations that a log makes; a command that panics makes none. *)
Definition configs_of L : list Config := (replayed L).2.

Definition in_sequence cs : Prop := ∀ k c, cs !! k = Some c → Num c = Z.of_nat k.

(** A controller keeps what each operation of its log keeps. *)
Lemma run_ops_keeps (P : list Config → Prop) L sc sc' :
  run_ops L sc = Some sc' →
  (∀ op sc1 sc2 res, op ∈ L → applyOp op sc1 = Some (sc2, res) → P (configs sc1) → P (configs sc2)) →
  P (configs sc) → P (configs sc').
Proof.
  revert sc. induction L as [|op L IH]; intros sc; cbn; [by intros [= <-]|].
  destruct (applyOp op sc) as [[sc1 res]|] eqn:E; [|done]. intros Hr Hk HP. eapply (IH _ Hr).
  - intros op' sc2 sc3 res' Hop'. apply Hk. by apply list_elem_of_further.
  - eapply Hk; [apply list_elem_of_here|done..].
Qed.

Lemma ctrler_step_grows op cs : cs `prefix_of` (ctrler_step op cs).1.
Proof.
  unfold ctrler_step. destruct (is_change op); [|done]. cbn. destruct (prev ← latest cs; changed op prev); [|done].
  by apply prefix_app_r.
Qed.

Lemma configs_of_grow L L' : L `prefix_of` L' → configs_of L `prefix_of` configs_of L'.
Proof.
  intros [l ->]. induction l as [|op l IH] using rev_ind; [by rewrite app_nil_r|].
  rewrite app_assoc. unfold configs_of in *. rewrite replayed_snoc. etrans; [exact IH|].
  unfold replay_step. destruct (_ && _); [done|apply ctrler_step_grows].
Qed.

Lemma configs_of_first L : configs_of L !! 0%nat = Some DefaultConfig.
Proof. by eapply prefix_lookup_Some; [|apply (configs_of_grow [] L), prefix_nil]. Qed.

Lemma ctrler_step_sequence op cs : cs ≠ [] → in_sequence cs → in_sequence (ctrler_step op cs).1.
Proof.
  intros Hne Hcs. unfold ctrler_step. destruct (is_change op); [|done]. cbn.
  destruct (latest_Some cs Hne) as (prev & -> & Hlast). cbn. destruct (changed op prev) as [next|] eqn:E; [|done].
  assert (Num next = Num prev + 1) as HN.
  { unfold changed in E. repeat case_decide; simplify_eq; [apply join_Num|apply leave_Num|by eapply move_Num]. }
  intros k c [Hk|[Hk Hc]]%lookup_app_Some; [by apply Hcs|]. apply list_lookup_singleton_Some in Hc as [Hk' <-].
  rewrite HN, (Hcs _ _ Hlast). destruct cs; [done|]. cbn in *. lia.
Qed.

Lemma configs_of_sequence L : in_sequence (configs_of L).
Proof.
  induction L as [|op L IH] using rev_ind.
  - intros k c Hk. by apply list_lookup_singleton_Some in Hk as [-> <-].
  - assert (configs_of L ≠ []) as Hne.
    { intros E. pose proof (configs_of_first L) as H0. by rewrite E in H0. }
    unfold configs_of in *. rewrite replayed_snoc. unfold replay_step.
    destruct (_ && _); [done|]. by apply ctrler_step_sequence.
Qed.

(** What a query returns: the configuration of its number, or the latest there
    is when the number is [-1] or not there yet. *)
Lemma query_in n cs cfg :
  in_sequence cs → query n cs = Some cfg →
  cs !! Z.to_nat (Num cfg) = Some cfg ∧ 0 ≤ Num cfg ∧ (n ≠ -1 → Num cfg ≤ n).
Proof.
  intros Hn Hq. assert (∀ i, idx cs i = Some cfg → Num cfg = i) as Hi.
  { intros i [? Hc]%idx_Some. rewrite (Hn _ _ Hc). lia. }
  assert (∀ i, idx cs i = Some cfg → cs !! Z.to_nat (Num cfg) = Some cfg ∧ 0 ≤ Num cfg) as Hin.
  { intros i Hc. rewrite (Hi _ Hc). apply idx_Some in Hc as [??]. done. }
  unfold query, latest in Hq. case_if_in Hq; (split; [by eapply Hin|split; [by eapply Hin|]]); apply Hi in Hq; zbool; lia.
Qed.

(** ** Groups that stay

    When every [Join] brings a group that no [Leave] names, the configurations
    keep a group from the first [Join] on. *)
Section stay.
Context (stays : Z → Prop).

Definition settled (cfg : Config) : Prop := ∃ g, stays g ∧ g ∈ dom (Groups cfg).
Definition settling cs : Prop :=
  cs ≠ [] ∧ ∀ k cfg, cs !! k = Some cfg → (Groups cfg ≠ ∅ → settled cfg) ∧
    ∀ next, cs !! S k = Some next → settled cfg → settled next.
Definition settling_op op : Prop :=
  match Type_ op with
  | "Join" => ∃ g, stays g ∧ g ∈ dom (JoinServers op)
  | "Leave" => ∀ g, stays g → g ∉ LeaveGIDs op
  | "Move" => False
  | _ => True
  end.

Lemma join_groups servers prev : Groups (joinConfig servers prev) = servers ∪ Groups prev.
Proof.
  rewrite joinConfig_eq. cbn. rewrite copyGroups_id, addGroups_union. case_if; [done|]. by destruct (joinDonors _ _ _ _).
Qed.

Lemma leave_groups gids prev g : g ∈ dom (Groups (leaveConfig gids prev)) ↔ g ∈ dom (Groups prev) ∧ g ∉ gids.
Proof.
  rewrite <- delete_list_dom. rewrite leaveConfig_eq. cbn. rewrite copyGroups_id. case_if; [done|].
  by destruct (leaveDonors _ _ _).
Qed.

Lemma settling_change op prev next :
  settling_op op → (Groups prev ≠ ∅ → settled prev) →
  (Type_ op = "Join" ∧ next = joinConfig (JoinServers op) prev) ∨
    (Type_ op = "Leave" ∧ next = leaveConfig (LeaveGIDs op) prev) ∨
    (Type_ op = "Move" ∧ moveConfig (MoveShard op) (MoveGID op) prev = Some next) →
  (Groups next ≠ ∅ → settled next) ∧ (settled prev → settled next).
Proof.
  unfold settling_op, settled. intros Hop Hprev [[E ->]|[[E ->]|[E _]]]; rewrite E in Hop; [..|done].
  - destruct Hop as (g & ? & ?). rewrite join_groups, dom_union_L. set_solver.
  - assert (settled prev → settled (leaveConfig (LeaveGIDs op) prev)) as H.
    { intros (g & ? & ?). exists g. rewrite leave_groups. auto. }
    split; [|done]. intros Hne. apply H, Hprev. intros E'.
    destruct (set_choose_L (dom (Groups (leaveConfig (LeaveGIDs op) prev)))) as [g [Hg _]%leave_groups]; [by rewrite dom_empty_iff_L|].
    rewrite E', dom_empty_L in Hg. set_solver.
Qed.

Lemma settling_apply op sc sc' res :
  settling_op op → applyOp op sc = Some (sc', res) → settling (configs sc) → settling (configs sc').
Proof.
  intros Hop Ha [Hne Hs]. destruct (applyOp_configs _ _ _ _ Ha) as [->|(prev & next & Hp & -> & _ & Hnext)]; [done|].
  destruct (latest_Some _ Hne) as (prev' & Hl & Hlast). simplify_eq.
  destruct (settling_change op prev next Hop (proj1 (Hs _ _ Hlast)) Hnext) as [H1 H2].
  split; [by destruct (configs sc)|]. intros k cfg [Hk|[Hk E]]%lookup_app_Some.
  - destruct (Hs _ _ Hk) as [? Hk2]. split; [done|]. intros next' [Hn|[Hn E]]%lookup_app_Some; [auto|].
    apply list_lookup_singleton_Some in E as [E <-]. pose proof (lookup_lt_Some _ _ _ Hk) as Hlt.
    replace k with (length (configs sc) - 1)%nat in Hk by lia. simplify_eq. exact H2.
  - apply list_lookup_singleton_Some in E as [E <-]. split; [done|]. intros next' Hn%lookup_lt_Some.
    rewrite length_app in Hn. cbn in Hn. lia.
Qed.

Lemma settling_log L sc : Forall settling_op L → run_ops L blank = Some sc → settling (configs sc).
Proof.
  intros HL Hr. eapply (run_ops_keeps settling); [exact Hr| |].
  - intros op sc1 sc2 res Hop. apply settling_apply. by eapply Forall_forall.
  - split; [done|]. intros k cfg Hk. apply list_lookup_singleton_Some in Hk as [-> <-]. split; [|done].
    intros []. reflexivity.
Qed.
End stay.

(** A finite history, and after its end the last configuration for ever. *)
Definition history_at cs (k : nat) : Config :=
  match cs !! k with Some cfg => cfg | None => (default DefaultConfig (last cs)) <| Num := Z.of_nat k |> end.

Lemma history_at_cases (P : Config → Prop) cs k :
  cs ≠ [] → (∀ j cfg, cs !! j = Some cfg → P cfg) → (∀ cfg n, P cfg → P (cfg <| Num := n |>)) → P (history_at cs k).
Proof.
  intros Hne Hcs HP. unfold history_at. destruct (cs !! k) as [cfg|] eqn:E; [by eapply Hcs|]. apply HP.
  destruct (last cs) as [cfg|] eqn:El; [|by apply last_None in El]. rewrite last_lookup in El. by eapply Hcs.
Qed.

Lemma fair_owner cfg i : fair cfg → owner cfg i ≠ 0 → Groups cfg ≠ ∅ ∧ 0 ≤ i < NShards.
Proof.
  intros ((Hlen & Hc) & _ & _) Ho. unfold owner in *.
  assert (0 ≤ i < NShards) as Hi.
  { destruct (decide (0 ≤ i < len (Shards cfg))) as [?|Hno]; [lia|]. destruct Ho. unfold rd. by rewrite idx_None. }
  split; [|done]. intros E. specialize (Hc i Hi). rewrite decide_True in Hc by done. done.
Qed.

Lemma settled_owner (stays : Z → Prop) cfg i : fair cfg → settled stays cfg → 0 ≤ i < NShards → owner cfg i ≠ 0.
Proof.
  intros ((_ & Hc) & _ & H0) (g & _ & Hg) Hi E. specialize (Hc i Hi). unfold owner in E. rewrite E in Hc.
  case_decide as Hd; [|done]. rewrite Hd, dom_empty_L in Hg. set_solver.
Qed.

(** A fair and settling history is what the replica groups rely on. *)
Lemma settling_history (stays : Z → Prop) cs :
  cs !! 0%nat = Some DefaultConfig → in_sequence cs → (∀ k cfg, cs !! k = Some cfg → fair cfg) → settling stays cs →
  ConfigHistory (history_at cs).
Proof.
  intros H0 Hn Hf [Hne Hs]. split.
  - unfold history_at. by rewrite H0.
  - intros k. unfold history_at. destruct (cs !! k) eqn:E; [by apply Hn|done].
  - intros k i. unfold history_at. destruct (cs !! k) as [cfg|] eqn:E.
    + intros Ho. destruct (fair_owner _ _ (Hf _ _ E) Ho) as [Hg Hi]. destruct (Hs _ _ E) as [Hset Hnext].
      destruct (cs !! S k) as [next|] eqn:E'; [eapply settled_owner; eauto|].
      assert (last cs = Some cfg) as ->; [|done]. apply lookup_lt_Some in E as Hlt. apply lookup_ge_None in E'.
      rewrite last_lookup. by replace (pred (length cs)) with k by lia.
    + apply lookup_ge_None in E. assert (cs !! S k = None) as -> by (apply lookup_ge_None; lia). done.
Qed.

(** ** What holds in every run *)
Section runs.
Context (N : Z) (HN : 0 ≤ N).

Lemma ctrler_system_inv nservers ids s :
  rtc (ctrler_sys_step N) (ctrler_sys_init N nservers ids) s → ∃ L, sys_inv N L s.
Proof. by apply sy_reachable_inv. Qed.

(** The configuration that a query for [n] has returned. *)
Definition returned s (n : Z) (cfg : Config) : Prop :=
  ∃ args t v t', mkDone (CQuery args) t v t' ∈ done s ∧ qa_Num args = n ∧ v = Some cfg.

Lemma returned_in L s n cfg :
  sys_inv N L s → returned s n cfg →
  configs_of L !! Z.to_nat (Num cfg) = Some cfg ∧ 0 ≤ Num cfg ∧ (n ≠ -1 → Num cfg ≤ n).
Proof.
  intros Hinv (args & t & v & t' & Hd & <- & ->).
  destruct (sys_done _ _ _ _ Hinv Hd) as (_ & k & Hk & Hv). cbn in Hk, Hv.
  assert (configs_of (take k L) `prefix_of` configs_of L) as Hpre by apply configs_of_grow, prefix_take.
  destruct (query_in (qa_Num args) (configs_of (take k L)) cfg) as (Hc & ?); [apply configs_of_sequence|done|].
  split; [by eapply prefix_lookup_Some|done].
Qed.

(** One history [cs] that the replicas and the clerks have seen parts of; a
    replica panics at the message it gets next exactly when this is a poison
    request, which a clerk has sent then. *)
Record one_history s cs : Prop := {
  oh_first : cs !! 0%nat = Some DefaultConfig;
  oh_sequence : in_sequence cs;
  oh_replicas i rf w : nodes (sy_raft s) !! i = Some rf → sy_servers s !! i = Some w →
    configs (h_ctrler w) `prefix_of` cs ∧
    ∀ m ms (last : Z), sy_sending s !! i = Some (m :: ms, last) → ∃ op,
      Raft.Command m = AOp op ∧ sent_op (sy_clients s) op ∧
      (applier m (on_peer rf w) = None ↔ poison (on_peer rf w) op);
  oh_queries n cfg : returned s n cfg → cs !! Z.to_nat (Num cfg) = Some cfg ∧ 0 ≤ Num cfg ∧ (n ≠ -1 → Num cfg ≤ n)
}.

(** A replica that has applied a prefix of the log. *)
Lemma host_prefix L l w :
  in_order L → l `prefix_of` L → host_ok w l → numbered (h_ctrler w) ∧ configs (h_ctrler w) `prefix_of` configs_of L.
Proof.
  intros Ho Hl [(sc & Hrun & [= Ec _]) _ _]. pose proof (configs_of_grow _ _ Hl) as Hgrow. destruct Hl as [l' ->].
  pose proof (in_order_take _ (length l) Ho) as Ho'. rewrite take_app_length in Ho'.
  destruct (run_ops_spec l sc Ho' Hrun) as [Hn E]. unfold numbered in *. rewrite Ec. split; [done|]. by rewrite E.
Qed.

Lemma applier_panics m op sc :
  CommandValid m = true → Raft.Command m = AOp op → numbered sc → applier m sc = None ↔ poison sc op.
Proof.
  intros Hv Hop Hn. rewrite <- applyOp_panics by done. unfold applier. rewrite Hv, Hop.
  destruct (applyOp op sc) as [[sc1 res]|]; [|done]. by destruct (getNotifyChUnlocked _ sc1).
Qed.

Lemma sys_one_history L s : sys_inv N L s → one_history s (configs_of L).
Proof.
  intros Hinv. destruct (sys_log _ _ _ Hinv) as (Hsent & _ & Ho). split.
  - apply configs_of_first.
  - apply configs_of_sequence.
  - intros i rf w Hi Hw. destruct (sys_server _ _ _ _ _ _ _ Hinv Hi Hw eq_refl) as (l & Hl & Hok & _).
    split; [by eapply host_prefix|]. intros m ms last Hs.
    destruct (sys_server _ _ _ _ _ _ _ Hinv Hi Hw Hs) as (l1 & Hl1 & Hok1 & op & Hv & Hop & _ & HL).
    destruct (host_prefix _ _ _ Ho Hl1 Hok1) as [Hn _]. exists op.
    split_and!; [done|by eapply Forall_lookup_1|by apply applier_panics].
  - intros n cfg. by apply returned_in.
Qed.

(** C4. The shard controller is linearizable.  Whatever the network loses,
    delays, repeats or reorders, however the peers elect leaders and crash and
    restart, at every moment the [Join]s, [Leave]s, [Move]s and [Query]s that
    have returned, with some of those that clerks still wait for, can be put in
    one order that respects real time and in which every query has returned
    what the list of configurations held there.  Clerks may ask for anything,
    also for what makes the replicas panic. *)
Theorem ctrler_linearizable nservers ids s :
  rtc (ctrler_sys_step N) (ctrler_sys_init N nservers ids) s →
  ∃ more, more `sublist_of` waiting (sy_clients s) ∧ linearizes call_op (done s ++ (later (now s) <$> more)).
Proof. intros (L & Hinv)%ctrler_system_inv. exact (sys_linearizable N L s Hinv). Qed.

(** C5. There is one history of configurations.  At every moment of a run the
    configurations of all replicas are beginnings of one list, numbered from 0
    on, and every query has returned the entry of its number or, when there
    was none yet, the latest there was; a replica panics at its next message
    exactly when a clerk has sent it a poison request ([poison]); and from then
    on the list only grows. *)
Theorem ctrler_one_history nservers ids s s' :
  rtc (ctrler_sys_step N) (ctrler_sys_init N nservers ids) s → rtc (ctrler_sys_step N) s s' →
  ∃ cs cs', cs `prefix_of` cs' ∧ one_history s cs ∧ one_history s' cs'.
Proof.
  intros (L & Hinv)%ctrler_system_inv Hs. destruct (sy_steps_inv N HN _ _ _ Hs Hinv) as (L' & HL & Hinv').
  exists (configs_of L), (configs_of L'). split_and!; [by apply configs_of_grow|by apply sys_one_history..].
Qed.

(** The clerks have called no [Move], joined no group 0 and asked for no number
    below -1; every group list joined has a group that no [Leave] names. *)
Definition rebalancing s : Prop := ∀ c t, (c, t) ∈ cs_sent (sy_clients s) → rebalancing_op (call_op c).
Definition stays_in s (g : Z) : Prop := ∀ args t, (CLeave args, t) ∈ cs_sent (sy_clients s) → g ∉ la_GIDs args.
Definition never_empty s : Prop :=
  ∀ args t, (CJoin args, t) ∈ cs_sent (sy_clients s) → ∃ g, stays_in s g ∧ g ∈ dom (ja_Servers args).

Lemma sent_settling s op : rebalancing s → never_empty s → sent_op (sy_clients s) op → settling_op (stays_in s) op.
Proof.
  intros Hr Hn (c & t & Hc & ->). specialize (Hr _ _ Hc). destruct c as [args|args|args|args]; cbn.
  - by eapply Hn.
  - intros g Hg. by eapply Hg.
  - by destruct Hr as [[? _]|[?|[? _]]].
  - done.
Qed.

(** C6. The controller keeps what the replica groups rely on.  In a run in
    which no clerk moves a shard, the queries return the configurations of one
    history in which every configuration is fair: each shard has one of the
    groups, no group more than one shard more than another; and as long as
    every [Join] brings some group that no [Leave] takes away, it is a history
    for which the groups of ShardGroups.v are proved correct. *)
Theorem ctrler_serves_groups nservers ids s :
  rtc (ctrler_sys_step N) (ctrler_sys_init N nservers ids) s → rebalancing s →
  ∃ cfg : nat → Config, (∀ n c, returned s n c → c = cfg (Z.to_nat (Num c))) ∧ (∀ k, fair (cfg k)) ∧
    (never_empty s → ConfigHistory cfg).
Proof.
  intros (L & Hinv)%ctrler_system_inv Hr. destruct (sys_log _ _ _ Hinv) as (Hsent & _ & Ho).
  assert (Forall rebalancing_op L) as HL by (eapply Forall_impl; [exact Hsent|]; intros op (c & t & ? & ->); by eapply Hr).
  destruct (run_ops_fair L blank (start_numbered _ _ _) (start_fair _ _ _) HL) as (sc & Hrun & Hfair).
  destruct (run_ops_spec L sc Ho Hrun) as [Hn E]. fold (configs_of L) in E.
  exists (history_at (configs_of L)). rewrite <- E. split_and!.
  - intros n c Hret%(returned_in _ _ _ _ Hinv). rewrite <- E in Hret. destruct Hret as [Hc _].
    unfold history_at. by rewrite Hc.
  - intros k. apply history_at_cases; [apply Hn|apply Hfair|done].
  - intros Hne. apply (settling_history (stays_in s)); [rewrite E; apply configs_of_first|exact (proj2 Hn)|apply Hfair|].
    eapply settling_log; [|exact Hrun]. eapply Forall_impl; [exact Hsent|]. intros op. by apply sent_settling.
Qed.
End runs.

(** ** A run

    Peer 0 of three is elected with the vote of peer 1; a clerk joins group 100
    and then asks for the latest configuration. *)
Definition join_call : Call := method_call (MJoin {[100 := ["a"]]}) (MakeClerk 3 77).
Definition query_call : Call := method_call (MQuery (-1)) (mkClerk 3 77 1 0).
Definition joined : Config := joinConfig {[100 := ["a"]]} DefaultConfig.
Definition joined_reply : Reply := RChange (mkChangeReply false OK).
Definition query_reply : Reply := RQuery (mkQueryReply false OK joined).

Lemma host_serve_by rf w w1 w' : mkHost (on_peer rf w) (h_handlers w) = w1 → host_step w1 w' → sv_serve rf w w'.
Proof. by intros <-. Qed.

Tactic Notation "peers_step" uconstr(rule) :=
  run (eapply sy_peers; [eapply rule; [by_computing..]|by_computing]).
Tactic Notation "serve_step" uconstr(rule) :=
  run (eapply (sy_serve _ _ _ 0); [by_computing|by_computing|
    eapply host_serve_by; [by_computing|eapply rule; [by_computing..]]]).
Tactic Notation "call_step" uconstr(c) uconstr(t) :=
  run (eapply (sy_call _ _ _ 0 c t); [by_computing|by_computing|by_computing
    |do 2 eexists; split; [by_computing..]|apply cl_start; [by_computing..]]).
Tactic Notation "apply_step" :=
  run (eapply (sy_apply _ _ _ 0); [by_computing|by_computing|by_computing
    |eexists; split; [by_computing..]]).

Lemma join_run :
  ∃ s, rtc (ctrler_sys_step 3) (ctrler_sys_init 3 3 {[77]}) s ∧
    done s = [mkDone query_call 3 (Some joined) 4; mkDone join_call 1 None 2] ∧
    bool_decide (is_Some (nodes (sy_raft s) !! 0)) = true ∧
    match sy_servers s !! 0 with Some w => configs (h_ctrler w) = [DefaultConfig; joined] | None => False end ∧
    (cs_sent (sy_clients s)).*1 = [query_call; join_call].
Proof.
  eexists. split; [unfold ctrler_sys_step|].
  - run (eapply (sy_invoke _ _ _ 77 _ (MJoin {[100 := ["a"]]}) 1); [by_computing|by_computing|exact I]).
    peers_step (cl_tick 3 _ 0).
    peers_step (cl_election 3 _ 0).
    peers_step (cl_vote_call 3 _ 1).
    peers_step (cl_vote_handle 3 _ 1).
    peers_step (cl_vote_reply 3 _ 1).
    peers_step (cl_vote_count 3 _ 1).
    call_step join_call 1.
    serve_step (h_channel 0).
    peers_step (cl_broadcast 3 _ 1).
    peers_step (cl_replicate 3 _ 4).
    peers_step (cl_app_handle 3 _ 4).
    peers_step (cl_app_reply 3 _ 4).
    apply_step.
    serve_step (h_receive 0).
    run (eapply (sy_reply _ _ _ 0 _ _ join_call joined_reply); [by_computing..]).
    run (eapply (sy_return _ _ _ 77 _ join_call 1 joined_reply None 2); [by_computing..]).
    run (eapply (sy_resume _ _ _ 0 1); [by_computing|eapply cl_service; [by_computing|by_computing|vm_compute; discriminate|exact I]]).
    run (eapply (sy_invoke _ _ _ 77 _ (MQuery (-1)) 3); [by_computing|by_computing|exact I]).
    call_step query_call 3.
    serve_step (h_channel 1).
    peers_step (cl_broadcast 3 _ 6).
    peers_step (cl_replicate 3 _ 7).
    peers_step (cl_app_handle 3 _ 7).
    peers_step (cl_app_reply 3 _ 7).
    apply_step.
    serve_step (h_receive 1).
    run (eapply (sy_reply _ _ _ 0 _ _ query_call query_reply); [by_computing|by_computing|vm_compute; apply list_elem_of_further, list_elem_of_here]).
    run (eapply (sy_return _ _ _ 77 _ query_call 3 query_reply (Some joined) 4); [by_computing..]).
    apply rtc_refl.
  - split_and!; vm_compute; reflexivity.
Qed.

Lemma three_controllers : 0 ≤ 3.
Proof. done. Qed.

Lemma run_sent s c t : (cs_sent (sy_clients s)).*1 = [query_call; join_call] →
  (c, t) ∈ cs_sent (sy_clients s) → c = query_call ∨ c = join_call.
Proof.
  intros E Hc%(list_elem_of_fmap_2 fst). rewrite E in Hc. set_solver.
Qed.

Lemma run_rebalancing s : (cs_sent (sy_clients s)).*1 = [query_call; join_call] → rebalancing s ∧ never_empty s.
Proof.
  intros E. split.
  - intros c t Hc. destruct (run_sent _ _ _ E Hc) as [->| ->].
    + right; right. by split.
    + left. split; [done|]. cbn. rewrite dom_singleton_L. by intros ?%elem_of_singleton.
  - intros args t Hc. destruct (run_sent _ _ _ E Hc) as [?|[= ->]]; [done|]. exists 100. split.
    + intros args' t' Hl. by destruct (run_sent _ _ _ E Hl).
    + cbn. rewrite dom_singleton_L. by apply elem_of_singleton.
Qed.

Lemma ctrler_linearizable_witness :
  ∃ s, done s = [mkDone query_call 3 (Some joined) 4; mkDone join_call 1 None 2] ∧
    ∃ more, more `sublist_of` waiting (sy_clients s) ∧ linearizes call_op (done s ++ (later (now s) <$> more)).
Proof.
  destruct join_run as (s & Hs & Hd & _). exists s. split; [exact Hd|].
  exact (ctrler_linearizable 3 three_controllers 3 {[77]} s Hs).
Defined.

Lemma ctrler_one_history_witness :
  ∃ (s : CtrlerSystem) w cs, sy_servers s !! 0 = Some w ∧ configs (h_ctrler w) = [DefaultConfig; joined] ∧
    [DefaultConfig; joined] `prefix_of` cs ∧ one_history s cs.
Proof.
  destruct join_run as (s & Hs & _ & Hrf & Hcs & _). destruct (sy_servers s !! 0) as [w|] eqn:Hw; [|destruct Hcs].
  destruct (nodes (sy_raft s) !! 0) as [rf|] eqn:Hi; [|discriminate].
  destruct (ctrler_one_history 3 three_controllers 3 {[77]} s s Hs (rtc_refl _ _)) as (cs & cs' & _ & _ & H).
  exists s, w, cs'. split; [exact Hw|]. split; [exact Hcs|]. split; [|exact H].
  rewrite <- Hcs. exact (proj1 (oh_replicas _ _ H 0 rf w Hi Hw)).
Defined.

Lemma ctrler_serves_groups_witness :
  ∃ cfg : nat → Config, cfg 1%nat = joined ∧ fair joined ∧ ConfigHistory cfg.
Proof.
  destruct join_run as (s & Hs & Hd & _ & _ & Hsent). destruct (run_rebalancing s Hsent) as [Hr Hn].
  destruct (ctrler_serves_groups 3 three_controllers 3 {[77]} s Hs Hr) as (cfg & Hret & Hf & Hh). exists cfg.
  assert (joined = cfg 1%nat) as E.
  { apply (Hret (-1)). exists (mkQueryArgs (-1) 77 2), 3, (Some joined), 4. split; [|by split].
    rewrite Hd. apply list_elem_of_here. }
  split; [by rewrite E|]. split; [rewrite E; apply Hf|by apply Hh].
Defined.
