(* ===== verification/ShardKVClerk.v ===== *)
(** * shardkv/client.go: the clerk of the sharded service

    [Command] asks the servers of the group its configuration gives for the
    key, then the controller for the newest configuration, until a server
    answers.  The network is a parameter, as in ClerkLoop.v; [fuel] counts the
    rounds, [qfuel] those of the controller's clerk. *)
From stdpp Require Import base tactics list gmap strings numbers.
From S2P Require Import Prelude.
From S2P Require Import ShardCtrler.
From S2P Require ShardCtrlerClerk.
From S2P Require Import ShardKV.
From S2P Require Import ShardKVFacts.
Open Scope Z_scope.
Open Scope go_scope.

Record Clerk := mkClerk {
  sm : ShardCtrlerClerk.Clerk; config : Config; clientId : Z; commandId : Z }.

#[export] Instance Clerk_eta : RecordEta Clerk :=
  λ ck, mkClerk (sm ck) (config ck) (clientId ck) (commandId ck).

Definition MakeClerk (nctrlers smRand nrand : Z) : Clerk :=
  mkClerk (ShardCtrlerClerk.MakeClerk nctrlers smRand) zeroConfig nrand 0.

(** How the loop over the servers of a group ends: with an answer, or after
    the last server or [ErrWrongGroup]; [k] counts the RPCs of the request. *)
Inductive Round := Answered (k : nat) (server : string) (response : CommandResponse) | NextRound (k : nat).

Section clerk.
Context (CallCommand : CommandRequest → nat → string → option CommandResponse).
Context (CallQuery : QueryArgs → nat → Z → option QueryReply).

Definition accepts (response : CommandResponse) : bool :=
  bool_decide (rs_Err response = OK) || bool_decide (rs_Err response = ErrNoKey).

Fixpoint try_group (request : CommandRequest) (servers : list string) (k : nat) : Round :=
  match servers with
  | [] => NextRound k
  | srv :: servers =>
      match CallCommand request k srv with
      | Some response =>
          if accepts response then Answered k srv response
          else if decide (rs_Err response = ErrWrongGroup) then NextRound (S k)
          else try_group request servers (S k)
      | None => try_group request servers (S k)
      end
  end.

(** One pass over the group of the key; a group the configuration does not
    list gets no RPC. *)
Definition ask_group (request : CommandRequest) (ck : Clerk) (k : nat) : Round :=
  let shard := key2shard (rq_Key request) in
  let gid := owner (config ck) shard in
  match Groups (config ck) !! gid with
  | Some servers => try_group request servers k
  | None => NextRound k
  end.

Fixpoint Command_loop (fuel qfuel : nat) (request : CommandRequest) (ck : Clerk) (k : nat)
    : option (Clerk * string) :=
  match fuel with
  | O => None
  | S fuel =>
      match ask_group request ck k with
      | Answered _ _ response => Some (ck <| commandId ::= Z.succ |>, rs_Value response)
      | NextRound k =>
          match ShardCtrlerClerk.Query CallQuery qfuel (-1) (sm ck) with
          | Some (sm', c) =>
              Command_loop fuel qfuel request (ck <| sm := sm' |> <| config := c |>) k
          | None => None
          end
      end
  end.

Definition Command (fuel qfuel : nat) (request : CommandRequest) (ck : Clerk)
    : option (Clerk * string) :=
  let request := mkRequest (rq_Key request) (rq_Value request) (rq_Op request)
                   (clientId ck) (commandId ck) in
  Command_loop fuel qfuel request ck 0.

Definition Get (fuel qfuel : nat) (key : string) (ck : Clerk) : option (Clerk * string) :=
  Command fuel qfuel (mkRequest key "" OpGet 0 0) ck.
Definition PutAppend (fuel qfuel : nat) (key value op : string) (ck : Clerk) : option Clerk :=
  fst <$> Command fuel qfuel (mkRequest key value op 0 0) ck.
Definition Put (fuel qfuel : nat) (key value : string) (ck : Clerk) : option Clerk :=
  PutAppend fuel qfuel key value OpPut ck.
Definition Append (fuel qfuel : nat) (key value : string) (ck : Clerk) : option Clerk :=
  PutAppend fuel qfuel key value OpAppend ck.

(** ** Facts *)

(** The configurations a clerk goes through: [n] rounds without an answer. *)
Inductive waits (qfuel : nat) (request : CommandRequest) : nat → Clerk → nat → Clerk → nat → Prop :=
| waits_0 ck k : waits qfuel request 0 ck k ck k
| waits_S n ck k k1 sm' c ck' k' :
    ask_group request ck k = NextRound k1 →
    ShardCtrlerClerk.Query CallQuery qfuel (-1) (sm ck) = Some (sm', c) →
    waits qfuel request n (ck <| sm := sm' |> <| config := c |>) k1 ck' k' →
    waits qfuel request (S n) ck k ck' k'.

Lemma waits_loop qfuel request n ck k ck' k' :
  waits qfuel request n ck k ck' k' →
  ∀ fuel, Command_loop (n + fuel) qfuel request ck k = Command_loop fuel qfuel request ck' k'.
Proof.
  induction 1 as [|n ck k k1 sm' c ck' k' Ha Hq _ IH]; intros fuel; [done|].
  cbn. by rewrite Ha, Hq, IH.
Qed.

Lemma waits_ids qfuel request n ck k ck' k' :
  waits qfuel request n ck k ck' k' → clientId ck' = clientId ck ∧ commandId ck' = commandId ck.
Proof. by induction 1. Qed.

Lemma loop_waits fuel qfuel request ck k r :
  Command_loop fuel qfuel request ck k = Some r →
  ∃ n ck' k' j srv response, (n < fuel)%nat ∧ waits qfuel request n ck k ck' k' ∧
    ask_group request ck' k' = Answered j srv response ∧
    r = (ck' <| commandId ::= Z.succ |>, rs_Value response).
Proof.
  revert ck k. induction fuel as [|fuel IH]; intros ck k; cbn; [done|].
  destruct (ask_group request ck k) as [j srv response|k1] eqn:Ha.
  - intros [= <-]. exists 0%nat, ck, k, j, srv, response.
    split_and!; [lia|constructor|done|done].
  - destruct (ShardCtrlerClerk.Query _ _ _ _) as [[sm' c]|] eqn:Hq; [|done].
    intros (n & ck' & k' & j & srv & resp & Hn & Hw & Hask & ->)%IH.
    exists (S n), ck', k', j, srv, resp. split_and!; [lia| |done|done].
    by eapply waits_S.
Qed.

Lemma try_group_answer request servers k j srv response :
  try_group request servers k = Answered j srv response →
  srv ∈ servers ∧ CallCommand request j srv = Some response ∧ accepts response = true.
Proof.
  revert k. induction servers as [|s servers IH]; intros k; cbn; [done|].
  destruct (CallCommand request k s) as [resp|] eqn:Hc.
  - destruct (accepts resp) eqn:Ha.
    + intros [= <- <- <-]. split_and!; [apply elem_of_cons; by left|done|done].
    + case_decide; [done|]. intros (? & ? & ?)%IH. split_and!; [apply elem_of_cons; by right|done|done].
  - intros (? & ? & ?)%IH. split_and!; [apply elem_of_cons; by right|done|done].
Qed.

(** [Command] returns exactly when some round over the group of the key, in
    the configuration the clerk holds then, gets an accepted answer: the value
    is that of a reply to a request with the clerk's own identity and the one
    number all tries share, from a server that configuration lists for the
    key; the number is used up, and as many units of fuel as rounds suffice. *)
Theorem skv_clerk_answered fuel qfuel request ck ck' v :
  let request' := mkRequest (rq_Key request) (rq_Value request) (rq_Op request)
                    (clientId ck) (commandId ck) in
  Command fuel qfuel request ck = Some (ck', v) ↔
  ∃ n ck1 k1 j srv response, (n < fuel)%nat ∧ waits qfuel request' n ck 0 ck1 k1 ∧
    ask_group request' ck1 k1 = Answered j srv response ∧
    (∃ servers, Groups (config ck1) !! owner (config ck1) (key2shard (rq_Key request)) = Some servers ∧
      srv ∈ servers ∧ CallCommand request' j srv = Some response ∧ accepts response = true) ∧
    config ck' = config ck1 ∧ sm ck' = sm ck1 ∧ clientId ck' = clientId ck ∧
    commandId ck' = commandId ck + 1 ∧ v = rs_Value response.
Proof.
  intros request'. unfold Command. fold request'. split.
  - intros (n & ck1 & k1 & j & srv & resp & Hn & Hw & Ha & [= -> ->])%loop_waits.
    destruct (waits_ids _ _ _ _ _ _ _ Hw) as [E1 E2].
    exists n, ck1, k1, j, srv, resp. cbn. split_and!; try done; [|lia].
    unfold ask_group in Ha. cbn in Ha. destruct (Groups _ !! _) as [servers|] eqn:Hg; [|done].
    exists servers. split; [done|]. by eapply try_group_answer.
  - intros (n & ck1 & k1 & j & srv & resp & Hn & Hw & Ha & _ & E1 & E2 & E3 & E4 & ->).
    replace fuel with (n + S (fuel - n - 1))%nat by lia. rewrite (waits_loop _ _ _ _ _ _ _ Hw).
    cbn. rewrite Ha. destruct (waits_ids _ _ _ _ _ _ _ Hw) as [F1 F2].
    f_equal. f_equal. destruct ck', ck1; cbn in *. unfold update_field. f_equal; cbn; first [congruence|lia].
Qed.

End clerk.

(** The group of the key has two servers; the first answer is lost, the second
    server accepts; the clerk starts without a configuration. *)
Definition served_config : Config := mkConfig 1 (replicate 10 100) {[100 := ["a"; "b"]]}.
Definition answer_b (request : CommandRequest) (k : nat) (srv : string) : option CommandResponse :=
  if decide (srv = "b") then Some (mkResponse OK "v") else None.
Definition answer_query (args : QueryArgs) (k : nat) (srv : Z) : option QueryReply :=
  Some (mkQueryReply false "" served_config).

Lemma skv_clerk_answered_witness :
  Command answer_b answer_query 2 1 (mkRequest "0" "" OpGet 0 0) (MakeClerk 1 5 7) =
    Some (mkClerk (ShardCtrlerClerk.mkClerk 1 5 1 0) served_config 7 1, "v") ∧
  ∃ n ck1 k1, (n < 2)%nat ∧
    waits answer_b answer_query 1 (mkRequest "0" "" OpGet 7 0) n (MakeClerk 1 5 7) 0 ck1 k1.
Proof.
  assert (Command answer_b answer_query 2 1 (mkRequest "0" "" OpGet 0 0) (MakeClerk 1 5 7) =
    Some (mkClerk (ShardCtrlerClerk.mkClerk 1 5 1 0) served_config 7 1, "v")) as H by by vm_compute.
  split; [exact H|].
  apply (proj1 (skv_clerk_answered answer_b answer_query 2 1 (mkRequest "0" "" OpGet 0 0)
    (MakeClerk 1 5 7) _ _)) in H as (n & ck1 & k1 & j & srv & resp & Hn & Hw & _).
  exists n, ck1, k1. split; [exact Hn|exact Hw].
Defined.
