(* ===== verification/MapReduce.v ===== *)
(** * mr/worker.go, mr/coordinator.go and main/mrsequential.go

    The tasks of MapReduce, the coordinator's queue of tasks and the tracing of
    each one, the work a worker does for a task, and the sequential program the
    distributed one has to agree with.  A file is its contents; the directory
    is a map from names to contents.  [encoding/json] and [sort.Sort] come as
    parameters, with the laws MapReduceFacts.v states. *)
From stdpp Require Import base tactics list gmap strings numbers pretty sorting.
From Stdlib Require Import Ascii.
From S2P Require Import Prelude.
Open Scope Z_scope.
Open Scope go_scope.

Definition MapPhase : string := "Map".
Definition ReducePhase : string := "Reduce".
Definition FinishedPhase : string := "Finished".

Record KeyValue := mkKV { Key : string; Value : string }.
Record Task := mkTask { TaskType : string; Id : Z }.

#[export] Instance KeyValue_eq_dec : EqDecision KeyValue.
Proof. solve_decision. Defined.
#[export] Instance Task_eq_dec : EqDecision Task.
Proof. solve_decision. Defined.

Record GetTaskReply := mkGetTaskReply {
  gt_Task : Task; gt_FileName : string; gt_NReduce : Z; gt_MMap : Z }.

(** ** The hash of a key

    [fnv.New32a]: the 32-bit FNV-1a hash of the bytes. *)
Definition byte_of (c : ascii) : Z := Z.of_nat (nat_of_ascii c).
Fixpoint fnv32a (h : Z) (key : string) : Z :=
  match key with
  | EmptyString => h
  | String c key => fnv32a ((Z.lxor h (byte_of c) * 16777619) `mod` 2 ^ 32) key
  end.
Definition ihash (key : string) : Z := Z.land (fnv32a 2166136261 key) (Z.ones 31).

(** ** Files *)

Definition newline : ascii := ascii_of_nat 10.

(** [bufio.ScanLines]: the pieces between newlines; an empty last piece is
    not a line. *)
Fixpoint split_lines (s : string) : list string :=
  match s with
  | EmptyString => []
  | String c s =>
      if decide (c = newline) then "" :: split_lines s
      else match split_lines s with
           | [] => [String c ""]
           | p :: ps => String c p :: ps
           end
  end.

(** A carriage return at the end of a line is dropped. *)
Fixpoint dropCR (s : string) : string :=
  match s with
  | EmptyString => ""
  | String c EmptyString => if decide (c = ascii_of_nat 13) then "" else s
  | String c s => String c (dropCR s)
  end.

(** [bufio.MaxScanTokenSize]: a line that does not fit in the buffer with its
    newline stops the scanner, with an error the source does not look at. *)
Definition MaxScanTokenSize : nat := Z.to_nat 65536.
Fixpoint scan_lines (lines : list string) : list string :=
  match lines with
  | [] => []
  | l :: lines =>
      if decide (String.length l < MaxScanTokenSize)%nat then dropCR l :: scan_lines lines else []
  end.
Definition Scanner (content : string) : list string := scan_lines (split_lines content).

(** The names of the intermediate and output files. *)
Definition interName (mapId reduceId : Z) : string := "mr-" +:+ pretty mapId +:+ "-" +:+ pretty reduceId.
Definition outName (reduceId : Z) : string := "mr-out-" +:+ pretty reduceId.

Section job.
Context (Marshal : KeyValue → string) (Unmarshal : string → option KeyValue).
Context (sort_ByKey : list KeyValue → list KeyValue).
Context (mapFunc : string → string → list KeyValue) (reduceFunc : string → list string → string).

(** ** Map tasks *)

(** The contents [createTempFiles] gives the temporary file of each reduce
    task: one line for each pair. *)
Definition tempFile (nReduce reduceID : Z) (kva : list KeyValue) : string :=
  foldl (λ f kv, if ihash (Key kv) `mod` nReduce =? reduceID
                 then f +:+ Marshal kv +:+ String newline "" else f) "" kva.

(** [None]: [ihash(kv.Key) % nReduce] with [nReduce = 0]. *)
Definition createTempFiles (nReduce : Z) (kva : list KeyValue) : option (list (Z * string)) :=
  if (nReduce =? 0) && negb (len kva =? 0) then None
  else Some ((λ i, (i, tempFile nReduce i kva)) <$> seqZ 0 nReduce).

(** [MapTask] up to [renameTempFiles]; [None] is [log.Fatalf] or the panic. *)
Definition MapTask_temp (input : string → option string) (nReduce : Z) (fileName : string)
    : option (list (Z * string)) :=
  match input fileName with
  | Some content => createTempFiles nReduce (mapFunc fileName content)
  | None => None
  end.

(** One [os.Rename] of [renameTempFiles]. *)
Definition renameTempFile (task : Task) (f : Z * string) (fs : gmap string string) : gmap string string :=
  <[interName (Id task) f.1 := f.2]> fs.

(** All of it, when the map of files is gone over in the order [files]. *)
Definition renameTempFiles (task : Task) (files : list (Z * string)) (fs : gmap string string) : gmap string string :=
  foldl (λ fs f, renameTempFile task f fs) fs files.

(** ** Reduce tasks *)

(** The lines one file gives [readTempFiles]; [None] is [log.Fatalf]. *)
Definition readTempFile (mapId : Z) (task : Task) (fs : gmap string string) : option (list KeyValue) :=
  match fs !! interName mapId (Id task) with
  | Some content => mapM Unmarshal (Scanner content)
  | None => None
  end.

(** The values of the keys that follow and equal [key], and the rest. *)
Fixpoint same_key (key : string) (temp : list KeyValue) : list string * list KeyValue :=
  match temp with
  | kv :: rest =>
      if decide (Key kv = key)
      then let '(values, rest) := same_key key rest in (Value kv :: values, rest)
      else ([], temp)
  | [] => ([], [])
  end.

Definition output_line (key : string) (values : list string) : string :=
  key +:+ " " +:+ reduceFunc key values +:+ String newline "".

(** The loop over the sorted pairs, the same in [ReduceTask] and in the
    sequential program; one unit of fuel for each key. *)
Fixpoint reduce_loop (fuel : nat) (temp : list KeyValue) : list string :=
  match fuel, temp with
  | S fuel, kv :: rest =>
      let '(values, rest) := same_key (Key kv) rest in
      output_line (Key kv) (Value kv :: values) :: reduce_loop fuel rest
  | _, _ => []
  end.

Definition reduce_lines (temp : list KeyValue) : list string :=
  let temp := sort_ByKey temp in reduce_loop (length temp) temp.

Definition join_lines (lines : list string) : string := foldl (λ f l, f +:+ l) "" lines.

(** [ReduceTask] once the files are read: the output renamed into place. *)
Definition ReduceTask_output (task : Task) (temp : list KeyValue) (fs : gmap string string)
    : gmap string string :=
  <[outName (Id task) := join_lines (reduce_lines temp)]> fs.

(** ** main/mrsequential.go *)

Fixpoint sequential_map (input : string → option string) (files : list string)
    : option (list KeyValue) :=
  match files with
  | [] => Some []
  | filename :: files =>
      match input filename, sequential_map input files with
      | Some content, Some kva => Some (mapFunc filename content ++ kva)
      | _, _ => None
      end
  end.

Definition sequential (input : string → option string) (files : list string) : option (list string) :=
  reduce_lines <$> sequential_map input files.

End job.

(** ** The coordinator

    The goroutines blocked on a channel are part of the state: the senders on
    [taskCh], the tracers ([true] between the receive and the increment) and
    the senders on the channels of [traceCh]. *)
Record Coordinator := mkCoordinator {
  mM : Z;
  nR : Z;
  phase : string;
  taskQuantity : Z;
  taskFinished : Z;
  taskSenders : list Task;
  tracers : list (Task * bool);
  finishSenders : list Task;
  traceCh : list Task;         (* the keys; each has its own channel *)
  files : gmap Z string
}.

#[export] Instance Coordinator_eta : RecordEta Coordinator := λ m,
  mkCoordinator (mM m) (nR m) (phase m) (taskQuantity m) (taskFinished m) (taskSenders m)
    (tracers m) (finishSenders m) (traceCh m) (files m).

(** One of the goroutines blocked on a channel is woken up. *)
Fixpoint take_one {A} `{EqDecision A} (x : A) (l : list A) : option (list A) :=
  match l with
  | [] => None
  | y :: l => if decide (x = y) then Some l else cons y <$> take_one x l
  end.

Definition tasks_of (phase : string) (n : Z) : list Task := mkTask phase <$> seqZ 0 n.

Definition execPhase (ph : string) (quantity : Z) (m : Coordinator) : Coordinator :=
  let m := m <| phase := ph |> <| taskQuantity := quantity |> <| taskFinished := 0 |> in
  let m := if quantity =? -1 then m <| taskSenders ::= λ l, l ++ [mkTask FinishedPhase (-1)] |> else m in
  m <| taskSenders ::= λ l, l ++ tasks_of ph quantity |>.

(** [getTask] up to the [select]: with the lock held. *)
Definition getTask_check (m : Coordinator) : Coordinator :=
  if taskFinished m =? taskQuantity m then
    if decide (phase m = MapPhase) then execPhase ReducePhase (nR m) m
    else execPhase FinishedPhase (-1) m
  else m.

(** [task := <-m.taskCh], and the tracer. *)
Definition getTask_receive (task : Task) (m : Coordinator) : option Coordinator :=
  match take_one task (taskSenders m) with
  | Some rest =>
      let m := m <| taskSenders := rest |> in
      Some (if decide (TaskType task = FinishedPhase) then m
            else m <| tracers ::= λ l, (task, false) :: l |>)
  | None => None
  end.

Definition GetTaskHandler_reply (task : Task) (m : Coordinator) : GetTaskReply :=
  mkGetTaskReply task
    (if decide (TaskType task = MapPhase) then map_get "" (files m) (Id task) else "") (nR m) (mM m).

(** A task without a channel blocks its goroutine for ever. *)
Definition FinishTaskHandler (task : Task) (m : Coordinator) : Coordinator :=
  if decide (task ∈ traceCh m) then m <| finishSenders ::= λ l, task :: l |> else m.

(** [traceTask]: [<-c] ... *)
Definition traceTask_receive (task : Task) (m : Coordinator) : option Coordinator :=
  match take_one (task, false) (tracers m), take_one task (finishSenders m) with
  | Some ts, Some fs => Some (m <| tracers := (task, true) :: ts |> <| finishSenders := fs |>)
  | _, _ => None
  end.
(** ... the increment, after which the tracer waits in [c <- true] ... *)
Definition traceTask_count (task : Task) (m : Coordinator) : option Coordinator :=
  match take_one (task, true) (tracers m) with
  | Some ts => Some (m <| tracers := ts |> <| taskFinished ::= Z.succ |>
                       <| finishSenders ::= λ l, task :: l |>)
  | None => None
  end.
(** ... or the time-out, after which it waits in [m.taskCh <- task]. *)
Definition traceTask_timeout (task : Task) (m : Coordinator) : option Coordinator :=
  match take_one (task, false) (tracers m) with
  | Some ts => Some (m <| tracers := ts |> <| taskSenders ::= λ l, l ++ [task] |>)
  | None => None
  end.

Definition getPhase (m : Coordinator) : string := phase m.
Definition Done (m : Coordinator) : bool := bool_decide (getPhase m = FinishedPhase).

Definition MakeCoordinator (names : list string) (nReduce : Z) : Coordinator :=
  let mM := len names in
  let m := mkCoordinator mM nReduce "" 0 0 [] [] []
             (tasks_of MapPhase mM ++ tasks_of ReducePhase nReduce)
             (list_to_map (zip (seqZ 0 mM) names)) in
  execPhase MapPhase mM m.

(** ** mrapps/nocrash.go *)
Module nocrash.

(** [maybeCrash] does not crash: its condition starts with [false]. *)
Definition Map (filename contents : string) : list KeyValue :=
  [mkKV "a" filename; mkKV "b" (pretty (Z.of_nat (String.length filename)));
   mkKV "c" (pretty (Z.of_nat (String.length contents))); mkKV "d" "xyzzy"].

Definition string_le (s t : string) : Prop := String.leb s t = true.
#[export] Instance string_le_dec s t : Decision (string_le s t).
Proof. unfold string_le. apply _. Defined.

(** [strings.Join] *)
Fixpoint Join (l : list string) (sep : string) : string :=
  match l with
  | [] => ""
  | [s] => s
  | s :: l => s +:+ sep +:+ Join l sep
  end.

Definition Reduce (key : string) (values : list string) : string :=
  Join (merge_sort string_le values) " ".
End nocrash.
