(* ===== verification/MapReduceFacts.v ===== *)
(** * MapReduce: splitting by key and putting together again

    What a reduce task reads back from the intermediate files, what the loop
    over sorted pairs writes, and that the outputs of all the reduce tasks are
    the lines of the sequential program. *)
From stdpp Require Import base tactics strings numbers pretty list gmap sorting.
From Stdlib Require Import Ascii.
From S2P Require Import Prelude.
From S2P Require Import MapReduce.
Open Scope Z_scope.
Open Scope go_scope.

Definition Less (a b : KeyValue) : Prop := String.compare (Key a) (Key b) = Lt.

(** What the source relies on: [sort.Sort] sorts, keeping the pairs; a pair
    survives [json] and is one line that the scanner can read. *)
Class JobLibrary (Marshal : KeyValue → string) (Unmarshal : string → option KeyValue)
    (sort_ByKey : list KeyValue → list KeyValue) (fits : KeyValue → Prop) : Prop := {
  sort_perm l : sort_ByKey l ≡ₚ l;
  sort_sorted l : StronglySorted (λ a b, ¬ Less b a) (sort_ByKey l);
  json_roundtrip kv : fits kv → Unmarshal (Marshal kv) = Some kv;
  json_one_line kv : fits kv → split_lines (Marshal kv +:+ String newline "") = [Marshal kv];
  json_no_cr kv : fits kv → dropCR (Marshal kv) = Marshal kv;
  json_fits kv : fits kv → (String.length (Marshal kv) < MaxScanTokenSize)%nat
}.

(** The values of a key, in order. *)
Definition values_of (key : string) (l : list KeyValue) : list string :=
  Value <$> filter (λ kv, Key kv = key) l.

(** The pairs of a reduce task. *)
Definition partition (nReduce r : Z) (l : list KeyValue) : list KeyValue :=
  filter (λ kv, ihash (Key kv) `mod` nReduce = r) l.

(** The order in which a reduce function gets the values is left open. *)
Definition order_free (reduceFunc : string → list string → string) : Prop :=
  ∀ key vs vs', vs ≡ₚ vs' → reduceFunc key vs = reduceFunc key vs'.

(** ** Strings and lines *)

Lemma app_cons_string c (s t : string) : String c s +:+ t = String c (s +:+ t).
Proof. done. Qed.

Lemma app_nil_l_string (s : string) : "" +:+ s = s.
Proof. done. Qed.

Lemma app_nil_r_string (s : string) : s +:+ "" = s.
Proof. induction s as [|c s IH]; [done|]. by rewrite app_cons_string, IH. Qed.

Lemma app_assoc_string (s t u : string) : (s +:+ t) +:+ u = s +:+ t +:+ u.
Proof. induction s as [|c s IH]; [done|]. by rewrite !app_cons_string, IH. Qed.

Lemma foldl_append {A} (g : A → string) l a :
  foldl (λ f x, f +:+ g x) a l = a +:+ foldr (λ x f, g x +:+ f) "" l.
Proof.
  revert a. induction l as [|x l IH]; intros a; cbn; [by rewrite app_nil_r_string|].
  by rewrite IH, app_assoc_string.
Qed.

Lemma split_lines_app s t u :
  split_lines (s +:+ String newline "") = [t] → split_lines (s +:+ String newline u) = t :: split_lines u.
Proof.
  assert (∀ s, split_lines (s +:+ String newline "") ≠ []) as Hne.
  { intros [|c s']; [done|]. rewrite app_cons_string. cbn. case_decide; [done|].
    by destruct (split_lines _). }
  revert t. induction s as [|c s IH]; intros t.
  - rewrite !app_nil_l_string. cbn. by intros [= <-].
  - rewrite !app_cons_string. cbn. case_decide; [by intros [= _ E%Hne]|].
    destruct (split_lines (s +:+ String newline "")) as [|p ps] eqn:E; [by apply Hne in E|].
    intros [= <- ->]. by rewrite (IH p).
Qed.

Section lines.
Context `{JobLibrary Marshal Unmarshal sort_ByKey fits}.

Definition file_line (kv : KeyValue) : string := Marshal kv +:+ String newline "".

Lemma tempFile_eq n r kva :
  tempFile Marshal n r kva = foldr (λ kv f, file_line kv +:+ f) "" (partition n r kva).
Proof.
  unfold tempFile. enough (∀ a, foldl (λ f kv, if ihash (Key kv) `mod` n =? r
    then f +:+ Marshal kv +:+ String newline "" else f) a kva =
    foldl (λ f kv, f +:+ file_line kv) a (partition n r kva)) as ->.
  { by rewrite foldl_append. }
  unfold partition. induction kva as [|kv kva IH]; intros a; [done|].
  rewrite filter_cons. cbn [foldl]. rewrite IH. case_decide as E.
  - by rewrite (proj2 (Z.eqb_eq _ _) E).
  - by rewrite (proj2 (Z.eqb_neq _ _) E).
Qed.

Lemma Scanner_lines l :
  Forall fits l → Scanner (foldr (λ kv f, file_line kv +:+ f) "" l) = Marshal <$> l.
Proof.
  unfold Scanner. induction 1 as [|kv l Hkv _ IH]; [done|]. cbn.
  unfold file_line at 1. rewrite app_assoc_string, app_cons_string, app_nil_l_string.
  rewrite (split_lines_app _ (Marshal kv)) by by apply json_one_line.
  cbn. rewrite decide_True by by apply json_fits. by rewrite json_no_cr, IH by done.
Qed.

Lemma Unmarshal_lines l : Forall fits l → mapM Unmarshal (Marshal <$> l) = Some l.
Proof.
  induction 1 as [|kv l Hkv _ IH]; [done|]. rewrite fmap_cons. cbn. by rewrite json_roundtrip, IH.
Qed.

(** A reduce task reads back the pairs a map task wrote for it. *)
Lemma readTempFile_spec m task n kva fs :
  Forall fits kva → fs !! interName m (Id task) = Some (tempFile Marshal n (Id task) kva) →
  readTempFile Unmarshal m task fs = Some (partition n (Id task) kva).
Proof.
  intros Hf Hfs. unfold readTempFile. rewrite Hfs, tempFile_eq, Scanner_lines, Unmarshal_lines; [done|..];
    apply Forall_forall; intros kv [_ Hin]%list_elem_of_filter; by eapply Forall_forall in Hf.
Qed.

End lines.

(** ** The loop over the keys *)


Lemma filter_true {A} (P : A → Prop) `{∀ x, Decision (P x)} l : Forall P l → filter P l = l.
Proof. induction 1 as [|x l Hx _ IH]; [done|]. by rewrite filter_cons, decide_True, IH. Qed.

Lemma filter_false {A} (P : A → Prop) `{∀ x, Decision (P x)} l :
  Forall (λ x, ¬ P x) l → filter P l = [].
Proof. induction 1 as [|x l Hx _ IH]; [done|]. by rewrite filter_cons, decide_False, IH. Qed.

(** Two keys neither of which is less than the other are the same. *)
Lemma Less_total a b : ¬ Less a b → ¬ Less b a → Key a = Key b.
Proof.
  unfold Less. rewrite (String.compare_antisym (Key b) (Key a)).
  destruct (String.compare (Key a) (Key b)) eqn:E; cbn; [|naive_solver..].
  intros _ _. by apply String.compare_eq_iff.
Qed.

(** The pairs of one key stand together. *)
Lemma same_key_spec key l kv0 :
  Key kv0 = key → StronglySorted (λ a b, ¬ Less b a) (kv0 :: l) →
  same_key key l = (values_of key l, filter (λ kv, Key kv ≠ key) l).
Proof.
  intros Hk Hs. apply StronglySorted_inv in Hs as [Hs H0].
  induction l as [|kv l IH]; [done|]. cbn [same_key].
  apply StronglySorted_inv in Hs as [Hs Hkv]. apply Forall_cons in H0 as [H0 H1].
  unfold values_of. rewrite !filter_cons. case_decide as E.
  - rewrite decide_False by (by intros ?). rewrite IH by done. done.
  - rewrite decide_True by done.
    assert (Forall (λ kv', Key kv' ≠ key) l) as Hrest.
    { apply Forall_forall. intros kv' Hin Hk'. apply E.
      rewrite Forall_forall in Hkv. specialize (Hkv kv' Hin).
      rewrite <- Hk'. apply Less_total; [|done].
      unfold Less in *. by rewrite Hk', <- Hk. }
    rewrite (filter_true (λ kv', Key kv' ≠ key)) by done.
    by rewrite (filter_false (λ kv', Key kv' = key)).
Qed.

Lemma values_of_filter key l :
  ∀ k, k ≠ key → values_of k (filter (λ kv, Key kv ≠ key) l) = values_of k l.
Proof.
  intros k Hk. unfold values_of. f_equal. rewrite list_filter_filter. apply list_filter_iff.
  intros kv. split; [tauto|]. intros <-. done.
Qed.

(** The loop writes one line for each key, from all its values. *)
Lemma reduce_loop_spec reduceFunc fuel l :
  StronglySorted (λ a b, ¬ Less b a) l → (length l ≤ fuel)%nat →
  ∃ ks, NoDup ks ∧ (∀ k, k ∈ ks ↔ k ∈ Key <$> l) ∧
    reduce_loop reduceFunc fuel l = (λ k, output_line reduceFunc k (values_of k l)) <$> ks.
Proof.
  revert l. induction fuel as [|fuel IH]; intros [|kv l] Hs Hlen; cbn in Hlen; [|lia| |].
  1, 2: exists []; split_and!; [constructor|done|done].
  cbn. rewrite (same_key_spec (Key kv) l kv) by done.
  set (rest := filter (λ kv', Key kv' ≠ Key kv) l).
  apply StronglySorted_inv in Hs as [Hs H0].
  destruct (IH rest) as (ks & Hnd & Hks & ->).
  { unfold rest. clear -Hs. induction Hs as [|x l Hs IHs Hx]; [constructor|].
    rewrite filter_cons. case_decide; [|done]. constructor; [done|].
    apply Forall_forall. intros y [_ Hy]%list_elem_of_filter. by eapply Forall_forall in Hx. }
  { unfold rest. etrans; [apply length_filter|lia]. }
  assert (∀ k, k ∈ ks → k ≠ Key kv) as Hne.
  { intros k (x & -> & [Hx _]%list_elem_of_filter)%Hks%list_elem_of_fmap. done. }
  exists (Key kv :: ks). split_and!.
  - constructor; [|done]. by intros ?%Hne.
  - intros k. rewrite !elem_of_cons, Hks. unfold rest.
    destruct (decide (k = Key kv)) as [->|Hk]; [tauto|].
    enough (k ∈ Key <$> filter (λ kv', Key kv' ≠ Key kv) l ↔ k ∈ Key <$> l) as -> by done.
    rewrite !list_elem_of_fmap. setoid_rewrite list_elem_of_filter. naive_solver.
  - rewrite fmap_cons. f_equal.
    + by rewrite decide_True.
    + apply list_fmap_ext. intros _ k Hk%list_elem_of_lookup_2. f_equal.
      unfold rest. rewrite values_of_filter by auto.
      by rewrite decide_False by (intros <-; by apply (Hne (Key kv))).
Qed.

(** The parts hold every pair once. *)
Lemma partitions_perm n l : 0 < n → concat ((λ r, partition n r l) <$> seqZ 0 n) ≡ₚ l.
Proof.
  intros Hn. induction l as [|kv l IH].
  - unfold partition. cbn. induction (seqZ 0 n); cbn; done.
  - assert (∀ rs, NoDup rs → concat ((λ r, partition n r (kv :: l)) <$> rs) ≡ₚ
      (if decide (ihash (Key kv) `mod` n ∈ rs) then [kv] else []) ++
      concat ((λ r, partition n r l) <$> rs)) as H.
    { induction 1 as [|r rs Hr _ IHr]; [done|]. rewrite !fmap_cons. cbn [concat]. rewrite IHr.
      unfold partition at 1. rewrite filter_cons. fold (partition n r l).
      destruct (decide (ihash (Key kv) `mod` n = r)) as [E|E].
      - rewrite (decide_False (P := _ ∈ rs)) by congruence.
        rewrite (decide_True (P := _ ∈ r :: rs)) by (apply elem_of_cons; by left). done.
      - destruct (decide (ihash (Key kv) `mod` n ∈ rs)) as [Hin|Hin].
        + rewrite decide_True by (apply elem_of_cons; by right).
          cbn. by rewrite <- Permutation_middle.
        + rewrite decide_False; [done|]. by intros [?|?]%elem_of_cons. }
    rewrite H by apply NoDup_seqZ. rewrite decide_True; [by rewrite IH|].
    apply elem_of_seqZ. pose proof (Z.mod_pos_bound (ihash (Key kv)) n Hn). lia.
Qed.

(** ** Parallel and sequential *)

Section parallel.
Context `{!JobLibrary Marshal Unmarshal sort_ByKey fits}.
Context (reduceFunc : string → list string → string) (Hfree : order_free reduceFunc).

Definition line_of (l : list KeyValue) (k : string) : string :=
  output_line reduceFunc k (values_of k l).

Lemma values_of_perm k l l' : l ≡ₚ l' → values_of k l ≡ₚ values_of k l'.
Proof. intros H. unfold values_of. by rewrite H. Qed.

Lemma reduce_lines_spec l :
  ∃ ks, NoDup ks ∧ (∀ k, k ∈ ks ↔ k ∈ Key <$> l) ∧
    reduce_lines sort_ByKey reduceFunc l = line_of l <$> ks.
Proof using Hfree JobLibrary0.
  unfold reduce_lines.
  destruct (reduce_loop_spec reduceFunc (length (sort_ByKey l)) (sort_ByKey l)) as (ks & Hnd & Hks & E);
    [apply sort_sorted|done|].
  exists ks. split_and!; [done| |].
  - intros k. by rewrite Hks, sort_perm.
  - rewrite E. apply list_fmap_ext. intros _ k _. unfold line_of, output_line.
    do 2 f_equal. rewrite (Hfree k _ (values_of k l)); [done|]. apply values_of_perm, sort_perm.
Qed.

Lemma values_of_partition n r k l : ihash k `mod` n = r → values_of k (partition n r l) = values_of k l.
Proof.
  intros Hk. unfold values_of, partition. f_equal. rewrite list_filter_filter.
  apply list_filter_iff. intros kv. split; [tauto|]. intros <-. done.
Qed.

(** The output lines of the reduce tasks 0, ..., [n - 1] over the pairs [l]. *)
Lemma parallel_lines n l :
  0 < n →
  concat ((λ r, reduce_lines sort_ByKey reduceFunc (partition n r l)) <$> seqZ 0 n) ≡ₚ
    reduce_lines sort_ByKey reduceFunc l.
Proof using Hfree JobLibrary0.
  intros Hn. destruct (reduce_lines_spec l) as (ks & Hnd & Hks & ->).
  assert (∀ rs, NoDup rs → ∃ ks', NoDup ks' ∧
    (∀ k, k ∈ ks' ↔ k ∈ Key <$> l ∧ ihash k `mod` n ∈ rs) ∧
    concat ((λ r, reduce_lines sort_ByKey reduceFunc (partition n r l)) <$> rs) = line_of l <$> ks') as H.
  { induction 1 as [|r rs Hr _ (ks' & Hnd' & Hks' & E)].
    { exists []. split_and!; [constructor| |done]. intros k. rewrite !elem_of_nil. tauto. }
    destruct (reduce_lines_spec (partition n r l)) as (kr & Hndr & Hkr & Er).
    assert (∀ k, k ∈ kr ↔ k ∈ Key <$> l ∧ ihash k `mod` n = r) as Hkr'.
    { intros k. rewrite Hkr, !list_elem_of_fmap. unfold partition.
      setoid_rewrite list_elem_of_filter. naive_solver. }
    exists (kr ++ ks'). split_and!.
    - apply NoDup_app. split_and!; [done| |done]. intros k [_ Hk]%Hkr' [_ Hk']%Hks'. congruence.
    - intros k. rewrite elem_of_app, elem_of_cons, Hkr', Hks'. tauto.
    - rewrite fmap_cons. cbn [concat]. rewrite E, Er, fmap_app. f_equal.
      apply list_fmap_ext. intros _ k [_ Hk]%list_elem_of_lookup_2%Hkr'.
      unfold line_of. by rewrite values_of_partition. }
  destruct (H (seqZ 0 n)) as (ks' & Hnd' & Hks' & ->); [apply NoDup_seqZ|].
  apply fmap_Permutation. apply NoDup_Permutation; [done|done|]. intros k.
  rewrite Hks', Hks, elem_of_seqZ. pose proof (Z.mod_pos_bound (ihash k) n Hn). split; [tauto|].
  split; [done|lia].
Qed.

End parallel.

(** ** Names of files *)

Fixpoint digits (s : string) : bool :=
  match s with
  | EmptyString => true
  | String c s => negb (bool_decide (c = "-"%char)) && negb (bool_decide (c = "o"%char)) && digits s
  end.

Lemma digits_N_go n s : digits s = true → digits (pretty_N_go n s) = true.
Proof.
  revert s. induction (N.lt_wf_0 n) as [n _ IH]; intros s Hs.
  assert (n = 0 ∨ 0 < n)%N as [->|?] by lia; [by rewrite pretty_N_go_0|].
  rewrite pretty_N_go_step by done. apply IH; [by apply N.div_lt|]. cbn. rewrite Hs.
  unfold pretty_N_char. by repeat case_match.
Qed.

Lemma digits_pretty z : 0 ≤ z → digits (pretty z) = true.
Proof.
  intros Hz. destruct z as [|p|p]; [done| |lia].
  unfold pretty, pretty_Z, pretty, pretty_positive, pretty, pretty_N. case_decide; [done|].
  by apply digits_N_go.
Qed.

Lemma digits_dash s s' t t' :
  digits s = true → digits s' = true → s +:+ String "-" t = s' +:+ String "-" t' → s = s' ∧ t = t'.
Proof.
  revert s'. induction s as [|c s IH]; intros [|c' s'] Hs Hs';
    rewrite ?app_cons_string, ?app_nil_l_string; intros E; injection E as E1; subst; cbn in Hs, Hs';
    zbool; try done.
  destruct (IH s') as [-> ->]; done.
Qed.

Lemma interName_inj i r i' r' :
  0 ≤ i → 0 ≤ r → 0 ≤ i' → 0 ≤ r' → interName i r = interName i' r' → i = i' ∧ r = r'.
Proof.
  unfold interName. intros Hi Hr Hi' Hr' E. apply (inj (String.app "mr-")) in E.
  apply digits_dash in E as [E1 E2]; [|by apply digits_pretty..].
  split; by apply (inj pretty).
Qed.

Lemma outName_inj r r' : outName r = outName r' → r = r'.
Proof. unfold outName. intros E%(inj (String.app "mr-out-")). by apply (inj pretty). Qed.

Lemma interName_outName i r r' : 0 ≤ i → interName i r ≠ outName r'.
Proof.
  intros Hi E. unfold interName, outName in E.
  change ("mr-out-" +:+ pretty r') with ("mr-" +:+ ("out" +:+ String "-" (pretty r'))) in E.
  apply (inj (String.app "mr-")) in E. pose proof (digits_pretty i Hi) as Hd.
  destruct (pretty i) as [|c s]; [done|]. rewrite !app_cons_string in E. injection E as -> _.
  done.
Qed.

(** ** Goroutines woken up *)

Lemma take_one_spec {A} `{EqDecision A} (x : A) l l' : take_one x l = Some l' → l ≡ₚ x :: l'.
Proof.
  revert l'. induction l as [|y l IH]; intros l'; cbn; [done|].
  case_decide as E; [by intros [= ->]; subst|].
  destruct (take_one x l) as [r|]; [|done]. intros [= <-]. rewrite (IH r) by done. constructor.
Qed.

Lemma take_one_elem {A} `{EqDecision A} (x : A) l : x ∈ l → is_Some (take_one x l).
Proof.
  induction l as [|y l IH]; [by intros ?%not_elem_of_nil|]. cbn. case_decide; [done|].
  intros [?|Hx]%elem_of_cons; [done|]. by destruct (IH Hx) as [r ->].
Qed.

Lemma tasks_of_spec ph n t : t ∈ tasks_of ph n ↔ ∃ i, t = mkTask ph i ∧ 0 ≤ i < n.
Proof. unfold tasks_of. rewrite list_elem_of_fmap. setoid_rewrite elem_of_seqZ. naive_solver lia. Qed.

Lemma length_tasks_of ph n : length (tasks_of ph n) = Z.to_nat n.
Proof. unfold tasks_of. by rewrite length_fmap, length_seqZ. Qed.
