(* ===== verification/MapReduceRun.v ===== *)
(** * MapReduce: a whole job

    The coordinator, any number of workers that may crash, be slow or lose
    replies, and the directory they share, as one step relation: a task that
    takes too long is given out again while the first worker may still be at
    it.  The input files do not change. *)
From stdpp Require Import base tactics strings numbers pretty list gmap sorting relations.
From Stdlib Require Import Ascii.
From S2P Require Import Prelude.
From S2P Require Import MapReduce.
From S2P Require Import MapReduceFacts.
Open Scope Z_scope.
Open Scope go_scope.

(** Where a worker is between [questTask] and [finishTask]; an idle worker has
    no state. *)
Inductive Worker :=
| Mapping (t : Task) (fileName : string) (nReduce : Z)
| Renaming (t : Task) (pending : list (Z * string))
| Reading (t : Task) (mMap id : Z) (temp : list KeyValue)
| Finishing (t : Task).

(** The [switch] of [Worker]; a worker that is told to finish returns. *)
Definition Worker_task (rep : GetTaskReply) : option Worker :=
  let t := gt_Task rep in
  if decide (TaskType t = MapPhase) then Some (Mapping t (gt_FileName rep) (gt_NReduce rep))
  else if decide (TaskType t = ReducePhase) then Some (Reading t (gt_MMap rep) 0 [])
  else if decide (TaskType t = FinishedPhase) then None
  else Some (Finishing t).

Record World := mkWorld { coord : Coordinator; fs : gmap string string; workers : list Worker }.

Section job.
Context (Marshal : KeyValue → string) (Unmarshal : string → option KeyValue).
Context (sort_ByKey : list KeyValue → list KeyValue).
Context (mapFunc : string → string → list KeyValue) (reduceFunc : string → list string → string).
Context (input : string → option string) (names : list string) (nReduce : Z).

(** One step of a worker, with the directory. *)
Inductive worker_step : Worker → gmap string string → Worker → gmap string string → Prop :=
| ws_map t f n pending d :
    MapTask_temp Marshal mapFunc input n f = Some pending →
    worker_step (Mapping t f n) d (Renaming t pending) d
| ws_rename t file pending pending' d :
    take_one file pending = Some pending' →
    worker_step (Renaming t pending) d (Renaming t pending') (renameTempFile t file d)
| ws_renamed t d :
    worker_step (Renaming t []) d (Finishing t) d
| ws_read t mMap id temp kva d :
    id < mMap → readTempFile Unmarshal id t d = Some kva →
    worker_step (Reading t mMap id temp) d (Reading t mMap (id + 1) (temp ++ kva)) d
| ws_reduce t mMap id temp d :
    mMap ≤ id →
    worker_step (Reading t mMap id temp) d (Finishing t) (ReduceTask_output sort_ByKey reduceFunc t temp d).

Inductive mr_step : World → World → Prop :=
| mr_check m d ws :                                          (* a request, up to its [select] *)
    mr_step (mkWorld m d ws) (mkWorld (getTask_check m) d ws)
| mr_dispatch m d ws task m' :                               (* ... and its answer *)
    getTask_receive task m = Some m' →
    mr_step (mkWorld m d ws)
      (mkWorld m' d (option_list (Worker_task (GetTaskHandler_reply task m')) ++ ws))
| mr_dispatch_lost m d ws task m' :
    getTask_receive task m = Some m' →
    mr_step (mkWorld m d ws) (mkWorld m' d ws)
| mr_work m d ws1 w ws2 w' d' :
    worker_step w d w' d' →
    mr_step (mkWorld m d (ws1 ++ w :: ws2)) (mkWorld m d' (ws1 ++ w' :: ws2))
| mr_crash m d ws1 w ws2 :                                   (* also [log.Fatal] and a lost request *)
    mr_step (mkWorld m d (ws1 ++ w :: ws2)) (mkWorld m d (ws1 ++ ws2))
| mr_finish m d ws1 t ws2 :
    mr_step (mkWorld m d (ws1 ++ Finishing t :: ws2)) (mkWorld (FinishTaskHandler t m) d (ws1 ++ ws2))
| mr_trace_receive m d ws t m' :
    traceTask_receive t m = Some m' → mr_step (mkWorld m d ws) (mkWorld m' d ws)
| mr_trace_count m d ws t m' :
    traceTask_count t m = Some m' → mr_step (mkWorld m d ws) (mkWorld m' d ws)
| mr_trace_timeout m d ws t m' :
    traceTask_timeout t m = Some m' → mr_step (mkWorld m d ws) (mkWorld m' d ws).

(** A job starts in any directory. *)
Definition mr_reachable (w : World) : Prop :=
  ∃ d, rtc mr_step (mkWorld (MakeCoordinator names nReduce) d []) w.

(** ** What is to be computed *)

Definition name_of (i : Z) : string := default "" (idx names i).
Definition kva_of (i : Z) : list KeyValue :=
  match input (name_of i) with Some content => mapFunc (name_of i) content | None => [] end.
Definition pairs_upto (n : Z) : list KeyValue := concat (kva_of <$> seqZ 0 n).
Definition outputs (r : Z) : list string :=
  reduce_lines sort_ByKey reduceFunc (partition nReduce r (pairs_upto (len names))).

(** The files of the job that hold what they should. *)
Definition inter_ok (d : gmap string string) (i r : Z) : Prop :=
  is_Some (input (name_of i)) ∧ d !! interName i r = Some (tempFile Marshal nReduce r (kva_of i)).
Definition out_ok (d : gmap string string) (r : Z) : Prop :=
  d !! outName r = Some (join_lines (outputs r)).
Definition map_done (d : gmap string string) (i : Z) : Prop := ∀ r, 0 ≤ r < nReduce → inter_ok d i r.
Definition all_mapped (d : gmap string string) : Prop := ∀ i, 0 ≤ i < len names → map_done d i.
Definition all_reduced (d : gmap string string) : Prop := ∀ r, 0 ≤ r < nReduce → out_ok d r.

Inductive task_done (d : gmap string string) : Task → Prop :=
| done_map i : 0 ≤ i < len names → map_done d i → task_done d (mkTask MapPhase i)
| done_reduce r : 0 ≤ r < nReduce → out_ok d r → task_done d (mkTask ReducePhase r).

(** A directory that has kept every right file. *)
Definition keeps (d d' : gmap string string) : Prop :=
  (∀ i r, 0 ≤ i → 0 ≤ r → inter_ok d i r → inter_ok d' i r) ∧ (∀ r, 0 ≤ r → out_ok d r → out_ok d' r).

(** ** The invariant *)

(** The tasks of the phase are each waiting, given out or counted. *)
Definition accounted (d : gmap string string) (ph : string) (n : Z) (m : Coordinator) : Prop :=
  phase m = ph ∧ taskQuantity m = n ∧ ∃ counted,
    taskSenders m ++ (tracers m).*1 ++ counted ≡ₚ tasks_of ph n ∧
    taskFinished m = len counted ∧ Forall (task_done d) counted.

Inductive phase_ok (d : gmap string string) (m : Coordinator) : Prop :=
| in_map : accounted d MapPhase (len names) m → phase_ok d m
| in_reduce : all_mapped d → accounted d ReducePhase nReduce m → phase_ok d m
| in_finished :
    all_mapped d → all_reduced d → phase m = FinishedPhase → taskQuantity m = -1 →
    taskFinished m = 0 → tracers m = [] → Forall (λ t, TaskType t = FinishedPhase) (taskSenders m) →
    phase_ok d m.

Inductive worker_ok (d : gmap string string) : Worker → Prop :=
| ok_mapping i :
    0 ≤ i < len names → worker_ok d (Mapping (mkTask MapPhase i) (name_of i) nReduce)
| ok_renaming i pending :
    0 ≤ i < len names → is_Some (input (name_of i)) →
    (∀ r c, (r, c) ∈ pending → 0 ≤ r ∧ c = tempFile Marshal nReduce r (kva_of i)) →
    (∀ r, 0 ≤ r < nReduce → (∃ c, (r, c) ∈ pending) ∨ inter_ok d i r) →
    worker_ok d (Renaming (mkTask MapPhase i) pending)
| ok_reading r id temp :
    0 ≤ r < nReduce → all_mapped d → 0 ≤ id ≤ len names →
    temp = partition nReduce r (pairs_upto id) →
    worker_ok d (Reading (mkTask ReducePhase r) (len names) id temp)
| ok_finishing t : task_done d t → worker_ok d (Finishing t).

Record mr_inv (w : World) : Prop := {
  mi_mM : mM (coord w) = len names;
  mi_nR : nR (coord w) = nReduce;
  mi_files i : 0 ≤ i < len names → map_get "" (files (coord w)) i = name_of i;
  mi_traced : traceCh (coord w) = tasks_of MapPhase (len names) ++ tasks_of ReducePhase nReduce;
  mi_phase : phase_ok (fs w) (coord w);
  mi_counting t : (t, true) ∈ tracers (coord w) → task_done (fs w) t;
  mi_signals : Forall (task_done (fs w)) (finishSenders (coord w));
  mi_workers : Forall (worker_ok (fs w)) (workers w)
}.

(** ** Every step keeps the invariant *)

Context (fits : KeyValue → Prop) `{!JobLibrary Marshal Unmarshal sort_ByKey fits}.
Context (Hn : 0 < nReduce).

#[local] Instance keeps_preorder : PreOrder keeps.
Proof. split; [by split|]. intros d1 d2 d3 [H1 H2] [H3 H4]. split; auto. Qed.

Lemma all_mapped_keeps d d' : keeps d d' → all_mapped d → all_mapped d'.
Proof. intros [Hk _] H i Hi r Hr. apply Hk; [lia|lia|]. by apply H. Qed.

Lemma done_keeps d d' t : keeps d d' → task_done d t → task_done d' t.
Proof.
  intros [H1 H2] [i Hi Hd|r Hr Hd]; constructor; [done| |done|].
  - intros r Hr. apply H1; [lia|lia|]. by apply Hd.
  - apply H2; [lia|done].
Qed.

Lemma Forall_done_keeps d d' l : keeps d d' → Forall (task_done d) l → Forall (task_done d') l.
Proof. intros Hk H. eapply Forall_impl; [done|]. intros t. by apply done_keeps. Qed.

Lemma worker_ok_keeps d d' w : keeps d d' → worker_ok d w → worker_ok d' w.
Proof.
  intros Hk [i Hi|i pending Hi Hin Hp Hr|r id temp Hr Hm Hid Ht|t Ht]; constructor; auto.
  - intros r Hr'. destruct (Hr r Hr') as [?|?]; [by left|right]. apply Hk; [lia|lia|done].
  - by eapply all_mapped_keeps.
  - by eapply done_keeps.
Qed.

Lemma phase_ok_keeps d d' m : keeps d d' → phase_ok d m → phase_ok d' m.
Proof.
  intros Hk. assert (∀ ph n, accounted d ph n m → accounted d' ph n m) as Ha.
  { intros ph n (? & ? & counted & ? & ? & ?). split_and!; [done..|]. exists counted.
    split_and!; [done..|]. by eapply Forall_done_keeps. }
  intros [H|Hm H|Hm Hr]; [by apply in_map, Ha| |].
  - apply in_reduce; [by eapply all_mapped_keeps|by apply Ha].
  - apply in_finished; try done; [by eapply all_mapped_keeps|].
    intros r Hr'. apply Hk; [lia|]. by apply Hr.
Qed.

(** Writing what a file should hold keeps the right files. *)
Lemma rename_keeps d i r :
  0 ≤ i → 0 ≤ r → keeps d (<[interName i r := tempFile Marshal nReduce r (kva_of i)]> d).
Proof.
  intros Hi Hr. split.
  - intros i' r' Hi' Hr' [Hin Hd]. split; [done|].
    destruct (decide (interName i r = interName i' r')) as [E|Hne].
    + destruct (interName_inj i r i' r') as [<- <-]; try done. by rewrite lookup_insert_eq.
    + by rewrite lookup_insert_ne.
  - intros r' Hr' Hd. unfold out_ok in *.
    rewrite lookup_insert_ne; [done|]. by apply interName_outName.
Qed.

Lemma output_keeps d r :
  keeps d (<[outName r := join_lines (outputs r)]> d).
Proof.
  split.
  - intros i r' Hi Hr' [Hin Hd]. split; [done|]. rewrite lookup_insert_ne; [done|].
    intros E. by apply (interName_outName i r' r Hi).
  - intros r' Hr' Hd. unfold out_ok in *.
    destruct (decide (outName r = outName r')) as [E|Hne].
    + apply outName_inj in E as <-. by rewrite lookup_insert_eq.
    + by rewrite lookup_insert_ne.
Qed.

Context (Hfits : ∀ i, 0 ≤ i < len names → Forall fits (kva_of i)).

Lemma pairs_upto_S n : 0 ≤ n → pairs_upto (n + 1) = pairs_upto n ++ kva_of n.
Proof.
  intros Hn'. unfold pairs_upto. rewrite seqZ_app by lia.
  rewrite Z.add_0_l, (seqZ_cons n 1), fmap_app, concat_app by lia. cbn. by rewrite app_nil_r.
Qed.

(** A worker's step writes only right files and leaves it in order. *)
Lemma worker_step_ok w d w' d' :
  worker_step w d w' d' →
  worker_ok d w → keeps d d' ∧ worker_ok d' w'.
Proof.
  intros Hs Hok. destruct Hs as [t f n pending d Ht|t [r c] pending pending' d Ht|t d
    |t mMap id temp kva d Hid Ht|t mMap id temp d Hid]; inversion Hok; subst; clear Hok.
  - split; [done|]. unfold MapTask_temp, createTempFiles in Ht.
    destruct (input (name_of i)) as [content|] eqn:Hin; [|done].
    assert (kva_of i = mapFunc (name_of i) content) as Ek.
    { unfold kva_of. by rewrite Hin. }
    case_if_in Ht; [zbool; lia|]. injection Ht as <-. rewrite <- Ek. constructor; [done|by rewrite Hin|..].
    + intros r c (r' & [= -> ->] & Hr%elem_of_seqZ)%list_elem_of_fmap. split; [lia|done].
    + intros r Hr. left. eexists. apply list_elem_of_fmap. exists r. split; [done|].
      apply elem_of_seqZ. lia.
  - apply take_one_spec in Ht.
    match goal with H : ∀ r c, (r, c) ∈ pending → _ |- _ => rename H into Hp end.
    match goal with H : ∀ r, 0 ≤ r < nReduce → _ |- _ => rename H into Hr end.
    destruct (Hp r c) as [Hr0 ->]; [rewrite Ht; apply elem_of_cons; by left|].
    assert (keeps d (renameTempFile (mkTask MapPhase i) (r, tempFile Marshal nReduce r (kva_of i)) d)) as Hk.
    { apply (rename_keeps d i r); [lia|done]. }
    split; [done|]. constructor; [done|done| |].
    + intros r' c' Hin. apply Hp. rewrite Ht. apply elem_of_cons. by right.
    + intros r' Hr'. destruct (Hr r' Hr') as [[c' Hc']|Hc'].
      * rewrite Ht in Hc'. apply elem_of_cons in Hc' as [[= -> _]|Hc']; [right|left; eauto].
        split; [done|]. unfold renameTempFile. cbn. by rewrite lookup_insert_eq.
      * right. apply Hk; [lia|lia|done].
  - split; [done|]. constructor. constructor; [done|]. intros r Hr.
    match goal with H : ∀ r, 0 ≤ r < nReduce → _ |- _ => destruct (H r Hr) as [[c Hc%not_elem_of_nil]|?] end; done.
  - split; [done|]. constructor; [done|done|lia|]. rewrite pairs_upto_S by lia.
    unfold partition. rewrite filter_app. f_equal.
    assert (inter_ok d id r) as [Hin Hd] by (match goal with H : all_mapped d |- _ => apply H; [lia|done] end).
    rewrite (readTempFile_spec (sort_ByKey := sort_ByKey) (fits := fits) id _ nReduce (kva_of id)) in Ht; [|by apply Hfits; lia|done].
    by injection Ht as <-.
  - assert (id = len names) as -> by lia. unfold ReduceTask_output. cbn.
    split; [by apply output_keeps|]. constructor. constructor; [done|].
    unfold out_ok. by rewrite lookup_insert_eq.
Qed.

(** ** The coordinator *)

(** When all tasks of a phase are counted they are all done. *)
Lemma accounted_all d ph n m :
  0 ≤ n → accounted d ph n m → taskFinished m = taskQuantity m →
  taskSenders m = [] ∧ tracers m = [] ∧ Forall (task_done d) (tasks_of ph n).
Proof.
  intros Hn0 (Hph & Hq & counted & Hp & Hf & Hd) E.
  pose proof (Permutation_length Hp) as Hl.
  rewrite length_tasks_of, !length_app, length_fmap in Hl. unfold len in Hf.
  assert (length (taskSenders m) = 0 ∧ length (tracers m) = 0)%nat as [E1 E2] by lia.
  apply nil_length_inv in E1. apply nil_length_inv in E2. split_and!; [done|done|].
  rewrite E1, E2 in Hp. cbn in Hp. by rewrite <- Hp.
Qed.

Lemma start_phase d ph n m :
  0 ≤ n → taskSenders m = [] → tracers m = [] → accounted d ph n (execPhase ph n m).
Proof.
  intros Hn0 E1 E2. unfold execPhase, accounted. destruct (n =? -1) eqn:E; zbool; [lia|]. cbn.
  split_and!; [done|done|]. exists []. rewrite E1, E2. cbn. by rewrite app_nil_r.
Qed.

(** What a step of the coordinator leaves alone. *)
Definition same_job (m m' : Coordinator) : Prop :=
  mM m' = mM m ∧ nR m' = nR m ∧ files m' = files m ∧ traceCh m' = traceCh m ∧ finishSenders m' = finishSenders m.

Lemma execPhase_rest ph n m : same_job m (execPhase ph n m) ∧ tracers (execPhase ph n m) = tracers m.
Proof. unfold execPhase, same_job. destruct (n =? -1); by split_and!. Qed.

Lemma check_ok m d ws : mr_inv (mkWorld m d ws) → mr_inv (mkWorld (getTask_check m) d ws).
Proof.
  intros [I1 I2 I3 I0 I4 I5 I6 I7]. cbn in *. unfold getTask_check.
  destruct (taskFinished m =? taskQuantity m) eqn:E; [|by split]. zbool.
  assert (∀ ph q, tracers m = [] → phase_ok d (execPhase ph q m) →
    mr_inv (mkWorld (execPhase ph q m) d ws)) as Hnext.
  { intros ph q Ht Hph. destruct (execPhase_rest ph q m) as [(E1 & E2 & E3 & E0 & E4) E5].
    split; cbn [coord fs workers]; rewrite ?E1, ?E2, ?E3, ?E0, ?E4, ?E5; auto. }
  pose proof (len_nonneg names) as Hlen.
  destruct I4 as [Ha|Hm Ha|Hm Hr Hp Hq Hf Ht Hs].
  - rewrite decide_True by apply Ha.
    destruct (accounted_all _ _ _ _ Hlen Ha E) as (E1 & E2 & Hall).
    apply Hnext; [done|]. apply in_reduce; [|rewrite I2; apply start_phase; [lia|done|done]].
    intros i Hi. rewrite Forall_forall in Hall. specialize (Hall (mkTask MapPhase i)).
    assert (task_done d (mkTask MapPhase i)) as Hd by (apply Hall, tasks_of_spec; eauto).
    by inversion Hd.
  - rewrite decide_False by by destruct Ha as [-> _].
    destruct (accounted_all _ _ _ _ (Z.lt_le_incl _ _ Hn) Ha E) as (E1 & E2 & Hall).
    apply Hnext; [done|]. apply in_finished; try done.
    + intros r Hr. rewrite Forall_forall in Hall. specialize (Hall (mkTask ReducePhase r)).
      assert (task_done d (mkTask ReducePhase r)) as Hd by (apply Hall, tasks_of_spec; eauto).
      by inversion Hd.
    + unfold execPhase. cbn. rewrite E1. cbn. by constructor.
  - exfalso. lia.
Qed.

(** A task given out moves from the queue to its tracer. *)
Lemma receive_ok task m m' d :
  getTask_receive task m = Some m' → phase_ok d m →
  phase_ok d m' ∧ same_job m m' ∧ (∀ t b, (t, b) ∈ tracers m' → (t, b) ∈ tracers m ∨ b = false) ∧
  ((TaskType task = FinishedPhase) ∨ (∃ i, task = mkTask MapPhase i ∧ 0 ≤ i < len names) ∨
   (∃ r, task = mkTask ReducePhase r ∧ 0 ≤ r < nReduce ∧ all_mapped d)).
Proof.
  unfold getTask_receive. destruct (take_one task (taskSenders m)) as [rest|] eqn:Et; [|done].
  apply take_one_spec in Et. intros [= <-].
  assert (∀ ph n, ph ≠ FinishedPhase → accounted d ph n m →
    (∃ i, task = mkTask ph i ∧ 0 ≤ i < n) ∧
    accounted d ph n (m <| taskSenders := rest |> <| tracers ::= λ l, (task, false) :: l |>)) as Ha.
  { intros ph n Hph (E1 & E2 & counted & Hp & E3 & Hd). split.
    - apply tasks_of_spec. rewrite <- Hp, Et. apply elem_of_cons. by left.
    - split_and!; [done|done|]. exists counted. cbn. split_and!; [|done|done].
      rewrite <- Hp, Et. cbn. apply Permutation_sym, Permutation_middle. }
  assert (same_job m (m <| taskSenders := rest |> <| tracers ::= λ l, (task, false) :: l |>)) as Hsame by done.
  intros [Hacc|Hm Hacc|Hm Hr Hp Hq Hf Htr Hs].
  - destruct (Ha MapPhase (len names) ltac:(done) Hacc) as [(i & -> & Hi) Hacc'].
    rewrite decide_False by done. split_and!; [by apply in_map|apply Hsame..| |eauto].
    intros t b [[= -> ->]|?]%elem_of_cons; auto.
  - destruct (Ha ReducePhase nReduce ltac:(done) Hacc) as [(r & -> & Hr) Hacc'].
    rewrite decide_False by done. split_and!; [by apply in_reduce|apply Hsame..| |eauto 10].
    intros t b [[= -> ->]|?]%elem_of_cons; auto.
  - rewrite Et in Hs. apply Forall_cons in Hs as [Hty Hs]. rewrite decide_True by done.
    split_and!; [by apply in_finished|done..|auto|auto].
Qed.

Lemma map_task_name m i :
  (∀ i, 0 ≤ i < len names → map_get "" (files m) i = name_of i) → 0 ≤ i < len names →
  gt_FileName (GetTaskHandler_reply (mkTask MapPhase i) m) = name_of i.
Proof. intros H Hi. cbn. rewrite decide_True by done. by apply H. Qed.

Lemma dispatch_ok m d ws task m' :
  mr_inv (mkWorld m d ws) → getTask_receive task m = Some m' →
  mr_inv (mkWorld m' d ws) ∧
  mr_inv (mkWorld m' d (option_list (Worker_task (GetTaskHandler_reply task m')) ++ ws)).
Proof.
  intros [I1 I2 I3 I0 I4 I5 I6 I7] Hr. cbn in *.
  destruct (receive_ok _ _ _ _ Hr I4) as (Hph & (E1 & E2 & E3 & E0 & E4) & Htr & Htask).
  assert (mr_inv (mkWorld m' d ws)) as Hinv.
  { split; cbn [coord fs workers]; rewrite ?E1, ?E2, ?E3, ?E0, ?E4; auto. intros t [?|?]%Htr; auto. done. }
  split; [done|]. destruct Hinv as [J1 J2 J3 J0 J4 J5 J6 J7]. cbn in *.
  split; cbn; auto. apply Forall_app. split; [|done]. unfold Worker_task.
  destruct Htask as [Ht|[(i & -> & Hi)|(r & -> & Hr' & Hm)]].
  - cbn. rewrite Ht. repeat (rewrite decide_False by done). rewrite decide_True by done. constructor.
  - rewrite decide_True by done. constructor; [|constructor].
    rewrite map_task_name by done. cbn. rewrite J2. by constructor.
  - rewrite decide_False, decide_True by done. constructor; [|constructor]. cbn. rewrite J1.
    constructor; [done|done| |done]. pose proof (len_nonneg names). lia.
Qed.

Lemma finish_ok m d ws1 t ws2 :
  mr_inv (mkWorld m d (ws1 ++ Finishing t :: ws2)) → mr_inv (mkWorld (FinishTaskHandler t m) d (ws1 ++ ws2)).
Proof.
  intros [I1 I2 I3 I0 I4 I5 I6 I7]. cbn in *.
  apply Forall_app in I7 as [I7 [I8 I9]%Forall_cons]. unfold FinishTaskHandler.
  case_decide; split; cbn; auto; try (apply Forall_app; done).
  - destruct I4 as [(?&?&?)|? (?&?&?)|]; [by apply in_map|by apply in_reduce|by apply in_finished].
  - constructor; [|done]. by inversion I8.
Qed.

Lemma trace_ok m d ws t m' :
  mr_inv (mkWorld m d ws) →
  traceTask_receive t m = Some m' ∨ traceTask_count t m = Some m' ∨ traceTask_timeout t m = Some m' →
  mr_inv (mkWorld m' d ws).
Proof.
  intros [I1 I2 I3 I0 I4 I5 I6 I7] Ht. cbn in *.
  assert (∃ b ts, tracers m ≡ₚ (t, b) :: ts) as (b0 & ts0 & Hsome).
  { unfold traceTask_receive, traceTask_count, traceTask_timeout in Ht.
    destruct Ht as [Ht|[Ht|Ht]]; destruct (take_one _ (tracers m)) as [ts|] eqn:Et; try done;
      eauto using take_one_spec. }
  assert (phase_ok d m' ∧ same_job m (m' <| finishSenders := finishSenders m |>) ∧
    (∀ t, (t, true) ∈ tracers m' → task_done d t) ∧ Forall (task_done d) (finishSenders m'))
    as (J1 & (J2 & J3 & J4 & J0 & _) & J5 & J6).
  2: { split; cbn in *; rewrite ?J2, ?J3, ?J4, ?J0; auto. }
  assert (∀ ph n m', phase m' = phase m → taskQuantity m' = taskQuantity m →
    (∀ counted, taskSenders m ++ (tracers m).*1 ++ counted ≡ₚ tasks_of ph n →
      taskFinished m = len counted → Forall (task_done d) counted →
      ∃ counted', taskSenders m' ++ (tracers m').*1 ++ counted' ≡ₚ
        taskSenders m ++ (tracers m).*1 ++ counted ∧
        taskFinished m' = len counted' ∧ Forall (task_done d) counted') →
    accounted d ph n m → accounted d ph n m') as Hacc.
  { intros ph n m1 E1 E2 H (? & ? & counted & Hp & Hf & Hd).
    destruct (H counted Hp Hf Hd) as (counted' & Hp' & ? & ?).
    split_and!; [congruence|congruence|]. exists counted'. by rewrite Hp'. }
  assert (∀ m', phase m' = phase m → taskQuantity m' = taskQuantity m →
    (∀ counted, taskFinished m = len counted → Forall (task_done d) counted →
      ∃ counted', taskSenders m' ++ (tracers m').*1 ++ counted' ≡ₚ
        taskSenders m ++ (tracers m).*1 ++ counted ∧
        taskFinished m' = len counted' ∧ Forall (task_done d) counted') → phase_ok d m') as Hphase.
  { intros m1 E1 E2 H. destruct I4 as [Ha|Hm Ha|Hm Hr Hp Hq Hf Htr Hs].
    - apply in_map. eapply Hacc; eauto.
    - apply in_reduce; [done|]. eapply Hacc; eauto.
    - rewrite Htr in Hsome. by apply Permutation_nil_cons in Hsome. }
  destruct Ht as [Ht|[Ht|Ht]];
    unfold traceTask_receive, traceTask_count, traceTask_timeout in Ht;
    destruct (take_one _ (tracers m)) as [ts|] eqn:Et; try done; apply take_one_spec in Et.
  - destruct (take_one t (finishSenders m)) as [fs'|] eqn:Ef; [|done]. injection Ht as <-.
    apply take_one_spec in Ef. rewrite Ef in I6. apply Forall_cons in I6 as [Hd I6].
    split_and!; try done.
    + apply Hphase; [done|done|]. intros counted ??. exists counted. cbn. rewrite Et. done.
    + intros t' [[= ->]|Hin]%elem_of_cons; [done|]. apply I5. rewrite Et. apply elem_of_cons. by right.
  - injection Ht as <-. assert (task_done d t) as Hd.
    { apply I5. rewrite Et. apply elem_of_cons. by left. }
    split_and!; try done; [| |by constructor].
    + apply Hphase; [done|done|]. intros counted Hf ?. exists (t :: counted). cbn.
      split_and!; [|rewrite Hf; unfold len; cbn; lia|by constructor]. rewrite Et. cbn.
      f_equiv. by rewrite <- Permutation_middle.
    + intros t' Hin. apply I5. rewrite Et. apply elem_of_cons. by right.
  - injection Ht as <-. split_and!; try done.
    + apply Hphase; [done|done|]. intros counted ??. exists counted. cbn. rewrite Et. cbn.
      split_and!; [|done|done]. by rewrite <- app_assoc.
    + intros t' Hin. apply I5. rewrite Et. apply elem_of_cons. by right.
Qed.

Lemma mr_step_ok w w' : mr_inv w → mr_step w w' → mr_inv w'.
Proof.
  intros Hinv Hs. destruct Hs.
  - by apply check_ok.
  - by eapply dispatch_ok.
  - by eapply dispatch_ok.
  - destruct Hinv as [I1 I2 I3 I0 I4 I5 I6 I7]. cbn in *.
    apply Forall_app in I7 as [I7 [I8 I9]%Forall_cons].
    match goal with H : worker_step _ _ _ _ |- _ => destruct (worker_step_ok _ _ _ _ H I8) as [Hk Hw] end.
    split; cbn; auto.
    + by eapply phase_ok_keeps.
    + intros t Ht. eapply done_keeps; eauto.
    + by eapply Forall_done_keeps.
    + apply Forall_app. split; [|constructor; [done|]];
        (eapply Forall_impl; [done|]); intros ?; by apply worker_ok_keeps.
  - destruct Hinv as [I1 I2 I3 I0 I4 I5 I6 I7]. cbn in *. split; auto. cbn.
    apply Forall_app in I7 as [I7 [I8 I9]%Forall_cons]. by apply Forall_app.
  - by eapply finish_ok.
  - eapply trace_ok; eauto.
  - eapply trace_ok; eauto.
  - eapply trace_ok; eauto.
Qed.

End job.
