(* ===== verification/MapReduceJob.v ===== *)
(** * MapReduce: the claims

    A finished job has computed what the sequential program computes; a reduce
    task finds every file it opens; whatever has crashed or been lost so far,
    a job can still finish. *)
From stdpp Require Import base tactics strings numbers pretty list gmap sorting relations.
From Stdlib Require Import Ascii.
From S2P Require Import Prelude.
From S2P Require Import MapReduce.
From S2P Require Import MapReduceFacts.
From S2P Require Import MapReduceRun.
Open Scope Z_scope.
Open Scope go_scope.

Section job.
Context (Marshal : KeyValue → string) (Unmarshal : string → option KeyValue).
Context (sort_ByKey : list KeyValue → list KeyValue) (fits : KeyValue → Prop).
Context `{!JobLibrary Marshal Unmarshal sort_ByKey fits}.
Context (mapFunc : string → string → list KeyValue) (reduceFunc : string → list string → string).
Context (input : string → option string) (names : list string) (nReduce : Z).
Context (Hn : 0 < nReduce).
Context (Hfits : ∀ name content, name ∈ names → input name = Some content →
  Forall fits (mapFunc name content)).

Let step := mr_step Marshal Unmarshal sort_ByKey mapFunc reduceFunc input.
Let inv := mr_inv Marshal sort_ByKey mapFunc reduceFunc input names nReduce.
Let reachable := mr_reachable Marshal Unmarshal sort_ByKey mapFunc reduceFunc input names nReduce.
Let kvs := kva_of mapFunc input names.

Lemma name_of_elem i : 0 ≤ i < len names → name_of names i ∈ names.
Proof.
  intros Hi. unfold name_of. destruct (idx_is_Some i names Hi) as [f Hf]. rewrite Hf. cbn.
  apply idx_Some in Hf as [_ Hf]. by eapply list_elem_of_lookup_2.
Qed.

Lemma kvs_fit i : 0 ≤ i < len names → Forall fits (kvs i).
Proof.
  intros Hi. unfold kvs, kva_of. destruct (input (name_of names i)) as [c|] eqn:E; [|constructor].
  apply Hfits; [by apply name_of_elem|done].
Qed.

Lemma names_seq : names = name_of names <$> seqZ 0 (len names).
Proof.
  apply list_eq. intros i. rewrite list_lookup_fmap. unfold len.
  destruct (decide (i < length names)%nat) as [Hi|Hi].
  - rewrite lookup_seqZ_lt by lia. cbn. unfold name_of.
    destruct (lookup_lt_is_Some_2 names i Hi) as [f Hf]. rewrite Hf.
    assert (idx names (0 + Z.of_nat i) = Some f) as ->; [|done].
    apply idx_Some. split; [lia|]. by replace (Z.to_nat (0 + Z.of_nat i)) with i by lia.
  - rewrite lookup_ge_None_2 by lia. rewrite lookup_seqZ_ge by lia. done.
Qed.

Lemma mr_start_inv d : inv (mkWorld (MakeCoordinator names nReduce) d []).
Proof.
  unfold MakeCoordinator. pose proof (len_nonneg names) as Hlen.
  unfold execPhase. destruct (len names =? -1) eqn:E; zbool; [lia|].
  split; cbn -[tasks_of]; try done.
  - intros i Hi. unfold map_get, name_of. destruct (idx_is_Some i names Hi) as [f Hf]. rewrite Hf.
    apply idx_Some in Hf as [_ Hf].
    erewrite elem_of_list_to_map_1; [done| |].
    + rewrite fst_zip; [apply NoDup_seqZ|]. rewrite length_seqZ. unfold len. lia.
    + apply (list_elem_of_lookup_2 _ (Z.to_nat i)). rewrite lookup_zip_with.
      rewrite lookup_seqZ_lt by lia. rewrite Hf. cbn. do 2 f_equal. lia.
  - apply in_map. split_and!; [done|done|]. exists []. cbn. by rewrite app_nil_r.
  - by intros t ?%not_elem_of_nil.
Qed.

Lemma rtc_inv w w' : inv w → rtc step w w' → inv w'.
Proof.
  intros Hi Hr. induction Hr; [done|]. apply IHHr. eapply mr_step_ok; eauto using kvs_fit.
Qed.

Lemma mr_reachable_inv w : reachable w → inv w.
Proof. intros [d Hr]. eapply rtc_inv; [apply mr_start_inv|done]. Qed.

Lemma sequential_pairs :
  (∀ i, 0 ≤ i < len names → is_Some (input (name_of names i))) →
  sequential_map mapFunc input names = Some (pairs_upto mapFunc input names (len names)).
Proof.
  intros Hin. unfold pairs_upto, kva_of.
  assert (∀ ids, (∀ i, i ∈ ids → 0 ≤ i < len names) →
    sequential_map mapFunc input (name_of names <$> ids) = Some (concat (kvs <$> ids))) as H.
  { induction ids as [|i ids IH]; intros Hr; [done|]. cbn.
    destruct (Hin i) as [c Hc]; [apply Hr, elem_of_cons; by left|].
    rewrite IH by (intros; apply Hr, elem_of_cons; by right).
    unfold kvs at 2, kva_of. by rewrite Hc. }
  rewrite names_seq at 1. apply H. intros i. by rewrite elem_of_seqZ, Z.add_0_l.
Qed.

(** C33.  When the coordinator says the job is done, whatever crashed, was lost, was
    late or was done twice on the way, every output file is in place and the
    lines of all of them are those the sequential program writes. *)
Theorem mapreduce_correct w :
  order_free reduceFunc → reachable w → Done (coord w) = true →
  ∃ lines outs, sequential sort_ByKey mapFunc reduceFunc input names = Some lines ∧
    (∀ r, 0 ≤ r < nReduce → fs w !! outName r = Some (join_lines (outs r))) ∧
    concat (outs <$> seqZ 0 nReduce) ≡ₚ lines.
Proof using Hn Hfits JobLibrary0.
  intros Hfree Hw%mr_reachable_inv Hd. unfold Done, getPhase in Hd. apply bool_decide_eq_true in Hd.
  assert (all_mapped Marshal mapFunc input names nReduce (fs w) ∧
          all_reduced sort_ByKey mapFunc reduceFunc input names nReduce (fs w)) as [Hm Hr].
  { destruct (mi_phase _ _ _ _ _ _ _ _ Hw) as [[E _]|_ [E _]|]; [by rewrite Hd in E|by rewrite Hd in E|done]. }
  exists (reduce_lines sort_ByKey reduceFunc (pairs_upto mapFunc input names (len names))).
  exists (outputs sort_ByKey mapFunc reduceFunc input names nReduce). split_and!.
  - unfold sequential. rewrite sequential_pairs; [done|]. intros i Hi. by apply (Hm i Hi 0).
  - done.
  - by apply (parallel_lines reduceFunc Hfree).
Qed.

Lemma all_mapped_file d i r :
  all_mapped Marshal mapFunc input names nReduce d → 0 ≤ i < len names → 0 ≤ r < nReduce →
  d !! interName i r = Some (tempFile Marshal nReduce r (kvs i)).
Proof. intros H Hi Hr. by destruct (H i Hi r Hr). Qed.

(** No reduce task is given out before every map task is done: a worker that
    reads the intermediate files finds each of them, whole, with exactly the
    pairs of that map task whose keys belong to the reduce task. *)
Theorem reduce_finds_files w t mMap id temp :
  reachable w → Reading t mMap id temp ∈ workers w → id < mMap →
  readTempFile Unmarshal id t (fs w) = Some (partition nReduce (Id t) (kvs id)).
Proof using Hn Hfits JobLibrary0.
  intros Hw%mr_reachable_inv Hin Hid. pose proof (mi_workers _ _ _ _ _ _ _ _ Hw) as Hws.
  rewrite Forall_forall in Hws. specialize (Hws _ Hin). inversion Hws; subst. cbn.
  eapply (readTempFile_spec (sort_ByKey := sort_ByKey) (fits := fits)); [by apply kvs_fit; lia|].
  by eapply all_mapped_file; [|lia|].
Qed.

(** ** A job can always finish *)

Context (Hinput : ∀ i, 0 ≤ i < len names → is_Some (input (name_of names i))).

Definition on_worker (wd wd' : Worker * gmap string string) : Prop :=
  worker_step Marshal Unmarshal sort_ByKey mapFunc reduceFunc input wd.1 wd.2 wd'.1 wd'.2.

Definition task_of (w : Worker) : Task :=
  match w with Mapping t _ _ | Renaming t _ | Reading t _ _ _ | Finishing t => t end.

Let ok := worker_ok Marshal sort_ByKey mapFunc reduceFunc input names nReduce.

Lemma rename_all t pending d : ∃ d', rtc on_worker (Renaming t pending, d) (Finishing t, d').
Proof.
  revert d. induction pending as [|f pending IH]; intros d.
  - exists d. apply rtc_once. constructor.
  - destruct (IH (renameTempFile t f d)) as [d' H]. exists d'.
    eapply rtc_l; [|exact H]. apply ws_rename. cbn. by rewrite decide_True.
Qed.

Lemma read_all t mMap k id temp d :
  Z.to_nat (mMap - id) = k → ok d (Reading t mMap id temp) →
  ∃ d', rtc on_worker (Reading t mMap id temp, d) (Finishing t, d').
Proof.
  revert id temp. induction k as [|k IH]; intros id temp Hk Hok.
  - eexists. apply rtc_once. apply ws_reduce. lia.
  - assert (∃ kva, readTempFile Unmarshal id t d = Some kva) as [kva Hkva].
    { inversion Hok; subst. eexists.
      apply (readTempFile_spec (sort_ByKey := sort_ByKey) (fits := fits) id _ nReduce (kvs id));
        [apply kvs_fit; lia|].
      by eapply all_mapped_file; [|lia|]. }
    assert (on_worker (Reading t mMap id temp, d) (Reading t mMap (id + 1) (temp ++ kva), d)) as Hs.
    { apply ws_read; [lia|done]. }
    destruct (IH (id + 1) (temp ++ kva)) as [d' H]; [lia| |].
    + by eapply (worker_step_ok _ _ _ _ _ _ _ _ fits Hn kvs_fit _ _ _ _ Hs).
    + exists d'. by eapply rtc_l.
Qed.

Lemma worker_runs w d : ok d w → ∃ d', rtc on_worker (w, d) (Finishing (task_of w), d').
Proof.
  intros Hok. destruct w as [t f n|t pending|t mMap id temp|t]; cbn.
  - assert (∃ pending, MapTask_temp Marshal mapFunc input n f = Some pending) as [pending Hp].
    { inversion Hok; subst. unfold MapTask_temp. destruct (Hinput i) as [c ->]; [done|].
      unfold createTempFiles. case_if; [zbool; lia|eauto]. }
    destruct (rename_all t pending d) as [d' H]. exists d'. eapply rtc_l; [|exact H]. by apply ws_map.
  - apply rename_all.
  - by eapply read_all.
  - by exists d.
Qed.

Lemma world_runs m w d w' d' :
  rtc on_worker (w, d) (w', d') → rtc step (mkWorld m d [w]) (mkWorld m d' [w']).
Proof.
  intros H. remember (w, d) as x eqn:Ex. remember (w', d') as y eqn:Ey. revert w d Ex.
  induction H as [|x [w1 d1] y Hs Hr IH]; intros w d ->; [by injection Ey as <- <-|].
  eapply rtc_l; [|by apply (IH Ey)]. by apply (mr_work _ _ _ _ _ _ m d [] w [] w1 d1).
Qed.

Lemma crash_all m d ws : rtc step (mkWorld m d ws) (mkWorld m d []).
Proof.
  induction ws as [|w ws IH]; [done|]. eapply rtc_l; [|exact IH].
  apply (mr_crash _ _ _ _ _ _ m d [] w ws).
Qed.

(** The tracers stop, counting or putting their tasks back. *)
Lemma stop_tracers n m d :
  length (tracers m) = n → ∃ m', rtc step (mkWorld m d []) (mkWorld m' d []) ∧ tracers m' = [].
Proof.
  revert m. induction n as [|n IH]; intros m Hl; [apply nil_length_inv in Hl; by exists m|].
  destruct (tracers m) as [|[t b] ts] eqn:Et; [done|].
  assert (∃ m', step (mkWorld m d []) (mkWorld m' d []) ∧ length (tracers m') = n) as (m' & Hs & Hl').
  { cbn in Hl. destruct b; eexists; (split; [|]).
    - apply mr_trace_count with t. unfold traceTask_count. rewrite Et. cbn.
      rewrite decide_True by done. done.
    - cbn. lia.
    - apply mr_trace_timeout with t. unfold traceTask_timeout. rewrite Et. cbn.
      rewrite decide_True by done. done.
    - cbn. lia. }
  destruct (IH m' Hl') as (m'' & Hr & E). exists m''. split; [by eapply rtc_l|done].
Qed.

(** A task of the queue given to a new worker, which does it. *)
Lemma finish_one m d t rest :
  inv (mkWorld m d []) → tracers m = [] → taskSenders m = t :: rest → phase m ≠ FinishedPhase →
  ∃ m' d', rtc step (mkWorld m d []) (mkWorld m' d' []) ∧
    tracers m' = [] ∧ taskSenders m' = rest ∧ phase m' = phase m.
Proof.
  intros Hinv Htr Hs Hph.
  assert (t ∈ traceCh m ∧ (TaskType t = MapPhase ∨ TaskType t = ReducePhase)) as [Htc Hty].
  { pose proof (mi_traced _ _ _ _ _ _ _ _ Hinv) as Htc. cbn in Htc. rewrite Htc.
    destruct (mi_phase _ _ _ _ _ _ _ _ Hinv) as [(E & _ & c & Hp & _)|_ (E & _ & c & Hp & _)|];
      cbn [coord fs] in *; [..|done].
    - assert (t ∈ tasks_of MapPhase (len names)) as Ht by (rewrite <- Hp, Hs; apply elem_of_cons; by left).
      split; [apply elem_of_app; by left|]. apply tasks_of_spec in Ht as (i & -> & _). by left.
    - assert (t ∈ tasks_of ReducePhase nReduce) as Ht by (rewrite <- Hp, Hs; apply elem_of_cons; by left).
      split; [apply elem_of_app; by right|]. apply tasks_of_spec in Ht as (i & -> & _). by right. }
  set (m1 := m <| taskSenders := rest |> <| tracers ::= λ l, (t, false) :: l |>).
  assert (getTask_receive t m = Some m1) as Hrec.
  { unfold getTask_receive. rewrite Hs. cbn. rewrite decide_True by done.
    destruct Hty as [E|E]; rewrite E; by rewrite decide_False. }
  assert (∃ w, Worker_task (GetTaskHandler_reply t m1) = Some w ∧ task_of w = t) as (w & Hw & Ht).
  { unfold Worker_task. cbn. destruct Hty as [E|E]; rewrite E.
    - rewrite decide_True by done. eauto.
    - rewrite decide_False, decide_True by done. eauto. }
  assert (step (mkWorld m d []) (mkWorld m1 d [w])) as Hdisp.
  { pose proof (mr_dispatch Marshal Unmarshal sort_ByKey mapFunc reduceFunc input m d [] t m1 Hrec) as H.
    by rewrite Hw in H. }
  assert (ok d w) as Hok.
  { assert (inv (mkWorld m1 d [w])) as Hinv1 by (eapply rtc_inv; [exact Hinv|by apply rtc_once]).
    pose proof (mi_workers _ _ _ _ _ _ _ _ Hinv1) as Hws. by apply Forall_cons in Hws as [? _]. }
  destruct (worker_runs w d Hok) as [d' Hrun]. rewrite Ht in Hrun.
  set (m2 := m1 <| finishSenders ::= λ l, t :: l |>).
  assert (FinishTaskHandler t m1 = m2) as Hfin by (unfold FinishTaskHandler; by rewrite decide_True).
  eexists _, d'. split.
  { eapply rtc_l; [exact Hdisp|]. etrans; [by apply world_runs|].
    eapply rtc_l. { apply (mr_finish _ _ _ _ _ _ m1 d' [] t []). }
    rewrite Hfin. cbn [app].
    eapply rtc_l. { apply mr_trace_receive with t. unfold traceTask_receive. cbn. rewrite Htr. cbn.
      rewrite !decide_True by done. reflexivity. }
    apply rtc_once. apply mr_trace_count with t. unfold traceTask_count. cbn.
    rewrite decide_True by done. reflexivity. }
  by split_and!.
Qed.

Lemma drain k m d :
  length (taskSenders m) = k → inv (mkWorld m d []) → tracers m = [] → phase m ≠ FinishedPhase →
  ∃ m' d', rtc step (mkWorld m d []) (mkWorld m' d' []) ∧
    tracers m' = [] ∧ taskSenders m' = [] ∧ phase m' = phase m.
Proof.
  revert m d. induction k as [|k IH]; intros m d Hk Hinv Htr Hph.
  { apply nil_length_inv in Hk. by exists m, d. }
  destruct (taskSenders m) as [|t rest] eqn:Hs; [done|].
  destruct (finish_one m d t rest Hinv Htr Hs Hph) as (m1 & d1 & H1 & E1 & E2 & E3).
  destruct (IH m1 d1) as (m2 & d2 & H2 & ? & ? & E4); [cbn in Hk; rewrite E2; lia| |done|congruence|].
  { by eapply rtc_inv. }
  exists m2, d2. split; [by etrans|]. split_and!; congruence.
Qed.

Lemma next_phase m d :
  inv (mkWorld m d []) → tracers m = [] → phase m ≠ FinishedPhase →
  ∃ m' d', rtc step (mkWorld m d []) (mkWorld m' d' []) ∧ tracers m' = [] ∧
    ((phase m = MapPhase ∧ phase m' = ReducePhase) ∨ phase m' = FinishedPhase).
Proof.
  intros Hinv Htr Hph. destruct (drain _ m d eq_refl Hinv Htr Hph) as (m1 & d1 & H1 & E1 & E2 & E3).
  exists (getTask_check m1), d1. split; [etrans; [exact H1|apply rtc_once; constructor]|].
  assert (inv (mkWorld m1 d1 [])) as Hinv1 by by eapply rtc_inv.
  assert (taskFinished m1 = taskQuantity m1) as Eq.
  { pose proof (len_nonneg names) as Hlen.
    destruct (mi_phase _ _ _ _ _ _ _ _ Hinv1) as
      [(_ & Eq & c & Hp & Hf & _)|_ (_ & Eq & c & Hp & Hf & _)|]; cbn in *; [..|congruence];
      rewrite E1, E2 in Hp; cbn in Hp; apply Permutation_length in Hp;
      rewrite length_tasks_of in Hp; unfold len in *; lia. }
  unfold getTask_check. rewrite (proj2 (Z.eqb_eq _ _) Eq), E3.
  case_decide as Em; unfold execPhase; cbn.
  - split; [by destruct (_ =? -1)|]. left. split; [done|]. by destruct (_ =? -1).
  - split; [done|by right].
Qed.

(** C34.  A job never gets stuck: from every state it can reach, even if all workers
    have crashed and every reply so far was lost, there is a way on to a state
    in which the coordinator says it is done, as long as the input files are
    there. *)
Theorem mapreduce_can_finish w :
  reachable w → ∃ w', rtc step w w' ∧ Done (coord w') = true.
Proof using Hn Hfits Hinput JobLibrary0.
  intros Hw%mr_reachable_inv. destruct w as [m d ws].
  pose proof (rtc_inv _ _ Hw (crash_all m d ws)) as Hw1.
  destruct (stop_tracers _ m d eq_refl) as (m1 & H1 & E1). pose proof (rtc_inv _ _ Hw1 H1) as Hw2.
  assert (∀ m', phase m' = FinishedPhase → Done m' = true) as Hdone.
  { intros m' E. by apply bool_decide_eq_true. }
  destruct (decide (phase m1 = FinishedPhase)) as [E|Hne].
  { exists (mkWorld m1 d []). split; [etrans; [apply crash_all|done]|]. by apply Hdone. }
  destruct (next_phase m1 d Hw2 E1 Hne) as (m2 & d2 & H2 & E2 & Hp).
  assert (rtc step (mkWorld m d ws) (mkWorld m2 d2 [])) as Hr.
  { etrans; [apply crash_all|]. by etrans. }
  destruct Hp as [[_ Hp]|Hp]; [|exists (mkWorld m2 d2 []); split; [done|by apply Hdone]].
  destruct (next_phase m2 d2) as (m3 & d3 & H3 & E3 & [[Hp' _]|Hp']);
    [by eapply rtc_inv|done|by rewrite Hp|by rewrite Hp in Hp'|].
  exists (mkWorld m3 d3 []). split; [by etrans|by apply Hdone].
Qed.

End job.

(** *** What a map task leaves to the reduce tasks *)
Section shuffle.
Context `{JobLibrary Marshal Unmarshal sort_ByKey fits}.
Implicit Types (kva : list KeyValue) (d : gmap string string) (files : list (Z * string)).

(** Each file has its place, whatever the order. *)
Lemma renameTempFiles_lookup task files d r content :
  0 ≤ Id task → NoDup files.*1 → Forall (λ f, 0 ≤ f.1) files → (r, content) ∈ files →
  renameTempFiles task files d !! interName (Id task) r = Some content.
Proof.
  intros Ht Hnd Hpos Hin. unfold renameTempFiles.
  assert (∀ l d, foldl (λ d f, renameTempFile task f d) d l =
    foldl (λ c e, <[e.1 := e.2]> c) d ((λ f, (interName (Id task) f.1, f.2)) <$> l)) as ->.
  { induction l as [|f l IH]; intros d'; [done|]. apply IH. }
  assert (NoDup ((λ f, (interName (Id task) f.1, f.2)) <$> files).*1) as Hnd'.
  { assert (((λ f, (interName (Id task) f.1, f.2)) <$> files).*1 = interName (Id task) <$> files.*1) as ->
      by (by rewrite <- !list_fmap_compose).
    apply NoDup_fmap_2_strong; [|done].
    intros r1 r2 (f1 & -> & H1)%list_elem_of_fmap (f2 & -> & H2)%list_elem_of_fmap E. rewrite Forall_forall in Hpos.
    by apply (interName_inj (Id task) f1.1 (Id task) f2.1); [|apply Hpos| |apply Hpos|]. }
  rewrite foldl_insert_union by done. apply lookup_union_Some_l, elem_of_list_to_map_1; [done|].
  apply list_elem_of_fmap. by exists (r, content).
Qed.

(** C35.  Every pair a map task emits is read by exactly one reduce task.  The
    hash is a 31-bit number; with [n] reduce tasks the files are those of 0,
    ..., n - 1, and once they are renamed, in whatever order, reduce task [r]
    reads from its file exactly the pairs whose hash has the remainder [r], in
    the order in which they were emitted, so that together the reduce tasks
    read all pairs, each once.  Without reduce tasks a pair makes the map task
    panic, and only a pair does.  The pairs fit a line of the scanner. *)
Theorem mr_partition n m kva d :
  0 ≤ m → Forall fits kva →
  (∀ kv, 0 ≤ ihash (Key kv) < 2 ^ 31) ∧
  (0 < n → ∃ files, createTempFiles Marshal n kva = Some files ∧ files.*1 = seqZ 0 n ∧
    concat ((λ r, partition n r kva) <$> seqZ 0 n) ≡ₚ kva ∧
    ∀ order r, order ≡ₚ files → 0 ≤ r < n →
      readTempFile Unmarshal m (mkTask ReducePhase r) (renameTempFiles (mkTask MapPhase m) order d) =
        Some (partition n r kva)) ∧
  (createTempFiles Marshal 0 kva = None ↔ kva ≠ []).
Proof using All.
  intros Hm Hfits. split_and!.
  - intros kv. unfold ihash. rewrite Z.land_ones by lia. by apply Z.mod_pos_bound.
  - intros Hn. unfold createTempFiles. destruct (n =? 0) eqn:E; zbool; [lia|]. eexists. split; [done|].
    assert (((λ i, (i, tempFile Marshal n i kva)) <$> seqZ 0 n).*1 = seqZ 0 n) as Hfst.
    { rewrite <- list_fmap_compose. apply list_fmap_id. }
    split_and!; [done|by apply partitions_perm|]. intros order r Horder Hr.
    apply (readTempFile_spec m (mkTask ReducePhase r)); [done|].
    apply (renameTempFiles_lookup (mkTask MapPhase m)); cbn; [done| | |].
    + rewrite Horder, Hfst. apply NoDup_seqZ.
    + rewrite Horder. apply Forall_fmap, Forall_forall. intros i [? _]%elem_of_seqZ. done.
    + rewrite Horder. apply list_elem_of_fmap. exists r. split; [done|]. apply elem_of_seqZ. lia.
  - unfold createTempFiles. destruct kva as [|kv kva']; [by split|]. rewrite len_cons.
    pose proof (len_nonneg kva'). destruct (1 + len kva' =? 0) eqn:E; zbool; [lia|done].
Qed.
End shuffle.

(** [readTempFiles] never looks at the scanner's error: when a pair encodes to a
    line of 64 KiB or more, that pair and everything after it in the file is
    dropped without a word. *)
Theorem long_line_lost (Marshal : KeyValue → string) (Unmarshal : string → option KeyValue) kv more id t d :
  split_lines (Marshal kv +:+ String newline "") = [Marshal kv] →
  (MaxScanTokenSize ≤ String.length (Marshal kv))%nat →
  d !! interName id (Id t) = Some (Marshal kv +:+ String newline more) →
  readTempFile Unmarshal id t d = Some [].
Proof.
  intros Hl Hlen Hd. unfold readTempFile. rewrite Hd. unfold Scanner.
  rewrite (split_lines_app _ (Marshal kv)) by done. cbn [scan_lines].
  rewrite decide_False by lia. done.
Qed.

(** ** A job with the application [nocrash] *)

(** A simple encoding of pairs whose key has no colon. *)
Definition marshal (kv : KeyValue) : string := Key kv +:+ ":" +:+ Value kv.
Fixpoint unmarshal_from (key s : string) : option KeyValue :=
  match s with
  | EmptyString => None
  | String c s => if decide (c = ":"%char) then Some (mkKV key s)
                  else unmarshal_from (key +:+ String c "") s
  end.
Definition unmarshal (s : string) : option KeyValue := unmarshal_from "" s.

Definition fits_check (kv : KeyValue) : Prop :=
  unmarshal (marshal kv) = Some kv ∧ split_lines (marshal kv +:+ String newline "") = [marshal kv] ∧
  dropCR (marshal kv) = marshal kv ∧ (String.length (marshal kv) < MaxScanTokenSize)%nat.
#[export] Instance fits_check_dec kv : Decision (fits_check kv).
Proof. unfold fits_check. apply _. Defined.

Definition key_le (a b : KeyValue) : Prop := String.le (Key a) (Key b).
#[export] Instance key_le_dec a b : Decision (key_le a b).
Proof. unfold key_le. apply _. Defined.
#[export] Instance key_le_total : Total key_le.
Proof. intros a b. apply (total String.le). Qed.
#[export] Instance key_le_trans : Transitive key_le.
Proof. intros a b c. unfold key_le. by intros ->. Qed.

Lemma key_le_Less a b : key_le a b → ¬ Less b a.
Proof.
  unfold key_le, String.le, Less, String.leb. rewrite (String.compare_antisym (Key b) (Key a)).
  by destruct (String.compare (Key a) (Key b)).
Qed.

#[export] Instance simple_library : JobLibrary marshal unmarshal (merge_sort key_le) fits_check.
Proof.
  split; try (intros kv (? & ? & ? & ?); done).
  - intros l. apply merge_sort_Permutation.
  - intros l. pose proof (StronglySorted_merge_sort key_le l) as H.
    induction H as [|x l' Hl IH Hx]; constructor; [done|].
    eapply Forall_impl; [exact Hx|]. intros y. apply key_le_Less.
Qed.

(** The reduce function of [nocrash] sorts the values it gets. *)
Lemma nocrash_order_free : order_free nocrash.Reduce.
Proof.
  intros key vs vs' Hp. unfold nocrash.Reduce. f_equal.
  assert (∀ a b, nocrash.string_le a b ↔ String.le a b) as Hle.
  { intros a b. unfold nocrash.string_le, String.le. by rewrite Is_true_true. }
  assert (Transitive nocrash.string_le) by (intros a b c; rewrite !Hle; by intros ->).
  assert (Total nocrash.string_le) by (intros a b; rewrite !Hle; apply (total String.le)).
  assert (AntiSymm (=) nocrash.string_le) by (intros a b; rewrite !Hle; apply (anti_symm String.le)).
  apply (StronglySorted_unique nocrash.string_le); try apply StronglySorted_merge_sort; try apply _.
  by rewrite !merge_sort_Permutation.
Qed.

(** Runs of a job with one worker: the first task of the queue each time. *)
Inductive Act := ACheck | ADispatch | AWork | AFinish | AReceive | ACount | ATimeout | ACrash.

Definition worker_next (input : string → option string) (w : Worker) (d : gmap string string)
    : option (Worker * gmap string string) :=
  match w with
  | Mapping t f n =>
      match MapTask_temp marshal nocrash.Map input n f with
      | Some pending => Some (Renaming t pending, d)
      | None => None
      end
  | Renaming t (file :: pending) => Some (Renaming t pending, renameTempFile t file d)
  | Renaming t [] => Some (Finishing t, d)
  | Reading t mMap id temp =>
      if id <? mMap then
        match readTempFile unmarshal id t d with
        | Some kva => Some (Reading t mMap (id + 1) (temp ++ kva), d)
        | None => None
        end
      else Some (Finishing t, ReduceTask_output (merge_sort key_le) nocrash.Reduce t temp d)
  | Finishing t => None
  end.

Definition with_coord (w : World) (m : option Coordinator) : option World :=
  (λ m, mkWorld m (fs w) (workers w)) <$> m.

Definition act (input : string → option string) (w : World) (a : Act) : option World :=
  let m := coord w in
  match a with
  | ACheck => Some (mkWorld (getTask_check m) (fs w) (workers w))
  | ADispatch =>
      match taskSenders m with
      | t :: _ =>
          match getTask_receive t m with
          | Some m' => Some (mkWorld m' (fs w)
                               (option_list (Worker_task (GetTaskHandler_reply t m')) ++ workers w))
          | None => None
          end
      | [] => None
      end
  | AWork =>
      match workers w with
      | wk :: ws => (λ wd, mkWorld m wd.2 (wd.1 :: ws)) <$> worker_next input wk (fs w)
      | [] => None
      end
  | AFinish =>
      match workers w with
      | Finishing t :: ws => Some (mkWorld (FinishTaskHandler t m) (fs w) ws)
      | _ => None
      end
  | AReceive => match finishSenders m with t :: _ => with_coord w (traceTask_receive t m) | [] => None end
  | ACount => match tracers m with (t, _) :: _ => with_coord w (traceTask_count t m) | [] => None end
  | ATimeout => match tracers m with (t, _) :: _ => with_coord w (traceTask_timeout t m) | [] => None end
  | ACrash => match workers w with _ :: ws => Some (mkWorld m (fs w) ws) | [] => None end
  end.

Fixpoint run (input : string → option string) (w : World) (acts : list Act) : option World :=
  match acts with
  | [] => Some w
  | a :: acts => match act input w a with Some w => run input w acts | None => None end
  end.

Definition nocrash_step := mr_step marshal unmarshal (merge_sort key_le) nocrash.Map nocrash.Reduce.

Lemma worker_next_step input w d w' d' :
  worker_next input w d = Some (w', d') →
  worker_step marshal unmarshal (merge_sort key_le) nocrash.Map nocrash.Reduce input w d w' d'.
Proof.
  destruct w as [t f n|t [|file pending]|t mMap id temp|t]; cbn; intros H.
  - destruct (MapTask_temp _ _ _ _ _) eqn:E; [|done]. injection H as <- <-. by constructor.
  - injection H as <- <-. constructor.
  - injection H as <- <-. constructor. cbn. by rewrite decide_True.
  - case_if_in H; zbool.
    + destruct (readTempFile _ _ _ _) eqn:Er; [|done]. injection H as <- <-. by constructor.
    + injection H as <- <-. by constructor.
  - done.
Qed.

Lemma act_step input w a w' : act input w a = Some w' → nocrash_step input w w'.
Proof.
  destruct w as [m d ws]. destruct a; cbn; intros H.
  - injection H as <-. constructor.
  - destruct (taskSenders m) as [|t l]; [done|]. destruct (getTask_receive t m) eqn:E; [|done].
    injection H as <-. by constructor.
  - destruct ws as [|wk ws]; [done|]. destruct (worker_next input wk d) as [[wk' d']|] eqn:E; [|done].
    injection H as <-. apply (mr_work _ _ _ _ _ _ m d [] wk ws wk' d'). by apply worker_next_step.
  - destruct ws as [|[| | |t] ws]; try done. injection H as <-. apply (mr_finish _ _ _ _ _ _ m d [] t ws).
  - destruct (finishSenders m) as [|t l]; [done|]. unfold with_coord in H. cbn in H.
    destruct (traceTask_receive t m) eqn:E; [|done]. injection H as <-. by eapply mr_trace_receive.
  - destruct (tracers m) as [|[t b] l]; [done|]. unfold with_coord in H. cbn in H.
    destruct (traceTask_count t m) eqn:E; [|done]. injection H as <-. by eapply mr_trace_count.
  - destruct (tracers m) as [|[t b] l]; [done|]. unfold with_coord in H. cbn in H.
    destruct (traceTask_timeout t m) eqn:E; [|done]. injection H as <-. by eapply mr_trace_timeout.
  - destruct ws as [|wk ws]; [done|]. injection H as <-. apply (mr_crash _ _ _ _ _ _ m d [] wk ws).
Qed.

Lemma run_steps input acts w w' : run input w acts = Some w' → rtc (nocrash_step input) w w'.
Proof.
  revert w. induction acts as [|a acts IH]; intros w; cbn; [by intros [= ->]|].
  destruct (act input w a) as [w1|] eqn:E; [|done]. intros H. eapply rtc_l; [by eapply act_step|auto].
Qed.

(** Two input files, two reduce tasks; the first worker crashes while it
    renames its files, and its task is given out again. *)
Definition two_files (name : string) : option string :=
  if decide (name = "x") then Some "some text" else if decide (name = "y") then Some "more" else None.
Definition one_map : list Act :=
  [ADispatch; AWork; AWork; AWork; AWork; AFinish; AReceive; ACount].
Definition one_reduce : list Act :=
  [ADispatch; AWork; AWork; AWork; AFinish; AReceive; ACount].
Definition map_acts : list Act :=
  [ADispatch; AWork; AWork; ACrash; ATimeout] ++ one_map ++ one_map ++ [ACheck].
Definition job_start : World := mkWorld (MakeCoordinator ["x"; "y"] 2) ∅ [].
Definition in_reduce_phase : World :=
  default job_start (run two_files job_start (map_acts ++ [ADispatch])).
Definition job_end : World :=
  default job_start (run two_files job_start (map_acts ++ one_reduce ++ one_reduce ++ [ACheck])).

Definition nocrash_reachable :=
  mr_reachable marshal unmarshal (merge_sort key_le) nocrash.Map nocrash.Reduce two_files ["x"; "y"] 2.

Lemma mr_run_reachable acts : nocrash_reachable (default job_start (run two_files job_start acts)).
Proof.
  exists ∅. destruct (run two_files job_start acts) as [w|] eqn:E; [|apply rtc_refl].
  by eapply run_steps.
Qed.

Lemma nocrash_fits name content :
  name ∈ ["x"; "y"] → two_files name = Some content → Forall fits_check (nocrash.Map name content).
Proof.
  intros Hin H. assert (name = "x" ∧ content = "some text" ∨ name = "y" ∧ content = "more") as [[-> ->]|[-> ->]].
  { unfold two_files in H. repeat case_decide; naive_solver. }
  all: apply (bool_decide_unpack _); vm_compute; exact I.
Qed.

Lemma mapreduce_correct_witness :
  Done (coord job_end) = true ∧ ∃ lines outs,
    sequential (merge_sort key_le) nocrash.Map nocrash.Reduce two_files ["x"; "y"] = Some lines ∧
    (∀ r, 0 ≤ r < 2 → fs job_end !! outName r = Some (join_lines (outs r))) ∧
    concat (outs <$> seqZ 0 2) ≡ₚ lines.
Proof.
  assert (Done (coord job_end) = true) as Hd by (vm_compute; reflexivity).
  split; [exact Hd|].
  exact (mapreduce_correct marshal unmarshal (merge_sort key_le) fits_check nocrash.Map nocrash.Reduce
    two_files ["x"; "y"] 2 eq_refl nocrash_fits job_end nocrash_order_free (mr_run_reachable _) Hd).
Defined.

Lemma reduce_finds_files_witness :
  ∃ t temp, workers in_reduce_phase = [Reading t 2 0 temp] ∧
    readTempFile unmarshal 0 t (fs in_reduce_phase) =
      Some (partition 2 (Id t) (kva_of nocrash.Map two_files ["x"; "y"] 0)).
Proof.
  assert (workers in_reduce_phase = [Reading (mkTask ReducePhase 0) 2 0 []]) as Hw
    by (vm_compute; reflexivity).
  exists (mkTask ReducePhase 0), []. split; [exact Hw|].
  refine (reduce_finds_files marshal unmarshal (merge_sort key_le) fits_check nocrash.Map nocrash.Reduce
    two_files ["x"; "y"] 2 eq_refl nocrash_fits in_reduce_phase (mkTask ReducePhase 0) 2 0 []
    (mr_run_reachable _) _ eq_refl).
  rewrite Hw. apply list_elem_of_singleton. reflexivity.
Defined.

Lemma nocrash_inputs i : 0 ≤ i < len ["x"; "y"] → is_Some (two_files (name_of ["x"; "y"] i)).
Proof.
  intros Hi. assert (i = 0 ∨ i = 1) as [-> | ->] by (unfold len in Hi; cbn in Hi; lia); eexists; reflexivity.
Qed.

Lemma mapreduce_can_finish_witness :
  Done (coord in_reduce_phase) = false ∧
  ∃ w', rtc (nocrash_step two_files) in_reduce_phase w' ∧ Done (coord w') = true.
Proof.
  split; [vm_compute; reflexivity|].
  exact (mapreduce_can_finish marshal unmarshal (merge_sort key_le) fits_check nocrash.Map nocrash.Reduce
    two_files ["x"; "y"] 2 eq_refl nocrash_fits nocrash_inputs in_reduce_phase (mr_run_reachable _)).
Defined.

Definition mr_partition_example : list KeyValue := nocrash.Map "x" "some text".
Lemma mr_partition_witness :
  ∃ files, createTempFiles marshal 2 mr_partition_example = Some files ∧ files.*1 = [0; 1] ∧
    readTempFile unmarshal 3 (mkTask ReducePhase 1) (renameTempFiles (mkTask MapPhase 3) (reverse files) ∅) =
      Some [mkKV "b" "1"; mkKV "d" "xyzzy"].
Proof.
  destruct (mr_partition (H := simple_library) 2 3 mr_partition_example ∅ ltac:(done)) as (_ & H & _).
  - apply (bool_decide_unpack _). vm_compute. exact I.
  - destruct (H eq_refl) as (files & Hf & Hfst & _ & Hread). exists files. split; [exact Hf|]. split; [rewrite Hfst; reflexivity|].
    rewrite (Hread (reverse files) 1); [vm_compute; reflexivity|apply reverse_Permutation|done].
Defined.

(** A string of [n] letters. *)
Fixpoint letters (n : nat) : string :=
  match n with O => "" | S n => String "x" (letters n) end.
Lemma letters_line n : split_lines (letters n +:+ String newline "") = [letters n].
Proof.
  induction n as [|n IH]; [reflexivity|]. cbn [letters]. rewrite app_cons_string. cbn [split_lines].
  rewrite decide_False by done. by rewrite IH.
Qed.
Lemma letters_length n : String.length (letters n) = n.
Proof. induction n as [|n IH]; [done|]. cbn. by rewrite IH. Qed.

(** A pair with a long value, in front of another one. *)
Lemma long_line_lost_witness :
  let encode kv := letters (String.length (Key kv) + MaxScanTokenSize) in
  readTempFile unmarshal 0 (mkTask ReducePhase 0)
    {[interName 0 0 := encode (mkKV "k" "") +:+ String newline "a:b"]} = Some [].
Proof.
  intros encode. apply (long_line_lost encode unmarshal (mkKV "k" "") "a:b").
  - apply letters_line.
  - unfold encode. rewrite letters_length. cbn. lia.
  - by rewrite lookup_singleton_eq.
Defined.
